(* ===== verification/_CoqProject ===== *)
-Q . S2P
Prelude.v
Interfaces.v
Crypto.v
Packet.v
Instances.v
OnionRouting.v
ReplyStore.v
UnitTests.v
NeighTable.v
Topology.v
ShortestPath.v
Directory.v
Daemon.v
DaemonSafety.v
Socket.v
DaemonRun.v
Network.v
RoundTrip.v
Link.v
GossipLoop.v
Dht.v
Rendezvous.v
CryptSession.v
HavenSocket.v
HavenNet.v
Conversation.v
Text.v
Proxy.v
Config.v
NetAddr.v
Control.v
GraphDump.v
Startup.v
Stream.v
StreamNet.v
Services.v
GlobalRpc.v
RpcNet.v
DhtNet.v
Commands.v
ShadowGen.v
ShadowFiles.v
LinkStream.v
LinkControl.v
UdpForward.v
Utilities.v
