(* ===== verification/Prelude.v ===== *)
(** * Earendil: a verification development

    Earendil is an anonymous overlay network.  Nodes are named by the
    fingerprint of a signing key.  Relays and clients keep links to their
    neighbors, gossip a graph of signed links, and send each other messages
    wrapped in onion-encrypted packets; an anonymous sender is answered through
    reply blocks it has sent along.  A haven is a service behind an anonymous
    identity: it registers with a rendezvous relay, publishes that relay in a
    distributed hash table, and talks to its clients through the relay in an
    encrypted session.

    ** The program and its model

    Every handler of the source is a function on the state it reads and writes,
    in the error monad [M] of this file: [Ok], [Err], [Panic] (in every build
    profile a panic aborts the process) and [OutOfFuel].  Tasks run one at a
    time, a handler at one instant of the clock.  Third-party crates are type
    classes with the behaviour the program relies on as laws; [Instances.v]
    gives each a small executable instance, with which the witnesses run the
    model.  Paths below are under [src/].

    - [Prelude]: outcomes, the monad and its weakest preconditions, bytes and
      byte arrays, machine integers, list lemmas, automation.
    - [Interfaces]: stdcode, indexmap and dashmap, hash iteration, lru,
      channels, moka caches, the replay filter.
    - [Crypto]: the primitives; [libraries/earendil_crypt] (module [Identity])
      and [libraries/earendil_packet/src/crypt.rs] (module [Onion]).
    - [Packet]: [inner.rs], [raw.rs] and [reply_block.rs] of
      [libraries/earendil_packet].  [OnionRouting] proves them correct.
    - [Topology], [ShortestPath]: [libraries/earendil_topology].  [Directory]
      gives the abstract directory that the graph refines.
    - [ReplyStore], [NeighTable]: [daemon/reply_block_store.rs] and
      [daemon/neightable.rs].
    - [Daemon]: [daemon/context.rs], [daemon/rrb_balance.rs],
      [daemon/peel_forward.rs].  [DaemonSafety] proves its handlers safe,
      [DaemonRun] runs any sequence of events from start-up, and [Network]
      connects daemons.
    - [Socket]: [socket/n2r_socket.rs].  [RoundTrip] follows a question and
      its answer between two sockets across a network, both ways (the test
      [n2r] of [tests/sockets.rs]).
    - [Link]: [daemon/link_protocol.rs], [daemon/gossip.rs],
      [daemon/inout_route.rs] and the handlers of [daemon/link_connection.rs].
      [GossipLoop]: the loop of [daemon/gossip.rs] with its tasks.
      [LinkStream]: the packet stream of the latter.  [LinkControl]: its
      dispatching loop, its control stream and its connection pool.
    - [Dht]: [daemon/dht.rs], [global_rpc/server.rs] and the signed records of
      [haven_util.rs].  [Rendezvous]: the relay's forwarding loop in
      [daemon.rs].  [GlobalRpc]: [global_rpc/transport.rs] and the server task
      of [daemon.rs]; [RpcNet] runs a call over the network of [RoundTrip], and
      [DhtNet] the methods of [global_rpc.rs] and [global_rpc/server.rs].
    - [CryptSession], [HavenSocket]: [socket/crypt_session.rs] and
      [socket/haven_socket.rs].  [HavenNet] composes a client, a relay and a
      haven; [Conversation] lets them go on talking (the test [haven] of
      [tests/sockets.rs]).
    - [Stream]: [stream.rs] and [stream/listener.rs].  [StreamNet] runs a
      stream over the sessions of [Conversation].
    - [Services]: the loops of [haven_util.rs], [daemon/tcp_forward.rs] and
      [daemon/socks5.rs].
    - [Startup]: [main_daemon] and [Daemon::init] of [daemon.rs], and the route
      tasks of [daemon/inout_route.rs].
    - [Text], [Proxy], [Config]: endpoints as text, the SOCKS5 entry with the
      proxy haven, and [config.rs].  [NetAddr]: socket addresses as text.
    - [UdpForward]: [daemon/udp_forward.rs] and the UDP part of
      [haven_util.rs].
    - [Control], [GraphDump]: the socket wrapper of [socket.rs] and
      [daemon/control_protocol_impl.rs].  [Commands]: [control_protocol.rs],
      [commands.rs] and [main.rs], with the control server as an instance of
      the protocol's class.
    - [UnitTests]: the test modules of [libraries/earendil_packet] and of
      [daemon/reply_block_store.rs].  [ShadowGen]: the two generators of test
      networks under [shadow-tests/]; [ShadowFiles]: the files they are written
      to.  [Utilities]: the tools under [utilities/] and the benchmarks of
      [libraries/earendil_packet].

    Objects the source shares (the two halves of a channel, a session held by a
    cache and by its task, a stream's state held by a table and by its ticker)
    are handles into a store, so that aliasing is visible: dropping a socket
    unbinds whichever socket is bound at its endpoint, a session that leaves
    the cache ends its task.

    ** What the theorems show

    - Onion routing: packets and replies reach their destination hop by hop and
      decode to what was sent; the constructor's and the parser's outcomes are
      known on every input.
    - The graph refines a directory of signed links, and its breadth-first
      search terminates with a shortest path.
    - The daemon never panics and never loops for ever, whatever packets,
      sends, sockets, links, clocks, graph updates and neighbors it sees (with
      overflow checks: as long as no document is dated in the future); a message
      sent over ready links reaches the socket bound at its destination, and an
      anonymous sender gets its answer back through a reply block.  The process
      with its configured loops stays up under stated conditions and is
      aborted in all other cases, and an out-route reconnects every minute.
    - Sockets deliver batches in order; the batcher loses nothing that fits.
      Reply blocks are used at most once.
    - Links are authenticated, the gossip loop survives any peers and has a
      bounded number of rounds running, two honest neighbors end with the same
      document signed by both; packets cross a link byte for byte or are lost
      in known ways, and calls over a link return the other side's answer.
    - A published haven is found by a node that knows the same relays once an
      honest one of them answers first, also when registration, insertion and
      lookup are remote calls over the network; no replica can forge a locator;
      a relay forwards only for registered havens.
    - A session delivers each message at most once under loss, repetition and
      reordering, and never repeats a nonce; the sessions of a client and a
      haven, with the relay between them, refine two bounded queues; the store
      of sessions stays well typed.
    - A stream listener, seen by one client, is that client's state machine
      alone, also through a haven's sessions; a remote call returns after lost
      attempts, as long as its deadlines fit a clock, and leaves no socket behind;
      answers to UDP datagrams go back to who asked for an hour after the last
      one, if no socket fails, and never to anyone else.
    - The control server never panics, however often it is started; its cache of
      anonymous identities is equivalent to recomputing them; what it prints of
      endpoints and links is what they are, and the routes it shows can be used
      by others once their protocol and address are filled in; identity files are
      created once and never changed; generated test networks have matching
      configurations.
    - Theorems of kind "error" prove where the code falls short: a client does
      not authenticate its haven, a repeated SYN breaks a stream.  Further ones
      are proved as theorems outside the list of claims, next to the component
      they concern: a clock in the past drops fresh links, an oversized message
      blocks a socket, a malformed message resets a relay's conversations, a
      repeated bind makes a socket deaf, a slow upstream stalls a haven's
      service, every second attempt of an out-route is cut short.

    ** Bounds and fuel

    Integers are [N] or [Z] with the wrap-around of their width written out
    where the code can reach it ([u64_sub_wrapping], [u64_succ], the two-byte
    length of the proxy frame, the doubling timeouts); overflow checks are an
    argument where the build profile decides.  Loops over data are structural.
    The others take fuel: the search and the replenishing loop compute a bound
    from their state and are proved never to exhaust it; [recv_from] needs one
    more than the messages queued; [random_dock] and [actualize_file] can
    really run for ever, on an unlucky generator or an unreadable file, and
    their theorems say when they do not.

    ** Not modelled

    Operating-system sockets and timers, the obfuscated transport and the
    multiplexer (sosistab2), the HTTP server and client of the control
    protocol, JSON and YAML forms, the parsing of the command line, and the
    copying of bytes between a socket and a stream ([io::copy], and the
    [AsyncRead] and [AsyncWrite] of [stream.rs], which pass through to
    sosistab2): they are I/O around the modelled handlers.  The rates that the
    tools print are left out.  Randomness is a generator threaded through the state, and secrecy
    is not stated: the laws of the primitives are functional (decryption
    inverts encryption, both sides of a key exchange agree, signatures verify).

    Two compositions stop at an interface.  The sessions of [HavenNet] pass their
    messages between the N2R sockets of the three nodes directly, and not over
    the network of [RoundTrip], which follows one question and its answer; and a
    stream's bytes are those that sosistab2's state machine gives out.  A handler
    runs at one instant, so that two tasks of a daemon interleave between, but
    not inside, handlers. *)

From Stdlib Require Export NArith ZArith Lia Strings.Byte.
From stdpp Require Export base tactics option gmap numbers.
From stdpp Require Export list.


#[export] Set Warnings "-clear-no-such-hyp".

(** * Outcomes

    A Rust computation returns a value, returns [Err], or panics (with
    [panic = 'abort'] in every profile of [src/Cargo.toml], a panic is the end
    of the process).  [OutOfFuel] is a computation that has not returned: the
    bound of a translated [loop]/[while] is used up, or it waits for something
    that has not come; the theorems show when it cannot occur. *)

Inductive outcome (E A : Type) : Type :=
  | Ok (a : A)
  | Err (e : E)
  | Panic
  | OutOfFuel.
Arguments Ok {E A} a.
Arguments Err {E A} e.
Arguments Panic {E A}.
Arguments OutOfFuel {E A}.

#[export] Instance outcome_ret E : MRet (outcome E) := λ A a, Ok a.

#[export] Instance outcome_bind E : MBind (outcome E) := λ A B f o,
  match o with
  | Ok a => f a
  | Err e => Err e
  | Panic => Panic
  | OutOfFuel => OutOfFuel
  end.

(** [Result::map_err]. *)
Definition map_err {E F A} (f : E → F) (o : outcome E A) : outcome F A :=
  match o with
  | Ok a => Ok a
  | Err e => Err (f e)
  | Panic => Panic
  | OutOfFuel => OutOfFuel
  end.

(** [Option::ok_or]. *)
Definition ok_or {E A} (e : E) (o : option A) : outcome E A :=
  match o with Some a => Ok a | None => Err e end.

(** [Option::unwrap], indexing a map with [m[&k]], and slicing. *)
Definition unwrap {E A} (o : option A) : outcome E A :=
  match o with Some a => Ok a | None => Panic end.

(** [Result::ok]. *)
Definition outcome_ok {E A} (o : outcome E A) : option A :=
  match o with Ok a => Some a | _ => None end.

Definition is_ok {E A} (o : outcome E A) : bool :=
  match o with Ok _ => true | _ => false end.

(** A computation that reads and updates a state.  Writes made before an
    [Err] persist, as they do in the source. *)
Definition M (S E A : Type) : Type := S → outcome E A * S.

#[export] Instance M_ret S E : MRet (M S E) := λ A a s, (Ok a, s).

#[export] Instance M_bind S E : MBind (M S E) := λ A B f m s,
  match m s with
  | (Ok a, s') => f a s'
  | (Err e, s') => (Err e, s')
  | (Panic, s') => (Panic, s')
  | (OutOfFuel, s') => (OutOfFuel, s')
  end.

Definition lift {S E A} (o : outcome E A) : M S E A := λ s, (o, s).
Definition throw {S E A} (e : E) : M S E A := λ s, (Err e, s).
Definition get_state {S E} : M S E S := λ s, (Ok s, s).
Definition put_state {S E} (s : S) : M S E unit := λ _, (Ok tt, s).
Definition modify {S E} (f : S → S) : M S E unit := λ s, (Ok tt, f s).
Definition gets {S E A} (f : S → A) : M S E A := λ s, (Ok (f s), s).
Definition map_err_m {S E F A} (f : E → F) (m : M S E A) : M S F A :=
  λ s, let (o, s') := m s in (map_err f o, s').

(** Run a computation on a component of the state. *)
Definition zoom {S T E A} (proj : S → T) (upd : T → S → S) (m : M T E A) : M S E A :=
  λ s, let (o, t) := m (proj s) in (o, upd t s).

Section M_lemmas.
  Context {S E A B : Type}.
  Implicit Types (m : M S E A) (f : A → M S E B).

Lemma M_bind_ok m f s a s' :
  m s = (Ok a, s') → (m ≫= f) s = f a s'.
Proof. unfold mbind, M_bind. by intros ->. Qed.

Lemma M_bind_ok_inv m f s b s'' :
  (m ≫= f) s = (Ok b, s'') → ∃ a s', m s = (Ok a, s') ∧ f a s' = (Ok b, s'').
Proof.
  unfold mbind, M_bind. destruct (m s) as [[a|e| |] s']; naive_solver.
Qed.

Lemma M_bind_err_inv m f s e s'' :
  (m ≫= f) s = (Err e, s'') →
  m s = (Err e, s'') ∨ ∃ a s', m s = (Ok a, s') ∧ f a s' = (Err e, s'').
Proof.
  unfold mbind, M_bind. destruct (m s) as [[a|e'| |] s']; naive_solver.
Qed.

End M_lemmas.

(** A computation returns when it neither panics nor runs forever. *)
Definition returns {E A} (o : outcome E A) : Prop :=
  match o with Ok _ | Err _ => True | Panic | OutOfFuel => False end.

Lemma returns_bind {E A B} (o : outcome E A) (f : A → outcome E B) :
  returns o → (∀ a, o = Ok a → returns (f a)) → returns (o ≫= f).
Proof. destruct o; cbn; intros ? H; auto. Qed.

Lemma returns_map_err {E F A} (f : E → F) (o : outcome E A) :
  returns (map_err f o) ↔ returns o.
Proof. by destruct o. Qed.

Lemma returns_ok_or {E A} (e : E) (o : option A) : returns (ok_or e o).
Proof. by destruct o. Qed.

Lemma returns_unwrap {E A} (o : option A) : is_Some o → returns (E:=E) (unwrap o).
Proof. by intros [a ->]. Qed.

(** ** Weakest preconditions

    [wp m Q R s]: run from [s], [m] neither panics nor runs out of fuel; if it
    returns a value the value and the new state satisfy [Q], and if it returns
    an error the new state satisfies [R]. *)
Definition wp {S E A} (m : M S E A) (Q : A → S → Prop) (R : S → Prop) (s : S) : Prop :=
  match m s with
  | (Ok a, s') => Q a s'
  | (Err _, s') => R s'
  | (Panic, _) | (OutOfFuel, _) => False
  end.

Section wp.
  Context {S E A B : Type}.
  Implicit Types (m : M S E A) (R : S → Prop) (s : S).

Lemma wp_mono m (Q Q' : A → S → Prop) R R' s :
  wp m Q R s → (∀ a s', Q a s' → Q' a s') → (∀ s', R s' → R' s') → wp m Q' R' s.
Proof. unfold wp. destruct (m s) as [[] ?]; auto. Qed.

Lemma wp_bind m (f : A → M S E B) Q R s :
  wp m (λ a, wp (f a) Q R) R s → wp (m ≫= f) Q R s.
Proof. unfold wp, mbind, M_bind. by destruct (m s) as [[] ?]. Qed.

Lemma wp_ret (a : A) (Q : A → S → Prop) R s : Q a s → wp (E:=E) (mret a) Q R s.
Proof. done. Qed.

Lemma wp_get (Q : S → S → Prop) R s : Q s s → wp (E:=E) get_state Q R s.
Proof. done. Qed.

Lemma wp_put (Q : unit → S → Prop) R s s' : Q tt s' → wp (E:=E) (put_state s') Q R s.
Proof. done. Qed.

Lemma wp_modify (f : S → S) (Q : unit → S → Prop) R s :
  Q tt (f s) → wp (E:=E) (modify f) Q R s.
Proof. done. Qed.

Lemma wp_throw (e : E) (Q : A → S → Prop) R s : R s → wp (throw e) Q R s.
Proof. done. Qed.

Lemma wp_lift (o : outcome E A) (Q : A → S → Prop) R s :
  returns o → (∀ a, o = Ok a → Q a s) → R s → wp (lift o) Q R s.
Proof. unfold wp, lift. destruct o; cbn; auto. Qed.

Lemma wp_map_err {F} (f : E → F) m Q R s : wp m Q R s → wp (map_err_m f m) Q R s.
Proof. unfold wp, map_err_m. by destruct (m s) as [[] ?]. Qed.

End wp.

(** A computation on a component, when it always returns. *)
Lemma wp_zoom {S T E A} (proj : S → T) upd (m : M T E A) (Q : A → S → Prop) R s :
  returns (m (proj s)).1 →
  (∀ a t, m (proj s) = (Ok a, t) → Q a (upd t s)) → (∀ t, R (upd t s)) →
  wp (zoom proj upd m) Q R s.
Proof. unfold wp, zoom. destruct (m (proj s)) as [[] t]; cbn; auto; done. Qed.

Lemma wp_on {S T E A} (proj : S → T) upd (m : M T E A) (Q : A → S → Prop) R s :
  wp m (λ a t, Q a (upd t s)) (λ t, R (upd t s)) (proj s) → wp (zoom proj upd m) Q R s.
Proof. unfold wp, zoom. by destruct (m (proj s)) as [[] t]. Qed.

(** Decompose a successful run of a monadic computation. *)
Ltac m_inv H :=
  repeat match type of H with
  | (_ ≫= _) _ = (Ok _, _) =>
      let a := fresh "a" in let s := fresh "s" in let Hm := fresh "Hm" in
      apply M_bind_ok_inv in H as (a & s & Hm & H)
  | (let '(_, _) := ?p in _) _ = _ => destruct p
  end.

(** * Bytes *)

#[export] Instance byte_eq_decision : EqDecision byte := Byte.byte_eq_dec.

#[export] Program Instance byte_countable : Countable byte := {|
  encode := λ b, encode (Byte.to_N b);
  decode := λ p, decode p ≫= Byte.of_N
|}.
Next Obligation. intros b; simpl. rewrite decode_encode; simpl. apply Byte.of_to_N. Qed.

(** The exclusive or of two [u8]s, bit by bit. *)
Definition byte_xor (a b : byte) : byte :=
  let '(a0,(a1,(a2,(a3,(a4,(a5,(a6,a7))))))) := Byte.to_bits a in
  let '(b0,(b1,(b2,(b3,(b4,(b5,(b6,b7))))))) := Byte.to_bits b in
  Byte.of_bits (xorb a0 b0,(xorb a1 b1,(xorb a2 b2,(xorb a3 b3,
    (xorb a4 b4,(xorb a5 b5,(xorb a6 b6,xorb a7 b7))))))).

Definition byte_eqb (a b : byte) : bool := Byte.eqb a b.

(** Tactic: case on every byte of the goal through its eight bits. *)
Ltac byte_bits :=
  unfold byte_xor;
  repeat match goal with
  | |- context [Byte.to_bits ?b] => is_var b; destruct (Byte.to_bits b) as (?&?&?&?&?&?&?&?) eqn:?
  | |- context [Byte.to_bits (Byte.of_bits _)] => rewrite Byte.to_bits_of_bits
  end.

Lemma byte_xor_comm a b : byte_xor a b = byte_xor b a.
Proof.
  byte_bits. f_equal. repeat (apply (f_equal2 pair); [apply xorb_comm|]). apply xorb_comm.
Qed.

Lemma byte_xor_assoc a b c : byte_xor a (byte_xor b c) = byte_xor (byte_xor a b) c.
Proof. byte_bits. by rewrite !xorb_assoc. Qed.

Lemma byte_xor_nilp a : byte_xor a a = x00.
Proof. byte_bits. by rewrite !xorb_nilpotent. Qed.

Lemma byte_xor_0_r a : byte_xor a x00 = a.
Proof.
  rewrite <-(Byte.of_bits_to_bits a) at 2. byte_bits. cbn. by rewrite !xorb_false_r.
Qed.

Lemma byte_xor_cancel a k : byte_xor (byte_xor a k) k = a.
Proof. by rewrite <-byte_xor_assoc, byte_xor_nilp, byte_xor_0_r. Qed.

(** * Fixed-size byte arrays: the type [[u8; n]] *)

Record array (n : N) : Type := mk_array {
  array_bytes :> list byte;
  array_len : (N.of_nat (length array_bytes) =? n)%N = true
}.
Arguments mk_array {n} _ _.
Arguments array_bytes {n} _.
Arguments array_len {n} _.

Lemma array_eq {n} (a b : array n) : array_bytes a = array_bytes b → a = b.
Proof.
  destruct a as [l1 H1], b as [l2 H2]; simpl. intros ->.
  f_equal. apply (proof_irrel H1 H2).
Qed.

#[export] Instance array_eq_dec n : EqDecision (array n).
Proof.
  intros a b. destruct (decide (array_bytes a = array_bytes b)) as [H|H].
  - left. by apply array_eq.
  - right. by intros ->.
Defined.

Lemma array_length {n} (a : array n) : length a = N.to_nat n.
Proof. pose proof (array_len a) as H. apply N.eqb_eq in H. lia. Qed.

(** [<[u8; n]>::try_from(&[u8])]. *)
Definition try_into (n : N) (l : list byte) : option (array n) :=
  match bool_dec (N.of_nat (length l) =? n)%N true with
  | left H => Some (mk_array l H)
  | right _ => None
  end.

Lemma try_into_bytes {n} (a : array n) : try_into n a = Some a.
Proof.
  unfold try_into. destruct (bool_dec _ _) as [H|H].
  - f_equal. by apply array_eq.
  - destruct H. apply array_len.
Qed.

Lemma try_into_Some n l (a : array n) : try_into n l = Some a ↔ array_bytes a = l.
Proof.
  split; [|intros <-; apply try_into_bytes].
  unfold try_into. destruct (bool_dec _ _); by intros [= <-].
Qed.

Lemma try_into_None n l : try_into n l = None ↔ length l ≠ N.to_nat n.
Proof.
  unfold try_into. destruct (bool_dec _ _) as [H|H]; split; try done.
  - intros Hn. exfalso. apply N.eqb_eq in H. lia.
  - intros _ ?. destruct H. apply N.eqb_eq. lia.
Qed.

Lemma try_into_is_Some n l : length l = N.to_nat n → ∃ a, try_into n l = Some a.
Proof.
  intros H. destruct (try_into n l) eqn:E; [eauto|]. by apply try_into_None in E.
Qed.

#[export] Program Instance array_countable n : Countable (array n) := {|
  encode := λ a, encode (array_bytes a);
  decode := λ p, decode p ≫= try_into n
|}.
Next Obligation.
  intros n a; simpl. rewrite decode_encode; simpl. apply try_into_bytes.
Qed.

(** [array_ref![l, off, len]] on a slice: it panics out of range. *)
Definition array_ref {E} (l : list byte) (off len : N) : outcome E (array len) :=
  unwrap (try_into len (take (N.to_nat len) (drop (N.to_nat off) l))).

Lemma array_ref_ok {E} l off len (a : array len) :
  take (N.to_nat len) (drop (N.to_nat off) l) = a → array_ref (E:=E) l off len = Ok a.
Proof. intros H. unfold array_ref. rewrite H. by rewrite try_into_bytes. Qed.

(** [[b; n]]. *)
Program Definition array_repeat (n : N) (b : byte) : array n :=
  mk_array (replicate (N.to_nat n) b) _.
Next Obligation. intros. rewrite length_replicate. apply N.eqb_eq. lia. Qed.

Definition zeros (n : N) : array n := array_repeat n x00.

Lemma zeros_bytes n : array_bytes (zeros n) = replicate (N.to_nat n) x00.
Proof. done. Qed.

(** Concatenation, and the sub-array [a[off..off+len]] of an array long enough
    for it. *)
Program Definition array_app {n m} (a : array n) (b : array m) : array (n + m) :=
  mk_array (array_bytes a ++ array_bytes b) _.
Next Obligation. intros. rewrite length_app, !array_length. apply N.eqb_eq. lia. Qed.

Program Definition subarray {n} (off len : N) (a : array n)
    (H : (off + len <=? n)%N = true) : array len :=
  mk_array (take (N.to_nat len) (drop (N.to_nat off) (array_bytes a))) _.
Next Obligation.
  intros n off len a H. rewrite length_take, length_drop, array_length.
  apply N.leb_le in H. apply N.eqb_eq. lia.
Qed.

(** A length-preserving transformation of an array. *)
Program Definition array_map {n} (f : list byte → list byte)
    (Hf : ∀ l, length (f l) = length l) (a : array n) : array n :=
  mk_array (f (array_bytes a)) _.
Next Obligation. intros. rewrite Hf. apply array_len. Qed.

(** Writing [src] at [off] into a buffer, if it fits: the effect of
    [buf[off..off+k].copy_from_slice(src)] and of writing into [&mut buf[off..]]. *)
Definition write_at {n} (off : N) (src : list byte) (buf : array n) : option (array n) :=
  try_into n (take (N.to_nat off) buf ++ src ++ drop (N.to_nat off + length src) buf).

Lemma write_at_Some {n} off src (buf : array n) :
  (off + N.of_nat (length src) <= n)%N →
  ∃ buf', write_at off src buf = Some buf' ∧
    array_bytes buf' = take (N.to_nat off) buf ++ src ++ drop (N.to_nat off + length src) buf.
Proof.
  intros H. unfold write_at.
  destruct (try_into_is_Some n (take (N.to_nat off) buf ++ src ++
    drop (N.to_nat off + length src) buf)) as [a Ha].
  - rewrite !length_app, length_take, length_drop, array_length. lia.
  - exists a. split; [done|]. by apply try_into_Some.
Qed.

Lemma write_at_None {n} off src (buf : array n) :
  (off <= n)%N → (n < off + N.of_nat (length src))%N → write_at off src buf = None.
Proof.
  intros Ho H. apply try_into_None.
  rewrite !length_app, length_take, length_drop, array_length. lia.
Qed.

(** * Machine integers *)

Definition u64_modulus : N := 2 ^ 64.

(** [a - b] on [u64]: with overflow checks (the dev profile) it panics below
    zero, without them (the release profiles) it wraps around. *)
Definition u64_sub_wrapping (a b : N) : N :=
  if (a <? b)%N then (a + u64_modulus - b)%N else (a - b)%N.

Definition u64_sub_panics (a b : N) : bool := (a <? b)%N.

(** [a += 1] on [u64] without overflow checks. *)
Definition u64_succ (a : N) : N := ((a + 1) mod u64_modulus)%N.

Lemma u64_succ_small a : (a + 1 < u64_modulus)%N → u64_succ a = (a + 1)%N.
Proof. apply N.mod_small. Qed.

Lemma u64_sub_wrapping_le a b : (b <= a)%N → u64_sub_wrapping a b = (a - b)%N.
Proof. intros H. unfold u64_sub_wrapping. apply N.ltb_ge in H. by rewrite H. Qed.

Definition byte_of_N (x : N) : byte := default x00 (Byte.of_N (x mod 256)).

Lemma byte_of_N_to_N b : byte_of_N (Byte.to_N b) = b.
Proof.
  unfold byte_of_N. pose proof (Byte.to_N_bounded b).
  rewrite N.mod_small by lia. by rewrite Byte.of_to_N.
Qed.

Lemma to_N_byte_of_N x : Byte.to_N (byte_of_N x) = (x mod 256)%N.
Proof.
  unfold byte_of_N. destruct (Byte.of_N (x mod 256)) as [b|] eqn:E; simpl.
  - by apply Byte.to_of_N.
  - apply Byte.of_N_None_iff in E. pose proof (N.mod_upper_bound x 256). lia.
Qed.

(** [to_le_bytes], [to_be_bytes] and their inverses, on [k]-byte integers. *)
Fixpoint le_bytes (k : nat) (x : N) : list byte :=
  match k with
  | O => []
  | S k => byte_of_N x :: le_bytes k (x / 256)
  end.

Fixpoint from_le (l : list byte) : N :=
  match l with
  | [] => 0
  | b :: l => Byte.to_N b + 256 * from_le l
  end.

Definition be_bytes (k : nat) (x : N) : list byte := reverse (le_bytes k x).
Definition from_be (l : list byte) : N := from_le (reverse l).

Lemma length_le_bytes k x : length (le_bytes k x) = k.
Proof. revert x; induction k; intros; simpl; auto. Qed.

Lemma length_be_bytes k x : length (be_bytes k x) = k.
Proof. unfold be_bytes. by rewrite length_reverse, length_le_bytes. Qed.

Lemma from_le_le_bytes k x : (x < 256 ^ N.of_nat k)%N → from_le (le_bytes k x) = x.
Proof.
  revert x; induction k as [|k IH]; intros x Hx; simpl.
  - change (256 ^ N.of_nat 0)%N with 1%N in Hx. lia.
  - rewrite Nat2N.inj_succ, N.pow_succ_r' in Hx.
    rewrite IH by (apply N.Div0.div_lt_upper_bound; lia).
    rewrite to_N_byte_of_N. pose proof (N.div_mod x 256). lia.
Qed.

Lemma le_bytes_from_le l : le_bytes (length l) (from_le l) = l.
Proof.
  induction l as [|b l IH]; [done|]. cbn [length le_bytes from_le].
  pose proof (Byte.to_N_bounded b) as Hb.
  assert ((Byte.to_N b + 256 * from_le l) / 256 = from_le l)%N as ->.
  { symmetry. apply (N.div_unique _ 256 _ (Byte.to_N b)); lia. }
  rewrite IH. f_equal. rewrite <-(byte_of_N_to_N b) at 2. unfold byte_of_N.
  do 2 f_equal.
  rewrite (N.mod_small (Byte.to_N b)) by lia.
  symmetry. apply (N.mod_unique _ 256 (from_le l)); lia.
Qed.

Lemma from_be_be_bytes k x : (x < 256 ^ N.of_nat k)%N → from_be (be_bytes k x) = x.
Proof. intros. unfold from_be, be_bytes. rewrite reverse_involutive. by apply from_le_le_bytes. Qed.

Lemma le_bytes_zero k : le_bytes k 0 = replicate k x00.
Proof. induction k as [|k IH]; [done|]. simpl. by rewrite <-IH. Qed.

(** An integer is zero exactly when all its bytes are. *)
Lemma be_bytes_eq_zeros k x :
  (x < 256 ^ N.of_nat k)%N → be_bytes k x = replicate k x00 ↔ x = 0%N.
Proof.
  intros Hx. split.
  - intros H. rewrite <-(from_be_be_bytes k x), H by done.
    rewrite <-reverse_replicate, <-le_bytes_zero. apply from_be_be_bytes.
    induction k; rewrite ?Nat2N.inj_succ, ?N.pow_succ_r'; lia.
  - intros ->. unfold be_bytes. rewrite le_bytes_zero. apply reverse_replicate.
Qed.

(** * The derived order on byte arrays *)

(** [#[derive(PartialOrd, Ord)]] on [[u8; n]]: lexicographic. *)
Fixpoint bytes_compare (l1 l2 : list byte) : comparison :=
  match l1, l2 with
  | [], [] => Eq
  | [], _ :: _ => Lt
  | _ :: _, [] => Gt
  | a :: l1, b :: l2 =>
      match (Byte.to_N a ?= Byte.to_N b)%N with
      | Eq => bytes_compare l1 l2
      | c => c
      end
  end.

Lemma byte_to_N_inj a b : Byte.to_N a = Byte.to_N b → a = b.
Proof. intros H. rewrite <-(byte_of_N_to_N a), <-(byte_of_N_to_N b). by rewrite H. Qed.

Lemma bytes_compare_eq l1 l2 : bytes_compare l1 l2 = Eq ↔ l1 = l2.
Proof.
  revert l2; induction l1 as [|a l1 IH]; intros [|b l2]; simpl; try done.
  destruct (N.compare_spec (Byte.to_N a) (Byte.to_N b)) as [E|E|E].
  - apply byte_to_N_inj in E as ->. rewrite IH. split; [by intros ->|by intros [= ->]].
  - split; [done|]. intros [= -> ->]. lia.
  - split; [done|]. intros [= -> ->]. lia.
Qed.

Lemma bytes_compare_antisym l1 l2 : bytes_compare l2 l1 = CompOpp (bytes_compare l1 l2).
Proof.
  revert l2; induction l1 as [|a l1 IH]; intros [|b l2]; simpl; try done.
  rewrite (N.compare_antisym (Byte.to_N a)). by destruct (N.compare (Byte.to_N a) (Byte.to_N b)); simpl.
Qed.

Lemma bytes_compare_trans l1 l2 l3 :
  bytes_compare l1 l2 = Lt → bytes_compare l2 l3 = Lt → bytes_compare l1 l3 = Lt.
Proof.
  revert l2 l3; induction l1 as [|a l1 IH]; intros [|b l2] [|c l3]; simpl; try done.
  destruct (N.compare_spec (Byte.to_N a) (Byte.to_N b)) as [E1|E1|E1]; try done;
  destruct (N.compare_spec (Byte.to_N b) (Byte.to_N c)) as [E2|E2|E2]; try done.
  - rewrite E1, E2, N.compare_refl. apply IH.
  - intros _ _. by rewrite E1, (proj2 (N.compare_lt_iff _ _) E2).
  - intros _ _. by rewrite <-E2, (proj2 (N.compare_lt_iff _ _) E1).
  - intros _ _. assert (Byte.to_N a < Byte.to_N c)%N as H by lia.
    by rewrite (proj2 (N.compare_lt_iff _ _) H).
Qed.

(** [a < b] and [a >= b] on arrays. *)
Definition array_lt {n} (a b : array n) : bool :=
  match bytes_compare a b with Lt => true | _ => false end.
Definition array_ge {n} (a b : array n) : bool := negb (array_lt a b).

Lemma array_lt_irrefl {n} (a : array n) : array_lt a a = false.
Proof. unfold array_lt. by rewrite (proj2 (bytes_compare_eq a a) eq_refl). Qed.

Lemma array_lt_asym {n} (a b : array n) : array_lt a b = true → array_lt b a = false.
Proof. unfold array_lt. rewrite (bytes_compare_antisym a b). by destruct (bytes_compare a b). Qed.

Lemma array_lt_trans {n} (a b c : array n) :
  array_lt a b = true → array_lt b c = true → array_lt a c = true.
Proof.
  unfold array_lt. pose proof (bytes_compare_trans a b c) as H.
  destruct (bytes_compare a b), (bytes_compare b c); try done. by rewrite H.
Qed.

Lemma array_lt_total {n} (a b : array n) : array_lt a b = true ∨ a = b ∨ array_lt b a = true.
Proof.
  unfold array_lt. rewrite (bytes_compare_antisym a b).
  destruct (bytes_compare a b) eqn:E; simpl; auto.
  right; left. by apply array_eq, bytes_compare_eq.
Qed.

(** * Exclusive-or with a key stream *)

Fixpoint xor_from (i : nat) (ks : nat → byte) (l : list byte) : list byte :=
  match l with
  | [] => []
  | b :: l => byte_xor b (ks i) :: xor_from (S i) ks l
  end.

Definition xor_stream (ks : nat → byte) (l : list byte) : list byte := xor_from 0 ks l.

Lemma length_xor_stream ks l : length (xor_stream ks l) = length l.
Proof.
  unfold xor_stream. generalize 0. induction l as [|b l IH]; intros i; cbn; [done|]. by rewrite IH.
Qed.

Lemma lookup_xor_from i ks l j :
  xor_from i ks l !! j = (λ b, byte_xor b (ks (i + j))) <$> l !! j.
Proof.
  revert i j. induction l as [|b l IH]; intros i [|j]; cbn; try done; [by rewrite Nat.add_0_r|].
  rewrite IH. by rewrite Nat.add_succ_r.
Qed.

Lemma lookup_xor_stream ks l i : xor_stream ks l !! i = (λ b, byte_xor b (ks i)) <$> l !! i.
Proof. apply (lookup_xor_from 0). Qed.

Lemma xor_stream_involutive ks l : xor_stream ks (xor_stream ks l) = l.
Proof.
  apply list_eq; intros i. rewrite !lookup_xor_stream.
  destruct (l !! i); simpl; by rewrite ?byte_xor_cancel.
Qed.

Lemma xor_stream_comm ks1 ks2 l :
  xor_stream ks1 (xor_stream ks2 l) = xor_stream ks2 (xor_stream ks1 l).
Proof.
  apply list_eq; intros i. rewrite !lookup_xor_stream.
  destruct (l !! i) as [b|]; simpl; [|done]. f_equal.
  by rewrite <-!byte_xor_assoc, (byte_xor_comm (ks1 i)).
Qed.

Lemma take_xor_stream ks n l : take n (xor_stream ks l) = xor_stream ks (take n l).
Proof.
  apply list_eq; intros i. rewrite lookup_xor_stream.
  destruct (decide (i < n)).
  - by rewrite !lookup_take_lt, lookup_xor_stream by done.
  - by rewrite !lookup_take_ge by lia.
Qed.

(** * Lists *)

(** [slice::windows(2)]. *)
Fixpoint windows2 {A} (l : list A) : list (A * A) :=
  match l with
  | a :: ((b :: _) as l') => (a, b) :: windows2 l'
  | _ => []
  end.

Lemma length_windows2 {A} (l : list A) : length (windows2 l) = pred (length l).
Proof. induction l as [|a [|b l] IH]; [done..|]. simpl in *. by rewrite IH. Qed.

(** The first [k] elements of [l1] and [l2] are the same. *)
Definition prefix_agree {A} (k : nat) (l1 l2 : list A) : Prop := take k l1 = take k l2.

Lemma prefix_agree_le {A} k k' (l1 l2 : list A) :
  k' ≤ k → prefix_agree k l1 l2 → prefix_agree k' l1 l2.
Proof.
  unfold prefix_agree. intros Hk H. apply (f_equal (take k')) in H.
  by rewrite !take_take, !Nat.min_l in H by done.
Qed.

Lemma prefix_agree_drop {A} n k (l1 l2 : list A) :
  prefix_agree (n + k) l1 l2 → prefix_agree k (drop n l1) (drop n l2).
Proof.
  unfold prefix_agree. intros H. apply (f_equal (drop n)) in H.
  rewrite !skipn_firstn_comm in H. by replace (n + k - n) with k in H by lia.
Qed.

Lemma prefix_agree_xor ks k l1 l2 :
  prefix_agree k l1 l2 → prefix_agree k (xor_stream ks l1) (xor_stream ks l2).
Proof. unfold prefix_agree. rewrite !take_xor_stream. by intros ->. Qed.

#[export] Instance prefix_agree_equiv {A} k : Equivalence (@prefix_agree A k).
Proof. split; red; unfold prefix_agree; congruence. Qed.

(** A traversal with early exit: [iter().map(f).collect::<Result<_, _>>()]. *)
Fixpoint outcome_mapM {E A B} (f : A → outcome E B) (l : list A) : outcome E (list B) :=
  match l with
  | [] => Ok []
  | a :: l => b ← f a; bs ← outcome_mapM f l; Ok (b :: bs)
  end.

(** Two relations composed pointwise. *)
Lemma Forall2_middle {A B D} (R : A → B → Prop) (S : B → D → Prop) l k :
  Forall2 (λ a d, ∃ b, R a b ∧ S b d) l k → ∃ m, Forall2 R l m ∧ Forall2 S m k.
Proof.
  induction 1 as [|a d l k (b & ? & ?) _ (m & ? & ?)]; [by exists []|].
  exists (b :: m). split; by constructor.
Qed.

Lemma Forall2_right {A B} (R : A → B → Prop) (Q : B → Prop) l k :
  Forall2 R l k → (∀ a b, R a b → Q b) → Forall Q k.
Proof. induction 1; constructor; eauto. Qed.

Lemma outcome_mapM_Ok {E A B} (f : A → outcome E B) l bs :
  outcome_mapM f l = Ok bs ↔ Forall2 (λ a b, f a = Ok b) l bs.
Proof.
  revert bs; induction l as [|a l IH]; intros bs; simpl.
  - split; [by intros [= <-]|by inversion 1].
  - split.
    + destruct (f a) eqn:Ea; simpl; try done.
      destruct (outcome_mapM f l) eqn:El; simpl; try done.
      intros [= <-]. constructor; [done|]. by apply IH.
    + inversion 1 as [|? b ? bs' Hb Hbs]; subst. rewrite Hb; simpl.
      apply IH in Hbs. by rewrite Hbs.
Qed.

Lemma outcome_mapM_total {E A B} (f : A → outcome E B) l :
  (∀ a, ∃ b, f a = Ok b) → ∃ bs, outcome_mapM f l = Ok bs ∧ length bs = length l.
Proof.
  intros Hf. induction l as [|a l (bs & Hbs & Hl)]; [by exists []|].
  destruct (Hf a) as [b Hb]. exists (b :: bs). cbn. rewrite Hb. cbn. rewrite Hbs. cbn. by rewrite Hl.
Qed.

Lemma returns_mapM {E A B} (f : A → outcome E B) l :
  (∀ a, returns (f a)) → returns (outcome_mapM f l).
Proof.
  intros Hf. induction l as [|a l IH]; [done|]. cbn. apply returns_bind; [apply Hf|].
  intros b _. by apply returns_bind.
Qed.

(** A traversal whose body succeeds everywhere yields the values its body is
    specified to yield. *)
Lemma outcome_mapM_elem {E A B} (R : A → B → Prop) (f : A → outcome E B) l :
  (∀ a, a ∈ l → ∃ b, f a = Ok b ∧ R a b ∧ ∀ b', R a b' → b' = b) →
  ∃ bs, outcome_mapM f l = Ok bs ∧ ∀ b, b ∈ bs ↔ ∃ a, a ∈ l ∧ R a b.
Proof.
  induction l as [|a l IH]; intros Hf; cbn [outcome_mapM].
  - exists []. split; [done|]. set_solver.
  - destruct (Hf a) as (b & Hb & HR & Hu); [set_solver|].
    destruct IH as (bs & Hbs & Hin); [intros; apply Hf; set_solver|].
    exists (b :: bs). rewrite Hb; cbn. rewrite Hbs. split; [done|].
    intros b'. rewrite elem_of_cons, Hin. split.
    + intros [->|(a' & ? & ?)]; [exists a|exists a']; set_solver.
    + intros (a' & [->|?]%elem_of_cons & ?); [left; auto|right; eauto].
Qed.

(** [for x in l { body }]: the body updates the state. *)
Fixpoint for_each {A S} (body : A → S → S) (l : list A) (s : S) : S :=
  match l with
  | [] => s
  | x :: l => for_each body l (body x s)
  end.

Lemma for_each_app {A S} (body : A → S → S) l k s :
  for_each body (l ++ k) s = for_each body k (for_each body l s).
Proof. revert s. induction l as [|x l IH]; intros s; cbn; auto. Qed.

(** * Automation *)

Create HintDb earendil.
Create Rewrite HintDb earendil.
#[export] Hint Rewrite @length_xor_stream @length_be_bytes @length_le_bytes
  @array_length @length_replicate @length_app @length_take @length_drop @length_reverse
  : earendil.
#[export] Hint Resolve returns_ok_or : earendil.
#[export] Hint Resolve array_lt_irrefl array_lt_asym : earendil.

(** Lengths of byte sequences, up to linear arithmetic. *)
Ltac solve_length := autorewrite with earendil; simpl; lia.

(** Case on the scrutinee of the monadic computation in hypothesis [H]. *)
Ltac outcome_cases H :=
  repeat match type of H with
  | context [match ?o with _ => _ end] =>
      let E := fresh "E" in destruct o eqn:E; simpl in H; try discriminate H
  end.
