(* ===== verification/Interfaces.v ===== *)
(** Interfaces of the collections and codecs the daemon uses, with the
    documented behaviour the program relies on stated as laws. *)

From S2P Require Import Prelude.

(** * stdcode: the binary encoding of signed and forwarded values *)

Class Stdcode (A : Type) : Type := {
  stdcode : A → list byte;
  stdcode_deserialize : list byte → option A
}.

Class StdcodeLaws (A : Type) `{Stdcode A} : Prop := {
  stdcode_roundtrip (a : A) : stdcode_deserialize (stdcode a) = Some a
}.

(** * indexmap::IndexMap and dashmap::DashMap *)

(** A map with an iteration order of its own, on which the program does not
    rely. *)
Class IndexMap : Type := {
  imap : ∀ (K V : Type) `{Countable K}, Type;
  im_empty : ∀ {K V} `{Countable K}, imap K V;
  im_get : ∀ {K V} `{Countable K}, K → imap K V → option V;
  im_insert : ∀ {K V} `{Countable K}, K → V → imap K V → imap K V;
  im_remove : ∀ {K V} `{Countable K}, K → imap K V → imap K V;
  im_items : ∀ {K V} `{Countable K}, imap K V → list (K * V);
  im_retain : ∀ {K V} `{Countable K}, (K → V → bool) → imap K V → imap K V
}.

Class IndexMapLaws (IM : IndexMap) : Prop := {
  im_get_empty {K V} `{Countable K} (k : K) : im_get (V:=V) k im_empty = None;
  im_get_insert {K V} `{Countable K} (k k' : K) (v : V) m :
    im_get k' (im_insert k v m) = if decide (k = k') then Some v else im_get k' m;
  im_get_remove {K V} `{Countable K} (k k' : K) (m : imap K V) :
    im_get k' (im_remove k m) = if decide (k = k') then None else im_get k' m;
  im_items_get {K V} `{Countable K} (m : imap K V) (k : K) v :
    (k, v) ∈ im_items m ↔ im_get k m = Some v;
  im_items_NoDup {K V} `{Countable K} (m : imap K V) : NoDup (im_items m).*1;
  im_get_retain {K V} `{Countable K} (f : K → V → bool) (m : imap K V) k :
    im_get k (im_retain f m) =
    match im_get k m with Some v => if f k v then Some v else None | None => None end
}.

(** * std::collections: iteration order *)

(** [HashSet] and [HashMap] iterate in an unspecified order. *)
Class HashIter : Type := {
  hash_iter : ∀ {A} `{Countable A}, gset A → list A
}.

Class HashIterLaws (HI : HashIter) : Prop := {
  hash_iter_perm {A} `{Countable A} (s : gset A) : hash_iter s ≡ₚ elements s
}.

Lemma elem_of_hash_iter {HI : HashIter} {HIL : HashIterLaws HI} `{Countable A} (s : gset A) x :
  x ∈ hash_iter s ↔ x ∈ s.
Proof. rewrite hash_iter_perm. apply elem_of_elements. Qed.

Lemma hash_iter_NoDup {HI : HashIter} {HIL : HashIterLaws HI} `{Countable A} (s : gset A) :
  NoDup (hash_iter s).
Proof. rewrite hash_iter_perm. apply NoDup_elements. Qed.

(** * lru::LruCache *)

(** The entry of [k] and the list without it. *)
Definition assoc_get {K V} `{EqDecision K} (k : K) (l : list (K * V)) : option V :=
  snd ∘ snd <$> list_find (λ p, p.1 = k) l.

Definition assoc_del {K V} `{EqDecision K} (k : K) (l : list (K * V)) : list (K * V) :=
  filter (λ p, p.1 ≠ k) l.

(** A bounded map that evicts the least recently used entry.  A method that
    returns a mutable reference takes the code that uses the reference as a
    function that returns its result and the updated value. *)
Class Lru : Type := {
  lru : ∀ (K V : Type) `{Countable K}, Type;
  lru_new : ∀ {K V} `{Countable K}, N → lru K V;
  lru_cap : ∀ {K V} `{Countable K}, lru K V → N;
  lru_view : ∀ {K V} `{Countable K}, lru K V → list (K * V);
  lru_get_or_insert_mut : ∀ {K V} `{Countable K}, K → V → (V → V) → lru K V → lru K V;
  lru_get_mut : ∀ {K V} `{Countable K} {R : Type},
    K → (V → R * V) → lru K V → option R * lru K V
}.

(** [lru_view] lists the entries, the most recently used first. *)
Class LruLaws (L : Lru) : Prop := {
  lru_cap_new {K V} `{Countable K} n : lru_cap (lru_new (K:=K) (V:=V) n) = n;
  lru_view_new {K V} `{Countable K} n : lru_view (lru_new (K:=K) (V:=V) n) = [];
  lru_view_insert {K V} `{Countable K} (k : K) (d : V) f c :
    lru_view (lru_get_or_insert_mut k d f c) =
    match assoc_get k (lru_view c) with
    | Some v => (k, f v) :: assoc_del k (lru_view c)
    | None => take (N.to_nat (lru_cap c)) ((k, f d) :: lru_view c)
    end;
  lru_cap_insert {K V} `{Countable K} (k : K) (d : V) f c :
    lru_cap (lru_get_or_insert_mut k d f c) = lru_cap c;
  lru_get_mut_spec {K V R} `{Countable K} (k : K) (f : V → R * V) c :
    let '(o, c') := lru_get_mut k f c in
    lru_cap c' = lru_cap c ∧
    match assoc_get k (lru_view c) with
    | Some v => o = Some (f v).1 ∧ lru_view c' = (k, (f v).2) :: assoc_del k (lru_view c)
    | None => o = None ∧ lru_view c' = lru_view c
    end
}.

Section assoc_lemmas.
  Context {K V : Type} `{EqDecision K}.
  Implicit Types (k : K) (v : V) (l : list (K * V)).

Lemma assoc_get_cons k k' v l :
  assoc_get k ((k', v) :: l) = if decide (k' = k) then Some v else assoc_get k l.
Proof.
  unfold assoc_get. cbn. case_decide; [done|].
  by destruct (list_find (λ p : K * V, p.1 = k) l) as [[]|].
Qed.

Lemma assoc_get_None k l : assoc_get k l = None ↔ k ∉ l.*1.
Proof.
  induction l as [|[k' v] l IH]; [cbn; set_solver|].
  rewrite assoc_get_cons, fmap_cons, elem_of_cons. case_decide; cbn; naive_solver.
Qed.

Lemma assoc_get_Some k v l : NoDup l.*1 → assoc_get k l = Some v ↔ (k, v) ∈ l.
Proof.
  intros Hnd. induction l as [|[k' v'] l IH]; [cbn; set_solver|].
  cbn in Hnd. apply list.NoDup_cons in Hnd as [Hk Hnd].
  rewrite assoc_get_cons, elem_of_cons. case_decide as E; subst.
  - split; [by intros [= ->]; left|]. intros [[= ->]|Hin]; [done|].
    destruct Hk. apply list_elem_of_fmap. by exists (k, v).
  - rewrite IH by done. naive_solver.
Qed.

Lemma elem_of_assoc_del k p l : p ∈ assoc_del k l ↔ p.1 ≠ k ∧ p ∈ l.
Proof. unfold assoc_del. by rewrite list_elem_of_filter. Qed.

Lemma assoc_get_del k k' l :
  assoc_get k' (assoc_del k l) = if decide (k = k') then None else assoc_get k' l.
Proof.
  unfold assoc_del. induction l as [|[k0 v] l IH]; [by case_decide|].
  rewrite filter_cons, assoc_get_cons. cbn.
  destruct (decide (k0 = k)) as [->|Hne].
  - rewrite decide_False by tauto. rewrite IH. by repeat case_decide.
  - rewrite decide_True by done. rewrite assoc_get_cons, IH. repeat case_decide; congruence.
Qed.

Lemma assoc_del_NoDup k l : NoDup l.*1 → NoDup (assoc_del k l).*1.
Proof.
  intros Hnd. unfold assoc_del. induction l as [|[k' v] l IH]; [done|].
  cbn in Hnd. apply list.NoDup_cons in Hnd as [Hk Hnd].
  rewrite filter_cons. case_decide; cbn; [|auto]. apply list.NoDup_cons. split; [|auto].
  intros ([k1 v1] & -> & Hin)%list_elem_of_fmap. apply list_elem_of_filter in Hin as [_ Hin].
  apply Hk. apply list_elem_of_fmap. by exists (k1, v1).
Qed.

Lemma length_assoc_del k v l :
  NoDup l.*1 → assoc_get k l = Some v → S (length (assoc_del k l)) = length l.
Proof.
  intros Hnd. unfold assoc_del. induction l as [|[k' v'] l IH]; [done|].
  cbn in Hnd. apply list.NoDup_cons in Hnd as [Hk Hnd].
  rewrite assoc_get_cons, filter_cons. cbn. case_decide as E; subst.
  - rewrite decide_False by tauto. intros _. f_equal. f_equal.
    clear -Hk. induction l as [|[k0 v0] l IH]; [done|]. rewrite filter_cons; cbn.
    rewrite decide_True; [f_equal; apply IH; set_solver|]. set_solver.
  - rewrite decide_True by done. intros H. cbn. f_equal. by apply IH.
Qed.

Lemma length_assoc_del_le k l : length (assoc_del k l) ≤ length l.
Proof. apply length_filter. Qed.

End assoc_lemmas.

(** * smol::channel *)

(** A queue; [chan_try_send] returns [None] when the channel is full (or
    closed), [chan_try_recv] when it is empty. *)
Class Chan : Type := {
  chan : Type → Type;
  chan_bounded : ∀ {A}, N → chan A;
  chan_cap : ∀ {A}, chan A → N;
  chan_view : ∀ {A}, chan A → list A;
  chan_try_send : ∀ {A}, A → chan A → option (chan A);
  chan_try_recv : ∀ {A}, chan A → option (A * chan A)
}.

(** [chan_view] lists the queued values, the next to receive first. *)
Class ChanLaws (C : Chan) : Prop := {
  chan_cap_bounded {A} n : chan_cap (chan_bounded (A:=A) n) = n;
  chan_view_bounded {A} n : chan_view (chan_bounded (A:=A) n) = [];
  chan_try_send_spec {A} (x : A) c :
    match chan_try_send x c with
    | Some c' => (N.of_nat (length (chan_view c)) < chan_cap c)%N ∧
        chan_view c' = chan_view c ++ [x] ∧ chan_cap c' = chan_cap c
    | None => (chan_cap c <= N.of_nat (length (chan_view c)))%N
    end;
  chan_try_recv_spec {A} (c : chan A) :
    match chan_view c with
    | x :: l => ∃ c', chan_try_recv c = Some (x, c') ∧ chan_view c' = l ∧ chan_cap c' = chan_cap c
    | [] => chan_try_recv c = None
    end
}.

Lemma chan_try_send_ok {C : Chan} {CL : ChanLaws C} {A} (x : A) c :
  (N.of_nat (length (chan_view c)) < chan_cap c)%N →
  ∃ c', chan_try_send x c = Some c' ∧ chan_view c' = chan_view c ++ [x] ∧ chan_cap c' = chan_cap c.
Proof.
  intros H. pose proof (chan_try_send_spec x c) as Hs.
  destruct (chan_try_send x c) as [c'|]; [|lia]. exists c'. tauto.
Qed.

Lemma chan_try_send_full {C : Chan} {CL : ChanLaws C} {A} (x : A) c :
  (chan_cap c <= N.of_nat (length (chan_view c)))%N → chan_try_send x c = None.
Proof.
  intros H. pose proof (chan_try_send_spec x c) as Hs.
  destruct (chan_try_send x c) as [c'|]; [lia|done].
Qed.

(** * moka::sync::Cache *)

(** A concurrent cache whose entries may expire.  [moka_get now k c] is what a
    lookup returns at time [now] (in seconds); [moka_holds] is an upper bound on
    the entries the cache may still hold, expired ones included. *)
Class Moka : Type := {
  moka : ∀ (K V : Type) `{Countable K}, Type;
  moka_new : ∀ {K V} `{Countable K}, option N → option N → moka K V;
  moka_get : ∀ {K V} `{Countable K}, N → K → moka K V → option V;
  moka_insert : ∀ {K V} `{Countable K}, N → K → V → moka K V → moka K V;
  moka_remove : ∀ {K V} `{Countable K}, N → K → moka K V → option V * moka K V;
  moka_holds : ∀ {K V} `{Countable K}, K → V → moka K V → Prop;
  (** The cache has no capacity bound, and this time-to-live. *)
  moka_unbounded : ∀ {K V} `{Countable K}, N → moka K V → Prop
}.

Class MokaLaws (C : Moka) : Prop := {
  moka_get_holds {K V} `{Countable K} now k v (c : moka K V) :
    moka_get now k c = Some v → moka_holds k v c;
  moka_new_holds {K V} `{Countable K} cap ttl (k : K) (v : V) :
    ¬ moka_holds k v (moka_new cap ttl);
  moka_insert_holds {K V} `{Countable K} now k k' (v v' : V) (c : moka K V) :
    moka_holds k' v' (moka_insert now k v c) → if decide (k = k') then v' = v else moka_holds k' v' c;
  moka_remove_holds {K V} `{Countable K} now k k' v (c : moka K V) :
    moka_holds k' v (moka_remove now k c).2 → k ≠ k' ∧ moka_holds k' v c;
  moka_remove_result {K V} `{Countable K} now k v (c : moka K V) :
    (moka_remove now k c).1 = Some v → moka_holds k v c;
  moka_remove_get {K V} `{Countable K} now k v (c : moka K V) :
    moka_get now k c = Some v → (moka_remove now k c).1 = Some v;
  moka_new_unbounded {K V} `{Countable K} ttl :
    moka_unbounded ttl (moka_new (K:=K) (V:=V) None (Some ttl));
  moka_insert_unbounded {K V} `{Countable K} ttl now k v (c : moka K V) :
    moka_unbounded ttl c → moka_unbounded ttl (moka_insert now k v c);
  moka_remove_unbounded {K V} `{Countable K} ttl now k (c : moka K V) :
    moka_unbounded ttl c → moka_unbounded ttl (moka_remove now k c).2;
  moka_insert_live {K V} `{Countable K} ttl now t k v (c : moka K V) :
    moka_unbounded ttl c → (now <= t)%N → (t < now + ttl)%N →
    moka_get t k (moka_insert now k v c) = Some v;
  moka_insert_other {K V} `{Countable K} ttl now t k k' v (c : moka K V) :
    moka_unbounded ttl c → k ≠ k' → (now <= t)%N →
    moka_get t k' (moka_insert now k v c) = moka_get t k' c;
  moka_remove_other {K V} `{Countable K} ttl now t k k' (c : moka K V) :
    moka_unbounded ttl c → k ≠ k' → (now <= t)%N →
    moka_get t k' (moka_remove now k c).2 = moka_get t k' c;
  moka_get_earlier {K V} `{Countable K} ttl t t' k v (c : moka K V) :
    moka_unbounded ttl c → (t' <= t)%N → moka_get t k c = Some v → moka_get t' k c = Some v
}.

(** [Cache::get_with]: looks the key up, inserting the default if it is
    missing. *)
Definition moka_get_with {C : Moka} {K V} `{Countable K} (now : N) (k : K) (init : V)
    (c : moka K V) : V * moka K V :=
  match moka_get now k c with
  | Some v => (v, c)
  | None => (init, moka_insert now k init c)
  end.

(** [Cache::get] and [Cache::get_with] of a cache with a time-to-idle: a hit starts
    the time of its entry again. *)
Definition moka_get_idle {C : Moka} {K V} `{Countable K} (now : N) (k : K) (c : moka K V)
    : option V * moka K V :=
  match moka_get now k c with
  | Some v => (Some v, moka_insert now k v c)
  | None => (None, c)
  end.

Definition moka_get_with_idle {C : Moka} {K V} `{Countable K} (now : N) (k : K) (init : V)
    (c : moka K V) : V * moka K V :=
  match moka_get_idle now k c with
  | (Some v, c) => (v, c)
  | (None, c) => (init, moka_insert now k init c)
  end.

(** [Cache::contains_key], which is not a read of the cache: it does not start an
    entry's time again. *)
Definition moka_contains {C : Moka} {K V} `{Countable K} (now : N) (k : K) (c : moka K V) : bool :=
  bool_decide (is_Some (moka_get now k c)).

Lemma moka_get_with_spec {C : Moka} {CL : MokaLaws C} {K V} `{Countable K}
    ttl now (k : K) (d : V) c v c' :
  moka_unbounded ttl c → (0 < ttl)%N → moka_get_with now k d c = (v, c') →
  v = default d (moka_get now k c) ∧ moka_unbounded ttl c' ∧ moka_get now k c' = Some v ∧
  ∀ k', k ≠ k' → moka_get now k' c' = moka_get now k' c.
Proof.
  intros Hu Ht. unfold moka_get_with. destruct (moka_get now k c) as [v0|] eqn:E0.
  - intros [= <- <-]. done.
  - intros [= <- <-]. split_and!; [done|by apply moka_insert_unbounded| |].
    + eapply moka_insert_live; [done|lia..].
    + intros k' Hne. by eapply moka_insert_other.
Qed.

(** A lookup that refreshes is an insertion of what it returns. *)
Lemma moka_get_with_idle_insert {C : Moka} {K V} `{Countable K} now (k : K) (d : V) c :
  moka_get_with_idle now k d c =
  (default d (moka_get now k c), moka_insert now k (default d (moka_get now k c)) c).
Proof. unfold moka_get_with_idle, moka_get_idle. by destruct (moka_get now k c). Qed.

(** * replay_filter::ReplayFilter *)

(** A filter on message numbers with a sliding window: it accepts a number at
    most once, and may reject old numbers it has forgotten. *)
Class ReplayFilter : Type := {
  rfilter : Type;
  rf_default : rfilter;
  rf_add : N → rfilter → bool * rfilter
}.

(** The filter after numbers were added to it, in order. *)
Definition rf_add_all {RF : ReplayFilter} (l : list N) (r : rfilter) : rfilter :=
  foldl (λ r n, (rf_add n r).2) r l.

Class ReplayFilterLaws (RF : ReplayFilter) : Prop := {
  rf_add_twice n r : (rf_add n (rf_add n r).2).1 = false;
  rf_rejected_forever n m r : (rf_add n r).1 = false → (rf_add n (rf_add m r).2).1 = false;
  rf_accepts_newer l n :
    Forall (λ m, (m < n)%N) l → (rf_add n (rf_add_all l rf_default)).1 = true
}.
