(* ===== verification/Crypto.v ===== *)
(** The cryptographic layer.

    [Primitives] is the interface of the third-party crates the program calls
    (rand, blake3, x25519-dalek, chacha20, chacha20poly1305,
    ed25519-consensus, argon2, base32, base64); [PrimitivesLaws] states the
    documented behaviour the program relies on.  Over that interface the file
    models [libraries/earendil_crypt/src/lib.rs] (module [Identity]) and
    [libraries/earendil_packet/src/crypt.rs] (module [Onion]). *)

From Stdlib Require Import String.
From S2P Require Import Prelude.
Close Scope string_scope.

(** The bytes of a literal such as [b"fingerprint_____________________"]. *)
Definition bytes_of (s : string) : list byte := String.list_byte_of_string s.

(** A 32-byte literal used as a hashing key. *)
Definition key32 (s : string) (H : (N.of_nat (length (bytes_of s)) =? 32)%N = true) : array 32 :=
  mk_array (bytes_of s) H.

(** The errors of base64 decoding: the crate's, or the [InvalidLength] that
    the program itself returns. *)
Inductive base64_error := InvalidLength | OtherDecodeError.

(** * Interface of the third-party crates *)

Class Primitives : Type := {
  (* rand *)
  rng : Type;
  fill_bytes : ∀ n : N, rng → array n * rng;
  random_u64 : rng → N * rng;
  random_u32 : rng → N * rng;
  gen_range : N → rng → N * rng;   (* [gen_range(0..n)] *)
  (* blake3 *)
  blake3_hash : list byte → array 32;
  blake3_keyed_hash : array 32 → list byte → array 32;
  (* x25519_dalek *)
  ReusableSecret : Type;
  random_from_rng : rng → ReusableSecret * rng;
  x25519_public : ReusableSecret → array 32;
  diffie_hellman : ReusableSecret → array 32 → array 32;
  (* chacha20: the key stream that [apply_keystream] xors into the buffer *)
  chacha20_keystream : array 32 → array 12 → nat → byte;
  (* chacha20poly1305 *)
  aead_encrypt : array 32 → array 12 → list byte → option (list byte);
  aead_decrypt : array 32 → array 12 → list byte → option (list byte);
  (* ed25519_consensus *)
  ed25519_key_valid : array 32 → bool;
  ed25519_verify : array 32 → array 64 → list byte → bool;
  ed25519_public : array 32 → array 32;
  ed25519_sign : array 32 → list byte → array 64;
  (* argon2 *)
  argon2_hash : list byte → list byte → option (array 32);
  (* base32 (Crockford), base64 (standard) *)
  base32_encode : list byte → string;
  base32_decode : string → option (list byte);
  base64_decode : string → base64_error + list byte
}.

(** The largest plaintext ChaCha20Poly1305 accepts (RFC 8439). *)
Definition aead_max_plaintext : N := 2 ^ 38 - 64.

(** Documented behaviour of the crates. *)
Class PrimitivesLaws (P : Primitives) : Prop := {
  random_u64_range r : (fst (random_u64 r) < u64_modulus)%N;
  random_u32_range r : (fst (random_u32 r) < 2 ^ 32)%N;
  gen_range_lt n r : (0 < n)%N → (fst (gen_range n r) < n)%N;
  diffie_hellman_comm a b :
    diffie_hellman a (x25519_public b) = diffie_hellman b (x25519_public a);
  aead_encrypt_total k n p :
    (N.of_nat (length p) <= aead_max_plaintext)%N → is_Some (aead_encrypt k n p);
  aead_encrypt_length k n p c :
    aead_encrypt k n p = Some c → length c = length p + 16;
  aead_decrypt_encrypt k n p c :
    aead_encrypt k n p = Some c → aead_decrypt k n c = Some p;
  aead_decrypt_length k n c p :
    aead_decrypt k n c = Some p → length c = length p + 16;
  ed25519_public_valid sk : ed25519_key_valid (ed25519_public sk) = true;
  ed25519_verify_sign sk m :
    ed25519_verify (ed25519_public sk) (ed25519_sign sk m) m = true
}.

#[export] Hint Resolve random_u64_range random_u32_range : earendil.

(** The randomness of [rand::thread_rng()], threaded as a state. *)
Definition Rand `{Primitives} (E A : Type) : Type := M rng E A.

Definition sample `{Primitives} {E A} (gen : rng → A * rng) : Rand E A :=
  λ r, let (a, r') := gen r in (Ok a, r').

(** * libraries/earendil_crypt/src/lib.rs *)

Module Identity.
Section Identity.
  Context {P : Primitives}.

Definition IdentityPublic : Type := array 32.
Definition IdentitySecret : Type := array 32.
Definition Fingerprint : Type := array 20.

#[export] Instance IdentityPublic_eq_dec : EqDecision IdentityPublic := array_eq_dec 32.
#[export] Instance IdentitySecret_eq_dec : EqDecision IdentitySecret := array_eq_dec 32.
#[export] Instance IdentitySecret_countable : Countable IdentitySecret := array_countable 32.
#[export] Instance Fingerprint_eq_dec : EqDecision Fingerprint := array_eq_dec 20.
#[export] Instance Fingerprint_countable : Countable Fingerprint := array_countable 20.

Inductive VerifyError := SignatureCorrupt | SignatureMismatch.

Definition kdf_from_human {E} (human salt : list byte) : outcome E (array 32) :=
  unwrap (argon2_hash human salt).

(** [IdentityPublic::try_from(Vec<u8>)]; the error gives the input back. *)
Definition IdentityPublic_try_from (value : list byte) : outcome (list byte) IdentityPublic :=
  ok_or value (try_into 32 value).

Definition verify (self : IdentityPublic) (msg sig : list byte) : outcome VerifyError unit :=
  if ed25519_key_valid self then
    sig ← ok_or SignatureCorrupt (try_into 64 sig);
    if ed25519_verify self sig msg then Ok tt else Err SignatureMismatch
  else Err SignatureCorrupt.

Definition FINGERPRINT_KEY : array 32 :=
  key32 "fingerprint_____________________" eq_refl.

Definition fingerprint (self : IdentityPublic) : Fingerprint :=
  subarray 0 20 (blake3_keyed_hash FINGERPRINT_KEY self) eq_refl.

Definition IdentitySecret_from_bytes (b : array 32) : IdentitySecret := b.

Definition from_seed {E} (id_seed : list byte) : outcome E IdentitySecret :=
  k ← kdf_from_human id_seed (bytes_of "identity_kdf_salt");
  Ok (IdentitySecret_from_bytes k).

Definition IdentitySecret_from_str (s : string) : outcome base64_error IdentitySecret :=
  match base64_decode s with
  | inl e => Err e
  | inr decoded => ok_or InvalidLength (try_into 32 decoded)
  end.

Definition IdentitySecret_generate {E} : Rand E IdentitySecret :=
  sample (fill_bytes 32).

Definition public (self : IdentitySecret) : IdentityPublic := ed25519_public self.

Definition sign (self : IdentitySecret) (msg : list byte) : list byte := ed25519_sign self msg.

(** [Display for Fingerprint]: lower-case Crockford base32. *)
Definition ascii_lower (c : Ascii.ascii) : Ascii.ascii :=
  let n := Ascii.N_of_ascii c in
  if (65 <=? n)%N && (n <=? 90)%N then Ascii.ascii_of_N (n + 32) else c.

Fixpoint to_lowercase (s : string) : string :=
  match s with
  | EmptyString => EmptyString
  | String c s => String (ascii_lower c) (to_lowercase s)
  end.

Definition Fingerprint_to_string (self : Fingerprint) : string :=
  to_lowercase (base32_encode self).

Inductive FingerprintParseError := BadBase32 | InvalidFingerprintLength.

Definition Fingerprint_from_str (s : string) : outcome FingerprintParseError Fingerprint :=
  bytes ← ok_or BadBase32 (base32_decode s);
  ok_or InvalidFingerprintLength (try_into 20 bytes).

(** ** Signatures *)

Lemma verify_ok_iff pk msg sig :
  verify pk msg sig = Ok tt ↔
  ed25519_key_valid pk = true ∧
  ∃ s : array 64, array_bytes s = sig ∧ ed25519_verify pk s msg = true.
Proof.
  unfold verify. destruct (ed25519_key_valid pk); [|by split; [|intros [? _]]].
  destruct (try_into 64 sig) as [s|] eqn:Es; simpl.
  - apply try_into_Some in Es. split.
    + destruct (ed25519_verify pk s msg) eqn:Ev; [|done]. eauto.
    + intros (_ & s' & Hs' & Hv). assert (s = s') as -> by (apply array_eq; by rewrite Es).
      by rewrite Hv.
  - split; [done|]. intros (_ & s & <- & _). by rewrite try_into_bytes in Es.
Qed.

Lemma verify_returns pk msg s : returns (verify pk msg s).
Proof.
  unfold verify. destruct (ed25519_key_valid pk); [|done].
  apply returns_bind; [apply returns_ok_or|]. intros a _. by destruct (ed25519_verify _ _ _).
Qed.

Lemma verify_sign `{!PrimitivesLaws P} sk msg :
  verify (public sk) msg (sign sk msg) = Ok tt.
Proof.
  apply verify_ok_iff. split; [apply ed25519_public_valid|].
  eexists; split; [done|]. apply ed25519_verify_sign.
Qed.

End Identity.
End Identity.
Export Identity.

#[export] Hint Resolve verify_sign : earendil.

(** * libraries/earendil_packet/src/crypt.rs *)

Module Onion.
Section Onion.
  Context {P : Primitives}.

Definition OnionPublic : Type := array 32.
Definition OnionSecret : Type := ReusableSecret.

#[export] Instance OnionPublic_eq_dec : EqDecision OnionPublic := array_eq_dec 32.

Definition OnionPublic_as_bytes (self : OnionPublic) : array 32 := self.
Definition OnionPublic_from_bytes (b : array 32) : OnionPublic := b.

Definition OnionPublic_from_str (s : string) : outcome base64_error OnionPublic :=
  match base64_decode s with
  | inl e => Err e
  | inr decoded =>
      a ← ok_or InvalidLength (try_into 32 decoded); Ok (OnionPublic_from_bytes a)
  end.

Definition OnionSecret_generate {E} : Rand E OnionSecret :=
  sample random_from_rng.

Definition OnionSecret_public (self : OnionSecret) : OnionPublic := x25519_public self.

Definition shared_secret (self : OnionSecret) (theirs : OnionPublic) : array 32 :=
  diffie_hellman self theirs.

Record AeadKey := AeadKey_from_bytes { aead_inner : array 32 }.

Inductive AeadError := DecryptionFailed.

Definition seal {E} (self : AeadKey) (nonce : array 12) (plain : list byte)
    : outcome E (list byte) :=
  unwrap (aead_encrypt (aead_inner self) nonce plain).

Definition open (self : AeadKey) (nonce : array 12) (ctext : list byte)
    : outcome AeadError (list byte) :=
  ok_or DecryptionFailed (aead_decrypt (aead_inner self) nonce ctext).

Definition box_encrypt {E} (message : list byte) (recipient_pk : OnionPublic)
    : Rand E (list byte * OnionSecret) :=
  sender_sk ← OnionSecret_generate;
  let sender_pk := OnionSecret_public sender_sk in
  let ss := shared_secret sender_sk recipient_pk in
  let aead_key := AeadKey_from_bytes (blake3_hash ss) in
  let nonce := zeros 12 in
  encrypted_message ← lift (seal aead_key nonce message);
  mret (array_bytes (OnionPublic_as_bytes sender_pk) ++ encrypted_message, sender_sk).

Definition box_decrypt (encrypted_message : list byte) (recipient_sk : OnionSecret)
    : outcome AeadError (list byte * OnionPublic) :=
  if length encrypted_message <? 32 then Err DecryptionFailed
  else
    pk ← array_ref encrypted_message 0 32;
    let sender_public_key := OnionPublic_from_bytes pk in
    let ss := shared_secret recipient_sk sender_public_key in
    let aead_key := AeadKey_from_bytes (blake3_hash ss) in
    let nonce := zeros 12 in
    plain ← open aead_key nonce (drop 32 encrypted_message);
    Ok (plain, sender_public_key).

(** [stream_dencrypt] on a slice and on a fixed-size array. *)
Definition stream_dencrypt (key : array 32) (nonce : array 12) (buf : list byte) : list byte :=
  xor_stream (chacha20_keystream key nonce) buf.

Definition stream_dencrypt_array {n} (key : array 32) (nonce : array 12) (buf : array n)
    : array n :=
  array_map (stream_dencrypt key nonce) (length_xor_stream _) buf.

(** ** Boxes *)

Section laws.
  Context `{!PrimitivesLaws P}.

(** What a box holds, whoever opens it: the sender's public key, then the
    sealed message under the hash of the shared secret. *)
Lemma box_encrypt_spec {E} message pk r :
  (N.of_nat (length message) <= aead_max_plaintext)%N →
  let (sk, r') := random_from_rng r in
  ∃ c, aead_encrypt (blake3_hash (shared_secret sk pk)) (zeros 12) message = Some c ∧
       box_encrypt (E:=E) message pk r = (Ok (array_bytes (x25519_public sk) ++ c, sk), r').
Proof.
  intros Hlen. destruct (random_from_rng r) as [sk r'] eqn:Er.
  destruct (aead_encrypt_total (blake3_hash (shared_secret sk pk)) (zeros 12) message Hlen)
    as [c Hc].
  exists c. split; [done|]. unfold box_encrypt, OnionSecret_generate, sample, mbind, M_bind.
  rewrite Er. unfold lift, seal. simpl. by rewrite Hc.
Qed.

(** A box made for a public key is opened by the matching secret key, and
    both sides then share the same secret. *)
Lemma box_encrypt_ok {E} message pk r :
  (N.of_nat (length message) <= aead_max_plaintext)%N →
  ∃ ctext eph r',
    box_encrypt (E:=E) message pk r = (Ok (ctext, eph), r') ∧
    length ctext = length message + 48 ∧
    ∀ sk, pk = OnionSecret_public sk →
      box_decrypt ctext sk = Ok (message, OnionSecret_public eph) ∧
      shared_secret sk (OnionSecret_public eph) = shared_secret eph pk.
Proof.
  intros Hlen. pose proof (box_encrypt_spec (E:=E) message pk r Hlen) as H.
  destruct (random_from_rng r) as [eph r']. destruct H as (c & Hc & ->).
  do 3 eexists. split; [done|]. apply aead_encrypt_length in Hc as Hcl. split.
  { rewrite length_app, array_length, Hcl. lia. }
  intros sk ->. split; [|apply diffie_hellman_comm]. unfold box_decrypt.
  assert ((length (array_bytes (x25519_public eph) ++ c) <? 32) = false) as ->.
  { apply Nat.ltb_ge. rewrite length_app, array_length. lia. }
  rewrite (array_ref_ok _ _ _ (x25519_public eph)); simpl.
  2:{ change (N.to_nat 0) with 0. rewrite drop_0.
      apply take_app_length'. symmetry. apply array_length. }
  rewrite drop_app_length' by (by rewrite array_length).
  unfold open; simpl. unfold OnionPublic_from_bytes, shared_secret.
  rewrite (diffie_hellman_comm sk eph). unfold shared_secret, OnionSecret_public in Hc.
  by rewrite (aead_decrypt_encrypt _ _ _ _ Hc).
Qed.

Lemma box_decrypt_returns c sk : returns (box_decrypt c sk).
Proof.
  unfold box_decrypt. destruct (_ <? 32) eqn:E; [done|]. apply Nat.ltb_ge in E.
  apply returns_bind.
  - apply returns_unwrap. apply try_into_is_Some. rewrite length_take, length_drop. lia.
  - intros pk _. apply returns_bind; [apply returns_ok_or|done].
Qed.

(** Opening a box of 69 bytes gives 21 bytes or an error. *)
Lemma box_decrypt_length c sk m pk :
  box_decrypt c sk = Ok (m, pk) → length c = length m + 48.
Proof.
  unfold box_decrypt. destruct (_ <? 32) eqn:E; [done|]. apply Nat.ltb_ge in E.
  destruct (array_ref c 0 32) as [a| | |]; simpl; try done.
  unfold open. destruct (aead_decrypt _ _ _) as [p|] eqn:Ed; simpl; [|done].
  intros [= <- <-]. apply aead_decrypt_length in Ed. rewrite length_drop in Ed. lia.
Qed.

End laws.

Lemma stream_dencrypt_involutive key nonce buf :
  stream_dencrypt key nonce (stream_dencrypt key nonce buf) = buf.
Proof. apply xor_stream_involutive. Qed.

End Onion.
End Onion.
Export Onion.
