(* ===== verification/Packet.v ===== *)
(** The packet formats: [libraries/earendil_packet/src/inner.rs] (module
    [Inner]), [raw.rs] (module [Raw]) and [reply_block.rs] (module [Reply]).

    bincode is a parameter (class [Bincode]); packets are fixed-size arrays of
    bytes, exactly as on the wire. *)

From Stdlib Require Import String.
From S2P Require Import Prelude Crypto.
Close Scope string_scope.

(** * Wire data *)

(** [RawHeader] of raw.rs: a 69-byte box and 621 bytes of further layers. *)
Record RawHeader := mkRawHeader {
  outer : array 69;
  inner : array 621
}.

Definition Dock : Type := N.
#[export] Instance Dock_eq_dec : EqDecision Dock := N.eq_dec.
#[export] Instance Dock_countable : Countable Dock := _ : Countable N.

(** [ReplyBlock] of reply_block.rs. *)
Record ReplyBlock := mkReplyBlock {
  rb_header : RawHeader;
  e2e_dest : OnionPublic
}.

Record Message := mkMessage {
  source_dock : Dock;
  dest_dock : Dock;
  body : list (list byte)
}.

Inductive InnerPacket :=
  | IMessage (m : Message)
  | IReplyBlocks (rbs : list ReplyBlock).

#[export] Instance RawHeader_eq_dec : EqDecision RawHeader.
Proof. solve_decision. Defined.
#[export] Instance ReplyBlock_eq_dec : EqDecision ReplyBlock.
Proof. solve_decision. Defined.
#[export] Instance Message_eq_dec : EqDecision Message.
Proof. solve_decision. Defined.
#[export] Instance InnerPacket_eq_dec : EqDecision InnerPacket.
Proof. solve_decision. Defined.

(** bincode, with [DefaultOptions::new().allow_trailing_bytes()]. *)
Class Bincode (A : Type) : Type := {
  bincode_serialize : A → list byte;
  bincode_deserialize : list byte → option A
}.

Class BincodeLaws (A : Type) `{Bincode A} : Prop := {
  bincode_deserialize_serialize (a : A) rest :
    bincode_deserialize (bincode_serialize a ++ rest) = Some a
}.

(** * libraries/earendil_packet/src/inner.rs *)

Module Inner.
Section Inner.
  Context {P : Primitives} {B : Bincode InnerPacket}.

Inductive DecodeError := DecodeBadPackaging | DecodeDecryptionFailed.
Inductive EncodeError := EncodeBadPackaging | EncodeMessageTooBig.

Definition decode (raw : array 8192) : outcome DecodeError (InnerPacket * Fingerprint) :=
  let src_fp : Fingerprint := subarray 0 20 raw eq_refl in
  msg ← ok_or DecodeBadPackaging (bincode_deserialize (drop 20 raw));
  Ok (msg, src_fp).

Definition encode (self : InnerPacket) (my_isk : IdentitySecret)
    : outcome EncodeError (array 8192) :=
  let toret := zeros 8192 in
  toret ← unwrap (write_at 0 (fingerprint (public my_isk)) toret);
  ok_or EncodeBadPackaging (write_at 20 (bincode_serialize self) toret).

(** The room for the serialized packet. *)
Definition payload_room : N := 8192 - 20.

Lemma encode_layout self isk :
  if (N.of_nat (length (bincode_serialize self)) <=? payload_room)%N then
    ∃ raw, encode self isk = Ok raw ∧
      take 20 raw = fingerprint (public isk) ∧
      drop 20 raw = bincode_serialize self ++
        replicate (N.to_nat payload_room - length (bincode_serialize self)) x00
  else encode self isk = Err EncodeBadPackaging.
Proof.
  unfold encode.
  destruct (write_at_Some 0 (fingerprint (public isk)) (zeros 8192)) as (t & Ht & Hb).
  { rewrite array_length. lia. }
  rewrite Ht; simpl. change (N.to_nat 0) with 0 in Hb.
  rewrite take_0, app_nil_l, Nat.add_0_l, array_length in Hb.
  change (N.to_nat 20) with 20 in Hb. unfold payload_room.
  destruct (_ <=? _)%N eqn:Hle; [apply N.leb_le in Hle|apply N.leb_gt in Hle].
  - destruct (write_at_Some 20 (bincode_serialize self) t) as (raw & Hraw & Hb'); [lia|].
    exists raw. rewrite Hraw. split; [done|].
    change (N.to_nat 20) with 20 in Hb'. rewrite Hb'.
    assert (length (take 20 t) = 20) by (rewrite length_take, array_length; lia).
    rewrite take_app_length', drop_app_length' by done. split.
    + rewrite Hb. rewrite take_app_length'; [done|]. by rewrite array_length.
    + f_equal. rewrite Hb.
      rewrite drop_app_ge by (rewrite array_length; lia).
      rewrite drop_drop, zeros_bytes, drop_replicate. f_equal. rewrite array_length. lia.
  - by rewrite write_at_None by lia.
Qed.

End Inner.
End Inner.
Export Inner.

(** * libraries/earendil_packet/src/raw.rs *)

Module Raw.
Section Raw.
  Context {P : Primitives} {B : Bincode InnerPacket}.

Record RawPacket := mkRawPacket {
  header : RawHeader;
  onion_body : array 8192
}.

Record ForwardInstruction := mkForwardInstruction {
  this_pubkey : OnionPublic;
  next_fingerprint : Fingerprint
}.

Inductive PacketConstructError := TooManyHops | MessageTooBig.

Inductive PacketPeelError := DecryptionError | InnerPacketOpenError.

Inductive PeeledPacket :=
  | Forward (to : Fingerprint) (pkt : RawPacket)
  | Received (from : Fingerprint) (pkt : InnerPacket)
  | GarbledReply (id : N) (pkt : array 8192).

Definition HEADER_KEY : array 32 := key32 "header__________________________" eq_refl.
Definition BODY_KEY : array 32 := key32 "body____________________________" eq_refl.

(** [bytemuck::cast] between [RawHeader] ([repr(C)], bytes only) and [[u8; 690]]. *)
Definition header_to_bytes (h : RawHeader) : array 690 := array_app (outer h) (inner h).

Definition header_of_bytes (a : array 690) : RawHeader :=
  mkRawHeader (subarray 0 69 a eq_refl) (subarray 69 621 a eq_refl).

(** The body of a layer: xored with the key stream of the layer's secret. *)
Definition dencrypt_body (shared_sec : array 32) (b : array 8192) : array 8192 :=
  stream_dencrypt_array (blake3_keyed_hash BODY_KEY shared_sec) (zeros 12) b.

(** [RawPacket::new]. *)
Fixpoint new (route : list ForwardInstruction) (destination : OnionPublic)
    (payload : InnerPacket) (metadata : array 20) (my_isk : IdentitySecret)
    : Rand PacketConstructError (RawPacket * list (array 32)) :=
  if 10 <=? length route then throw TooManyHops
  else match route with
  | [] =>
      sealed_payload ← lift (map_err (λ _, MessageTooBig) (encode payload my_isk));
      buffer ← lift (unwrap (write_at 1 metadata (zeros 21)));
      '(header_outer, our_sk) ← box_encrypt (array_bytes buffer) destination;
      let shared_sec := shared_secret our_sk destination in
      let onion_body := dencrypt_body shared_sec sealed_payload in
      outer ← lift (unwrap (try_into 69 header_outer));
      inner ← sample (fill_bytes 621);
      mret (mkRawPacket (mkRawHeader outer inner) onion_body, [shared_sec])
  | instr :: rest =>
      '(next_hop, shared_secs) ← new rest destination payload metadata my_isk;
      buffer ← lift (unwrap (write_at 1 (next_fingerprint instr) (array_repeat 21 x01)));
      '(header_outer, our_sk) ← box_encrypt (array_bytes buffer) (this_pubkey instr);
      let shared_sec := shared_secret our_sk (this_pubkey instr) in
      let onion_body := dencrypt_body shared_sec (onion_body next_hop) in
      let header_inner :=
        stream_dencrypt_array (blake3_keyed_hash HEADER_KEY shared_sec) (zeros 12)
          (subarray 0 621 (header_to_bytes (header next_hop)) eq_refl) in
      outer ← lift (unwrap (try_into 69 header_outer));
      mret (mkRawPacket (mkRawHeader outer header_inner) onion_body,
            shared_secs ++ [shared_sec])
  end.

Definition new_normal (route : list ForwardInstruction) (destination : OnionPublic)
    (payload : InnerPacket) (my_isk : IdentitySecret)
    : Rand PacketConstructError RawPacket :=
  '(raw, _) ← new route destination payload (zeros 20) my_isk;
  mret raw.

Definition new_reply (reply_block : ReplyBlock) (payload : InnerPacket)
    (my_isk : IdentitySecret) : outcome PacketConstructError RawPacket :=
  onion_body ← map_err (λ _, MessageTooBig) (encode payload my_isk);
  Ok (mkRawPacket (rb_header reply_block) onion_body).

Definition peel (self : RawPacket) (our_sk : OnionSecret) : outcome PacketPeelError PeeledPacket :=
  '(metadata, their_pk) ←
    map_err (λ _, DecryptionError) (box_decrypt (outer (header self)) our_sk);
  if negb (length metadata =? 21) then Panic
  else
    let shared_sec := shared_secret our_sk their_pk in
    buffer ← unwrap (write_at 0 (inner (header self)) (zeros 690));
    let peeled_header :=
      stream_dencrypt_array (blake3_keyed_hash HEADER_KEY shared_sec) (zeros 12) buffer in
    let peeled_body := dencrypt_body shared_sec (onion_body self) in
    flag ← unwrap (metadata !! 0);
    if decide (flag = x01) then
      fp ← array_ref metadata 1 20;
      Ok (Forward fp (mkRawPacket (header_of_bytes peeled_header) peeled_body))
    else if decide (flag = x00) then
      inner_metadata ← array_ref metadata 1 20;
      if decide (inner_metadata = zeros 20) then
        '(inner_pkt, fp) ← map_err (λ _, InnerPacketOpenError) (decode peeled_body);
        Ok (Received fp inner_pkt)
      else
        id_bts ← array_ref metadata 1 8;
        Ok (GarbledReply (from_be (array_bytes id_bts)) peeled_body)
    else Err InnerPacketOpenError.

End Raw.
End Raw.
Export Raw.

(** * libraries/earendil_packet/src/reply_block.rs *)

Module Reply.
Section Reply.
  Context {P : Primitives} {B : Bincode InnerPacket}.

Record ReplyDegarbler := mkReplyDegarbler {
  shared_secs : list (array 32);
  my_anon_osk : OnionSecret;
  my_anon_isk : IdentitySecret
}.

(** The metadata of a reply block: its identifier, big-endian, then zeros. *)
Definition reply_metadata {E} (rb_id : N) : outcome E (array 20) :=
  unwrap (write_at 0 (be_bytes 8 rb_id) (zeros 20)).

Definition ReplyBlock_new (route : list ForwardInstruction) (my_opk : OnionPublic)
    (my_anon_osk : OnionSecret) (my_anon_isk : IdentitySecret)
    : Rand PacketConstructError (ReplyBlock * (N * ReplyDegarbler)) :=
  let my_anon_opk := OnionSecret_public my_anon_osk in
  rb_id ← sample random_u64;
  metadata ← lift (reply_metadata rb_id);
  '(raw_packet, shared_secs) ←
    new route my_opk (IMessage (mkMessage 0%N 0%N [[]])) metadata my_anon_isk;
  mret (mkReplyBlock (header raw_packet) my_anon_opk,
        (rb_id, mkReplyDegarbler shared_secs my_anon_osk my_anon_isk)).

Definition degarble (self : ReplyDegarbler) (raw : array 8192)
    : outcome DecodeError (InnerPacket * Fingerprint) :=
  decode (foldl (λ raw sec, dencrypt_body sec raw) raw (shared_secs self)).

End Reply.
End Reply.
Export Reply.
