(* ===== verification/Instances.v ===== *)
(** Concrete instances of the interfaces of the third-party crates.

    They are small executable stand-ins, not the crates' algorithms: they show
    that the laws the theorems assume can hold together, and they let the
    witnesses run the model on concrete inputs. *)

From Stdlib Require Import String.
From S2P Require Import Prelude Interfaces Crypto Packet.
Close Scope string_scope.

(** * Primitives *)

Definition arr (n : N) (k : nat) (l : list byte) : array n :=
  default (zeros n) (try_into n (take k (l ++ replicate k x00))).

Definition le_array (n : N) (x : N) : array n :=
  default (zeros n) (try_into n (le_bytes (N.to_nat n) x)).

Lemma le_array_bytes n x : array_bytes (le_array n x) = le_bytes (N.to_nat n) x.
Proof.
  unfold le_array.
  destruct (try_into_is_Some n (le_bytes (N.to_nat n) x)) as [a Ha].
  { apply length_le_bytes. }
  rewrite Ha. simpl. by apply try_into_Some.
Qed.

Definition toy_modulus : N := 256 ^ 32.

Definition toy_hash (l : list byte) : array 32 :=
  le_array 32 (foldl (λ acc b, N.land (acc * 257 + Byte.to_N b + 1) 4294967295)%N 7%N l).

Definition toy_keystream (k : array 32) (n : array 12) (i : nat) : byte :=
  byte_xor (nth i k (hd x00 k)) (nth i n (hd x00 n)).

Definition toy_tag (k : array 32) (n : array 12) (p : list byte) : list byte :=
  take 16 (toy_hash (k ++ n ++ p)).

Definition toy_aead_encrypt (k : array 32) (n : array 12) (p : list byte) : option (list byte) :=
  if (N.of_nat (length p) <=? aead_max_plaintext)%N
  then Some (xor_stream (toy_keystream k n) p ++ toy_tag k n p) else None.

Definition toy_aead_decrypt (k : array 32) (n : array 12) (c : list byte) : option (list byte) :=
  if length c <? 16 then None
  else
    let p := xor_stream (toy_keystream k n) (take (length c - 16) c) in
    if decide (drop (length c - 16) c = toy_tag k n p) then Some p else None.

Definition toy_sign (sk : array 32) (m : list byte) : array 64 :=
  array_app (toy_hash (sk ++ m)) (toy_hash (m ++ sk)).

Definition toy_public (s : N) : array 32 := le_array 32 (s mod toy_modulus).

Definition toy_dh (s : N) (p : array 32) : array 32 :=
  le_array 32 ((s * from_le p) mod toy_modulus).

(** A self-delimiting code for naturals, and hexadecimal digits. *)
Definition put_N (n : N) : list byte :=
  replicate (N.to_nat (n / 255)) xff ++ [byte_of_N (n mod 255)].

Fixpoint get_N (l : list byte) : option (N * list byte) :=
  match l with
  | [] => None
  | b :: l =>
      if decide (b = xff) then
        '(n, l) ← get_N l; Some ((255 + n)%N, l)
      else Some (Byte.to_N b, l)
  end.

Definition hex_digit (n : N) : Ascii.ascii :=
  Ascii.ascii_of_N (if (n <? 10)%N then 48 + n else 87 + n).

Definition hex_value (c : Ascii.ascii) : option N :=
  let n := Ascii.N_of_ascii c in
  if (48 <=? n)%N && (n <=? 57)%N then Some (n - 48)%N
  else if (97 <=? n)%N && (n <=? 102)%N then Some (n - 87)%N
  else None.

Fixpoint toy_base32_encode (l : list byte) : string :=
  match l with
  | [] => EmptyString
  | b :: l =>
      String (hex_digit (Byte.to_N b / 16)) (String (hex_digit (Byte.to_N b mod 16))
        (toy_base32_encode l))
  end.

Fixpoint toy_base32_decode (s : string) : option (list byte) :=
  match s with
  | EmptyString => Some []
  | String c (String d s) =>
      x ← hex_value (ascii_lower c); y ← hex_value (ascii_lower d);
      l ← toy_base32_decode s; Some (byte_of_N (16 * x + y) :: l)
  | _ => None
  end.

#[export] Instance toy : Primitives := {|
  rng := N;
  fill_bytes := λ n r, (array_repeat n (byte_of_N r), (r + 1)%N);
  random_u64 := λ r, ((r mod u64_modulus)%N, (r + 1)%N);
  random_u32 := λ r, ((r mod 2 ^ 32)%N, (r + 1)%N);
  gen_range := λ n r, ((r mod n)%N, (r + 1)%N);
  blake3_hash := toy_hash;
  blake3_keyed_hash := λ k l, toy_hash (k ++ l);
  ReusableSecret := N;
  random_from_rng := λ r, ((r * 1000003 + 12345)%N, (r + 1)%N);
  x25519_public := toy_public;
  diffie_hellman := toy_dh;
  chacha20_keystream := toy_keystream;
  aead_encrypt := toy_aead_encrypt;
  aead_decrypt := toy_aead_decrypt;
  ed25519_key_valid := λ _, true;
  ed25519_verify := λ pk s m, bool_decide (s = toy_sign pk m);
  ed25519_public := λ sk, sk;
  ed25519_sign := toy_sign;
  argon2_hash := λ p s, Some (toy_hash (p ++ s));
  base32_encode := toy_base32_encode;
  base32_decode := toy_base32_decode;
  base64_decode := λ s, inr (bytes_of s)
|}.

Lemma length_toy_tag k n p : length (toy_tag k n p) = 16.
Proof. unfold toy_tag. rewrite length_take, array_length. lia. Qed.

Lemma from_le_toy_public x : from_le (toy_public x) = (x mod toy_modulus)%N.
Proof.
  unfold toy_public. rewrite le_array_bytes. apply from_le_le_bytes.
  rewrite N2Nat.id. by apply N.mod_upper_bound.
Qed.

Lemma toy_dh_comm (a b : N) : toy_dh a (toy_public b) = toy_dh b (toy_public a).
Proof.
  unfold toy_dh. rewrite !from_le_toy_public, !N.Div0.mul_mod_idemp_r. by rewrite N.mul_comm.
Qed.

Lemma toy_aead_roundtrip k n p c :
  toy_aead_encrypt k n p = Some c → toy_aead_decrypt k n c = Some p.
Proof.
  unfold toy_aead_encrypt. destruct (_ <=? _)%N; [|done]. intros [= <-].
  unfold toy_aead_decrypt. rewrite length_app, length_toy_tag, length_xor_stream.
  destruct (_ <? 16) eqn:E; [apply Nat.ltb_lt in E; lia|].
  replace (length p + 16 - 16) with (length p) by lia.
  rewrite take_app_length', drop_app_length' by (by rewrite length_xor_stream).
  rewrite xor_stream_involutive. by rewrite decide_True.
Qed.

#[export] Instance toy_laws : PrimitivesLaws toy.
Proof.
  split.
  - intros r. simpl. apply N.mod_upper_bound. done.
  - intros r. simpl. apply N.mod_upper_bound. done.
  - intros n r Hn. simpl. apply N.mod_upper_bound. lia.
  - apply toy_dh_comm.
  - intros k n p H. simpl. unfold toy_aead_encrypt. apply N.leb_le in H. rewrite H. by eexists.
  - intros k n p c. simpl. unfold toy_aead_encrypt. destruct (_ <=? _)%N; [|done].
    intros [= <-]. by rewrite length_app, length_toy_tag, length_xor_stream.
  - apply toy_aead_roundtrip.
  - intros k n c p. simpl. unfold toy_aead_decrypt.
    destruct (_ <? 16) eqn:E; [done|]. apply Nat.ltb_ge in E.
    case_decide; [|done]. intros [= <-]. rewrite length_xor_stream, length_take. lia.
  - done.
  - intros. simpl. by apply bool_decide_eq_true.
Qed.

(** * A self-delimiting codec *)

(** [wget] recovers the value and whatever follows it. *)
Class Wire (A : Type) : Type := {
  wput : A → list byte;
  wget : list byte → option (A * list byte);
  wget_wput a rest : wget (wput a ++ rest) = Some (a, rest)
}.

Lemma get_put_N n rest : get_N (put_N n ++ rest) = Some (n, rest).
Proof.
  unfold put_N. rewrite <-app_assoc. simpl.
  assert (∀ q r, (r < 255)%N →
    get_N (replicate q xff ++ byte_of_N r :: rest) = Some ((255 * N.of_nat q + r)%N, rest))
    as H.
  { intros q r Hr. induction q as [|q IH]; simpl.
    - assert (Byte.to_N (byte_of_N r) = r) as Hb.
      { rewrite to_N_byte_of_N. apply N.mod_small. lia. }
      rewrite decide_False; [by rewrite Hb|].
      intros E. rewrite E in Hb. cbn in Hb. lia.
    - rewrite IH; simpl. do 2 f_equal. lia. }
  rewrite H by (apply N.mod_upper_bound; lia).
  do 2 f_equal. rewrite N2Nat.id. symmetry. apply N.div_mod. lia.
Qed.

#[export] Instance wire_N : Wire N := {| wput := put_N; wget := get_N; wget_wput := get_put_N |}.

Section combinators.
  Context {A B : Type} `{!Wire A, !Wire B}.

#[export] Program Instance wire_pair : Wire (A * B) := {|
  wput := λ p, wput p.1 ++ wput p.2;
  wget := λ l, '(a, l) ← wget l; '(b, l) ← wget l; Some ((a, b), l)
|}.
Next Obligation.
  intros [a b] rest; simpl. rewrite <-app_assoc, wget_wput; simpl. by rewrite wget_wput.
Qed.

Fixpoint get_many (k : nat) (l : list byte) : option (list A * list byte) :=
  match k with
  | O => Some ([], l)
  | S k => '(a, l) ← wget l; '(r, l) ← get_many k l; Some (a :: r, l)
  end.

Lemma get_many_put (l : list A) rest :
  get_many (length l) (concat (map wput l) ++ rest) = Some (l, rest).
Proof.
  induction l as [|a l IH]; [done|]. simpl. rewrite <-app_assoc, wget_wput; simpl. by rewrite IH.
Qed.

#[export] Program Instance wire_list : Wire (list A) := {|
  wput := λ l, wput (N.of_nat (length l)) ++ concat (map wput l);
  wget := λ l, '(n, l) ← wget l; get_many (N.to_nat n) l
|}.
Next Obligation.
  intros l rest; cbn [wput wget]. rewrite <-app_assoc, wget_wput. cbn -[concat map wput].
  rewrite Nat2N.id. apply get_many_put.
Qed.

#[export] Program Instance wire_option : Wire (option A) := {|
  wput := λ o, match o with None => [x00] | Some a => x01 :: wput a end;
  wget := λ l, match l with
    | [] => None
    | b :: l => if decide (b = x00) then Some (None, l)
                else '(a, l) ← wget l; Some (Some a, l)
    end
|}.
Next Obligation. intros [a|] rest; simpl; [|done]. by rewrite wget_wput. Qed.

(** The codec of a type isomorphic to one that has a codec. *)
Definition wire_iso (f : B → A) (g : A → B) (Hgf : ∀ b, g (f b) = b) : Wire B.
Proof.
  refine {| wput := λ b, wput (f b); wget := λ l, '(a, l) ← wget l; Some (g a, l) |}.
  intros b rest. rewrite wget_wput; simpl. by rewrite Hgf.
Defined.

End combinators.

#[export] Program Instance wire_byte : Wire byte := {|
  wput := λ b, [b];
  wget := λ l, match l with [] => None | b :: l => Some (b, l) end
|}.
Next Obligation. done. Qed.

#[export] Program Instance wire_array n : Wire (array n) := {|
  wput := array_bytes;
  wget := λ l, a ← try_into n (take (N.to_nat n) l); Some (a, drop (N.to_nat n) l)
|}.
Next Obligation.
  intros n a rest; cbn [wput wget].
  rewrite take_app_length', drop_app_length' by (by rewrite array_length).
  by rewrite try_into_bytes.
Qed.

#[export] Instance wire_Fingerprint : Wire Fingerprint := wire_array 20.
#[export] Instance wire_OnionPublic : Wire OnionPublic := wire_array 32.
#[export] Instance wire_Dock : Wire Dock := wire_N.

#[export] Instance wire_RawHeader : Wire RawHeader.
Proof.
  refine (wire_iso (λ h, (outer h, inner h)) (λ p, mkRawHeader p.1 p.2) _). by intros [].
Defined.

#[export] Instance wire_ReplyBlock : Wire ReplyBlock.
Proof.
  refine (wire_iso (λ h, (rb_header h, e2e_dest h)) (λ p, mkReplyBlock p.1 p.2) _). by intros [].
Defined.

#[export] Instance wire_Message : Wire Message.
Proof.
  refine (wire_iso (λ m, (source_dock m, (dest_dock m, body m)))
    (λ p, mkMessage p.1 p.2.1 p.2.2) _). by intros [].
Defined.

#[export] Program Instance wire_InnerPacket : Wire InnerPacket := {|
  wput := λ p, match p with
    | IMessage m => x00 :: wput m
    | IReplyBlocks rbs => x01 :: wput rbs
    end;
  wget := λ l, match l with
    | [] => None
    | b :: l => if decide (b = x00) then '(m, l) ← wget l; Some (IMessage m, l)
                else '(r, l) ← wget l; Some (IReplyBlocks r, l)
    end
|}.
Next Obligation. intros [m|rbs] rest; cbn -[wget wput]; by rewrite wget_wput. Qed.

#[export] Instance wire_bincode `{!Wire A} : Bincode A := {|
  bincode_serialize := wput;
  bincode_deserialize := λ l, fst <$> wget l
|}.

#[export] Instance wire_bincode_laws `{!Wire A} : BincodeLaws A.
Proof. split. intros a rest. simpl. by rewrite wget_wput. Qed.

#[export] Instance wire_stdcode `{!Wire A} : Stdcode A := {|
  stdcode := wput;
  stdcode_deserialize := λ l, fst <$> wget l
|}.

#[export] Instance wire_stdcode_laws `{!Wire A} : StdcodeLaws A.
Proof.
  split. intros a. simpl. rewrite <-(app_nil_r (wput a)). by rewrite wget_wput.
Qed.

(** * Collections *)

(** An [IndexMap] represented by a finite map, iterated in key order. *)
#[export] Instance gmap_indexmap : IndexMap := {|
  imap := λ K V _ _, gmap K V;
  im_empty := λ K V _ _, ∅;
  im_get := λ K V _ _ k m, m !! k;
  im_insert := λ K V _ _ k v m, <[k := v]> m;
  im_remove := λ K V _ _ k m, delete k m;
  im_items := λ K V _ _ m, map_to_list m;
  im_retain := λ K V _ _ f m, filter (λ p, f p.1 p.2 = true) m
|}.

#[export] Instance gmap_indexmap_laws : IndexMapLaws gmap_indexmap.
Proof.
  split; intros; simpl.
  - apply lookup_empty.
  - by rewrite lookup_insert.
  - by rewrite lookup_delete.
  - apply elem_of_map_to_list.
  - apply NoDup_fst_map_to_list.
  - change (gmap K V) in m. rewrite map_lookup_filter.
    destruct (lookup (K:=K) (A:=V) (M:=gmap K V) k m) as [v|]; cbn; [|done].
    destruct (f k v); by case_guard.
Qed.

#[export] Instance elements_hashiter : HashIter := {| hash_iter := λ A _ _ s, elements s |}.

#[export] Instance elements_hashiter_laws : HashIterLaws elements_hashiter.
Proof. by split. Qed.

(** An LRU cache as the list of its entries, the most recent first. *)
#[export] Instance list_lru : Lru := {|
  lru := λ K V _ _, (N * list (K * V))%type;
  lru_new := λ K V _ _ n, (n, []);
  lru_cap := λ K V _ _ c, c.1;
  lru_view := λ K V _ _ c, c.2;
  lru_get_or_insert_mut := λ K V _ _ k d f c,
    (c.1, match assoc_get k c.2 with
          | Some v => (k, f v) :: assoc_del k c.2
          | None => take (N.to_nat c.1) ((k, f d) :: c.2)
          end);
  lru_get_mut := λ K V _ _ R k f c,
    match assoc_get k c.2 with
    | Some v => (Some (f v).1, (c.1, (k, (f v).2) :: assoc_del k c.2))
    | None => (None, c)
    end
|}.

#[export] Instance list_lru_laws : LruLaws list_lru.
Proof.
  split; intros; simpl; try done. by destruct (assoc_get k c.2).
Qed.

(** A channel as its capacity and the list of queued values. *)
#[export] Instance list_chan : Chan := {|
  chan := λ A, (N * list A)%type;
  chan_bounded := λ A n, (n, []);
  chan_cap := λ A c, c.1;
  chan_view := λ A c, c.2;
  chan_try_send := λ A x c,
    if (N.of_nat (length c.2) <? c.1)%N then Some (c.1, c.2 ++ [x]) else None;
  chan_try_recv := λ A c, match c.2 with x :: l => Some (x, (c.1, l)) | [] => None end
|}.

#[export] Instance list_chan_laws : ChanLaws list_chan.
Proof.
  split; intros; simpl; try done.
  - destruct (_ <? _)%N eqn:E; simpl; [apply N.ltb_lt in E|apply N.ltb_ge in E]; done.
  - destruct c as [n [|x l]]; simpl; [done|]. by eexists.
Qed.

(** A cache that never evicts: a time-to-live and, per key, the value with the
    time of its insertion. *)
#[export] Instance ttl_moka : Moka := {|
  moka := λ K V _ _, (option N * gmap K (V * N))%type;
  moka_new := λ K V _ _ cap ttl, (ttl, ∅);
  moka_get := λ K V _ _ now k c,
    match c.2 !! k with
    | Some (v, t) =>
        match c.1 with
        | Some ttl => if (now <? t + ttl)%N then Some v else None
        | None => Some v
        end
    | None => None
    end;
  moka_insert := λ K V _ _ now k v c, (c.1, <[k := (v, now)]> c.2);
  moka_remove := λ K V _ _ now k c, (fst <$> c.2 !! k, (c.1, delete k c.2));
  moka_holds := λ K V _ _ k v c, ∃ t, c.2 !! k = Some (v, t);
  moka_unbounded := λ K V _ _ ttl c, c.1 = Some ttl
|}.

#[export] Instance ttl_moka_laws : MokaLaws ttl_moka.
Proof.
  split; intros K V E0 H0; intros; simpl in *.
  - destruct (c.2 !! k) as [[v0 t]|] eqn:E; [|done]. exists t.
    destruct c.1; [destruct (_ <? _)%N|]; congruence.
  - intros [t Ht]. by rewrite lookup_empty in Ht.
  - destruct H as [t Ht]. rewrite lookup_insert in Ht. case_decide; [congruence|eauto].
  - destruct H as [t Ht]. rewrite lookup_delete in Ht. case_decide; [done|eauto].
  - destruct (c.2 !! k) as [[v0 t]|]; [|done]. simpl in *. simplify_eq. by exists t.
  - destruct (c.2 !! k) as [[v0 t]|]; [|done]. simpl.
    destruct c.1; [destruct (_ <? _)%N|]; congruence.
  - done.
  - done.
  - done.
  - rewrite lookup_insert_eq, H. apply N.ltb_lt in H2 as ->. done.
  - by rewrite lookup_insert_ne.
  - by rewrite lookup_delete_ne.
  - destruct (c.2 !! k) as [[v0 t0]|]; [|done]. rewrite H in *.
    destruct (t <? t0 + ttl)%N eqn:E; [|done]. apply N.ltb_lt in E.
    assert ((t' <? t0 + ttl)%N = true) as -> by (apply N.ltb_lt; lia). done.
Qed.

(** A replay filter that remembers every number. *)
#[export] Instance set_replay_filter : ReplayFilter := {|
  rfilter := gset N;
  rf_default := ∅;
  rf_add := λ n s, (bool_decide (n ∉ s), {[ n ]} ∪ s)
|}.

#[export] Instance set_replay_filter_laws : ReplayFilterLaws set_replay_filter.
Proof.
  split; cbn.
  - intros n r. apply bool_decide_eq_false. set_solver.
  - intros n m r. rewrite !bool_decide_eq_false. set_solver.
  - intros l n Hl. apply bool_decide_eq_true.
    assert (∀ s, n ∈ rf_add_all (RF:=set_replay_filter) l s → n ∈ s) as H.
    { induction Hl as [|m l Hm Hl IH]; intros s; [done|]. cbn. intros Hn%IH.
      apply elem_of_union in Hn as [Hn%elem_of_singleton|?]; [lia|done]. }
    intros Hn%H. by apply elem_of_empty in Hn.
Qed.
