(* ===== verification/OnionRouting.v ===== *)
(** Correctness of onion routing (raw.rs and reply_block.rs).

    [layers] is the abstract specification of a header: which secret key opens
    which layer, where it forwards to, and which secret it shares with the
    sender.  [RawPacket::new] builds headers that satisfy it, [peel] consumes
    one layer of it; the delivery theorems for normal and for reply packets
    follow by induction on the route. *)

From Stdlib Require Import String.
From S2P Require Import Prelude Crypto Packet Instances.
Close Scope string_scope.

Section OnionRouting.
  Context {P : Primitives} {L : PrimitivesLaws P} {B : Bincode InnerPacket}.

(** * Headers as bytes *)

Lemma take_header_to_bytes h : take 69 (header_to_bytes h) = outer h.
Proof. apply take_app_length'. by rewrite array_length. Qed.

Lemma drop_header_to_bytes h : drop 69 (header_to_bytes h) = inner h.
Proof. apply drop_app_length'. by rewrite array_length. Qed.

Lemma header_to_of_bytes a : header_to_bytes (header_of_bytes a) = a.
Proof.
  apply array_eq. unfold header_to_bytes, header_of_bytes, array_app, subarray; simpl.
  rewrite drop_0. rewrite (take_ge (drop _ _)); [apply take_drop|].
  rewrite length_drop, array_length. lia.
Qed.

(** * Layers *)

(** [layers dsk md hops secs h]: the outermost box of [h] opens with the secret
    key of the first hop and names the fingerprint to forward to; decrypting
    the rest with the shared secret gives the header of the remaining hops, as
    far as those hops will read it; the innermost box opens with [dsk] and
    holds the metadata [md]. *)
Inductive layers (dsk : OnionSecret) (md : array 20)
    : list (OnionSecret * Fingerprint) → list (array 32) → RawHeader → Prop :=
  | layers_dest h epk :
      box_decrypt (outer h) dsk = Ok (x00 :: array_bytes md, epk) →
      layers dsk md [] [shared_secret dsk epk] h
  | layers_hop sk fp hops secs h h' epk :
      box_decrypt (outer h) sk = Ok (x01 :: array_bytes fp, epk) →
      prefix_agree (69 * S (length hops))
        (stream_dencrypt (blake3_keyed_hash HEADER_KEY (shared_secret sk epk)) (zeros 12) (inner h))
        (header_to_bytes h') →
      layers dsk md hops secs h' →
      layers dsk md ((sk, fp) :: hops) (shared_secret sk epk :: secs) h.

(** Only the bytes that some remaining hop reads matter. *)
Lemma layers_agree dsk md hops secs h1 h2 :
  layers dsk md hops secs h1 →
  prefix_agree (69 * S (length hops)) (header_to_bytes h1) (header_to_bytes h2) →
  layers dsk md hops secs h2.
Proof.
  intros Hl. revert h2. induction Hl as [h epk Hbox|sk fp hops secs h h' epk Hbox Hag Hl IH];
    intros h2 Hh; cbn [length] in Hh.
  - apply layers_dest. assert (outer h2 = outer h) as ->; [|done].
    apply array_eq. rewrite <-!take_header_to_bytes.
    symmetry. by apply (prefix_agree_le (69 * 1)); [lia|].
  - assert (outer h = outer h2) as Ho.
    { apply array_eq. rewrite <-!take_header_to_bytes.
      eapply prefix_agree_le; [|done]. lia. }
    rewrite Ho in Hbox. eapply layers_hop; [done| |done].
    etrans; [|done]. apply prefix_agree_xor. symmetry.
    rewrite <-!drop_header_to_bytes. apply prefix_agree_drop.
    eapply prefix_agree_le; [|done]. lia.
Qed.

(** * Peeling *)

Lemma array_ref_cons {E n} b (a : array n) rest :
  array_ref (E:=E) (b :: array_bytes a ++ rest) 1 n = Ok a.
Proof.
  apply array_ref_ok. change (N.to_nat 1) with 1. rewrite skipn_cons, drop_0.
  apply take_app_length'. by rewrite array_length.
Qed.

Lemma write_header_zeros (h : array 621) :
  ∃ buf : array 690, write_at 0 h (zeros 690) = Some buf ∧
    array_bytes buf = array_bytes h ++ replicate 69 x00.
Proof.
  destruct (write_at_Some 0 h (zeros 690)) as (buf & Hb & Hbytes).
  { rewrite array_length. lia. }
  exists buf. split; [done|]. rewrite Hbytes. change (N.to_nat 0) with 0.
  rewrite take_0, app_nil_l, zeros_bytes, drop_replicate, array_length. f_equal.
Qed.

Lemma peel_hop dsk md sk fp hops sec secs h b :
  layers dsk md ((sk, fp) :: hops) (sec :: secs) h →
  length hops < 9 →
  ∃ h', peel (mkRawPacket h b) sk = Ok (Forward fp (mkRawPacket h' (dencrypt_body sec b))) ∧
        layers dsk md hops secs h'.
Proof.
  intros Hl Hlen. inversion Hl as [|? ? ? ? ? h0 epk Hbox Hag Hl']; subst.
  unfold peel; cbn [header outer inner]. rewrite Hbox; cbn [map_err mbind outcome_bind].
  cbn [length]. rewrite array_length. change (negb _) with false; cbn iota.
  destruct (write_header_zeros (inner h)) as (buf & -> & Hbuf).
  cbn [mbind outcome_bind unwrap lookup list_lookup].
  rewrite decide_True by done.
  rewrite <-(app_nil_r (array_bytes fp)), array_ref_cons.
  cbn [mbind outcome_bind]. eexists. split; [done|].
  eapply layers_agree; [done|]. rewrite header_to_of_bytes. symmetry. etrans; [|exact Hag].
  unfold stream_dencrypt_array, array_map; cbn [array_bytes]. rewrite Hbuf.
  apply prefix_agree_xor. unfold prefix_agree.
  apply take_app_le. rewrite array_length. lia.
Qed.

Lemma peel_dest_prefix dsk md sec h b :
  layers dsk md [] [sec] h →
  peel (mkRawPacket h b) dsk =
    if decide (md = zeros 20) then
      '(inner_pkt, fp) ← map_err (λ _, InnerPacketOpenError) (decode (dencrypt_body sec b));
      Ok (Received fp inner_pkt)
    else
      id_bts ← array_ref md 0 8;
      Ok (GarbledReply (from_be (array_bytes id_bts)) (dencrypt_body sec b)).
Proof.
  intros Hl. inversion Hl as [? epk Hbox|]; subst.
  unfold peel; cbn [header outer inner onion_body]. rewrite Hbox; cbn [map_err mbind outcome_bind].
  cbn [length]. rewrite array_length. change (negb _) with false; cbn iota.
  destruct (write_header_zeros (inner h)) as (buf & -> & Hbuf).
  cbn [mbind outcome_bind unwrap lookup list_lookup].
  rewrite decide_False, decide_True by done.
  rewrite <-(app_nil_r (array_bytes md)), array_ref_cons.
  cbn [mbind outcome_bind]. rewrite app_nil_r.
  unfold array_ref at 1. change (N.to_nat 1) with 1. by rewrite skipn_cons.
Qed.

(** * Construction *)

Lemma write_flag (b : byte) (md : array 20) :
  ∃ buf : array 21, write_at 1 md (array_repeat 21 b) = Some buf ∧
    array_bytes buf = b :: array_bytes md.
Proof.
  destruct (write_at_Some 1 md (array_repeat 21 b)) as (buf & Hb & Hbytes).
  { rewrite array_length. lia. }
  exists buf. split; [done|]. rewrite Hbytes, array_length.
  unfold array_repeat; cbn [array_bytes]. simpl. by rewrite app_nil_r.
Qed.

(** One box of the header: made for [pk], it opens with the secret of [pk]. *)
Definition opens_as (o : array 69) (content : list byte) (eph : OnionSecret) (pk : OnionPublic)
    : Prop :=
  ∀ sk, pk = OnionSecret_public sk →
    box_decrypt o sk = Ok (content, OnionSecret_public eph) ∧
    shared_secret sk (OnionSecret_public eph) = shared_secret eph pk.

Lemma box_of_21 (buf : array 21) pk r :
  ∃ c o eph r', box_encrypt (E:=PacketConstructError) buf pk r = (Ok (c, eph), r') ∧
    try_into 69 c = Some o ∧ opens_as o buf eph pk.
Proof.
  destruct (box_encrypt_ok (E:=PacketConstructError) buf pk r) as (c & eph & r' & Hc & Hl & Ho).
  { rewrite array_length. done. }
  destruct (try_into_is_Some 69 c) as [o Hto]. { rewrite Hl, array_length. done. }
  exists c, o, eph, r'. split_and!; [done|done|]. apply try_into_Some in Hto as <-. exact Ho.
Qed.

Lemma new_dest_ok dest payload md isk r sealed :
  encode payload isk = Ok sealed →
  ∃ o i eph r',
    new [] dest payload md isk r =
      (Ok (mkRawPacket (mkRawHeader o i) (dencrypt_body (shared_secret eph dest) sealed),
           [shared_secret eph dest]), r') ∧
    opens_as o (x00 :: array_bytes md) eph dest.
Proof.
  intros Henc. cbn [new length]. change (10 <=? 0) with false; cbn iota. rewrite Henc.
  destruct (write_flag x00 md) as (buf & Hbuf & Hbytes).
  destruct (box_of_21 buf dest r) as (c & o & eph & r' & Hbox & Hto & Hopen).
  rewrite Hbytes in Hopen. unfold mbind, M_bind, lift, sample.
  cbn -[write_at box_encrypt try_into]. change (zeros 21) with (array_repeat 21 x00).
  rewrite Hbuf; cbn -[box_encrypt try_into]. rewrite Hbox; cbn -[try_into]. rewrite Hto; cbn.
  destruct (fill_bytes 621 r') as [i r'']. by exists o, i, eph, r''.
Qed.

Lemma new_hop_ok instr rest dest payload md isk r next secs r1 :
  new rest dest payload md isk r = (Ok (next, secs), r1) →
  length rest < 9 →
  ∃ o eph r',
    let sec := shared_secret eph (this_pubkey instr) in
    new (instr :: rest) dest payload md isk r =
      (Ok (mkRawPacket
             (mkRawHeader o
               (stream_dencrypt_array (blake3_keyed_hash HEADER_KEY sec) (zeros 12)
                 (subarray 0 621 (header_to_bytes (header next)) eq_refl)))
             (dencrypt_body sec (onion_body next)),
           secs ++ [sec]), r') ∧
    opens_as o (x01 :: array_bytes (next_fingerprint instr)) eph (this_pubkey instr).
Proof.
  intros Hnext Hlen. cbn [new length].
  assert ((10 <=? S (length rest)) = false) as -> by (apply Nat.leb_gt; lia).
  destruct (write_flag x01 (next_fingerprint instr)) as (buf & Hbuf & Hbytes).
  destruct (box_of_21 buf (this_pubkey instr) r1) as (c & o & eph & r' & Hbox & Hto & Hopen).
  rewrite Hbytes in Hopen. unfold mbind, M_bind, lift. rewrite Hnext.
  cbn -[write_at box_encrypt try_into]. rewrite Hbuf; cbn -[box_encrypt try_into].
  rewrite Hbox; cbn -[try_into]. rewrite Hto; cbn. by exists o, eph, r'.
Qed.

(** The instruction of each hop carries the public key of its secret. *)
Definition instructs (hops : list (OnionSecret * Fingerprint)) : list ForwardInstruction :=
  (λ h, mkForwardInstruction (OnionSecret_public h.1) h.2) <$> hops.

(** Whatever the keys in the route, construction succeeds when there are at
    most nine hops and the payload fits. *)
Lemma new_total route dest payload md isk r sealed :
  length route < 10 →
  encode payload isk = Ok sealed →
  ∃ pkt secs r', new route dest payload md isk r = (Ok (pkt, secs), r').
Proof.
  revert r. induction route as [|instr rest IH]; intros r Hlen Henc; cbn [length] in Hlen.
  - destruct (new_dest_ok dest payload md isk r sealed Henc) as (? & ? & ? & ? & -> & _). eauto.
  - destruct (IH r) as (next & secs & r1 & Hnext); [lia|done|].
    destruct (new_hop_ok instr _ _ _ _ _ _ _ _ _ Hnext) as (? & ? & ? & -> & _); [lia|]. eauto.
Qed.

(** Construction meets the specification of headers, and wraps the body once
    per layer. *)
Lemma new_layers hops dsk payload md isk r sealed :
  length hops < 10 →
  encode payload isk = Ok sealed →
  ∃ pkt secs r',
    new (instructs hops) (OnionSecret_public dsk) payload md isk r =
      (Ok (pkt, reverse secs), r') ∧
    layers dsk md hops secs (header pkt) ∧
    onion_body pkt = foldr dencrypt_body sealed secs.
Proof.
  revert r. induction hops as [|[sk fp] hops IH]; intros r Hlen Henc; cbn [length] in Hlen.
  - destruct (new_dest_ok (OnionSecret_public dsk) payload md isk r sealed Henc)
      as (o & i & eph & r' & Hnew & Hopen).
    destruct (Hopen dsk eq_refl) as [Hbox Hsec]. rewrite <-Hsec in Hnew.
    exists (mkRawPacket (mkRawHeader o i)
              (dencrypt_body (shared_secret dsk (OnionSecret_public eph)) sealed)),
      [shared_secret dsk (OnionSecret_public eph)], r'.
    split; [exact Hnew|]. split; [|done]. by eapply layers_dest.
  - destruct (IH r) as (next & secs & r1 & Hnext & Hlay & Hbody); [lia|done|].
    destruct (new_hop_ok (mkForwardInstruction (OnionSecret_public sk) fp)
      _ _ _ _ _ _ _ _ _ Hnext) as (o & eph & r' & Hnew & Hopen).
    { unfold instructs. rewrite length_fmap. lia. }
    cbn [this_pubkey next_fingerprint] in *.
    destruct (Hopen sk eq_refl) as [Hbox Hsec]. cbn zeta in Hnew. rewrite <-Hsec in Hnew.
    exists (mkRawPacket (mkRawHeader o
               (stream_dencrypt_array (blake3_keyed_hash HEADER_KEY
                  (shared_secret sk (OnionSecret_public eph))) (zeros 12)
                 (subarray 0 621 (header_to_bytes (header next)) eq_refl)))
               (dencrypt_body (shared_secret sk (OnionSecret_public eph)) (onion_body next))),
      (shared_secret sk (OnionSecret_public eph) :: secs), r'.
    split; [by rewrite reverse_cons|]. split; [|by cbn; rewrite Hbody].
    eapply layers_hop; [exact Hbox| |exact Hlay].
    unfold stream_dencrypt_array, array_map; cbn [header inner array_bytes].
    rewrite stream_dencrypt_involutive. unfold subarray, prefix_agree; cbn [array_bytes].
    change (N.to_nat 0) with 0. rewrite drop_0, take_take. f_equal. lia.
Qed.

(** * Peeling a whole route *)

(** The relays of a route, in order, each peel one layer; the result is the
    list of forwarding targets and the packet that reaches the destination. *)
Fixpoint peel_along (sks : list OnionSecret) (pkt : RawPacket)
    : outcome PacketPeelError (list Fingerprint * RawPacket) :=
  match sks with
  | [] => Ok ([], pkt)
  | sk :: sks =>
      peeled ← peel pkt sk;
      match peeled with
      | Forward to pkt' => '(tos, last) ← peel_along sks pkt'; Ok (to :: tos, last)
      | _ => Err InnerPacketOpenError
      end
  end.

Lemma peel_along_layers dsk md hops secs h b :
  layers dsk md hops secs h →
  length hops < 10 →
  ∃ h' sec secs', secs = secs' ++ [sec] ∧ layers dsk md [] [sec] h' ∧
    peel_along (hops.*1) (mkRawPacket h b) =
      Ok (hops.*2, mkRawPacket h' (foldl (λ b s, dencrypt_body s b) b secs')).
Proof.
  revert secs h b. induction hops as [|[sk fp] hops IH]; intros secs h b Hl Hlen.
  - inversion Hl as [? epk Hbox|]; subst. exists h, (shared_secret dsk epk), [].
    split_and!; [done|done|done].
  - inversion Hl as [|? ? ? secs0 ? h0 epk Hbox Hag Hl0 Heq Hsecs]; subst. cbn [length] in Hlen.
    destruct (peel_hop _ _ _ _ _ _ _ _ b Hl) as (h' & Hpeel & Hl'); [lia|].
    destruct (IH secs0 h' (dencrypt_body (shared_secret sk epk) b) Hl')
      as (hd & sec & secs' & -> & Hd & Hrest); [lia|].
    exists hd, sec, (shared_secret sk epk :: secs'). split_and!; [done|done|].
    cbn [fmap list_fmap fst snd peel_along]. rewrite Hpeel.
    cbn [mbind outcome_bind]. by rewrite Hrest.
Qed.

Lemma dencrypt_body_involutive sec b : dencrypt_body sec (dencrypt_body sec b) = b.
Proof. apply array_eq, stream_dencrypt_involutive. Qed.

Lemma unwrap_body sealed secs :
  foldl (λ b s, dencrypt_body s b) (foldr dencrypt_body sealed secs) secs = sealed.
Proof.
  revert sealed. induction secs as [|s secs IH]; intros sealed; [done|].
  cbn. by rewrite dencrypt_body_involutive, IH.
Qed.

Lemma garble_degarble b secs :
  foldl (λ b s, dencrypt_body s b) (foldl (λ b s, dencrypt_body s b) b secs) (reverse secs) = b.
Proof.
  revert b. induction secs as [|s secs IH]; intros b; [done|].
  rewrite reverse_cons, foldl_app. cbn. by rewrite IH, dencrypt_body_involutive.
Qed.

Lemma decode_encode_ok `{!BincodeLaws InnerPacket} p isk raw :
  encode p isk = Ok raw → decode raw = Ok (p, fingerprint (public isk)).
Proof.
  intros H. pose proof (encode_layout p isk) as Hl.
  destruct (_ <=? _)%N; [|congruence].
  destruct Hl as (raw' & H' & Hfp & Hser). rewrite H in H'. injection H' as <-.
  unfold decode. rewrite Hser, bincode_deserialize_serialize. cbn. do 2 f_equal.
  apply array_eq. unfold subarray; cbn [array_bytes]. exact Hfp.
Qed.

Definition fits (p : InnerPacket) : Prop :=
  (N.of_nat (length (bincode_serialize p)) <= payload_room)%N.

#[export] Instance fits_dec p : Decision (fits p).
Proof. unfold fits. apply _. Defined.

Lemma encode_fits p isk : fits p → ∃ sealed, encode p isk = Ok sealed.
Proof.
  intros H. pose proof (encode_layout p isk) as Hl. apply N.leb_le in H. rewrite H in Hl.
  destruct Hl as (raw & ? & _). eauto.
Qed.

Lemma encode_too_big p isk : ¬ fits p → encode p isk = Err EncodeBadPackaging.
Proof.
  intros H. pose proof (encode_layout p isk) as Hl. destruct (_ <=? _)%N eqn:E; [|done].
  apply N.leb_le in E. done.
Qed.

Lemma new_too_big route dest payload md isk r :
  length route < 10 → ¬ fits payload →
  new route dest payload md isk r = (Err MessageTooBig, r).
Proof.
  intros Hlen Hbig. induction route as [|instr rest IH]; cbn [length] in Hlen.
  - cbn [new length]. change (10 <=? 0) with false; cbn iota. by rewrite encode_too_big.
  - cbn [new length]. assert ((10 <=? S (length rest)) = false) as -> by (apply Nat.leb_gt; lia).
    unfold mbind, M_bind. by rewrite IH by lia.
Qed.

Lemma new_secrets route dest payload md isk r pkt secs r' :
  new route dest payload md isk r = (Ok (pkt, secs), r') → length secs = S (length route).
Proof.
  revert pkt secs r'. induction route as [|instr rest IH]; intros pkt secs r'; cbn [new];
    (destruct (10 <=? _); [done|]); intros H.
  - m_inv H. by injection H as <- <- <-.
  - m_inv H. injection H as <- <- <-. rewrite length_app, (IH _ _ _ Hm). cbn. lia.
Qed.

Lemma new_too_many route dest payload md isk r :
  10 ≤ length route → new route dest payload md isk r = (Err TooManyHops, r).
Proof.
  intros H. apply Nat.leb_le in H. destruct route; [done|]. cbn [new]. by rewrite H.
Qed.

(** Construction always returns. *)
Lemma new_returns route dest payload md isk r :
  returns (new route dest payload md isk r).1.
Proof.
  destruct (decide (10 ≤ length route)); [by rewrite new_too_many|].
  destruct (decide (fits payload)) as [Hf|Hf]; [|by rewrite new_too_big by (done || lia)].
  destruct (encode_fits payload isk Hf) as [sealed Henc].
  destruct (new_total route dest payload md isk r sealed) as (? & ? & ? & ->); [lia|done|done].
Qed.

Lemma new_normal_returns route dest payload isk r :
  returns (new_normal route dest payload isk r).1.
Proof.
  unfold new_normal, mbind, M_bind. pose proof (new_returns route dest payload (zeros 20) isk r).
  by destruct (new route dest payload (zeros 20) isk r) as [[[]| | |] ?].
Qed.

(** The metadata of a reply block. *)
Lemma reply_metadata_ok {E} id :
  ∃ md, reply_metadata (E:=E) id = Ok md ∧
    array_bytes md = be_bytes 8 id ++ replicate 12 x00.
Proof.
  unfold reply_metadata. destruct (write_at_Some 0 (be_bytes 8 id) (zeros 20)) as (md & -> & Hb).
  { rewrite length_be_bytes. lia. }
  exists md. split; [done|]. rewrite Hb, length_be_bytes, zeros_bytes, drop_replicate.
  by change (N.to_nat 0) with 0; rewrite take_0.
Qed.

Lemma reply_metadata_zero (md : array 20) id :
  (id < u64_modulus)%N →
  array_bytes md = be_bytes 8 id ++ replicate 12 x00 → md = zeros 20 ↔ id = 0%N.
Proof.
  intros Hid Hmd. rewrite <-(be_bytes_eq_zeros 8 id) by exact Hid. split.
  - intros ->. apply (f_equal (take 8)) in Hmd.
    by rewrite take_app_length' in Hmd by (by rewrite length_be_bytes).
  - intros Hz. apply array_eq. by rewrite Hmd, Hz, zeros_bytes.
Qed.

Lemma reply_metadata_id {E} (md : array 20) id :
  (id < u64_modulus)%N →
  array_bytes md = be_bytes 8 id ++ replicate 12 x00 →
  ∃ a, array_ref (E:=E) md 0 8 = Ok a ∧ from_be a = id.
Proof.
  intros Hid Hmd. destruct (try_into_is_Some 8 (be_bytes 8 id)) as [a Ha].
  { by rewrite length_be_bytes. }
  apply try_into_Some in Ha. exists a. split.
  - apply array_ref_ok. rewrite Hmd, Ha. change (N.to_nat 0) with 0. rewrite drop_0.
    apply take_app_length'. by rewrite length_be_bytes.
  - rewrite Ha. by apply from_be_be_bytes.
Qed.

(** What the owner of a reply block sees, for any identifier. *)
Lemma reply_route hops dsk aosk aisk r payload isk :
  length hops < 10 →
  fits (IMessage (mkMessage 0%N 0%N [[]])) → fits payload →
  ∃ rb dg r' pkt final md sec h sealed b secs,
    ReplyBlock_new (instructs hops) (OnionSecret_public dsk) aosk aisk r =
      (Ok (rb, (fst (random_u64 r), dg)), r') ∧
    shared_secs dg = reverse (secs ++ [sec]) ∧
    new_reply rb payload isk = Ok pkt ∧
    peel_along (hops.*1) pkt = Ok (hops.*2, final) ∧
    final = mkRawPacket h b ∧ layers dsk md [] [sec] h ∧
    array_bytes md = be_bytes 8 (fst (random_u64 r)) ++ replicate 12 x00 ∧
    encode payload isk = Ok sealed ∧
    b = foldl (λ b s, dencrypt_body s b) sealed secs.
Proof.
  intros Hlen Hdummy Hfits. destruct (encode_fits payload isk Hfits) as [sealed Henc].
  destruct (encode_fits _ aisk Hdummy) as [dummy Hd].
  destruct (random_u64 r) as [id r1] eqn:Er. cbn [fst].
  destruct (reply_metadata_ok (E:=PacketConstructError) id) as (md & Hmd & Hb).
  destruct (new_layers hops dsk _ md aisk r1 dummy Hlen Hd) as (raw & secs0 & r' & Hnew & Hlay & _).
  destruct (peel_along_layers _ _ _ _ _ sealed Hlay Hlen) as (h & sec & secs & -> & Hdest & Halong).
  eexists (mkReplyBlock (header raw) (OnionSecret_public aosk)),
    (mkReplyDegarbler (reverse (secs ++ [sec])) aosk aisk), r',
    (mkRawPacket (header raw) sealed), _, md, sec, h, sealed, _, secs.
  split_and!; [|done| |exact Halong|done|done|done|done|done].
  - unfold ReplyBlock_new, sample, lift, mbind, M_bind. rewrite Er, Hmd, Hnew. done.
  - unfold new_reply. by rewrite Henc.
Qed.

Lemma ReplyBlock_new_returns route opk aosk aisk r :
  returns (ReplyBlock_new route opk aosk aisk r).1.
Proof.
  unfold ReplyBlock_new, mbind, M_bind, sample, lift. destruct (random_u64 r) as [id r1].
  destruct (reply_metadata_ok (E:=PacketConstructError) id) as (md & -> & _).
  pose proof (new_returns route opk (IMessage (mkMessage 0%N 0%N [[]])) md aisk r1).
  by destruct (new _ _ _ _ _ _) as [[[]| | |] ?].
Qed.

Lemma decode_returns raw : returns (decode raw).
Proof. apply returns_bind; [apply returns_ok_or|done]. Qed.

Lemma new_reply_returns rb payload isk : returns (new_reply rb payload isk).
Proof.
  unfold new_reply. destruct (decide (fits payload)) as [Hf|Hf].
  - by destruct (encode_fits payload isk Hf) as [sealed ->].
  - by rewrite encode_too_big.
Qed.

Lemma peel_returns pkt sk : returns (peel pkt sk).
Proof.
  unfold peel. apply returns_bind; [apply returns_map_err, box_decrypt_returns|].
  intros [md pk] Hbox. destruct (box_decrypt _ sk) as [[md' pk']| | |] eqn:E; try done.
  injection Hbox as -> ->. apply box_decrypt_length in E. rewrite array_length in E.
  assert (length md = 21) as Hmd by lia. rewrite Hmd; cbn -[write_at].
  destruct (write_header_zeros (inner (header pkt))) as (buf & -> & _). cbn.
  destruct md as [|flag md]; [done|]. cbn. cbn in Hmd.
  assert (∀ n, (n <= 20)%N → returns (E:=PacketPeelError) (array_ref (flag :: md) 1 n)) as Hsub.
  { intros n Hn. apply returns_unwrap, try_into_is_Some. rewrite length_take, length_drop. cbn. lia. }
  case_decide; [by apply returns_bind; [apply Hsub|]|]. case_decide; [|done].
  apply returns_bind; [by apply Hsub|]. intros a _.
  case_decide; [|by apply returns_bind; [apply Hsub|]].
  apply returns_bind; [|by intros [] _]. apply returns_map_err.
  by apply returns_bind; [apply returns_ok_or|].
Qed.

(** A packet along its whole route. *)
Lemma onion_route `{!BincodeLaws InnerPacket} hops dsk payload isk r :
  length hops < 10 → fits payload →
  ∃ pkt r' final,
    new_normal (instructs hops) (OnionSecret_public dsk) payload isk r = (Ok pkt, r') ∧
    peel_along (hops.*1) pkt = Ok (hops.*2, final) ∧
    peel final dsk = Ok (Received (fingerprint (public isk)) payload).
Proof.
  intros Hlen Hfits. destruct (encode_fits payload isk Hfits) as [sealed Henc].
  destruct (new_layers hops dsk payload (zeros 20) isk r sealed Hlen Henc)
    as ([h b] & secs & r' & Hnew & Hlay & Hbody); cbn in Hlay, Hbody.
  destruct (peel_along_layers _ _ _ _ _ b Hlay Hlen) as (h' & sec & secs' & -> & Hd & Halong).
  eexists (mkRawPacket h b), r', _. split_and!.
  - unfold new_normal, mbind, M_bind. by rewrite Hnew.
  - exact Halong.
  - rewrite (peel_dest_prefix _ _ _ _ _ Hd), decide_True by done.
    assert (dencrypt_body sec (foldl (λ b s, dencrypt_body s b) b secs') = sealed) as ->.
    { etrans; [|apply (unwrap_body sealed (secs' ++ [sec]))]. by rewrite foldl_snoc, Hbody. }
    by rewrite (decode_encode_ok _ _ _ Henc).
Qed.

(** A reply along its whole route, for an identifier other than zero. *)
Lemma reply_comes_back `{!BincodeLaws InnerPacket} hops dsk aosk aisk r payload isk :
  length hops < 10 →
  fits (IMessage (mkMessage 0%N 0%N [[]])) → fits payload →
  fst (random_u64 r) ≠ 0%N →
  ∃ rb id dg r' pkt final garbled,
    ReplyBlock_new (instructs hops) (OnionSecret_public dsk) aosk aisk r = (Ok (rb, (id, dg)), r') ∧
    id = fst (random_u64 r) ∧
    new_reply rb payload isk = Ok pkt ∧
    peel_along (hops.*1) pkt = Ok (hops.*2, final) ∧
    peel final dsk = Ok (GarbledReply id garbled) ∧
    degarble dg garbled = Ok (payload, fingerprint (public isk)).
Proof.
  intros Hlen Hdummy Hfits Hid.
  destruct (reply_route hops dsk aosk aisk r payload isk Hlen Hdummy Hfits)
    as (rb & dg & r' & pkt & final & md & sec & h & sealed & b & secs
        & Hnew & Hdg & Hrep & Halong & -> & Hlay & Hmd & Henc & ->).
  pose proof (random_u64_range r) as Hrange.
  destruct (reply_metadata_id (E:=PacketPeelError) md _ Hrange Hmd) as (ida & Hida & Heq).
  do 7 eexists. split_and!; [exact Hnew|done|exact Hrep|exact Halong| |].
  - rewrite (peel_dest_prefix _ _ _ _ _ Hlay), decide_False.
    + rewrite Hida. cbn. by rewrite Heq.
    + by rewrite (reply_metadata_zero md _ Hrange Hmd).
  - unfold degarble. rewrite Hdg.
    replace (dencrypt_body sec (foldl (λ b s, dencrypt_body s b) sealed secs))
      with (foldl (λ b s, dencrypt_body s b) sealed (secs ++ [sec])) by (by rewrite foldl_snoc).
    rewrite garble_degarble. by apply decode_encode_ok.
Qed.

End OnionRouting.

(** * Properties *)

Section Properties.
  Context {P : Primitives} {L : PrimitivesLaws P}
          {B : Bincode InnerPacket} {BL : BincodeLaws InnerPacket}.

(** C1: onion delivery.  For a route of at most nine hops whose instructions
    carry the hops' public keys, [RawPacket::new_normal] succeeds on every
    payload that fits; the hops, peeling in order, are told to forward to
    exactly the fingerprints of the route; and the destination peels the
    packet to the original payload with the sender's fingerprint. *)
Theorem onion_delivery hops dsk payload isk r :
  length hops < 10 → fits payload →
  ∃ pkt r' final,
    new_normal (instructs hops) (OnionSecret_public dsk) payload isk r = (Ok pkt, r') ∧
    peel_along (hops.*1) pkt = Ok (hops.*2, final) ∧
    peel final dsk = Ok (Received (fingerprint (public isk)) payload).
Proof. apply onion_route. Qed.

(** C2: reply delivery.  A reply block built for a route of at most nine hops
    with a non-zero identifier carries any payload that fits: peeled along the
    route and at the owner, the packet made by [RawPacket::new_reply] is a
    [GarbledReply] with the block's identifier, and the degarbler made with
    the block recovers the payload and the replier's fingerprint. *)
Theorem reply_delivery hops dsk aosk aisk r payload isk :
  length hops < 10 →
  fits (IMessage (mkMessage 0%N 0%N [[]])) → fits payload →
  fst (random_u64 r) ≠ 0%N →
  ∃ rb id dg r' pkt final garbled,
    ReplyBlock_new (instructs hops) (OnionSecret_public dsk) aosk aisk r = (Ok (rb, (id, dg)), r') ∧
    id = fst (random_u64 r) ∧
    new_reply rb payload isk = Ok pkt ∧
    peel_along (hops.*1) pkt = Ok (hops.*2, final) ∧
    peel final dsk = Ok (GarbledReply id garbled) ∧
    degarble dg garbled = Ok (payload, fingerprint (public isk)).
Proof. apply reply_comes_back. Qed.

(** A reply block whose random identifier happens to be zero is unusable.
    Its metadata is all zeros, which [peel] takes for an ordinary packet, so
    the owner never sees the reply as a [GarbledReply]. *)
Theorem reply_id_zero_lost hops dsk aosk aisk r payload isk :
  length hops < 10 →
  fits (IMessage (mkMessage 0%N 0%N [[]])) → fits payload →
  fst (random_u64 r) = 0%N →
  ∃ rb dg r' pkt final,
    ReplyBlock_new (instructs hops) (OnionSecret_public dsk) aosk aisk r = (Ok (rb, (0%N, dg)), r') ∧
    new_reply rb payload isk = Ok pkt ∧
    peel_along (hops.*1) pkt = Ok (hops.*2, final) ∧
    ∀ id garbled, peel final dsk ≠ Ok (GarbledReply id garbled).
Proof.
  intros Hlen Hdummy Hfits Hid.
  destruct (reply_route hops dsk aosk aisk r payload isk Hlen Hdummy Hfits)
    as (rb & dg & r' & pkt & final & md & sec & h & sealed & b & secs
        & Hnew & Hdg & Hrep & Halong & -> & Hlay & Hmd & Henc & ->).
  rewrite Hid in Hnew, Hmd.
  do 5 eexists. split_and!; [exact Hnew|exact Hrep|exact Halong|].
  intros id garbled. rewrite (peel_dest_prefix _ _ _ _ _ Hlay), decide_True.
  - by destruct (decode _) as [[]| | |].
  - by apply (reply_metadata_zero md 0%N).
Qed.

(** The outcome of [RawPacket::new] on every input: too many hops, payload
    too big, or a packet with one shared secret per layer; never a panic. *)
Theorem new_outcome route dest payload md isk r :
  if 10 <=? length route then new route dest payload md isk r = (Err TooManyHops, r)
  else if (N.of_nat (length (bincode_serialize payload)) <=? payload_room)%N then
    ∃ pkt secs r', new route dest payload md isk r = (Ok (pkt, secs), r') ∧
                   length secs = S (length route)
  else new route dest payload md isk r = (Err MessageTooBig, r).
Proof.
  destruct (10 <=? length route) eqn:Hlen; [by apply new_too_many, Nat.leb_le|].
  apply Nat.leb_gt in Hlen. destruct (_ <=? _)%N eqn:Hfit.
  - apply N.leb_le in Hfit. destruct (encode_fits payload isk Hfit) as [sealed Henc].
    destruct (new_total route dest payload md isk r sealed Hlen Henc) as (pkt & secs & r' & Hnew).
    exists pkt, secs, r'. split; [done|]. by eapply new_secrets.
  - apply N.leb_gt in Hfit. apply new_too_big; [done|]. unfold fits. lia.
Qed.

(** Peeling never panics, whatever bytes a neighbor sends: the assertion on
    the metadata length and the slices of [peel] are always in range. *)
Theorem peel_never_panics pkt sk : returns (peel pkt sk).
Proof. apply peel_returns. Qed.

(** The inner packet format round-trips: [encode] fails exactly when the
    serialization does not fit in 8172 bytes, and otherwise [decode] gives back
    the packet and the fingerprint of the encoding identity. *)
Theorem inner_roundtrip p isk :
  (encode p isk = Err EncodeBadPackaging ∧
     (payload_room < N.of_nat (length (bincode_serialize p)))%N) ∨
  ∃ raw, encode p isk = Ok raw ∧ decode raw = Ok (p, fingerprint (public isk)).
Proof.
  destruct (decide (fits p)) as [Hf|Hf].
  - right. destruct (encode_fits p isk Hf) as [raw Hraw]. eauto using decode_encode_ok.
  - left. split; [by apply encode_too_big|]. unfold fits in Hf. lia.
Qed.

End Properties.

(** * Witnesses *)

(** Three hops with secrets 5, 6 and 7, a destination with secret 11, and two
    small payloads. *)
Definition sample_fp (b : byte) : Fingerprint := array_repeat 20 b.
Definition sample_isk : IdentitySecret := array_repeat 32 x2a.
Definition sample_hops : list (OnionSecret (P:=toy) * Fingerprint) :=
  [(5%N, sample_fp x0a); (6%N, sample_fp x0b); (7%N, sample_fp x0c)].
Definition sample_payload : InnerPacket :=
  IMessage (mkMessage 42%N 200%N [bytes_of "Hello, World!"; bytes_of "again"]).

Lemma onion_delivery_witness :
  ∃ pkt r' final,
    new_normal (P:=toy) (instructs sample_hops) (OnionSecret_public (P:=toy) 11%N) sample_payload
      sample_isk 1%N = (Ok pkt, r') ∧
    peel_along (sample_hops.*1) pkt = Ok (sample_hops.*2, final) ∧
    peel final 11%N = Ok (Received (fingerprint (public sample_isk)) sample_payload).
Proof.
  apply (onion_delivery (P:=toy) sample_hops 11%N sample_payload sample_isk 1%N).
  - cbn. lia.
  - vm_compute. done.
Defined.

Lemma reply_delivery_witness :
  ∃ rb id dg r' pkt final garbled,
    ReplyBlock_new (P:=toy) (instructs sample_hops) (OnionSecret_public (P:=toy) 11%N)
      13%N sample_isk 1%N = (Ok (rb, (id, dg)), r') ∧
    id = fst (random_u64 (Primitives:=toy) 1%N) ∧
    new_reply rb sample_payload sample_isk = Ok pkt ∧
    peel_along (sample_hops.*1) pkt = Ok (sample_hops.*2, final) ∧
    peel final 11%N = Ok (GarbledReply id garbled) ∧
    degarble dg garbled = Ok (sample_payload, fingerprint (public sample_isk)).
Proof.
  apply (reply_delivery (P:=toy) sample_hops 11%N 13%N sample_isk 1%N sample_payload sample_isk).
  - cbn. lia.
  - vm_compute. done.
  - vm_compute. done.
  - vm_compute. done.
Defined.

Lemma reply_id_zero_lost_witness :
  ∃ rb dg r' pkt final,
    ReplyBlock_new (P:=toy) (instructs sample_hops) (OnionSecret_public (P:=toy) 11%N)
      13%N sample_isk 0%N = (Ok (rb, (0%N, dg)), r') ∧
    new_reply rb sample_payload sample_isk = Ok pkt ∧
    peel_along (sample_hops.*1) pkt = Ok (sample_hops.*2, final) ∧
    ∀ id garbled, peel final 11%N ≠ Ok (GarbledReply id garbled).
Proof.
  apply (reply_id_zero_lost (P:=toy) sample_hops 11%N 13%N sample_isk 0%N sample_payload sample_isk).
  - cbn. lia.
  - vm_compute. done.
  - vm_compute. done.
  - vm_compute. done.
Defined.

Lemma new_outcome_witness :
  new (P:=toy) (replicate 10 (mkForwardInstruction (zeros 32) (zeros 20))) (zeros 32)
    sample_payload (zeros 20) sample_isk 1%N = (Err TooManyHops, 1%N).
Proof.
  exact (new_outcome (P:=toy) (replicate 10 (mkForwardInstruction (zeros 32) (zeros 20)))
    (zeros 32) sample_payload (zeros 20) sample_isk 1%N).
Defined.

Lemma peel_never_panics_witness :
  returns (peel (P:=toy) (mkRawPacket (mkRawHeader (zeros 69) (zeros 621)) (zeros 8192)) 3%N).
Proof.
  exact (peel_never_panics (P:=toy)
    (mkRawPacket (mkRawHeader (zeros 69) (zeros 621)) (zeros 8192)) 3%N).
Defined.

Lemma inner_roundtrip_witness :
  ∃ raw, encode (P:=toy) sample_payload sample_isk = Ok raw ∧
         decode raw = Ok (sample_payload, fingerprint (P:=toy) (public sample_isk)).
Proof.
  destruct (inner_roundtrip (P:=toy) sample_payload sample_isk) as [[_ H]|H]; [|exact H].
  exfalso. revert H. vm_compute. discriminate.
Defined.
