(* ===== verification/ReplyStore.v ===== *)
(** The store of reply blocks: [src/daemon/reply_block_store.rs].

    Per correspondent, a bounded stack of the reply blocks it sent; the
    correspondents themselves are in an LRU cache. *)

From S2P Require Import Prelude Interfaces Crypto Packet Instances OnionRouting.

Record ReplyBlockDeque := mkReplyBlockDeque {
  deque : list ReplyBlock;
  capacity : N
}.

Definition ReplyBlockDeque_new (capacity : N) : ReplyBlockDeque := mkReplyBlockDeque [] capacity.

(** [ReplyBlockDeque::insert]: at capacity the oldest block, at the front,
    makes room. *)
Definition deque_insert (item : ReplyBlock) (self : ReplyBlockDeque) : ReplyBlockDeque :=
  let d := if (N.of_nat (length (deque self)) =? capacity self)%N then tail (deque self)
           else deque self in
  mkReplyBlockDeque (d ++ [item]) (capacity self).

(** [ReplyBlockDeque::pop], from the back. *)
Definition deque_pop (self : ReplyBlockDeque) : option ReplyBlock * ReplyBlockDeque :=
  (last (deque self), mkReplyBlockDeque (take (pred (length (deque self))) (deque self))
                        (capacity self)).

Definition DEQUE_CAPACITY : N := 1000.
Definition STORE_CAPACITY : N := 5000.

Section ReplyStore.
  Context {L : Lru}.

Record ReplyBlockStore := mkReplyBlockStore { items : lru Fingerprint ReplyBlockDeque }.

Definition ReplyBlockStore_new : ReplyBlockStore := mkReplyBlockStore (lru_new STORE_CAPACITY).

Definition store_insert (fingerprint : Fingerprint) (rb : ReplyBlock) (self : ReplyBlockStore)
    : ReplyBlockStore :=
  mkReplyBlockStore
    (lru_get_or_insert_mut fingerprint (ReplyBlockDeque_new DEQUE_CAPACITY) (deque_insert rb)
      (items self)).

Definition store_pop (fingerprint : Fingerprint) (self : ReplyBlockStore)
    : option ReplyBlock * ReplyBlockStore :=
  let '(o, items') := lru_get_mut fingerprint deque_pop (items self) in
  (match o with Some popped => popped | None => None end, mkReplyBlockStore items').

(** * Properties *)

Context {LL : LruLaws L}.

(** The blocks held for a correspondent, the oldest first. *)
Definition blocks (fp : Fingerprint) (s : ReplyBlockStore) : list ReplyBlock :=
  default [] (deque <$> assoc_get fp (lru_view (items s))).

Definition deque_wf (d : ReplyBlockDeque) : Prop :=
  capacity d = DEQUE_CAPACITY ∧ (N.of_nat (length (deque d)) <= DEQUE_CAPACITY)%N.

Record store_wf (s : ReplyBlockStore) : Prop := {
  store_cap : lru_cap (items s) = STORE_CAPACITY;
  store_nodup : NoDup (lru_view (items s)).*1;
  store_size : (N.of_nat (length (lru_view (items s))) <= STORE_CAPACITY)%N;
  store_deques fp d : (fp, d) ∈ lru_view (items s) → deque_wf d
}.

(** Adding to a stack that keeps the last 1000. *)
Definition push_bounded (l : list ReplyBlock) (rb : ReplyBlock) : list ReplyBlock :=
  (if (N.of_nat (length l) =? DEQUE_CAPACITY)%N then tail l else l) ++ [rb].

Lemma deque_insert_wf rb d : deque_wf d → deque_wf (deque_insert rb d).
Proof.
  intros [Hc Hl]. split; [done|]. cbn. rewrite Hc, length_app. cbn.
  destruct (N.of_nat (length (deque d)) =? DEQUE_CAPACITY)%N eqn:E.
  - apply N.eqb_eq in E. rewrite length_tl. unfold DEQUE_CAPACITY in *. lia.
  - apply N.eqb_neq in E. lia.
Qed.

Lemma deque_pop_wf d : deque_wf d → deque_wf (deque_pop d).2.
Proof. intros [Hc Hl]. split; [done|]. cbn. rewrite length_take. lia. Qed.

Lemma store_new_wf : store_wf ReplyBlockStore_new.
Proof.
  split; cbn; rewrite ?lru_view_new, ?lru_cap_new; [done|constructor|done|].
  intros fp d. set_solver.
Qed.

Lemma promoted_wf s k v items' :
  store_wf s → is_Some (assoc_get k (lru_view (items s))) → deque_wf v →
  lru_cap items' = lru_cap (items s) →
  lru_view items' = (k, v) :: assoc_del k (lru_view (items s)) →
  store_wf (mkReplyBlockStore items').
Proof.
  intros [Hcap Hnd Hsz Hd] [v0 Hk] Hv Hc' Hview. split; cbn; rewrite ?Hview, ?Hc'.
  - done.
  - cbn. apply list.NoDup_cons. split; [|by apply assoc_del_NoDup].
    intros ([k' v'] & -> & [Hne _]%elem_of_assoc_del)%list_elem_of_fmap. done.
  - cbn. by rewrite (length_assoc_del _ _ _ Hnd Hk).
  - intros fp d. rewrite elem_of_cons, elem_of_assoc_del.
    intros [[= -> ->]|[_ ?]]; eauto.
Qed.

Lemma store_insert_wf fp rb s : store_wf s → store_wf (store_insert fp rb s).
Proof.
  intros Hwf. pose proof (lru_view_insert fp (ReplyBlockDeque_new DEQUE_CAPACITY)
    (deque_insert rb) (items s)) as Hview.
  destruct (assoc_get fp (lru_view (items s))) as [d|] eqn:Ed.
  - eapply promoted_wf; [done|by rewrite Ed| |apply lru_cap_insert|exact Hview].
    apply deque_insert_wf. apply assoc_get_Some in Ed; [|apply Hwf]. by eapply store_deques.
  - assert (deque_wf (deque_insert rb (ReplyBlockDeque_new DEQUE_CAPACITY))) as Hd.
    { apply deque_insert_wf. done. }
    destruct Hwf as [Hcap Hnd Hsz Hds]. split; cbn.
    + by rewrite lru_cap_insert.
    + rewrite Hview, fmap_take. apply list.sublist_NoDup with
        (((fp, deque_insert rb (ReplyBlockDeque_new DEQUE_CAPACITY)) :: lru_view (items s)).*1).
      * cbn. apply list.NoDup_cons. split; [by apply assoc_get_None|done].
      * apply sublist_take.
    + rewrite Hview, length_take, Hcap. lia.
    + intros k d. rewrite Hview. intros Hin. apply elem_of_take in Hin as (i & Hi & _).
      apply list_elem_of_lookup_2, elem_of_cons in Hi as [[= -> ->]|Hi]; eauto.
Qed.

Lemma store_pop_wf fp s : store_wf s → store_wf (store_pop fp s).2.
Proof.
  intros Hwf. unfold store_pop. pose proof (lru_get_mut_spec fp deque_pop (items s)) as Hs.
  destruct (lru_get_mut fp deque_pop (items s)) as [o items'].
  destruct Hs as [Hc Hs]. destruct (assoc_get fp (lru_view (items s))) as [d|] eqn:Ed.
  - destruct Hs as [-> Hview]. eapply promoted_wf; [done|by rewrite Ed| |done|exact Hview].
    apply deque_pop_wf. apply assoc_get_Some in Ed; [|apply Hwf]. by eapply store_deques.
  - destruct Hs as [-> Hview]. destruct Hwf. split; cbn; rewrite ?Hview, ?Hc; done || set_solver.
Qed.

(** ** What the operations do to the blocks of each correspondent *)

Lemma blocks_insert_same fp rb s :
  store_wf s → blocks fp (store_insert fp rb s) = push_bounded (blocks fp s) rb.
Proof.
  intros Hwf. unfold blocks. cbn. rewrite lru_view_insert.
  destruct (assoc_get fp (lru_view (items s))) as [d|] eqn:Ed.
  - rewrite assoc_get_cons, decide_True by done. cbn. unfold push_bounded.
    apply assoc_get_Some in Ed; [|apply Hwf]. by destruct (store_deques _ Hwf _ _ Ed) as [-> _].
  - rewrite (store_cap _ Hwf).
    replace (N.to_nat STORE_CAPACITY) with (S 4999) by done. cbn [take].
    by rewrite assoc_get_cons, decide_True.
Qed.

Lemma assoc_get_take {V} (k : Fingerprint) n (l : list (Fingerprint * V)) :
  assoc_get k (take n l) = assoc_get k l ∨ assoc_get k (take n l) = None.
Proof.
  revert n. induction l as [|[k' v] l IH]; intros [|n]; cbn [take]; auto.
  rewrite !assoc_get_cons. case_decide; auto.
Qed.

Lemma blocks_insert_other fp fp' rb s :
  store_wf s → fp ≠ fp' →
  blocks fp' (store_insert fp rb s) = blocks fp' s ∨ blocks fp' (store_insert fp rb s) = [].
Proof.
  intros Hwf Hne. unfold blocks. cbn. rewrite lru_view_insert.
  destruct (assoc_get fp (lru_view (items s))) as [d|] eqn:Ed.
  - left. by rewrite assoc_get_cons, assoc_get_del, !decide_False.
  - destruct (assoc_get_take fp' (N.to_nat (lru_cap (items s)))
      ((fp, deque_insert rb (ReplyBlockDeque_new DEQUE_CAPACITY)) :: lru_view (items s))) as [->| ->].
    + left. by rewrite assoc_get_cons, decide_False.
    + by right.
Qed.

Lemma store_pop_spec fp s :
  store_wf s →
  (store_pop fp s).1 = last (blocks fp s) ∧
  blocks fp (store_pop fp s).2 = take (pred (length (blocks fp s))) (blocks fp s) ∧
  ∀ fp', fp' ≠ fp → blocks fp' (store_pop fp s).2 = blocks fp' s.
Proof.
  intros Hwf. unfold store_pop, blocks.
  pose proof (lru_get_mut_spec fp deque_pop (items s)) as Hs.
  destruct (lru_get_mut fp deque_pop (items s)) as [o items'].
  destruct Hs as [Hc Hs]. cbn [items fst snd].
  destruct (assoc_get fp (lru_view (items s))) as [d|] eqn:Ed;
    destruct Hs as [-> ->].
  - split_and!; [done| |].
    + by rewrite assoc_get_cons, decide_True.
    + intros fp' Hne. rewrite assoc_get_cons, assoc_get_del, !decide_False by congruence. done.
  - rewrite Ed. done.
Qed.

(** ** Sequences of operations *)

Inductive store_op :=
  | StoreInsert (fp : Fingerprint) (rb : ReplyBlock)
  | StorePop (fp : Fingerprint).

(** Runs the operations and lists what the pops returned. *)
Fixpoint run_store (ops : list store_op) (s : ReplyBlockStore)
    : list (Fingerprint * ReplyBlock) * ReplyBlockStore :=
  match ops with
  | [] => ([], s)
  | StoreInsert fp rb :: ops => run_store ops (store_insert fp rb s)
  | StorePop fp :: ops =>
      let '(o, s1) := store_pop fp s in
      let '(popped, s2) := run_store ops s1 in
      (match o with Some rb => (fp, rb) :: popped | None => popped end, s2)
  end.

(** The blocks among [l] that belong to [fp]. *)
Definition for_fp (fp : Fingerprint) (l : list (Fingerprint * ReplyBlock)) : list ReplyBlock :=
  (filter (λ p, p.1 = fp) l).*2.

Definition inserted (ops : list store_op) : list (Fingerprint * ReplyBlock) :=
  omap (λ op, match op with StoreInsert fp rb => Some (fp, rb) | StorePop _ => None end) ops.

Lemma for_fp_cons fp k rb l :
  for_fp fp ((k, rb) :: l) = if decide (k = fp) then rb :: for_fp fp l else for_fp fp l.
Proof. unfold for_fp. rewrite filter_cons. cbn. by case_decide. Qed.

Lemma push_bounded_submseteq l rb : push_bounded l rb ⊆+ rb :: l.
Proof.
  unfold push_bounded. rewrite <-Permutation_cons_append.
  apply submseteq_skip. destruct (_ =? _)%N; [|done].
  destruct l; [done|]. cbn. by apply submseteq_cons.
Qed.

Lemma last_take_perm {A} (l : list A) x :
  last l = Some x → x :: take (pred (length l)) l ≡ₚ l.
Proof.
  intros (l' & ->)%last_Some. rewrite length_app. cbn.
  replace (pred (length l' + 1)) with (length l') by lia.
  rewrite take_app_length. apply Permutation_cons_append.
Qed.

Lemma run_store_wf ops s : store_wf s → store_wf (run_store ops s).2.
Proof.
  revert s. induction ops as [|[fp rb|fp] ops IH]; intros s Hwf; cbn [run_store].
  - done.
  - by apply IH, store_insert_wf.
  - pose proof (store_pop_wf fp s Hwf) as Hwf'. destruct (store_pop fp s) as [o s1].
    specialize (IH s1 Hwf'). by destruct (run_store ops s1).
Qed.

Lemma run_store_conserves ops s fp :
  store_wf s →
  for_fp fp (run_store ops s).1 ++ blocks fp (run_store ops s).2 ⊆+
  for_fp fp (inserted ops) ++ blocks fp s.
Proof.
  revert s. induction ops as [|[k rb|k] ops IH]; intros s Hwf; cbn [run_store].
  - done.
  - etransitivity; [apply IH, store_insert_wf, Hwf|].
    change (inserted (StoreInsert k rb :: ops)) with ((k, rb) :: inserted ops).
    rewrite for_fp_cons. case_decide as E; [subst k|].
    + rewrite blocks_insert_same by done. cbn [app].
      rewrite Permutation_middle. apply submseteq_app; [done|]. apply push_bounded_submseteq.
    + apply submseteq_app; [done|].
      destruct (blocks_insert_other k fp rb s Hwf E) as [->| ->]; [done|]. apply submseteq_nil_l.
  - change (inserted (StorePop k :: ops)) with (inserted ops).
    destruct (store_pop_spec k s Hwf) as (Ho & Hb & Hother).
    pose proof (store_pop_wf k s Hwf) as Hwf'.
    destruct (store_pop k s) as [o s1]. cbn [fst snd] in *. specialize (IH s1 Hwf').
    destruct (run_store ops s1) as [popped s2]. cbn [fst snd] in *.
    destruct (decide (k = fp)) as [->|Hne].
    + destruct o as [rb|].
      * rewrite for_fp_cons, decide_True by done. cbn [app].
        rewrite <-(last_take_perm _ _ (eq_sym Ho)), <-Hb, <-Permutation_middle.
        by apply submseteq_skip.
      * symmetry in Ho. apply last_None in Ho. rewrite Ho in Hb. rewrite Ho.
        cbn in Hb. by rewrite Hb in IH.
    + rewrite Hother in IH by congruence.
      destruct o; [|done]. by rewrite for_fp_cons, decide_False.
Qed.

(** C26: reply blocks are single-use and never cross correspondents: over any
    sequence of insertions and pops, the blocks popped for a fingerprint,
    together with those still held for it, are among the blocks inserted for
    that fingerprint, counted with multiplicity. *)
Theorem reply_blocks_single_use ops fp :
  for_fp fp (run_store ops ReplyBlockStore_new).1 ++
    blocks fp (run_store ops ReplyBlockStore_new).2 ⊆+ for_fp fp (inserted ops).
Proof.
  pose proof (run_store_conserves ops ReplyBlockStore_new fp store_new_wf) as H.
  unfold blocks at 2 in H. cbn in H. rewrite lru_view_new in H. cbn in H.
  by rewrite app_nil_r in H.
Qed.

(** The store is bounded and last-in first-out: after any operations it holds
    at most 5000 correspondents with at most 1000 blocks each, a block just
    inserted is the next one popped, and popping leaves the older ones. *)
Theorem reply_store_bounded_lifo ops fp rb :
  let s := (run_store ops ReplyBlockStore_new).2 in
  (N.of_nat (length (lru_view (items s))) <= 5000)%N ∧
  (N.of_nat (length (blocks fp s)) <= 1000)%N ∧
  (store_pop fp (store_insert fp rb s)).1 = Some rb ∧
  ∃ dropped, blocks fp s = dropped ++ blocks fp (store_pop fp (store_insert fp rb s)).2 ∧
    length dropped ≤ 1.
Proof.
  intros s. pose proof (run_store_wf ops _ store_new_wf) as Hwf. fold s in Hwf.
  destruct (store_pop_spec fp _ (store_insert_wf fp rb s Hwf)) as (Ho & Hb & _).
  rewrite blocks_insert_same in Ho, Hb by done. unfold push_bounded in Ho, Hb.
  rewrite last_snoc in Ho.
  rewrite length_app, Nat.add_1_r, Nat.pred_succ, take_app_length in Hb. split_and!.
  - apply Hwf.
  - unfold blocks. destruct (assoc_get fp _) as [d|] eqn:Ed; cbn; [|done].
    apply assoc_get_Some in Ed; [|apply Hwf]. by destruct (store_deques _ Hwf _ _ Ed).
  - exact Ho.
  - rewrite Hb. destruct (_ =? _)%N; [|exists []; split; [done|cbn; lia]].
    destruct (blocks fp s) as [|b l]; [exists []|exists [b]]; (split; [done|cbn; lia]).
Qed.

End ReplyStore.

(** * Witnesses *)

Definition sample_rb (b : byte) : ReplyBlock :=
  mkReplyBlock (mkRawHeader (array_repeat 69 b) (zeros 621)) (zeros 32).

Definition sample_store_ops : list store_op :=
  [StoreInsert (sample_fp x01) (sample_rb x01); StoreInsert (sample_fp x02) (sample_rb x02);
   StorePop (sample_fp x01); StorePop (sample_fp x01)].

Lemma reply_blocks_single_use_witness :
  (run_store sample_store_ops ReplyBlockStore_new).1 = [(sample_fp x01, sample_rb x01)] ∧
  for_fp (sample_fp x01) (run_store sample_store_ops ReplyBlockStore_new).1 ++
    blocks (sample_fp x01) (run_store sample_store_ops ReplyBlockStore_new).2 ⊆+
  for_fp (sample_fp x01) (inserted sample_store_ops).
Proof.
  split; [vm_compute; reflexivity|].
  exact (reply_blocks_single_use sample_store_ops (sample_fp x01)).
Defined.

Lemma reply_store_bounded_lifo_witness :
  (store_pop (sample_fp x01)
    (store_insert (sample_fp x01) (sample_rb x07)
      (run_store sample_store_ops ReplyBlockStore_new).2)).1 = Some (sample_rb x07).
Proof.
  exact (proj1 (proj2 (proj2 (reply_store_bounded_lifo sample_store_ops (sample_fp x01)
    (sample_rb x07))))).
Defined.
