(* ===== verification/UnitTests.v ===== *)
(** The repository's own tests: the test modules of
    [libraries/earendil_packet/src/lib.rs], [crypt.rs] and [inner.rs], and of
    [src/daemon/reply_block_store.rs].

    A test is a computation that draws from a generator and panics when an
    assertion fails; each is run by the test harness on one generator state,
    and shown here to pass on every one, under the conditions that make it
    pass. *)

From Stdlib Require Import String.
From S2P Require Import Prelude Interfaces Crypto Packet Instances OnionRouting ReplyStore.
Close Scope string_scope.

(** [Result::expect]. *)
Definition expect {S E F A} (m : M S E A) : M S F A := λ s,
  match m s with
  | (Ok a, s) => (Ok a, s)
  | (Err _, s) => (Panic, s)
  | (Panic, s) => (Panic, s)
  | (OutOfFuel, s) => (OutOfFuel, s)
  end.

(** [assert_eq!]. *)
Definition assert_eq {S E A} `{EqDecision A} (a b : A) : M S E unit :=
  if decide (a = b) then mret tt else lift Panic.

Lemma assert_eq_same {S E A} `{EqDecision A} (a : A) (s : S) :
  assert_eq (E:=E) a a s = (Ok tt, s).
Proof. unfold assert_eq. by rewrite decide_True. Qed.

Lemma expect_ok {S E F A} (m : M S E A) s a s' :
  m s = (Ok a, s') → expect (F:=F) m s = (Ok a, s').
Proof. unfold expect. by intros ->. Qed.

(** * libraries/earendil_packet/src/lib.rs *)

Module PacketTests.
Section PacketTests.
  Context {P : Primitives} {B : Bincode InnerPacket}.

(** Every hop forwards to the same fingerprint. *)
Definition TEN : Fingerprint := array_repeat 20 x0a.

Fixpoint generate_forward_instructions {E} (n : nat)
    : Rand E (list (ForwardInstruction * OnionSecret)) :=
  match n with
  | O => mret []
  | S n =>
      our_sk ← OnionSecret_generate;
      rest ← generate_forward_instructions n;
      mret ((mkForwardInstruction (OnionSecret_public our_sk) TEN, our_sk) :: rest)
  end.

Definition hundred_zeros : Message := mkMessage 0%N 0%N [replicate 100 x00].

(** The loop that peels along the route. *)
Fixpoint peel_route {E} (route : list (ForwardInstruction * OnionSecret)) (pkt : RawPacket)
    : outcome E RawPacket :=
  match route with
  | [] => Ok pkt
  | (_, our_sk) :: route =>
      match peel pkt our_sk with
      | Ok (Forward _ next_packet) => peel_route route next_packet
      | _ => Panic
      end
  end.

Definition test_packet_route (route : list (ForwardInstruction * OnionSecret))
    : Rand PacketConstructError unit :=
  my_isk ← IdentitySecret_generate;
  destination_sk ← OnionSecret_generate;
  '(packet, _) ← new (route.*1) (OnionSecret_public destination_sk) (IMessage hundred_zeros)
                   (zeros 20) my_isk;
  peeled_packet ← lift (peel_route route packet);
  final_packet ← lift (match peel peeled_packet destination_sk with Ok p => Ok p | _ => Panic end);
  match final_packet with
  | Received _ (IMessage received_msg) => assert_eq received_msg hundred_zeros
  | _ => lift Panic
  end.

Definition one_hop : Rand Empty_set unit := expect (test_packet_route []).

Definition five_hops : Rand Empty_set unit :=
  route ← generate_forward_instructions 5; expect (test_packet_route route).

Definition nine_hops : Rand Empty_set unit :=
  route ← generate_forward_instructions 9; expect (test_packet_route route).

Definition expect_too_many {E A} (m : Rand PacketConstructError A) : Rand E unit := λ r,
  match m r with
  | (Err TooManyHops, r) => (Ok tt, r)
  | (_, r) => (Panic, r)
  end.

Definition ten_hops_fail : Rand Empty_set unit :=
  route ← generate_forward_instructions 10; expect_too_many (test_packet_route route).

(** The keys of the reply test, drawn before the reply block's identifier. *)
Definition reply_test_keys {E}
    : Rand E (IdentitySecret * OnionSecret * list (ForwardInstruction * OnionSecret) * OnionSecret) :=
  alice_isk ← IdentitySecret_generate;
  alice_osk ← OnionSecret_generate;
  route ← generate_forward_instructions 5;
  anon_osk ← OnionSecret_generate;
  mret (alice_isk, alice_osk, route, anon_osk).

Definition hello : Message := mkMessage 0%N 0%N [bytes_of "hello world from reply block!"].

Definition reply_block_five_hops : Rand Empty_set unit :=
  '(alice_isk, alice_osk, route, anon_osk) ← reply_test_keys;
  '(reply_block, (_, reply_degarbler)) ←
    expect (ReplyBlock_new (route.*1) (OnionSecret_public alice_osk) anon_osk alice_isk);
  packet ← expect (lift (new_reply reply_block (IMessage hello) alice_isk));
  peeled_packet ← lift (peel_route route packet);
  peeled ← expect (lift (peel peeled_packet alice_osk));
  match peeled with
  | GarbledReply _ peeled_reply =>
      '(inner_packet, _) ← expect (lift (degarble reply_degarbler peeled_reply));
      match inner_packet with
      | IMessage msg => assert_eq msg hello
      | _ => lift Panic
      end
  | _ => lift Panic
  end.

Context {L : PrimitivesLaws P} {BL : BincodeLaws InnerPacket}.

(** The instructions are those of hops that all name the same fingerprint. *)
Lemma generated {E} n r :
  ∃ hops r', generate_forward_instructions (E:=E) n r =
      (Ok ((λ h, (mkForwardInstruction (OnionSecret_public h.1) h.2, h.1)) <$> hops), r') ∧
    length hops = n ∧ Forall (λ h, h.2 = TEN) hops.
Proof.
  revert r. induction n as [|n IH]; intros r.
  { exists [], r. done. }
  cbn [generate_forward_instructions]. unfold mbind at 1, M_bind at 1, OnionSecret_generate at 1, sample.
  destruct (random_from_rng r) as [sk r1]. destruct (IH r1) as (hops & r' & Hg & Hlen & Hall).
  unfold mbind, M_bind. rewrite Hg. exists ((sk, TEN) :: hops), r'. split; [done|]. cbn.
  split; [by rewrite Hlen|by constructor].
Qed.

Lemma route_instructs (hops : list (OnionSecret * Fingerprint)) :
  ((λ h, (mkForwardInstruction (OnionSecret_public h.1) h.2, h.1)) <$> hops).*1 = instructs hops.
Proof. unfold instructs. rewrite <-list_fmap_compose. by apply list_fmap_ext; intros ? []. Qed.

Lemma peel_route_along {E} (hops : list (OnionSecret * Fingerprint)) pkt tos final :
  peel_along (hops.*1) pkt = Ok (tos, final) →
  peel_route (E:=E) ((λ h, (mkForwardInstruction (OnionSecret_public h.1) h.2, h.1)) <$> hops) pkt = Ok final.
Proof.
  revert pkt tos. induction hops as [|[sk fp] hops IH]; intros pkt tos; cbn.
  { by intros [= _ <-]. }
  destruct (peel pkt sk) as [[to pkt'|from p|id p]| | |]; try done. cbn.
  destruct (peel_along (hops.*1) pkt') as [[tos' last]| | |] eqn:He; try done. cbn.
  intros [= _ <-]. by apply (IH pkt' tos').
Qed.

Lemma test_packet_route_passes (hops : list (OnionSecret * Fingerprint)) r :
  length hops < 10 → fits (IMessage hundred_zeros) →
  ∃ r', test_packet_route
    ((λ h, (mkForwardInstruction (OnionSecret_public h.1) h.2, h.1)) <$> hops) r = (Ok tt, r').
Proof.
  intros Hlen Hfit. unfold test_packet_route, mbind, M_bind, IdentitySecret_generate,
    OnionSecret_generate, sample. destruct (fill_bytes 32 r) as [isk r1].
  destruct (random_from_rng r1) as [dsk r2]. rewrite route_instructs.
  destruct (onion_route hops dsk (IMessage hundred_zeros) isk r2 Hlen Hfit)
    as (pkt & r3 & final & Hnew & Halong & Hpeel).
  unfold new_normal, mbind, M_bind in Hnew.
  destruct (new _ _ _ _ _ _) as [[[raw secs]| | |] r4]; try done.
  injection Hnew as -> ->. unfold lift. rewrite (peel_route_along _ _ _ _ Halong), Hpeel.
  rewrite assert_eq_same. eauto.
Qed.

Lemma test_packet_route_fails (hops : list (OnionSecret * Fingerprint)) r :
  10 ≤ length hops →
  ∃ r', test_packet_route
    ((λ h, (mkForwardInstruction (OnionSecret_public h.1) h.2, h.1)) <$> hops) r = (Err TooManyHops, r').
Proof.
  intros Hlen. unfold test_packet_route, mbind, M_bind, IdentitySecret_generate,
    OnionSecret_generate, sample. destruct (fill_bytes 32 r) as [isk r1].
  destruct (random_from_rng r1) as [dsk r2]. rewrite route_instructs.
  rewrite new_too_many by (unfold instructs; by rewrite length_fmap). eauto.
Qed.

(** A test on a generated route of [n] hops. *)
Lemma hops_pass n r :
  n < 10 → fits (IMessage hundred_zeros) →
  ((route ← generate_forward_instructions n; expect (test_packet_route route)) r).1 =
    Ok (E:=Empty_set) tt.
Proof.
  intros Hn Hfit. destruct (generated (E:=Empty_set) n r) as (hops & r1 & Hg & Hlen & _).
  unfold mbind, M_bind. rewrite Hg. destruct (test_packet_route_passes hops r1) as [r2 H2]; [lia|done|].
  by rewrite (expect_ok _ _ _ _ H2).
Qed.

Lemma reply_test_passes r :
  fits (IMessage (mkMessage 0%N 0%N [[]])) → fits (IMessage hello) →
  (reply_block_five_hops r).1 =
    if decide ((random_u64 (reply_test_keys (E:=Empty_set) r).2).1 = 0%N) then Panic else Ok tt.
Proof.
  intros Hd Hh.
  assert (∃ isk osk hops aosk r1, reply_test_keys (E:=Empty_set) r =
    (Ok (isk, osk, (λ h, (mkForwardInstruction (OnionSecret_public h.1) h.2, h.1)) <$> hops, aosk), r1) ∧
    length hops = 5) as (isk & osk & hops & aosk & r1 & Hk & Hlen).
  { unfold reply_test_keys, mbind, M_bind, IdentitySecret_generate, OnionSecret_generate, sample.
    destruct (fill_bytes 32 r) as [isk ra]. destruct (random_from_rng ra) as [osk rb].
    destruct (generated (E:=Empty_set) 5 rb) as (hops & rc & Hg & Hlen & _). rewrite Hg.
    destruct (random_from_rng rc) as [aosk rd]. by exists isk, osk, hops, aosk, rd. }
  unfold reply_block_five_hops. unfold mbind at 1, M_bind at 1. rewrite Hk. cbn [snd].
  unfold mbind, M_bind. rewrite route_instructs.
  case_decide as Hid.
  - destruct (reply_id_zero_lost hops osk aosk isk r1 (IMessage hello) isk)
      as (rb & dg & r2 & pkt & final & Hnew & Hrep & Halong & Hno); [lia|done..|].
    rewrite (expect_ok _ _ _ _ Hnew). unfold expect at 1, lift at 1. rewrite Hrep.
    unfold lift at 1. rewrite (peel_route_along _ _ _ _ Halong). unfold expect at 1, lift at 1.
    destruct (peel final osk) as [[to p|from p|id p]| | |] eqn:Hp; try done.
    by destruct (Hno id p).
    all: by pose proof (peel_returns final osk) as Hr; rewrite Hp in Hr.
  - destruct (reply_comes_back hops osk aosk isk r1 (IMessage hello) isk)
      as (rb & id & dg & r2 & pkt & final & garbled & Hnew & _ & Hrep & Halong & Hpeel & Hdg);
      [lia|done..|].
    rewrite (expect_ok _ _ _ _ Hnew). unfold expect at 1, lift at 1. rewrite Hrep.
    unfold lift at 1. rewrite (peel_route_along _ _ _ _ Halong). unfold expect at 1, lift at 1.
    rewrite Hpeel. unfold expect, lift. rewrite Hdg. by rewrite assert_eq_same.
Qed.

(** The tests of the packet crate pass on every generator state, provided that
    their messages fit in a packet; the test of reply blocks passes exactly
    when the identifier it draws is not zero. *)
Theorem packet_tests_pass r :
  fits (IMessage hundred_zeros) → fits (IMessage (mkMessage 0%N 0%N [[]])) → fits (IMessage hello) →
  (one_hop r).1 = Ok tt ∧ (five_hops r).1 = Ok tt ∧ (nine_hops r).1 = Ok tt ∧
  (ten_hops_fail r).1 = Ok tt ∧
  (reply_block_five_hops r).1 =
    if decide ((random_u64 (reply_test_keys (E:=Empty_set) r).2).1 = 0%N) then Panic else Ok tt.
Proof.
  intros H1 H2 H3. split_and!.
  - destruct (test_packet_route_passes [] r) as [r' H']; [cbn; lia|done|].
    unfold one_hop. by rewrite (expect_ok _ _ _ _ H').
  - by apply (hops_pass 5); [lia|].
  - by apply (hops_pass 9); [lia|].
  - destruct (generated (E:=Empty_set) 10 r) as (hops & r1 & Hg & Hlen & _).
    unfold ten_hops_fail, mbind, M_bind. rewrite Hg. unfold expect_too_many.
    destruct (test_packet_route_fails hops r1) as [r2 ->]; [lia|done].
  - by apply reply_test_passes.
Qed.

End PacketTests.
End PacketTests.

(** * src/daemon/reply_block_store.rs *)

Module StoreTests.
Section StoreTests.
  Context {P : Primitives} {B : Bincode InnerPacket} {LR : Lru}.

Definition create_reply_block {E} : Rand E ReplyBlock :=
  route ← PacketTests.generate_forward_instructions 1;
  alice_osk ← OnionSecret_generate;
  alice_isk ← IdentitySecret_generate;
  anon_osk ← OnionSecret_generate;
  '(rb, _) ← expect (ReplyBlock_new (route.*1) (OnionSecret_public alice_osk) anon_osk alice_isk);
  mret rb.

Definition test_reply_block_deque_insert : Rand Empty_set unit :=
  let rb_deque := ReplyBlockDeque_new 3 in
  _ ← assert_eq (length (deque rb_deque)) 0;
  rb1 ← create_reply_block;
  let rb_deque := deque_insert rb1 rb_deque in
  _ ← assert_eq (length (deque rb_deque)) 1;
  rb2 ← create_reply_block;
  rb3 ← create_reply_block;
  let rb_deque := deque_insert rb3 (deque_insert rb2 rb_deque) in
  _ ← assert_eq (length (deque rb_deque)) 3;
  rb4 ← create_reply_block;
  let rb_deque := deque_insert rb4 rb_deque in
  assert_eq (length (deque rb_deque)) 3.

Definition test_reply_block_deque_pop : Rand Empty_set unit :=
  let rb_deque := ReplyBlockDeque_new 3 in
  rb ← create_reply_block;
  let '(popped, rb_deque) := deque_pop (deque_insert rb rb_deque) in
  _ ← assert_eq popped (Some rb);
  assert_eq (deque_pop rb_deque).1 None.

Definition test_reply_block_store_insert : Rand Empty_set unit :=
  let fingerprint := PacketTests.TEN in
  rb ← create_reply_block;
  let '(popped, rb_store) := store_pop fingerprint (store_insert fingerprint rb ReplyBlockStore_new) in
  _ ← assert_eq popped (Some rb);
  rb_new ← create_reply_block;
  assert_eq (store_pop fingerprint (store_insert fingerprint rb_new rb_store)).1 (Some rb_new).

Definition test_reply_block_store_pop : Rand Empty_set unit :=
  let fingerprint := PacketTests.TEN in
  rb ← create_reply_block;
  let '(popped, rb_store) := store_pop fingerprint (store_insert fingerprint rb ReplyBlockStore_new) in
  _ ← assert_eq popped (Some rb);
  assert_eq (store_pop fingerprint rb_store).1 None.

Context {L : PrimitivesLaws P} {BL : BincodeLaws InnerPacket} {LL : LruLaws LR}.

Lemma create_reply_block_ok {E} r :
  fits (IMessage (mkMessage 0%N 0%N [[]])) →
  ∃ rb r', create_reply_block (E:=E) r = (Ok rb, r').
Proof.
  intros Hd. unfold create_reply_block, mbind, M_bind, IdentitySecret_generate, OnionSecret_generate, sample.
  destruct (PacketTests.generated (E:=E) 1 r) as (hops & r1 & Hg & Hlen & _). rewrite Hg.
  destruct (random_from_rng r1) as [osk r2], (fill_bytes 32 r2) as [isk r3],
    (random_from_rng r3) as [aosk r4]. rewrite PacketTests.route_instructs.
  destruct (reply_route hops osk aosk isk r4 (IMessage (mkMessage 0%N 0%N [[]])) isk)
    as (rb & dg & r' & _ & _ & _ & _ & _ & _ & _ & _ & Hnew & _); [lia|done..|].
  rewrite (expect_ok _ _ _ _ Hnew). eauto.
Qed.

(** What a store gives back right after an insertion, when it had nothing. *)
Lemma insert_pop_empty fp rb s :
  store_wf s → blocks fp s = [] →
  let '(popped, s') := store_pop fp (store_insert fp rb s) in
  popped = Some rb ∧ store_wf s' ∧ blocks fp s' = [].
Proof.
  intros Hwf He. pose proof (store_insert_wf fp rb s Hwf) as Hwf1.
  destruct (store_pop_spec fp _ Hwf1) as (Hp & Hb & _). pose proof (store_pop_wf fp _ Hwf1) as Hwf2.
  rewrite blocks_insert_same, He in Hp, Hb by done.
  destruct (store_pop fp (store_insert fp rb s)) as [popped s']. by cbn in *.
Qed.

(** The tests of the reply block store pass on every generator state. *)
Theorem store_tests_pass r :
  fits (IMessage (mkMessage 0%N 0%N [[]])) →
  (test_reply_block_deque_insert r).1 = Ok tt ∧ (test_reply_block_deque_pop r).1 = Ok tt ∧
  (test_reply_block_store_insert r).1 = Ok tt ∧ (test_reply_block_store_pop r).1 = Ok tt.
Proof.
  intros Hd. split_and!.
  - unfold test_reply_block_deque_insert, mbind, M_bind. rewrite assert_eq_same.
    destruct (create_reply_block_ok (E:=Empty_set) r Hd) as (rb1 & r1 & ->). cbn [length deque].
    rewrite (assert_eq_same 1). destruct (create_reply_block_ok (E:=Empty_set) r1 Hd) as (rb2 & r2 & ->).
    destruct (create_reply_block_ok (E:=Empty_set) r2 Hd) as (rb3 & r3 & ->).
    rewrite (assert_eq_same 3). by destruct (create_reply_block_ok (E:=Empty_set) r3 Hd) as (rb4 & r4 & ->).
  - unfold test_reply_block_deque_pop, mbind, M_bind.
    destruct (create_reply_block_ok (E:=Empty_set) r Hd) as (rb & r1 & ->). cbn.
    rewrite !assert_eq_same. done.
  - unfold test_reply_block_store_insert, mbind, M_bind.
    destruct (create_reply_block_ok (E:=Empty_set) r Hd) as (rb & r1 & ->).
    pose proof (insert_pop_empty PacketTests.TEN rb ReplyBlockStore_new store_new_wf) as H.
    destruct (store_pop _ _) as [popped s]. destruct H as (-> & Hwf & He).
    { unfold blocks. cbn. by rewrite lru_view_new. }
    rewrite assert_eq_same. destruct (create_reply_block_ok (E:=Empty_set) r1 Hd) as (rb2 & r2 & ->).
    pose proof (insert_pop_empty PacketTests.TEN rb2 s Hwf He) as H.
    destruct (store_pop _ _) as [popped s2]. destruct H as (-> & _). by rewrite assert_eq_same.
  - unfold test_reply_block_store_pop, mbind, M_bind.
    destruct (create_reply_block_ok (E:=Empty_set) r Hd) as (rb & r1 & ->).
    pose proof (insert_pop_empty PacketTests.TEN rb ReplyBlockStore_new store_new_wf) as H.
    destruct (store_pop _ _) as [popped s]. destruct H as (-> & Hwf & He).
    { unfold blocks. cbn. by rewrite lru_view_new. }
    rewrite assert_eq_same. destruct (store_pop_spec PacketTests.TEN s Hwf) as (-> & _).
    rewrite He. by rewrite assert_eq_same.
Qed.

End StoreTests.
End StoreTests.

(** * The tests of crypt.rs and inner.rs *)

Module CryptTests.
Section CryptTests.
  Context {P : Primitives} {B : Bincode InnerPacket}.

Definition shared_secret_test : Rand Empty_set unit :=
  alice_secret_key ← OnionSecret_generate;
  bob_secret_key ← OnionSecret_generate;
  assert_eq (shared_secret alice_secret_key (OnionSecret_public bob_secret_key))
            (shared_secret bob_secret_key (OnionSecret_public alice_secret_key)).

Definition aead_encryption_decryption : Rand Empty_set unit :=
  let key := AeadKey_from_bytes (array_repeat 32 x2a) in
  let nonce := array_repeat 12 x01 in
  let message := bytes_of "Hello, world!" in
  ciphertext ← lift (seal key nonce message);
  decrypted ← expect (lift (open key nonce ciphertext));
  assert_eq message decrypted.

Definition box_encrypt_decrypt : Rand Empty_set unit :=
  let message := bytes_of "Super secret message" in
  recipient_sk ← OnionSecret_generate;
  '(encrypted_message, _) ← box_encrypt message (OnionSecret_public recipient_sk);
  '(decrypted_message, _) ← expect (lift (box_decrypt encrypted_message recipient_sk));
  assert_eq message decrypted_message.

Definition test_inner_packet_roundtrip : Rand Empty_set unit :=
  identity_secret ← IdentitySecret_generate;
  let inner_packet := IMessage (mkMessage 42%N 200%N [bytes_of "Hello, World!"]) in
  encrypted_packet ← expect (lift (encode inner_packet identity_secret));
  '(decrypted_packet, _) ← expect (lift (decode encrypted_packet));
  assert_eq inner_packet decrypted_packet.

Context {L : PrimitivesLaws P} {BL : BincodeLaws InnerPacket}.

(** The tests of the cryptography and of inner packets pass on every generator
    state. *)
Theorem crypt_tests_pass r :
  fits (IMessage (mkMessage 42%N 200%N [bytes_of "Hello, World!"])) →
  (shared_secret_test r).1 = Ok tt ∧ (aead_encryption_decryption r).1 = Ok tt ∧
  (box_encrypt_decrypt r).1 = Ok tt ∧ (test_inner_packet_roundtrip r).1 = Ok tt.
Proof.
  intros Hf. split_and!.
  - unfold shared_secret_test, mbind, M_bind, OnionSecret_generate, sample.
    destruct (random_from_rng r) as [a r1], (random_from_rng r1) as [b r2].
    unfold shared_secret, OnionSecret_public. by rewrite diffie_hellman_comm, assert_eq_same.
  - unfold aead_encryption_decryption, mbind, M_bind, seal, lift.
    destruct (aead_encrypt_total (aead_inner (AeadKey_from_bytes (array_repeat 32 x2a)))
      (array_repeat 12 x01) (bytes_of "Hello, world!")) as [c Hc]; [done|].
    rewrite Hc. cbn [unwrap]. unfold expect, open. rewrite (aead_decrypt_encrypt _ _ _ _ Hc).
    cbn [ok_or]. by rewrite assert_eq_same.
  - unfold box_encrypt_decrypt. unfold mbind at 1, M_bind at 1, OnionSecret_generate, sample.
    destruct (random_from_rng r) as [sk r1].
    destruct (box_encrypt_ok (E:=Empty_set) (bytes_of "Super secret message") (OnionSecret_public sk) r1)
      as (c & eph & r2 & Hb & _ & Hopen); [done|]. destruct (Hopen sk eq_refl) as [Ho _].
    unfold mbind, M_bind. rewrite Hb. unfold expect, lift. rewrite Ho. by rewrite assert_eq_same.
  - unfold test_inner_packet_roundtrip, mbind, M_bind, IdentitySecret_generate, sample.
    destruct (fill_bytes 32 r) as [isk r1].
    destruct (encode_fits _ isk Hf) as [raw Hraw]. unfold expect, lift. rewrite Hraw.
    rewrite (decode_encode_ok _ _ _ Hraw). by rewrite assert_eq_same.
Qed.

End CryptTests.
End CryptTests.
