(* ===== verification/NeighTable.v ===== *)
(** The table of neighbors: [src/daemon/neightable.rs], with the handle of a
    link of [src/daemon/link_connection.rs].

    The table maps fingerprints to connections that may expire, and owns the
    bounded queue of packets from all neighbors. *)

From S2P Require Import Prelude Interfaces Crypto Packet Instances OnionRouting.

(** A clone of a [LinkConnection]: the channels and the multiplex behind it are
    shared, and named by [conn_handle]. *)
Record LinkConnection := mkLinkConnection {
  conn_handle : N;
  remote_idpk : IdentityPublic
}.

#[export] Instance LinkConnection_eq_dec : EqDecision LinkConnection.
Proof. solve_decision. Defined.

Definition INCOMING_CAPACITY : N := 100.

Section NeighTable.
  Context {IM : IndexMap} {C : Chan}.

Record NeighTable := mkNeighTable {
  table : imap Fingerprint (LinkConnection * option N);
  incoming : chan RawPacket
}.

Definition NeighTable_new : NeighTable :=
  mkNeighTable im_empty (chan_bounded INCOMING_CAPACITY).

(** [let _ = send_incoming.try_send(pkt)]: a packet that does not fit is
    dropped. *)
Definition enqueue_or_drop (pkt : RawPacket) (self : NeighTable) : NeighTable :=
  match chan_try_send pkt (incoming self) with
  | Some incoming' => mkNeighTable (table self) incoming'
  | None => self
  end.

(** [recv_raw_packet]; [None] while it has to wait. *)
Definition recv_raw_packet (self : NeighTable) : option (RawPacket * NeighTable) :=
  '(pkt, incoming') ← chan_try_recv (incoming self);
  Some (pkt, mkNeighTable (table self) incoming').

Definition inject_asif_incoming (pkt : RawPacket) (self : NeighTable) : NeighTable :=
  enqueue_or_drop pkt self.

(** [insert_inner] at time [now]; the old entry's task, if any, stops with the
    entry. *)
Definition insert_inner (now : N) (fingerprint : Fingerprint) (connection : LinkConnection)
    (ttl : option N) (self : NeighTable) : NeighTable :=
  let expiry := (λ ttl, now + ttl)%N <$> ttl in
  mkNeighTable (im_insert fingerprint (connection, expiry) (table self)) (incoming self).

Definition neigh_insert (now : N) (fingerprint : Fingerprint) (connection : LinkConnection)
    (ttl : N) (self : NeighTable) : NeighTable :=
  insert_inner now fingerprint connection (Some ttl) self.

Definition insert_pinned (now : N) (fingerprint : Fingerprint) (connection : LinkConnection)
    (self : NeighTable) : NeighTable :=
  insert_inner now fingerprint connection None self.

(** One round of the task [insert_inner] spawns: a packet that arrives on a
    connection of the table joins the queue. *)
Definition task_recv (fingerprint : Fingerprint) (pkt : RawPacket) (self : NeighTable)
    : NeighTable :=
  match im_get fingerprint (table self) with
  | Some _ => enqueue_or_drop pkt self
  | None => self
  end.

Definition neigh_lookup (fingerprint : Fingerprint) (self : NeighTable) : option LinkConnection :=
  fst <$> im_get fingerprint (table self).

Definition all_neighs (self : NeighTable) : list LinkConnection :=
  (λ e : Fingerprint * (LinkConnection * option N), e.2.1) <$> im_items (table self).

Definition garbage_collect (now : N) (self : NeighTable) : NeighTable :=
  mkNeighTable
    (im_retain (λ _ e, match e.2 with
                       | Some instant => (now <? instant)%N
                       | None => true
                       end) (table self))
    (incoming self).

(** * Properties *)

Context {IML : IndexMapLaws IM} {CL : ChanLaws C}.

Definition pending (t : NeighTable) : list RawPacket := chan_view (incoming t).

Definition neigh_wf (t : NeighTable) : Prop :=
  chan_cap (incoming t) = INCOMING_CAPACITY ∧
  (N.of_nat (length (pending t)) <= INCOMING_CAPACITY)%N.

Lemma NeighTable_new_wf : neigh_wf NeighTable_new.
Proof. split; cbn; [apply chan_cap_bounded|]. unfold pending; cbn. by rewrite chan_view_bounded. Qed.

(** What enqueueing does: the packet is last, or the queue is full and
    nothing changes. *)
Lemma enqueue_spec pkt t :
  neigh_wf t →
  neigh_wf (enqueue_or_drop pkt t) ∧ table (enqueue_or_drop pkt t) = table t ∧
  pending (enqueue_or_drop pkt t) =
    if (N.of_nat (length (pending t)) <? INCOMING_CAPACITY)%N then pending t ++ [pkt] else pending t.
Proof.
  intros [Hc Hl]. unfold enqueue_or_drop. pose proof (chan_try_send_spec pkt (incoming t)) as Hs.
  unfold pending in *. destruct (chan_try_send pkt (incoming t)) as [c|].
  - destruct Hs as (Hlt & Hv & Hc'). rewrite Hc in Hlt. split_and!; [split|done|]; unfold pending; cbn.
    + congruence.
    + rewrite Hv, length_app. cbn. lia.
    + apply N.ltb_lt in Hlt as ->. done.
  - split_and!; [done..|]. rewrite Hc in Hs. apply N.ltb_ge in Hs as ->. done.
Qed.

Lemma recv_raw_packet_spec t :
  neigh_wf t →
  match pending t with
  | pkt :: rest => ∃ t', recv_raw_packet t = Some (pkt, t') ∧ neigh_wf t' ∧
      pending t' = rest ∧ table t' = table t
  | [] => recv_raw_packet t = None
  end.
Proof.
  intros [Hc Hl]. unfold recv_raw_packet. pose proof (chan_try_recv_spec (incoming t)) as Hs.
  unfold pending in *. destruct (chan_view (incoming t)) as [|pkt rest].
  - by rewrite Hs.
  - destruct Hs as (c & -> & Hv & Hc'). cbn. eexists. split; [done|].
    unfold neigh_wf, pending; cbn. rewrite Hv. split_and!; try done; [congruence|]. cbn in Hl. lia.
Qed.

Lemma neigh_lookup_insert now fp fp' conn ttl t :
  neigh_lookup fp' (insert_inner now fp conn ttl t) =
  if decide (fp = fp') then Some conn else neigh_lookup fp' t.
Proof. unfold neigh_lookup; cbn. rewrite im_get_insert. by case_decide. Qed.

(** ** Sequences of operations *)

Inductive neigh_op :=
  | NInsert (now : N) (fp : Fingerprint) (conn : LinkConnection) (ttl : option N)
  | NGarbageCollect (now : N)
  | NTaskRecv (fp : Fingerprint) (pkt : RawPacket)
  | NInject (pkt : RawPacket).

Definition neigh_apply (op : neigh_op) (t : NeighTable) : NeighTable :=
  match op with
  | NInsert now fp conn (Some ttl) => neigh_insert now fp conn ttl t
  | NInsert now fp conn None => insert_pinned now fp conn t
  | NGarbageCollect now => garbage_collect now t
  | NTaskRecv fp pkt => task_recv fp pkt t
  | NInject pkt => inject_asif_incoming pkt t
  end.

Definition neigh_run (ops : list neigh_op) : NeighTable := for_each neigh_apply ops NeighTable_new.

(** Some collection in [ops] runs at or after the expiry. *)
Definition collected (expiry : option N) (ops : list neigh_op) : Prop :=
  ∃ now e, NGarbageCollect now ∈ ops ∧ expiry = Some e ∧ (e <= now)%N.

Definition inserts (fp : Fingerprint) (op : neigh_op) : Prop :=
  match op with NInsert _ fp' _ _ => fp' = fp | _ => False end.

Lemma neigh_apply_wf op t : neigh_wf t → neigh_wf (neigh_apply op t).
Proof.
  intros Hwf. destruct op as [now fp conn [ttl|]|now|fp pkt|pkt]; cbn; try exact Hwf.
  - unfold task_recv. destruct (im_get fp (table t)); [|done]. by apply enqueue_spec.
  - by apply enqueue_spec.
Qed.

Lemma neigh_run_wf ops : neigh_wf (neigh_run ops).
Proof.
  unfold neigh_run. generalize NeighTable_new_wf. generalize NeighTable_new.
  induction ops as [|op ops IH]; intros t Hwf; [done|]. cbn. by apply IH, neigh_apply_wf.
Qed.

(** The entry of [fp] after an operation that does not insert it. *)
Lemma neigh_apply_get op t fp :
  ¬ inserts fp op →
  im_get fp (table (neigh_apply op t)) =
  match op, im_get fp (table t) with
  | NGarbageCollect now, Some (conn, Some expiry) =>
      if (now <? expiry)%N then Some (conn, Some expiry) else None
  | _, e => e
  end.
Proof.
  assert (∀ pkt t, table (enqueue_or_drop pkt t) = table t) as Hq.
  { intros pkt t'. unfold enqueue_or_drop. by destruct (chan_try_send _ _). }
  intros Hn. destruct op as [now fp' conn [ttl|]|now|fp' pkt|pkt]; cbn in *.
  1,2: by rewrite im_get_insert, decide_False.
  - rewrite im_get_retain. destruct (im_get fp (table t)) as [[conn [e|]]|]; done.
  - unfold task_recv. destruct (im_get fp' (table t)); by rewrite ?Hq.
  - unfold inject_asif_incoming. by rewrite Hq.
Qed.

(** The entry of [fp] after operations none of which inserts it. *)
Lemma neigh_run_get_None ops t fp :
  (∀ op, op ∈ ops → ¬ inserts fp op) → im_get fp (table t) = None →
  im_get fp (table (for_each neigh_apply ops t)) = None.
Proof.
  revert t. induction ops as [|op ops IH]; intros t Hn Hg; [done|]. cbn.
  apply IH; [set_solver|]. rewrite neigh_apply_get, Hg by set_solver. by destruct op.
Qed.

Lemma neigh_run_get ops t fp conn oe :
  (∀ op, op ∈ ops → ¬ inserts fp op) → im_get fp (table t) = Some (conn, oe) →
  (collected oe ops → im_get fp (table (for_each neigh_apply ops t)) = None) ∧
  (¬ collected oe ops →
   im_get fp (table (for_each neigh_apply ops t)) = Some (conn, oe)).
Proof.
  revert t. induction ops as [|op ops IH]; intros t Hn Hg; cbn.
  { split; [|done]. intros (? & ? & ? & _). set_solver. }
  assert (im_get fp (table (neigh_apply op t)) = None ∧ collected oe [op] ∨
          im_get fp (table (neigh_apply op t)) = Some (conn, oe) ∧ ¬ collected oe [op]) as Hop.
  { rewrite neigh_apply_get, Hg by set_solver. unfold collected.
    destruct op as [| now | |]; try (right; split; [done|]; intros (? & ? & ? & _); set_solver).
    destruct oe as [e|]; [|right; split; [done|]; intros (? & ? & _ & ? & _); done].
    destruct (now <? e)%N eqn:Hlt; [right|left]; (split; [done|]).
    - apply N.ltb_lt in Hlt. intros (now' & e' & [= ->]%list_elem_of_singleton & [= <-] & ?). lia.
    - apply N.ltb_ge in Hlt. exists now, e. set_solver. }
  assert (collected oe (op :: ops) ↔ collected oe [op] ∨ collected oe ops) as Hc.
  { unfold collected. setoid_rewrite elem_of_cons. set_solver. }
  destruct Hop as [[Hg' Hcol]|[Hg' Hcol]].
  - split; [intros _|tauto]. apply neigh_run_get_None; [set_solver|done].
  - destruct (IH (neigh_apply op t)) as [IH1 IH2]; [set_solver|done|]. rewrite Hc.
    split; [intros [?|?]|]; tauto.
Qed.

(** A neighbor stays until a garbage collection runs at or after its expiry,
    and a pinned neighbor stays for ever; until then the lookup returns the
    connection inserted last, expired or not. *)
Theorem neighbor_lifetime ops1 ops2 now fp conn ttl :
  (∀ op, op ∈ ops2 → ¬ inserts fp op) →
  let t := neigh_run (ops1 ++ NInsert now fp conn ttl :: ops2) in
  let expiry := (λ ttl, now + ttl)%N <$> ttl in
  (collected expiry ops2 → neigh_lookup fp t = None) ∧
  (¬ collected expiry ops2 → neigh_lookup fp t = Some conn) ∧
  (ttl = None → neigh_lookup fp t = Some conn).
Proof.
  intros Hn t expiry. subst t. unfold neigh_run. rewrite for_each_app. cbn [for_each].
  set (t0 := neigh_apply _ _).
  assert (im_get fp (table t0) = Some (conn, expiry)) as Hg.
  { destruct ttl; cbn; by rewrite im_get_insert, decide_True. }
  destruct (neigh_run_get ops2 t0 fp conn expiry Hn Hg) as [H1 H2]. unfold neigh_lookup.
  split_and!; [intros ?; by rewrite H1|intros ?; by rewrite H2|].
  intros ->. rewrite H2; [done|]. intros (? & ? & _ & ? & _). done.
Qed.

(** The queue of packets from neighbors never exceeds 100, loses only the
    packets that arrive when it is full, and is served first-in first-out. *)
Theorem incoming_queue_fifo ops pkt :
  let t := neigh_run ops in
  (N.of_nat (length (pending t)) <= 100)%N ∧
  pending (inject_asif_incoming pkt t) =
    (if (N.of_nat (length (pending t)) <? 100)%N then pending t ++ [pkt] else pending t) ∧
  match pending t with
  | first :: rest => ∃ t', recv_raw_packet t = Some (first, t') ∧ pending t' = rest
  | [] => recv_raw_packet t = None
  end.
Proof.
  intros t. pose proof (neigh_run_wf ops) as Hwf. fold t in Hwf.
  destruct (enqueue_spec pkt t Hwf) as (_ & _ & Hq). pose proof (recv_raw_packet_spec t Hwf) as Hr.
  split_and!; [apply Hwf|exact Hq|]. destruct (pending t); [done|]. naive_solver.
Qed.

End NeighTable.

(** * Witnesses *)

Definition sample_conn (h : N) : LinkConnection := mkLinkConnection h (zeros 32).
Definition sample_pkt (b : byte) : RawPacket :=
  mkRawPacket (mkRawHeader (array_repeat 69 b) (zeros 621)) (zeros 8192).

Lemma neighbor_lifetime_witness :
  neigh_lookup (sample_fp x01)
    (neigh_run ([] ++ NInsert 10 (sample_fp x01) (sample_conn 1) (Some 300%N) ::
                [NInsert 11 (sample_fp x02) (sample_conn 2) None; NGarbageCollect 310])) = None.
Proof.
  apply (neighbor_lifetime [] [NInsert 11 (sample_fp x02) (sample_conn 2) None; NGarbageCollect 310]
           10 (sample_fp x01) (sample_conn 1) (Some 300%N)).
  - intros op Hop. rewrite !elem_of_cons in Hop. destruct Hop as [->|[->|Hop]]; [|tauto|].
    + vm_compute. discriminate.
    + by apply not_elem_of_nil in Hop.
  - exists 310%N, 310%N. split; [set_solver|]. split; [reflexivity|]. reflexivity.
Defined.

Lemma incoming_queue_fifo_witness :
  pending (inject_asif_incoming (sample_pkt x02) (neigh_run [NInject (sample_pkt x01)])) =
  [sample_pkt x01; sample_pkt x02].
Proof.
  exact (proj1 (proj2 (incoming_queue_fifo [NInject (sample_pkt x01)] (sample_pkt x02)))).
Defined.
