(* ===== verification/Topology.v ===== *)
(** The relay graph: [libraries/earendil_topology/src/lib.rs].

    [RelayGraph] is translated field by field; [graph_wf] is its invariant
    (identifiers are a bijection, every stored descriptor is verified, the
    adjacency sets are exactly the signed documents), which every operation
    preserves.  [find_shortest_path] is in [ShortestPath.v]. *)

From Stdlib Require Import String.
From S2P Require Import Prelude Interfaces Crypto.
Close Scope string_scope.

(** * Descriptors *)

Record AdjacencyDescriptor := mkAdjacencyDescriptor {
  left : Fingerprint;
  right : Fingerprint;
  left_sig : list byte;
  right_sig : list byte;
  adj_timestamp : N
}.

Record IdentityDescriptor := mkIdentityDescriptor {
  is_relay : bool;
  identity_pk : IdentityPublic;
  onion_pk : OnionPublic;
  sig : list byte;
  id_timestamp : N
}.

#[export] Instance AdjacencyDescriptor_eq_dec : EqDecision AdjacencyDescriptor.
Proof. solve_decision. Defined.
#[export] Instance IdentityDescriptor_eq_dec : EqDecision IdentityDescriptor.
Proof. solve_decision. Defined.

Definition ADJACENCY_KEY : array 32 := key32 "adjacency_descriptor____________" eq_refl.
Definition IDENTITY_KEY : array 32 := key32 "identity_descriptor_____________" eq_refl.

Inductive AdjacencyError :=
  | LeftNotSmallerThanRight
  | LeftIdentityNotFound
  | RightIdentityNotFound
  | InvalidSignatures.

Section Topology.
  Context {P : Primitives} {IM : IndexMap} {HI : HashIter}.
  Context {SA : Stdcode AdjacencyDescriptor} {SI : Stdcode IdentityDescriptor}.

(** [AdjacencyDescriptor::to_sign]: the signatures are blanked first. *)
Definition adj_to_sign (self : AdjacencyDescriptor) : array 32 :=
  let this := mkAdjacencyDescriptor (left self) (right self) [] [] (adj_timestamp self) in
  blake3_keyed_hash ADJACENCY_KEY (stdcode this).

(** [IdentityDescriptor::to_sign]. *)
Definition id_to_sign (self : IdentityDescriptor) : array 32 :=
  let this := mkIdentityDescriptor (is_relay self) (identity_pk self) (onion_pk self) []
                (id_timestamp self) in
  blake3_keyed_hash IDENTITY_KEY (stdcode this).

(** [IdentityDescriptor::new] at time [now]. *)
Definition IdentityDescriptor_new (now : N) (my_identity : IdentitySecret)
    (my_onion : OnionSecret) (relay : bool) : IdentityDescriptor :=
  let descr := mkIdentityDescriptor relay (public my_identity) (OnionSecret_public my_onion)
                 [] now in
  mkIdentityDescriptor relay (public my_identity) (OnionSecret_public my_onion)
    (sign my_identity (id_to_sign descr)) now.

(** * The graph *)

Record RelayGraph := mkRelayGraph {
  unalloc_id : N;
  fp_to_id : gmap Fingerprint N;
  id_to_fp : gmap N Fingerprint;
  id_to_descriptor : gmap N IdentityDescriptor;
  adjacency : gmap N (gset N);
  documents : imap (N * N) AdjacencyDescriptor
}.

(** [RelayGraph::new]. *)
Definition graph_new : RelayGraph := mkRelayGraph 0 ∅ ∅ ∅ ∅ im_empty.

Definition graph_id (g : RelayGraph) (fp : Fingerprint) : option N := fp_to_id g !! fp.

Definition identity (g : RelayGraph) (fp : Fingerprint) : option IdentityDescriptor :=
  id ← graph_id g fp;
  id_to_descriptor g !! id.

Definition alloc_id {E} (fp : Fingerprint) : M RelayGraph E N := λ g,
  match fp_to_id g !! fp with
  | Some val => (Ok val, g)
  | None =>
      let id := unalloc_id g in
      (Ok id, mkRelayGraph (u64_succ id) (<[fp := id]> (fp_to_id g)) (<[id := fp]> (id_to_fp g))
                (id_to_descriptor g) (adjacency g) (documents g))
  end.

Definition set_descriptor (id : N) (d : IdentityDescriptor) (g : RelayGraph) : RelayGraph :=
  mkRelayGraph (unalloc_id g) (fp_to_id g) (id_to_fp g) (<[id := d]> (id_to_descriptor g))
    (adjacency g) (documents g).

Definition insert_identity (d : IdentityDescriptor) : M RelayGraph VerifyError unit :=
  _ ← lift (verify (identity_pk d) (id_to_sign d) (sig d));
  id ← alloc_id (fingerprint (identity_pk d));
  modify (set_descriptor id d).

Definition verify_adjacency (g : RelayGraph) (adj : AdjacencyDescriptor)
    : outcome AdjacencyError unit :=
  if array_ge (left adj) (right adj) then Err LeftNotSmallerThanRight
  else match identity g (left adj) with
  | None => Err LeftIdentityNotFound
  | Some l =>
      match identity g (right adj) with
      | None => Err RightIdentityNotFound
      | Some r =>
          let to_sign := adj_to_sign adj in
          let left_valid := is_ok (verify (identity_pk l) to_sign (left_sig adj)) in
          let right_valid := is_ok (verify (identity_pk r) to_sign (right_sig adj)) in
          if negb left_valid || negb right_valid then Err InvalidSignatures else Ok tt
      end
  end.

(** ** Cleanup *)

Definition ROUTE_TIMEOUT : N := 60 * 60.

(** [now - timestamp > ROUTE_TIMEOUT], with the subtraction at 64 bits. *)
Definition outdated (now ts : N) : bool := (ROUTE_TIMEOUT <? u64_sub_wrapping now ts)%N.

Definition outdated_identities (now : N) (g : RelayGraph) : gset N :=
  dom (filter (λ p : N * IdentityDescriptor, outdated now (id_timestamp p.2) = true)
         (id_to_descriptor g)).

(** The body of the loop over the outdated identities. *)
Definition remove_identity (id : N) (g : RelayGraph) : RelayGraph :=
  mkRelayGraph (unalloc_id g)
    (match id_to_fp g !! id with
     | Some fp => delete fp (fp_to_id g)
     | None => fp_to_id g
     end)
    (delete id (id_to_fp g)) (delete id (id_to_descriptor g)) (adjacency g) (documents g).

Definition outdated_documents (now : N) (dead : gset N) (g : RelayGraph) : list (N * N) :=
  (filter (λ p : (N * N) * AdjacencyDescriptor,
     p.1.1 ∈ dead ∨ p.1.2 ∈ dead ∨ outdated now (adj_timestamp p.2) = true)
    (im_items (documents g))).*1.

(** The body of the loop over the outdated documents. *)
Definition remove_document (lr : N * N) (g : RelayGraph) : RelayGraph :=
  let adj1 := alter (λ s, s ∖ {[ lr.2 ]}) lr.1 (adjacency g) in
  let adj2 := alter (λ s, s ∖ {[ lr.1 ]}) lr.2 adj1 in
  mkRelayGraph (unalloc_id g) (fp_to_id g) (id_to_fp g) (id_to_descriptor g) adj2
    (im_remove lr (documents g)).

Definition retain_nonempty (g : RelayGraph) : RelayGraph :=
  mkRelayGraph (unalloc_id g) (fp_to_id g) (id_to_fp g) (id_to_descriptor g)
    (filter (λ p : N * gset N, p.2 ≠ ∅) (adjacency g)) (documents g).

Definition cleanup (now : N) (g : RelayGraph) : RelayGraph :=
  let dead := outdated_identities now g in
  let g1 := for_each remove_identity (hash_iter dead) g in
  let g2 := for_each remove_document (outdated_documents now dead g1) g1 in
  retain_nonempty g2.

(** With overflow checks, the subtraction aborts on a timestamp in the future;
    it is evaluated for every identity, and for every document both of whose
    ends are up to date. *)
Definition cleanup_panics (now : N) (g : RelayGraph) : bool :=
  existsb (λ p, u64_sub_panics now (id_timestamp p.2)) (map_to_list (id_to_descriptor g)) ||
  existsb (λ p, bool_decide (p.1.1 ∉ outdated_identities now g) &&
                bool_decide (p.1.2 ∉ outdated_identities now g) &&
                u64_sub_panics now (adj_timestamp p.2))
    (im_items (documents g)).

Definition link (l r : N) (adj : AdjacencyDescriptor) (g : RelayGraph) : RelayGraph :=
  let add a b (m : gmap N (gset N)) := <[a := {[ b ]} ∪ default ∅ (m !! a)]> m in
  mkRelayGraph (unalloc_id g) (fp_to_id g) (id_to_fp g) (id_to_descriptor g)
    (add r l (add l r (adjacency g))) (im_insert (l, r) adj (documents g)).

Definition insert_adjacency (overflow_checks : bool) (now : N) (adj : AdjacencyDescriptor)
    : M RelayGraph AdjacencyError unit :=
  g ← get_state;
  _ ← lift (verify_adjacency g adj);
  left_id ← alloc_id (left adj);
  right_id ← alloc_id (right adj);
  _ ← modify (link left_id right_id adj);
  g' ← get_state;
  if overflow_checks && cleanup_panics now g' then lift Panic
  else put_state (cleanup now g').

(** ** Queries *)

(** The closure of [adjacencies]: indexing a map that lacks the key is a
    panic. *)
Definition neighbor_document {E} (g : RelayGraph) (fp : Fingerprint) (id neigh_id : N)
    : outcome E AdjacencyDescriptor :=
  unwrap (id_to_fp g !! neigh_id) ≫= λ neigh : Fingerprint,
  if array_lt fp neigh then unwrap (im_get (id, neigh_id) (documents g))
  else unwrap (im_get (neigh_id, id) (documents g)).

Definition adjacencies {E} (g : RelayGraph) (fp : Fingerprint)
    : option (outcome E (list AdjacencyDescriptor)) :=
  id ← graph_id g fp;
  neighs ← adjacency g !! id;
  Some (outcome_mapM (neighbor_document g fp id) (hash_iter neighs)).

Definition all_adjacencies (g : RelayGraph) : list AdjacencyDescriptor := (im_items (documents g)).*2.

Definition all_nodes (g : RelayGraph) : list Fingerprint := hash_iter (dom (fp_to_id g)).

Definition random_adjacency {E} (g : RelayGraph) : Rand E (option AdjacencyDescriptor) :=
  match im_items (documents g) with
  | [] => mret None
  | items =>
      i ← sample (gen_range (N.of_nat (length items)));
      mret (snd <$> items !! N.to_nat i)
  end.

(** * Invariant *)

(** The adjacency sets, with a missing entry read as the empty set. *)
Definition neighbors (g : RelayGraph) (a : N) : gset N := default ∅ (adjacency g !! a).

(** Both ends of a document signed it, with keys that hash to its
    fingerprints. *)
Definition doc_signed (d : AdjacencyDescriptor) : Prop :=
  ∃ pkl pkr, fingerprint pkl = left d ∧ fingerprint pkr = right d ∧
    verify pkl (adj_to_sign d) (left_sig d) = Ok tt ∧
    verify pkr (adj_to_sign d) (right_sig d) = Ok tt.

Definition desc_signed (d : IdentityDescriptor) : Prop :=
  verify (identity_pk d) (id_to_sign d) (sig d) = Ok tt.

Definition ids_wf (g : RelayGraph) : Prop :=
  ∀ fp id, fp_to_id g !! fp = Some id ↔ id_to_fp g !! id = Some fp.

Record graph_wf (g : RelayGraph) : Prop := {
  wf_ids : ids_wf g;
  wf_fresh id fp : id_to_fp g !! id = Some fp → (id < unalloc_id g)%N;
  wf_desc id d : id_to_descriptor g !! id = Some d →
    id_to_fp g !! id = Some (fingerprint (identity_pk d)) ∧ desc_signed d;
  wf_docs l r d : im_get (l, r) (documents g) = Some d →
    id_to_fp g !! l = Some (left d) ∧ id_to_fp g !! r = Some (right d) ∧
    array_lt (left d) (right d) = true ∧ doc_signed d;
  wf_adj a b : b ∈ neighbors g a ↔
    is_Some (im_get (a, b) (documents g)) ∨ is_Some (im_get (b, a) (documents g));
  wf_nonempty a s : adjacency g !! a = Some s → s ≠ ∅
}.

Context {IML : IndexMapLaws IM} {HIL : HashIterLaws HI}.

Lemma graph_new_wf : graph_wf graph_new.
Proof.
  split; cbn.
  - intros fp id. cbn. by rewrite !lookup_empty.
  - intros id fp. by rewrite lookup_empty.
  - intros id d. by rewrite lookup_empty.
  - intros l r d. by rewrite im_get_empty.
  - intros a b. rewrite !im_get_empty. unfold neighbors; cbn. rewrite lookup_empty; cbn. split; [set_solver|by intros [[]|[]]].
  - intros a s'. by rewrite lookup_empty.
Qed.

Lemma identity_wf g fp d :
  graph_wf g → identity g fp = Some d → fingerprint (identity_pk d) = fp ∧ desc_signed d.
Proof.
  intros Hwf. unfold identity, graph_id. destruct (fp_to_id g !! fp) as [id|] eqn:E; [|done].
  cbn. intros Hd. apply (wf_desc _ Hwf) in Hd as [Hfp ?]. apply (wf_ids _ Hwf) in E.
  split; [congruence|done].
Qed.

(** ** Allocation *)

Lemma alloc_id_known {E} g fp id :
  fp_to_id g !! fp = Some id → alloc_id (E:=E) fp g = (Ok id, g).
Proof. unfold alloc_id. by intros ->. Qed.

(** Allocation returns the identifier of the fingerprint and changes nothing
    else; it keeps the invariant as long as the 64-bit counter does not wrap. *)
Lemma alloc_id_spec {E} g fp :
  graph_wf g → (unalloc_id g + 1 < u64_modulus)%N →
  ∃ id g', alloc_id (E:=E) fp g = (Ok id, g') ∧ graph_wf g' ∧
    fp_to_id g' !! fp = Some id ∧
    (∀ fp' id', fp_to_id g !! fp' = Some id' → fp_to_id g' !! fp' = Some id') ∧
    id_to_descriptor g' = id_to_descriptor g ∧
    (unalloc_id g' <= unalloc_id g + 1)%N.
Proof.
  intros Hwf Hb. unfold alloc_id. destruct (fp_to_id g !! fp) as [id|] eqn:Hfp.
  { exists id, g. split_and!; try done. lia. }
  eexists _, _. split; [done|].
  assert (id_to_fp g !! unalloc_id g = None) as Hfree.
  { destruct (id_to_fp g !! unalloc_id g) eqn:E'; [|done]. apply (wf_fresh _ Hwf) in E'. lia. }
  assert (∀ i f, id_to_fp g !! i = Some f →
            <[unalloc_id g := fp]> (id_to_fp g) !! i = Some f) as Hkeep.
  { intros i f Hi. rewrite lookup_insert_ne; [done|]. congruence. }
  split; [split; cbn|].
  - intros f i. cbn. rewrite !lookup_insert. pose proof (wf_ids _ Hwf f i) as H.
    repeat case_decide; subst; naive_solver.
  - intros i f. rewrite lookup_insert, u64_succ_small by done.
    case_decide; [lia|]. intros H'%(wf_fresh _ Hwf). lia.
  - intros i d Hd. apply (wf_desc _ Hwf) in Hd as [? ?]. auto.
  - intros l r d Hd. apply (wf_docs _ Hwf) in Hd as (? & ? & ? & ?). auto.
  - apply (wf_adj _ Hwf).
  - apply (wf_nonempty _ Hwf).
  - cbn. rewrite lookup_insert_eq, u64_succ_small by done.
    split_and!; [done| |done|lia].
    intros f i Hf. rewrite lookup_insert_ne; [done|]. congruence.
Qed.

Lemma set_descriptor_wf g id d :
  graph_wf g → id_to_fp g !! id = Some (fingerprint (identity_pk d)) → desc_signed d →
  graph_wf (set_descriptor id d g).
Proof.
  intros Hwf Hid Hs. destruct Hwf as [H1 H2 H3 H4 H5 H6]. split; cbn; try done.
  intros i d'. rewrite lookup_insert. case_decide; [|apply H3].
  intros [= <-]; subst. done.
Qed.

(** ** Cleanup *)

Lemma remove_identity_ids g id : ids_wf g → ids_wf (remove_identity id g).
Proof.
  intros H fp i; cbn. rewrite lookup_delete. pose proof (H fp i) as Hi.
  destruct (id_to_fp g !! id) as [fp0|] eqn:E0.
  - rewrite lookup_delete. pose proof (proj2 (H fp0 id) E0). repeat case_decide; naive_solver.
  - case_decide; [|done]. split; [|done]. intros Hx%Hi. subst. congruence.
Qed.

Lemma for_each_remove_identity l g :
  ids_wf g →
  let g' := for_each remove_identity l g in
  ids_wf g' ∧ unalloc_id g' = unalloc_id g ∧ adjacency g' = adjacency g ∧
  documents g' = documents g ∧
  (∀ i, id_to_fp g' !! i = if decide (i ∈ l) then None else id_to_fp g !! i) ∧
  (∀ i, id_to_descriptor g' !! i = if decide (i ∈ l) then None else id_to_descriptor g !! i).
Proof.
  revert g. induction l as [|x l IH]; intros g Hids; cbn [for_each].
  { split_and!; try done; intros i; rewrite decide_False; set_solver. }
  destruct (IH (remove_identity x g) (remove_identity_ids _ _ Hids))
    as (H1 & H2 & H3 & H4 & H5 & H6).
  split_and!; try done; intros i; rewrite ?H5, ?H6; cbn; rewrite lookup_delete;
    repeat case_decide; rewrite ?elem_of_cons in *; naive_solver.
Qed.

Lemma neighbors_alter f x (m : gmap N (gset N)) a :
  default ∅ (alter f x m !! a) = (if decide (x = a) then default ∅ (f <$> m !! x)
                                  else default ∅ (m !! a)) :> gset N.
Proof. rewrite lookup_alter. case_decide; subst; done. Qed.

Lemma elem_of_neighbors_remove x y a b (m : gmap N (gset N)) :
  b ∈ default ∅ (alter (λ s, s ∖ {[ y ]}) x m !! a) ↔
  b ∈ default ∅ (m !! a) ∧ ¬ (a = x ∧ b = y).
Proof.
  rewrite neighbors_alter. case_decide; subst; [|naive_solver].
  destruct (m !! a); cbn; set_solver.
Qed.

Lemma for_each_remove_document l g :
  let g' := for_each remove_document l g in
  unalloc_id g' = unalloc_id g ∧ fp_to_id g' = fp_to_id g ∧ id_to_fp g' = id_to_fp g ∧
  id_to_descriptor g' = id_to_descriptor g ∧
  (∀ k, im_get k (documents g') = if decide (k ∈ l) then None else im_get k (documents g)) ∧
  (∀ a b, b ∈ neighbors g' a ↔ b ∈ neighbors g a ∧ ((a, b) ∉ l) ∧ ((b, a) ∉ l)).
Proof.
  revert g. induction l as [|[x y] l IH]; intros g; cbn [for_each].
  { split_and!; try done. set_solver. }
  destruct (IH (remove_document (x, y) g)) as (H1 & H2 & H3 & H4 & H5 & H6).
  split_and!; try done.
  - intros k. rewrite H5; cbn. rewrite im_get_remove. repeat case_decide; set_solver.
  - intros a b. rewrite H6. unfold neighbors; cbn.
    rewrite !elem_of_neighbors_remove, !not_elem_of_cons. naive_solver.
Qed.

Lemma neighbors_retain g a : neighbors (retain_nonempty g) a = neighbors g a.
Proof.
  unfold neighbors; cbn. rewrite map_lookup_filter.
  destruct (adjacency g !! a) as [s|]; cbn; [|done].
  destruct (decide (s = ∅)) as [->|Hs].
  - by rewrite option_guard_False by (cbn; congruence).
  - by rewrite option_guard_True by done.
Qed.

Lemma elem_of_outdated_identities now g id :
  id ∈ outdated_identities now g ↔
  ∃ d, id_to_descriptor g !! id = Some d ∧ outdated now (id_timestamp d) = true.
Proof.
  unfold outdated_identities. rewrite elem_of_dom. unfold is_Some.
  setoid_rewrite map_lookup_filter_Some. done.
Qed.

Lemma elem_of_outdated_documents now dead g l r d :
  im_get (l, r) (documents g) = Some d →
  (l, r) ∈ outdated_documents now dead g ↔
  l ∈ dead ∨ r ∈ dead ∨ outdated now (adj_timestamp d) = true.
Proof.
  intros Hd. unfold outdated_documents. rewrite list_elem_of_fmap. split.
  - intros ([k d'] & Hk & [Hp Hi]%list_elem_of_filter). cbn in Hk. subst k.
    apply im_items_get in Hi. rewrite Hd in Hi. injection Hi as <-. done.
  - intros Hp. exists ((l, r), d). split; [done|]. apply list_elem_of_filter.
    split; [done|]. by apply im_items_get.
Qed.

Lemma outdated_documents_absent now dead g k :
  im_get k (documents g) = None → k ∉ outdated_documents now dead g.
Proof.
  intros Hn. unfold outdated_documents. rewrite list_elem_of_fmap.
  intros ([k' d'] & -> & [_ Hi]%list_elem_of_filter). apply im_items_get in Hi.
  cbn in Hn. congruence.
Qed.

(** A link has one document: the left end is the smaller fingerprint. *)
Lemma documents_one_way g l r d :
  graph_wf g → im_get (l, r) (documents g) = Some d → im_get (r, l) (documents g) = None.
Proof.
  intros Hwf Hd1. destruct (im_get (r, l) (documents g)) as [d2|] eqn:Hd2; [|done].
  apply (wf_docs _ Hwf) in Hd1 as (? & ? & Hlt1 & _).
  apply (wf_docs _ Hwf) in Hd2 as (? & ? & Hlt2 & _).
  assert (left d = right d2) as E1 by congruence.
  assert (right d = left d2) as E2 by congruence.
  rewrite E1, E2 in Hlt1. apply array_lt_asym in Hlt1. congruence.
Qed.

(** What cleanup leaves: identities that are up to date, and documents that
    are and that join identities that are. *)
Lemma cleanup_spec now g :
  ids_wf g →
  let dead := outdated_identities now g in
  let g' := cleanup now g in
  ids_wf g' ∧ unalloc_id g' = unalloc_id g ∧
  (∀ i, id_to_fp g' !! i = if decide (i ∈ dead) then None else id_to_fp g !! i) ∧
  (∀ i, id_to_descriptor g' !! i =
          if decide (i ∈ dead) then None else id_to_descriptor g !! i) ∧
  (∀ l r d, im_get (l, r) (documents g') = Some d ↔
     im_get (l, r) (documents g) = Some d ∧ (l ∉ dead) ∧ (r ∉ dead) ∧
     outdated now (adj_timestamp d) = false) ∧
  (∀ a b, b ∈ neighbors g' a ↔ b ∈ neighbors g a ∧
     ((a, b) ∉ outdated_documents now dead g) ∧ ((b, a) ∉ outdated_documents now dead g)) ∧
  (∀ a s, adjacency g' !! a = Some s → s ≠ ∅).
Proof.
  intros Hids dead g'.
  destruct (for_each_remove_identity (hash_iter dead) g Hids) as (H1 & H2 & H3 & H4 & H5 & H6).
  set (g1 := for_each remove_identity (hash_iter dead) g) in *.
  assert (outdated_documents now dead g1 = outdated_documents now dead g) as Hod.
  { unfold outdated_documents. by rewrite H4. }
  destruct (for_each_remove_document (outdated_documents now dead g1) g1)
    as (J1 & J2 & J3 & J4 & J5 & J6).
  set (g2 := for_each remove_document (outdated_documents now dead g1) g1) in *.
  assert (g' = retain_nonempty g2) as -> by done. cbn.
  split_and!.
  - intros fp i; cbn. rewrite J2, J3. apply H1.
  - by rewrite J1, H2.
  - intros i. rewrite J3, H5. by repeat case_decide; rewrite ?elem_of_hash_iter in *.
  - intros i. rewrite J4, H6. by repeat case_decide; rewrite ?elem_of_hash_iter in *.
  - intros l r d. rewrite J5, Hod, H4. case_decide as Hin.
    + split; [done|]. intros (Hd & ? & ? & Ht).
      apply (elem_of_outdated_documents _ _ _ _ _ _ Hd) in Hin.
      destruct Hin as [|[|]]; [done..|congruence].
    + split; [|naive_solver]. intros Hd. split; [done|].
      rewrite (elem_of_outdated_documents _ _ _ _ _ _ Hd) in Hin.
      destruct (outdated now (adj_timestamp d)); naive_solver.
  - intros a b. rewrite neighbors_retain, J6, Hod. unfold neighbors. by rewrite H3.
  - intros a s. by intros [? ?]%map_lookup_filter_Some.
Qed.

Lemma cleanup_wf now g : graph_wf g → graph_wf (cleanup now g).
Proof.
  intros Hwf. destruct (cleanup_spec now g (wf_ids _ Hwf)) as (H1 & H2 & H3 & H4 & H5 & H6 & H7).
  set (dead := outdated_identities now g) in *. split.
  - exact H1.
  - intros i fp. rewrite H3, H2. case_decide; [done|]. apply (wf_fresh _ Hwf).
  - intros i d. rewrite H4, H3. case_decide; [done|]. apply (wf_desc _ Hwf).
  - intros l r d (Hd & Hl & Hr & _)%H5. rewrite !H3, !decide_False by done.
    by apply (wf_docs _ Hwf).
  - intros a b. rewrite H6, (wf_adj _ Hwf). unfold is_Some. setoid_rewrite H5.
    assert (∀ l r d, im_get (l, r) (documents g) = Some d →
      (l, r) ∉ outdated_documents now dead g ↔
      (l ∉ dead) ∧ (r ∉ dead) ∧ outdated now (adj_timestamp d) = false) as Hout.
    { intros l r d Hd. rewrite (elem_of_outdated_documents _ _ _ _ _ _ Hd).
      destruct (outdated now (adj_timestamp d)); naive_solver. }
    split.
    + intros [[[d Hd]|[d Hd]] [Hn1 Hn2]]; [left|right]; exists d;
        (split; [done|]); eapply Hout; eauto.
    + intros [[d (Hd & Hrest)]|[d (Hd & Hrest)]].
      * split; [left; eauto|]. split; [by eapply Hout|].
        by eapply outdated_documents_absent, documents_one_way.
      * split; [right; eauto|]. split; [|by eapply Hout].
        by eapply outdated_documents_absent, documents_one_way.
  - exact H7.
Qed.

(** ** Insertion *)

Lemma elem_of_neighbors_add x y a b (m : gmap N (gset N)) :
  b ∈ default ∅ (<[x := {[ y ]} ∪ default ∅ (m !! x)]> m !! a) ↔
  b ∈ default ∅ (m !! a) ∨ (a = x ∧ b = y).
Proof. rewrite lookup_insert. case_decide; subst; cbn; set_solver. Qed.

Lemma link_wf g l r adj :
  graph_wf g → id_to_fp g !! l = Some (left adj) → id_to_fp g !! r = Some (right adj) →
  array_lt (left adj) (right adj) = true → doc_signed adj → graph_wf (link l r adj g).
Proof.
  intros Hwf Hl Hr Hlt Hs. split; cbn.
  - apply (wf_ids _ Hwf).
  - apply (wf_fresh _ Hwf).
  - apply (wf_desc _ Hwf).
  - intros l' r' d. rewrite im_get_insert. case_decide as E; [|apply (wf_docs _ Hwf)].
    injection E as <- <-. intros [= <-]. done.
  - intros a b. unfold neighbors, link; cbn. rewrite !elem_of_neighbors_add.
    pose proof (wf_adj _ Hwf a b) as Hab. unfold neighbors in Hab. rewrite Hab.
    rewrite !im_get_insert, !is_Some_alt. repeat case_decide; simplify_eq; naive_solver.
  - intros a s. rewrite !lookup_insert. repeat case_decide; [set_solver..|].
    apply (wf_nonempty _ Hwf).
Qed.

(** What a successful verification gives. *)
Lemma verify_adjacency_ok g adj :
  graph_wf g → verify_adjacency g adj = Ok tt →
  array_lt (left adj) (right adj) = true ∧ doc_signed adj ∧
  ∃ l r dl dr, fp_to_id g !! left adj = Some l ∧ fp_to_id g !! right adj = Some r ∧
    identity g (left adj) = Some dl ∧ identity g (right adj) = Some dr.
Proof.
  intros Hwf. unfold verify_adjacency, array_ge.
  destruct (array_lt (left adj) (right adj)) eqn:Hlt; cbn; [|done].
  destruct (identity g (left adj)) as [dl|] eqn:El; [|done].
  destruct (identity g (right adj)) as [dr|] eqn:Er; [|done].
  destruct (verify (identity_pk dl) _ _) as [[]| | |] eqn:Vl; cbn; try done.
  destruct (verify (identity_pk dr) _ _) as [[]| | |] eqn:Vr; cbn; try done.
  intros _. split; [done|]. split.
  - exists (identity_pk dl), (identity_pk dr).
    destruct (identity_wf _ _ _ Hwf El), (identity_wf _ _ _ Hwf Er). done.
  - unfold identity, graph_id in *.
    destruct (fp_to_id g !! left adj) as [l|]; [|done].
    destruct (fp_to_id g !! right adj) as [r|]; [|done]. exists l, r, dl, dr. done.
Qed.

Lemma verify_adjacency_returns g adj : returns (verify_adjacency g adj).
Proof. unfold verify_adjacency. repeat case_match; done. Qed.

(** [insert_adjacency]: an error leaves the graph alone; otherwise the link is
    added and the graph cleaned up (or, with overflow checks, the cleanup may
    abort the process). *)
Lemma insert_adjacency_spec oc now adj g :
  graph_wf g →
  match verify_adjacency g adj with
  | Ok _ => ∃ l r, let g' := link l r adj g in
      fp_to_id g !! left adj = Some l ∧ fp_to_id g !! right adj = Some r ∧ graph_wf g' ∧
      insert_adjacency oc now adj g =
        if oc && cleanup_panics now g' then (Panic, g') else (Ok tt, cleanup now g')
  | Err e => insert_adjacency oc now adj g = (Err e, g)
  | _ => False
  end.
Proof.
  intros Hwf. pose proof (verify_adjacency_returns g adj) as Hret.
  unfold insert_adjacency, mbind, M_bind, get_state, lift.
  destruct (verify_adjacency g adj) as [[]| | |] eqn:Hv; try done.
  destruct (verify_adjacency_ok _ _ Hwf Hv) as (Hlt & Hs & l & r & dl & dr & Hl & Hr & _).
  exists l, r. cbn zeta. split_and!; [done|done| |].
  - apply link_wf; try done; by apply (wf_ids _ Hwf).
  - rewrite (alloc_id_known _ _ _ Hl), (alloc_id_known _ _ _ Hr). unfold modify.
    by destruct (oc && _).
Qed.

Lemma insert_identity_spec g d :
  graph_wf g → (unalloc_id g + 1 < u64_modulus)%N →
  match verify (identity_pk d) (id_to_sign d) (sig d) with
  | Ok _ => ∃ g', insert_identity d g = (Ok tt, g') ∧ graph_wf g' ∧
      identity g' (fingerprint (identity_pk d)) = Some d ∧
      (∀ fp, fp ≠ fingerprint (identity_pk d) → identity g' fp = identity g fp) ∧
      (unalloc_id g' <= unalloc_id g + 1)%N
  | Err e => insert_identity d g = (Err e, g)
  | _ => False
  end.
Proof.
  intros Hwf Hb. unfold insert_identity, mbind, M_bind, lift.
  pose proof (verify_returns (identity_pk d) (id_to_sign d) (sig d)) as Hret.
  destruct (verify _ _ _) as [[]|e| |] eqn:Hv; try done.
  destruct (alloc_id_spec (E:=VerifyError) g (fingerprint (identity_pk d)) Hwf Hb)
    as (id & g' & -> & Hwf' & Hid & Hold & Hdesc & Hun).
  unfold modify. eexists. split; [done|].
  pose proof (proj1 (wf_ids _ Hwf' _ _) Hid) as Hid'. split_and!.
  - by apply set_descriptor_wf.
  - unfold identity, graph_id; cbn. rewrite Hid; cbn. by rewrite lookup_insert_eq.
  - intros fp Hne. unfold identity, graph_id; cbn. rewrite Hdesc.
    destruct (fp_to_id g !! fp) as [i|] eqn:Ei.
    + rewrite (Hold _ _ Ei); cbn. rewrite lookup_insert_ne; [done|].
      intros <-. apply Hold, (wf_ids _ Hwf') in Ei. congruence.
    + destruct (fp_to_id g' !! fp) as [i|] eqn:Ei'; cbn; [|done].
      assert (i ≠ id) as Hi. { intros ->. apply (wf_ids _ Hwf') in Ei'. congruence. }
      rewrite lookup_insert_ne by done.
      destruct (id_to_descriptor g !! i) as [d'|] eqn:Ed; [|done].
      apply (wf_desc _ Hwf) in Ed as [Ed _]. apply (wf_ids _ Hwf) in Ed.
      pose proof (Hold _ _ Ed) as Ed'. apply (wf_ids _ Hwf') in Ei', Ed'. congruence.
  - cbn. lia.
Qed.

End Topology.
