(* ===== verification/ShortestPath.v ===== *)
(** Routing: [RelayGraph::find_shortest_path], a breadth-first search.

    The search is translated with its queue, visited set and predecessor map;
    the neighbors of a node are visited in the unspecified order of a
    [HashSet].  On every graph that satisfies the invariant of [Topology.v] it
    terminates without panicking and returns a shortest path, or [None] when
    there is no path. *)

From Stdlib Require Sorting.Sorted.
From S2P Require Import Prelude Interfaces Crypto Topology Instances.

(** The local variables of the search. *)
Record bfs_state := mkBfs {
  visited : gset N;
  queue : list N;
  path : gmap N N
}.

(** The body of the loop over the neighbors of [current_id]. *)
Definition visit (current_id neighbor_id : N) (st : bfs_state) : bfs_state :=
  if decide (neighbor_id ∈ visited st) then st
  else mkBfs ({[ neighbor_id ]} ∪ visited st) (queue st ++ [neighbor_id])
         (<[neighbor_id := current_id]> (path st)).

Section ShortestPath.
  Context {P : Primitives} {IM : IndexMap} {HI : HashIter}.
  Context {SA : Stdcode AdjacencyDescriptor} {SI : Stdcode IdentityDescriptor}.
  Context {E : Type}.

(** The loop that follows the predecessors from the end to the start. *)
Fixpoint trace_back (fuel : nat) (g : RelayGraph) (path : gmap N N) (current_id : N)
    (result : list Fingerprint) : outcome E (list Fingerprint) :=
  match fuel with
  | O => OutOfFuel
  | S fuel =>
      match path !! current_id with
      | Some prev_id =>
          fp ← unwrap (id_to_fp g !! current_id);
          trace_back fuel g path prev_id (result ++ [fp])
      | None => Ok result
      end
  end.

Fixpoint bfs (fuel : nat) (g : RelayGraph) (start_id end_id : N) (st : bfs_state)
    : outcome E (option (list Fingerprint)) :=
  match fuel with
  | O => OutOfFuel
  | S fuel =>
      match queue st with
      | [] => Ok None
      | current_id :: queue' =>
          if decide (current_id = end_id) then
            result ← trace_back (size (visited st)) g (path st) current_id [];
            start_fp ← unwrap (id_to_fp g !! start_id);
            Ok (Some (reverse (result ++ [start_fp])))
          else
            match adjacency g !! current_id with
            | None => Ok None
            | Some neighs =>
                bfs fuel g start_id end_id
                  (for_each (visit current_id) (hash_iter neighs)
                    (mkBfs (visited st) queue' (path st)))
            end
      end
  end.

Definition find_shortest_path (g : RelayGraph) (start_fp end_fp : Fingerprint)
    : outcome E (option (list Fingerprint)) :=
  match graph_id g start_fp, graph_id g end_fp with
  | Some start_id, Some end_id =>
      bfs (S (size (id_to_fp g))) g start_id end_id (mkBfs {[ start_id ]} [start_id] ∅)
  | _, _ => Ok None
  end.

(** * Specification *)

(** Two fingerprints are linked when the graph holds a document that joins
    them. *)
Definition linked (g : RelayGraph) (a b : Fingerprint) : Prop :=
  ∃ k d, im_get k (documents g) = Some d ∧
    ((left d = a ∧ right d = b) ∨ (left d = b ∧ right d = a)).

Inductive fp_path (g : RelayGraph) : Fingerprint → Fingerprint → list Fingerprint → Prop :=
  | path_one a : is_Some (fp_to_id g !! a) → fp_path g a a [a]
  | path_cons a b c p : linked g a b → fp_path g b c p → fp_path g a c (a :: p).

Context {IML : IndexMapLaws IM} {HIL : HashIterLaws HI}.

Lemma linked_neighbors g a b :
  graph_wf g →
  linked g a b ↔ ∃ i j, id_to_fp g !! i = Some a ∧ id_to_fp g !! j = Some b ∧ j ∈ neighbors g i.
Proof.
  intros Hwf. split.
  - intros ([l r] & d & Hd & Hab). pose proof (wf_docs _ Hwf _ _ _ Hd) as (Hl & Hr & _).
    destruct Hab as [[<- <-]|[<- <-]].
    + exists l, r. split_and!; try done. apply (wf_adj _ Hwf). eauto.
    + exists r, l. split_and!; try done. apply (wf_adj _ Hwf). eauto.
  - intros (i & j & Hi & Hj & [[d Hd]|[d Hd]]%(wf_adj _ Hwf));
      pose proof (wf_docs _ Hwf _ _ _ Hd) as (Hl & Hr & _);
      exists (if decide (im_get (i, j) (documents g) = Some d) then (i, j) else (j, i)), d;
      (split; [case_decide; congruence|]); [left|right]; split; congruence.
Qed.

Lemma neighbors_sym g a b : graph_wf g → b ∈ neighbors g a ↔ a ∈ neighbors g b.
Proof. intros Hwf. rewrite !(wf_adj _ Hwf). tauto. Qed.

Lemma path_snoc g a b c p : graph_wf g → fp_path g a b p → linked g b c → fp_path g a c (p ++ [c]).
Proof.
  intros Hwf Hp Hl. induction Hp as [a Ha|a b' c' p Hab Hp IH]; cbn.
  - apply path_cons with c; [done|]. constructor.
    apply (linked_neighbors _ _ _ Hwf) in Hl as (i & j & _ & Hj & _).
    apply (wf_ids _ Hwf) in Hj. by eexists.
  - apply path_cons with b'; auto.
Qed.

(** ** The scan of a node's neighbors *)

(** The neighbors not seen before, in iteration order. *)
Definition unseen (V : gset N) (l : list N) : list N := filter (λ x, x ∉ V) l.

Lemma visit_all cur l st :
  NoDup l →
  let st' := for_each (visit cur) l st in
  let new := unseen (visited st) l in
  visited st' = list_to_set new ∪ visited st ∧
  queue st' = queue st ++ new ∧
  (∀ x, path st' !! x = if decide (x ∈ new) then Some cur else path st !! x).
Proof.
  revert st. induction l as [|x l IH]; intros st Hnd; cbn [for_each].
  { cbn. split_and!; [set_solver|by rewrite app_nil_r|done]. }
  apply list.NoDup_cons in Hnd as [Hx Hnd].
  destruct (IH (visit cur x st) Hnd) as (H1 & H2 & H3). unfold unseen in *.
  rewrite filter_cons. unfold visit in *. destruct (decide (x ∈ visited st)) as [Hin|Hin].
  - rewrite decide_False by tauto. done.
  - rewrite decide_True by done. cbn in H1, H2, H3.
    assert (filter (λ y, y ∉ {[x]} ∪ visited st) l = filter (λ y, y ∉ visited st) l) as Hf.
    { clear -Hx. induction l as [|y l IHl]; [done|]. rewrite !filter_cons.
      rewrite IHl by set_solver. repeat case_decide; set_solver. }
    rewrite Hf in H1, H2, H3. split_and!.
    + rewrite H1. cbn. set_solver.
    + by rewrite H2, <-app_assoc.
    + intros y. rewrite H3, lookup_insert. repeat case_decide; set_solver.
Qed.

(** ** The invariant of the search

    [D] is the distance from the start at which a node was discovered. *)

Definition sorted_by (D : N → nat) : list N → Prop :=
  Sorted.StronglySorted (λ x y, D x ≤ D y).

Record bfs_inv (g : RelayGraph) (s e : N) (st : bfs_state) (D : N → nat) : Prop := {
  inv_start : s ∈ visited st ∧ D s = 0 ∧ path st !! s = None;
  inv_tree x : x ∈ visited st → x ≠ s →
    ∃ y, path st !! x = Some y ∧ y ∈ visited st ∧ D x = S (D y) ∧ x ∈ neighbors g y;
  inv_queue x : x ∈ queue st → x ∈ visited st;
  inv_nodup : NoDup (queue st);
  inv_sorted : sorted_by D (queue st);
  inv_span x h q : queue st = h :: q → x ∈ visited st → D x ≤ S (D h);
  inv_done x : x ∈ visited st → x ∉ queue st →
    x ≠ e ∧ ∀ b, b ∈ neighbors g x → b ∈ visited st ∧ D b ≤ S (D x);
  inv_known : visited st ⊆ dom (id_to_fp g);
  inv_depth x : x ∈ visited st → D x < size (visited st)
}.

Lemma neighbors_known g a b : graph_wf g → b ∈ neighbors g a → b ∈ dom (id_to_fp g).
Proof.
  intros Hwf [[d Hd]|[d Hd]]%(wf_adj _ Hwf); apply (wf_docs _ Hwf) in Hd as (? & ? & _);
    apply elem_of_dom; eauto.
Qed.

Lemma sorted_head (D : N → nat) h q y : sorted_by D (h :: q) → y ∈ h :: q → D h ≤ D y.
Proof.
  intros Hs. apply Sorted.StronglySorted_inv in Hs as [_ Hf].
  rewrite elem_of_cons. intros [->|Hy]; [done|]. rewrite List.Forall_forall in Hf.
  by apply Hf, list_elem_of_In.
Qed.

Lemma sorted_app_const (D D' : N → nat) q new m :
  sorted_by D q → (∀ x, x ∈ q → D' x = D x ∧ D x ≤ m) → (∀ x, x ∈ new → D' x = m) →
  sorted_by D' (q ++ new).
Proof.
  intros Hs Hq Hn. induction q as [|h q IH]; cbn.
  - clear Hs Hq. induction new as [|n new IH]; constructor.
    + apply IH. intros x Hx. apply Hn. set_solver.
    + apply List.Forall_forall. intros x Hx%list_elem_of_In. rewrite !Hn by set_solver. done.
  - pose proof (sorted_head D h q) as Hh. specialize (λ y, Hh y Hs).
    apply Sorted.StronglySorted_inv in Hs as [Hs _]. constructor.
    + apply IH; [done|]. intros x Hx. apply Hq. set_solver.
    + apply List.Forall_forall. intros x [Hx|Hx]%list_elem_of_In%elem_of_app.
      * rewrite (proj1 (Hq h ltac:(set_solver))), (proj1 (Hq x ltac:(set_solver))).
        apply Hh. set_solver.
      * rewrite (Hn _ Hx). destruct (Hq h) as [-> ?]; [set_solver|done].
Qed.

Lemma bfs_inv_init g s e :
  s ∈ dom (id_to_fp g) → bfs_inv g s e (mkBfs {[ s ]} [s] ∅) (λ _, 0).
Proof.
  intros Hs. split; cbn; intros.
  - split_and!; [set_solver|done|apply lookup_empty].
  - set_solver.
  - set_solver.
  - apply list.NoDup_singleton.
  - repeat constructor.
  - lia.
  - set_solver.
  - set_solver.
  - rewrite size_singleton. lia.
Qed.

(** The depths after the node [h] is expanded. *)
Definition depth_step (D : N → nat) (h : N) (new : list N) (x : N) : nat :=
  if decide (x ∈ new) then S (D h) else D x.

Lemma elem_of_unseen V l x : x ∈ unseen V l ↔ x ∈ l ∧ x ∉ V.
Proof. unfold unseen. rewrite list_elem_of_filter. tauto. Qed.

(** What the expansion of the head [h] of the queue [h :: q] changes. *)
Record expansion (g : RelayGraph) (st st' : bfs_state) (D D' : N → nat) (h : N) (q new : list N)
    : Prop := {
  exp_new x : x ∈ new ↔ x ∈ neighbors g h ∧ x ∉ visited st;
  exp_nodup : NoDup new;
  exp_visited x : x ∈ visited st' ↔ x ∈ new ∨ x ∈ visited st;
  exp_size : size (visited st') = length new + size (visited st);
  exp_queue : queue st' = q ++ new;
  exp_path x : path st' !! x = if decide (x ∈ new) then Some h else path st !! x;
  exp_old x : x ∈ visited st → D' x = D x;
  exp_depth x : x ∈ new → D' x = S (D h)
}.

Lemma expand g st D h q neighs :
  adjacency g !! h = Some neighs →
  let new := unseen (visited st) (hash_iter neighs) in
  expansion g st (for_each (visit h) (hash_iter neighs) (mkBfs (visited st) q (path st)))
    D (depth_step D h new) h q new.
Proof.
  intros Hadj new. assert (neighbors g h = neighs) as Hnb by (unfold neighbors; by rewrite Hadj).
  assert (NoDup new) as Hndn by apply list.NoDup_filter, hash_iter_NoDup.
  destruct (visit_all h (hash_iter neighs) (mkBfs (visited st) q (path st)) (hash_iter_NoDup _))
    as (Hv & Hqu & Hp). cbn [visited queue path] in Hv, Hqu, Hp. fold new in Hv, Hqu, Hp.
  assert (∀ x, x ∈ new ↔ x ∈ neighbors g h ∧ x ∉ visited st) as Hnew.
  { intros x. unfold new. by rewrite elem_of_unseen, elem_of_hash_iter, Hnb. }
  split; try done.
  - intros x. by rewrite Hv, elem_of_union, elem_of_list_to_set.
  - rewrite Hv, size_union, size_list_to_set by (done || set_solver). done.
  - intros x Hx. unfold depth_step. rewrite decide_False; [done|]. rewrite Hnew. tauto.
  - intros x Hx. unfold depth_step. by rewrite decide_True.
Qed.

(** The depths of what has been seen stay within one of the new head's. *)
Lemma expansion_spread g s e st st' D D' h q new :
  bfs_inv g s e st D → queue st = h :: q → expansion g st st' D D' h q new →
  ∀ x h' q', queue st' = h' :: q' → x ∈ visited st' → D' x ≤ S (D' h').
Proof.
  intros [_ _ Hq _ Hso Hsp _ _ _] Eq [_ _ Hv' _ Hqu _ Hold HnewD] x h' q'. rewrite Eq in *. rewrite Hqu.
  destruct q as [|h0 q]; cbn; intros E'.
  - assert (h' ∈ new) as Hh' by (rewrite E'; set_solver). rewrite (HnewD h') by done.
    intros [?|?]%Hv'; [rewrite HnewD by done; lia|rewrite Hold by done].
    pose proof (Hsp x h [] eq_refl). naive_solver lia.
  - injection E' as <- _. rewrite (Hold h0) by (apply Hq; set_solver).
    assert (D h ≤ D h0) by (apply (sorted_head D h (h0 :: q)); [done|set_solver]).
    intros [?|Hx]%Hv'; [rewrite HnewD by done; lia|rewrite Hold by done].
    pose proof (Hsp x h _ eq_refl Hx). lia.
Qed.

(** A node that has left the queue has had all its neighbors seen. *)
Lemma expansion_done g s e st st' D D' h q new :
  bfs_inv g s e st D → queue st = h :: q → h ≠ e → expansion g st st' D D' h q new →
  ∀ x, x ∈ visited st' → x ∉ queue st' →
    x ≠ e ∧ ∀ b, b ∈ neighbors g x → b ∈ visited st' ∧ D' b ≤ S (D' x).
Proof.
  intros [_ _ _ _ _ Hsp Hdn _ _] Eq Hne [Hnew _ Hv' _ Hqu _ Hold HnewD] x Hx. rewrite Eq in *.
  rewrite Hqu, elem_of_app. intros Hnq.
  assert (x ∈ visited st) as Hxv by (apply Hv' in Hx; tauto). rewrite (Hold x) by done.
  destruct (decide (x = h)) as [->|Hxh].
  - split; [done|]. intros b Hb. rewrite Hv'. destruct (decide (b ∈ visited st)) as [Hbv|Hbv].
    + rewrite Hold by done. split; [auto|]. by apply (Hsp _ _ _ eq_refl).
    + assert (b ∈ new) by (apply Hnew; auto). rewrite HnewD by done. auto.
  - destruct (Hdn x Hxv) as [? Hb]; [rewrite elem_of_cons; tauto|]. split; [done|].
    intros b [Hbv ?]%Hb. rewrite Hv', Hold by done. auto.
Qed.

Lemma bfs_inv_step g s e st D h q neighs :
  graph_wf g → bfs_inv g s e st D → queue st = h :: q → h ≠ e →
  adjacency g !! h = Some neighs →
  let new := unseen (visited st) (hash_iter neighs) in
  let st' := for_each (visit h) (hash_iter neighs) (mkBfs (visited st) q (path st)) in
  bfs_inv g s e st' (depth_step D h new) ∧ length (queue st') = length q + length new ∧
  size (visited st') = length new + size (visited st).
Proof.
  intros Hwf Hinv Eq Hne Hadj new st'. pose proof (expand g st D h q neighs Hadj) as Hexp. cbv zeta in Hexp.
  fold new st' in Hexp. set (D' := depth_step D h new) in *. clearbody st' D'.
  pose proof (expansion_spread g s e st st' D D' h q new Hinv Eq Hexp) as Hspread.
  pose proof (expansion_done g s e st st' D D' h q new Hinv Eq Hne Hexp) as Hdone.
  destruct Hinv as [Hst Htr Hq Hnd Hso Hsp _ Hkn Hdp], Hexp as [Hnew Hndn Hv' Hsz Hqu Hp Hold HnewD].
  rewrite Eq in *. assert (h ∈ visited st) as Hh by (apply Hq; set_solver).
  assert (∀ x, x ∈ q → x ∈ visited st) as Hq' by (intros; apply Hq; set_solver).
  split; [|split; [by rewrite Hqu, length_app|done]]. split; try done.
  - destruct Hst as (? & ? & ?). rewrite Hv', Hold, Hp, decide_False by (rewrite ?Hnew; tauto). auto.
  - intros x [Hx|Hx]%Hv' Hxs; rewrite Hp.
    + exists h. rewrite decide_True, HnewD, Hold, Hv' by done. split_and!; [done|auto|done|].
      by apply Hnew.
    + destruct (Htr x Hx Hxs) as (y & ? & ? & ? & ?). exists y.
      rewrite decide_False, !Hold, Hv' by (rewrite ?Hnew; tauto). auto.
  - intros x. rewrite Hqu, Hv', elem_of_app. intros [?|?]; auto.
  - rewrite Hqu. apply list.NoDup_app. apply list.NoDup_cons in Hnd as [_ Hnd]. split_and!; [done| |done].
    intros x ?%Hq'. rewrite Hnew. tauto.
  - rewrite Hqu. pose proof (Sorted.StronglySorted_inv Hso) as [Hso' _].
    apply sorted_app_const with D (S (D h)); [done| |done].
    intros x Hx. split; [auto|]. by apply (Hsp _ _ _ eq_refl), Hq'.
  - intros x [[Hx _]%Hnew|Hx]%Hv'; [|auto]. by apply neighbors_known with h.
  - intros x Hx. rewrite Hsz. apply Hv' in Hx as [Hx|Hx].
    + rewrite HnewD by done. pose proof (Hdp h Hh). destruct new; [set_solver|cbn; lia].
    + rewrite Hold by done. specialize (Hdp x Hx). lia.
Qed.

(** ** Reading the path back *)

Lemma trace_back_spec g s e st D sfp :
  graph_wf g → bfs_inv g s e st D → id_to_fp g !! s = Some sfp →
  ∀ n x xfp fuel res, D x = n → x ∈ visited st → id_to_fp g !! x = Some xfp → n < fuel →
  ∃ l, trace_back fuel g (path st) x res = Ok (res ++ l) ∧ length l = n ∧
    fp_path g sfp xfp (reverse (l ++ [sfp])).
Proof.
  intros Hwf Hinv Hs. induction n as [|n IH]; intros x xfp fuel res HD Hx Hxfp Hf;
    (destruct fuel as [|fuel]; [lia|]); cbn [trace_back];
    destruct (inv_start _ _ _ _ _ Hinv) as (_ & HDs & Hps).
  - destruct (decide (x = s)) as [->|Hxs].
    + rewrite Hps. exists []. rewrite app_nil_r. split_and!; [done..|].
      assert (xfp = sfp) as -> by congruence. cbn. constructor.
      apply (wf_ids _ Hwf) in Hs. by eexists.
    + destruct (inv_tree _ _ _ _ _ Hinv x Hx Hxs) as (y & _ & _ & ? & _). lia.
  - assert (x ≠ s) as Hxs by (intros ->; lia).
    destruct (inv_tree _ _ _ _ _ Hinv x Hx Hxs) as (y & Hp & Hy & HD' & Hn).
    pose proof (inv_known _ _ _ _ _ Hinv y Hy) as [yfp Hyfp]%elem_of_dom.
    destruct (IH y yfp fuel (res ++ [xfp])) as (l & Hl & Hlen & Hpath); [lia|done|done|lia|].
    rewrite Hp, Hxfp; cbn. rewrite Hl. exists (xfp :: l).
    split_and!; [by rewrite <-app_assoc|by cbn; f_equal|].
    cbn [app]. rewrite reverse_cons. apply path_snoc with yfp; [done..|].
    apply linked_neighbors; eauto.
Qed.

(** Every path from a visited node to the end meets the queue: no path is
    shorter than what the queue still holds. *)
Lemma queue_meets_paths g s e st D a c p :
  graph_wf g → bfs_inv g s e st D → fp_path g a c p → id_to_fp g !! e = Some c →
  ∀ i, id_to_fp g !! i = Some a → i ∈ visited st →
  ∃ y, y ∈ queue st ∧ D y < D i + length p.
Proof.
  intros Hwf Hinv Hp He. induction Hp as [a Ha|a b c p Hl Hp IH]; intros i Hi Hv; cbn.
  - destruct (decide (i ∈ queue st)) as [?|Hnq]; [exists i; split; [done|lia]|].
    destruct (inv_done _ _ _ _ _ Hinv i Hv Hnq) as [Hne _].
    apply (wf_ids _ Hwf) in Hi, He. congruence.
  - destruct (decide (i ∈ queue st)) as [?|Hnq]; [exists i; split; [done|lia]|].
    destruct (inv_done _ _ _ _ _ Hinv i Hv Hnq) as [_ Hnb].
    apply (linked_neighbors _ _ _ Hwf) in Hl as (i' & j & Hi' & Hj & Hij).
    assert (i' = i) as -> by (apply (wf_ids _ Hwf) in Hi, Hi'; congruence).
    destruct (Hnb j Hij) as [Hjv HD]. destruct (IH He j Hj Hjv) as (y & ? & ?).
    exists y. split; [done|lia].
Qed.

(** What the result of a search means. *)
Definition shortest_spec (g : RelayGraph) (a c : Fingerprint)
    (res : option (list Fingerprint)) : Prop :=
  match res with
  | Some p => fp_path g a c p ∧ ∀ p', fp_path g a c p' → length p ≤ length p'
  | None => ∀ p', ¬ fp_path g a c p'
  end.

Lemma isolated_no_path g a c i p :
  graph_wf g → fp_path g a c p → id_to_fp g !! i = Some a → neighbors g i = ∅ → a = c.
Proof.
  intros Hwf Hp Hi Hn. destruct Hp as [|a b c p Hl _]; [done|].
  apply (linked_neighbors _ _ _ Hwf) in Hl as (i' & j & Hi' & _ & Hij).
  assert (i' = i) as -> by (apply (wf_ids _ Hwf) in Hi, Hi'; congruence).
  set_solver.
Qed.

Lemma bfs_spec g s e sfp efp :
  graph_wf g → id_to_fp g !! s = Some sfp → id_to_fp g !! e = Some efp →
  ∀ fuel st D, bfs_inv g s e st D →
  size (id_to_fp g) + length (queue st) < fuel + size (visited st) →
  ∃ res, bfs fuel g s e st = Ok res ∧ shortest_spec g sfp efp res.
Proof.
  intros Hwf Hs He. induction fuel as [|fuel IH]; intros st D Hinv Hfuel.
  { pose proof (subseteq_size _ _ (inv_known _ _ _ _ _ Hinv)) as Hsz.
    rewrite size_dom in Hsz. lia. }
  cbn [bfs]. destruct (queue st) as [|h q] eqn:Eq.
  - exists None. split; [done|]. intros p' Hp'.
    destruct (queue_meets_paths g s e st D sfp efp p' Hwf Hinv Hp' He s Hs) as (y & Hy & _).
    { apply (inv_start _ _ _ _ _ Hinv). } rewrite Eq in Hy. set_solver.
  - assert (h ∈ visited st) as Hh by (apply (inv_queue _ _ _ _ _ Hinv); rewrite Eq; set_solver).
    case_decide as Hhe.
    + subst h. destruct (trace_back_spec g s e st D sfp Hwf Hinv Hs (D e) e efp
        (size (visited st)) [] eq_refl Hh He) as (l & -> & Hlen & Hpath).
      { by apply (inv_depth _ _ _ _ _ Hinv). }
      rewrite Hs. exists (Some (reverse (l ++ [sfp]))). split; [done|]. split; [exact Hpath|].
      intros p' Hp'. rewrite length_reverse, length_app, Hlen. cbn.
      destruct (queue_meets_paths g s e st D sfp efp p' Hwf Hinv Hp' He s Hs) as (y & Hy & HD).
      { apply (inv_start _ _ _ _ _ Hinv). }
      pose proof (inv_sorted _ _ _ _ _ Hinv) as Hso. rewrite Eq in Hso, Hy.
      pose proof (sorted_head _ _ _ _ Hso Hy).
      destruct (inv_start _ _ _ _ _ Hinv) as (_ & HDs & _). lia.
    + destruct (adjacency g !! h) as [neighs|] eqn:Hadj.
      * destruct (bfs_inv_step g s e st D h q neighs Hwf Hinv Eq Hhe Hadj) as (Hinv' & Hl & Hsz).
        apply (IH _ _ Hinv'). rewrite Hl, Hsz. cbn in Hfuel. lia.
      * exists None. split; [done|]. intros p' Hp'.
        assert (neighbors g h = ∅) as Hn by (unfold neighbors; by rewrite Hadj).
        destruct (decide (h = s)) as [->|Hhs].
        -- pose proof (isolated_no_path _ _ _ _ _ Hwf Hp' Hs Hn) as ->.
           apply (wf_ids _ Hwf) in Hs, He. congruence.
        -- destruct (inv_tree _ _ _ _ _ Hinv h Hh Hhs) as (y & _ & _ & _ & Hy).
           apply (neighbors_sym _ _ _ Hwf) in Hy. set_solver.
Qed.

Lemma fp_path_known g a c p : graph_wf g → fp_path g a c p →
  is_Some (fp_to_id g !! a) ∧ is_Some (fp_to_id g !! c).
Proof.
  intros Hwf Hp. induction Hp as [a Ha|a b c p Hl _ [_ IH]]; [done|]. split; [|done].
  apply (linked_neighbors _ _ _ Hwf) in Hl as (i & _ & Hi & _).
  apply (wf_ids _ Hwf) in Hi. by eexists.
Qed.

Lemma find_shortest_path_spec g s t :
  graph_wf g → ∃ res, find_shortest_path g s t = Ok res ∧ shortest_spec g s t res.
Proof.
  intros Hwf. unfold find_shortest_path, graph_id.
  destruct (fp_to_id g !! s) as [si|] eqn:Es, (fp_to_id g !! t) as [ti|] eqn:Et.
  1: { apply (wf_ids _ Hwf) in Es, Et. eapply bfs_spec; [done..|apply bfs_inv_init|].
       - apply elem_of_dom; eauto.
       - cbn. rewrite size_singleton. lia. }
  all: exists None; split; [done|]; intros p' Hp'; apply (fp_path_known _ _ _ _ Hwf) in Hp';
    rewrite Es, Et in Hp'; by destruct Hp' as [[] []].
Qed.

End ShortestPath.
