(* ===== verification/Directory.v ===== *)
(** The directory of relays: what [RelayGraph] promises to the daemon.

    A [directory] is the abstract content of a relay graph: a descriptor per
    fingerprint and a signed document per pair of fingerprints, without the
    numeric identifiers, the two indexes and the adjacency sets that
    [Topology.v] maintains.  The operations of the graph refine the operations
    of the directory, and the queries answer from its content. *)

From S2P Require Import Prelude Interfaces Crypto Topology ShortestPath Packet Instances.

Record directory := mkDirectory {
  dir_ids : gmap Fingerprint IdentityDescriptor;
  dir_docs : gmap (Fingerprint * Fingerprint) AdjacencyDescriptor
}.

Section Directory.
  Context {P : Primitives} {IM : IndexMap} {HI : HashIter}.
  Context {SA : Stdcode AdjacencyDescriptor} {SI : Stdcode IdentityDescriptor}.

(** ** The abstract operations *)

(** A timestamp is fresh from its own second to [ROUTE_TIMEOUT] seconds after
    it, and stale before and after: there is no arithmetic modulo 2^64 here. *)
Definition ts_fresh (now ts : N) : bool := (ts <=? now)%N && (now <=? ts + ROUTE_TIMEOUT)%N.

Definition dir_insert_identity (d : IdentityDescriptor) : M directory VerifyError unit :=
  _ ← lift (verify (identity_pk d) (id_to_sign d) (sig d));
  modify (λ dir, mkDirectory (<[fingerprint (identity_pk d) := d]> (dir_ids dir)) (dir_docs dir)).

(** Whether one end's signature is valid for the key the directory knows. *)
Definition dir_signed (dir : directory) (adj : AdjacencyDescriptor) (fp : Fingerprint)
    (s : list byte) : option bool :=
  d ← dir_ids dir !! fp;
  Some (is_ok (verify (identity_pk d) (adj_to_sign adj) s)).

Definition dir_verify (dir : directory) (adj : AdjacencyDescriptor) : outcome AdjacencyError unit :=
  if array_ge (left adj) (right adj) then Err LeftNotSmallerThanRight else
  match dir_signed dir adj (left adj) (left_sig adj),
        dir_signed dir adj (right adj) (right_sig adj) with
  | None, _ => Err LeftIdentityNotFound
  | _, None => Err RightIdentityNotFound
  | Some true, Some true => Ok tt
  | _, _ => Err InvalidSignatures
  end.

Definition dir_expired (now : N) (dir : directory) (fp : Fingerprint) : Prop :=
  ∃ d, dir_ids dir !! fp = Some d ∧ ts_fresh now (id_timestamp d) = false.

#[global] Instance dir_expired_dec now dir fp : Decision (dir_expired now dir fp).
Proof.
  refine (match dir_ids dir !! fp as o
    return Decision (∃ d, o = Some d ∧ ts_fresh now (id_timestamp d) = false) with
  | Some d => if decide (ts_fresh now (id_timestamp d) = false) then Specif.left _ else Specif.right _
  | None => Specif.right _
  end); naive_solver.
Defined.

(** Expired identities go, with the documents that mention them or have
    expired themselves. *)
Definition dir_cleanup (now : N) (dir : directory) : directory :=
  mkDirectory
    (filter (λ p : Fingerprint * IdentityDescriptor,
               ts_fresh now (id_timestamp p.2) = true) (dir_ids dir))
    (filter (λ p : (Fingerprint * Fingerprint) * AdjacencyDescriptor,
               ¬ dir_expired now dir p.1.1 ∧ ¬ dir_expired now dir p.1.2 ∧
               ts_fresh now (adj_timestamp p.2) = true) (dir_docs dir)).

Definition dir_insert_adjacency (now : N) (adj : AdjacencyDescriptor)
    : M directory AdjacencyError unit :=
  dir ← get_state;
  _ ← lift (dir_verify dir adj);
  put_state (dir_cleanup now
    (mkDirectory (dir_ids dir) (<[(left adj, right adj) := adj]> (dir_docs dir)))).

(** ** Representation *)

(** The graph holds document [d] between [a] and [b]. *)
Definition doc_at (g : RelayGraph) (a b : Fingerprint) (d : AdjacencyDescriptor) : Prop :=
  ∃ k, im_get k (documents g) = Some d ∧ left d = a ∧ right d = b.

Record represents (g : RelayGraph) (dir : directory) : Prop := {
  rep_wf : graph_wf g;
  rep_ids fp : identity g fp = dir_ids dir !! fp;
  rep_docs a b d : doc_at g a b d ↔ dir_docs dir !! (a, b) = Some d
}.

Context {IML : IndexMapLaws IM} {HIL : HashIterLaws HI}.

Lemma represents_new : represents graph_new (mkDirectory ∅ ∅).
Proof.
  split.
  - apply graph_new_wf.
  - done.
  - intros a b d. cbn. rewrite lookup_empty. split; [|done].
    intros (k & Hk & _). cbn in Hk. by rewrite im_get_empty in Hk.
Qed.

Lemma verify_adjacency_refines g dir adj :
  represents g dir → verify_adjacency g adj = dir_verify dir adj.
Proof.
  intros Hr. unfold verify_adjacency, dir_verify, dir_signed.
  rewrite !(rep_ids _ _ Hr). destruct (array_ge _ _); [done|].
  destruct (dir_ids dir !! left adj); cbn; [|done].
  destruct (dir_ids dir !! right adj); cbn; [|by destruct (is_ok _)].
  by destruct (is_ok _), (is_ok _).
Qed.

(** A document is found under the identifiers of its two ends. *)
Lemma documents_key g l r d d' :
  graph_wf g → im_get (l, r) (documents g) = Some d →
  doc_at g (left d) (right d) d' → d' = d.
Proof.
  intros Hwf Hd ([l' r'] & Hd' & El & Er).
  pose proof (wf_docs _ Hwf _ _ _ Hd) as (H1 & H2 & _).
  pose proof (wf_docs _ Hwf _ _ _ Hd') as (H1' & H2' & _).
  rewrite <-El in H1. rewrite <-Er in H2. apply (wf_ids _ Hwf) in H1, H2, H1', H2'. congruence.
Qed.

Lemma outdated_identity_iff now g fp id :
  graph_wf g → fp_to_id g !! fp = Some id →
  id ∈ outdated_identities now g ↔
  ∃ d, identity g fp = Some d ∧ outdated now (id_timestamp d) = true.
Proof.
  intros Hwf Hid. unfold outdated_identities, identity, graph_id. rewrite Hid; cbn.
  rewrite elem_of_dom. unfold is_Some. setoid_rewrite map_lookup_filter_Some. done.
Qed.

(** What cleanup does to the identity of a fingerprint. *)
Lemma cleanup_identity now g fp :
  graph_wf g →
  identity (cleanup now g) fp =
  (d ← identity g fp; if outdated now (id_timestamp d) then None else Some d).
Proof.
  intros Hwf. destruct (cleanup_spec now g (wf_ids _ Hwf)) as (H1 & _ & H3 & H4 & _).
  unfold identity at 1, graph_id. destruct (fp_to_id (cleanup now g) !! fp) as [i|] eqn:Hi; cbn.
  - apply H1 in Hi. rewrite H3 in Hi. rewrite H4. case_decide as Hd; [done|].
    apply (wf_ids _ Hwf) in Hi. rewrite (outdated_identity_iff _ _ _ _ Hwf Hi) in Hd.
    destruct (identity g fp) as [d|] eqn:Ed; unfold identity, graph_id in Ed; rewrite Hi in Ed;
      cbn in *; rewrite Ed; [|done].
    destruct (outdated now (id_timestamp d)) eqn:Eo; [|done]. exfalso. eauto.
  - destruct (identity g fp) as [d|] eqn:Ed; cbn; [|done].
    destruct (outdated now (id_timestamp d)) eqn:Eo; [done|]. exfalso.
    pose proof Ed as Ed'. unfold identity, graph_id in Ed.
    destruct (fp_to_id g !! fp) as [i|] eqn:Hi'; [|done].
    assert (id_to_fp (cleanup now g) !! i = Some fp) as Hc.
    { rewrite H3, decide_False; [by apply (wf_ids _ Hwf)|].
      rewrite (outdated_identity_iff _ _ _ _ Hwf Hi'). intros (d' & ? & ?). congruence. }
    apply H1 in Hc. congruence.
Qed.

(** Every timestamp of the directory satisfies [Q]. *)
Definition dir_all (Q : N → Prop) (dir : directory) : Prop :=
  (∀ fp d, dir_ids dir !! fp = Some d → Q (id_timestamp d)) ∧
  (∀ k d, dir_docs dir !! k = Some d → Q (adj_timestamp d)).

(** The test of [cleanup] in 64-bit arithmetic is the freshness test, for a
    clock at least an hour after the epoch. *)
Definition clock_ok (now : N) : Prop := (ROUTE_TIMEOUT <= now < u64_modulus)%N.

Lemma outdated_fresh now ts :
  clock_ok now → (ts < u64_modulus)%N → outdated now ts = negb (ts_fresh now ts).
Proof.
  intros Hnow Hts. unfold outdated, ts_fresh, u64_sub_wrapping, clock_ok, ROUTE_TIMEOUT, u64_modulus in *.
  destruct (now <? ts)%N eqn:E; [apply N.ltb_lt in E|apply N.ltb_ge in E].
  - rewrite (proj2 (N.leb_gt _ _)) by lia. apply N.ltb_lt. lia.
  - rewrite (proj2 (N.leb_le ts now)) by lia. cbn.
    destruct (now <=? ts + _)%N eqn:E2; [apply N.leb_le in E2|apply N.leb_gt in E2]; cbn;
      [apply N.ltb_ge|apply N.ltb_lt]; lia.
Qed.

Lemma cleanup_refines now g dir :
  clock_ok now → dir_all (λ ts, ts < u64_modulus)%N dir →
  represents g dir → represents (cleanup now g) (dir_cleanup now dir).
Proof.
  intros Hnow [Hri Hrd] [Hwf Hids Hdocs]. split.
  - by apply cleanup_wf.
  - intros fp. rewrite cleanup_identity, Hids by done. cbn.
    rewrite map_lookup_filter. destruct (dir_ids dir !! fp) as [d|] eqn:Hd; cbn; [|done].
    rewrite (outdated_fresh _ _ Hnow (Hri _ _ Hd)).
    destruct (ts_fresh now (id_timestamp d)); repeat case_match; naive_solver.
  - intros a b d. cbn. rewrite map_lookup_filter_Some, <-Hdocs; cbn.
    destruct (cleanup_spec now g (wf_ids _ Hwf)) as (_ & _ & _ & _ & H5 & _).
    assert (∀ l fp, id_to_fp g !! l = Some fp →
      l ∈ outdated_identities now g ↔ dir_expired now dir fp) as Hexp.
    { intros l fp Hl%(wf_ids _ Hwf). rewrite (outdated_identity_iff _ _ _ _ Hwf Hl).
      unfold dir_expired. rewrite Hids. split; intros (e & He & Ho); exists e;
        (split; [done|]); revert Ho; rewrite (outdated_fresh _ _ Hnow (Hri _ _ He));
        by destruct (ts_fresh _ _). }
    assert (∀ k e, im_get k (documents g) = Some e →
      outdated now (adj_timestamp e) = negb (ts_fresh now (adj_timestamp e))) as Hfr.
    { intros k e He. apply outdated_fresh; [done|]. apply (Hrd (left e, right e)), Hdocs.
      by exists k. }
    split.
    + intros ([l r] & (Hd & Hl & Hr & Ho)%H5 & <- & <-).
      pose proof (wf_docs _ Hwf _ _ _ Hd) as (Hl' & Hr' & _).
      rewrite (Hexp _ _ Hl') in Hl. rewrite (Hexp _ _ Hr') in Hr.
      split; [by exists (l, r)|]. rewrite (Hfr _ _ Hd) in Ho. by apply negb_false_iff in Ho.
    + intros [([l r] & Hd & <- & <-) (Hl & Hr & Ho)]. exists (l, r).
      pose proof (wf_docs _ Hwf _ _ _ Hd) as (Hl' & Hr' & _).
      rewrite <-(Hexp _ _ Hl') in Hl. rewrite <-(Hexp _ _ Hr') in Hr.
      split; [|done]. apply H5. rewrite (Hfr _ _ Hd), Ho. done.
Qed.

(** With overflow checks the cleanup panics only on a timestamp after [now]. *)
Lemma cleanup_panics_future now g dir (Q : N → Prop) :
  represents g dir → dir_all Q dir → cleanup_panics now g = true → ∃ ts, Q ts ∧ (now < ts)%N.
Proof.
  intros Hrep [Hi Hd]. unfold cleanup_panics. rewrite orb_true_iff, !existsb_exists.
  intros [([i d] & Hin & Hp)|([k d] & Hin & Hp)].
  - apply list_elem_of_In, elem_of_map_to_list in Hin. cbn in Hp. exists (id_timestamp d).
    split; [|by apply N.ltb_lt]. apply (Hi (fingerprint (identity_pk d))).
    rewrite <-(rep_ids _ _ Hrep). unfold identity, graph_id.
    destruct (wf_desc _ (rep_wf _ _ Hrep) _ _ Hin) as [Hfp%(wf_ids _ (rep_wf _ _ Hrep)) _].
    by rewrite Hfp.
  - apply list_elem_of_In, im_items_get in Hin. cbn in Hp. exists (adj_timestamp d).
    split; [|apply andb_true_iff in Hp as [_ Hp]; by apply N.ltb_lt].
    apply (Hd (left d, right d)), (rep_docs _ _ Hrep). by exists k.
Qed.

Lemma link_refines g dir l r adj :
  represents g dir → fp_to_id g !! left adj = Some l →
  fp_to_id g !! right adj = Some r → graph_wf (link l r adj g) →
  represents (link l r adj g)
    (mkDirectory (dir_ids dir)
      (<[(left adj, right adj) := adj]> (dir_docs dir))).
Proof.
  intros [Hwf Hids Hdocs] Hl Hr Hwf'. split; [done|exact Hids|].
  intros a b d. cbn. rewrite lookup_insert.
  split.
  - intros ([l' r'] & Hd & <- & <-). pose proof (wf_docs _ Hwf' _ _ _ Hd) as (H1 & H2 & _).
    cbn in Hd, H1, H2. rewrite im_get_insert in Hd. case_decide as E1.
    + injection E1 as <- <-. injection Hd as <-. by rewrite decide_True.
    + rewrite decide_False; [apply Hdocs; by exists (l', r')|].
      intros [= E2 E3]. apply (wf_ids _ Hwf) in H1, H2. congruence.
  - case_decide as E1.
    + injection E1 as <- <-. intros [= <-]. exists (l, r). cbn.
      by rewrite im_get_insert, decide_True.
    + intros ([l' r'] & Hd & <- & <-)%Hdocs. exists (l', r'). cbn. rewrite im_get_insert.
      case_decide as E2; [|done]. injection E2 as <- <-.
      pose proof (wf_docs _ Hwf _ _ _ Hd) as (H1 & H2 & _).
      apply (wf_ids _ Hwf) in Hl, Hr. congruence.
Qed.

Lemma dir_all_link (Q : N → Prop) dir adj :
  dir_all Q dir → Q (adj_timestamp adj) →
  dir_all Q (mkDirectory (dir_ids dir) (<[(left adj, right adj) := adj]> (dir_docs dir))).
Proof.
  intros [H1 H2] Hadj. split; [done|]. cbn. intros k d [[_ <-]|[_ Hk]]%lookup_insert_Some; eauto.
Qed.

Lemma dir_all_cleanup (Q : N → Prop) now dir : dir_all Q dir → dir_all Q (dir_cleanup now dir).
Proof.
  intros [H1 H2]. split; cbn; [intros fp d|intros k d]; intros [Hk _]%map_lookup_filter_Some; eauto.
Qed.

Lemma dir_all_insert_adjacency (Q : N → Prop) now adj dir :
  dir_all Q dir → Q (adj_timestamp adj) → dir_all Q (dir_insert_adjacency now adj dir).2.
Proof.
  intros Hd Hadj. unfold dir_insert_adjacency, mbind, M_bind, get_state, lift.
  destruct (dir_verify dir adj) as [[]| | |]; [|done..]. by apply dir_all_cleanup, dir_all_link.
Qed.

Lemma dir_all_insert_identity (Q : N → Prop) d dir :
  dir_all Q dir → Q (id_timestamp d) → dir_all Q (dir_insert_identity d dir).2.
Proof.
  intros [H1 H2] Hd. unfold dir_insert_identity, mbind, M_bind, lift.
  destruct (verify _ _ _) as [[]| | |]; [|done..]. split; [|done]. cbn.
  intros fp d' [[_ <-]|[_ Hk]]%lookup_insert_Some; eauto.
Qed.

(** A link insertion does what the directory does, or, with overflow checks,
    panics because some timestamp lies after the clock. *)
Lemma insert_adjacency_refines (Q : N → Prop) oc now adj g dir r g' :
  represents g dir → clock_ok now → dir_all Q dir → Q (adj_timestamp adj) →
  (∀ ts, Q ts → ts < u64_modulus)%N →
  insert_adjacency oc now adj g = (r, g') →
  (∃ dir', dir_insert_adjacency now adj dir = (r, dir') ∧ represents g' dir') ∨
  (oc = true ∧ r = Panic ∧ ∃ ts, Q ts ∧ (now < ts)%N).
Proof.
  intros Hrep Hnow HQ Hadj Hrange Hins.
  pose proof (insert_adjacency_spec oc now adj g (rep_wf _ _ Hrep)) as Hs.
  unfold dir_insert_adjacency, mbind, M_bind, get_state, lift.
  rewrite (verify_adjacency_refines _ _ _ Hrep) in Hs.
  destruct (dir_verify dir adj) as [[]|e| |]; try done.
  - destruct Hs as (l & r0 & Hl & Hr & Hwf & Hs). rewrite Hs in Hins.
    pose proof (link_refines _ _ _ _ _ Hrep Hl Hr Hwf) as Hlink.
    pose proof (dir_all_link _ _ _ HQ Hadj) as HQ'.
    destruct (oc && cleanup_panics now _) eqn:Hp; injection Hins as <- <-.
    + right. apply andb_true_iff in Hp as [-> Hp].
      split_and!; [done..|]. by eapply cleanup_panics_future.
    + left. eexists. split; [done|]. apply cleanup_refines; [done| |done].
      destruct HQ' as [A B]. split; eauto.
  - left. rewrite Hs in Hins. injection Hins as <- <-. eauto.
Qed.

Lemma insert_identity_documents d g : documents (insert_identity d g).2 = documents g.
Proof.
  unfold insert_identity, mbind, M_bind, lift, modify, alloc_id.
  destruct (verify _ _ _) as [[]| | |]; [|done..]. by destruct (fp_to_id g !! _).
Qed.

Lemma insert_identity_refines d g dir r g' :
  represents g dir → (unalloc_id g + 1 < u64_modulus)%N → insert_identity d g = (r, g') →
  ∃ dir', dir_insert_identity d dir = (r, dir') ∧ represents g' dir'.
Proof.
  intros Hrep Hb Hins. pose proof (insert_identity_spec g d (rep_wf _ _ Hrep) Hb) as Hs.
  pose proof (insert_identity_documents d g) as Hdocs. rewrite Hins in Hdocs. cbn in Hdocs.
  unfold dir_insert_identity, mbind, M_bind, lift.
  destruct (verify _ _ _) as [[]|e| |]; try done.
  - destruct Hs as (g1 & Hs & Hwf & Hid & Hother & _). rewrite Hs in Hins.
    injection Hins as <- <-. eexists. split; [done|]. split; cbn.
    + done.
    + intros fp. rewrite lookup_insert. case_decide; subst; [done|].
      rewrite Hother by done. apply (rep_ids _ _ Hrep).
    + intros a b d'. rewrite <-(rep_docs _ _ Hrep). unfold doc_at. by rewrite Hdocs.
  - rewrite Hs in Hins. injection Hins as <- <-. eauto.
Qed.

(** ** Sequences of operations *)

Inductive graph_op :=
  | OpIdentity (d : IdentityDescriptor)
  | OpAdjacency (now : N) (adj : AdjacencyDescriptor).

Definition op_result : Type := (outcome VerifyError unit + outcome AdjacencyError unit).

(** [oc] says whether the build checks arithmetic for overflow. *)
Definition graph_apply (oc : bool) (op : graph_op) (g : RelayGraph) : op_result * RelayGraph :=
  match op with
  | OpIdentity d => let '(r, g') := insert_identity d g in (inl r, g')
  | OpAdjacency now adj => let '(r, g') := insert_adjacency oc now adj g in (inr r, g')
  end.

Definition dir_apply (op : graph_op) (dir : directory) : op_result * directory :=
  match op with
  | OpIdentity d => let '(r, dir') := dir_insert_identity d dir in (inl r, dir')
  | OpAdjacency now adj => let '(r, dir') := dir_insert_adjacency now adj dir in (inr r, dir')
  end.

Definition op_panicked (r : op_result) : bool :=
  match r with inl Panic | inr Panic => true | _ => false end.

(** One operation after the other, up to the first that panics: a panic aborts
    the process. *)
Fixpoint run_ops {S} (apply : graph_op → S → op_result * S) (ops : list graph_op) (s : S)
    : list op_result * S :=
  match ops with
  | [] => ([], s)
  | op :: ops =>
      let '(r, s1) := apply op s in
      if op_panicked r then ([r], s1) else
      let '(rs, s2) := run_ops apply ops s1 in
      (r :: rs, s2)
  end.

(** The timestamp an operation brings in, and the operations the model of
    64-bit integers and of the clock applies to. *)
Definition op_timestamp (op : graph_op) : N :=
  match op with OpIdentity d => id_timestamp d | OpAdjacency _ adj => adj_timestamp adj end.

Definition op_ok (op : graph_op) : Prop :=
  (op_timestamp op < u64_modulus)%N ∧
  match op with OpIdentity _ => True | OpAdjacency now _ => clock_ok now end.

Lemma unalloc_insert_adjacency oc now adj g :
  graph_wf g → unalloc_id (insert_adjacency oc now adj g).2 = unalloc_id g.
Proof.
  intros Hwf. pose proof (insert_adjacency_spec oc now adj g Hwf) as Hs.
  destruct (verify_adjacency g adj); try done.
  - destruct Hs as (l & r & _ & _ & Hwf' & ->). destruct (oc && _); [done|].
    destruct (cleanup_spec now _ (wf_ids _ Hwf')) as (_ & H & _). exact H.
  - by rewrite Hs.
Qed.

Lemma dir_verify_returns dir adj : dir_verify dir adj ≠ Panic.
Proof.
  unfold dir_verify. destruct (array_ge _ _); [done|].
  by destruct (dir_signed dir adj (left adj) (left_sig adj)) as [[]|],
    (dir_signed dir adj (right adj) (right_sig adj)) as [[]|].
Qed.

(** The directory itself never panics. *)
Lemma dir_apply_returns op dir : op_panicked (dir_apply op dir).1 = false.
Proof.
  destruct op as [d|now adj]; cbn.
  - unfold dir_insert_identity, mbind, M_bind, lift.
    pose proof (verify_returns (identity_pk d) (id_to_sign d) (sig d)) as Hret.
    by destruct (verify _ _ _) as [[]| | |].
  - unfold dir_insert_adjacency, mbind, M_bind, get_state, lift.
    pose proof (dir_verify_returns dir adj) as Hret. by destruct (dir_verify dir adj) as [[]| | |].
Qed.

Lemma dir_all_apply (Q : N → Prop) op dir :
  dir_all Q dir → Q (op_timestamp op) → dir_all Q (dir_apply op dir).2.
Proof.
  intros HQ Hop. destruct op as [d|now adj]; cbn in *.
  - pose proof (dir_all_insert_identity Q d dir HQ Hop). by destruct (dir_insert_identity d dir).
  - pose proof (dir_all_insert_adjacency Q now adj dir HQ Hop).
    by destruct (dir_insert_adjacency now adj dir).
Qed.

Lemma graph_apply_refines (Q : N → Prop) oc op g dir :
  represents g dir → (unalloc_id g + 1 < u64_modulus)%N →
  op_ok op → dir_all Q dir → Q (op_timestamp op) → (∀ ts, Q ts → ts < u64_modulus)%N →
  ((graph_apply oc op g).1 = (dir_apply op dir).1 ∧
   represents (graph_apply oc op g).2 (dir_apply op dir).2 ∧
   (unalloc_id (graph_apply oc op g).2 <= unalloc_id g + 1)%N) ∨
  (oc = true ∧ (graph_apply oc op g).1 = inr Panic ∧
   ∃ now adj ts, op = OpAdjacency now adj ∧ Q ts ∧ (now < ts)%N).
Proof.
  intros Hrep Hb [_ Hop] HQ Hts Hrange. destruct op as [d|now adj]; cbn in *.
  - left. pose proof (insert_identity_spec g d (rep_wf _ _ Hrep) Hb) as Hs.
    destruct (insert_identity d g) as [r g'] eqn:Hins.
    destruct (insert_identity_refines _ _ _ _ _ Hrep Hb Hins) as (dir' & -> & Hrep').
    split_and!; [done..|]. cbn. destruct (verify _ _ _); [|injection Hs as -> ->; lia|done..].
    destruct Hs as (g1 & [= -> ->] & _ & _ & _ & ?). done.
  - pose proof (unalloc_insert_adjacency oc now adj g (rep_wf _ _ Hrep)) as Hu.
    destruct (insert_adjacency oc now adj g) as [r g'] eqn:Hins.
    destruct (insert_adjacency_refines _ _ _ _ _ _ _ _ Hrep Hop HQ Hts Hrange Hins)
      as [(dir' & -> & Hrep')|(-> & -> & ts & ? & ?)].
    + left. split_and!; [done..|]. cbn in *. lia.
    + right. eauto 8.
Qed.

(** The operation at which a run with overflow checks stops: a link insertion
    whose clock is before a timestamp brought in so far. *)
Definition stops_at_future (done ops : list graph_op) (before : list graph_op) : Prop :=
  ∃ now adj after op,
    ops = before ++ OpAdjacency now adj :: after ∧
    op ∈ done ++ before ++ [OpAdjacency now adj] ∧ (now < op_timestamp op)%N.

Lemma run_ops_refines oc done ops g dir :
  represents g dir → (unalloc_id g + N.of_nat (length ops) < u64_modulus)%N →
  Forall op_ok (done ++ ops) → dir_all (λ ts, ∃ op, op ∈ done ∧ ts = op_timestamp op) dir →
  ((run_ops (graph_apply oc) ops g).1 = (run_ops dir_apply ops dir).1 ∧
   represents (run_ops (graph_apply oc) ops g).2 (run_ops dir_apply ops dir).2) ∨
  (oc = true ∧ ∃ before, stops_at_future done ops before ∧
   (run_ops (graph_apply oc) ops g).1 = (run_ops dir_apply before dir).1 ++ [inr Panic]).
Proof.
  revert done g dir. induction ops as [|op ops IH]; intros dn g dir Hrep Hb Hok Hall;
    [left; done|].
  assert (Forall op_ok ((dn ++ [op]) ++ ops)) as Hok' by (by rewrite <-app_assoc).
  assert (op_ok op) as Hop.
  { rewrite Forall_app, Forall_cons in Hok. tauto. }
  assert (dir_all (λ ts, ∃ op', op' ∈ dn ++ [op] ∧ ts = op_timestamp op') dir) as Hall'.
  { destruct Hall as [A B]. split; [intros fp d Hd|intros k d Hd];
      [destruct (A _ _ Hd) as (o & ? & ?)|destruct (B _ _ Hd) as (o & ? & ?)];
      exists o; set_solver. }
  destruct (graph_apply_refines (λ ts, ∃ op', op' ∈ dn ++ [op] ∧ ts = op_timestamp op')
    oc op g dir) as [(H1 & H2 & H3)|(-> & Hr & now & adj & ts & -> & (o & Ho & ->) & Hlt)];
    [done|cbn [length] in *; lia|done..|set_solver| | |].
  - intros ts (o & Ho & ->). apply Forall_app in Hok' as [Hok' _].
    rewrite Forall_forall in Hok'. apply (Hok' o Ho).
  - cbn [run_ops length] in *. pose proof (dir_apply_returns op dir) as Hnp.
    assert (dir_all (λ ts, ∃ op', op' ∈ dn ++ [op] ∧ ts = op_timestamp op') (dir_apply op dir).2)
      as Hall1 by (apply dir_all_apply; set_solver).
    destruct (graph_apply oc op g) as [r g1], (dir_apply op dir) as [r' dir1] eqn:Hda.
    cbn [fst snd] in *. subst r'. rewrite Hnp.
    destruct (IH (dn ++ [op]) g1 dir1 H2) as [(J1 & J2)|(-> & before & Hst & J1)];
      [lia|done|done|left|right].
    + destruct (run_ops (graph_apply oc) ops g1), (run_ops dir_apply ops dir1). cbn in *. by subst.
    + split; [done|]. exists (op :: before).
      destruct Hst as (now & adj & after & o & -> & Ho & Hlt). split.
      * exists now, adj, after, o. split_and!; [done| |done].
        rewrite <-app_assoc in Ho. exact Ho.
      * cbn [run_ops]. rewrite Hda, Hnp. destruct (run_ops (graph_apply true) _ g1), (run_ops dir_apply before dir1).
        cbn in *. by subst.
  - right. split; [done|]. exists []. split.
    + exists now, adj, ops, o. done.
    + cbn [run_ops]. destruct (graph_apply true _ g) as [r g1]. cbn in Hr. subst r. done.
Qed.

(** C6 (refinement): from the empty graph, every sequence of identity and link
    insertions (fewer than 2^64, with 64-bit timestamps and a clock at least an
    hour after the epoch) returns the results of the abstract directory, whose
    freshness test is plain arithmetic, and leaves a graph that satisfies its
    invariant and holds exactly the content of that directory; the one
    exception is a build with overflow checks, which stops with a panic, after
    the directory's results so far, at a link insertion made at a clock before
    a timestamp brought in by then. *)
Theorem graph_refines_directory oc ops :
  (N.of_nat (length ops) < u64_modulus)%N → Forall op_ok ops →
  ((run_ops (graph_apply oc) ops graph_new).1 = (run_ops dir_apply ops (mkDirectory ∅ ∅)).1 ∧
   represents (run_ops (graph_apply oc) ops graph_new).2
     (run_ops dir_apply ops (mkDirectory ∅ ∅)).2) ∨
  (oc = true ∧ ∃ before now adj after op,
     ops = before ++ OpAdjacency now adj :: after ∧
     op ∈ before ++ [OpAdjacency now adj] ∧ (now < op_timestamp op)%N ∧
     (run_ops (graph_apply oc) ops graph_new).1 =
       (run_ops dir_apply before (mkDirectory ∅ ∅)).1 ++ [inr Panic]).
Proof.
  intros Hlen Hok.
  destruct (run_ops_refines oc [] ops graph_new (mkDirectory ∅ ∅))
    as [H|(-> & before & (now & adj & after & op & H1 & H2 & H3) & H4)];
    [apply represents_new|cbn; lia|done|by split|by left|right].
  split; [done|]. exists before, now, adj, after, op. done.
Qed.

(** The invariant by itself, whatever the clocks and the timestamps. *)
Lemma graph_apply_wf op g :
  graph_wf g → (unalloc_id g + 1 < u64_modulus)%N →
  graph_wf (graph_apply false op g).2 ∧
  (unalloc_id (graph_apply false op g).2 <= unalloc_id g + 1)%N.
Proof.
  intros Hwf Hb. destruct op as [d|now adj]; cbn.
  - pose proof (insert_identity_spec g d Hwf Hb) as Hs. destruct (verify _ _ _); try done.
    + by destruct Hs as (g' & -> & ? & _ & _ & ?).
    + rewrite Hs. cbn. split; [done|lia].
  - pose proof (insert_adjacency_spec false now adj g Hwf) as Hs.
    pose proof (unalloc_insert_adjacency false now adj g Hwf) as Hu.
    destruct (verify_adjacency g adj); try done.
    + destruct Hs as (l & r & _ & _ & Hwf' & Hs). rewrite Hs in Hu |- *. cbn in *.
      split; [by apply cleanup_wf|lia].
    + rewrite Hs. cbn. split; [done|lia].
Qed.

Lemma run_ops_wf ops g :
  graph_wf g → (unalloc_id g + N.of_nat (length ops) < u64_modulus)%N →
  graph_wf (run_ops (graph_apply false) ops g).2.
Proof.
  revert g. induction ops as [|op ops IH]; intros g Hwf Hb; [done|]. cbn [run_ops length] in *.
  destruct (graph_apply_wf op g Hwf) as [Hwf' Hu]; [lia|].
  destruct (graph_apply false op g) as [r g1]. cbn in Hwf', Hu.
  destruct (op_panicked r); [done|]. pose proof (IH g1 Hwf') as H.
  destruct (run_ops _ ops g1). apply H. lia.
Qed.

(** ** Timestamps not in the future *)

(** No timestamp of the graph lies after [t]. *)
Definition graph_before (t : N) (g : RelayGraph) : Prop :=
  (∀ i d, id_to_descriptor g !! i = Some d → (id_timestamp d <= t)%N) ∧
  (∀ k d, im_get k (documents g) = Some d → (adj_timestamp d <= t)%N).

(** The same as a test. *)
Definition graph_before_b (t : N) (g : RelayGraph) : bool :=
  forallb (λ p, id_timestamp p.2 <=? t)%N (map_to_list (id_to_descriptor g)) &&
  forallb (λ p, adj_timestamp p.2 <=? t)%N (im_items (documents g)).

Lemma graph_before_check t g : graph_before_b t g = true → graph_before t g.
Proof.
  intros [H1 H2]%andb_true_iff. rewrite forallb_forall in H1, H2. split.
  - intros i d Hi%elem_of_map_to_list%list_elem_of_In%H1. by apply N.leb_le.
  - intros k d Hk%im_items_get%list_elem_of_In%H2. by apply N.leb_le.
Qed.

Lemma graph_before_new t : graph_before t graph_new.
Proof. split; [done|]. intros k d Hk. cbn in Hk. by rewrite im_get_empty in Hk. Qed.

Lemma graph_before_mono t t' g : (t <= t')%N → graph_before t g → graph_before t' g.
Proof.
  intros Ht [H1 H2]. split; [intros i d Hi%H1|intros k d Hk%H2]; lia.
Qed.

Lemma insert_identity_before t d g :
  graph_before t g → (id_timestamp d <= t)%N → graph_before t (insert_identity d g).2.
Proof.
  intros [H1 H2] Hd. unfold insert_identity, mbind, M_bind, lift, modify, alloc_id.
  destruct (verify _ _ _) as [[]| | |]; [|done..].
  destruct (fp_to_id g !! _); (split; [cbn|done]);
    intros i d' [[_ <-]|[_ Hi]]%lookup_insert_Some; eauto.
Qed.

Lemma link_before t l r adj g :
  graph_before t g → (adj_timestamp adj <= t)%N → graph_before t (link l r adj g).
Proof.
  intros [H1 H2] Hadj. split; [done|]. intros k d. cbn. rewrite im_get_insert.
  case_decide; [by intros [= <-]|eauto].
Qed.

Lemma cleanup_before t now g : graph_wf g → graph_before t g → graph_before t (cleanup now g).
Proof.
  intros Hwf [H1 H2]. destruct (cleanup_spec now g (wf_ids _ Hwf)) as (_ & _ & _ & H4 & H5 & _).
  split; [intros i d|intros [l r] d].
  - rewrite H4. case_decide; [done|eauto].
  - intros [Hd _]%H5. eauto.
Qed.

Lemma insert_adjacency_before oc t now adj g :
  graph_wf g → graph_before t g → (adj_timestamp adj <= t)%N →
  graph_before t (insert_adjacency oc now adj g).2.
Proof.
  intros Hwf Hg Hadj. pose proof (insert_adjacency_spec oc now adj g Hwf) as Hs.
  destruct (verify_adjacency g adj); try done.
  - destruct Hs as (l & r & _ & _ & Hwf' & ->). pose proof (link_before t l r adj g Hg Hadj).
    destruct (oc && _); [done|]. by apply cleanup_before.
  - by rewrite Hs.
Qed.

(** With no timestamp in the future, overflow checks make no difference. *)
Lemma cleanup_no_panic now g : graph_before now g → cleanup_panics now g = false.
Proof.
  intros [H1 H2]. apply orb_false_iff. split; apply not_true_iff_false; rewrite existsb_exists.
  - intros ([i d] & Hin%list_elem_of_In%elem_of_map_to_list & Hp%N.ltb_lt).
    specialize (H1 _ _ Hin). cbn in *. lia.
  - intros ([k d] & Hin%list_elem_of_In%im_items_get & [_ Hp%N.ltb_lt]%andb_true_iff).
    specialize (H2 _ _ Hin). cbn in *. lia.
Qed.

Lemma insert_adjacency_checked oc now adj g :
  graph_wf g → oc = false ∨ graph_before now g ∧ (adj_timestamp adj <= now)%N →
  insert_adjacency oc now adj g = insert_adjacency false now adj g.
Proof.
  intros Hwf [->|[Hg Hadj]]; [done|]. pose proof (insert_adjacency_spec oc now adj g Hwf) as Hs.
  pose proof (insert_adjacency_spec false now adj g Hwf) as Hs'.
  destruct (verify_adjacency g adj); try done; [|congruence].
  destruct Hs as (l & r & Hl & Hr & _ & ->), Hs' as (l' & r' & Hl' & Hr' & _ & ->).
  assert (l' = l) as -> by congruence. assert (r' = r) as -> by congruence.
  rewrite (cleanup_no_panic now (link l r adj g)), andb_false_r; [done|]. by apply link_before.
Qed.

(** ** Queries *)

(** C7: on a well-formed graph the breadth-first search terminates without
    panicking; it returns a path along signed links that is no longer than any
    other, and [None] only when no path exists. *)
Theorem shortest_path_correct {E} g s t :
  graph_wf g →
  ∃ res, find_shortest_path (E:=E) g s t = Ok res ∧
  match res with
  | Some p => fp_path g s t p ∧ ∀ p', fp_path g s t p' → length p ≤ length p'
  | None => ∀ p', ¬ fp_path g s t p'
  end.
Proof. intros Hwf. destruct (find_shortest_path_spec (E:=E) g s t Hwf) as (res & H & Hs). eauto. Qed.

(** The document an adjacency query returns for one neighbor. *)
Lemma adjacency_document {E} g fp id n :
  graph_wf g → id_to_fp g !! id = Some fp → n ∈ neighbors g id →
  ∃ d nfp, id_to_fp g !! n = Some nfp ∧
    ((left d = fp ∧ right d = nfp) ∨ (left d = nfp ∧ right d = fp)) ∧
    (im_get (id, n) (documents g) = Some d ∨ im_get (n, id) (documents g) = Some d) ∧
    neighbor_document g fp id n = Ok (E:=E) d.
Proof.
  unfold neighbor_document.
  intros Hwf Hid Hn. pose proof Hn as [[d Hd]|[d Hd]]%(wf_adj _ Hwf);
    pose proof (wf_docs _ Hwf _ _ _ Hd) as (Hl & Hr & Hlt & _);
    exists d.
  - exists (right d). assert (left d = fp) by congruence. subst fp.
    split_and!; [done|auto|auto|]. rewrite Hr; cbn. by rewrite Hlt, Hd.
  - exists (left d). assert (right d = fp) by congruence. subst fp.
    split_and!; [done|auto|auto|]. rewrite Hl; cbn.
    rewrite (array_lt_asym _ _ Hlt). by rewrite Hd.
Qed.

Lemma adjacencies_spec {E} g fp :
  graph_wf g →
  match adjacencies (E:=E) g fp with
  | Some o => ∃ docs, o = Ok docs ∧
      ∀ d, d ∈ docs ↔ ∃ k, im_get k (documents g) = Some d ∧ (left d = fp ∨ right d = fp)
  | None => ∀ k d, im_get k (documents g) = Some d → left d ≠ fp ∧ right d ≠ fp
  end.
Proof.
  intros Hwf. unfold adjacencies, graph_id.
  assert (∀ k d, im_get k (documents g) = Some d → left d = fp ∨ right d = fp →
    ∃ id n, fp_to_id g !! fp = Some id ∧ n ∈ neighbors g id ∧ (k = (id, n) ∨ k = (n, id)))
    as Hends.
  { intros [l r] d Hd Hfp. pose proof (wf_docs _ Hwf _ _ _ Hd) as (Hl & Hr & _).
    apply (wf_ids _ Hwf) in Hl, Hr.
    destruct Hfp as [<-|<-]; [exists l, r|exists r, l]; (split_and!; [done| |auto]);
      apply (wf_adj _ Hwf); eauto. }
  destruct (fp_to_id g !! fp) as [id|] eqn:Hid; cbn.
  2: { intros k d Hd. split; intros Hfp; destruct (Hends k d Hd) as (? & ? & [=] & _); auto. }
  destruct (adjacency g !! id) as [s|] eqn:Hadj; cbn.
  2: { assert (neighbors g id = ∅) as Hn by (unfold neighbors; by rewrite Hadj).
       intros k d Hd. split; intros Hfp;
         destruct (Hends k d Hd) as (? & ? & [= <-] & ? & _); auto; set_solver. }
  assert (neighbors g id = s) as <- by (unfold neighbors; by rewrite Hadj).
  pose proof (proj1 (wf_ids _ Hwf _ _) Hid) as Hid'.
  destruct (outcome_mapM_elem (λ n d, (im_get (id, n) (documents g) = Some d ∨
      im_get (n, id) (documents g) = Some d) ∧ (left d = fp ∨ right d = fp))
    (neighbor_document (E:=E) g fp id) (hash_iter (neighbors g id)))
    as (docs & Hdocs & Hin).
  { intros n Hn%elem_of_hash_iter.
    destruct (adjacency_document (E:=E) g fp id n Hwf Hid' Hn) as (d & nfp & _ & ? & Hg & ?).
    exists d. split; [done|]. split; [split; [done|naive_solver]|]. intros d' [[Hg'|Hg'] _];
      destruct Hg as [Hg|Hg]; try congruence;
      pose proof (documents_one_way _ _ _ _ Hwf Hg); congruence. }
  exists docs. split; [done|]. intros d. rewrite Hin. setoid_rewrite elem_of_hash_iter. split.
  - intros (n & _ & [?|?] & ?); eauto.
  - intros (k & Hk & Hfp). destruct (Hends k d Hk Hfp) as (? & n & [= <-] & Hn & Hkn).
    exists n. split; [done|]. split; [|done]. destruct Hkn as [->| ->]; auto.
Qed.

(** [adjacencies] never indexes a missing key: it returns exactly the
    documents of the graph that have the fingerprint at one end, and [None]
    only when there is none. *)
Theorem adjacencies_complete {E} g fp :
  graph_wf g →
  match adjacencies (E:=E) g fp with
  | Some o => ∃ docs, o = Ok docs ∧
      ∀ d, d ∈ docs ↔ ∃ k, im_get k (documents g) = Some d ∧ (left d = fp ∨ right d = fp)
  | None => ∀ k d, im_get k (documents g) = Some d → left d ≠ fp ∧ right d ≠ fp
  end.
Proof. apply adjacencies_spec. Qed.

(** ** Clocks *)

Lemma outdated_future now ts :
  (ts < u64_modulus)%N → (now < ts)%N → (ts - now < u64_modulus - ROUTE_TIMEOUT)%N →
  outdated now ts = true.
Proof.
  intros H1 H2 H3. unfold outdated, u64_sub_wrapping. apply N.ltb_lt.
  apply N.ltb_lt in H2 as H2'. rewrite H2'. unfold ROUTE_TIMEOUT, u64_modulus in *. lia.
Qed.

(** The 64-bit subtraction in [cleanup]: a correctly signed link whose
    timestamp lies even one second in the future of the local clock is accepted
    with [Ok] and dropped at once in a build without overflow checks; in a
    build with them, the insertion aborts the process, provided the two ends'
    identities are up to date. *)
Theorem future_adjacency_dropped now adj g :
  graph_wf g → verify_adjacency g adj = Ok tt →
  (adj_timestamp adj < u64_modulus)%N → (now < adj_timestamp adj)%N →
  (adj_timestamp adj - now < u64_modulus - ROUTE_TIMEOUT)%N →
  (∃ g', insert_adjacency false now adj g = (Ok tt, g') ∧
     ∀ d, doc_at g' (left adj) (right adj) d → False) ∧
  ((∀ fp d, fp = left adj ∨ fp = right adj → identity g fp = Some d →
      outdated now (id_timestamp d) = false) →
   (insert_adjacency true now adj g).1 = Panic).
Proof.
  intros Hwf Hv Hts Hnow Hgap. split.
  - pose proof (insert_adjacency_spec false now adj g Hwf) as Hs. rewrite Hv in Hs.
    destruct Hs as (l & r & Hl & Hr & Hwf' & Hs). eexists. split; [exact Hs|].
    intros d ([l' r'] & Hd & E1 & E2). destruct (cleanup_spec now _ (wf_ids _ Hwf')) as (_ & _ & _ & _ & H5 & _).
    apply H5 in Hd as (Hd & _ & _ & Ho).
    assert (d = adj) as ->; [|rewrite outdated_future in Ho; done].
    apply (documents_key (link l r adj g) l r adj d Hwf'); [cbn; by rewrite im_get_insert, decide_True|].
    by exists (l', r').
  - intros Hfresh. pose proof (insert_adjacency_spec true now adj g Hwf) as Hs. rewrite Hv in Hs.
    destruct Hs as (l & r & Hl & Hr & Hwf' & ->). cbn [andb].
    assert (∀ i fp, fp = left adj ∨ fp = right adj → fp_to_id g !! fp = Some i →
      i ∉ outdated_identities now (link l r adj g)) as Hdead.
    { intros i fp Hfp Hi. rewrite (outdated_identity_iff _ _ _ _ Hwf' Hi).
      intros (d & Hd & Ho). rewrite (Hfresh fp d Hfp Hd) in Ho. done. }
    assert (cleanup_panics now (link l r adj g) = true) as ->; [|done].
    apply orb_true_iff. right. apply existsb_exists. exists ((l, r), adj). split.
    + apply list_elem_of_In, im_items_get. cbn. by rewrite im_get_insert, decide_True.
    + cbn. rewrite !bool_decide_eq_true_2; [|by apply (Hdead r (right adj)); auto|by apply (Hdead l (left adj)); auto].
      cbn. unfold u64_sub_panics. by apply N.ltb_lt.
Qed.

(** The descriptor a node makes for itself is accepted by every graph, and
    looking the node up returns it. *)
Theorem own_identity_accepted `{!PrimitivesLaws P} now isk osk relay g :
  graph_wf g → (unalloc_id g + 1 < u64_modulus)%N →
  let d := IdentityDescriptor_new now isk osk relay in
  ∃ g', insert_identity d g = (Ok tt, g') ∧
    identity g' (fingerprint (public isk)) = Some d ∧ onion_pk d = OnionSecret_public osk.
Proof.
  intros Hwf Hb d. pose proof (insert_identity_spec g d Hwf Hb) as Hs.
  assert (verify (identity_pk d) (id_to_sign d) (sig d) = Ok tt) as Hv by (by apply verify_sign).
  rewrite Hv in Hs. destruct Hs as (g' & ? & _ & ? & _). eauto.
Qed.

End Directory.

(** * Witnesses *)

#[export] Instance wire_bool : Wire bool.
Proof.
  refine (wire_iso (λ b : bool, if b then x01 else x00)
            (λ x, if decide (x = x00) then false else true) _). by intros [].
Defined.

#[export] Instance wire_AdjacencyDescriptor : Wire AdjacencyDescriptor.
Proof.
  refine (wire_iso (A:=array 20 * (array 20 * (list byte * (list byte * N))))
    (λ d, (left d, (right d, (left_sig d, (right_sig d, adj_timestamp d)))))
    (λ p, mkAdjacencyDescriptor p.1 p.2.1 p.2.2.1 p.2.2.2.1 p.2.2.2.2) _). by intros [].
Defined.

#[export] Instance wire_IdentityDescriptor : Wire IdentityDescriptor.
Proof.
  refine (wire_iso (A:=bool * (array 32 * (array 32 * (list byte * N))))
    (λ d, (is_relay d, (identity_pk d, (onion_pk d, (sig d, id_timestamp d)))))
    (λ p, mkIdentityDescriptor p.1 p.2.1 p.2.2.1 p.2.2.2.1 p.2.2.2.2) _). by intros [].
Defined.

(** A network of three relays in a line, and one more identity without links. *)
Definition node_isk (i : byte) : IdentitySecret := array_repeat 32 i.
Definition node_fp (i : byte) : Fingerprint := fingerprint (P:=toy) (public (P:=toy) (node_isk i)).
Definition node_identity (i : byte) (ts : N) : IdentityDescriptor :=
  IdentityDescriptor_new (P:=toy) ts (node_isk i) (Byte.to_N i) true.

(** The document two nodes sign, with the smaller fingerprint on the left. *)
Definition node_link (i j : byte) (ts : N) : AdjacencyDescriptor :=
  let '(i, j) := if array_lt (node_fp i) (node_fp j) then (i, j) else (j, i) in
  let d := mkAdjacencyDescriptor (node_fp i) (node_fp j) [] [] ts in
  mkAdjacencyDescriptor (node_fp i) (node_fp j)
    (sign (P:=toy) (node_isk i) (adj_to_sign d)) (sign (P:=toy) (node_isk j) (adj_to_sign d)) ts.

Definition sample_ops : list graph_op :=
  [OpIdentity (node_identity x01 10000); OpIdentity (node_identity x02 10000);
   OpIdentity (node_identity x03 10000); OpIdentity (node_identity x04 10000);
   OpAdjacency 10005 (node_link x01 x02 10003); OpAdjacency 10005 (node_link x02 x03 10003)].

Definition sample_graph : RelayGraph := (run_ops (graph_apply false) sample_ops graph_new).2.

Lemma sample_ops_ok : Forall op_ok sample_ops.
Proof. repeat constructor; vm_compute; done. Qed.

Lemma sample_graph_wf : graph_wf sample_graph.
Proof.
  destruct (run_ops_refines false [] sample_ops _ _ represents_new) as [[_ H]|[[=] _]];
    [done|apply sample_ops_ok|by split|]. exact (rep_wf _ _ H).
Qed.

Example sample_ops_accepted :
  (run_ops (graph_apply false) sample_ops graph_new).1 =
  [inl (Ok tt); inl (Ok tt); inl (Ok tt); inl (Ok tt); inr (Ok tt); inr (Ok tt)].
Proof. vm_compute. reflexivity. Qed.

(** The same operations and then a link from one second in the future: the
    checked build stops there. *)
Definition future_ops : list graph_op :=
  sample_ops ++ [OpAdjacency 10005 (node_link x01 x03 10006); OpIdentity (node_identity x05 10000)].

Lemma graph_refines_directory_witness :
  ((run_ops (graph_apply true) sample_ops graph_new).1 =
     (run_ops dir_apply sample_ops (mkDirectory ∅ ∅)).1 ∧
   represents (run_ops (graph_apply true) sample_ops graph_new).2
     (run_ops dir_apply sample_ops (mkDirectory ∅ ∅)).2) ∧
  (run_ops (graph_apply false) future_ops graph_new).1 =
    (run_ops dir_apply future_ops (mkDirectory ∅ ∅)).1 ∧
  (run_ops (graph_apply true) future_ops graph_new).1 =
    (run_ops dir_apply sample_ops (mkDirectory ∅ ∅)).1 ++ [inr Panic].
Proof.
  split; [|split; [|vm_compute; reflexivity]].
  - destruct (graph_refines_directory true sample_ops)
      as [H|(_ & before & now & adj & after & op & _ & _ & _ & H)];
      [vm_compute; done|exact sample_ops_ok|exact H|exfalso].
    assert (op_panicked (List.last (run_ops (graph_apply true) sample_ops graph_new).1
      (inr (Ok tt))) = false) as E by (vm_compute; reflexivity).
    rewrite H, List.last_last in E. discriminate.
  - destruct (graph_refines_directory false future_ops) as [[H _]|[[=] _]];
      [vm_compute; done| |exact H].
    apply Forall_app; split; [exact sample_ops_ok|repeat constructor; vm_compute; done].
Defined.

Lemma shortest_path_correct_witness :
  find_shortest_path (E:=unit) sample_graph (node_fp x01) (node_fp x03) =
    Ok (Some [node_fp x01; node_fp x02; node_fp x03]) ∧
  (∀ p', fp_path sample_graph (node_fp x01) (node_fp x03) p' → 3 ≤ length p') ∧
  (∀ p', ¬ fp_path sample_graph (node_fp x01) (node_fp x04) p').
Proof.
  assert (find_shortest_path (E:=unit) sample_graph (node_fp x01) (node_fp x03) =
    Ok (Some [node_fp x01; node_fp x02; node_fp x03])) as H3 by (vm_compute; reflexivity).
  assert (find_shortest_path (E:=unit) sample_graph (node_fp x01) (node_fp x04) = Ok None)
    as H4 by (vm_compute; reflexivity).
  split; [exact H3|].
  destruct (shortest_path_correct (E:=unit) sample_graph (node_fp x01) (node_fp x03)
    sample_graph_wf) as (res & Hr & Hs).
  destruct (shortest_path_correct (E:=unit) sample_graph (node_fp x01) (node_fp x04)
    sample_graph_wf) as (res' & Hr' & Hs').
  rewrite H3 in Hr. rewrite H4 in Hr'. injection Hr as <-. injection Hr' as <-.
  split; [apply Hs|exact Hs'].
Defined.

Lemma adjacencies_complete_witness :
  ∃ docs, adjacencies (E:=unit) sample_graph (node_fp x02) = Some (Ok docs) ∧ length docs = 2 ∧
    ∀ d, d ∈ docs ↔ ∃ k, im_get k (documents sample_graph) = Some d ∧
      (left d = node_fp x02 ∨ right d = node_fp x02).
Proof.
  pose proof (adjacencies_complete (E:=unit) sample_graph (node_fp x02) sample_graph_wf) as H.
  destruct (adjacencies sample_graph (node_fp x02)) as [o|] eqn:Ho.
  - destruct H as (docs & -> & H). exists docs. split; [reflexivity|]. split; [|exact H]. clear H.
    revert Ho. vm_compute. intros [= <-]. reflexivity.
  - exfalso. revert Ho. vm_compute. discriminate.
Defined.

Lemma future_adjacency_dropped_witness :
  (∃ g', insert_adjacency false 10005 (node_link x01 x03 10006) sample_graph = (Ok tt, g') ∧
     ∀ d, doc_at g' (left (node_link x01 x03 10006)) (right (node_link x01 x03 10006)) d → False) ∧
  (insert_adjacency true 10005 (node_link x01 x03 10006) sample_graph).1 = Panic.
Proof.
  destruct (future_adjacency_dropped 10005 (node_link x01 x03 10006) sample_graph sample_graph_wf)
    as [H1 H2]; [vm_compute; reflexivity..|].
  split; [exact H1|]. vm_compute. reflexivity.
Defined.

Lemma own_identity_accepted_witness :
  ∃ g', insert_identity (node_identity x05 10004) sample_graph = (Ok tt, g') ∧
    identity g' (node_fp x05) = Some (node_identity x05 10004) ∧
    onion_pk (node_identity x05 10004) = OnionSecret_public (P:=toy) 5%N.
Proof.
  apply (own_identity_accepted (P:=toy) 10004 (node_isk x05) 5%N true sample_graph sample_graph_wf).
  vm_compute. reflexivity.
Defined.
