(* ===== verification/Daemon.v ===== *)
(** The daemon's shared context and its packet paths: [src/daemon/context.rs],
    [src/daemon/rrb_balance.rs], [src/daemon/peel_forward.rs],
    [route_to_instructs] of [src/daemon.rs], [Endpoint] of [src/socket.rs] and
    [SendMessageError] of [src/control_protocol.rs].

    The fields of the context are the [CtxField]s of the source, plus the
    channels behind the sockets and the links, the random generator and the
    clock (a handler runs at one instant). *)

From S2P Require Import Prelude Interfaces Crypto Packet Topology ShortestPath ReplyStore NeighTable.

(** * Endpoints *)

Record Endpoint := Endpoint_new {
  ep_fingerprint : Fingerprint;
  ep_dock : Dock
}.

#[export] Instance Endpoint_eq_dec : EqDecision Endpoint.
Proof. solve_decision. Defined.

#[export] Program Instance Endpoint_countable : Countable Endpoint :=
  inj_countable' (λ e, (ep_fingerprint e, ep_dock e)) (λ p, Endpoint_new p.1 p.2) _.
Next Obligation. by intros []. Qed.

Inductive SendMessageError :=
  | NoRoute (fp : Fingerprint)
  | PacketConstruct (e : PacketConstructError)
  | NoOnionPublic (fp : Fingerprint)
  | ReplyBlockFailed
  | NoAnonId.

(** The ways [peel_forward_loop] fails. *)
Inductive PeelForwardError :=
  | PeelFailed (e : PacketPeelError)
  | NextHopNotFound
  | NoDegarbler
  | DegarbleFailed (e : DecodeError)
  | ReplenishFailed (e : SendMessageError)
  | QueueFull
  | NoSocketListening (dest : Endpoint).

Section Daemon.
  Context {P : Primitives} {IM : IndexMap} {HI : HashIter} {C : Chan} {L : Lru} {MK : Moka}.
  Context {SA : Stdcode AdjacencyDescriptor} {SI : Stdcode IdentityDescriptor}.
  Context {B : Bincode InnerPacket}.

(** * The context *)

(** [socket_recv_queues] maps an endpoint to the sending half of a channel, and
    [links] maps a connection to the channel of its outgoing packets: the
    halves are shared, so both are handles of [sockets] and [links]. *)
Record DaemonContext := mkContext {
  global_identity : IdentitySecret;
  global_onion_sk : OnionSecret;
  relay_graph : RelayGraph;
  anon_dests : ReplyBlockStore;
  neigh_table : NeighTable;
  socket_recv_queues : imap Endpoint N;
  sockets : gmap N (chan (Message * Fingerprint));
  links : gmap N (chan RawPacket);
  degarblers : moka N ReplyDegarbler;
  balance_table : moka (IdentitySecret * Fingerprint) Z;
  onion_sk_cache : moka Fingerprint OnionSecret;
  thread_rng : rng;
  clock : N
}.

Definition set_relay_graph x c := mkContext (global_identity c) (global_onion_sk c) x
  (anon_dests c) (neigh_table c) (socket_recv_queues c) (sockets c) (links c) (degarblers c)
  (balance_table c) (onion_sk_cache c) (thread_rng c) (clock c).
Definition set_anon_dests x c := mkContext (global_identity c) (global_onion_sk c) (relay_graph c)
  x (neigh_table c) (socket_recv_queues c) (sockets c) (links c) (degarblers c)
  (balance_table c) (onion_sk_cache c) (thread_rng c) (clock c).
Definition set_neigh_table x c := mkContext (global_identity c) (global_onion_sk c) (relay_graph c)
  (anon_dests c) x (socket_recv_queues c) (sockets c) (links c) (degarblers c)
  (balance_table c) (onion_sk_cache c) (thread_rng c) (clock c).
Definition set_queues q s c := mkContext (global_identity c) (global_onion_sk c) (relay_graph c)
  (anon_dests c) (neigh_table c) q s (links c) (degarblers c)
  (balance_table c) (onion_sk_cache c) (thread_rng c) (clock c).
Definition set_links x c := mkContext (global_identity c) (global_onion_sk c) (relay_graph c)
  (anon_dests c) (neigh_table c) (socket_recv_queues c) (sockets c) x (degarblers c)
  (balance_table c) (onion_sk_cache c) (thread_rng c) (clock c).
Definition set_degarblers x c := mkContext (global_identity c) (global_onion_sk c) (relay_graph c)
  (anon_dests c) (neigh_table c) (socket_recv_queues c) (sockets c) (links c) x
  (balance_table c) (onion_sk_cache c) (thread_rng c) (clock c).
Definition set_balance_table x c := mkContext (global_identity c) (global_onion_sk c)
  (relay_graph c) (anon_dests c) (neigh_table c) (socket_recv_queues c) (sockets c) (links c)
  (degarblers c) x (onion_sk_cache c) (thread_rng c) (clock c).
Definition set_onion_sk_cache x c := mkContext (global_identity c) (global_onion_sk c)
  (relay_graph c) (anon_dests c) (neigh_table c) (socket_recv_queues c) (sockets c) (links c)
  (degarblers c) (balance_table c) x (thread_rng c) (clock c).
Definition set_rng x c := mkContext (global_identity c) (global_onion_sk c)
  (relay_graph c) (anon_dests c) (neigh_table c) (socket_recv_queues c) (sockets c) (links c)
  (degarblers c) (balance_table c) (onion_sk_cache c) x (clock c).

Definition DEGARBLER_TTL : N := 60.
Definition BALANCE_TTL : N := 60.
Definition ONION_SK_CAPACITY : N := 100000.

(** The context of a daemon that has just started with this identity. *)
Definition context_new (isk : IdentitySecret) (osk : OnionSecret) (r : rng) (now : N)
    : DaemonContext :=
  mkContext isk osk graph_new ReplyBlockStore_new NeighTable_new im_empty ∅ ∅
    (moka_new None (Some DEGARBLER_TTL)) (moka_new None (Some BALANCE_TTL))
    (moka_new (Some ONION_SK_CAPACITY) None) r now.

Definition with_rng {E A} (m : Rand E A) : M DaemonContext E A := zoom thread_rng set_rng m.

Definition my_fingerprint (ctx : DaemonContext) : Fingerprint :=
  fingerprint (public (global_identity ctx)).

(** * Routes *)

Definition route_to_instructs (route : list Fingerprint) (relay_graph : RelayGraph)
    : outcome SendMessageError (list ForwardInstruction) :=
  outcome_mapM (λ '(this, next),
    descr ← ok_or (NoOnionPublic this) (identity relay_graph this);
    Ok (mkForwardInstruction (onion_pk descr) next)) (windows2 route).

(** The shortest path, or [NoRoute] to [dst]. *)
Definition find_route (ctx : DaemonContext) (from to dst : Fingerprint)
    : outcome SendMessageError (list Fingerprint) :=
  route ← find_shortest_path (relay_graph ctx) from to;
  ok_or (NoRoute dst) route.

Definition inject {E} (pkt : RawPacket) : M DaemonContext E unit :=
  modify (λ ctx, set_neigh_table (inject_asif_incoming pkt (neigh_table ctx)) ctx).

(** * Reply blocks *)

(** [ONION_SK_CACHE.get_with(fp, || OnionSecret::generate())]. *)
Definition cached_onion_sk {E} (fp : Fingerprint) : M DaemonContext E OnionSecret :=
  ctx ← get_state;
  match moka_get (clock ctx) fp (onion_sk_cache ctx) with
  | Some osk => mret osk
  | None =>
      osk ← with_rng OnionSecret_generate;
      _ ← modify (λ ctx, set_onion_sk_cache
                           (moka_insert (clock ctx) fp osk (onion_sk_cache ctx)) ctx);
      mret osk
  end.

(** The loop that makes [count] reply blocks and remembers their degarblers. *)
Fixpoint make_reply_blocks (count : nat) (reverse_instructs : list ForwardInstruction)
    (my_anon_osk : OnionSecret) (my_anon_isk : IdentitySecret)
    : M DaemonContext SendMessageError (list ReplyBlock) :=
  match count with
  | O => mret []
  | S count =>
      ctx ← get_state;
      '(rb, (id, degarbler)) ← map_err_m (λ _, ReplyBlockFailed)
        (with_rng (ReplyBlock_new reverse_instructs (OnionSecret_public (global_onion_sk ctx))
                     my_anon_osk my_anon_isk));
      _ ← modify (λ ctx, set_degarblers
                           (moka_insert (clock ctx) id degarbler (degarblers ctx)) ctx);
      rbs ← make_reply_blocks count reverse_instructs my_anon_osk my_anon_isk;
      mret (rb :: rbs)
  end.

Definition send_reply_blocks (count : nat) (my_anon_isk : IdentitySecret) (dst_fp : Fingerprint)
    : M DaemonContext SendMessageError unit :=
  my_anon_osk ← cached_onion_sk (fingerprint (public my_anon_isk));
  ctx ← get_state;
  route ← lift (find_route ctx (my_fingerprint ctx) dst_fp dst_fp);
  their ← lift (ok_or (NoOnionPublic dst_fp) (identity (relay_graph ctx) dst_fp));
  instructs ← lift (route_to_instructs route (relay_graph ctx));
  reverse_route ← lift (find_route ctx dst_fp (my_fingerprint ctx) dst_fp);
  reverse_instructs ← lift (route_to_instructs reverse_route (relay_graph ctx));
  rbs ← make_reply_blocks count reverse_instructs my_anon_osk my_anon_isk;
  wrapped_rb_onion ← map_err_m PacketConstruct
    (with_rng (new_normal instructs (onion_pk their) (IReplyBlocks rbs) my_anon_isk));
  inject wrapped_rb_onion.

(** ** The balance of reply blocks, an [f64] that only takes integer values *)

Definition BATCH_SIZE : nat := 10.

Definition rb_balance {E} (my_anon_isk : IdentitySecret) (reply_source : Fingerprint)
    : M DaemonContext E Z := λ ctx,
  let '(b, table) := moka_get_with (clock ctx) (my_anon_isk, reply_source) 0%Z
                       (balance_table ctx) in
  (Ok b, set_balance_table table ctx).

Definition set_balance {E} (my_anon_isk : IdentitySecret) (fp : Fingerprint) (b : Z)
    : M DaemonContext E unit :=
  modify (λ ctx, set_balance_table
                   (moka_insert (clock ctx) (my_anon_isk, fp) b (balance_table ctx)) ctx).

Fixpoint replenish_loop (fuel : nat) (my_anon_isk : IdentitySecret) (dst_fp : Fingerprint)
    : M DaemonContext SendMessageError unit :=
  match fuel with
  | O => lift OutOfFuel
  | S fuel =>
      b ← rb_balance my_anon_isk dst_fp;
      if (b <? 100)%Z then
        _ ← send_reply_blocks BATCH_SIZE my_anon_isk dst_fp;
        b' ← rb_balance my_anon_isk dst_fp;
        _ ← set_balance my_anon_isk dst_fp (b' + Z.of_nat (BATCH_SIZE / 2))%Z;
        replenish_loop fuel my_anon_isk dst_fp
      else mret tt
  end.

(** The loop runs at most once per missing unit of balance. *)
Definition replenish_rrb (my_anon_isk : IdentitySecret) (dst_fp : Fingerprint)
    : M DaemonContext SendMessageError unit :=
  ctx ← get_state;
  let b := default 0%Z (moka_get (clock ctx) (my_anon_isk, dst_fp) (balance_table ctx)) in
  replenish_loop (S (Z.to_nat (100 - b))) my_anon_isk dst_fp.

Definition decrement_rrb_balance {E} (my_anon_isk : IdentitySecret) (reply_source : Fingerprint)
    : M DaemonContext E unit :=
  new_balance ← rb_balance my_anon_isk reply_source;
  set_balance my_anon_isk reply_source (new_balance - 1)%Z.

(** * Sending *)

(** [ctx.get(ANON_DESTS).lock().pop(&dst_fp)]. *)
Definition pop_reply_block {E} (dst_fp : Fingerprint) : M DaemonContext E (option ReplyBlock) :=
  λ ctx, let '(o, s) := store_pop dst_fp (anon_dests ctx) in (Ok o, set_anon_dests s ctx).

Definition send_n2r (src_idsk : IdentitySecret) (src_dock : Dock) (dst_fp : Fingerprint)
    (dst_dock : Dock) (content : list (list byte)) : M DaemonContext SendMessageError unit :=
  ctx ← get_state;
  let src_anon := bool_decide (src_idsk ≠ global_identity ctx) in
  maybe_reply_block ← pop_reply_block dst_fp;
  match maybe_reply_block with
  | Some reply_block =>
      if src_anon then throw NoAnonId
      else
        let inner := IMessage (mkMessage src_dock dst_dock content) in
        raw_packet ← lift (map_err PacketConstruct (new_reply reply_block inner src_idsk));
        inject raw_packet
  | None =>
      route ← lift (find_route ctx (my_fingerprint ctx) dst_fp dst_fp);
      instructs ← lift (route_to_instructs route (relay_graph ctx));
      their ← lift (ok_or (NoOnionPublic dst_fp) (identity (relay_graph ctx) dst_fp));
      wrapped_onion ← map_err_m PacketConstruct
        (with_rng (new_normal instructs (onion_pk their)
                     (IMessage (mkMessage src_dock dst_dock content)) src_idsk));
      _ ← (if src_anon then replenish_rrb src_idsk dst_fp else mret tt);
      inject wrapped_onion
  end.

(** * Receiving *)

Definition process_inner_pkt (inner : InnerPacket) (src_fp dest_fp : Fingerprint)
    : M DaemonContext PeelForwardError unit :=
  match inner with
  | IMessage msg =>
      let dest := Endpoint_new dest_fp (dest_dock msg) in
      ctx ← get_state;
      match im_get dest (socket_recv_queues ctx) with
      | Some send_incoming =>
          match sockets ctx !! send_incoming ≫= chan_try_send (msg, src_fp) with
          | Some c => put_state (set_queues (socket_recv_queues ctx)
                                   (<[send_incoming := c]> (sockets ctx)) ctx)
          | None => throw QueueFull
          end
      | None => throw (NoSocketListening dest)
      end
  | IReplyBlocks reply_blocks =>
      modify (λ ctx, set_anon_dests
                (for_each (store_insert src_fp) reply_blocks (anon_dests ctx)) ctx)
  end.

(** [LinkConnection::send_raw_packet]: dropped when the link's queue is full. *)
Definition send_raw_packet {E} (conn : LinkConnection) (pkt : RawPacket)
    : M DaemonContext E unit :=
  modify (λ ctx, match links ctx !! conn_handle conn ≫= chan_try_send pkt with
                 | Some c => set_links (<[conn_handle conn := c]> (links ctx)) ctx
                 | None => ctx
                 end).

(** [ctx.get(DEGARBLERS).remove(&id)]. *)
Definition take_degarbler {E} (id : N) : M DaemonContext E (option ReplyDegarbler) := λ ctx,
  let '(o, d) := moka_remove (clock ctx) id (degarblers ctx) in (Ok o, set_degarblers d ctx).

(** The body of [peel_forward_loop] for a packet [pkt]. *)
Definition handle_packet (pkt : RawPacket) : M DaemonContext PeelForwardError unit :=
  ctx ← get_state;
  peeled ← lift (map_err PeelFailed (peel pkt (global_onion_sk ctx)));
  match peeled with
  | Forward next_hop inner =>
      conn ← lift (ok_or NextHopNotFound (neigh_lookup next_hop (neigh_table ctx)));
      send_raw_packet conn inner
  | Received src_fp inner => process_inner_pkt inner src_fp (my_fingerprint ctx)
  | GarbledReply id pkt =>
      o ← take_degarbler id;
      reply_degarbler ← lift (ok_or NoDegarbler o);
      '(inner, src_fp) ← lift (map_err DegarbleFailed (degarble reply_degarbler pkt));
      _ ← decrement_rrb_balance (my_anon_isk reply_degarbler) src_fp;
      _ ← map_err_m ReplenishFailed (replenish_rrb (my_anon_isk reply_degarbler) src_fp);
      process_inner_pkt inner src_fp (fingerprint (public (my_anon_isk reply_degarbler)))
  end.

(** One iteration of [peel_forward_loop]; [None] while it waits for a packet.
    On [Err] the task is respawned at once, with the context as it is. *)
Definition peel_forward_step (ctx : DaemonContext)
    : option (outcome PeelForwardError unit * DaemonContext) :=
  '(pkt, nt) ← recv_raw_packet (neigh_table ctx);
  Some (handle_packet pkt (set_neigh_table nt ctx)).

End Daemon.
