(* ===== verification/DaemonSafety.v ===== *)
(** Safety of the daemon's packet paths.

    [ctx_wf] collects the invariants of the components of the context.  On a
    well-formed context the handlers of [Daemon.v] always return, whatever a
    neighbor, a correspondent or a local client sends, and keep it
    well-formed. *)

From S2P Require Import Prelude Interfaces Crypto Packet OnionRouting Topology ShortestPath.
From S2P Require Import ReplyStore NeighTable Directory Daemon Instances.

Section DaemonSafety.
  Context {P : Primitives} {IM : IndexMap} {HI : HashIter} {C : Chan} {L : Lru} {MK : Moka}.
  Context {SA : Stdcode AdjacencyDescriptor} {SI : Stdcode IdentityDescriptor}.
  Context {B : Bincode InnerPacket}.
  Context {PL : PrimitivesLaws P} {IML : IndexMapLaws IM} {HIL : HashIterLaws HI}.
  Context {CL : ChanLaws C} {LL : LruLaws L} {MKL : MokaLaws MK}.

Record ctx_wf (ctx : DaemonContext) : Prop := {
  ctx_graph : graph_wf (relay_graph ctx);
  ctx_store : store_wf (anon_dests ctx);
  ctx_neigh : neigh_wf (neigh_table ctx);
  ctx_degarblers : moka_unbounded DEGARBLER_TTL (degarblers ctx);
  ctx_balances : moka_unbounded BALANCE_TTL (balance_table ctx)
}.

(** What no packet handler changes. *)
Record frame (c c' : DaemonContext) : Prop := {
  frame_identity : global_identity c' = global_identity c;
  frame_onion : global_onion_sk c' = global_onion_sk c;
  frame_graph : relay_graph c' = relay_graph c;
  frame_queues : socket_recv_queues c' = socket_recv_queues c;
  frame_clock : clock c' = clock c
}.

#[export] Instance frame_preorder : PreOrder frame.
Proof.
  split; [by intros c; split|]. intros c1 c2 c3 [] []. split; congruence.
Qed.

Lemma context_new_wf isk osk r now : ctx_wf (context_new isk osk r now).
Proof.
  split; cbn.
  - apply graph_new_wf.
  - apply store_new_wf.
  - apply NeighTable_new_wf.
  - apply moka_new_unbounded.
  - apply moka_new_unbounded.
Qed.

(** The state an operation may leave: well-formed, with the frame kept. *)
Definition post (c c' : DaemonContext) : Prop := ctx_wf c' ∧ frame c c'.

(** Also the balance of reply blocks is untouched. *)
Definition post_bal (c c' : DaemonContext) : Prop :=
  post c c' ∧ balance_table c' = balance_table c.

Lemma post_refl c : ctx_wf c → post c c.
Proof. intros; split; done. Qed.
Lemma post_trans c1 c2 c3 : post c1 c2 → post c2 c3 → post c1 c3.
Proof. intros [_ ?] [? ?]. split; [done|by etrans]. Qed.
Lemma post_bal_refl c : ctx_wf c → post_bal c c.
Proof. intros; split; [by apply post_refl|done]. Qed.
Lemma post_bal_trans c1 c2 c3 : post_bal c1 c2 → post_bal c2 c3 → post_bal c1 c3.
Proof. intros [? ?] [? ?]. split; [by eapply post_trans|congruence]. Qed.

(** ** Updates of one field *)

Ltac field_update :=
  intros; match goal with H : ctx_wf _ |- _ => destruct H end;
  unfold post_bal; split_and?; try split; try split; cbn; try done.

Lemma post_set_rng c r : ctx_wf c → post_bal c (set_rng r c).
Proof. field_update. Qed.

Lemma post_set_onion_sk_cache c x : ctx_wf c → post_bal c (set_onion_sk_cache x c).
Proof. field_update. Qed.

Lemma post_set_links c x : ctx_wf c → post_bal c (set_links x c).
Proof. field_update. Qed.

Lemma post_set_degarblers c x :
  ctx_wf c → moka_unbounded DEGARBLER_TTL x → post_bal c (set_degarblers x c).
Proof. field_update. Qed.

Lemma post_set_anon_dests c x : ctx_wf c → store_wf x → post_bal c (set_anon_dests x c).
Proof. field_update. Qed.

Lemma post_set_neigh_table c x : ctx_wf c → neigh_wf x → post_bal c (set_neigh_table x c).
Proof. field_update. Qed.

Lemma post_inject c pkt :
  ctx_wf c → post_bal c (set_neigh_table (inject_asif_incoming pkt (neigh_table c)) c).
Proof. intros Hwf. apply post_set_neigh_table; [done|]. apply enqueue_spec, Hwf. Qed.

Lemma post_set_balance c x :
  ctx_wf c → moka_unbounded BALANCE_TTL x → post c (set_balance_table x c).
Proof. field_update. Qed.

(** ** Reply blocks *)

Lemma find_route_returns c a b dst : ctx_wf c → returns (find_route c a b dst).
Proof.
  intros Hwf. unfold find_route.
  destruct (find_shortest_path_spec (E:=SendMessageError) (relay_graph c) a b (ctx_graph _ Hwf))
    as (res & -> & _).
  apply returns_ok_or.
Qed.

Lemma route_to_instructs_returns route g : returns (route_to_instructs route g).
Proof.
  apply returns_mapM. intros [this next]. apply returns_bind; [apply returns_ok_or|done].
Qed.

Lemma wp_with_rng {E A} (m : Rand E A) (Q : A → DaemonContext → Prop) R c :
  (∀ r, returns (m r).1) → (∀ a r, Q a (set_rng r c)) → (∀ r, R (set_rng r c)) →
  wp (with_rng m) Q R c.
Proof. intros Hm HQ HR. apply wp_zoom; auto. Qed.

Lemma cached_onion_sk_safe {E} fp c :
  ctx_wf c → wp (E:=E) (cached_onion_sk fp) (λ _ c', post_bal c c') (λ _, False) c.
Proof.
  intros Hwf. apply wp_bind, wp_get. destruct (moka_get _ _ _); [by apply wp_ret, post_bal_refl|].
  apply wp_bind. unfold with_rng, OnionSecret_generate, zoom, sample, wp at 1.
  destruct (random_from_rng (thread_rng c)) as [osk r].
  apply wp_bind, wp_modify, wp_ret.
  destruct (post_set_rng c r Hwf) as [[Hwf' ?] ?]. eapply post_bal_trans; [by apply post_set_rng|].
  by apply post_set_onion_sk_cache.
Qed.

Lemma make_reply_blocks_safe count ri osk isk c :
  ctx_wf c →
  wp (make_reply_blocks count ri osk isk) (λ _ c', post_bal c c') (λ c', post_bal c c') c.
Proof.
  revert c. induction count as [|count IH]; intros c Hwf; cbn [make_reply_blocks].
  { by apply wp_ret, post_bal_refl. }
  apply wp_bind, wp_get, wp_bind, wp_map_err, wp_with_rng.
  - intros r. apply ReplyBlock_new_returns.
  - intros [rb [id dg]] r. apply wp_bind, wp_modify, wp_bind.
    assert (post_bal c (set_rng r c)) as H1 by (by apply post_set_rng).
    set (c1 := set_rng r c) in *.
    assert (post_bal c1 (set_degarblers (moka_insert (clock c1) id dg (degarblers c1)) c1)) as H2.
    { apply post_set_degarblers; [apply H1|]. apply moka_insert_unbounded, H1. }
    eapply wp_mono; [apply IH, H2| |]; cbn; intros;
      (eapply post_bal_trans; [exact H1|]); (eapply post_bal_trans; [exact H2|done]).
  - intros r. by apply post_set_rng.
Qed.

Lemma send_reply_blocks_safe count isk dst c :
  ctx_wf c →
  wp (send_reply_blocks count isk dst) (λ _ c', post_bal c c') (λ c', post_bal c c') c.
Proof.
  intros Hwf. unfold send_reply_blocks. apply wp_bind.
  eapply wp_mono; [by apply cached_onion_sk_safe| |done]. cbn. intros osk c1 H1.
  pose proof H1 as [[Hwf1 _] _]. apply wp_bind, wp_get.
  apply wp_bind, wp_lift; [by apply find_route_returns| |done]. intros route _.
  apply wp_bind, wp_lift; [apply returns_ok_or| |done]. intros their _.
  apply wp_bind, wp_lift; [apply route_to_instructs_returns| |done]. intros ins _.
  apply wp_bind, wp_lift; [by apply find_route_returns| |done]. intros rroute _.
  apply wp_bind, wp_lift; [apply route_to_instructs_returns| |done]. intros rins _.
  apply wp_bind. eapply wp_mono; [by apply make_reply_blocks_safe| |].
  - cbn. intros rbs c2 H2. apply wp_bind, wp_map_err, wp_with_rng.
    + intros r. apply new_normal_returns.
    + intros pkt r. apply wp_modify.
      assert (post_bal c2 (set_rng r c2)) as H3 by (apply post_set_rng, H2).
      eapply post_bal_trans; [exact H1|]. eapply post_bal_trans; [exact H2|].
      eapply post_bal_trans; [exact H3|]. apply post_inject, H3.
    + intros r. eapply post_bal_trans; [exact H1|]. eapply post_bal_trans; [exact H2|].
      apply post_set_rng, H2.
  - cbn. intros c2 H2. by eapply post_bal_trans.
Qed.

(** ** The balance *)

(** The balance as a lookup returns it. *)
Definition balance (isk : IdentitySecret) (fp : Fingerprint) (c : DaemonContext) : Z :=
  default 0%Z (moka_get (clock c) (isk, fp) (balance_table c)).

Lemma rb_balance_safe {E} isk fp c (Q : Z → DaemonContext → Prop) R :
  ctx_wf c →
  (∀ c', post c c' → balance isk fp c' = balance isk fp c → Q (balance isk fp c) c') →
  wp (E:=E) (rb_balance isk fp) Q R c.
Proof.
  intros Hwf HQ. unfold wp, rb_balance.
  destruct (moka_get_with (clock c) (isk, fp) 0%Z (balance_table c)) as [b t] eqn:Hg.
  apply moka_get_with_spec with (ttl:=BALANCE_TTL) in Hg as (-> & Hu & Hget & _);
    [|apply Hwf|done].
  apply HQ; [by apply post_set_balance|]. unfold balance; cbn. by rewrite Hget.
Qed.

Lemma set_balance_safe {E} isk fp b c (Q : unit → DaemonContext → Prop) R :
  ctx_wf c →
  (∀ c', post c c' → balance isk fp c' = b → Q tt c') →
  wp (E:=E) (set_balance isk fp b) Q R c.
Proof.
  intros Hwf HQ. apply wp_modify, HQ.
  - apply post_set_balance; [done|]. apply moka_insert_unbounded, Hwf.
  - unfold balance; cbn. by rewrite (moka_insert_live BALANCE_TTL) by (apply Hwf || (unfold BALANCE_TTL; lia)).
Qed.

Lemma balance_frame isk fp c c' : post_bal c c' → balance isk fp c' = balance isk fp c.
Proof. intros [[_ Hf] Hb]. unfold balance. by rewrite Hb, (frame_clock _ _ Hf). Qed.

(** The loop ends within its fuel, with a balance of at least 100. *)
Lemma replenish_loop_safe fuel isk fp c :
  ctx_wf c → Z.to_nat (100 - balance isk fp c) < fuel →
  wp (replenish_loop fuel isk fp)
    (λ _ c', post c c' ∧ (100 <= balance isk fp c')%Z) (λ c', post c c') c.
Proof.
  revert c. induction fuel as [|fuel IH]; intros c Hwf Hf; [lia|]. cbn [replenish_loop].
  apply wp_bind, rb_balance_safe; [done|]. intros c1 H1 Hb1.
  destruct (balance isk fp c <? 100)%Z eqn:Hlt.
  - apply Z.ltb_lt in Hlt. apply wp_bind.
    eapply wp_mono; [apply send_reply_blocks_safe, H1| |].
    + cbn. intros _ c2 H2. apply wp_bind, rb_balance_safe; [apply H2|]. intros c3 H3 Hb3.
      rewrite (balance_frame _ _ _ _ H2), Hb1 in Hb3. rewrite (balance_frame _ _ _ _ H2), Hb1.
      apply wp_bind, set_balance_safe; [apply H3|]. intros c4 H4 Hb4.
      pose proof (proj1 H2) as H2'.
      assert (post c c4) as H by eauto using post_trans.
      change (Z.of_nat (BATCH_SIZE / 2)) with 5%Z in Hb4.
      eapply wp_mono; [apply IH; [apply H|lia]| |].
      * cbn. intros _ c5 [? ?]. split; [by eapply post_trans|done].
      * cbn. intros c5 ?. by eapply post_trans.
    + cbn. intros c2 [H2 _]. by eapply post_trans.
  - apply Z.ltb_ge in Hlt. apply wp_ret. split; [done|]. by rewrite Hb1.
Qed.

Lemma replenish_rrb_safe isk fp c :
  ctx_wf c →
  wp (replenish_rrb isk fp)
    (λ _ c', post c c' ∧ (100 <= balance isk fp c')%Z) (λ c', post c c') c.
Proof.
  intros Hwf. unfold replenish_rrb. apply wp_bind, wp_get.
  apply replenish_loop_safe; [done|]. unfold balance. lia.
Qed.

Lemma decrement_safe {E} isk fp c :
  ctx_wf c →
  wp (E:=E) (decrement_rrb_balance isk fp)
    (λ _ c', post c c' ∧ balance isk fp c' = (balance isk fp c - 1)%Z) (λ _, False) c.
Proof.
  intros Hwf. apply wp_bind, rb_balance_safe; [done|]. intros c1 H1 _.
  apply set_balance_safe; [apply H1|]. intros c2 H2 Hb. split; [by eapply post_trans|done].
Qed.

(** ** The handlers *)

Lemma for_each_store_insert_wf fp rbs s :
  store_wf s → store_wf (for_each (store_insert fp) rbs s).
Proof. revert s. induction rbs as [|rb rbs IH]; intros s Hs; cbn; auto using store_insert_wf. Qed.

Lemma process_inner_pkt_safe inner src dest c :
  ctx_wf c → wp (process_inner_pkt inner src dest) (λ _ c', post c c') (λ c', post c c') c.
Proof.
  intros Hwf. destruct inner as [msg|rbs]; cbn [process_inner_pkt].
  - apply wp_bind, wp_get. destruct (im_get _ _) as [h|]; [|by apply wp_throw, post_refl].
    destruct (_ ≫= _) as [ch|]; [|by apply wp_throw, post_refl].
    apply wp_put. split; [destruct Hwf; by split|by split].
  - apply wp_modify. eapply proj1, post_set_anon_dests; [done|].
    apply for_each_store_insert_wf, Hwf.
Qed.

Lemma send_raw_packet_safe {E} conn pkt c :
  ctx_wf c → wp (E:=E) (send_raw_packet conn pkt) (λ _ c', post c c') (λ c', post c c') c.
Proof.
  intros Hwf. apply wp_modify. destruct (_ ≫= _); [|by apply post_refl].
  by apply post_set_links.
Qed.

Lemma take_degarbler_safe {E} id c :
  ctx_wf c → wp (E:=E) (take_degarbler id) (λ _ c', post c c') (λ _, False) c.
Proof.
  intros Hwf. unfold wp, take_degarbler.
  pose proof (moka_remove_unbounded DEGARBLER_TTL (clock c) id (degarblers c)
    (ctx_degarblers _ Hwf)) as Hu.
  destruct (moka_remove _ _ _) as [o d]. by apply post_set_degarblers.
Qed.

Lemma handle_packet_safe pkt c :
  ctx_wf c → wp (handle_packet pkt) (λ _ c', post c c') (λ c', post c c') c.
Proof.
  intros Hwf. apply wp_bind, wp_get, wp_bind.
  apply wp_lift; [apply returns_map_err, peel_returns| |by apply post_refl].
  intros [next inner|src inner|id garbled] _.
  - apply wp_bind, wp_lift; [apply returns_ok_or| |by apply post_refl]. intros conn _.
    by apply send_raw_packet_safe.
  - by apply process_inner_pkt_safe.
  - apply wp_bind. eapply wp_mono; [by apply take_degarbler_safe| |done]. cbn. intros o c1 H1.
    apply wp_bind, wp_lift; [apply returns_ok_or| |done]. intros dg _.
    apply wp_bind, wp_lift; [apply returns_map_err, decode_returns| |done]. intros [inner src] _.
    apply wp_bind. eapply wp_mono; [apply decrement_safe, H1| |done]. cbn. intros _ c2 [H2 _].
    apply wp_bind, wp_map_err. eapply wp_mono; [apply replenish_rrb_safe, H2| |].
    + cbn. intros _ c3 [H3 _]. eapply wp_mono; [apply process_inner_pkt_safe, H3| |]; cbn;
        eauto using post_trans.
    + cbn. eauto using post_trans.
Qed.

Lemma pop_reply_block_spec {E} dst c :
  ctx_wf c →
  ∃ s, pop_reply_block (E:=E) dst c = (Ok (last (blocks dst (anon_dests c))), set_anon_dests s c) ∧
    store_wf s ∧
    blocks dst s = take (pred (length (blocks dst (anon_dests c)))) (blocks dst (anon_dests c)) ∧
    ∀ fp, fp ≠ dst → blocks fp s = blocks fp (anon_dests c).
Proof.
  intros Hwf. unfold pop_reply_block.
  destruct (store_pop_spec dst (anon_dests c) (ctx_store _ Hwf)) as (Ho & Hb & Hother).
  pose proof (store_pop_wf dst (anon_dests c) (ctx_store _ Hwf)) as Hs.
  destruct (store_pop dst (anon_dests c)) as [o s]. cbn in *. subst o. eauto.
Qed.

Lemma send_n2r_safe isk sdock dst ddock content c :
  ctx_wf c → wp (send_n2r isk sdock dst ddock content) (λ _ c', post c c') (λ c', post c c') c.
Proof.
  intros Hwf. unfold send_n2r. apply wp_bind, wp_get, wp_bind.
  destruct (pop_reply_block_spec (E:=SendMessageError) dst c Hwf) as (s & Hpop & Hs & _).
  unfold wp at 1. rewrite Hpop.
  assert (post c (set_anon_dests s c)) as H1 by (by apply post_set_anon_dests).
  set (c1 := set_anon_dests s c) in *. destruct (last _) as [rb|].
  - destruct (bool_decide _); [by apply wp_throw|].
    apply wp_bind, wp_lift; [apply returns_map_err, new_reply_returns| |done]. intros pkt _.
    apply wp_modify. eapply post_trans; [done|]. apply post_inject, H1.
  - apply wp_bind, wp_lift; [by apply find_route_returns| |done]. intros route _.
    apply wp_bind, wp_lift; [apply route_to_instructs_returns| |done]. intros ins _.
    apply wp_bind, wp_lift; [apply returns_ok_or| |done]. intros their _.
    apply wp_bind, wp_map_err, wp_with_rng; [intros r; apply new_normal_returns| |].
    + intros pkt r. assert (post c1 (set_rng r c1)) as H2 by (apply post_set_rng, H1).
      apply wp_bind. set (c2 := set_rng r c1) in *. destruct (bool_decide _).
      * eapply wp_mono; [apply replenish_rrb_safe, H2| |]; cbn.
        -- intros _ c3 [H3 _]. eapply post_trans; [by eapply post_trans|].
           eapply post_trans; [done|]. apply post_inject, H3.
        -- intros c3 H3. eapply post_trans; [done|]. by eapply post_trans.
      * apply wp_ret, wp_modify. eapply post_trans; [by eapply post_trans|]. apply post_inject, H2.
    + intros r. eapply post_trans; [done|]. apply post_set_rng, H1.
Qed.

Lemma peel_forward_step_safe c o c' :
  ctx_wf c → peel_forward_step c = Some (o, c') → returns o ∧ ctx_wf c' ∧ frame c c'.
Proof.
  intros Hwf. unfold peel_forward_step.
  pose proof (recv_raw_packet_spec (neigh_table c) (ctx_neigh _ Hwf)) as Hr.
  destruct (pending (neigh_table c)) as [|pkt rest]; [by rewrite Hr|].
  destruct Hr as (nt & -> & Hnt & _). cbn. intros [= Hh].
  destruct (post_set_neigh_table c nt Hwf Hnt) as [Hp _].
  pose proof (handle_packet_safe pkt _ (proj1 Hp)) as Hs. unfold wp in Hs. rewrite Hh in Hs.
  destruct o; try done; (split; [done|]); (eapply post_trans; [exact Hp|exact Hs]).
Qed.

Lemma set_relay_graph_wf c g : ctx_wf c → graph_wf g → ctx_wf (set_relay_graph g c).
Proof. intros []. by split. Qed.

Lemma set_neigh_table_wf c t : ctx_wf c → neigh_wf t → ctx_wf (set_neigh_table t c).
Proof. intros []. by split. Qed.

Lemma task_recv_wf from pkt t : neigh_wf t → neigh_wf (task_recv from pkt t).
Proof. apply (neigh_apply_wf (NTaskRecv from pkt)). Qed.

(** C36: replenishing terminates: on a well-formed context the loop returns,
    and when it succeeds the balance is at least 100. *)
Theorem replenish_terminates isk fp c :
  ctx_wf c →
  returns (replenish_rrb isk fp c).1 ∧ ctx_wf (replenish_rrb isk fp c).2 ∧
  ((replenish_rrb isk fp c).1 = Ok tt → (100 <= balance isk fp (replenish_rrb isk fp c).2)%Z).
Proof.
  intros Hwf. pose proof (replenish_rrb_safe isk fp c Hwf) as Hs. unfold wp in Hs.
  destruct (replenish_rrb isk fp c) as [[] c']; try done; cbn.
  - destruct Hs as [[? _] ?]. done.
  - destruct Hs. done.
Qed.

End DaemonSafety.

(** * Witnesses *)

(** A node that knows itself and a second node it shares a link with. *)
Definition pair_ctx : DaemonContext :=
  set_relay_graph (run_ops (graph_apply false)
      [OpIdentity (node_identity x01 1000); OpIdentity (node_identity x02 1000);
       OpAdjacency 1005 (node_link x01 x02 1003)] graph_new).2
    (context_new (P:=toy) (node_isk x01) 1%N 7%N 1005%N).

Lemma pair_ctx_wf : ctx_wf pair_ctx.
Proof. apply set_relay_graph_wf; [apply context_new_wf|by apply run_ops_wf; [apply graph_new_wf|]]. Qed.

Lemma replenish_terminates_witness :
  returns (replenish_rrb (node_isk x09) (node_fp x02) pair_ctx).1 ∧
  ctx_wf (replenish_rrb (node_isk x09) (node_fp x02) pair_ctx).2 ∧
  ((replenish_rrb (node_isk x09) (node_fp x02) pair_ctx).1 = Ok tt →
   (100 <= balance (node_isk x09) (node_fp x02)
             (replenish_rrb (node_isk x09) (node_fp x02) pair_ctx).2)%Z).
Proof.
  exact (replenish_terminates (P:=toy) (node_isk x09) (node_fp x02) pair_ctx pair_ctx_wf).
Defined.
