(* ===== verification/Socket.v ===== *)
(** N2R sockets: [src/socket/n2r_socket.rs].

    Binding and dropping, receiving with the batches of a message unpacked in
    order, and the batcher that splits the outgoing queue into messages.  The
    two halves of a channel share a handle of [sockets]; a receiver whose
    sender is gone sees an error once its queue is empty. *)

From S2P Require Import Prelude Interfaces Crypto Packet OnionRouting Topology ShortestPath.
From S2P Require Import ReplyStore NeighTable Directory Daemon DaemonSafety Instances.

(** [LIMIT] and [OVERHEAD] of the batcher, and the capacities of the queues. *)
Definition LIMIT : N := 8192.
Definition OVERHEAD : N := 10.
Definition RECV_CAPACITY : N := 1000.
Definition SEND_CAPACITY : N := 10000.

Inductive SocketRecvError := N2rRecvError.

Section Socket.
  Context {P : Primitives} {IM : IndexMap} {HI : HashIter} {C : Chan} {L : Lru} {MK : Moka}.
  Context {SA : Stdcode AdjacencyDescriptor} {SI : Stdcode IdentityDescriptor}.
  Context {B : Bincode InnerPacket}.

(** [incoming_queue] is an unbounded queue, the next element first. *)
Record N2rSocket := mkN2rSocket {
  bound_fp : Fingerprint;
  bound_dock : Dock;
  recv_incoming : N;
  incoming_queue : list (list byte * Endpoint);
  send_outgoing : chan (list byte * Endpoint)
}.

Definition local_endpoint (self : N2rSocket) : Endpoint :=
  Endpoint_new (bound_fp self) (bound_dock self).

(** * Binding *)

(** The loop that draws a dock until it finds one that is free. *)
Fixpoint random_dock {E} (fuel : nat) (fp : Fingerprint) : M DaemonContext E Dock :=
  match fuel with
  | O => lift OutOfFuel
  | S fuel =>
      rand_dock ← with_rng (sample random_u32);
      ctx ← get_state;
      match im_get (Endpoint_new fp rand_dock) (socket_recv_queues ctx) with
      | None => mret rand_dock
      | Some _ => random_dock fuel fp
      end
  end.

Definition bind {E} (fuel : nat) (idsk : IdentitySecret) (dock : option Dock)
    : M DaemonContext E N2rSocket :=
  let our_fingerprint := fingerprint (public idsk) in
  dock ← match dock with
         | Some dock => mret dock
         | None => random_dock fuel our_fingerprint
         end;
  ctx ← get_state;
  let h := fresh (dom (sockets ctx)) in
  _ ← put_state (set_queues (im_insert (Endpoint_new our_fingerprint dock) h (socket_recv_queues ctx))
                   (<[h := chan_bounded RECV_CAPACITY]> (sockets ctx)) ctx);
  mret (mkN2rSocket our_fingerprint dock h [] (chan_bounded SEND_CAPACITY)).

(** [Drop for BoundDock]: whatever queue the endpoint has is removed. *)
Definition drop_socket (self : N2rSocket) (ctx : DaemonContext) : DaemonContext :=
  set_queues (im_remove (local_endpoint self) (socket_recv_queues ctx))
    (delete (recv_incoming self) (sockets ctx)) ctx.

(** * Receiving *)

(** The members of a batch, each with the endpoint it came from. *)
Definition unpack (mf : Message * Fingerprint) : list (list byte * Endpoint) :=
  (λ batch_member, (batch_member, Endpoint_new mf.2 (source_dock mf.1))) <$> body mf.1.

(** [recv_from]: [Ok None] while it has to wait. *)
Fixpoint recv_from (fuel : nat) (st : DaemonContext * N2rSocket)
    : outcome SocketRecvError (option (list byte * Endpoint)) * (DaemonContext * N2rSocket) :=
  let '(ctx, self) := st in
  match fuel with
  | O => (OutOfFuel, st)
  | S fuel =>
      match incoming_queue self with
      | retval :: rest =>
          (Ok (Some retval),
           (ctx, mkN2rSocket (bound_fp self) (bound_dock self) (recv_incoming self) rest
                   (send_outgoing self)))
      | [] =>
          match sockets ctx !! recv_incoming self ≫= chan_try_recv with
          | Some (mf, c) =>
              recv_from fuel
                (set_queues (socket_recv_queues ctx) (<[recv_incoming self := c]> (sockets ctx)) ctx,
                 mkN2rSocket (bound_fp self) (bound_dock self) (recv_incoming self)
                   (incoming_queue self ++ unpack mf) (send_outgoing self))
          | None =>
              if decide (im_get (local_endpoint self) (socket_recv_queues ctx) =
                         Some (recv_incoming self))
              then (Ok None, st) else (Err N2rRecvError, st)
          end
      end
  end.

(** * Sending *)

(** [send_to]: what does not fit in the queue is dropped, and the result is
    always [Ok]. *)
Definition send_to (body : list byte) (endpoint : Endpoint) (self : N2rSocket) : N2rSocket :=
  match chan_try_send (body, endpoint) (send_outgoing self) with
  | Some c => mkN2rSocket (bound_fp self) (bound_dock self) (recv_incoming self)
                (incoming_queue self) c
  | None => self
  end.

(** The inner loop of the batcher: takes messages from the front as long as
    they fit. *)
Fixpoint take_subbatch (current_size : N) (batch : list (list byte))
    : list (list byte) * list (list byte) :=
  match batch with
  | [] => ([], [])
  | first :: rest =>
      let next_size := (current_size + N.of_nat (length first) + OVERHEAD)%N in
      if (LIMIT <? next_size)%N then ([], first :: rest)
      else let '(sub, rest') := take_subbatch next_size rest in (first :: sub, rest')
  end.

(** The loop over one endpoint's batch: [while !batch.is_empty()]. *)
Fixpoint send_batch (fuel : nat) (isk : IdentitySecret) (dock : Dock) (endpoint : Endpoint)
    (batch : list (list byte)) : M DaemonContext SendMessageError unit :=
  match batch with
  | [] => mret tt
  | _ =>
      match fuel with
      | O => lift OutOfFuel
      | S fuel =>
          let '(subbatch, rest) := take_subbatch 0 batch in
          _ ← send_n2r isk dock (ep_fingerprint endpoint) (ep_dock endpoint) subbatch;
          send_batch fuel isk dock endpoint rest
      end
  end.

(** Collects the queued messages per endpoint, in order. *)
Definition collect_batches (queued : list (list byte * Endpoint)) : gmap Endpoint (list (list byte)) :=
  for_each (λ '(msg, dest) batches, <[dest := default [] (batches !! dest) ++ [msg]]> batches)
    queued ∅.

(** One round of the batcher on the messages that were queued. *)
Fixpoint send_batches (isk : IdentitySecret) (dock : Dock)
    (batches : gmap Endpoint (list (list byte))) (endpoints : list Endpoint)
    : M DaemonContext SendMessageError unit :=
  match endpoints with
  | [] => mret tt
  | ep :: endpoints =>
      let batch := default [] (batches !! ep) in
      _ ← send_batch (length batch) isk dock ep batch;
      send_batches isk dock batches endpoints
  end.

Definition send_batcher_round (isk : IdentitySecret) (dock : Dock)
    (queued : list (list byte * Endpoint)) : M DaemonContext SendMessageError unit :=
  let batches := collect_batches queued in
  send_batches isk dock batches (hash_iter (dom batches)).

(** * Properties *)

Context {PL : PrimitivesLaws P} {IML : IndexMapLaws IM} {HIL : HashIterLaws HI}.
Context {CL : ChanLaws C} {LL : LruLaws L} {MKL : MokaLaws MK} {BL : BincodeLaws InnerPacket}.

(** ** Receiving *)

(** All that a socket has still to deliver, in order. *)
Definition undelivered (st : DaemonContext * N2rSocket) : list (list byte * Endpoint) :=
  incoming_queue st.2 ++
  concat (unpack <$> default [] (chan_view <$> sockets st.1 !! recv_incoming st.2)).

Definition queued_messages (st : DaemonContext * N2rSocket) : nat :=
  length (default [] (chan_view <$> sockets st.1 !! recv_incoming st.2)).

Lemma recv_from_spec fuel st :
  S (queued_messages st) ≤ fuel →
  match undelivered st with
  | x :: rest => ∃ st', recv_from fuel st = (Ok (Some x), st') ∧ undelivered st' = rest
  | [] => ∃ st', undelivered st' = [] ∧
      recv_from fuel st =
        (if decide (im_get (local_endpoint st.2) (socket_recv_queues st.1) =
                    Some (recv_incoming st.2))
         then Ok None else Err N2rRecvError, st')
  end.
Proof.
  revert st. induction fuel as [|fuel IH]; intros [ctx [fp dk h q out]] Hf; [lia|].
  unfold undelivered, queued_messages in *. cbn [fst snd incoming_queue recv_incoming] in *.
  cbn [recv_from incoming_queue recv_incoming]. destruct q as [|x q].
  2: { cbn. eexists. split; [done|]. done. }
  destruct (sockets ctx !! h) as [c|] eqn:Hc; cbn [mbind option_bind fmap option_fmap option_map
    default from_option id] in *.
  2: { cbn. eexists (ctx, _). split; [|by case_decide]. cbn. by rewrite Hc. }
  pose proof (chan_try_recv_spec c) as Hr. destruct (chan_view c) as [|mf l] eqn:Hv.
  { rewrite Hr. cbn. eexists (ctx, _). split; [|by case_decide]. cbn. rewrite Hc. cbn. by rewrite Hv. }
  destruct Hr as (c' & -> & Hv' & _).
  specialize (IH (set_queues (socket_recv_queues ctx) (<[h := c']> (sockets ctx)) ctx,
    mkN2rSocket fp dk h ([] ++ unpack mf) out)).
  cbn [fst snd incoming_queue recv_incoming sockets set_queues bound_fp bound_dock send_outgoing
    socket_recv_queues local_endpoint app] in IH.
  rewrite lookup_insert_eq in IH. cbn [fmap option_fmap option_map default from_option id] in IH.
  rewrite Hv' in IH. cbn [length] in Hf. specialize (IH ltac:(lia)).
  cbn [app concat fmap list_fmap]. exact IH.
Qed.

(** ** Batches *)

(** The size the batcher accounts for a list of messages. *)
Definition batch_size (l : list (list byte)) : N :=
  foldr (λ m acc, N.of_nat (length m) + OVERHEAD + acc)%N 0%N l.

Definition small (m : list byte) : Prop := (N.of_nat (length m) + OVERHEAD <= LIMIT)%N.

Lemma take_subbatch_spec size batch sub rest :
  take_subbatch size batch = (sub, rest) →
  sub ++ rest = batch ∧ (size <= LIMIT → size + batch_size sub <= LIMIT)%N.
Proof.
  revert size sub rest. induction batch as [|m batch IH]; intros size sub rest; cbn [take_subbatch].
  { intros [= <- <-]. split; [done|]. cbn. lia. }
  destruct (LIMIT <? _)%N eqn:Hlt.
  { intros [= <- <-]. split; [done|]. cbn. lia. }
  apply N.ltb_ge in Hlt. destruct (take_subbatch _ batch) as [sub' rest'] eqn:Ht.
  intros [= <- <-]. destruct (IH _ _ _ Ht) as [<- Hs]. split; [done|]. intros _.
  specialize (Hs Hlt). cbn [batch_size foldr]. fold (batch_size sub'). lia.
Qed.

Lemma take_subbatch_progress m batch :
  small m → ∃ sub rest, take_subbatch 0 (m :: batch) = (m :: sub, rest).
Proof.
  intros Hs. cbn [take_subbatch]. unfold small in Hs.
  destruct (LIMIT <? _)%N eqn:Hlt; [apply N.ltb_lt in Hlt; lia|].
  destruct (take_subbatch _ batch). eauto.
Qed.

(** Sends the messages one after the other. *)
Fixpoint send_all (isk : IdentitySecret) (dock : Dock) (endpoint : Endpoint)
    (chunks : list (list (list byte))) : M DaemonContext SendMessageError unit :=
  match chunks with
  | [] => mret tt
  | chunk :: chunks =>
      _ ← send_n2r isk dock (ep_fingerprint endpoint) (ep_dock endpoint) chunk;
      send_all isk dock endpoint chunks
  end.

Lemma send_batch_chunks fuel isk dock ep batch :
  Forall small batch → length batch ≤ fuel →
  ∃ chunks, concat chunks = batch ∧ Forall (λ c, c ≠ [] ∧ (batch_size c <= LIMIT)%N) chunks ∧
    ∀ ctx, send_batch fuel isk dock ep batch ctx = send_all isk dock ep chunks ctx.
Proof.
  revert batch. induction fuel as [|fuel IH]; intros batch Hs Hf.
  { destruct batch; [|cbn in Hf; lia]. by exists []. }
  destruct batch as [|m batch]; [by exists []|]. cbn [send_batch].
  inversion_clear Hs as [|? ? Hm Hs'].
  destruct (take_subbatch_progress m batch Hm) as (sub & rest & Ht).
  pose proof (take_subbatch_spec _ _ _ _ Ht) as [Happ Hsize]. rewrite Ht.
  injection Happ as Happ. subst batch. apply Forall_app in Hs' as [_ Hrest].
  destruct (IH rest Hrest) as (chunks & Hc & Hall & Heq).
  { cbn in Hf. rewrite length_app in Hf. lia. }
  exists ((m :: sub) :: chunks). cbn [concat]. rewrite Hc. split_and!; [done| |].
  - constructor; [|done]. split; [done|]. apply Hsize. done.
  - intros ctx. cbn [send_all]. unfold mbind, M_bind.
    destruct (send_n2r _ _ _ _ _ ctx) as [[]]; auto.
Qed.

Lemma take_subbatch_stuck m batch :
  ¬ small m → take_subbatch 0 (m :: batch) = ([], m :: batch).
Proof.
  intros Hs. unfold small in Hs. cbn [take_subbatch].
  destruct (LIMIT <? _)%N eqn:Hlt; [done|]. apply N.ltb_ge in Hlt. lia.
Qed.

Lemma send_batch_stuck fuel isk dock ep m batch ctx :
  ¬ small m → (send_batch fuel isk dock ep (m :: batch) ctx).1 ≠ Ok tt.
Proof.
  intros Hs. revert ctx. induction fuel as [|fuel IH]; intros ctx; cbn [send_batch]; [done|].
  rewrite take_subbatch_stuck by done. unfold mbind, M_bind.
  destruct (send_n2r _ _ _ _ _ ctx) as [[] ctx']; cbn; try done.
Qed.

Lemma collect_batches_spec queued ep :
  default [] (collect_batches queued !! ep) = (filter (λ p, p.2 = ep) queued).*1.
Proof.
  unfold collect_batches.
  set (step := λ '(msg, dest) batches, <[dest := default [] (batches !! dest) ++ [msg]]> batches :
    gmap Endpoint (list (list byte))).
  assert (∀ m, default [] (for_each step queued m !! ep) =
    default [] (m !! ep) ++ (filter (λ p, p.2 = ep) queued).*1) as H.
  { induction queued as [|[msg dest] queued IH]; intros m; cbn [for_each].
    { by rewrite app_nil_r. }
    rewrite IH, filter_cons. cbn. case_decide as E.
    - subst dest. rewrite lookup_insert_eq. cbn. by rewrite <-app_assoc.
    - by rewrite lookup_insert_ne. }
  by rewrite H, lookup_empty.
Qed.

(** ** Theorems *)

(** C23: a socket delivers exactly the members of the queued batches, in order, each
    with the endpoint of its sender: [recv_from] returns the first of them and
    leaves the others, and when there is none it waits (or fails, once no queue
    of the context leads to this socket); empty batches do not make it loop. *)
Theorem recv_from_in_order st :
  match undelivered st with
  | x :: rest => ∃ st', recv_from (S (queued_messages st)) st = (Ok (Some x), st') ∧
      undelivered st' = rest
  | [] => ∃ st', undelivered st' = [] ∧
      recv_from (S (queued_messages st)) st =
        (if decide (im_get (local_endpoint st.2) (socket_recv_queues st.1) =
                    Some (recv_incoming st.2))
         then Ok None else Err N2rRecvError, st')
  end.
Proof. by apply recv_from_spec. Qed.

(** C24: when every message fits in a packet by the batcher's account, the messages
    queued for an endpoint are sent in order, nothing lost or repeated, in
    non-empty subbatches of at most 8192 accounted bytes, and the loop ends. *)
Theorem batches_complete isk dock ep queued :
  Forall (λ p, small p.1) queued →
  ∃ chunks, concat chunks = (filter (λ p, p.2 = ep) queued).*1 ∧
    Forall (λ c, c ≠ [] ∧ (batch_size c <= LIMIT)%N) chunks ∧
    let batch := default [] (collect_batches queued !! ep) in
    ∀ ctx, send_batch (length batch) isk dock ep batch ctx = send_all isk dock ep chunks ctx.
Proof.
  intros Hs. rewrite <-collect_batches_spec. apply send_batch_chunks; [|done].
  rewrite collect_batches_spec. apply Forall_fmap, Forall_forall.
  intros p [_ Hp]%list_elem_of_filter. rewrite Forall_forall in Hs. by apply Hs.
Qed.

(** A message longer than 8182 bytes at the head of a batch blocks the batcher:
    however many rounds it makes (each sends a message with an empty body), the
    loop over the batch never completes. *)
Theorem oversized_message_blocks fuel isk dock ep m batch ctx :
  (8182 < N.of_nat (length m))%N → (send_batch fuel isk dock ep (m :: batch) ctx).1 ≠ Ok tt.
Proof. intros Hm. apply send_batch_stuck. unfold small, LIMIT, OVERHEAD. lia. Qed.

Lemma send_too_big isk sd dst dd content ctx :
  ¬ fits (IMessage (mkMessage sd dd content)) → (send_n2r isk sd dst dd content ctx).1 ≠ Ok tt.
Proof.
  intros Hbig. assert (∀ ins opk r, (new_normal ins opk (IMessage (mkMessage sd dd content)) isk r).1 =
    Err TooManyHops ∨ (new_normal ins opk (IMessage (mkMessage sd dd content)) isk r).1 =
    Err MessageTooBig) as Hnew.
  { intros ins opk r. unfold new_normal, mbind, M_bind. destruct (decide (10 ≤ length ins)).
    - rewrite new_too_many by done. by left.
    - rewrite new_too_big by (done || lia). by right. }
  unfold send_n2r, mbind, M_bind, get_state, lift, pop_reply_block.
  destruct (store_pop dst (anon_dests ctx)) as [[rb|] s].
  - destruct (bool_decide _); [done|]. unfold new_reply. by rewrite encode_too_big.
  - destruct (find_route _ _ _ _) as [route| | |]; try done.
    destruct (route_to_instructs _ _) as [ins| | |]; try done.
    destruct (ok_or _ _) as [their| | |]; try done.
    unfold map_err_m, with_rng, zoom. cbn [thread_rng set_anon_dests].
    specialize (Hnew ins (onion_pk their) (thread_rng ctx)).
    destruct (new_normal _ _ _ _ _) as [o r]. cbn [fst] in Hnew. by destruct Hnew as [->| ->].
Qed.

(** The batcher's limit is above what a packet holds: a message of 8173 to 8182
    bytes passes the batcher's test, but as long as the encoding of a message
    is no shorter than its body, sending it always fails. *)
Theorem batch_limit_above_room isk dock ep m ctx :
  (∀ msg, N.of_nat (length (concat (body msg))) <=
          N.of_nat (length (bincode_serialize (IMessage msg))))%N →
  (8172 < N.of_nat (length m))%N → (N.of_nat (length m) <= 8182)%N →
  take_subbatch 0 [m] = ([m], []) ∧ (send_batch 1 isk dock ep [m] ctx).1 ≠ Ok tt.
Proof.
  intros Hser Hlo Hhi. assert (take_subbatch 0 [m] = ([m], [])) as Ht.
  { cbn [take_subbatch]. unfold LIMIT, OVERHEAD.
    destruct (8192 <? _)%N eqn:E; [apply N.ltb_lt in E; lia|done]. }
  split; [done|]. cbn [send_batch]. rewrite Ht. unfold mbind, M_bind.
  pose proof (send_too_big isk dock (ep_fingerprint ep) (ep_dock ep) [m] ctx) as Hbig.
  destruct (send_n2r _ _ _ _ _ ctx) as [[[]| | |] ctx']; try done. intros _. apply Hbig; [|done].
  unfold fits, payload_room. specialize (Hser (mkMessage dock (ep_dock ep) [m])).
  cbn [body concat] in Hser. rewrite app_nil_r in Hser. lia.
Qed.

(** ** Binding *)

Lemma bind_some {E} fuel idsk dock ctx :
  bind (E:=E) fuel idsk (Some dock) ctx =
  let h := base.fresh (dom (sockets ctx)) in
  (Ok (mkN2rSocket (fingerprint (public idsk)) dock h [] (chan_bounded SEND_CAPACITY)),
   set_queues (im_insert (Endpoint_new (fingerprint (public idsk)) dock) h (socket_recv_queues ctx))
     (<[h := chan_bounded RECV_CAPACITY]> (sockets ctx)) ctx).
Proof. done. Qed.

Lemma unpack_one msg src : concat (unpack <$> [(msg, src)]) = unpack (msg, src).
Proof. cbn. by rewrite app_nil_r. Qed.

(** A freshly bound socket receives what is addressed to it: after a bind, a
    message for the socket's endpoint is accepted, and the socket then
    delivers exactly the members of its body from the sender's endpoint. *)
Theorem bind_then_receive idsk dock ctx src msg :
  dest_dock msg = dock →
  ∃ s ctx1 ctx2, bind (E:=PeelForwardError) 0 idsk (Some dock) ctx = (Ok s, ctx1) ∧
    local_endpoint s = Endpoint_new (fingerprint (public idsk)) dock ∧
    process_inner_pkt (IMessage msg) src (fingerprint (public idsk)) ctx1 = (Ok tt, ctx2) ∧
    undelivered (ctx2, s) =
      (λ b, (b, Endpoint_new src (source_dock msg))) <$> body msg.
Proof.
  intros <-. rewrite bind_some. cbn zeta. set (h := base.fresh _).
  destruct (chan_try_send_ok (msg, src) (chan_bounded RECV_CAPACITY)) as (c & Hs & Hv & _).
  { by rewrite chan_view_bounded, chan_cap_bounded. }
  eexists _, _, _. split; [done|]. split; [done|]. split.
  - unfold process_inner_pkt, mbind, M_bind, get_state. cbn [socket_recv_queues set_queues sockets].
    rewrite im_get_insert, decide_True, lookup_insert_eq by done. cbn. by rewrite Hs.
  - unfold undelivered. cbn. rewrite lookup_insert_eq. cbn.
    rewrite Hv, chan_view_bounded. apply (unpack_one msg src).
Qed.

(** Binding an endpoint twice and dropping the first socket cuts off the second:
    the drop removes the queue of the endpoint, whichever socket owns it, so
    messages for the second socket are refused and its receive fails. *)
Theorem drop_unbinds_other idsk dock ctx src msg :
  dest_dock msg = dock →
  ∃ s1 s2 ctx1 ctx2,
    bind (E:=PeelForwardError) 0 idsk (Some dock) ctx = (Ok s1, ctx1) ∧
    bind (E:=PeelForwardError) 0 idsk (Some dock) ctx1 = (Ok s2, ctx2) ∧
    let ctx3 := drop_socket s1 ctx2 in
    process_inner_pkt (IMessage msg) src (fingerprint (public idsk)) ctx3 =
      (Err (NoSocketListening (local_endpoint s2)), ctx3) ∧
    (recv_from 1 (ctx3, s2)).1 = Err N2rRecvError.
Proof.
  intros <-. rewrite bind_some. cbn zeta. eexists _, _, _, _.
  split; [done|]. rewrite bind_some. cbn zeta. split; [done|]. cbn zeta.
  set (h1 := base.fresh (dom (sockets ctx))). set (h2 := base.fresh _).
  assert (h2 ≠ h1) as Hne.
  { intros E. assert (h2 ∉ dom (<[h1 := chan_bounded RECV_CAPACITY]> (sockets ctx))) as Hf
      by apply is_fresh.
    apply Hf. rewrite E. set_solver. }
  split.
  - unfold process_inner_pkt, mbind, M_bind, get_state, drop_socket.
    cbn [socket_recv_queues set_queues local_endpoint bound_fp bound_dock].
    by rewrite im_get_remove, decide_True.
  - unfold drop_socket. cbn [recv_from sockets set_queues incoming_queue recv_incoming fst
      socket_recv_queues local_endpoint bound_fp bound_dock].
    rewrite lookup_delete_ne, lookup_insert_eq by done. cbn [mbind option_bind].
    pose proof (chan_try_recv_spec (chan_bounded (A:=Message * Fingerprint) RECV_CAPACITY)) as Hr.
    rewrite chan_view_bounded in Hr. rewrite Hr. case_decide as Hg; [|done].
    by rewrite im_get_remove, decide_True in Hg.
Qed.

(** A dock drawn at random is free: binding without a dock never replaces the
    queue of another socket. *)
Theorem random_dock_free {E} fuel fp ctx d ctx' :
  random_dock (E:=E) fuel fp ctx = (Ok d, ctx') →
  im_get (Endpoint_new fp d) (socket_recv_queues ctx) = None ∧ ∃ r, ctx' = set_rng r ctx.
Proof.
  revert ctx. induction fuel as [|fuel IH]; intros ctx; cbn [random_dock]; [done|].
  unfold mbind, M_bind, with_rng, zoom, sample. destruct (random_u32 (thread_rng ctx)) as [rd r].
  cbn [get_state socket_recv_queues set_rng]. unfold get_state.
  destruct (im_get (Endpoint_new fp rd) _) eqn:Hg.
  - intros H. apply IH in H as [H1 [r' ->]]. split; [exact H1|]. by exists r'.
  - cbn. intros [= <- <-]. split; [exact Hg|]. by exists r.
Qed.

End Socket.

(** * Witnesses *)

Definition sock_ctx : DaemonContext (P:=toy) := context_new (node_isk x01) 1%N 7%N 1005%N.
Definition sock_msg : Message := mkMessage 42%N 200%N [[x68]; [x69]].
Definition sock_ep : Endpoint := Endpoint_new (sample_fp x0a) 42%N.

(** A socket with one queued batch of two members. *)
Definition sock_state : DaemonContext (P:=toy) * N2rSocket :=
  (set_queues im_empty (<[1%N := (1000%N, [(sock_msg, sample_fp x0a)])]> ∅) sock_ctx,
   mkN2rSocket (sample_fp x01) 200%N 1%N [] (chan_bounded 1)).

Lemma recv_from_in_order_witness :
  ∃ st', recv_from 2 sock_state = (Ok (Some ([x68], sock_ep)), st') ∧
    undelivered st' = [([x69], sock_ep)].
Proof. exact (recv_from_in_order sock_state). Defined.

Definition sock_queued : list (list byte * Endpoint) :=
  [([x01], sock_ep); (replicate (N.to_nat 8000) x02, sock_ep); (replicate 200 x03, sock_ep)].

Lemma batches_complete_witness :
  ∃ chunks, concat chunks = (filter (λ p, p.2 = sock_ep) sock_queued).*1 ∧
    Forall (λ c, c ≠ [] ∧ (batch_size c <= LIMIT)%N) chunks ∧
    ∀ ctx : DaemonContext (P:=toy),
      send_batch 3 (node_isk x01) 200%N sock_ep
        (default [] (collect_batches sock_queued !! sock_ep)) ctx =
      send_all (node_isk x01) 200%N sock_ep chunks ctx.
Proof.
  apply (batches_complete (P:=toy) (node_isk x01) 200%N sock_ep sock_queued).
  repeat constructor; vm_compute; discriminate.
Defined.

Lemma oversized_message_blocks_witness :
  (send_batch 5 (node_isk x01) 200%N sock_ep [replicate (N.to_nat 8183) x00; [x01]] sock_ctx).1 ≠ Ok tt.
Proof.
  apply (oversized_message_blocks (P:=toy) 5 (node_isk x01) 200%N sock_ep (replicate (N.to_nat 8183) x00)
    [[x01]] sock_ctx).
  vm_compute. reflexivity.
Defined.

Lemma length_wput_bytes (l : list byte) : length l ≤ length (wput l).
Proof.
  cbn [wput wire_list]. rewrite length_app.
  assert (concat (map wput l) = l) as ->; [|lia].
  induction l as [|b l IH]; [done|]. cbn in *. by rewrite IH.
Qed.

Lemma length_wput_bodies (l : list (list byte)) : length (concat l) ≤ length (wput l).
Proof.
  change (wput l) with (wput (N.of_nat (length l)) ++ concat (map wput l)).
  rewrite length_app. assert (length (concat l) ≤ length (concat (map wput l))); [|lia].
  induction l as [|m l IH]; [done|]. cbn [map concat]. rewrite !length_app.
  pose proof (length_wput_bytes m). lia.
Qed.

Lemma length_wput_message (msg : Message) :
  (N.of_nat (length (concat (body msg))) <= N.of_nat (length (bincode_serialize (IMessage msg))))%N.
Proof.
  pose proof (length_wput_bodies (body msg)) as Hb.
  assert (bincode_serialize (IMessage msg) =
    x00 :: (wput (source_dock msg) ++ wput (dest_dock msg) ++ wput (body msg))) as -> by done.
  rewrite length_cons, !length_app. lia.
Qed.

Lemma batch_limit_above_room_witness :
  take_subbatch 0 [replicate (N.to_nat 8180) x00] = ([replicate (N.to_nat 8180) x00], []) ∧
  (send_batch 1 (node_isk x01) 200%N sock_ep [replicate (N.to_nat 8180) x00] sock_ctx).1 ≠ Ok tt.
Proof.
  apply (batch_limit_above_room (P:=toy) (node_isk x01) 200%N sock_ep (replicate (N.to_nat 8180) x00) sock_ctx).
  - exact length_wput_message.
  - vm_compute. reflexivity.
  - vm_compute. discriminate.
Defined.

Lemma bind_then_receive_witness :
  ∃ s ctx1 ctx2, bind (E:=PeelForwardError) 0 (node_isk x01) (Some 200%N) sock_ctx = (Ok s, ctx1) ∧
    local_endpoint s = Endpoint_new (fingerprint (P:=toy) (public (node_isk x01))) 200%N ∧
    process_inner_pkt (IMessage sock_msg) (sample_fp x0a)
      (fingerprint (P:=toy) (public (node_isk x01))) ctx1 = (Ok tt, ctx2) ∧
    undelivered (ctx2, s) = (λ b, (b, Endpoint_new (sample_fp x0a) 42%N)) <$> [[x68]; [x69]].
Proof. exact (bind_then_receive (node_isk x01) 200%N sock_ctx (sample_fp x0a) sock_msg eq_refl). Defined.

Lemma drop_unbinds_other_witness :
  ∃ s1 s2 ctx1 ctx2,
    bind (E:=PeelForwardError) 0 (node_isk x01) (Some 200%N) sock_ctx = (Ok s1, ctx1) ∧
    bind (E:=PeelForwardError) 0 (node_isk x01) (Some 200%N) ctx1 = (Ok s2, ctx2) ∧
    process_inner_pkt (IMessage sock_msg) (sample_fp x0a)
      (fingerprint (P:=toy) (public (node_isk x01))) (drop_socket s1 ctx2) =
      (Err (NoSocketListening (local_endpoint s2)), drop_socket s1 ctx2) ∧
    (recv_from 1 (drop_socket s1 ctx2, s2)).1 = Err N2rRecvError.
Proof. exact (drop_unbinds_other (node_isk x01) 200%N sock_ctx (sample_fp x0a) sock_msg eq_refl). Defined.

(** Dock 7 is taken, so the second draw is used. *)
Definition busy_ctx : DaemonContext (P:=toy) :=
  set_queues (im_insert (Endpoint_new (sample_fp x01) 7%N) 1%N im_empty) ∅ sock_ctx.

Lemma random_dock_free_witness :
  im_get (Endpoint_new (sample_fp x01) 8%N) (socket_recv_queues busy_ctx) = None ∧
  ∃ r, (random_dock (E:=unit) 5 (sample_fp x01) busy_ctx).2 = set_rng r busy_ctx.
Proof.
  apply (random_dock_free (E:=unit) 5 (sample_fp x01) busy_ctx 8%N).
  rewrite (surjective_pairing (random_dock 5 (sample_fp x01) busy_ctx)).
  apply (f_equal2 pair); [vm_compute; reflexivity|reflexivity].
Defined.
