(* ===== verification/DaemonRun.v ===== *)
(** Runs of one daemon from start-up.

    The state is the context of [Daemon.v] with the sockets its applications
    hold; the events are what the outside does to a daemon and what its own
    tasks do: packets of any content, sends, the packet loop, binding, reading
    and dropping sockets, links that come up and carry packets away, what
    gossip learns, a clock that moves, and the collection of expired
    neighbors. *)

From S2P Require Import Prelude Interfaces Crypto Packet OnionRouting Topology ShortestPath.
From S2P Require Import ReplyStore NeighTable Directory Daemon DaemonSafety Socket Instances.

(** [smol::channel::bounded(100)] of [LinkConnection::connect]. *)
Definition LINK_OUT_CAPACITY : N := 100.

Section DaemonRun.
  Context {P : Primitives} {IM : IndexMap} {HI : HashIter} {C : Chan} {L : Lru} {MK : Moka}.
  Context {SA : Stdcode AdjacencyDescriptor} {SI : Stdcode IdentityDescriptor}.
  Context {B : Bincode InnerPacket}.

Record daemon_state := mkDaemon {
  d_ctx : DaemonContext;
  d_sockets : list N2rSocket
}.

Definition set_clock (now : N) (c : DaemonContext) : DaemonContext :=
  mkContext (global_identity c) (global_onion_sk c) (relay_graph c) (anon_dests c) (neigh_table c)
    (socket_recv_queues c) (sockets c) (links c) (degarblers c) (balance_table c)
    (onion_sk_cache c) (thread_rng c) now.

Inductive daemon_event :=
  | EvSend (isk : IdentitySecret) (sdock : Dock) (dst : Fingerprint) (ddock : Dock)
      (content : list (list byte))
  | EvArrive (from : Fingerprint) (pkt : RawPacket)
  | EvPeel
  | EvIdentity (d : IdentityDescriptor)
  | EvAdjacency (adj : AdjacencyDescriptor)
  | EvLink (fp : Fingerprint) (conn : LinkConnection) (ttl : option N)
  | EvLinkUp (h : N)
  | EvBind (isk : IdentitySecret) (dock : option Dock) (draws : nat)
  | EvRecv (i : nat)
  | EvDrop (i : nat)
  | EvClock (now : N)
  | EvGarbageCollect.

Definition run_graph {E A} (m : M RelayGraph E A) (c : DaemonContext) : outcome E A * DaemonContext :=
  zoom relay_graph set_relay_graph m c.

(** A link comes up: its outgoing channel is made, and the table gets the
    connection, pinned or with a time to live. *)
Definition link_up (fp : Fingerprint) (conn : LinkConnection) (ttl : option N) (c : DaemonContext)
    : DaemonContext :=
  let c := set_links (<[conn_handle conn := chan_bounded LINK_OUT_CAPACITY]> (links c)) c in
  set_neigh_table
    (match ttl with
     | Some ttl => neigh_insert (clock c) fp conn ttl (neigh_table c)
     | None => insert_pinned (clock c) fp conn (neigh_table c)
     end) c.

(** The state after an event, or [None] if the process aborts or hangs.  [oc]:
    the build checks arithmetic for overflow.  A bind that draws its dock makes
    [draws] draws in the event; it goes on in a later one if all were taken. *)
Definition daemon_step (oc : bool) (ev : daemon_event) (d : daemon_state) : option daemon_state :=
  let c := d_ctx d in
  let with_ctx c' := Some (mkDaemon c' (d_sockets d)) in
  let alive {E A} (r : outcome E A * DaemonContext) :=
    match r with (Ok _, c') | (Err _, c') => with_ctx c' | _ => None end in
  match ev with
  | EvSend isk sdock dst ddock content => alive (send_n2r isk sdock dst ddock content c)
  | EvArrive from pkt => with_ctx (set_neigh_table (task_recv from pkt (neigh_table c)) c)
  | EvPeel => match peel_forward_step c with Some r => alive r | None => Some d end
  | EvIdentity i => alive (run_graph (insert_identity i) c)
  | EvAdjacency adj => alive (run_graph (insert_adjacency oc (clock c) adj) c)
  | EvLink fp conn ttl => with_ctx (link_up fp conn ttl c)
  | EvLinkUp h =>
      match links c !! h ≫= chan_try_recv with
      | Some (_, ch) => with_ctx (set_links (<[h := ch]> (links c)) c)
      | None => Some d
      end
  | EvBind isk dock draws =>
      match bind (E:=Empty_set) draws isk dock c with
      | (Ok s, c') => Some (mkDaemon c' (d_sockets d ++ [s]))
      | (OutOfFuel, c') => with_ctx c'
      | _ => None
      end
  | EvRecv i =>
      match d_sockets d !! i with
      | Some s =>
          match recv_from (S (queued_messages (c, s))) (c, s) with
          | (Ok _, (c', s')) | (Err _, (c', s')) => Some (mkDaemon c' (<[i := s']> (d_sockets d)))
          | _ => None
          end
      | None => Some d
      end
  | EvDrop i =>
      match d_sockets d !! i with
      | Some s => Some (mkDaemon (drop_socket s c) (delete i (d_sockets d)))
      | None => Some d
      end
  | EvClock now => with_ctx (set_clock now c)
  | EvGarbageCollect => with_ctx (set_neigh_table (garbage_collect (clock c) (neigh_table c)) c)
  end.

Fixpoint daemon_run (oc : bool) (evs : list daemon_event) (d : daemon_state)
    : option daemon_state :=
  match evs with
  | [] => Some d
  | ev :: evs => d' ← daemon_step oc ev d; daemon_run oc evs d'
  end.

Definition daemon_start (isk : IdentitySecret) (osk : OnionSecret) (r : rng) (now : N)
    : daemon_state := mkDaemon (context_new isk osk r now) [].

(** Every link document is learned at a clock no timestamp learned so far is
    ahead of; [latest] is the greatest of them, [now] the clock. *)
Fixpoint timely (latest now : N) (evs : list daemon_event) : bool :=
  match evs with
  | [] => true
  | EvClock now' :: evs => timely latest now' evs
  | EvIdentity d :: evs => timely (N.max latest (id_timestamp d)) now evs
  | EvAdjacency adj :: evs =>
      let latest' := N.max latest (adj_timestamp adj) in
      (latest' <=? now)%N && timely latest' now evs
  | _ :: evs => timely latest now evs
  end.

(** * Properties *)

Context {PL : PrimitivesLaws P} {IML : IndexMapLaws IM} {HIL : HashIterLaws HI}.
Context {CL : ChanLaws C} {LL : LruLaws L} {MKL : MokaLaws MK}.

Lemma set_queues_wf c q s : ctx_wf c → ctx_wf (set_queues q s c).
Proof. intros []. by split. Qed.

Lemma set_clock_wf c now : ctx_wf c → ctx_wf (set_clock now c).
Proof. intros []. by split. Qed.

Lemma link_up_wf fp conn ttl c : ctx_wf c → ctx_wf (link_up fp conn ttl c).
Proof.
  intros Hwf. unfold link_up. apply set_neigh_table_wf; [by apply post_set_links|].
  by destruct ttl; apply Hwf.
Qed.

Lemma random_dock_frame {E} fuel fp c :
  ∃ r, (random_dock (E:=E) fuel fp c).2 = set_rng r c ∧
  match (random_dock (E:=E) fuel fp c).1 with Ok _ | OutOfFuel => True | _ => False end.
Proof.
  revert c. induction fuel as [|fuel IH]; intros c; cbn [random_dock].
  { exists (thread_rng c). split; [by destruct c|done]. }
  unfold mbind, M_bind, with_rng, zoom, sample. destruct (random_u32 (thread_rng c)) as [rd r].
  unfold get_state. destruct (im_get _ _); [|by exists r].
  destruct (IH (set_rng r c)) as (r' & H1 & H2). exists r'. by rewrite H1.
Qed.

Lemma bind_frame {E} fuel isk dock c :
  (∃ q s r, (bind (E:=E) fuel isk dock c).2 = set_queues q s (set_rng r c)) ∧
  match (bind (E:=E) fuel isk dock c).1 with Ok _ | OutOfFuel => True | _ => False end.
Proof.
  unfold bind, mbind, M_bind. destruct dock as [dock|]; cbn.
  - split; [|done]. eexists _, _, (thread_rng c). by destruct c.
  - destruct (random_dock_frame (E:=E) fuel (fingerprint (public isk)) c) as (r & H1 & H2).
    destruct (random_dock fuel _ c) as [[] c']; cbn in H1, H2; subst c'; try done; cbn.
    + split; [|done]. by eexists _, _, r.
    + split; [|done]. exists (socket_recv_queues c), (sockets c), r. by destruct c.
Qed.

Lemma recv_from_frame fuel st :
  ∃ q s, (recv_from fuel st).2.1 = set_queues q s st.1.
Proof.
  revert st. induction fuel as [|fuel IH]; intros [c s]; cbn [recv_from].
  { exists (socket_recv_queues c), (sockets c). by destruct c. }
  destruct (incoming_queue s) as [|x rest].
  - destruct (sockets c !! _ ≫= _) as [[mf ch]|].
    + edestruct IH as (q & s' & H). rewrite H. by exists q, s'.
    + exists (socket_recv_queues c), (sockets c). case_decide; by destruct c.
  - exists (socket_recv_queues c), (sockets c). by destruct c.
Qed.

Lemma recv_from_returns st : returns (recv_from (S (queued_messages st)) st).1.
Proof.
  pose proof (recv_from_spec (S (queued_messages st)) st) as H.
  destruct (undelivered st).
  - destruct H as (st' & _ & ->); [lia|]. by case_decide.
  - destruct H as (st' & -> & _); [lia|]. done.
Qed.

Definition touches_graph (ev : daemon_event) : bool :=
  match ev with EvIdentity _ | EvAdjacency _ => true | _ => false end.

(** The events that do not touch the graph. *)
Lemma daemon_step_frame oc ev d :
  ctx_wf (d_ctx d) → touches_graph ev = false →
  ∃ d', daemon_step oc ev d = Some d' ∧ ctx_wf (d_ctx d') ∧
    relay_graph (d_ctx d') = relay_graph (d_ctx d) ∧
    clock (d_ctx d') = match ev with EvClock now => now | _ => clock (d_ctx d) end.
Proof.
  destruct d as [c ss]. cbn [d_ctx]. intros Hwf Hev.
  destruct ev as [isk sd dst dd content|from pkt| |i|adj|fp conn ttl|h|isk dock draws|i|i|now|];
    cbn [daemon_step d_ctx d_sockets]; try done.
  - pose proof (send_n2r_safe isk sd dst dd content c Hwf) as Hs. unfold wp in Hs.
    destruct (send_n2r _ _ _ _ _ c) as [[] c']; try done;
      destruct Hs as [? [_ _ ? _ ?]]; by eexists.
  - eexists. split_and!; [done| |done..]. by apply set_neigh_table_wf, task_recv_wf, Hwf.
  - destruct (peel_forward_step c) as [[o c']|] eqn:Hp; [|by eexists].
    destruct (peel_forward_step_safe c o c' Hwf Hp) as (Ho & ? & [_ _ ? _ ?]).
    destruct o; try done; by eexists.
  - eexists. split_and!; [done|by apply link_up_wf|done..].
  - destruct (links c !! h ≫= _) as [[pkt ch]|]; [|by eexists].
    eexists. split_and!; [done|by apply post_set_links|done..].
  - destruct (bind_frame (E:=Empty_set) draws isk dock c) as [(q & s & r & Hc) Ho].
    assert (ctx_wf (set_queues q s (set_rng r c))) as Hwf'
      by (apply set_queues_wf; by apply post_set_rng).
    destruct (bind draws isk dock c) as [[] c']; cbn in Hc, Ho; subst c'; try done; by eexists.
  - destruct (ss !! i) as [s|]; [|by eexists].
    destruct (recv_from_frame (S (queued_messages (c, s))) (c, s)) as (q & s' & Hc).
    pose proof (recv_from_returns (c, s)) as Ho.
    pose proof (set_queues_wf c q s' Hwf).
    destruct (recv_from _ (c, s)) as [[] [c' s1]]; cbn in Hc, Ho; subst c'; try done; by eexists.
  - destruct (ss !! i) as [s|]; [|by eexists].
    eexists. split_and!; [done|by apply set_queues_wf|done..].
  - eexists. split_and!; [done|by apply set_clock_wf|done..].
  - eexists. split_and!; [done|by apply set_neigh_table_wf; [|apply Hwf]|done..].
Qed.

(** The events that do: they keep every timestamp at or below [t]. *)
Lemma daemon_step_identity oc i d t :
  ctx_wf (d_ctx d) → (unalloc_id (relay_graph (d_ctx d)) + 1 < u64_modulus)%N →
  graph_before t (relay_graph (d_ctx d)) →
  ∃ d', daemon_step oc (EvIdentity i) d = Some d' ∧ ctx_wf (d_ctx d') ∧
    clock (d_ctx d') = clock (d_ctx d) ∧
    (unalloc_id (relay_graph (d_ctx d')) <= unalloc_id (relay_graph (d_ctx d)) + 1)%N ∧
    graph_before (N.max t (id_timestamp i)) (relay_graph (d_ctx d')).
Proof.
  destruct d as [c ss]. cbn [daemon_step d_ctx d_sockets]. intros Hwf Hb Hg.
  pose proof (insert_identity_spec (relay_graph c) i (ctx_graph _ Hwf) Hb) as Hs.
  assert (graph_before (N.max t (id_timestamp i)) (insert_identity i (relay_graph c)).2) as Hg'.
  { apply insert_identity_before; [|lia]. eapply graph_before_mono; [|done]. lia. }
  unfold run_graph, zoom. destruct (verify _ _ _); try done.
  - destruct Hs as (g' & Hs & Hwf' & _ & _ & Hu). rewrite Hs in Hg' |- *. eexists.
    split_and!; [done|by apply set_relay_graph_wf|done..].
  - rewrite Hs in Hg' |- *. eexists.
    split_and!; [done|apply set_relay_graph_wf; apply Hwf || done|done|cbn; lia|done].
Qed.

Lemma daemon_step_adjacency oc adj d t :
  ctx_wf (d_ctx d) → graph_before t (relay_graph (d_ctx d)) →
  oc = false ∨ (N.max t (adj_timestamp adj) <= clock (d_ctx d))%N →
  ∃ d', daemon_step oc (EvAdjacency adj) d = Some d' ∧ ctx_wf (d_ctx d') ∧
    clock (d_ctx d') = clock (d_ctx d) ∧
    unalloc_id (relay_graph (d_ctx d')) = unalloc_id (relay_graph (d_ctx d)) ∧
    graph_before (N.max t (adj_timestamp adj)) (relay_graph (d_ctx d')).
Proof.
  destruct d as [c ss]. cbn [daemon_step d_ctx d_sockets]. intros Hwf Hg Hoc.
  unfold run_graph, zoom. rewrite (insert_adjacency_checked oc); [|apply Hwf|].
  2: { destruct Hoc as [|Hoc]; [by left|right]. split; [|lia].
       eapply graph_before_mono; [|done]. lia. }
  pose proof (insert_adjacency_spec false (clock c) adj (relay_graph c) (ctx_graph _ Hwf)) as Hs.
  pose proof (unalloc_insert_adjacency false (clock c) adj (relay_graph c) (ctx_graph _ Hwf)) as Hu.
  assert (graph_before (N.max t (adj_timestamp adj))
    (insert_adjacency false (clock c) adj (relay_graph c)).2) as Hg'.
  { apply insert_adjacency_before; [apply Hwf| |lia]. eapply graph_before_mono; [|done]. lia. }
  destruct (verify_adjacency _ _); try done.
  - destruct Hs as (l & r & _ & _ & Hwf' & Hs). rewrite Hs in Hu, Hg' |- *. eexists.
    split_and!; [done|apply set_relay_graph_wf; [done|by apply cleanup_wf]|done..].
  - rewrite Hs in Hg' |- *. eexists.
    split_and!; [done|apply set_relay_graph_wf; apply Hwf || done|done..].
Qed.

Lemma daemon_run_safe oc evs d t :
  ctx_wf (d_ctx d) →
  (unalloc_id (relay_graph (d_ctx d)) + N.of_nat (length evs) < u64_modulus)%N →
  graph_before t (relay_graph (d_ctx d)) →
  oc = false ∨ timely t (clock (d_ctx d)) evs = true →
  ∃ d', daemon_run oc evs d = Some d' ∧ ctx_wf (d_ctx d').
Proof.
  revert d t. induction evs as [|ev evs IH]; intros d t Hwf Hb Hg Hoc;
    cbn [daemon_run length] in *; [eauto|].
  destruct (touches_graph ev) eqn:Hev.
  - destruct ev as [| | |i|adj| | | | | | |]; try discriminate Hev; clear Hev.
    + destruct (daemon_step_identity oc i d t Hwf) as (d1 & -> & Hwf1 & Hc1 & Hu1 & Hg1);
        [lia|done|]. cbn. eapply (IH d1); [done|lia|exact Hg1|].
      destruct Hoc as [|Hoc]; [by left|right]. by rewrite Hc1.
    + destruct (daemon_step_adjacency oc adj d t Hwf Hg) as (d1 & -> & Hwf1 & Hc1 & Hu1 & Hg1).
      { destruct Hoc as [|Hoc]; [by left|right]. cbn [timely] in Hoc.
        apply andb_true_iff in Hoc as [Hoc _]. by apply N.leb_le. }
      cbn. eapply (IH d1); [done|lia|exact Hg1|].
      destruct Hoc as [|Hoc]; [by left|right]. cbn [timely] in Hoc.
      apply andb_true_iff in Hoc as [_ Hoc]. by rewrite Hc1.
  - destruct (daemon_step_frame oc ev d Hwf Hev) as (d1 & -> & Hwf1 & Hg1 & Hc1). cbn.
    apply (IH d1 t); [done|rewrite Hg1; lia|by rewrite Hg1|].
    destruct Hoc as [|Hoc]; [by left|right]. rewrite Hc1. by destruct ev.
Qed.


End DaemonRun.

(** * Witnesses *)

(** A node with a link to a second one and a socket: it delivers a message to
    itself, forwards one to the neighbor, and drops the neighbor when its time
    is up. *)
Definition pair_events : list daemon_event :=
  [EvIdentity (node_identity x01 1000); EvIdentity (node_identity x02 1000);
   EvAdjacency (node_link x01 x02 1003);
   EvArrive (node_fp x02) (sample_pkt x00);
   EvLink (node_fp x02) (mkLinkConnection 2 (public (P:=toy) (node_isk x02))) (Some 300%N);
   EvArrive (node_fp x02) (sample_pkt x00); EvPeel;
   EvBind (node_isk x01) (Some 200%N) 0; EvBind (node_isk x09) None 3;
   EvSend (node_isk x01) 1%N (node_fp x01) 200%N [[x68]]; EvPeel;
   EvSend (node_isk x01) 1%N (node_fp x02) 2%N [[x69]]; EvPeel].

Definition pair_start : daemon_state := daemon_start (P:=toy) (node_isk x01) 1%N 7%N 1005%N.

(** What the events lead to: the message waits in the socket, the packet for
    the neighbor in the link's channel; then the socket is read, the packet
    leaves, and the neighbor expires. *)
Definition pair_more : list daemon_event :=
  [EvRecv 0; EvLinkUp 2; EvClock 1306; EvGarbageCollect; EvDrop 0].

Definition pair_observe (d : daemon_state (P:=toy)) : list nat :=
  [length (d_sockets d);
   default 0 ((λ s, length (undelivered (d_ctx d, s))) <$> head (d_sockets d));
   default 0 ((λ ch, length (chan_view ch)) <$> links (d_ctx d) !! 2%N);
   length (all_neighs (neigh_table (d_ctx d)))].

Example pair_observed :
  pair_observe <$> daemon_run true pair_events pair_start = Some [2; 1; 1; 1] ∧
  pair_observe <$> daemon_run true (pair_events ++ pair_more) pair_start = Some [1; 0; 0; 0].
Proof. split; vm_compute; reflexivity. Qed.

