(* ===== verification/Network.v ===== *)
(** A network of daemons, and end-to-end delivery.

    Nodes run the packet loop of [Daemon.v]; a link moves packets from the
    outgoing queue of one node's connection to the neighbor queue of the other
    ([handle_onion_packets] of [src/daemon/link_connection.rs] and the task of
    [NeighTable::insert_inner]).  A message sent with [send_n2r] along the
    shortest path can always be moved to the socket bound at its
    destination. *)

From stdpp Require Import relations.
From S2P Require Import Prelude Interfaces Crypto Packet OnionRouting Topology ShortestPath.
From S2P Require Import ReplyStore NeighTable Directory Daemon DaemonSafety DaemonRun Instances.

Section Network.
  Context {P : Primitives} {IM : IndexMap} {HI : HashIter} {C : Chan} {L : Lru} {MK : Moka}.
  Context {SA : Stdcode AdjacencyDescriptor} {SI : Stdcode IdentityDescriptor}.
  Context {B : Bincode InnerPacket}.

(** A network: the daemons by fingerprint. *)
Abbreviation network := (gmap Fingerprint DaemonContext).

Inductive net_step (net : network) : network → Prop :=
  | net_peel x c o c' :
      net !! x = Some c → peel_forward_step c = Some (o, c') → net_step net (<[x := c']> net)
  | net_transfer x y cx cy conn ch pkt ch' :
      net !! x = Some cx → neigh_lookup y (neigh_table cx) = Some conn →
      links cx !! conn_handle conn = Some ch → chan_try_recv ch = Some (pkt, ch') →
      let net1 := <[x := set_links (<[conn_handle conn := ch']> (links cx)) cx]> net in
      net1 !! y = Some cy →
      net_step net (<[y := set_neigh_table (task_recv x pkt (neigh_table cy)) cy]> net1).

Context {PL : PrimitivesLaws P} {IML : IndexMapLaws IM} {HIL : HashIterLaws HI}.
Context {CL : ChanLaws C} {LL : LruLaws L} {MKL : MokaLaws MK} {BL : BincodeLaws InnerPacket}.

(** Two channels with the same content. *)
Definition chan_same {A} (c1 c2 : chan A) : Prop :=
  chan_view c1 = chan_view c2 ∧ chan_cap c1 = chan_cap c2.

(** Links with the same content. *)
Definition links_same (l0 l : gmap N (chan RawPacket)) : Prop :=
  ∀ h ch, l0 !! h = Some ch → ∃ ch', l !! h = Some ch' ∧ chan_same ch' ch.

#[export] Instance links_same_preorder : PreOrder links_same.
Proof.
  split; [by intros l h ch ?; exists ch|]. intros l1 l2 l3 H1 H2 h ch Hh.
  destruct (H1 h ch Hh) as (ch' & Hh' & []). destruct (H2 h ch' Hh') as (ch'' & ? & []).
  exists ch''. split; [done|]. split; congruence.
Qed.

(** [c] is [c0] except for what passing packets along changes. *)
Record same_node (c0 c : DaemonContext) : Prop := {
  same_shape : c = set_links (links c) (set_neigh_table (neigh_table c) c0);
  same_table : table (neigh_table c) = table (neigh_table c0);
  same_links : links_same (links c0) (links c);
  same_wf : neigh_wf (neigh_table c0) → neigh_wf (neigh_table c)
}.

Lemma same_node_refl c : same_node c c.
Proof. split; try done. by destruct c. Qed.

Lemma same_onion c0 c : same_node c0 c → global_onion_sk c = global_onion_sk c0.
Proof. intros H. by rewrite (same_shape _ _ H). Qed.

(** [net] is [net0] with the packets [xs] waiting at node [x] and, after them,
    [ys] waiting at [y]. *)
Definition flow (net0 : network) (x : Fingerprint) (xs : list RawPacket) (y : Fingerprint)
    (ys : list RawPacket) (net : network) : Prop :=
  ∀ z c0, net0 !! z = Some c0 →
    ∃ c, net !! z = Some c ∧ same_node c0 c ∧
      pending (neigh_table c) =
        pending (neigh_table c0) ++ (if decide (z = x) then xs else []) ++
          (if decide (z = y) then ys else []).

(** [net] is [net0] with the packets [pkts] waiting at node [x]. *)
Definition carries (net0 : network) (x : Fingerprint) (pkts : list RawPacket) (net : network) : Prop :=
  ∀ z c0, net0 !! z = Some c0 →
    ∃ c, net !! z = Some c ∧ same_node c0 c ∧
      pending (neigh_table c) = pending (neigh_table c0) ++ (if decide (z = x) then pkts else []).

Lemma flow_starts net0 x xs y net : carries net0 x xs net → flow net0 x xs y [] net.
Proof.
  intros H z c0 Hz. destruct (H z c0 Hz) as (c & ? & ? & Hp). exists c. split_and!; try done.
  rewrite Hp. case_decide; case_decide; by rewrite ?app_nil_r.
Qed.

Lemma flow_ends net0 x y ys net : flow net0 x [] y ys net → carries net0 y ys net.
Proof.
  intros H z c0 Hz. destruct (H z c0 Hz) as (c & ? & ? & Hp). exists c. split_and!; try done.
  rewrite Hp. by case_decide.
Qed.

(** The link from [x] to [y] is up on both sides and idle. *)
Definition edge_ready (net : network) (x y : Fingerprint) : Prop :=
  ∃ cx cy conn ch, net !! x = Some cx ∧ net !! y = Some cy ∧
    neigh_lookup y (neigh_table cx) = Some conn ∧
    links cx !! conn_handle conn = Some ch ∧ chan_view ch = [] ∧ (0 < chan_cap ch)%N ∧
    is_Some (im_get x (table (neigh_table cy))).

(** A node whose neighbor queue is empty. *)
Definition node_idle (net : network) (x : Fingerprint) : Prop :=
  ∃ c, net !! x = Some c ∧ ctx_wf c ∧ pending (neigh_table c) = [] ∧ my_fingerprint c = x.

(** ** One hop *)

Lemma recv_first c pkt rest :
  neigh_wf (neigh_table c) → pending (neigh_table c) = pkt :: rest →
  ∃ nt, recv_raw_packet (neigh_table c) = Some (pkt, nt) ∧ neigh_wf nt ∧ pending nt = rest ∧
    table nt = table (neigh_table c).
Proof. intros Hwf Hp. pose proof (recv_raw_packet_spec _ Hwf) as H. by rewrite Hp in H. Qed.

(** The packet loop forwards the first waiting packet to the link. *)
Lemma forward_step c pkt rest y pkt' conn ch :
  neigh_wf (neigh_table c) → pending (neigh_table c) = pkt :: rest →
  peel pkt (global_onion_sk c) = Ok (Forward y pkt') →
  neigh_lookup y (neigh_table c) = Some conn → links c !! conn_handle conn = Some ch →
  chan_view ch = [] → (0 < chan_cap ch)%N →
  ∃ nt ch', peel_forward_step c =
      Some (Ok tt, set_links (<[conn_handle conn := ch']> (links c)) (set_neigh_table nt c)) ∧
    neigh_wf nt ∧ pending nt = rest ∧ table nt = table (neigh_table c) ∧
    chan_view ch' = [pkt'] ∧ chan_cap ch' = chan_cap ch.
Proof.
  intros Hwf Hp Hpeel Hconn Hch Hv Hcap.
  destruct (recv_first c pkt rest Hwf Hp) as (nt & Hr & Hwf' & Hp' & Ht).
  destruct (chan_try_send_ok pkt' ch) as (ch' & Hs & Hv' & Hc'); [by rewrite Hv|].
  exists nt, ch'. split_and!; try done; [|by rewrite Hv', Hv].
  unfold peel_forward_step. rewrite Hr. cbn [mbind option_bind].
  unfold handle_packet, mbind, M_bind, get_state, lift. cbn [global_onion_sk set_neigh_table].
  rewrite Hpeel. cbn [map_err neigh_table set_neigh_table].
  assert (neigh_lookup y nt = Some conn) as -> by (unfold neigh_lookup in *; congruence).
  cbn [ok_or]. unfold send_raw_packet, modify. cbn [links set_neigh_table]. rewrite Hch.
  cbn. by rewrite Hs.
Qed.

(** Taking a packet from the queue and through a link leaves the same node. *)
Lemma same_node_passed c0 c nt h ch0 ch1 ch2 :
  same_node c0 c → neigh_wf nt → table nt = table (neigh_table c) →
  links c0 !! h = Some ch0 → chan_same ch2 ch0 →
  same_node c0 (set_links (<[h := ch2]> (<[h := ch1]> (links c))) (set_neigh_table nt c)).
Proof.
  intros [Hs Ht Hl Hw] Hwf Hnt Hh Hch. split; cbn; try done; [by rewrite Hs|congruence|].
  intros h' ch' Hh'. destruct (decide (h = h')) as [<-|Hne].
  - exists ch2. rewrite lookup_insert_eq. split; [done|]. by simplify_eq.
  - rewrite !lookup_insert_ne by done. by apply Hl.
Qed.

(** An arriving packet joins the queue, if there is room. *)
Lemma same_node_arrival c0 c x pkt :
  same_node c0 c → ctx_wf c0 → is_Some (im_get x (table (neigh_table c0))) →
  (N.of_nat (length (pending (neigh_table c))) < INCOMING_CAPACITY)%N →
  let c' := set_neigh_table (task_recv x pkt (neigh_table c)) c in
  same_node c0 c' ∧ pending (neigh_table c') = pending (neigh_table c) ++ [pkt].
Proof.
  intros [Hs Ht Hl Hw] Hwf [e He] Hroom. cbn. unfold task_recv. rewrite Ht, He.
  destruct (enqueue_spec pkt (neigh_table c) (Hw (ctx_neigh _ Hwf))) as (Hwf' & Ht' & Hp).
  rewrite Hp. apply N.ltb_lt in Hroom as ->. split; [|done].
  split; cbn; try done; [by rewrite Hs|congruence].
Qed.

Lemma hop_first net0 x y pkt rest pkt' ys net cx0 :
  flow net0 x (pkt :: rest) y ys net → net0 !! x = Some cx0 →
  node_idle net0 x → node_idle net0 y → edge_ready net0 x y →
  peel pkt (global_onion_sk cx0) = Ok (Forward y pkt') →
  (N.of_nat (length rest + length ys) < INCOMING_CAPACITY)%N →
  ∃ net', rtc net_step net net' ∧ flow net0 x rest y (ys ++ [pkt']) net'.
Proof.
  intros Hc Hx0 (? & Hx0' & Hwfx & Hpx & _) (cy0 & Hy0 & Hwfy & Hpy & _)
    (? & ? & conn & ch0 & Hx0'' & Hy0' & Hconn & Hch0 & Hv0 & Hcap0 & Hback) Hpeel Hroom.
  simplify_eq. destruct (Hc x cx0 Hx0) as (cx & Hx & Hsx & Hpend).
  rewrite decide_True, Hpx in Hpend by done. cbn in Hpend.
  destruct (same_links _ _ Hsx _ _ Hch0) as (ch & Hch & Hchv & Hchc).
  edestruct (forward_step cx pkt) as (nt & ch1 & Hstep & Hnt & Hntp & Hntt & Hv1 & Hc1).
  { apply (same_wf _ _ Hsx), Hwfx. } { exact Hpend. } { rewrite (same_onion _ _ Hsx). exact Hpeel. }
  { unfold neigh_lookup in *. rewrite (same_table _ _ Hsx). exact Hconn. }
  { exact Hch. } { congruence. } { by rewrite Hchc. }
  pose proof (chan_try_recv_spec ch1) as Hr. rewrite Hv1 in Hr.
  destruct Hr as (ch2 & Hr & Hv2 & Hc2).
  set (cx1 := set_links (<[conn_handle conn := ch1]> (links cx)) (set_neigh_table nt cx)) in *.
  set (cx2 := set_links (<[conn_handle conn := ch2]> (links cx1)) cx1).
  assert (same_node cx0 cx2) as Hs2.
  { eapply (same_node_passed _ _ _ _ ch0 ch1); [done..|]. split; congruence. }
  assert (∃ cy, <[x := cx2]> (<[x := cx1]> net) !! y = Some cy ∧ same_node cy0 cy ∧
    pending (neigh_table cy) = (if decide (y = x) then rest else []) ++ ys) as (cy & Hy & Hsy & Hpcy).
  { destruct (decide (y = x)) as [->|Exy].
    - exists cx2. rewrite lookup_insert_eq. simplify_eq. split_and!; try done.
      cbn. rewrite Hntp. by rewrite decide_True.
    - destruct (Hc y cy0 Hy0) as (cy1 & Hy1 & Hsy1 & Hpy1). exists cy1.
      rewrite !lookup_insert_ne by done. rewrite decide_False, decide_True, Hpy in Hpy1 by done. done. }
  destruct (same_node_arrival cy0 cy x pkt' Hsy Hwfy Hback) as [Hsy' Hpy'].
  { rewrite Hpcy, length_app. case_decide; cbn; lia. }
  eexists. split.
  { eapply rtc_l; [by apply (net_peel net x cx (Ok tt) cx1)|]. apply rtc_once.
    eapply (net_transfer _ x y cx1 cy conn ch1 pkt' ch2); [by rewrite lookup_insert_eq| | |done|exact Hy].
    - unfold neigh_lookup, cx1; cbn. unfold neigh_lookup in Hconn.
      by rewrite Hntt, (same_table _ _ Hsx).
    - unfold cx1; cbn. by rewrite lookup_insert_eq. }
  fold cx2. intros z cz Hz. destruct (decide (z = y)) as [->|Hzy].
  - rewrite lookup_insert_eq. eexists. split; [done|]. simplify_eq. split; [done|].
    rewrite Hpy', Hpcy, Hpy. by case_decide; rewrite <-?app_assoc.
  - rewrite lookup_insert_ne by done. destruct (decide (z = x)) as [->|Hzx].
    + rewrite lookup_insert_eq. eexists. split; [done|]. simplify_eq. split; [done|].
      cbn. by rewrite Hntp, Hpx, (decide_False (P:=x = y)).
    + rewrite !lookup_insert_ne by done. destruct (Hc z cz Hz) as (c & ? & ? & Hp).
      rewrite !decide_False in Hp by done. by exists c.
Qed.

(** All packets that wait at a node for the same next hop. *)
Lemma hop_delivery net0 x y pkts pkts' net cx0 :
  carries net0 x pkts net → net0 !! x = Some cx0 →
  node_idle net0 x → node_idle net0 y → edge_ready net0 x y →
  Forall2 (λ pkt pkt', peel pkt (global_onion_sk cx0) = Ok (Forward y pkt')) pkts pkts' →
  (N.of_nat (length pkts) <= INCOMING_CAPACITY)%N →
  ∃ net', rtc net_step net net' ∧ carries net0 y pkts' net'.
Proof.
  intros Hc Hx Hix Hiy He Hall Hlen.
  assert (∀ ys net, flow net0 x pkts y ys net →
    (N.of_nat (length pkts + length ys) <= INCOMING_CAPACITY)%N →
    ∃ net', rtc net_step net net' ∧ flow net0 x [] y (ys ++ pkts') net') as Hgo.
  { clear Hc Hlen net. induction Hall as [|pkt pkt' pkts pkts' Hp Hall IH]; intros ys net Hf Hlen.
    - exists net. rewrite app_nil_r. by split.
    - cbn [length] in Hlen. destruct (hop_first net0 x y pkt pkts pkt' ys net cx0) as (net1 & Hs1 & Hf1);
        [done..|lia|].
      destruct (IH (ys ++ [pkt']) net1 Hf1) as (net2 & Hs2 & Hf2); [rewrite length_app; cbn; lia|].
      exists net2. split; [by etrans|]. by rewrite <-app_assoc in Hf2. }
  destruct (Hgo [] net) as (net' & Hs & Hf); [by apply flow_starts|cbn; lia|].
  exists net'. split; [done|]. by eapply flow_ends.
Qed.

(** ** A whole route *)

(** The onion secret of a node. *)
Definition node_sk (net : network) (d : OnionSecret) (x : Fingerprint) : OnionSecret :=
  default d (global_onion_sk <$> net !! x).

(** The hops of a path, with the nodes' secrets. *)
Definition path_hops (net : network) (d : OnionSecret) (p : list Fingerprint)
    : list (OnionSecret * Fingerprint) :=
  (λ '(x, y), (node_sk net d x, y)) <$> windows2 p.

Definition path_ready (net : network) (p : list Fingerprint) : Prop :=
  (∀ x, x ∈ p → node_idle net x) ∧ (∀ x y, (x, y) ∈ windows2 p → edge_ready net x y).

(** Packets that peel along a path, with what is left of them. *)
Definition peel_path (net : network) (d : OnionSecret) (x : Fingerprint) (p : list Fingerprint)
    (pkt final : RawPacket) : Prop :=
  peel_along ((path_hops net d (x :: p)).*1) pkt = Ok (p, final).

Lemma peel_path_cons net d x y p cx pkt final :
  net !! x = Some cx → peel_path net d x (y :: p) pkt final →
  ∃ pkt', peel pkt (global_onion_sk cx) = Ok (Forward y pkt') ∧ peel_path net d y p pkt' final.
Proof.
  unfold peel_path. intros Hx Hal. cbn in Hal. unfold node_sk in Hal. rewrite Hx in Hal. cbn in Hal.
  destruct (peel pkt (global_onion_sk cx)) as [[to pkt'| |]| | |] eqn:Hpeel; try done.
  cbn in Hal. destruct (peel_along _ pkt') as [[tos' final']| | |] eqn:Hrest; try done.
  cbn in Hal. injection Hal as -> -> ->. by exists pkt'.
Qed.

Lemma route_delivery net0 d p x pkts finals net :
  path_ready net0 (x :: p) → carries net0 x pkts net →
  Forall2 (peel_path net0 d x p) pkts finals →
  (N.of_nat (length pkts) <= INCOMING_CAPACITY)%N →
  ∃ net' dst, last (x :: p) = Some dst ∧ rtc net_step net net' ∧ carries net0 dst finals net'.
Proof.
  revert x pkts net. induction p as [|y p IH]; intros x pkts net [Hn He] Hc Hal Hlen.
  - exists net, x. split; [done|]. split; [apply rtc_refl|].
    assert (pkts = finals) as <-; [|done]. clear -Hal. induction Hal as [|? ? ? ? H]; [done|].
    injection H as ->. by f_equal.
  - destruct (Hn x) as (cx & Hx & _); [set_solver|].
    assert (Forall2 (λ pkt final, ∃ pkt', peel pkt (global_onion_sk cx) = Ok (Forward y pkt') ∧
      peel_path net0 d y p pkt' final) pkts finals) as Hmid.
    { eapply Forall2_impl; [exact Hal|]. intros. by eapply peel_path_cons. }
    apply Forall2_middle in Hmid as (mids & Hm1 & Hm2).
    destruct (hop_delivery net0 x y pkts mids net cx) as (net1 & Hs & Hc1); try done.
    { apply Hn. set_solver. } { apply Hn. set_solver. } { apply He. cbn. set_solver. }
    destruct (IH y mids net1) as (net' & dst & Hl & Hs' & Hc'); try done.
    { split; [intros; apply Hn; set_solver|]. intros a b Hab. apply He. cbn. set_solver. }
    { by rewrite <-(Forall2_length _ _ _ Hm1). }
    exists net', dst. split; [done|]. split; [by etrans|done].
Qed.

(** ** The destination *)

(** Rounds of a node's packet loop. *)
Definition peels (c c' : DaemonContext) : Prop := ∃ o, peel_forward_step c = Some (o, c').

Lemma net_peels net x c c' :
  net !! x = Some c → rtc peels c c' → rtc net_step net (<[x := c']> net).
Proof.
  intros Hx Hs. revert net Hx. induction Hs as [c|c c1 c2 [o Ho] Hs IH]; intros net Hx.
  - by rewrite insert_id.
  - eapply rtc_l; [by eapply net_peel|].
    specialize (IH (<[x := c1]> net)). rewrite insert_insert_eq in IH. apply IH. by rewrite lookup_insert_eq.
Qed.

(** A message joins the queue of the socket bound at its endpoint. *)
Lemma message_delivered c final rest src msg h ch :
  neigh_wf (neigh_table c) → pending (neigh_table c) = final :: rest →
  peel final (global_onion_sk c) = Ok (Received src (IMessage msg)) →
  im_get (Endpoint_new (my_fingerprint c) (dest_dock msg)) (socket_recv_queues c) = Some h →
  sockets c !! h = Some ch → (N.of_nat (length (chan_view ch)) < chan_cap ch)%N →
  ∃ nt ch', peels c (set_queues (socket_recv_queues c) (<[h := ch']> (sockets c))
                       (set_neigh_table nt c)) ∧
    neigh_wf nt ∧ pending nt = rest ∧ table nt = table (neigh_table c) ∧
    chan_view ch' = chan_view ch ++ [(msg, src)].
Proof.
  intros Hwf Hp Hpeel Hq Hch Hroom.
  destruct (recv_first c final rest Hwf Hp) as (nt & Hr & Hwf' & Hp' & Ht).
  destruct (chan_try_send_ok (msg, src) ch Hroom) as (ch' & Hsend & Hv & _).
  exists nt, ch'. split_and!; try done. exists (Ok tt).
  unfold peel_forward_step. rewrite Hr. cbn [mbind option_bind].
  unfold handle_packet, mbind, M_bind, get_state, lift. cbn [global_onion_sk set_neigh_table].
  rewrite Hpeel. cbn [map_err process_inner_pkt].
  unfold mbind, M_bind, get_state. cbn [socket_recv_queues set_neigh_table sockets].
  change (my_fingerprint (set_neigh_table nt c)) with (my_fingerprint c).
  rewrite Hq, Hch. cbn. by rewrite Hsend.
Qed.

(** ** The same network with other applications *)

(** [c] serves passing packets as [c0] does. *)
Record alike (c0 c : DaemonContext) : Prop := {
  alike_identity : global_identity c = global_identity c0;
  alike_onion : global_onion_sk c = global_onion_sk c0;
  alike_table : table (neigh_table c) = table (neigh_table c0);
  alike_pending : pending (neigh_table c) = pending (neigh_table c0);
  alike_links : links_same (links c0) (links c);
  alike_wf : ctx_wf c0 → ctx_wf c
}.

#[export] Instance alike_preorder : PreOrder alike.
Proof.
  split; [by intros c; split|]. intros c1 c2 c3 [] []. split; try congruence; [by etrans|auto].
Qed.

Definition calm (net0 net : network) : Prop :=
  ∀ z c0, net0 !! z = Some c0 → ∃ c, net !! z = Some c ∧ alike c0 c.

#[export] Instance calm_preorder : PreOrder calm.
Proof.
  split; [by intros net z c Hz; exists c|]. intros n1 n2 n3 H1 H2 z c Hz.
  destruct (H1 z c Hz) as (c' & Hz' & ?). destruct (H2 z c' Hz') as (c'' & ? & ?).
  exists c''. split; [done|]. by etrans.
Qed.

Lemma calm_insert net x c c' : net !! x = Some c → alike c c' → calm net (<[x := c']> net).
Proof.
  intros Hx Ha z c0 Hz. destruct (decide (z = x)) as [->|Hne].
  - exists c'. rewrite lookup_insert_eq. by simplify_eq.
  - exists c0. by rewrite lookup_insert_ne.
Qed.

Lemma same_node_alike c0 c :
  same_node c0 c → pending (neigh_table c) = pending (neigh_table c0) → alike c0 c.
Proof.
  intros [Hs Ht Hl Hw] Hp. split; try done; [by rewrite Hs..|].
  intros []. rewrite Hs. split; try done. cbn. auto.
Qed.

Lemma path_ready_calm net0 net p : calm net0 net → path_ready net0 p → path_ready net p.
Proof.
  intros Hc [Hn He]. split.
  - intros x Hx. destruct (Hn x Hx) as (c0 & Hx0 & Hwf & Hp & Hm).
    destruct (Hc x c0 Hx0) as (c & ? & Ha). exists c. split; [done|]. destruct Ha as [Hi _ _ Hpe _ Hw].
    split_and!; [auto|congruence|]. unfold my_fingerprint. by rewrite Hi.
  - intros x y Hxy. destruct (He x y Hxy) as (cx & cy & conn & ch & Hx & Hy & Hcn & Hl & Hv & Hcap & Hb).
    destruct (Hc x cx Hx) as (cx' & Hx' & []). destruct (Hc y cy Hy) as (cy' & Hy' & []).
    destruct (alike_links0 _ _ Hl) as (ch' & ? & [Hv' Hc']).
    exists cx', cy', conn, ch'. unfold neigh_lookup in *. split_and!; try done; congruence.
Qed.

Lemma node_sk_calm net0 net d x : calm net0 net → is_Some (net0 !! x) → node_sk net d x = node_sk net0 d x.
Proof.
  intros Hc [c0 Hx]. destruct (Hc x c0 Hx) as (c & Hx' & Ha). unfold node_sk. rewrite Hx, Hx'. cbn.
  apply (alike_onion _ _ Ha).
Qed.

(** ** End to end *)

(** The sender's graph knows the current onion key of every node of a path. *)
Definition keys_known (net : network) (g : RelayGraph) (p : list Fingerprint) : Prop :=
  ∀ x c, x ∈ p → net !! x = Some c →
    ∃ d, identity g x = Some d ∧ onion_pk d = OnionSecret_public (global_onion_sk c).

Lemma windows2_elem {A} (p : list A) x y : (x, y) ∈ windows2 p → x ∈ p.
Proof.
  induction p as [|a [|b p] IH]; cbn; [set_solver..|].
  intros [[= -> ->]|?]%elem_of_cons; set_solver.
Qed.

Lemma path_hops_calm net0 net d p :
  calm net0 net → (∀ x, x ∈ p → is_Some (net0 !! x)) → path_hops net d p = path_hops net0 d p.
Proof.
  intros Hc Hn. apply list_fmap_ext. intros i [x y] Hxy%list_elem_of_lookup_2.
  f_equal. eapply node_sk_calm; [done|]. by eapply Hn, windows2_elem.
Qed.

Lemma route_to_instructs_hops net g osk p :
  (∀ x, x ∈ p → is_Some (net !! x)) → keys_known net g p →
  route_to_instructs p g = Ok (instructs (path_hops net osk p)).
Proof.
  intros Hn Hk. unfold route_to_instructs, instructs, path_hops. apply outcome_mapM_Ok.
  rewrite <-list_fmap_compose. apply Forall2_fmap_r, Forall_Forall2_diag, Forall_forall.
  intros [x y] Hx%windows2_elem.
  destruct (Hn x Hx) as [c Hc]. destruct (Hk x c Hx Hc) as (d & Hd & Hpk).
  cbn. unfold node_sk. rewrite Hd, Hc. cbn. by rewrite Hpk.
Qed.

Lemma path_hops_snd net osk x p : (path_hops net osk (x :: p)).*2 = p.
Proof.
  revert x. induction p as [|y p IH]; intros x; [done|]. cbn. f_equal. apply IH.
Qed.

Lemma fp_path_ends g a b p : fp_path g a b p → ∃ q, p = a :: q ∧ last p = Some b.
Proof.
  intros Hp. induction Hp as [a Ha|a b c p Hl Hp (q & -> & IH)].
  - by exists [].
  - eexists. split; [done|]. done.
Qed.

(** Without a reply block for the destination, a sender that is not anonymous
    injects the onion for the shortest path. *)
Lemma send_n2r_routed net c p sd dst dd content pkt r osk :
  ctx_wf c → blocks dst (anon_dests c) = [] →
  find_shortest_path (E:=SendMessageError) (relay_graph c) (my_fingerprint c) dst = Ok (Some p) →
  (∀ x, x ∈ p → is_Some (net !! x)) → keys_known net (relay_graph c) p → dst ∈ p →
  new_normal (instructs (path_hops net osk p)) (OnionSecret_public (node_sk net osk dst))
    (IMessage (mkMessage sd dd content)) (global_identity c) (thread_rng c) = (Ok pkt, r) →
  ∃ s, store_wf s ∧ send_n2r (global_identity c) sd dst dd content c =
    (Ok tt, set_neigh_table (inject_asif_incoming pkt (neigh_table c))
              (set_rng r (set_anon_dests s c))).
Proof.
  intros Hwf Hb Hp Hn Hk Hdst Hnew.
  destruct (pop_reply_block_spec (E:=SendMessageError) dst c Hwf) as (s & Hpop & Hs & _).
  exists s. split; [done|]. rewrite Hb in Hpop. cbn in Hpop.
  destruct (Hn dst Hdst) as [cd Hcd]. destruct (Hk dst cd Hdst Hcd) as (d & Hd & Hpk).
  assert (node_sk net osk dst = global_onion_sk cd) as Hsk by (unfold node_sk; by rewrite Hcd).
  rewrite Hsk in Hnew.
  unfold send_n2r, find_route, mbind, M_bind, get_state, lift. rewrite Hpop, Hp.
  cbn [outcome_bind ok_or id from_option].
  rewrite (route_to_instructs_hops net _ osk) by done.
  rewrite Hd. cbn [ok_or]. rewrite Hpk. unfold map_err_m, with_rng, zoom.
  cbn [thread_rng set_anon_dests]. rewrite Hnew. cbn [map_err].
  rewrite bool_decide_eq_false_2 by tauto. done.
Qed.

Lemma path_nodes net p : path_ready net p → ∀ x, x ∈ p → is_Some (net !! x).
Proof. intros [Hn _] x Hx. destruct (Hn x Hx) as (c & ? & _). by eexists. Qed.

(** The nodes of a path found by the search. *)
Lemma route_nodes net c a dst p :
  ctx_wf c → find_shortest_path (E:=SendMessageError) (relay_graph c) a dst = Ok (Some p) →
  path_ready net p →
  p = a :: tail p ∧ last p = Some dst ∧ dst ∈ p ∧ node_idle net a ∧ node_idle net dst.
Proof.
  intros Hwf Hpath [Hn _].
  destruct (find_shortest_path_spec (E:=SendMessageError) (relay_graph c) a dst (ctx_graph _ Hwf))
    as (res & Hres & Hspec).
  rewrite Hpath in Hres. injection Hres as <-. destruct Hspec as [Hfp _].
  apply fp_path_ends in Hfp as (q & -> & Hlast).
  assert (dst ∈ a :: q) by (by apply last_Some_elem_of). split_and!; auto. apply Hn. set_solver.
Qed.

(** Packets injected at an idle node. *)
Lemma carries_inject net x c c' pkts :
  net !! x = Some c → same_node c c' → pending (neigh_table c') = pending (neigh_table c) ++ pkts →
  carries net x pkts (<[x := c']> net).
Proof.
  intros Hx Hs Hp z c0 Hz. destruct (decide (z = x)) as [->|Hne].
  - rewrite lookup_insert_eq. exists c'. simplify_eq. done.
  - rewrite lookup_insert_ne by done. exists c0. rewrite app_nil_r. split_and!; try done.
    apply same_node_refl.
Qed.

Lemma inject_same_node c pkt :
  ctx_wf c → (N.of_nat (length (pending (neigh_table c))) < INCOMING_CAPACITY)%N →
  let c' := set_neigh_table (inject_asif_incoming pkt (neigh_table c)) c in
  same_node c c' ∧ pending (neigh_table c') = pending (neigh_table c) ++ [pkt].
Proof.
  intros Hwf Hroom. destruct (enqueue_spec pkt (neigh_table c) (ctx_neigh _ Hwf)) as (Hw & Ht & Hp).
  apply N.ltb_lt in Hroom. rewrite Hroom in Hp. split; [|done]. by split.
Qed.

(** Packets put on a path by one of its ends travel to the other. *)
Lemma packets_travel net osk x y l c base c' pkts finals :
  path_ready net l → l = x :: tail l → last l = Some y → net !! x = Some c →
  alike c base → same_node base c' → pending (neigh_table c') = pending (neigh_table base) ++ pkts →
  (N.of_nat (length pkts) <= INCOMING_CAPACITY)%N →
  Forall2 (peel_path net osk x (tail l)) pkts finals →
  ∃ net', rtc net_step (<[x := c']> net) net' ∧ carries (<[x := base]> net) y finals net'.
Proof.
  intros Hr Hl Hlast Hx Ha Hs Hp Hlen Hall. pose proof (calm_insert net x c base Hx Ha) as Hcalm.
  destruct (route_delivery (<[x := base]> net) osk (tail l) x pkts finals (<[x := c']> net))
    as (net' & y' & Hy & Hsteps & Hc).
  - rewrite <-Hl. by eapply path_ready_calm.
  - rewrite <-(insert_insert_eq net x c' base). eapply carries_inject; [apply lookup_insert_eq|done..].
  - eapply Forall2_impl; [exact Hall|]. unfold peel_path. intros pkt final H.
    rewrite (path_hops_calm net _ osk (x :: tail l)); [exact H|done|].
    rewrite <-Hl. by eapply path_nodes.
  - done.
  - rewrite <-Hl, Hlast in Hy. injection Hy as <-. eauto.
Qed.

(** C8 (end-to-end delivery): when the sender's graph knows the onion keys of the
    nodes of the shortest path to the destination, the path has at most nine
    hops, its links are up and idle, and a socket with room is bound at the
    destination, then a message that fits, sent under the node's own identity,
    is accepted by [send_n2r], and the packet loops and links of the nodes on
    the path can move it into that socket's queue, where it appears with its
    docks and the sender's fingerprint. *)
Theorem n2r_delivery net a ca sd dst dd content p cdst h ch :
  net !! a = Some ca → my_fingerprint ca = a → ctx_wf ca →
  find_shortest_path (E:=SendMessageError) (relay_graph ca) a dst = Ok (Some p) →
  length p ≤ 10 → path_ready net p → keys_known net (relay_graph ca) p →
  blocks dst (anon_dests ca) = [] → fits (IMessage (mkMessage sd dd content)) →
  net !! dst = Some cdst →
  im_get (Endpoint_new dst dd) (socket_recv_queues cdst) = Some h →
  sockets cdst !! h = Some ch → (N.of_nat (length (chan_view ch)) < chan_cap ch)%N →
  ∃ ca' net' cdst' ch',
    send_n2r (global_identity ca) sd dst dd content ca = (Ok tt, ca') ∧
    rtc net_step (<[a := ca']> net) net' ∧
    net' !! dst = Some cdst' ∧ sockets cdst' !! h = Some ch' ∧
    chan_view ch' = chan_view ch ++ [(mkMessage sd dd content, a)].
Proof.
  intros Ha Hfpa Hwf Hpath Hlen Hready Hk Hb Hfits Hdst Hq Hch Hroom.
  destruct (route_nodes net ca a dst p Hwf Hpath Hready)
    as (Ep & Hlast & Hin & (ca0 & Ha' & _ & Hpa & _) & (cd0 & Hd' & Hwfd & Hpd & Hmd)).
  assert (ca0 = ca) as -> by congruence. assert (cd0 = cdst) as -> by congruence. clear Ha' Hd'.
  set (osk := global_onion_sk ca).
  assert (node_sk net osk dst = global_onion_sk cdst) as Hsk by (unfold node_sk; by rewrite Hdst).
  destruct (onion_route (path_hops net osk p) (node_sk net osk dst)
    (IMessage (mkMessage sd dd content)) (global_identity ca) (thread_rng ca))
    as (pkt & r & final & Hnew & Halong & Hfinal); [|done|].
  { unfold path_hops. rewrite length_fmap, length_windows2. cbn in *. lia. }
  rewrite Ep, path_hops_snd, <-Ep in Halong. rewrite Hsk in Hfinal.
  destruct (send_n2r_routed net ca p sd dst dd content pkt r osk) as (s & Hs & Hsend); try done.
  { by rewrite Hfpa. } { by apply path_nodes. }
  eexists. set (base := set_rng r (set_anon_dests s ca)) in *.
  assert (alike ca base) as Hbase by (split; try done; intros []; by split).
  destruct (inject_same_node base pkt (alike_wf _ _ Hbase Hwf)) as [Hsame Hpend]; [cbn; by rewrite Hpa|].
  destruct (packets_travel net osk a dst p ca base _ [pkt] [final] Hready Ep Hlast Ha Hbase Hsame Hpend)
    as (net1 & Hs1 & Hc1). { done. } { constructor; [|constructor]. unfold peel_path. by rewrite <-Ep. }
  assert (∃ cd1, <[a := base]> net !! dst = Some cd1 ∧ alike cdst cd1 ∧ sockets cd1 = sockets cdst ∧
    socket_recv_queues cd1 = socket_recv_queues cdst) as (cd1 & Hd1 & Had & Hsk1 & Hqu1).
  { destruct (decide (dst = a)) as [E|E]; [rewrite E in *; exists base; rewrite lookup_insert_eq; by simplify_eq|].
    exists cdst. by rewrite lookup_insert_ne. }
  destruct (Hc1 dst cd1 Hd1) as (cd2 & Hd2 & Hs2 & Hp2). pose proof (same_shape _ _ Hs2) as Hsh.
  rewrite decide_True, (alike_pending _ _ Had), Hpd in Hp2 by done.
  destruct (message_delivered cd2 final [] a (mkMessage sd dd content) h ch)
    as (nt & ch' & Hpeels & _ & _ & _ & Hview).
  { apply (same_wf _ _ Hs2), (alike_wf _ _ Had Hwfd). } { exact Hp2. }
  { by rewrite (same_onion _ _ Hs2), (alike_onion _ _ Had), Hfinal, <-Hfpa. }
  { assert (my_fingerprint cd2 = dst) as ->; [|rewrite Hsh; cbn; by rewrite Hqu1].
    rewrite <-Hmd. unfold my_fingerprint. rewrite Hsh. cbn. by rewrite (alike_identity _ _ Had). }
  { rewrite Hsh. cbn. by rewrite Hsk1. } { done. }
  eexists _, _, ch'. split; [exact Hsend|]. split_and!.
  - etrans; [exact Hs1|]. eapply net_peels; [exact Hd2|]. by apply rtc_once.
  - apply lookup_insert_eq.
  - cbn. apply lookup_insert_eq.
  - done.
Qed.

End Network.

(** * Witness: three nodes in a line *)

Definition node_events (i : byte) (neighbors : list byte) : list daemon_event :=
  [EvIdentity (node_identity x01 1000); EvIdentity (node_identity x02 1000);
   EvIdentity (node_identity x03 1000);
   EvAdjacency (node_link x01 x02 1003); EvAdjacency (node_link x02 x03 1003)] ++
  ((λ j, EvLink (node_fp j) (mkLinkConnection (Byte.to_N j) (public (P:=toy) (node_isk j))) None)
    <$> neighbors).

Definition node_start (i : byte) : DaemonContext :=
  context_new (P:=toy) (node_isk i) (Byte.to_N i) 7%N 1005%N.

(** A node that has learned the graph, connected to its neighbors, with a
    socket bound on dock 200. *)
Definition node_ctx (i : byte) (neighbors : list byte) : DaemonContext :=
  let c := from_option d_ctx (node_start i)
    (daemon_run false (node_events i neighbors) (mkDaemon (node_start i) [])) in
  set_queues (im_insert (Endpoint_new (node_fp i) 200%N) 1%N im_empty)
    (<[1%N := chan_bounded 1000]> ∅)
    (set_links (list_to_map ((λ j, (Byte.to_N j, chan_bounded 100)) <$> neighbors)) c).

Lemma node_ctx_wf i neighbors :
  (N.of_nat (length (node_events i neighbors)) < u64_modulus)%N → ctx_wf (node_ctx i neighbors).
Proof.
  intros Hb. destruct (daemon_run_safe false (node_events i neighbors) (mkDaemon (node_start i) []) 0)
    as (d & Hc & Hwf).
  - apply context_new_wf.
  - exact Hb.
  - apply graph_before_new.
  - by left.
  - unfold node_ctx. rewrite Hc. cbn. destruct Hwf. by split.
Qed.

Definition ctx1 : DaemonContext := node_ctx x01 [x02].
Definition ctx2 : DaemonContext := node_ctx x02 [x01; x03].
Definition ctx3 : DaemonContext := node_ctx x03 [x02].
Definition fp1 : Fingerprint := node_fp x01.
Definition fp2 : Fingerprint := node_fp x02.
Definition fp3 : Fingerprint := node_fp x03.

Definition sample_net : gmap Fingerprint (DaemonContext (P:=toy)) :=
  <[fp1 := ctx1]> (<[fp2 := ctx2]> (<[fp3 := ctx3]> ∅)).

Lemma sample_net_1 : sample_net !! fp1 = Some ctx1.
Proof. apply lookup_insert_eq. Qed.
Lemma sample_net_2 : sample_net !! fp2 = Some ctx2.
Proof.
  unfold sample_net. rewrite lookup_insert_ne; [apply lookup_insert_eq|]. by vm_compute.
Qed.
Lemma sample_net_3 : sample_net !! fp3 = Some ctx3.
Proof.
  unfold sample_net. rewrite 2 lookup_insert_ne by (by vm_compute). apply lookup_insert_eq.
Qed.

Definition conn_to (j : byte) : LinkConnection :=
  mkLinkConnection (Byte.to_N j) (public (P:=toy) (node_isk j)).
Definition idle_chan : chan RawPacket := chan_bounded 100.
Definition sample_path : list Fingerprint := [fp1; fp2; fp3].

(** The state of the three nodes, by evaluation. *)
Lemma sample_idle :
  (pending (neigh_table ctx1) = [] ∧ my_fingerprint ctx1 = fp1) ∧
  (pending (neigh_table ctx2) = [] ∧ my_fingerprint ctx2 = fp2) ∧
  (pending (neigh_table ctx3) = [] ∧ my_fingerprint ctx3 = fp3).
Proof. vm_compute. auto 10. Qed.

Lemma sample_links :
  (neigh_lookup fp2 (neigh_table ctx1) = Some (conn_to x02) ∧
   links ctx1 !! 2%N = Some idle_chan ∧
   im_get fp1 (table (neigh_table ctx2)) = Some (conn_to x01, None)) ∧
  (neigh_lookup fp3 (neigh_table ctx2) = Some (conn_to x03) ∧
   links ctx2 !! 3%N = Some idle_chan ∧
   im_get fp2 (table (neigh_table ctx3)) = Some (conn_to x02, None)).
Proof. vm_compute. auto 10. Qed.

Lemma sample_keys :
  (identity (relay_graph ctx1) fp1 = Some (node_identity x01 1000) ∧
   identity (relay_graph ctx1) fp2 = Some (node_identity x02 1000) ∧
   identity (relay_graph ctx1) fp3 = Some (node_identity x03 1000)) ∧
  (onion_pk (node_identity x01 1000) = OnionSecret_public (P:=toy) (global_onion_sk ctx1) ∧
   onion_pk (node_identity x02 1000) = OnionSecret_public (P:=toy) (global_onion_sk ctx2) ∧
   onion_pk (node_identity x03 1000) = OnionSecret_public (P:=toy) (global_onion_sk ctx3)).
Proof. vm_compute. auto 10. Qed.

Lemma sample_route :
  find_shortest_path (E:=SendMessageError) (relay_graph ctx1) fp1 fp3 = Ok (Some sample_path) ∧
  im_get (Endpoint_new fp3 200%N) (socket_recv_queues ctx3) = Some 1%N ∧
  sockets ctx3 !! 1%N = Some (chan_bounded 1000) ∧
  blocks fp3 (anon_dests ctx1) = [].
Proof. vm_compute. auto. Qed.

(** A property of three elements, and of the two edges between them. *)
Lemma forall_three {A} (Q : A → Prop) a b c : Q a → Q b → Q c → ∀ x, x ∈ [a; b; c] → Q x.
Proof. intros ? ? ? x. rewrite !elem_of_cons. set_solver. Qed.

Lemma forall_edges {A} (Q : A → A → Prop) a b c :
  Q a b → Q b c → ∀ x y, (x, y) ∈ windows2 [a; b; c] → Q x y.
Proof. intros ? ? x y. cbn. rewrite !elem_of_cons. set_solver. Qed.

Lemma sample_path_ready : path_ready sample_net sample_path.
Proof.
  destruct sample_idle as ((I1 & F1) & (I2 & F2) & (I3 & F3)).
  destruct sample_links as ((L1 & C1 & B1) & (L2 & C2 & B2)). split.
  - apply (forall_three (node_idle sample_net) fp1 fp2 fp3).
    + exists ctx1. exact (conj sample_net_1 (conj (node_ctx_wf x01 [x02] eq_refl) (conj I1 F1))).
    + exists ctx2. exact (conj sample_net_2 (conj (node_ctx_wf x02 [x01; x03] eq_refl) (conj I2 F2))).
    + exists ctx3. exact (conj sample_net_3 (conj (node_ctx_wf x03 [x02] eq_refl) (conj I3 F3))).
  - apply (forall_edges (edge_ready sample_net) fp1 fp2 fp3).
    + exists ctx1, ctx2, (conn_to x02), idle_chan.
      exact (conj sample_net_1 (conj sample_net_2 (conj L1 (conj C1 (conj eq_refl (conj eq_refl
        (mk_is_Some _ _ B1))))))).
    + exists ctx2, ctx3, (conn_to x03), idle_chan.
      exact (conj sample_net_2 (conj sample_net_3 (conj L2 (conj C2 (conj eq_refl (conj eq_refl
        (mk_is_Some _ _ B2))))))).
Qed.

Lemma known_at (x : Fingerprint) c0 d :
  sample_net !! x = Some c0 → identity (relay_graph ctx1) x = Some d →
  onion_pk d = OnionSecret_public (P:=toy) (global_onion_sk c0) →
  ∀ c, sample_net !! x = Some c → ∃ d, identity (relay_graph ctx1) x = Some d ∧
    onion_pk d = OnionSecret_public (P:=toy) (global_onion_sk c).
Proof.
  intros Hn Hd Hk c Hc. rewrite Hn in Hc. apply (inj Some) in Hc as <-.
  exists d. exact (conj Hd Hk).
Qed.

Lemma sample_keys_known : keys_known sample_net (relay_graph ctx1) sample_path.
Proof.
  destruct sample_keys as ((D1 & D2 & D3) & (K1 & K2 & K3)).
  intros x c Hx. revert x Hx c.
  exact (forall_three (λ x, ∀ c, sample_net !! x = Some c →
      ∃ d, identity (relay_graph ctx1) x = Some d ∧
        onion_pk d = OnionSecret_public (P:=toy) (global_onion_sk c)) fp1 fp2 fp3
    (known_at _ _ _ sample_net_1 D1 K1) (known_at _ _ _ sample_net_2 D2 K2)
    (known_at _ _ _ sample_net_3 D3 K3)).
Qed.

Lemma n2r_delivery_witness :
  ∃ ca' net' cdst' ch',
    send_n2r (global_identity ctx1) 42%N fp3 200%N [[x68]; [x69]] ctx1 = (Ok tt, ca') ∧
    rtc net_step (<[fp1 := ca']> sample_net) net' ∧
    net' !! fp3 = Some cdst' ∧ sockets cdst' !! 1%N = Some ch' ∧
    chan_view ch' = chan_view (chan_bounded 1000) ++
      [(mkMessage 42%N 200%N [[x68]; [x69]], fp1)].
Proof.
  destruct sample_route as (R & Q & S & Hb).
  refine (n2r_delivery sample_net fp1 ctx1 42%N fp3 200%N [[x68]; [x69]] sample_path ctx3 1%N
    (chan_bounded 1000) sample_net_1 (proj2 (proj1 sample_idle)) (node_ctx_wf x01 [x02] eq_refl)
    R _ sample_path_ready sample_keys_known Hb _ sample_net_3 Q S eq_refl).
  - cbn. lia.
  - vm_compute. discriminate.
Defined.
