(* ===== verification/RoundTrip.v ===== *)
(** A question and its answer across the network.

    An anonymous sender gives its correspondent reply blocks along with its
    message, and the correspondent answers through one of them
    ([src/daemon/context.rs], [src/daemon/rrb_balance.rs] and
    [src/daemon/peel_forward.rs]).  Here both ways are followed through the
    network of [Network.v], from the sockets of one application to those of
    the other, as the test [n2r] of [src/tests/sockets.rs] does. *)

From stdpp Require Import relations.
From S2P Require Import Prelude Interfaces Crypto Packet OnionRouting Topology ShortestPath.
From S2P Require Import ReplyStore NeighTable Directory Daemon DaemonSafety Network Socket Instances.

(** What a reply block is made with. *)
Abbreviation dummy := (IMessage (mkMessage 0%N 0%N [[]])).

Section RoundTrip.
  Context {P : Primitives} {IM : IndexMap} {HI : HashIter} {C : Chan} {L : Lru} {MK : Moka}.
  Context {SA : Stdcode AdjacencyDescriptor} {SI : Stdcode IdentityDescriptor}.
  Context {B : Bincode InnerPacket}.
  Context {PL : PrimitivesLaws P} {IML : IndexMapLaws IM} {HIL : HashIterLaws HI}.
  Context {CL : ChanLaws C} {LL : LruLaws L} {MKL : MokaLaws MK} {BL : BincodeLaws InnerPacket}.

Abbreviation network := (gmap Fingerprint DaemonContext).

(** * Making reply blocks *)

(** The owner of [dsk] can read, with [dg], what is sent through [rb] along
    [hops]; an identifier of zero makes the block useless. *)
Definition usable (hops : list (OnionSecret * Fingerprint)) (dsk : OnionSecret)
    (isk : IdentitySecret) (id : N) (dg : ReplyDegarbler) (rb : ReplyBlock) : Prop :=
  my_anon_isk dg = isk ∧
  (id ≠ 0%N → ∀ payload isk', fits payload → ∃ pkt final garbled,
    new_reply rb payload isk' = Ok pkt ∧
    peel_along (hops.*1) pkt = Ok (hops.*2, final) ∧
    peel final dsk = Ok (GarbledReply id garbled) ∧
    degarble dg garbled = Ok (payload, fingerprint (public isk'))).

Lemma ReplyBlock_new_parts route opk aosk isk r rb id dg r' :
  ReplyBlock_new route opk aosk isk r = (Ok (rb, (id, dg)), r') →
  id = fst (random_u64 r) ∧ my_anon_isk dg = isk.
Proof.
  unfold ReplyBlock_new, mbind, M_bind, sample, lift. destruct (random_u64 r) as [id0 r1].
  destruct (reply_metadata id0); try done. destruct (new _ _ _ _ _ _) as [[[]| | |] ?]; try done.
  by intros [= <- <- <- <-].
Qed.

Lemma ReplyBlock_new_usable hops dsk aosk isk r :
  length hops < 10 → fits dummy →
  ∃ rb id dg r',
    ReplyBlock_new (instructs hops) (OnionSecret_public dsk) aosk isk r = (Ok (rb, (id, dg)), r') ∧
    usable hops dsk isk id dg rb.
Proof.
  intros Hlen Hd. destruct (reply_route hops dsk aosk isk r dummy isk Hlen Hd Hd)
    as (rb & dg & r' & pkt & final & md & sec & h & sealed & b & secs & Hnew & _).
  do 4 eexists. split; [exact Hnew|]. split; [by apply ReplyBlock_new_parts in Hnew as [_ ->]|].
  intros Hid payload isk' Hf.
  destruct (reply_comes_back hops dsk aosk isk r payload isk' Hlen Hd Hf Hid)
    as (rb' & id' & dg' & r'' & pkt' & final' & garbled & Hnew' & -> & ? & ? & ? & ?).
  rewrite Hnew in Hnew'. injection Hnew' as <- <- <-. eauto 10.
Qed.

Lemma make_reply_blocks_S n ri aosk isk c rb id dg r :
  ReplyBlock_new ri (OnionSecret_public (global_onion_sk c)) aosk isk (thread_rng c) =
    (Ok (rb, (id, dg)), r) →
  make_reply_blocks (S n) ri aosk isk c =
  (rbs ← make_reply_blocks n ri aosk isk; mret (rb :: rbs))
    (set_degarblers (moka_insert (clock c) id dg (degarblers c)) (set_rng r c)).
Proof.
  intros Hnew. cbn [make_reply_blocks].
  unfold mbind at 1 2, M_bind at 1 2, get_state, map_err_m, with_rng, zoom. by rewrite Hnew.
Qed.

(** The last of the blocks made is usable, and its degarbler is remembered. *)
Lemma make_reply_blocks_usable n hops isk aosk c :
  length hops < 10 → fits dummy → ctx_wf c →
  ∃ rbs d r rb id dg,
    make_reply_blocks (S n) (instructs hops) aosk isk c = (Ok rbs, set_degarblers d (set_rng r c)) ∧
    moka_unbounded DEGARBLER_TTL d ∧ length rbs = S n ∧ last rbs = Some rb ∧
    moka_get (clock c) id d = Some dg ∧ usable hops (global_onion_sk c) isk id dg rb.
Proof.
  intros Hlen Hd. revert c. induction n as [|n IH]; intros c Hwf;
    destruct (ReplyBlock_new_usable hops (global_onion_sk c) aosk isk (thread_rng c) Hlen Hd)
      as (rb & id & dg & r & Hnew & Hu);
    pose proof (moka_insert_unbounded DEGARBLER_TTL (clock c) id dg (degarblers c)
      (ctx_degarblers _ Hwf)) as Hub.
  - exists [rb], (moka_insert (clock c) id dg (degarblers c)), r, rb, id, dg. split_and!; try done.
    + by rewrite (make_reply_blocks_S 0 _ _ _ _ _ _ _ _ Hnew).
    + eapply (moka_insert_live DEGARBLER_TTL); [apply Hwf|lia|unfold DEGARBLER_TTL; lia].
  - set (c1 := set_degarblers (moka_insert (clock c) id dg (degarblers c)) (set_rng r c)).
    destruct (IH c1) as (rbs & d & r' & rb' & id' & dg' & Hm & ? & ? & Hl & ? & ?).
    { destruct Hwf. by split. }
    exists (rb :: rbs), d, r', rb', id', dg'. split_and!; try done; [|cbn; congruence|].
    + rewrite (make_reply_blocks_S _ _ _ _ _ _ _ _ _ Hnew). fold c1. unfold mbind, M_bind. by rewrite Hm.
    + by destruct rbs.
Qed.

(** * Sending reply blocks *)

(** The sender [c] has become [c'], with [pkts] more packets to go out. *)
Record sent (c c' : DaemonContext) (pkts : list RawPacket) : Prop := {
  sent_shape : c' = mkContext (global_identity c) (global_onion_sk c) (relay_graph c) (anon_dests c)
    (neigh_table c') (socket_recv_queues c) (sockets c) (links c) (degarblers c') (balance_table c')
    (onion_sk_cache c') (thread_rng c') (clock c);
  sent_table : table (neigh_table c') = table (neigh_table c);
  sent_pending : pending (neigh_table c') = pending (neigh_table c) ++ pkts;
  sent_wf : ctx_wf c'
}.

Lemma sent_refl c : ctx_wf c → sent c c [].
Proof. intros Hwf. split; try done; [by destruct c|by rewrite app_nil_r]. Qed.

Lemma sent_trans c1 c2 c3 l l' : sent c1 c2 l → sent c2 c3 l' → sent c1 c3 (l ++ l').
Proof.
  intros [Hs1 Ht1 Hp1 _] [Hs2 Ht2 Hp2 Hwf]. split; [|congruence| |done].
  - rewrite Hs2 at 1. by rewrite Hs1.
  - by rewrite Hp2, Hp1, app_assoc.
Qed.

(** Changes to the caches and the generator send nothing. *)
Lemma sent_nothing c c' :
  ctx_wf c' → c' = mkContext (global_identity c) (global_onion_sk c) (relay_graph c) (anon_dests c)
    (neigh_table c) (socket_recv_queues c) (sockets c) (links c) (degarblers c') (balance_table c')
    (onion_sk_cache c') (thread_rng c') (clock c) →
  sent c c' [].
Proof. intros Hwf Hs. split; try done; rewrite Hs; cbn; by rewrite ?app_nil_r. Qed.

Lemma sent_inject c pkt :
  ctx_wf c → (N.of_nat (length (pending (neigh_table c))) < INCOMING_CAPACITY)%N →
  sent c (set_neigh_table (inject_asif_incoming pkt (neigh_table c)) c) [pkt].
Proof.
  intros Hwf Hroom. destruct (inject_same_node c pkt Hwf Hroom) as [[_ ? _ _] ?]. split; try done.
  apply post_inject, Hwf.
Qed.

(** The routes between [a] and [dst], both ways, in the sender's graph [g]. *)
Record two_ways (net : network) (g : RelayGraph) (a dst : Fingerprint) (p q : list Fingerprint)
    : Prop := {
  way_out : find_shortest_path (E:=SendMessageError) g a dst = Ok (Some p);
  way_back : find_shortest_path (E:=SendMessageError) g dst a = Ok (Some q);
  out_short : length p ≤ 10;
  back_short : length q ≤ 10;
  out_ready : path_ready net p;
  back_ready : path_ready net q;
  out_known : keys_known net g p;
  back_known : keys_known net g q
}.

Section sender.
  Context (net : network) (g : RelayGraph) (a dst : Fingerprint) (p q : list Fingerprint).
  Context (osk : OnionSecret) (isk : IdentitySecret).
  Hypothesis Hways : two_ways net g a dst p q.
  Hypothesis Hdummy : fits dummy.
  Hypothesis Hblocks : ∀ rbs, length rbs = BATCH_SIZE → fits (IReplyBlocks rbs).

Abbreviation anon := (fingerprint (public isk)).

(** A sender on the route, with room for more packets. *)
Record sender (room : nat) (c : DaemonContext) : Prop := {
  snd_wf : ctx_wf c;
  snd_graph : relay_graph c = g;
  snd_fp : my_fingerprint c = a;
  snd_onion : global_onion_sk c = node_sk net osk a;
  snd_room : (N.of_nat (length (pending (neigh_table c)) + room) <= INCOMING_CAPACITY)%N
}.

Lemma sender_sent room c c' pkts :
  sender (length pkts + room) c → sent c c' pkts → sender room c'.
Proof.
  intros [Hwf Hg Hf Ho Hr] [Hs Ht Hp Hwf']. split; [done|by rewrite Hs..|].
  rewrite Hp, length_app. lia.
Qed.

(** Where the shortest path leads. *)
Lemma way_ends c : relay_graph c = g → ctx_wf c →
  p = a :: tail p ∧ last p = Some dst ∧ dst ∈ p.
Proof.
  intros Hg Hwf. destruct Hways as [Hp _ _ _ Hr _ _ _]. rewrite <-Hg in Hp.
  by destruct (route_nodes net c a dst p Hwf Hp Hr) as (? & ? & ? & _).
Qed.

(** What a sender knows about the destination. *)
Lemma destination_known c : relay_graph c = g → ctx_wf c →
  ∃ d, identity g dst = Some d ∧ onion_pk d = OnionSecret_public (node_sk net osk dst).
Proof.
  intros Hg Hwf. destruct (way_ends c Hg Hwf) as (_ & _ & Hin).
  destruct (path_nodes net p (out_ready _ _ _ _ _ _ Hways) dst Hin) as [cd Hcd].
  destruct (out_known _ _ _ _ _ _ Hways dst cd Hin Hcd) as (d & ? & ?).
  exists d. unfold node_sk. by rewrite Hcd.
Qed.

(** A packet on its way to [dst], where it opens as [inner] from [isk]. *)
Definition on_way (inner : InnerPacket) (pkt final : RawPacket) : Prop :=
  peel_path net osk a (tail p) pkt final ∧
  peel final (node_sk net osk dst) = Ok (Received anon inner).

Lemma new_normal_on_way c inner r :
  relay_graph c = g → ctx_wf c → fits inner →
  ∃ pkt r' final, new_normal (instructs (path_hops net osk p))
      (OnionSecret_public (node_sk net osk dst)) inner isk r = (Ok pkt, r') ∧ on_way inner pkt final.
Proof.
  intros Hg Hwf Hf. destruct (way_ends c Hg Hwf) as (Hp & _ & _).
  destruct (onion_route (path_hops net osk p) (node_sk net osk dst) inner isk r)
    as (pkt & r' & final & Hnew & Hal & Hfin); [|done|].
  { unfold path_hops. rewrite length_fmap, length_windows2.
    pose proof (out_short _ _ _ _ _ _ Hways). cbn in *. lia. }
  exists pkt, r', final. split; [done|]. split; [|done]. unfold peel_path. rewrite <-Hp.
  rewrite Hp, path_hops_snd, <-Hp in Hal. exact Hal.
Qed.

(** The routes as [send_reply_blocks] looks them up. *)
Lemma routes_found c : relay_graph c = g →
  find_route c a dst dst = Ok p ∧ find_route c dst a dst = Ok q ∧
  route_to_instructs p g = Ok (instructs (path_hops net osk p)) ∧
  route_to_instructs q g = Ok (instructs (path_hops net osk q)).
Proof.
  intros Hg. destruct Hways as [Hp Hq _ _ Hrp Hrq Hkp Hkq]. unfold find_route. rewrite Hg, Hp, Hq.
  split_and!; [done..| |]; by apply route_to_instructs_hops; [apply path_nodes|].
Qed.

Lemma cached_onion_sk_sent {E} fp c :
  ctx_wf c → ∃ o c', cached_onion_sk (E:=E) fp c = (Ok o, c') ∧ sent c c' [] ∧
    balance_table c' = balance_table c.
Proof.
  intros Hwf. pose proof (cached_onion_sk_safe (E:=E) fp c Hwf) as Hs. unfold wp in Hs.
  unfold cached_onion_sk, mbind, M_bind, get_state in *.
  destruct (moka_get _ _ _) as [o|]; [exists o, c; split_and!; [done|by apply sent_refl|done]|].
  unfold with_rng, OnionSecret_generate, zoom, sample in *.
  destruct (random_from_rng (thread_rng c)) as [o r]. cbn in *. eexists o, _.
  split_and!; [done| |done]. apply sent_nothing; [apply Hs|done].
Qed.

(** The latest reply block, at the end of the last batch: whoever holds it can
    answer. *)
Definition answerable (c : DaemonContext) (batches : list (RawPacket * list ReplyBlock)) : Prop :=
  ∃ final rbs rb id dg, last batches = Some (final, rbs) ∧ last rbs = Some rb ∧
    moka_get (clock c) id (degarblers c) = Some dg ∧
    usable (path_hops net osk q) (node_sk net osk a) isk id dg rb.

Definition batch_on_way (pkt : RawPacket) (batch : RawPacket * list ReplyBlock) : Prop :=
  on_way (IReplyBlocks batch.2) pkt batch.1.

Lemma send_reply_blocks_sent c :
  sender 1 c →
  ∃ c' pkt batch, send_reply_blocks BATCH_SIZE isk dst c = (Ok tt, c') ∧ sent c c' [pkt] ∧
    balance_table c' = balance_table c ∧ batch_on_way pkt batch ∧ answerable c' [batch].
Proof.
  intros Hsd. destruct (cached_onion_sk_sent (E:=SendMessageError) anon c (snd_wf _ _ Hsd))
    as (o & c1 & Ho & Hs1 & Hb1).
  pose proof (sender_sent 1 c c1 [] Hsd Hs1) as [Hwf1 Hg1 Hf1 Ho1 Hr1].
  destruct (routes_found c1 Hg1) as (Hp & Hq & Hip & Hiq).
  destruct (destination_known c1 Hg1 Hwf1) as (d & Hd & Hpk).
  destruct (make_reply_blocks_usable 9 (path_hops net osk q) isk o c1)
    as (rbs & dm & r & rb & id & dg & Hm & Hu & Hl & Hlast & Hget & Huse); [|done..|].
  { unfold path_hops. rewrite length_fmap, length_windows2.
    pose proof (back_short _ _ _ _ _ _ Hways). cbn in *. lia. }
  set (c2 := set_degarblers dm (set_rng r c1)) in *.
  destruct (new_normal_on_way c1 (IReplyBlocks rbs) r) as (pkt & r' & final & Hnew & Hway); [done..|by apply Hblocks|].
  assert (ctx_wf (set_rng r' c2)) as Hwf3 by (destruct Hwf1; by split).
  assert (sent c1 (set_rng r' c2) []) as Hs3 by (by apply sent_nothing).
  exists (set_neigh_table (inject_asif_incoming pkt (neigh_table c2)) (set_rng r' c2)), pkt, (final, rbs).
  split_and!.
  - unfold send_reply_blocks, mbind, M_bind, get_state, lift. rewrite Ho, Hf1, Hp, Hg1, Hd.
    cbn [ok_or]. rewrite Hip, Hq, Hiq.
    change BATCH_SIZE with 10. rewrite Hm. unfold map_err_m, with_rng, zoom.
    cbn [thread_rng set_degarblers set_rng c2]. rewrite Hpk, Hnew. done.
  - apply (sent_trans c _ _ [] _ Hs1), (sent_trans c1 _ _ [] _ Hs3).
    apply (sent_inject (set_rng r' c2) pkt Hwf3). cbn. lia.
  - done.
  - exact Hway.
  - exists final, rbs, rb, id, dg. cbn. rewrite <-Ho1. done.
Qed.

(** ** The balance *)

Lemma rb_balance_sent {E} c :
  ctx_wf c → ∃ c', rb_balance (E:=E) isk dst c = (Ok (balance isk dst c), c') ∧ sent c c' [] ∧
    balance isk dst c' = balance isk dst c ∧ degarblers c' = degarblers c.
Proof.
  intros Hwf. unfold rb_balance.
  destruct (moka_get_with (clock c) (isk, dst) 0%Z (balance_table c)) as [b t] eqn:Hg.
  apply moka_get_with_spec with (ttl:=BALANCE_TTL) in Hg as (-> & Hu & Hget & _); [|apply Hwf|done].
  eexists. split_and!; [done| | |done].
  - apply sent_nothing; [|done]. by apply post_set_balance.
  - unfold balance; cbn. by rewrite Hget.
Qed.

Lemma set_balance_sent {E} b c :
  ctx_wf c → ∃ c', set_balance (E:=E) isk dst b c = (Ok tt, c') ∧ sent c c' [] ∧
    balance isk dst c' = b ∧ degarblers c' = degarblers c.
Proof.
  intros Hwf. eexists. split_and!; [done| | |done].
  - apply sent_nothing; [|done]. apply post_set_balance; [done|]. apply moka_insert_unbounded, Hwf.
  - unfold balance; cbn.
    by rewrite (moka_insert_live BALANCE_TTL) by (apply Hwf || (unfold BALANCE_TTL; lia)).
Qed.

Lemma decrement_sent {E} c :
  ctx_wf c → ∃ c', decrement_rrb_balance (E:=E) isk dst c = (Ok tt, c') ∧ sent c c' [] ∧
    balance isk dst c' = (balance isk dst c - 1)%Z.
Proof.
  intros Hwf. destruct (rb_balance_sent (E:=E) c Hwf) as (c1 & Hrb & Hs1 & Hb1 & _).
  destruct (set_balance_sent (E:=E) (balance isk dst c - 1) c1 (sent_wf _ _ _ Hs1))
    as (c2 & Hset & Hs2 & Hb2 & _).
  exists c2. split_and!; [|exact (sent_trans _ _ _ _ _ Hs1 Hs2)|done].
  unfold decrement_rrb_balance, mbind, M_bind. by rewrite Hrb.
Qed.

(** How many batches a balance asks for. *)
Definition batches_due (b : Z) : nat := Z.to_nat ((104 - b) / 5).

Lemma batches_due_step b : (b < 100)%Z → batches_due b = S (batches_due (b + 5)).
Proof.
  intros Hb. unfold batches_due. replace (104 - (b + 5))%Z with (104 - b + (-1) * 5)%Z by lia.
  rewrite Z.div_add by done. pose proof (Z.div_le_mono 5 (104 - b) 5 ltac:(lia) ltac:(lia)) as H.
  change (5 / 5)%Z with 1%Z in H. lia.
Qed.

Lemma batches_due_none b : (100 <= b)%Z → batches_due b = 0.
Proof.
  intros Hb. unfold batches_due.
  pose proof (Z.div_le_mono (104 - b) 4 5 ltac:(lia) ltac:(lia)) as H. change (4 / 5)%Z with 0%Z in H. lia.
Qed.

Lemma batches_due_bound b : (0 <= b)%Z → batches_due b ≤ 20.
Proof.
  intros Hb. unfold batches_due.
  pose proof (Z.div_le_mono (104 - b) 104 5 ltac:(lia) ltac:(lia)) as H. change (104 / 5)%Z with 20%Z in H. lia.
Qed.

Lemma answerable_same c c' batches :
  clock c' = clock c → degarblers c' = degarblers c → answerable c batches → answerable c' batches.
Proof. unfold answerable. by intros -> ->. Qed.

Lemma sent_clock c c' l : sent c c' l → clock c' = clock c.
Proof. intros H. by rewrite (sent_shape _ _ _ H). Qed.

Lemma replenish_loop_sent fuel c :
  Z.to_nat (100 - balance isk dst c) < fuel → sender (batches_due (balance isk dst c)) c →
  ∃ c' pkts batches, replenish_loop fuel isk dst c = (Ok tt, c') ∧ sent c c' pkts ∧
    length pkts = batches_due (balance isk dst c) ∧ (100 <= balance isk dst c')%Z ∧
    Forall2 batch_on_way pkts batches ∧
    if (balance isk dst c <? 100)%Z then answerable c' batches
    else degarblers c' = degarblers c ∧ batches = [].
Proof.
  revert c. induction fuel as [|fuel IH]; intros c Hf Hsd; [lia|]. cbn [replenish_loop].
  destruct (rb_balance_sent (E:=SendMessageError) c (snd_wf _ _ Hsd)) as (c1 & Hrb & Hs1 & Hb1 & Hd1).
  unfold mbind at 1, M_bind at 1. rewrite Hrb. destruct (Z.ltb_spec (balance isk dst c) 100) as [Hb|Hb].
  2: { exists c1, [], []. rewrite batches_due_none by done. split_and!; try done. by rewrite Hb1. }
  pose proof (sender_sent _ c c1 [] Hsd Hs1) as Hsd1. rewrite (batches_due_step _ Hb) in Hsd1.
  destruct (send_reply_blocks_sent c1) as (c2 & pkt & batch & Hsend & Hs2 & Hbt2 & Hway & Hans).
  { destruct Hsd1. split; try done. lia. }
  assert (balance isk dst c2 = balance isk dst c) as Hb2.
  { unfold balance. by rewrite Hbt2, (sent_clock _ _ _ Hs2). }
  destruct (rb_balance_sent (E:=SendMessageError) c2 (sent_wf _ _ _ Hs2)) as (c3 & Hrb3 & Hs3 & Hb3 & Hd3).
  destruct (set_balance_sent (E:=SendMessageError) (balance isk dst c2 + Z.of_nat (BATCH_SIZE / 2)) c3
    (sent_wf _ _ _ Hs3)) as (c4 & Hset & Hs4 & Hb4 & Hd4).
  rewrite Hb2 in Hb4. change (Z.of_nat (BATCH_SIZE / 2)) with 5%Z in Hb4, Hset.
  pose proof (sent_trans _ _ _ _ _ Hs3 Hs4) as Hs34.
  pose proof (sender_sent _ c1 c2 [pkt] Hsd1 Hs2) as Hsd2.
  pose proof (sender_sent _ c2 c4 [] Hsd2 Hs34) as Hsd4.
  destruct (IH c4) as (c5 & pkts & batches & Hloop & Hs5 & Hlen & Hge & Hall & Hlast);
    [rewrite Hb4; lia|by rewrite Hb4|].
  exists c5, (pkt :: pkts), (batch :: batches). split_and!; [| | |done|by constructor|].
  - unfold mbind, M_bind. rewrite Hsend, Hrb3. change (Z.of_nat (BATCH_SIZE / 2)) with 5%Z.
    by rewrite Hset.
  - apply (sent_trans _ _ _ [] _ Hs1), (sent_trans _ _ _ [pkt] _ Hs2), (sent_trans _ _ _ [] _ Hs34), Hs5.
  - cbn [length]. by rewrite Hlen, Hb4, (batches_due_step _ Hb).
  - destruct (_ <? _)%Z.
    + destruct Hlast as (final & rbs & rb & id & dg & Hl & ?). exists final, rbs, rb, id, dg.
      split; [|done]. destruct batches; [done|]. exact Hl.
    + destruct Hlast as [Hd5 ->]. eapply answerable_same; [| |exact Hans]; [|congruence].
      rewrite (sent_clock _ _ _ Hs5). apply (sent_clock _ _ _ Hs34).
Qed.

Lemma replenish_rrb_sent c :
  sender (batches_due (balance isk dst c)) c →
  ∃ c' pkts batches, replenish_rrb isk dst c = (Ok tt, c') ∧ sent c c' pkts ∧
    length pkts = batches_due (balance isk dst c) ∧ (100 <= balance isk dst c')%Z ∧
    Forall2 batch_on_way pkts batches ∧
    if (balance isk dst c <? 100)%Z then answerable c' batches
    else degarblers c' = degarblers c ∧ batches = [].
Proof. intros Hsd. apply replenish_loop_sent; [|done]. unfold balance. lia. Qed.

(** * Asking *)

(** An anonymous sender's packets: the batches of reply blocks, then the
    message. *)
Lemma ask_sent sd dd content c :
  sender (S (batches_due (balance isk dst c))) c → (balance isk dst c < 100)%Z →
  isk ≠ global_identity c → blocks dst (anon_dests c) = [] →
  fits (IMessage (mkMessage sd dd content)) →
  ∃ s c' pkts batches pkt final, send_n2r isk sd dst dd content c = (Ok tt, c') ∧ store_wf s ∧
    sent (set_anon_dests s c) c' (pkts ++ [pkt]) ∧
    length pkts = batches_due (balance isk dst c) ∧ (100 <= balance isk dst c')%Z ∧
    Forall2 batch_on_way pkts batches ∧ answerable c' batches ∧
    on_way (IMessage (mkMessage sd dd content)) pkt final.
Proof.
  intros Hsd Hb Hanon Hnone Hfits. pose proof Hsd as [Hwf Hg Hf _ _].
  destruct (pop_reply_block_spec (E:=SendMessageError) dst c Hwf) as (s & Hpop & Hswf & _).
  rewrite Hnone in Hpop. cbn in Hpop. set (c0 := set_anon_dests s c) in *.
  destruct (routes_found c Hg) as (Hp & _ & Hip & _).
  destruct (destination_known c Hg Hwf) as (d & Hd & Hpk).
  destruct (new_normal_on_way c (IMessage (mkMessage sd dd content)) (thread_rng c) Hg Hwf Hfits)
    as (pkt & r & final & Hnew & Hway).
  assert (sender (S (batches_due (balance isk dst c))) (set_rng r c0)) as Hsd1.
  { destruct Hsd as [[] ? ? ? ?]. by split. }
  change (balance isk dst c) with (balance isk dst (set_rng r c0)) in Hb, Hsd1 |- *.
  destruct (replenish_rrb_sent (set_rng r c0)) as (c2 & pkts & batches & Hr & Hs2 & Hlen & Hge & Hall & Hlast).
  { destruct Hsd1. split; try done. lia. }
  apply Z.ltb_lt in Hb. rewrite Hb in Hlast.
  assert (sender 1 c2) as Hsd2.
  { eapply sender_sent; [|exact Hs2]. rewrite Hlen. destruct Hsd1. split; try done. lia. }
  assert (sent c0 (set_rng r c0) []) as Hs1 by (apply sent_nothing; [apply Hsd1|done]).
  pose proof (sent_inject c2 pkt (snd_wf _ _ Hsd2)) as Hs3.
  exists s, (set_neigh_table (inject_asif_incoming pkt (neigh_table c2)) c2), pkts, batches, pkt, final.
  split_and!; try done.
  - unfold send_n2r, mbind, M_bind, get_state, lift. rewrite Hpop, Hf, Hp, Hg, Hip, Hd. cbn [ok_or].
    unfold map_err_m, with_rng, zoom. cbn [thread_rng c0 set_anon_dests]. rewrite Hpk, Hnew. cbn [map_err].
    rewrite bool_decide_eq_true_2 by done. fold c0. by rewrite Hr.
  - apply (sent_trans _ _ _ [] _ Hs1), (sent_trans _ _ _ pkts _ Hs2), Hs3.
    pose proof (snd_room _ _ Hsd2). lia.
Qed.

(** * Answering *)

(** The owner of the reply block takes the answer: the socket of the anonymous
    endpoint gets it, after more reply blocks have been sent. *)
Lemma answer_received c final id garbled dg msg h ch :
  sender 0 c → pending (neigh_table c) = [final] →
  peel final (global_onion_sk c) = Ok (GarbledReply id garbled) →
  moka_get (clock c) id (degarblers c) = Some dg → my_anon_isk dg = isk →
  degarble dg garbled = Ok (IMessage msg, dst) → (0 < balance isk dst c)%Z →
  im_get (Endpoint_new anon (dest_dock msg)) (socket_recv_queues c) = Some h →
  sockets c !! h = Some ch → (N.of_nat (length (chan_view ch)) < chan_cap ch)%N →
  ∃ c' ch', peels c c' ∧ socket_recv_queues c' = socket_recv_queues c ∧
    sockets c' = <[h := ch']> (sockets c) ∧ chan_view ch' = chan_view ch ++ [(msg, dst)].
Proof.
  intros Hsd Hp Hpeel Hget Hisk Hdeg Hbal Hq Hch Hroom. pose proof Hsd as [Hwf Hg Hf Ho _].
  destruct (recv_first c final [] (ctx_neigh _ Hwf) Hp) as (nt & Hr & Hnt & Hpn & _).
  set (c0 := set_neigh_table nt c).
  pose proof (moka_remove_get _ _ _ _ Hget) as Hrem.
  pose proof (moka_remove_unbounded DEGARBLER_TTL (clock c) id (degarblers c) (ctx_degarblers _ Hwf)) as Hu.
  destruct (moka_remove (clock c) id (degarblers c)) as [o d] eqn:Erem. cbn in Hrem, Hu. subst o.
  set (c1 := set_degarblers d c0).
  assert (ctx_wf c1) as Hwf1 by (destruct Hwf; by split).
  destruct (decrement_sent (E:=PeelForwardError) c1 Hwf1) as (c3 & Hdec & Hs13 & Hb3).
  change (balance isk dst c1) with (balance isk dst c) in Hb3.
  assert (sender (batches_due (balance isk dst c3)) c3) as Hsd3.
  { apply (sender_sent _ c1 c3 []); [|done]. split; try done. cbn. rewrite Hpn.
    pose proof (batches_due_bound (balance isk dst c3) ltac:(lia)). unfold INCOMING_CAPACITY. cbn [length]. lia. }
  destruct (replenish_rrb_sent c3 Hsd3) as (c4 & pkts & batches & Hrep & Hs4 & _).
  pose proof (sent_trans _ _ _ _ _ Hs13 Hs4) as Hs14. pose proof (sent_shape _ _ _ Hs14) as Hsh.
  destruct (chan_try_send_ok (msg, dst) ch Hroom) as (ch' & Hsend & Hv & _).
  exists (set_queues (socket_recv_queues c4) (<[h := ch']> (sockets c4)) c4), ch'.
  split_and!; [|cbn; by rewrite Hsh..|done]. exists (Ok tt).
  unfold peel_forward_step. rewrite Hr. cbn [mbind option_bind]. fold c0.
  unfold handle_packet, mbind, M_bind, get_state, lift. change (global_onion_sk c0) with (global_onion_sk c).
  rewrite Hpeel. cbn [map_err]. unfold take_degarbler. change (clock c0) with (clock c).
  change (degarblers c0) with (degarblers c). rewrite Erem. cbn [ok_or]. rewrite Hdeg. cbn [map_err].
  unfold map_err_m. rewrite Hisk. fold c1. rewrite Hdec, Hrep.
  cbn [map_err process_inner_pkt]. unfold mbind, M_bind, get_state.
  assert (socket_recv_queues c4 = socket_recv_queues c) as -> by (by rewrite Hsh).
  assert (sockets c4 = sockets c) as -> by (by rewrite Hsh).
  rewrite Hq, Hch. cbn. by rewrite Hsend.
Qed.

End sender.

(** * At the destination *)

(** The blocks of arriving batches are stored. *)
Lemma blocks_delivered batches rest src c :
  ctx_wf c → pending (neigh_table c) = batches.*1 ++ rest →
  Forall (λ b, peel b.1 (global_onion_sk c) = Ok (Received src (IReplyBlocks b.2))) batches →
  ∃ nt s, rtc peels c (set_anon_dests s (set_neigh_table nt c)) ∧ neigh_wf nt ∧ pending nt = rest ∧
    table nt = table (neigh_table c) ∧ store_wf s ∧
    s = for_each (λ b, for_each (store_insert src) b.2) batches (anon_dests c).
Proof.
  revert c. induction batches as [|[final rbs] batches IH]; intros c Hwf Hp Hall.
  - exists (neigh_table c), (anon_dests c). split_and!; try done; try apply Hwf.
    destruct c. apply rtc_refl.
  - apply Forall_cons in Hall as [Hpeel Hall]. cbn in Hp, Hpeel.
    destruct (recv_first c final (batches.*1 ++ rest) (ctx_neigh _ Hwf) Hp) as (nt & Hr & Hnt & Hpn & Ht).
    set (c1 := set_anon_dests (for_each (store_insert src) rbs (anon_dests c)) (set_neigh_table nt c)).
    destruct (IH c1) as (nt' & s & Hs & ? & ? & Ht' & ? & ?); [|done|done|].
    { destruct Hwf. split; try done. cbn. by apply for_each_store_insert_wf. }
    exists nt', s. split_and!; try done; [|by rewrite Ht']. eapply rtc_l; [|exact Hs]. exists (Ok tt).
    unfold peel_forward_step. rewrite Hr. cbn [mbind option_bind].
    unfold handle_packet, mbind, M_bind, get_state, lift. cbn [global_onion_sk set_neigh_table].
    by rewrite Hpeel.
Qed.

Lemma for_each_batches_wf src (batches : list (RawPacket * list ReplyBlock)) s :
  store_wf s → store_wf (for_each (λ b, for_each (store_insert src) b.2) batches s).
Proof.
  revert s. induction batches as [|b batches IH]; intros s Hs; [done|]. cbn.
  by apply IH, for_each_store_insert_wf.
Qed.

(** The last block of the last batch is the next to be used. *)
Lemma last_block src (batches : list (RawPacket * list ReplyBlock)) s final rbs rb :
  store_wf s → last batches = Some (final, rbs) → last rbs = Some rb →
  last (blocks src (for_each (λ b, for_each (store_insert src) b.2) batches s)) = Some rb.
Proof.
  intros Hs (batches' & ->)%last_Some (rbs' & ->)%last_Some. rewrite for_each_app. cbn.
  rewrite for_each_app. cbn. rewrite blocks_insert_same.
  - unfold push_bounded. by rewrite last_snoc.
  - by apply for_each_store_insert_wf, for_each_batches_wf.
Qed.

(** * Across the network *)

(** The two ways stay open while only applications change. *)
Lemma two_ways_calm net net' g a dst p q :
  calm net net' → two_ways net g a dst p q → two_ways net' g a dst p q.
Proof.
  intros Hc [Hp Hq ? ? Hrp Hrq Hkp Hkq].
  assert (∀ l, path_ready net l → keys_known net g l → keys_known net' g l) as Hk.
  { intros l [Hn _] Hkn x c' Hx Hc'. destruct (Hn x Hx) as (c & Hxc & _).
    destruct (Hc x c Hxc) as (c'' & Hx' & Ha). rewrite Hc' in Hx'. injection Hx' as <-.
    destruct (Hkn x c Hx Hxc) as (d & Hd & Hpk). exists d. by rewrite (alike_onion _ _ Ha). }
  split; auto; by eapply path_ready_calm.
Qed.

Section exchange.
  Context (a dst : Fingerprint) (p q : list Fingerprint) (isk : IdentitySecret).
  Hypothesis Hdummy : fits dummy.
  Hypothesis Hblocks : ∀ rbs, length rbs = BATCH_SIZE → fits (IReplyBlocks rbs).
  Hypothesis Hdist : a ≠ dst.

Abbreviation anon := (fingerprint (public isk)).

(** The answer comes back through a usable reply block. *)
Lemma answer_arrives net ca cd osk id dg rb dd sd reply h ch :
  ctx_wf ca → two_ways net (relay_graph ca) a dst p q →
  net !! a = Some ca → net !! dst = Some cd → last (blocks anon (anon_dests cd)) = Some rb → id ≠ 0%N →
  usable (path_hops net osk q) (node_sk net osk a) isk id dg rb →
  moka_get (clock ca) id (degarblers ca) = Some dg → (0 < balance isk dst ca)%Z →
  fits (IMessage (mkMessage dd sd reply)) →
  im_get (Endpoint_new anon sd) (socket_recv_queues ca) = Some h →
  sockets ca !! h = Some ch → (N.of_nat (length (chan_view ch)) < chan_cap ch)%N →
  ∃ cd' net' ca' ch', send_n2r (global_identity cd) dd anon sd reply cd = (Ok tt, cd') ∧
    rtc net_step (<[dst := cd']> net) net' ∧ net' !! a = Some ca' ∧
    socket_recv_queues ca' = socket_recv_queues ca ∧ sockets ca' = <[h := ch']> (sockets ca) ∧
    chan_view ch' = chan_view ch ++ [(mkMessage dd sd reply, dst)].
Proof.
  intros Hwfa Hw Ha Hd Hrb Hid [Hisk Huse] Hget Hbal Hfits Hq Hch Hroom.
  destruct (Huse Hid _ (global_identity cd) Hfits) as (pkt & final & garbled & Hnew & Hal & Hfin & Hdeg).
  destruct (route_nodes net ca dst a q Hwfa (way_back _ _ _ _ _ _ Hw) (back_ready _ _ _ _ _ _ Hw))
    as (Eq & Hlast & _ & (cd0 & Hd' & Hwfd & Hpd & Hfd) & (ca0 & Ha' & _ & Hpa & Hfa)).
  assert (cd0 = cd) as -> by congruence. assert (ca0 = ca) as -> by congruence. clear Ha' Hd'.
  destruct (pop_reply_block_spec (E:=SendMessageError) anon cd Hwfd) as (s & Hpop & Hswf & _).
  rewrite Hrb in Hpop. set (base := set_anon_dests s cd) in *.
  assert (alike cd base) as Hbase by (split; try done; intros []; by split).
  destruct (inject_same_node base pkt (alike_wf _ _ Hbase Hwfd)) as [Hsame Hpend]; [cbn; by rewrite Hpd|].
  rewrite Eq, path_hops_snd, <-Eq in Hal.
  destruct (packets_travel net osk dst a q cd base _ [pkt] [final]
    (back_ready _ _ _ _ _ _ Hw) Eq Hlast Hd Hbase Hsame Hpend) as (net1 & Hs1 & Hc1).
  { done. } { constructor; [|constructor]. unfold peel_path. by rewrite <-Eq. }
  destruct (Hc1 a ca) as (ca1 & Ha1 & Hsa & Hpa1); [by rewrite lookup_insert_ne|].
  rewrite decide_True, Hpa in Hpa1 by done. pose proof (same_shape _ _ Hsa) as Hsh.
  assert (node_sk net osk a = global_onion_sk ca) as Hska by (unfold node_sk; by rewrite Ha).
  destruct (answer_received net (relay_graph ca) a dst p q osk isk Hw
    Hdummy Hblocks ca1 final id garbled dg (mkMessage dd sd reply) h ch)
    as (ca2 & ch' & Hpeel & Hq2 & Hs2 & Hv); try done.
  { split; [|by rewrite Hsh..|by rewrite Hpa1].
    rewrite Hsh. destruct Hwfa. split; try done. cbn. by apply (same_wf _ _ Hsa). }
  { by rewrite (same_onion _ _ Hsa), <-Hska. } { by rewrite Hsh. } { by rewrite Hdeg, <-Hfd. } 1-3: by rewrite Hsh.
  exists (set_neigh_table (inject_asif_incoming pkt (neigh_table base)) base), (<[a := ca2]> net1),
    ca2, ch'. split_and!.
  - unfold send_n2r, mbind, M_bind, get_state, lift. rewrite Hpop, bool_decide_eq_false_2 by tauto.
    by rewrite Hnew.
  - etrans; [exact Hs1|]. eapply net_peels; [exact Ha1|]. by apply rtc_once.
  - apply lookup_insert_eq.
  - by rewrite Hq2, Hsh.
  - by rewrite Hs2, Hsh.
  - done.
Qed.

(** The destination takes the batches of reply blocks, then the message. *)
Lemma question_delivered cd c batches final rbs f0 rb msg h ch :
  ctx_wf cd → pending (neigh_table cd) = [] → same_node cd c →
  pending (neigh_table c) = batches.*1 ++ [final] →
  Forall (λ b, peel b.1 (global_onion_sk cd) = Ok (Received anon (IReplyBlocks b.2))) batches →
  last batches = Some (f0, rbs) → last rbs = Some rb →
  peel final (global_onion_sk cd) = Ok (Received anon (IMessage msg)) →
  im_get (Endpoint_new (my_fingerprint cd) (dest_dock msg)) (socket_recv_queues cd) = Some h →
  sockets cd !! h = Some ch → (N.of_nat (length (chan_view ch)) < chan_cap ch)%N →
  ∃ cd' ch', rtc peels c cd' ∧ alike cd cd' ∧ socket_recv_queues cd' = socket_recv_queues cd ∧
    sockets cd' = <[h := ch']> (sockets cd) ∧ chan_view ch' = chan_view ch ++ [(msg, anon)] ∧
    last (blocks anon (anon_dests cd')) = Some rb.
Proof.
  intros Hwf Hp0 Hs Hp Hall Hlb Hlr Hfin Hq Hch Hroom. pose proof (same_shape _ _ Hs) as Hsh.
  pose proof (same_wf _ _ Hs (ctx_neigh _ Hwf)) as Hnw.
  assert (ctx_wf c) as Hwfc by (rewrite Hsh; destruct Hwf; by split).
  destruct (blocks_delivered batches [final] anon c Hwfc Hp) as (nt & s & Hb & Hnt & Hpn & Htn & Hswf & Hst).
  { by rewrite (same_onion _ _ Hs). }
  set (c1 := set_anon_dests s (set_neigh_table nt c)) in *.
  destruct (message_delivered c1 final [] anon msg h ch) as (nt' & ch' & Hm & Hnt' & Hpn' & Htn' & Hv);
    [done..| | | |done|].
  { by rewrite <-(same_onion _ _ Hs) in Hfin. }
  { change (my_fingerprint c1) with (my_fingerprint c). cbn. by rewrite Hsh. } { cbn. by rewrite Hsh. }
  exists (set_queues (socket_recv_queues c1) (<[h := ch']> (sockets c1)) (set_neigh_table nt' c1)), ch'.
  split_and!; [by eapply rtc_r| |cbn; by rewrite Hsh..|done|].
  - split; cbn.
    + by rewrite Hsh.
    + by rewrite Hsh.
    + rewrite Htn'. cbn. by rewrite Htn, (same_table _ _ Hs).
    + by rewrite Hpn', Hp0.
    + apply Hs.
    + intros _. destruct Hwfc. by split.
  - cbn. rewrite Hst. eapply last_block; [apply Hwfc|done..].
Qed.

(** Once a node has taken the packets it was sent, the network is calm. *)
Lemma carries_calm net0 y l net c0 c' :
  carries net0 y l net → net0 !! y = Some c0 → alike c0 c' → calm net0 (<[y := c']> net).
Proof.
  intros Hc Hy Ha z c Hz. destruct (decide (z = y)) as [->|Hne].
  - exists c'. rewrite lookup_insert_eq. by simplify_eq.
  - rewrite lookup_insert_ne by done. destruct (Hc z c Hz) as (c1 & ? & ? & Hp). exists c1.
    rewrite decide_False, app_nil_r in Hp by done. split; [done|]. by apply same_node_alike.
Qed.

(** The sender while its question travels. *)
Record asking (ca ca1 : DaemonContext) (ca' : DaemonContext) : Prop := {
  asking_wf : ctx_wf ca';
  asking_clock : clock ca' = clock ca;
  asking_graph : relay_graph ca' = relay_graph ca;
  asking_queues : socket_recv_queues ca' = socket_recv_queues ca;
  asking_sockets : sockets ca' = sockets ca;
  asking_degarblers : degarblers ca' = degarblers ca1;
  asking_balance : (0 < balance isk dst ca')%Z
}.

(** The sender's state without the packets to go out. *)
Lemma sent_base s ca ca1 pkts :
  ctx_wf ca → store_wf s → sent (set_anon_dests s ca) ca1 pkts → (100 <= balance isk dst ca1)%Z →
  let base := set_neigh_table (neigh_table ca) ca1 in
  alike ca base ∧ same_node base ca1 ∧ pending (neigh_table ca1) = pending (neigh_table base) ++ pkts ∧
  ∀ ca', same_node base ca' → asking ca ca1 ca'.
Proof.
  intros Hwf Hs [Hsh Ht Hp Hwf1] Hbal base. split_and!.
  - split; unfold base; cbn; try done; [by rewrite Hsh..|]. intros _. destruct Hwf, Hwf1. by split.
  - split; [|by rewrite Ht|done|intros _; apply Hwf1]. unfold base. by destruct ca1.
  - done.
  - intros ca' [Hsh' Ht' Hl' Hw']. rewrite Hsh'. split; [|cbn; by rewrite Hsh..|done|].
    + destruct Hwf, Hwf1. split; try done. cbn. auto.
    + unfold balance in *. cbn. lia.
Qed.

Lemma question_arrives net ca cd osk sd dd content h ch :
  ctx_wf ca → two_ways net (relay_graph ca) a dst p q →
  net !! a = Some ca → net !! dst = Some cd →
  isk ≠ global_identity ca → blocks dst (anon_dests ca) = [] → (0 <= balance isk dst ca < 100)%Z →
  fits (IMessage (mkMessage sd dd content)) →
  im_get (Endpoint_new dst dd) (socket_recv_queues cd) = Some h →
  sockets cd !! h = Some ch → (N.of_nat (length (chan_view ch)) < chan_cap ch)%N →
  ∃ ca1 net1 ca' cd' ch' id dg rb, send_n2r isk sd dst dd content ca = (Ok tt, ca1) ∧
    rtc net_step (<[a := ca1]> net) net1 ∧ calm net net1 ∧
    net1 !! a = Some ca' ∧ asking ca ca1 ca' ∧
    net1 !! dst = Some cd' ∧ alike cd cd' ∧ socket_recv_queues cd' = socket_recv_queues cd ∧
    sockets cd' = <[h := ch']> (sockets cd) ∧
    chan_view ch' = chan_view ch ++ [(mkMessage sd dd content, anon)] ∧
    last (blocks anon (anon_dests cd')) = Some rb ∧
    moka_get (clock ca) id (degarblers ca1) = Some dg ∧
    usable (path_hops net osk q) (node_sk net osk a) isk id dg rb.
Proof.
  intros Hwfa Hw Ha Hd Hanon Hnone Hbal Hfits Hq Hch Hroom.
  destruct (route_nodes net ca a dst p Hwfa (way_out _ _ _ _ _ _ Hw) (out_ready _ _ _ _ _ _ Hw))
    as (Ep & Hlast & _ & (ca0 & Ha' & _ & Hpa & Hfa) & (cd0 & Hd' & Hwfd & Hpd & Hfd)).
  assert (cd0 = cd) as -> by congruence. assert (ca0 = ca) as -> by congruence. clear Ha' Hd'.
  pose proof (batches_due_bound _ (proj1 Hbal)) as Hdue.
  destruct (ask_sent net (relay_graph ca) a dst p q osk isk Hw Hdummy Hblocks sd dd content ca)
    as (s & ca1 & pkts & batches & pkt & final & Hsend & Hs & Hst & Hlen & Hge & Hall & Hans & Hway); try done; try lia.
  { split; try done; [unfold node_sk; by rewrite Ha|]. rewrite Hpa. cbn [length]. unfold INCOMING_CAPACITY. lia. }
  destruct (sent_base s ca ca1 _ Hwfa Hs Hst Hge) as (Hbase & Hsame & Hpend & Hask).
  set (base := set_neigh_table (neigh_table ca) ca1) in *.
  destruct (packets_travel net osk a dst p ca base ca1 (pkts ++ [pkt]) (batches.*1 ++ [final]))
    as (net1 & Hs1 & Hc1); try done; try apply Hw.
  { rewrite length_app. cbn. unfold INCOMING_CAPACITY. lia. }
  { apply Forall2_app; [|by constructor; [apply Hway|]]. apply Forall2_fmap_r.
    eapply Forall2_impl; [exact Hall|]. intros ? ? [? _]. done. }
  destruct (Hc1 dst cd) as (cd1 & Hd1 & Hsd & Hpd1); [by rewrite lookup_insert_ne|].
  rewrite decide_True, Hpd in Hpd1 by done.
  assert (node_sk net osk dst = global_onion_sk cd) as Hskd by (unfold node_sk; by rewrite Hd).
  destruct Hans as (f0 & rbs & rb & id & dg & Hlb & Hlr & Hget & Huse).
  destruct (question_delivered cd cd1 batches final rbs f0 rb (mkMessage sd dd content) h ch)
    as (cd' & ch' & Hpeels & Hal & Hqs & Hss & Hv & Hlast'); try done.
  { rewrite <-Hskd. eapply Forall2_right; [exact Hall|]. by intros ? ? [_ ?]. }
  { rewrite <-Hskd. apply Hway. } { by rewrite Hfd. }
  destruct (Hc1 a base) as (ca' & Ha1 & Hsa & _); [by rewrite lookup_insert_eq|].
  exists ca1, (<[dst := cd']> net1), ca', cd', ch', id, dg, rb. split_and!; try done.
  - etrans; [exact Hs1|]. by eapply net_peels.
  - etrans; [by apply (calm_insert net a ca base)|].
    eapply carries_calm; [exact Hc1|by rewrite lookup_insert_ne|done].
  - by rewrite lookup_insert_ne.
  - by apply Hask.
  - apply lookup_insert_eq.
  - change (clock ca) with (clock (set_anon_dests s ca)). by rewrite <-(sent_clock _ _ _ Hst).
Qed.

End exchange.

(** * Between two sockets *)

(** A socket that is bound and has nothing queued, either way. *)
Record fresh_socket (c : DaemonContext) (s : N2rSocket) : Prop := {
  fresh_bound : im_get (local_endpoint s) (socket_recv_queues c) = Some (recv_incoming s);
  fresh_chan : ∃ ch, sockets c !! recv_incoming s = Some ch ∧ chan_view ch = [] ∧ (0 < chan_cap ch)%N;
  fresh_queue : incoming_queue s = [];
  fresh_out : chan_view (send_outgoing s) = [] ∧ (0 < chan_cap (send_outgoing s))%N
}.

(** A socket is fresh when it has just been bound. *)
Lemma bind_fresh_socket {E} fuel isk dock c skt c' :
  bind (E:=E) fuel isk dock c = (Ok skt, c') →
  fresh_socket c' skt ∧ bound_fp skt = fingerprint (public isk) ∧ ∃ qs ss r, c' = set_queues qs ss (set_rng r c).
Proof.
  unfold bind. intros H. apply M_bind_ok_inv in H as (d & c0 & Hd & H).
  assert (∃ r, c0 = set_rng r c) as [r ->].
  { destruct dock; [injection Hd as _ <-; exists (thread_rng c); by destruct c|].
    by apply random_dock_free in Hd as [_ ?]. }
  apply M_bind_ok_inv in H as (? & ? & [= <- <-] & H).
  apply M_bind_ok_inv in H as ([] & ? & [= <-] & [= <- <-]). split_and!; [|done|by eauto].
  split; cbn; [|eexists; split; [apply lookup_insert_eq|]|done|];
    rewrite ?chan_view_bounded, ?chan_cap_bounded; try done.
  unfold local_endpoint. cbn. by rewrite im_get_insert, decide_True.
Qed.

(** What the batcher finds after one [send_to], and what it sends. *)
Lemma send_to_fresh c s m ep :
  fresh_socket c s → chan_view (send_outgoing (send_to m ep s)) = [(m, ep)].
Proof.
  intros [_ _ _ [Hv Hc]]. unfold send_to.
  destruct (chan_try_send_ok (m, ep) (send_outgoing s)) as (ch & -> & Hv' & _); [by rewrite Hv|].
  cbn. by rewrite Hv', Hv.
Qed.

Lemma batcher_single isk dock m ep c c' :
  small m → send_n2r isk dock (ep_fingerprint ep) (ep_dock ep) [m] c = (Ok tt, c') →
  send_batcher_round isk dock [(m, ep)] c = (Ok tt, c').
Proof.
  intros Hm Hsend. unfold send_batcher_round.
  assert (collect_batches [(m, ep)] = {[ep := [m]]}) as -> by done.
  assert (hash_iter (dom ({[ep := [m]]} : gmap Endpoint (list (list byte)))) = [ep]) as ->.
  { apply Permutation_singleton_r. by rewrite hash_iter_perm, dom_singleton_L, elements_singleton. }
  cbn [send_batches]. rewrite lookup_singleton_eq. cbn [default from_option id length send_batch take_subbatch].
  unfold small in Hm. assert ((LIMIT <? 0 + N.of_nat (length m) + OVERHEAD)%N = false) as ->
    by (apply N.ltb_ge; lia).
  unfold mbind, M_bind. by rewrite Hsend.
Qed.

Lemma recv_from_one c s ch m sd dd fp :
  incoming_queue s = [] → sockets c !! recv_incoming s = Some ch →
  chan_view ch = [(mkMessage sd dd [m], fp)] →
  ∃ ch', recv_from 2 (c, s) = (Ok (Some (m, Endpoint_new fp sd)),
      (set_queues (socket_recv_queues c) (<[recv_incoming s := ch']> (sockets c)) c, s)) ∧
    chan_view ch' = [].
Proof.
  intros Hq Hch Hv. pose proof (chan_try_recv_spec ch) as Hr. rewrite Hv in Hr.
  destruct Hr as (ch' & Hr & Hv' & _). exists ch'. split; [|done]. destruct s. cbn in Hq, Hch |- *. subst.
  rewrite Hch. cbn. by rewrite Hr.
Qed.

(** The test [n2r], between the application at [a] with the socket [sa], bound
    under [isk], and that at [dst] with the socket [sb]: [sa] sends to [sb],
    which receives, and answers to the endpoint it was given.  Between a send
    and the receive the batcher of the socket runs a round and the network
    takes steps. *)
Definition n2r_test (a dst : Fingerprint) (isk : IdentitySecret) (sa sb : N2rSocket)
    (alice_msg charlie_msg : list byte) (ca : DaemonContext) (net : network) : Prop :=
  ∃ ca1 net1 cd1 ep cd2 sb2,
    send_batcher_round isk (bound_dock sa)
      (chan_view (send_outgoing (send_to alice_msg (local_endpoint sb) sa))) ca = (Ok tt, ca1) ∧
    rtc net_step (<[a := ca1]> net) net1 ∧ net1 !! dst = Some cd1 ∧
    recv_from 2 (cd1, sb) = (Ok (Some (alice_msg, ep)), (cd2, sb2)) ∧ ep = local_endpoint sa ∧
    ∃ cd3 net2 ca2 ep' st,
      send_batcher_round (global_identity cd2) (bound_dock sb2)
        (chan_view (send_outgoing (send_to charlie_msg ep sb2))) cd2 = (Ok tt, cd3) ∧
      rtc net_step (<[dst := cd3]> net1) net2 ∧ net2 !! a = Some ca2 ∧
      recv_from 2 (ca2, sa) = (Ok (Some (charlie_msg, ep')), st) ∧ ep' = local_endpoint sb.

(** The conditions of the test: the nodes know ready routes both ways, the
    sender is anonymous and has not yet given [dst] enough reply blocks, both
    sockets are fresh, and the messages fit. *)
Record n2r_ready (net : network) (a dst : Fingerprint) (isk : IdentitySecret) (p q : list Fingerprint)
    (sa sb : N2rSocket) (alice_msg charlie_msg : list byte) (ca cd : DaemonContext) : Prop := {
  rdy_a : net !! a = Some ca;
  rdy_dst : net !! dst = Some cd;
  rdy_distinct : a ≠ dst;
  rdy_wf : ctx_wf ca;
  rdy_ways : two_ways net (relay_graph ca) a dst p q;
  rdy_anon : isk ≠ global_identity ca;
  rdy_none : blocks dst (anon_dests ca) = [];
  rdy_balance : (0 <= balance isk dst ca < 100)%Z;
  rdy_sa : fresh_socket ca sa;
  rdy_sb : fresh_socket cd sb;
  rdy_sa_fp : bound_fp sa = fingerprint (public isk);
  rdy_sb_fp : bound_fp sb = dst;
  rdy_small : small alice_msg ∧ small charlie_msg;
  rdy_fits : fits (IMessage (mkMessage (bound_dock sa) (bound_dock sb) [alice_msg]));
  rdy_reply_fits : fits (IMessage (mkMessage (bound_dock sb) (bound_dock sa) [charlie_msg]))
}.

(** The question between the two sockets. *)
Lemma question_received net a dst isk p q sa sb alice_msg charlie_msg ca cd :
  fits dummy → (∀ rbs, length rbs = BATCH_SIZE → fits (IReplyBlocks rbs)) →
  n2r_ready net a dst isk p q sa sb alice_msg charlie_msg ca cd →
  ∃ ca1 net1 cd1 cd2 ca' id dg rb,
    send_batcher_round isk (bound_dock sa)
      (chan_view (send_outgoing (send_to alice_msg (local_endpoint sb) sa))) ca = (Ok tt, ca1) ∧
    rtc net_step (<[a := ca1]> net) net1 ∧ net1 !! dst = Some cd1 ∧
    recv_from 2 (cd1, sb) = (Ok (Some (alice_msg, local_endpoint sa)), (cd2, sb)) ∧
    calm net (<[dst := cd2]> net1) ∧ net1 !! a = Some ca' ∧ asking dst isk ca ca1 ca' ∧
    last (blocks (fingerprint (public isk)) (anon_dests cd2)) = Some rb ∧
    moka_get (clock ca) id (degarblers ca1) = Some dg ∧
    usable (path_hops net (global_onion_sk ca) q) (node_sk net (global_onion_sk ca) a) isk id dg rb.
Proof.
  intros Hdummy Hblocks [Ha Hd Hdist Hwf Hw Hanon Hnone Hbal Hsa Hsb Hfa Hfb [Hsm _] Hf _].
  pose proof (fresh_chan _ _ Hsb) as (chb & Hchb & Hvb & Hcb).
  pose proof (fresh_bound _ _ Hsb) as Hbb. unfold local_endpoint in Hbb. rewrite Hfb in Hbb.
  destruct (question_arrives a dst p q isk Hdummy Hblocks Hdist net ca cd (global_onion_sk ca)
    (bound_dock sa) (bound_dock sb) [alice_msg] (recv_incoming sb) chb)
    as (ca1 & net1 & ca' & cd1 & chb' & id & dg & rb & Hsend & Hs1 & Hcalm & Ha1 & Hask & Hd1 & _ & _
        & Hsd & Hvb' & Hrb & Hget & Huse); try done; [by rewrite Hvb|].
  rewrite Hvb in Hvb'. cbn in Hvb'.
  destruct (recv_from_one cd1 sb chb' alice_msg (bound_dock sa) (bound_dock sb) (fingerprint (public isk)))
    as (chb2 & Hrecv & _); [apply Hsb|by rewrite Hsd, lookup_insert_eq|done|].
  exists ca1, net1, cd1, (set_queues (socket_recv_queues cd1) (<[recv_incoming sb := chb2]> (sockets cd1)) cd1),
    ca', id, dg, rb. split_and!; try done.
  - rewrite (send_to_fresh ca) by done. apply batcher_single; [done|]. cbn. by rewrite Hfb.
  - unfold local_endpoint. rewrite Hfa. exact Hrecv.
  - etrans; [exact Hcalm|]. apply (calm_insert net1 dst cd1); [done|]. split; try done. intros []; by split.
Qed.

(** Both ways together. *)
Lemma round_trip net a dst isk p q sa sb alice_msg charlie_msg ca cd :
  fits dummy → (∀ rbs, length rbs = BATCH_SIZE → fits (IReplyBlocks rbs)) →
  n2r_ready net a dst isk p q sa sb alice_msg charlie_msg ca cd →
  (∀ ca1, send_batcher_round isk (bound_dock sa)
      (chan_view (send_outgoing (send_to alice_msg (local_endpoint sb) sa))) ca = (Ok tt, ca1) →
    moka_get (clock ca) 0%N (degarblers ca1) = None) →
  n2r_test a dst isk sa sb alice_msg charlie_msg ca net.
Proof.
  intros Hdummy Hblocks Hr Hzero.
  destruct (question_received net a dst isk p q sa sb alice_msg charlie_msg ca cd Hdummy Hblocks Hr)
    as (ca1 & net1 & cd1 & cd2 & ca' & id & dg & rb & Hround & Hs1 & Hd1 & Hrecv & Hcalm & Ha1
        & [Hwf' Hck Hg Hqa Hsa' Hdg Hbal'] & Hrb & Hget & Huse).
  destruct Hr as [Ha Hd Hdist Hwf Hw _ _ _ Hsa Hsb Hfa Hfb [_ Hsm] _ Hf].
  pose proof (fresh_chan _ _ Hsa) as (cha & Hcha & Hva & Hca).
  pose proof (fresh_bound _ _ Hsa) as Hba. unfold local_endpoint in Hba. rewrite Hfa in Hba.
  assert (id ≠ 0%N) as Hid by (intros ->; by rewrite (Hzero _ Hround) in Hget).
  destruct (answer_arrives a dst p q isk Hdummy Hblocks Hdist (<[dst := cd2]> net1) ca' cd2 (global_onion_sk ca)
    id dg rb (bound_dock sb) (bound_dock sa) [charlie_msg] (recv_incoming sa) cha)
    as (cd3 & net2 & ca2 & cha' & Hsend2 & Hs2 & Ha2 & Hq2 & Hsk2 & Hv2); try done.
  { rewrite Hg. by eapply two_ways_calm. } { by rewrite lookup_insert_ne. } { apply lookup_insert_eq. }
  { rewrite (path_hops_calm net), (node_sk_calm net); try done. by eapply path_nodes, Hw. }
  { by rewrite Hck, Hdg. } { by rewrite Hqa. } { by rewrite Hsa'. } { by rewrite Hva. }
  rewrite insert_insert_eq in Hs2. rewrite Hva in Hv2. cbn in Hv2.
  destruct (recv_from_one ca2 sa cha' charlie_msg (bound_dock sb) (bound_dock sa) dst)
    as (cha2 & Hrecv2 & _); [apply Hsa|by rewrite Hsk2, lookup_insert_eq|done|].
  exists ca1, net1, cd1, (local_endpoint sa), cd2, sb. split_and!; try done.
  exists cd3, net2, ca2, (local_endpoint sb). eexists. split_and!; try done.
  - rewrite (send_to_fresh cd) by done. apply batcher_single; [done|]. cbn. by rewrite Hfa.
  - unfold local_endpoint. rewrite Hfb. exact Hrecv2.
Qed.

(** C3 (a question and its answer): the test [n2r] passes.  The question sent from an anonymous
    socket arrives with the anonymous endpoint, and the answer sent to that
    endpoint comes back through one of the reply blocks that went along, from
    the endpoint asked.  The conditions are those of [n2r_ready], that ten reply blocks fit
    in a packet, and that no reply block happened to get the identifier zero. *)
Theorem n2r_round_trip net a dst isk p q sa sb alice_msg charlie_msg ca cd :
  fits dummy → (∀ rbs, length rbs = BATCH_SIZE → fits (IReplyBlocks rbs)) →
  n2r_ready net a dst isk p q sa sb alice_msg charlie_msg ca cd →
  (∀ ca1, send_batcher_round isk (bound_dock sa)
      (chan_view (send_outgoing (send_to alice_msg (local_endpoint sb) sa))) ca = (Ok tt, ca1) →
    moka_get (clock ca) 0%N (degarblers ca1) = None) →
  n2r_test a dst isk sa sb alice_msg charlie_msg ca net.
Proof. apply round_trip. Qed.

End RoundTrip.

(** * Witness *)

(** Ten reply blocks fit. *)
Lemma ten_blocks_fit rbs : length rbs = BATCH_SIZE → fits (IReplyBlocks rbs).
Proof.
  intros Hl. unfold fits, payload_room. cbn [bincode_serialize wire_bincode wput wire_InnerPacket].
  cbn [length wire_list wput]. rewrite length_app, Hl.
  assert (∀ rbs : list ReplyBlock, length (concat (map wput rbs)) = 722 * length rbs) as ->.
  { clear. induction rbs as [|[[o i] e] rbs IH]; [done|]. cbn [map concat]. rewrite length_app, IH.
    cbn [wput wire_ReplyBlock wire_iso wire_pair fst snd rb_header e2e_dest wire_RawHeader outer inner].
    rewrite !length_app. cbn [wput wire_array wire_OnionPublic]. rewrite !array_length.
    change (N.to_nat 69) with 69. change (N.to_nat 621) with 621. change (N.to_nat 32) with 32. cbn [length]. lia. }
  rewrite Hl. vm_compute. discriminate.
Qed.

(** The sample network of [Network.v], with the applications of its first and
    third nodes changed. *)
Definition sample_with (c1 c3 : DaemonContext (P:=toy)) : gmap Fingerprint (DaemonContext (P:=toy)) :=
  <[fp3 := c3]> (<[fp1 := c1]> sample_net).
Definition back_path : list Fingerprint := [fp3; fp2; fp1].

(** The links and the route back, by evaluation. *)
Lemma back_links :
  (neigh_lookup fp2 (neigh_table ctx3) = Some (conn_to x02) ∧ links ctx3 !! 2%N = Some idle_chan ∧
   im_get fp3 (table (neigh_table ctx2)) = Some (conn_to x03, None)) ∧
  (neigh_lookup fp1 (neigh_table ctx2) = Some (conn_to x01) ∧ links ctx2 !! 1%N = Some idle_chan ∧
   im_get fp2 (table (neigh_table ctx1)) = Some (conn_to x02, None)).
Proof. vm_compute. auto 10. Qed.

Lemma back_route :
  find_shortest_path (E:=SendMessageError) (relay_graph ctx1) fp3 fp1 = Ok (Some back_path).
Proof. vm_compute. reflexivity. Qed.

Lemma back_path_nodes : ∀ x, x ∈ back_path → x ∈ sample_path.
Proof.
  apply (forall_three (λ x, x ∈ sample_path) fp3 fp2 fp1).
  - apply list_elem_of_further, list_elem_of_further, list_elem_of_here.
  - apply list_elem_of_further, list_elem_of_here.
  - apply list_elem_of_here.
Qed.

Lemma back_path_ready : path_ready sample_net back_path.
Proof.
  destruct back_links as ((L1 & C1 & B1) & (L2 & C2 & B2)). split.
  - intros x Hx. apply (proj1 sample_path_ready), back_path_nodes, Hx.
  - apply (forall_edges (edge_ready sample_net) fp3 fp2 fp1).
    + exists ctx3, ctx2, (conn_to x02), idle_chan.
      exact (conj sample_net_3 (conj sample_net_2 (conj L1 (conj C1 (conj eq_refl (conj eq_refl
        (mk_is_Some _ _ B1))))))).
    + exists ctx2, ctx1, (conn_to x01), idle_chan.
      exact (conj sample_net_2 (conj sample_net_1 (conj L2 (conj C2 (conj eq_refl (conj eq_refl
        (mk_is_Some _ _ B2))))))).
Qed.

Lemma sample_ways : two_ways (P:=toy) sample_net (relay_graph ctx1) fp1 fp3 sample_path back_path.
Proof.
  destruct sample_route as (R1 & _).
  split; [exact R1|exact back_route|cbn; lia|cbn; lia|exact sample_path_ready|exact back_path_ready| |].
  - exact sample_keys_known.
  - intros x c Hx. apply sample_keys_known, back_path_nodes, Hx.
Qed.

Lemma sample_fps : fp1 ≠ fp3.
Proof. vm_compute. discriminate. Qed.

Lemma sample_calm c1 c3 : alike ctx1 c1 → alike ctx3 c3 → calm sample_net (sample_with c1 c3).
Proof.
  intros H1 H3. etrans; [exact (calm_insert sample_net fp1 ctx1 c1 sample_net_1 H1)|].
  apply (calm_insert _ fp3 ctx3); [|done]. rewrite lookup_insert_ne by exact sample_fps. exact sample_net_3.
Qed.

(** The caller is an anonymous identity of the first node. *)
Lemma sample_ready c1 c3 sa sb m1 m2 :
  alike ctx1 c1 → relay_graph c1 = relay_graph ctx1 → anon_dests c1 = anon_dests ctx1 → alike ctx3 c3 →
  balance (P:=toy) (node_isk x09) fp3 c1 = 95%Z → fresh_socket c1 sa → fresh_socket c3 sb →
  bound_fp sa = node_fp x09 → bound_fp sb = fp3 → small m1 → small m2 →
  fits (IMessage (mkMessage (bound_dock sa) (bound_dock sb) [m1])) →
  fits (IMessage (mkMessage (bound_dock sb) (bound_dock sa) [m2])) →
  n2r_ready (P:=toy) (sample_with c1 c3) fp1 fp3 (node_isk x09) sample_path back_path sa sb m1 m2 c1 c3.
Proof.
  intros H1 Hg Hd H3 Hb Hsa Hsb Hfa Hfb Hm1 Hm2 Hf1 Hf2.
  destruct sample_route as (_ & _ & _ & Hnone). split.
  - unfold sample_with. rewrite lookup_insert_ne by (exact (not_eq_sym sample_fps)). apply lookup_insert_eq.
  - apply lookup_insert_eq.
  - exact sample_fps.
  - apply (alike_wf _ _ H1), node_ctx_wf. reflexivity.
  - rewrite Hg. exact (two_ways_calm _ _ _ _ _ _ _ (sample_calm _ _ H1 H3) sample_ways).
  - rewrite (alike_identity _ _ H1). vm_compute. discriminate.
  - rewrite Hd. exact Hnone.
  - rewrite Hb. lia.
  - exact Hsa.
  - exact Hsb.
  - exact Hfa.
  - exact Hfb.
  - exact (conj Hm1 Hm2).
  - exact Hf1.
  - exact Hf2.
Qed.

(** Sockets on the first and third nodes; the caller has given out most of its
    reply blocks before. *)
Definition rt_bind (i : byte) (dock : option Dock) (c : DaemonContext (P:=toy))
    : outcome Empty_set N2rSocket * DaemonContext :=
  bind (P:=toy) 1 (node_isk i) dock c.
Definition rt_skt (r : outcome Empty_set N2rSocket * DaemonContext (P:=toy)) : N2rSocket :=
  match r.1 with Ok s => s | _ => mkN2rSocket (zeros 20) 0%N 0%N [] (chan_bounded 0) end.
Definition rt_base : DaemonContext (P:=toy) :=
  (set_balance (E:=Empty_set) (node_isk x09) fp3 95%Z ctx1).2.
Definition rt_ctx1 : DaemonContext (P:=toy) := (rt_bind x09 (Some 42%N) rt_base).2.
Definition rt_ctx3 : DaemonContext (P:=toy) := (rt_bind x03 (Some 42%N) ctx3).2.
Definition rt_sa : N2rSocket := rt_skt (rt_bind x09 (Some 42%N) rt_base).
Definition rt_sb : N2rSocket := rt_skt (rt_bind x03 (Some 42%N) ctx3).
Definition rt_round : outcome SendMessageError unit * DaemonContext (P:=toy) :=
  send_batcher_round (node_isk x09) 42%N [([x68; x69], Endpoint_new fp3 42%N)] rt_ctx1.

(** Binding a socket and setting a balance leave a node alike. *)
Lemma queues_alike qs ss r (c : DaemonContext (P:=toy)) : alike c (set_queues qs ss (set_rng r c)).
Proof. split; try reflexivity. intros []. by split. Qed.

Lemma queues_balance isk fp qs ss r (c : DaemonContext (P:=toy)) :
  balance isk fp (set_queues qs ss (set_rng r c)) = balance isk fp c.
Proof. reflexivity. Qed.

Lemma rt_base_alike : alike ctx1 rt_base.
Proof.
  unfold rt_base. generalize ctx1. intros c. split; try reflexivity. intros []. by split.
Qed.

Lemma rt_bound i dock c :
  is_ok (rt_bind i dock c).1 = true → rt_bind i dock c = (Ok (rt_skt (rt_bind i dock c)), (rt_bind i dock c).2).
Proof. unfold rt_skt. destruct (rt_bind i dock c) as [[] ?]; done. Qed.

Lemma rt_bound1 : rt_bind x09 (Some 42%N) rt_base = (Ok rt_sa, rt_ctx1).
Proof. apply rt_bound. vm_compute. reflexivity. Qed.
Lemma rt_bound3 : rt_bind x03 (Some 42%N) ctx3 = (Ok rt_sb, rt_ctx3).
Proof. apply rt_bound. vm_compute. reflexivity. Qed.

Lemma rt_balance : balance (P:=toy) (node_isk x09) fp3 rt_base = 95%Z.
Proof. vm_compute. reflexivity. Qed.

Lemma option_none {A} (o : option A) : (if o is Some _ then false else true) = true → o = None.
Proof. by destruct o. Qed.

Lemma rt_no_zero : moka_get (clock rt_ctx1) 0%N (degarblers rt_round.2) = None.
Proof. apply option_none. vm_compute. reflexivity. Qed.

(** The conditions hold for sockets bound on the two nodes. *)
Lemma bound_ready dock1 dock3 sa sb c1 c3 m1 m2 :
  rt_bind x09 dock1 rt_base = (Ok sa, c1) → rt_bind x03 dock3 ctx3 = (Ok sb, c3) →
  small m1 → small m2 →
  fits (IMessage (mkMessage (bound_dock sa) (bound_dock sb) [m1])) →
  fits (IMessage (mkMessage (bound_dock sb) (bound_dock sa) [m2])) →
  n2r_ready (P:=toy) (sample_with c1 c3) fp1 fp3 (node_isk x09) sample_path back_path sa sb m1 m2 c1 c3.
Proof.
  intros (Hsa & Hfa & qs & ss & r & ->)%bind_fresh_socket (Hsb & Hfb & qs' & ss' & r' & ->)%bind_fresh_socket.
  apply sample_ready; [|reflexivity|reflexivity| |rewrite queues_balance; exact rt_balance|exact Hsa|exact Hsb|exact Hfa|exact Hfb].
  - etrans; [exact rt_base_alike|apply queues_alike].
  - apply queues_alike.
Qed.

Lemma rt_ready :
  n2r_ready (P:=toy) (sample_with rt_ctx1 rt_ctx3) fp1 fp3 (node_isk x09) sample_path back_path
    rt_sa rt_sb [x68; x69] [x79] rt_ctx1 rt_ctx3.
Proof.
  apply (bound_ready _ _ _ _ _ _ _ _ rt_bound1 rt_bound3); vm_compute; discriminate.
Qed.

Lemma n2r_round_trip_witness :
  n2r_test (P:=toy) fp1 fp3 (node_isk x09) rt_sa rt_sb [x68; x69] [x79] rt_ctx1
    (sample_with rt_ctx1 rt_ctx3).
Proof.
  apply (n2r_round_trip (P:=toy) (sample_with rt_ctx1 rt_ctx3) fp1 fp3 (node_isk x09) sample_path
    back_path rt_sa rt_sb [x68; x69] [x79] rt_ctx1 rt_ctx3).
  - vm_compute. discriminate.
  - exact ten_blocks_fit.
  - exact rt_ready.
  - intros ca1 Hsend. apply (f_equal snd) in Hsend. cbn [snd] in Hsend. rewrite <-Hsend. exact rt_no_zero.
Defined.
