(* ===== verification/Link.v ===== *)
(** Links and gossip: [src/daemon/link_protocol.rs], [LinkConnection::connect]
    and [LinkProtocolImpl] of [src/daemon/link_connection.rs],
    [src/daemon/inout_route.rs] and [src/daemon/gossip.rs].

    The remote side of the link RPC is a [Peer], whose answers are arbitrary;
    [honest_peer] is the daemon of this library answering. *)

From Stdlib Require Import String.
From S2P Require Import Prelude Interfaces Crypto Packet OnionRouting Topology ShortestPath.
From S2P Require Import ReplyStore NeighTable Directory Daemon DaemonSafety Network Instances.
Close Scope string_scope.

(** The public key of a sosistab2 multiplex, as bytes. *)
Definition MuxPublic : Type := list byte.

Record AuthResponse := mkAuthResponse {
  full_pk : IdentityPublic;
  binding_sig : list byte
}.

Definition MAGIC_VALUE : array 32 := key32 "n2n_auth________________________" eq_refl.
Definition IN_ROUTE_TTL : N := 300.

Inductive LinkError :=
  | NoAuthResponse
  | NoPeerKey
  | BadAuthentication (e : VerifyError)
  | WrongFingerprint.

Inductive GossipError :=
  | RpcFailed
  | IdentityRefused
  | BadIdentity (e : VerifyError)
  | SignRefused
  | BadAdjacency (e : AdjacencyError).

Section Link.
  Context {P : Primitives} {IM : IndexMap} {HI : HashIter} {C : Chan} {L : Lru} {MK : Moka}.
  Context {SA : Stdcode AdjacencyDescriptor} {SI : Stdcode IdentityDescriptor}.
  Context {B : Bincode InnerPacket}.

(** * Authentication *)

Definition AuthResponse_new (my_identity : IdentitySecret) (my_pk : MuxPublic) : AuthResponse :=
  let to_sign := blake3_keyed_hash MAGIC_VALUE my_pk in
  mkAuthResponse (public my_identity) (sign my_identity to_sign).

Definition AuthResponse_verify (self : AuthResponse) (peer_pk : MuxPublic)
    : outcome VerifyError unit :=
  let to_sign := blake3_keyed_hash MAGIC_VALUE peer_pk in
  verify (full_pk self) to_sign (binding_sig self).

(** [LinkConnection::connect], given what the other side answers to
    [authenticate] and the key of the multiplex. *)
Definition connect (handle : N) (resp : option AuthResponse) (peer_pk : option MuxPublic)
    : outcome LinkError LinkConnection :=
  resp ← ok_or NoAuthResponse resp;
  pk ← ok_or NoPeerKey peer_pk;
  _ ← map_err BadAuthentication (AuthResponse_verify resp pk);
  Ok (mkLinkConnection handle (full_pk resp)).

(** The task of [in_route_obfsudp] for an accepted pipe. *)
Definition in_route_accept (now handle : N) (resp : option AuthResponse)
    (peer_pk : option MuxPublic) : M NeighTable LinkError unit :=
  connection ← lift (connect handle resp peer_pk);
  modify (neigh_insert now (fingerprint (remote_idpk connection)) connection IN_ROUTE_TTL).

(** The fallible block of [out_route_obfsudp] once the pipe is connected. *)
Definition out_route_connect (now handle : N) (remote_fingerprint : Fingerprint)
    (resp : option AuthResponse) (peer_pk : option MuxPublic) : M NeighTable LinkError unit :=
  connection ← lift (connect handle resp peer_pk);
  if decide (fingerprint (remote_idpk connection) ≠ remote_fingerprint) then throw WrongFingerprint
  else modify (insert_pinned now remote_fingerprint connection).

(** * The link protocol, server side *)

Definition link_authenticate (local_pk : MuxPublic) (ctx : DaemonContext) : AuthResponse :=
  AuthResponse_new (global_identity ctx) local_pk.

Definition set_right_sig (s : list byte) (d : AdjacencyDescriptor) : AdjacencyDescriptor :=
  mkAdjacencyDescriptor (left d) (right d) (left_sig d) s (adj_timestamp d).

Definition on_graph {E A} (m : M RelayGraph E A) : M DaemonContext E A :=
  zoom relay_graph set_relay_graph m.

Definition link_sign_adjacency (oc : bool) (left_incomplete : AdjacencyDescriptor)
    : M DaemonContext Empty_set (option AdjacencyDescriptor) := λ ctx,
  let valid :=
    array_lt (left left_incomplete) (right left_incomplete) &&
    bool_decide (right left_incomplete = my_fingerprint ctx) &&
    bool_decide (is_Some (neigh_lookup (left left_incomplete) (neigh_table ctx))) in
  if negb valid then (Ok None, ctx)
  else
    let signature := sign (global_identity ctx) (adj_to_sign left_incomplete) in
    let complete := set_right_sig signature left_incomplete in
    match on_graph (insert_adjacency oc (clock ctx) complete) ctx with
    | (Ok _, ctx') => (Ok (Some complete), ctx')
    | (Err _, ctx') => (Ok None, ctx')
    | (Panic, ctx') => (Panic, ctx')
    | (OutOfFuel, ctx') => (OutOfFuel, ctx')
    end.

Definition link_identity (fp : Fingerprint) (ctx : DaemonContext) : option IdentityDescriptor :=
  identity (relay_graph ctx) fp.

(** [Itertools::dedup]: removes consecutive repetitions. *)
Fixpoint dedup (l : list AdjacencyDescriptor) : list AdjacencyDescriptor :=
  match l with
  | a :: ((b :: _) as l') => if decide (a = b) then dedup l' else a :: dedup l'
  | _ => l
  end.

Definition known_relay (g : RelayGraph) (fp : Fingerprint) : bool :=
  match identity g fp with Some id => is_relay id | None => false end.

Definition link_adjacencies {E} (fps : list Fingerprint) (ctx : DaemonContext)
    : outcome E (list AdjacencyDescriptor) :=
  let rg := relay_graph ctx in
  per_fp ← outcome_mapM (λ fp,
    match adjacencies rg fp with
    | None => Ok []
    | Some docs =>
        docs ← docs;
        Ok (filter (λ adj, known_relay rg (left adj) && known_relay rg (right adj) = true) docs)
    end) fps;
  Ok (dedup (concat per_fp)).

(** * Gossip *)

(** The other end of the link RPC; [None] is a failed call. *)
Record Peer := mkPeer {
  peer_state : Type;
  ask_identity : Fingerprint → peer_state → option (option IdentityDescriptor) * peer_state;
  ask_sign : AdjacencyDescriptor → peer_state → option (option AdjacencyDescriptor) * peer_state;
  ask_adjacencies : list Fingerprint → peer_state → option (list AdjacencyDescriptor) * peer_state
}.

(** A peer that runs this daemon, built with or without overflow checks; a
    panic aborts it, which the caller sees as a failed call. *)
Definition honest_peer (oc : bool) : Peer := {|
  peer_state := DaemonContext;
  ask_identity fp ctx := (Some (link_identity fp ctx), ctx);
  ask_sign adj ctx :=
    let '(o, ctx') := link_sign_adjacency oc adj ctx in (outcome_ok o, ctx');
  ask_adjacencies fps ctx := (outcome_ok (link_adjacencies (E:=Empty_set) fps ctx), ctx)
|}.

Section gossip.
  Context (peer : Peer).

Definition gstate : Type := DaemonContext * peer_state peer.

Definition rpc {A} (ask : peer_state peer → option A * peer_state peer) : M gstate GossipError A :=
  λ st, let '(o, p) := ask st.2 in (ok_or RpcFailed o, (st.1, p)).

Definition local {A} (m : M DaemonContext GossipError A) : M gstate GossipError A :=
  zoom fst (λ ctx st, (ctx, st.2)) m.

Definition insert_identity_here (d : IdentityDescriptor) : M gstate GossipError unit :=
  local (map_err_m BadIdentity (on_graph (insert_identity d))).

Definition insert_adjacency_here (oc : bool) (adj : AdjacencyDescriptor) : M gstate GossipError unit :=
  ctx ← gets fst;
  local (map_err_m BadAdjacency (on_graph (insert_adjacency oc (clock ctx) adj))).

(** Step 1. *)
Definition fetch_identity (conn : LinkConnection) : M gstate GossipError unit :=
  answer ← rpc (ask_identity peer (fingerprint (remote_idpk conn)));
  their_id ← lift (ok_or IdentityRefused answer);
  insert_identity_here their_id.

(** Step 2. *)
Definition sign_adjacency (oc : bool) (conn : LinkConnection) : M gstate GossipError unit :=
  ctx ← gets fst;
  let remote_fingerprint := fingerprint (remote_idpk conn) in
  if array_lt (my_fingerprint ctx) remote_fingerprint then
    let unsigned := mkAdjacencyDescriptor (my_fingerprint ctx) remote_fingerprint [] [] (clock ctx) in
    let left_incomplete := mkAdjacencyDescriptor (my_fingerprint ctx) remote_fingerprint
      (sign (global_identity ctx) (adj_to_sign unsigned)) [] (clock ctx) in
    answer ← rpc (ask_sign peer left_incomplete);
    complete ← lift (ok_or SignRefused answer);
    insert_adjacency_here oc complete
  else mret tt.

(** The body of the loop of step 3. *)
Definition gossip_adjacency (oc : bool) (adj : AdjacencyDescriptor) : M gstate GossipError unit :=
  left_id ← rpc (ask_identity peer (left adj));
  _ ← match left_id with Some d => insert_identity_here d | None => mret tt end;
  right_id ← rpc (ask_identity peer (right adj));
  _ ← match right_id with Some d => insert_identity_here d | None => mret tt end;
  insert_adjacency_here oc adj.

Fixpoint gossip_adjacencies (oc : bool) (adjs : list AdjacencyDescriptor)
    : M gstate GossipError unit :=
  match adjs with
  | [] => mret tt
  | adj :: adjs => _ ← gossip_adjacency oc adj; gossip_adjacencies oc adjs
  end.

(** Step 3; [choose] is [choose_multiple] of at most ten of the nodes. *)
Definition gossip_graph (oc : bool) (choose : list Fingerprint → rng → list Fingerprint * rng)
    : M gstate GossipError unit :=
  ctx ← gets fst;
  random_sample ← local (with_rng (sample (choose (all_nodes (relay_graph ctx)))));
  adjs ← rpc (ask_adjacencies peer random_sample);
  gossip_adjacencies oc adjs.

Definition gossip_once (oc : bool) (choose : list Fingerprint → rng → list Fingerprint * rng)
    (conn : LinkConnection) : M gstate GossipError unit :=
  _ ← fetch_identity conn;
  _ ← sign_adjacency oc conn;
  gossip_graph oc choose.

End gossip.

(** The start of an iteration of [gossip_loop]: the node inserts itself. *)
Definition gossip_insert_self (am_i_relay : bool) : M DaemonContext VerifyError unit := λ ctx,
  on_graph (insert_identity (IdentityDescriptor_new (clock ctx) (global_identity ctx)
                               (global_onion_sk ctx) am_i_relay)) ctx.

(** The rest of the iteration up to the task it spawns: a random neighbor to
    gossip with, [None] when there is none. *)
Definition gossip_pick (am_i_relay : bool) : M DaemonContext VerifyError (option LinkConnection) :=
  _ ← gossip_insert_self am_i_relay;
  ctx ← get_state;
  let neighs := all_neighs (neigh_table ctx) in
  match neighs with
  | [] => mret None
  | _ =>
      i ← with_rng (sample (gen_range (N.of_nat (length neighs))));
      match neighs !! N.to_nat i with
      | Some rand_neigh => mret (Some rand_neigh)
      | None => lift Panic
      end
  end.

(** * Properties *)

Context {PL : PrimitivesLaws P} {IML : IndexMapLaws IM} {HIL : HashIterLaws HI}.
Context {CL : ChanLaws C} {LL : LruLaws L} {MKL : MokaLaws MK}.

(** ** Authentication *)

Lemma AuthResponse_verify_new isk mux : AuthResponse_verify (AuthResponse_new isk mux) mux = Ok tt.
Proof. apply verify_sign. Qed.

Lemma connect_ok handle resp pk conn :
  connect handle resp pk = Ok conn →
  ∃ r mux, resp = Some r ∧ pk = Some mux ∧ conn = mkLinkConnection handle (full_pk r) ∧
    verify (full_pk r) (blake3_keyed_hash MAGIC_VALUE mux) (binding_sig r) = Ok tt.
Proof.
  unfold connect, AuthResponse_verify. destruct resp as [r|], pk as [mux|]; try done. cbn.
  destruct (verify _ _ _) as [[]| | |] eqn:Hv; try done. cbn. intros [= <-]. by exists r, mux.
Qed.

Lemma connect_returns handle resp pk : returns (connect handle resp pk).
Proof.
  apply returns_bind; [apply returns_ok_or|]. intros r _.
  apply returns_bind; [apply returns_ok_or|]. intros mux _.
  apply returns_bind; [|done]. apply returns_map_err, verify_returns.
Qed.

(** ** The graph of the context *)

Lemma set_relay_graph_id c : set_relay_graph (relay_graph c) c = c.
Proof. by destruct c. Qed.

(** In a build with overflow checks, no timestamp lies in the future of the
    clock: in the graph of a node, and in what a peer answers. *)
Definition in_past (oc : bool) (now ts : N) : Prop := oc = false ∨ (ts <= now)%N.

Definition no_future (oc : bool) (c : DaemonContext) : Prop :=
  oc = false ∨ graph_before (clock c) (relay_graph c).

Definition peer_no_future (oc : bool) (now : N) (peer : Peer) : Prop :=
  (∀ fp s d, (ask_identity peer fp s).1 = Some (Some d) → in_past oc now (id_timestamp d)) ∧
  (∀ adj s d, (ask_sign peer adj s).1 = Some (Some d) → in_past oc now (adj_timestamp d)) ∧
  (∀ fps s l, (ask_adjacencies peer fps s).1 = Some l →
     Forall (λ d, in_past oc now (adj_timestamp d)) l).

(** What the gossip operations may change: the graph, with at most [k] new
    identifiers, and the random generator. *)
Record graph_post (oc : bool) (k : N) (c c' : DaemonContext) : Prop := {
  gp_wf : ctx_wf c';
  gp_ids : (unalloc_id (relay_graph c') <= unalloc_id (relay_graph c) + k)%N;
  gp_clock : clock c' = clock c;
  gp_identity : global_identity c' = global_identity c;
  gp_no_future : no_future oc c'
}.

Lemma graph_post_refl oc c : ctx_wf c → no_future oc c → graph_post oc 0 c c.
Proof. intros. split; done || lia. Qed.

Lemma graph_post_trans oc k1 k2 c1 c2 c3 :
  graph_post oc k1 c1 c2 → graph_post oc k2 c2 c3 → graph_post oc (k1 + k2) c1 c3.
Proof. intros [] []. split; [done|lia|congruence..|done]. Qed.

Lemma graph_post_weaken oc k k' c c' : (k <= k')%N → graph_post oc k c c' → graph_post oc k' c c'.
Proof. intros ? []. split; [done|lia|done..]. Qed.

Lemma on_graph_insert_identity oc d c :
  ctx_wf c → no_future oc c → in_past oc (clock c) (id_timestamp d) →
  (unalloc_id (relay_graph c) + 1 < u64_modulus)%N →
  wp (on_graph (insert_identity d)) (λ _ c', graph_post oc 1 c c') (λ c', c' = c) c.
Proof.
  intros Hwf Hnf Hd Hb.
  pose proof (insert_identity_spec (relay_graph c) d (ctx_graph _ Hwf) Hb) as Hs.
  assert (oc = false ∨ graph_before (clock c) (insert_identity d (relay_graph c)).2) as Hg.
  { destruct Hnf, Hd; [by left..|]. right. by apply insert_identity_before. }
  unfold wp, on_graph, zoom. destruct (verify _ _ _); try done.
  - destruct Hs as (g' & Hs & Hwf' & _ & _ & Hu). rewrite Hs in Hg |- *. split; [|done..].
    by apply set_relay_graph_wf.
  - rewrite Hs. apply set_relay_graph_id.
Qed.

Lemma on_graph_insert_adjacency oc adj c :
  ctx_wf c → no_future oc c → in_past oc (clock c) (adj_timestamp adj) →
  wp (on_graph (insert_adjacency oc (clock c) adj)) (λ _ c', graph_post oc 0 c c') (λ c', c' = c) c.
Proof.
  intros Hwf Hnf Hadj.
  pose proof (insert_adjacency_spec false (clock c) adj (relay_graph c) (ctx_graph _ Hwf)) as Hs.
  pose proof (unalloc_insert_adjacency false (clock c) adj (relay_graph c) (ctx_graph _ Hwf)) as Hu.
  assert (oc = false ∨
    graph_before (clock c) (insert_adjacency false (clock c) adj (relay_graph c)).2) as Hg.
  { destruct Hnf, Hadj; [by left..|]. right. apply insert_adjacency_before; [apply Hwf|done..]. }
  unfold wp, on_graph, zoom. rewrite (insert_adjacency_checked oc); [|apply Hwf|].
  2: { destruct Hnf, Hadj; auto. }
  destruct (verify_adjacency _ _); try done.
  - destruct Hs as (l & r & _ & _ & Hwf' & Hs). rewrite Hs in Hu, Hg |- *. cbn in Hu |- *.
    split; [|cbn; lia|done..]. apply set_relay_graph_wf; [done|by apply cleanup_wf].
  - rewrite Hs. apply set_relay_graph_id.
Qed.

(** ** Gossip with an arbitrary peer *)

Section gossip_safety.
  Context (peer : Peer) (oc : bool).

Lemma wp_rpc {A} ask (Q : A → gstate peer → Prop) (R : gstate peer → Prop) c p :
  (∀ a p', (ask p).1 = Some a → Q a (c, p')) → (∀ p', R (c, p')) →
  wp (rpc peer ask) Q R (c, p).
Proof.
  intros HQ HR. unfold wp, rpc. cbn. destruct (ask p) as [[a|] p']; cbn in *; auto.
Qed.

Lemma wp_local {A} (m : M DaemonContext GossipError A) (Q : A → gstate peer → Prop) R c p :
  wp m (λ a c', Q a (c', p)) (λ c', R (c', p)) c → wp (local peer m) Q R (c, p).
Proof. unfold wp, local, zoom. cbn. by destruct (m c) as [[] c']. Qed.

Lemma insert_identity_here_safe d c p :
  ctx_wf c → no_future oc c → in_past oc (clock c) (id_timestamp d) →
  (unalloc_id (relay_graph c) + 1 < u64_modulus)%N →
  wp (insert_identity_here peer d)
    (λ _ st, graph_post oc 1 c st.1) (λ st, graph_post oc 1 c st.1) (c, p).
Proof.
  intros Hwf Hnf Hd Hb. apply wp_local, wp_map_err.
  eapply wp_mono; [by apply on_graph_insert_identity|done|]. cbn. intros c' ->.
  apply (graph_post_weaken oc 0); [lia|by apply graph_post_refl].
Qed.

Lemma insert_adjacency_here_safe adj c p :
  ctx_wf c → no_future oc c → in_past oc (clock c) (adj_timestamp adj) →
  wp (insert_adjacency_here peer oc adj)
    (λ _ st, graph_post oc 0 c st.1) (λ st, graph_post oc 0 c st.1) (c, p).
Proof.
  intros Hwf Hnf Hadj. apply wp_bind. unfold wp at 1, gets. apply wp_local, wp_map_err.
  eapply wp_mono; [by apply on_graph_insert_adjacency|done|]. cbn. intros c' ->.
  by apply graph_post_refl.
Qed.

Lemma insert_answer_safe (o : option IdentityDescriptor) c p :
  ctx_wf c → no_future oc c → (∀ d, o = Some d → in_past oc (clock c) (id_timestamp d)) →
  (unalloc_id (relay_graph c) + 1 < u64_modulus)%N →
  wp (match o with Some d => insert_identity_here peer d | None => mret tt end)
    (λ _ st, graph_post oc 1 c st.1) (λ st, graph_post oc 1 c st.1) (c, p).
Proof.
  intros Hwf Hnf Ho Hb. destruct o as [d|]; [apply insert_identity_here_safe; auto|]. apply wp_ret.
  apply (graph_post_weaken oc 0); [lia|by apply graph_post_refl].
Qed.

Lemma gossip_adjacency_safe adj c p :
  ctx_wf c → no_future oc c → peer_no_future oc (clock c) peer → in_past oc (clock c) (adj_timestamp adj) →
  (unalloc_id (relay_graph c) + 2 < u64_modulus)%N →
  wp (gossip_adjacency peer oc adj)
    (λ _ st, graph_post oc 2 c st.1) (λ st, graph_post oc 2 c st.1) (c, p).
Proof.
  intros Hwf Hnf [Hpid Hp] Hadj Hb. assert (graph_post oc 2 c c) as H0.
  { apply (graph_post_weaken oc 0); [lia|by apply graph_post_refl]. }
  apply wp_bind, wp_rpc; [|done]. intros o p1 Ho. apply wp_bind.
  eapply wp_mono; [apply insert_answer_safe; [done|done| |lia]| |].
  { intros d ->. by eapply Hpid. }
  2: { intros st Hst. by apply (graph_post_weaken oc 1); [lia|]. }
  cbn. intros _ [c1 p2] H1; cbn in H1. pose proof (gp_ids _ _ _ _ H1) as Hu.
  apply wp_bind, wp_rpc; [|intros; by apply (graph_post_weaken oc 1); [lia|]].
  intros o' p3 Ho'. apply wp_bind. rewrite <-(gp_clock _ _ _ _ H1) in Hadj, Hpid.
  eapply wp_mono; [apply insert_answer_safe; [apply H1|apply H1| |lia]| |].
  { intros d ->. by eapply Hpid. }
  2: { intros st Hst. apply (graph_post_trans oc 1 1 _ _ _ H1 Hst). }
  cbn. intros _ [c2 p4] H2; cbn in H2. pose proof (graph_post_trans oc 1 1 _ _ _ H1 H2) as H12.
  rewrite <-(gp_clock _ _ _ _ H2) in Hadj.
  eapply wp_mono; [apply insert_adjacency_here_safe; [apply H2|apply H2|done]| |]; cbn; intros;
    eapply (graph_post_trans oc 2 0); eauto.
Qed.

Lemma gossip_adjacencies_safe adjs c p :
  ctx_wf c → no_future oc c → peer_no_future oc (clock c) peer →
  Forall (λ d, in_past oc (clock c) (adj_timestamp d)) adjs →
  (unalloc_id (relay_graph c) + 2 * N.of_nat (length adjs) < u64_modulus)%N →
  wp (gossip_adjacencies peer oc adjs)
    (λ _ st, graph_post oc (2 * N.of_nat (length adjs)) c st.1)
    (λ st, graph_post oc (2 * N.of_nat (length adjs)) c st.1) (c, p).
Proof.
  revert c p. induction adjs as [|adj adjs IH]; intros c p Hwf Hnf Hp Hadjs Hb;
    cbn [gossip_adjacencies].
  { apply wp_ret. by apply graph_post_refl. }
  inversion Hadjs as [|? ? Hadj Hadjs']; subst. cbn [length] in *. apply wp_bind.
  eapply wp_mono; [apply gossip_adjacency_safe; [done..|lia]| |].
  2: { intros st Hst. apply (graph_post_weaken oc 2); [lia|done]. }
  cbn. intros _ [c1 p1] H1; cbn in H1. pose proof (gp_ids _ _ _ _ H1) as Hu.
  rewrite <-(gp_clock _ _ _ _ H1) in Hp, Hadjs'.
  eapply wp_mono; [apply IH; [apply H1|apply H1|done..|lia]| |]; cbn; intros;
    (eapply graph_post_weaken; [|eapply graph_post_trans; eauto]); lia.
Qed.

Lemma fetch_identity_safe conn c p :
  ctx_wf c → no_future oc c → peer_no_future oc (clock c) peer →
  (unalloc_id (relay_graph c) + 1 < u64_modulus)%N →
  wp (fetch_identity peer conn)
    (λ _ st, graph_post oc 1 c st.1) (λ st, graph_post oc 1 c st.1) (c, p).
Proof.
  intros Hwf Hnf [Hpid _] Hb. assert (graph_post oc 1 c c) as H0.
  { apply (graph_post_weaken oc 0); [lia|by apply graph_post_refl]. }
  apply wp_bind, wp_rpc; [|done]. intros o p1 Ho.
  apply wp_bind, wp_lift; [apply returns_ok_or| |done]. intros d Hd.
  apply insert_identity_here_safe; [done..| |done]. destruct o; [|done]. injection Hd as ->.
  by eapply Hpid.
Qed.

Lemma sign_adjacency_safe conn c p :
  ctx_wf c → no_future oc c → peer_no_future oc (clock c) peer →
  wp (sign_adjacency peer oc conn)
    (λ _ st, graph_post oc 0 c st.1) (λ st, graph_post oc 0 c st.1) (c, p).
Proof.
  intros Hwf Hnf (_ & Hps & _). pose proof (graph_post_refl oc c Hwf Hnf) as H0.
  apply wp_bind. unfold wp at 1, gets.
  destruct (array_lt _ _); [|by apply wp_ret].
  apply wp_bind, wp_rpc; [|done]. intros o p1 Ho.
  apply wp_bind, wp_lift; [apply returns_ok_or| |done]. intros d Hd.
  apply insert_adjacency_here_safe; [done..|]. destruct o; [|done]. injection Hd as ->.
  by eapply Hps.
Qed.

Lemma gossip_once_safe choose conn c p K :
  ctx_wf c → no_future oc c → peer_no_future oc (clock c) peer →
  (∀ fps s l, (ask_adjacencies peer fps s).1 = Some l → (N.of_nat (length l) <= K)%N) →
  (unalloc_id (relay_graph c) + 1 + 2 * K < u64_modulus)%N →
  wp (gossip_once peer oc choose conn)
    (λ _ st, graph_post oc (1 + 2 * K) c st.1) (λ st, graph_post oc (1 + 2 * K) c st.1) (c, p).
Proof.
  intros Hwf Hnf Hp HK Hb. apply wp_bind.
  eapply wp_mono; [apply fetch_identity_safe; [done..|lia]| |].
  2: { intros st Hst. apply (graph_post_weaken oc 1); [lia|done]. }
  cbn. intros _ [c1 p1] H1; cbn in H1. apply wp_bind.
  rewrite <-(gp_clock _ _ _ _ H1) in Hp.
  eapply wp_mono; [apply sign_adjacency_safe; [apply H1|apply H1|done]| |].
  2: { intros st Hst. pose proof (graph_post_trans oc 1 0 _ _ _ H1 Hst).
       apply (graph_post_weaken oc 1); [lia|done]. }
  cbn. intros _ [c2 p2] H2; cbn in H2. pose proof (graph_post_trans oc 1 0 _ _ _ H1 H2) as H12.
  rewrite <-(gp_clock _ _ _ _ H2) in Hp.
  apply wp_bind. unfold wp at 1, gets. cbn [fst]. apply wp_bind, wp_local.
  unfold wp at 1, with_rng, zoom, sample. destruct (choose _ _) as [fps r].
  assert (graph_post oc 1 c (set_rng r c2)) as H3.
  { destruct H12. split; [by apply (post_set_rng c2)|done..]. }
  apply wp_bind, wp_rpc; [|intros; apply (graph_post_weaken oc 1); [lia|done]].
  intros adjs p3 Ha. pose proof (proj2 (proj2 Hp) _ _ _ Ha) as Hpast.
  specialize (HK _ _ _ Ha). pose proof (gp_ids _ _ _ _ H3) as Hu.
  eapply wp_mono; [apply gossip_adjacencies_safe; [apply H3|apply H3|done|done|lia]| |]; cbn; intros;
    (eapply graph_post_weaken; [|eapply graph_post_trans; eauto]); lia.
Qed.

End gossip_safety.

(** ** Theorems *)

(** Accepting a pipe on an in-route, or connecting an out-route configured with
    a fingerprint. *)
Definition establish (now h : N) (configured : option Fingerprint) (resp : option AuthResponse)
    (pk : option MuxPublic) : M NeighTable LinkError unit :=
  match configured with
  | None => in_route_accept now h resp pk
  | Some fp => out_route_connect now h fp resp pk
  end.

(** C12 (authentication of links): a neighbor enters the table only under the
    fingerprint of a key that signed the other side's multiplex key, for an
    out-route only if that is the configured fingerprint; otherwise the table
    is unchanged.  An honest node's answer always verifies. *)
Theorem link_authenticated now h configured resp pk t :
  match establish now h configured resp pk t with
  | (Ok _, t') =>
      ∃ r mux, resp = Some r ∧ pk = Some mux ∧
        verify (full_pk r) (blake3_keyed_hash MAGIC_VALUE mux) (binding_sig r) = Ok tt ∧
        (∀ fp, configured = Some fp → fingerprint (full_pk r) = fp) ∧
        ∀ fp, neigh_lookup fp t' =
          if decide (fingerprint (full_pk r) = fp) then Some (mkLinkConnection h (full_pk r))
          else neigh_lookup fp t
  | (Err _, t') => t' = t
  | _ => False
  end ∧
  (∀ isk mux, AuthResponse_verify (AuthResponse_new isk mux) mux = Ok tt).
Proof.
  split; [|apply AuthResponse_verify_new]. pose proof (connect_returns h resp pk) as Hret.
  unfold establish, in_route_accept, out_route_connect, mbind, M_bind, lift.
  destruct configured as [fp|], (connect h resp pk) as [conn| | |] eqn:Hc; try done;
    apply connect_ok in Hc as (r & mux & -> & -> & -> & Hv); cbn [remote_idpk].
  - case_decide as Hfp; [done|]. exists r, mux.
    split_and!; [done..|by intros ? [= <-]|]. intros fp'. rewrite Hfp. apply neigh_lookup_insert.
  - exists r, mux. split_and!; [done..|]. intros fp'. apply neigh_lookup_insert.
Qed.

(** Gossip with an arbitrary peer: whatever a neighbor answers, a round of
    gossip returns, and leaves the context well-formed: the graph holds only
    verified identities and links signed by both ends (with overflow checks,
    if no timestamp of the graph or of an answer is in the future).  [K] bounds
    the number of links in one answer. *)
Theorem gossip_survives_any_peer peer oc choose conn c p K :
  ctx_wf c → no_future oc c → peer_no_future oc (clock c) peer →
  (∀ fps s l, (ask_adjacencies peer fps s).1 = Some l → (N.of_nat (length l) <= K)%N) →
  (unalloc_id (relay_graph c) + 1 + 2 * K < u64_modulus)%N →
  returns (gossip_once peer oc choose conn (c, p)).1 ∧
  ctx_wf (gossip_once peer oc choose conn (c, p)).2.1.
Proof.
  intros Hwf Hnf Hp HK Hb.
  pose proof (gossip_once_safe peer oc choose conn c p K Hwf Hnf Hp HK Hb) as Hs.
  unfold wp in Hs. destruct (gossip_once peer oc choose conn (c, p)) as [[] [c' p']]; try done;
    (split; [done|]); apply (gp_wf _ _ _ _ Hs).
Qed.

(** What a node signs: asked to complete a link, a node signs only one whose
    right end is itself, whose left end is smaller and a current neighbor, and
    which its own graph accepts with both signatures; otherwise it refuses and
    its state is unchanged. *)
Theorem sign_adjacency_guard adj c :
  ctx_wf c →
  match link_sign_adjacency false adj c with
  | (Ok (Some d), c') =>
      array_lt (left adj) (right adj) = true ∧ right adj = my_fingerprint c ∧
      is_Some (neigh_lookup (left adj) (neigh_table c)) ∧
      d = set_right_sig (sign (global_identity c) (adj_to_sign adj)) adj ∧
      verify_adjacency (relay_graph c) d = Ok tt ∧ doc_signed d ∧ ctx_wf c'
  | (Ok None, c') => c' = c
  | _ => False
  end.
Proof.
  intros Hwf. unfold link_sign_adjacency.
  destruct (array_lt _ _) eqn:Hlt; [|done]. case_bool_decide as Hr; [|done].
  case_bool_decide as Hn; [|done]. cbn [negb andb].
  set (d := set_right_sig _ adj). unfold on_graph, zoom.
  pose proof (insert_adjacency_spec false (clock c) d (relay_graph c) (ctx_graph _ Hwf)) as Hs.
  destruct (verify_adjacency (relay_graph c) d) as [[]| | |] eqn:Hv; try done.
  - destruct Hs as (l & r & _ & _ & Hwf' & ->). cbn.
    destruct (verify_adjacency_ok _ _ (ctx_graph _ Hwf) Hv) as (_ & Hsig & _).
    split_and!; try done. apply set_relay_graph_wf; [done|by apply cleanup_wf].
  - rewrite Hs. apply set_relay_graph_id.
Qed.

(** ** Two honest nodes *)

(** The graph knows the key of an identity, with a current descriptor. *)
Definition knows (c : DaemonContext) (isk : IdentitySecret) : Prop :=
  ∃ d, identity (relay_graph c) (fingerprint (public isk)) = Some d ∧
    identity_pk d = public isk ∧ outdated (clock c) (id_timestamp d) = false.

Lemma outdated_now now : outdated now now = false.
Proof.
  unfold outdated. rewrite u64_sub_wrapping_le, N.sub_diag by done. done.
Qed.

(** Start of a gossip round: every round inserts the node's own current
    descriptor, and picks one of its neighbors exactly when it has any; it never
    indexes out of range. *)
Theorem gossip_round_starts relay c :
  ctx_wf c → (unalloc_id (relay_graph c) + 1 < u64_modulus)%N →
  ∃ o c', gossip_pick relay c = (Ok o, c') ∧ ctx_wf c' ∧ knows c' (global_identity c) ∧
    match o with
    | Some conn => conn ∈ all_neighs (neigh_table c)
    | None => all_neighs (neigh_table c) = []
    end.
Proof.
  intros Hwf Hb. set (d := IdentityDescriptor_new (clock c) (global_identity c)
    (global_onion_sk c) relay).
  pose proof (insert_identity_spec (relay_graph c) d (ctx_graph _ Hwf) Hb) as Hs.
  assert (verify (identity_pk d) (id_to_sign d) (sig d) = Ok tt) as Hv by apply verify_sign.
  rewrite Hv in Hs. destruct Hs as (g' & Hi & Hwf' & Hid & _).
  assert (gossip_insert_self relay c = (Ok tt, set_relay_graph g' c)) as Hself.
  { unfold gossip_insert_self, on_graph, zoom. fold d. by rewrite Hi. }
  assert (∀ r, knows (set_rng r (set_relay_graph g' c)) (global_identity c)) as Hknows.
  { intros r. exists d. split_and!; [done..|]. apply outdated_now. }
  unfold gossip_pick, mbind, M_bind, get_state. rewrite Hself. cbn [neigh_table set_relay_graph].
  destruct (all_neighs (neigh_table c)) as [|n l] eqn:Hn.
  { eexists _, _. split; [done|]. split; [by apply set_relay_graph_wf|].
    split; [|done]. apply (Hknows (thread_rng c)). }
  unfold with_rng, zoom, sample. cbn [thread_rng set_relay_graph].
  pose proof (gen_range_lt (N.of_nat (length (n :: l))) (thread_rng c) ltac:(cbn; lia)) as Hlt.
  destruct (gen_range _ _) as [i r]. cbn [fst] in Hlt. cbn [neigh_table set_relay_graph].
  destruct (lookup_lt_is_Some_2 (n :: l) (N.to_nat i) ltac:(lia)) as [conn Hconn].
  rewrite Hconn. eexists _, _. split; [done|].
  split; [|split; [apply Hknows|by eapply list_elem_of_lookup_2]].
  apply post_set_rng. by apply set_relay_graph_wf.
Qed.

Lemma insert_current_link oc c iska iskb adj :
  ctx_wf c → no_future oc c → in_past oc (clock c) (adj_timestamp adj) → knows c iska → knows c iskb →
  left adj = fingerprint (public iska) → right adj = fingerprint (public iskb) →
  array_lt (left adj) (right adj) = true →
  left_sig adj = sign iska (adj_to_sign adj) → right_sig adj = sign iskb (adj_to_sign adj) →
  outdated (clock c) (adj_timestamp adj) = false →
  ∃ c', on_graph (insert_adjacency oc (clock c) adj) c = (Ok tt, c') ∧
    doc_at (relay_graph c') (left adj) (right adj) adj.
Proof.
  intros Hwf Hnf Hpast (da & Hda & Hpa & Hta) (db & Hdb & Hpb & Htb) Hl Hr Hlt Hsa Hsb Ht.
  pose proof (ctx_graph _ Hwf) as Hg.
  pose proof (insert_adjacency_spec false (clock c) adj (relay_graph c) Hg) as Hs.
  assert (verify_adjacency (relay_graph c) adj = Ok tt) as Hv.
  { unfold verify_adjacency, array_ge. rewrite Hlt, Hl, Hr, Hda, Hdb, Hpa, Hpb, Hsa, Hsb.
    cbn. by rewrite !verify_sign. }
  rewrite Hv in Hs. destruct Hs as (l & r & Hidl & Hidr & Hwf' & Hs). unfold on_graph, zoom.
  rewrite (insert_adjacency_checked oc) by (done || (destruct Hnf, Hpast; auto)).
  rewrite Hs. eexists. split; [done|]. exists (l, r). split; [|done]. cbn [relay_graph set_relay_graph].
  destruct (cleanup_spec (clock c) _ (wf_ids _ Hwf')) as (_ & _ & _ & _ & H5 & _). apply H5.
  split; [cbn; by rewrite im_get_insert, decide_True|].
  assert (∀ i fp d, fp_to_id (relay_graph c) !! fp = Some i → identity (relay_graph c) fp = Some d →
    outdated (clock c) (id_timestamp d) = false →
    i ∉ outdated_identities (clock c) (link l r adj (relay_graph c))) as Hdead.
  { intros i fp d Hi Hd Ho. rewrite (outdated_identity_iff _ _ _ _ Hwf' Hi).
    intros (d' & Hd' & Ho'). change (identity (relay_graph c) fp = Some d') in Hd'. congruence. }
  rewrite <-Hl in Hda. rewrite <-Hr in Hdb. split_and!; eauto.
Qed.

(** C22 (two honest nodes link up): a node asks an honest neighbor, which has
    it in its table, to sign their link.  If the asker has the smaller
    fingerprint, both know each other's keys with current descriptors, and the
    neighbor's clock is not behind the asker's and at most an hour ahead (and,
    in a build with overflow checks, no timestamp of its graph is in the
    future), the exchange succeeds and both graphs hold the same document, made
    at the asker's clock and signed by both.  An asker with the greater
    fingerprint leaves the exchange to the other side: nothing changes. *)
Theorem honest_nodes_link oca ocb ca cb conn :
  ctx_wf ca → ctx_wf cb → no_future oca ca → no_future ocb cb →
  remote_idpk conn = public (global_identity cb) →
  is_Some (neigh_lookup (my_fingerprint ca) (neigh_table cb)) →
  knows ca (global_identity ca) → knows ca (global_identity cb) →
  knows cb (global_identity ca) → knows cb (global_identity cb) →
  (clock ca <= clock cb)%N → (clock cb - clock ca <= ROUTE_TIMEOUT)%N →
  if array_lt (my_fingerprint ca) (my_fingerprint cb) then
    ∃ d ca' cb', sign_adjacency (honest_peer ocb) oca conn (ca, cb) = (Ok tt, (ca', cb')) ∧
      adj_timestamp d = clock ca ∧
      left_sig d = sign (global_identity ca) (adj_to_sign d) ∧
      right_sig d = sign (global_identity cb) (adj_to_sign d) ∧
      verify (public (global_identity ca)) (adj_to_sign d) (left_sig d) = Ok tt ∧
      verify (public (global_identity cb)) (adj_to_sign d) (right_sig d) = Ok tt ∧
      doc_at (relay_graph ca') (my_fingerprint ca) (my_fingerprint cb) d ∧
      doc_at (relay_graph cb') (my_fingerprint ca) (my_fingerprint cb) d
  else sign_adjacency (honest_peer ocb) oca conn (ca, cb) = (Ok tt, (ca, cb)).
Proof.
  intros Hwa Hwb Qa Qb Hconn Hn Kaa Kab Kba Kbb Hc1 Hc2.
  assert (fingerprint (remote_idpk conn) = my_fingerprint cb) as Hfp
    by (unfold my_fingerprint; by rewrite Hconn).
  destruct (array_lt _ _) eqn:Hlt.
  2: { unfold sign_adjacency, mbind, M_bind, gets. cbn [fst]. by rewrite Hfp, Hlt. }
  set (a := my_fingerprint ca) in *. set (b := my_fingerprint cb) in *.
  set (adj0 := mkAdjacencyDescriptor a b [] [] (clock ca)).
  set (adj1 := mkAdjacencyDescriptor a b (sign (global_identity ca) (adj_to_sign adj0)) [] (clock ca)).
  set (adj2 := set_right_sig (sign (global_identity cb) (adj_to_sign adj1)) adj1).
  assert (adj_to_sign adj1 = adj_to_sign adj2 ∧ adj_to_sign adj0 = adj_to_sign adj2) as [E1 E0] by done.
  assert (∀ now, (clock ca <= now)%N → (now - clock ca <= ROUTE_TIMEOUT)%N →
    outdated now (clock ca) = false) as Hfresh.
  { intros now ? ?. unfold outdated. rewrite u64_sub_wrapping_le by done. by apply N.ltb_ge. }
  destruct (insert_current_link ocb cb (global_identity ca) (global_identity cb) adj2)
    as (cb' & Hib & Hdb); try done; [by right|by apply Hfresh|].
  destruct (insert_current_link oca ca (global_identity ca) (global_identity cb) adj2)
    as (ca' & Hia & Hda); try done; [right; cbn; lia|apply Hfresh; unfold ROUTE_TIMEOUT; lia|].
  exists adj2, ca', cb'. split_and!; [|done|done|done|by apply verify_sign..|done|done].
  unfold sign_adjacency, mbind, M_bind, gets, rpc, local, zoom. cbn [fst snd].
  rewrite Hfp. fold a. rewrite Hlt. fold adj0. fold adj1. cbn [ask_sign honest_peer].
  assert (link_sign_adjacency ocb adj1 cb = (Ok (Some adj2), cb')) as Hsign.
  { unfold link_sign_adjacency. change (left adj1) with a. change (right adj1) with b.
    rewrite Hlt, bool_decide_eq_true_2, bool_decide_eq_true_2 by done. cbn [negb andb].
    fold adj2. by rewrite Hib. }
  cbn [fst snd]. rewrite Hsign. cbn [outcome_ok ok_or]. unfold lift, insert_adjacency_here, mbind, M_bind, gets.
  cbn [fst]. unfold local, zoom, map_err_m. cbn [fst snd]. by rewrite Hia.
Qed.

(** ** Disclosure *)

Lemma elem_of_dedup d l : d ∈ dedup l ↔ d ∈ l.
Proof.
  induction l as [|a [|b l] IH]; [done..|]. cbn [dedup] in *. case_decide; subst; set_solver.
Qed.

(** What gossip discloses: asked for the links of some fingerprints, a node
    answers without panicking, with exactly the documents of its graph that
    have one of them at an end and whose two ends are both relays: the links
    of clients are never told. *)
Theorem gossip_hides_clients {E} fps c :
  ctx_wf c →
  ∃ docs, link_adjacencies (E:=E) fps c = Ok docs ∧
    ∀ d, d ∈ docs ↔
      (∃ k, im_get k (documents (relay_graph c)) = Some d) ∧
      (left d ∈ fps ∨ right d ∈ fps) ∧
      known_relay (relay_graph c) (left d) = true ∧ known_relay (relay_graph c) (right d) = true.
Proof.
  intros Hwf. unfold link_adjacencies. pose proof (ctx_graph _ Hwf) as Hg.
  set (g := relay_graph c) in *.
  set (f := λ fp, match adjacencies g fp with
    | None => Ok []
    | Some docs => docs ← docs;
        Ok (filter (λ adj, known_relay g (left adj) && known_relay g (right adj) = true) docs)
    end : outcome E (list AdjacencyDescriptor)).
  assert (∀ fp, ∃ docs, f fp = Ok docs ∧ ∀ d, d ∈ docs ↔
    (∃ k, im_get k (documents g) = Some d) ∧ (left d = fp ∨ right d = fp) ∧
    known_relay g (left d) = true ∧ known_relay g (right d) = true) as Hf.
  { intros fp. unfold f. pose proof (adjacencies_spec (E:=E) g fp Hg) as Ha.
    destruct (adjacencies g fp) as [o|].
    - destruct Ha as (docs & -> & Hin). cbn. eexists. split; [done|]. intros d.
      rewrite list_elem_of_filter, Hin, andb_true_iff. naive_solver.
    - exists []. split; [done|]. intros d. split; [set_solver|]. naive_solver. }
  assert (∃ ll, outcome_mapM f fps = Ok ll ∧ ∀ d, d ∈ concat ll ↔
    (∃ k, im_get k (documents g) = Some d) ∧ (left d ∈ fps ∨ right d ∈ fps) ∧
    known_relay g (left d) = true ∧ known_relay g (right d) = true) as (ll & -> & Hll).
  { induction fps as [|fp fps IH].
    - exists []. split; [done|]. set_solver.
    - destruct (Hf fp) as (docs & Hd & Hin), IH as (ll & Hl & Hrest).
      exists (docs :: ll). cbn [outcome_mapM]. rewrite Hd. cbn. rewrite Hl. split; [done|].
      intros d. rewrite elem_of_app, Hin, Hrest, !elem_of_cons. naive_solver. }
  cbn. eexists. split; [done|]. intros d. by rewrite elem_of_dedup.
Qed.

End Link.

(** * Witnesses *)

Definition sample_mux : MuxPublic := [x01; x02; x03].
Definition conn2 : LinkConnection := conn_to x02.

Lemma ctx1_wf : ctx_wf ctx1.
Proof. exact (node_ctx_wf x01 [x02] eq_refl). Qed.
Lemma ctx2_wf : ctx_wf ctx2.
Proof. exact (node_ctx_wf x02 [x01; x03] eq_refl). Qed.

Definition sample_establish : outcome LinkError unit * NeighTable :=
  establish 10 5 (Some fp2) (Some (AuthResponse_new (P:=toy) (node_isk x02) sample_mux))
    (Some sample_mux) NeighTable_new.

Lemma sample_establish_ok : sample_establish.1 = Ok tt.
Proof. vm_compute. reflexivity. Qed.

Lemma link_authenticated_witness :
  neigh_lookup fp2 sample_establish.2 = Some (mkLinkConnection 5 (public (P:=toy) (node_isk x02))).
Proof.
  destruct (link_authenticated (P:=toy) 10 5 (Some fp2)
    (Some (AuthResponse_new (P:=toy) (node_isk x02) sample_mux)) (Some sample_mux)
    NeighTable_new) as [H _].
  pose proof sample_establish_ok as Hok. unfold sample_establish in *.
  destruct (establish _ _ _ _ _ _) as [o t']. cbn [fst snd] in *. subst o.
  destruct H as (r & mux & [= <-] & _ & _ & _ & Hl). rewrite Hl. reflexivity.
Defined.

(** A peer that refuses everything and sends one link. *)
Definition rude_peer : Peer := {|
  peer_state := unit;
  ask_identity _ p := (Some (Some (node_identity x03 1000)), p);
  ask_sign _ p := (Some None, p);
  ask_adjacencies _ p := (Some [node_link x01 x03 1003], p)
|}.

(** The timestamps the sample nodes know are in the past. *)
Lemma no_future_sample :
  graph_before_b (clock ctx1) (relay_graph ctx1) && graph_before_b (clock ctx2) (relay_graph ctx2) = true.
Proof. vm_compute. reflexivity. Qed.

Lemma ctx1_no_future oc : no_future oc ctx1.
Proof. right. apply graph_before_check. exact (proj1 (proj1 (andb_true_iff _ _) no_future_sample)). Qed.
Lemma ctx2_no_future oc : no_future oc ctx2.
Proof. right. apply graph_before_check. exact (proj2 (proj1 (andb_true_iff _ _) no_future_sample)). Qed.

Lemma rude_peer_no_future oc now : (1003 <= now)%N → peer_no_future oc now rude_peer.
Proof.
  intros Hnow. split_and!.
  - intros fp s d [= <-]. right. cbn. lia.
  - intros adj s d [=].
  - intros fps s l [= <-]. constructor; [|constructor]. right.
    assert (adj_timestamp (node_link x01 x03 1003) = 1003%N) as -> by (vm_compute; reflexivity). done.
Qed.

Lemma gossip_survives_any_peer_witness :
  returns (gossip_once (P:=toy) rude_peer true (λ l r, (l, r)) conn2 (ctx1, tt)).1 ∧
  ctx_wf (gossip_once (P:=toy) rude_peer true (λ l r, (l, r)) conn2 (ctx1, tt)).2.1.
Proof.
  apply (gossip_survives_any_peer (P:=toy) rude_peer true (λ l r, (l, r)) conn2 ctx1 tt 1%N).
  - exact ctx1_wf.
  - apply ctx1_no_future.
  - apply rude_peer_no_future. vm_compute. discriminate.
  - intros fps s l [= <-]. reflexivity.
  - vm_compute. reflexivity.
Defined.

(** The link node 1 asks node 2 to complete. *)
Definition half_link : AdjacencyDescriptor :=
  let unsigned := mkAdjacencyDescriptor fp1 fp2 [] [] 1005 in
  mkAdjacencyDescriptor fp1 fp2 (sign (P:=toy) (node_isk x01) (adj_to_sign unsigned)) [] 1005.

Lemma half_link_signed :
  (link_sign_adjacency false half_link ctx2).1 =
  Ok (Some (set_right_sig (sign (P:=toy) (node_isk x02) (adj_to_sign half_link)) half_link)).
Proof. vm_compute. reflexivity. Qed.

Lemma sign_adjacency_guard_witness :
  ∃ d c', link_sign_adjacency false half_link ctx2 = (Ok (Some d), c') ∧
    verify_adjacency (relay_graph ctx2) d = Ok tt ∧ doc_signed d ∧ ctx_wf c'.
Proof.
  pose proof (sign_adjacency_guard (P:=toy) half_link ctx2 ctx2_wf) as H.
  pose proof half_link_signed as Hs.
  destruct (link_sign_adjacency false half_link ctx2) as [o c']. cbn [fst] in Hs. subst o.
  destruct H as (_ & _ & _ & Hd & Hv & Hsig & Hwf). eexists _, c'. split; [reflexivity|].
  exact (conj Hv (conj Hsig Hwf)).
Defined.

Lemma known_sample :
  array_lt fp1 fp2 = true ∧
  is_Some (neigh_lookup fp1 (neigh_table ctx2)) ∧
  identity (relay_graph ctx2) fp1 = Some (node_identity x01 1000) ∧
  identity (relay_graph ctx2) fp2 = Some (node_identity x02 1000) ∧
  clock ctx1 = 1005%N ∧ clock ctx2 = 1005%N ∧
  global_identity ctx1 = node_isk x01 ∧ global_identity ctx2 = node_isk x02.
Proof. vm_compute. split_and!; [reflexivity|by eexists|reflexivity..]. Qed.

Lemma sample_knows c i :
  clock c = 1005%N → identity (relay_graph c) (node_fp i) = Some (node_identity i 1000) →
  knows c (node_isk i).
Proof.
  intros Hc Hi. exists (node_identity i 1000).
  exact (conj Hi (conj eq_refl (eq_trans (f_equal (λ n, outdated n 1000) Hc) eq_refl))).
Qed.

Lemma honest_nodes_link_witness :
  ∃ d ca' cb', sign_adjacency (honest_peer true) true conn2 (ctx1, ctx2) = (Ok tt, (ca', cb')) ∧
    left_sig d = sign (P:=toy) (global_identity ctx1) (adj_to_sign d) ∧
    right_sig d = sign (P:=toy) (global_identity ctx2) (adj_to_sign d) ∧
    doc_at (relay_graph ca') (my_fingerprint ctx1) (my_fingerprint ctx2) d ∧
    doc_at (relay_graph cb') (my_fingerprint ctx1) (my_fingerprint ctx2) d.
Proof.
  destruct known_sample as (Hlt & Hn & D1 & D2 & C1 & C2 & I1 & I2).
  destruct sample_keys as ((E1 & E2 & _) & _).
  destruct sample_idle as ((_ & F1) & (_ & F2) & _).
  pose proof (honest_nodes_link (P:=toy) true true ctx1 ctx2 conn2 ctx1_wf ctx2_wf
    (ctx1_no_future true) (ctx2_no_future true)) as H.
  rewrite F1, F2, Hlt in H. rewrite F1, F2.
  destruct H as (d & ca' & cb' & H1 & _ & H2 & H3 & _ & _ & H4).
  - rewrite I2. reflexivity.
  - exact Hn.
  - rewrite I1. exact (sample_knows ctx1 x01 C1 E1).
  - rewrite I2. exact (sample_knows ctx1 x02 C1 E2).
  - rewrite I1. exact (sample_knows ctx2 x01 C2 D1).
  - rewrite I2. exact (sample_knows ctx2 x02 C2 D2).
  - rewrite C1, C2. reflexivity.
  - rewrite C1, C2. discriminate.
  - exists d, ca', cb'. exact (conj H1 (conj H2 (conj H3 H4))).
Defined.

Lemma gossip_hides_clients_witness :
  ∃ docs, link_adjacencies (E:=unit) [fp2] ctx1 = Ok docs ∧
    ∀ d, d ∈ docs ↔
      (∃ k, im_get k (documents (relay_graph ctx1)) = Some d) ∧
      (left d ∈ [fp2] ∨ right d ∈ [fp2]) ∧
      known_relay (relay_graph ctx1) (left d) = true ∧
      known_relay (relay_graph ctx1) (right d) = true.
Proof. exact (gossip_hides_clients (P:=toy) [fp2] ctx1 ctx1_wf). Defined.

Lemma ids_sample : bool_decide (unalloc_id (relay_graph ctx1) + 1 < u64_modulus)%N = true.
Proof. vm_compute. reflexivity. Qed.

Lemma gossip_round_starts_witness :
  ∃ o c', gossip_pick true ctx1 = (Ok o, c') ∧ ctx_wf c' ∧ knows c' (global_identity ctx1) ∧
    match o with
    | Some conn => conn ∈ all_neighs (neigh_table ctx1)
    | None => all_neighs (neigh_table ctx1) = []
    end.
Proof.
  exact (gossip_round_starts (P:=toy) true ctx1 ctx1_wf (bool_decide_eq_true_1 _ ids_sample)).
Defined.
