(* ===== verification/GossipLoop.v ===== *)
(** The gossip loop: [gossip_loop] of [src/daemon/gossip.rs].

    Every second the loop inserts the node's own descriptor and starts a round
    of gossip ([Link.v]) with a random neighbor as a task of its own, which is
    dropped after a minute.  When a round ends and what the rest of the
    daemon does in between are events; a round acts at the instant it ends. *)

From S2P Require Import Prelude Interfaces Crypto Packet OnionRouting Topology ShortestPath.
From S2P Require Import ReplyStore NeighTable Directory Daemon DaemonSafety DaemonRun Network Link Instances.

Definition GOSSIP_TIMEOUT : N := 60.

Section GossipLoop.
  Context {P : Primitives} {IM : IndexMap} {HI : HashIter} {C : Chan} {L : Lru} {MK : Moka}.
  Context {SA : Stdcode AdjacencyDescriptor} {SI : Stdcode IdentityDescriptor}.
  Context {B : Bincode InnerPacket}.

(** The rounds that run, each with the time it started and its neighbor. *)
Record GossipState := mkGossip {
  gl_ctx : DaemonContext;
  gl_tasks : list (N * LinkConnection)
}.

Inductive gossip_event :=
  | GTick (now : N)
  | GDone (now : N) (i : nat) (peer : Peer) (p : peer_state peer)
      (choose : list Fingerprint → rng → list Fingerprint * rng)
  | GOther (now : N) (f : DaemonContext → DaemonContext).

Definition gossip_time (ev : gossip_event) : N :=
  match ev with GTick now => now | GDone now _ _ _ _ => now | GOther now _ => now end.

(** [once.timeout(Duration::from_secs(60))]: rounds whose time is over are gone. *)
Definition expire (now : N) (s : GossipState) : GossipState :=
  mkGossip (set_clock now (gl_ctx s)) (filter (λ t, (now < t.1 + GOSSIP_TIMEOUT)%N) (gl_tasks s)).

(** An iteration of the loop. *)
Definition gossip_tick (am_i_relay : bool) (now : N) : M GossipState VerifyError unit := λ s,
  match gossip_pick am_i_relay (gl_ctx s) with
  | (Ok (Some rand_neigh), c) => (Ok tt, mkGossip c (gl_tasks s ++ [(now, rand_neigh)]))
  | (Ok None, c) => (Ok tt, mkGossip c (gl_tasks s))
  | (Err e, c) => (Err e, mkGossip c (gl_tasks s))
  | (Panic, c) => (Panic, mkGossip c (gl_tasks s))
  | (OutOfFuel, c) => (OutOfFuel, mkGossip c (gl_tasks s))
  end.

(** A round ends; its error is only logged. *)
Definition gossip_done (oc : bool) (i : nat) (peer : Peer) (p : peer_state peer)
    (choose : list Fingerprint → rng → list Fingerprint * rng) : M GossipState VerifyError unit := λ s,
  match gl_tasks s !! i with
  | Some (_, rand_neigh) =>
      match gossip_once peer oc choose rand_neigh (gl_ctx s, p) with
      | (Ok _, (c, _)) | (Err _, (c, _)) => (Ok tt, mkGossip c (delete i (gl_tasks s)))
      | (Panic, (c, _)) => (Panic, mkGossip c (gl_tasks s))
      | (OutOfFuel, (c, _)) => (OutOfFuel, mkGossip c (gl_tasks s))
      end
  | None => (Ok tt, s)
  end.

Definition gossip_apply (am_i_relay oc : bool) (ev : gossip_event) : M GossipState VerifyError unit := λ s,
  let s := expire (gossip_time ev) s in
  match ev with
  | GTick now => gossip_tick am_i_relay now s
  | GDone _ i peer p choose => gossip_done oc i peer p choose s
  | GOther _ f => (Ok tt, mkGossip (f (gl_ctx s)) (gl_tasks s))
  end.

(** [gossip_loop]: it ends when an iteration fails. *)
Fixpoint gossip_loop (am_i_relay oc : bool) (evs : list gossip_event) : M GossipState VerifyError unit :=
  match evs with
  | [] => mret tt
  | ev :: evs => _ ← gossip_apply am_i_relay oc ev; gossip_loop am_i_relay oc evs
  end.

(** * Properties *)

Context {PL : PrimitivesLaws P} {IML : IndexMapLaws IM} {HIL : HashIterLaws HI}.
Context {CL : ChanLaws C} {LL : LruLaws L} {MKL : MokaLaws MK}.

(** Events in the order of their times.  The [k]-th tick of an interval timer
    is due [k] seconds after [start] and comes at most [late] seconds after it
    is due: ticks that were delayed may come back to back.  [k] ticks have
    come so far. *)
Fixpoint gossip_timely (start late k now : N) (evs : list gossip_event) : Prop :=
  match evs with
  | [] => True
  | ev :: evs =>
      (now <= gossip_time ev)%N ∧
      match ev with
      | GTick t => (start + (k + 1) <= t)%N ∧ (t <= start + (k + 1) + late)%N
      | _ => True
      end ∧
      gossip_timely start late (match ev with GTick _ => k + 1 | _ => k end)%N (gossip_time ev) evs
  end.

(** What an event may do: a peer's answers hold at most [K] links, and the rest of
    the daemon keeps its invariant and learns at most [2 * K] nodes at a time;
    in a build with overflow checks neither brings a timestamp in the future. *)
Definition gossip_event_ok (oc : bool) (K : N) (ev : gossip_event) : Prop :=
  match ev with
  | GTick _ => True
  | GDone now _ peer _ _ =>
      peer_no_future oc now peer ∧
      ∀ fps s l, (ask_adjacencies peer fps s).1 = Some l → (N.of_nat (length l) <= K)%N
  | GOther _ f => ∀ c, ctx_wf c → no_future oc c → ctx_wf (f c) ∧ no_future oc (f c) ∧
      clock (f c) = clock c ∧
      (unalloc_id (relay_graph (f c)) <= unalloc_id (relay_graph c) + 2 * K)%N
  end.

(** The running rounds belong to different ticks: [ns] numbers them. *)
Record tasks_ok (start late k now : N) (tasks : list (N * LinkConnection)) (ns : list N) : Prop := {
  to_distinct : NoDup ns;
  to_numbers : Forall (λ n, (n <= k)%N) ns;
  to_started : Forall2 (λ n t, (start + n <= t.1)%N ∧ (t.1 <= start + n + late)%N) ns tasks;
  to_alive : Forall (λ t, (t.1 <= now)%N ∧ (now < t.1 + GOSSIP_TIMEOUT)%N) tasks
}.

(** At most one round for each tick that was due in the last minute and the
    [late] seconds before. *)
Lemma tasks_bounded start late k now tasks ns :
  tasks_ok start late k now tasks ns → length tasks ≤ 60 + N.to_nat late.
Proof.
  intros [Hd _ Hs Ha]. rewrite <-(Forall2_length _ _ _ Hs).
  rewrite <-(length_seq (60 + N.to_nat late) 0), <-(length_fmap (λ i, now - start - N.of_nat i)%N).
  apply submseteq_length, NoDup_submseteq; [done|].
  intros n (i & Hi)%list_elem_of_lookup.
  destruct (Forall2_lookup_l _ _ _ _ _ Hs Hi) as (t & Ht & H1 & H2).
  destruct (Forall_lookup_1 _ _ _ _ Ha Ht) as [H3 H4]. unfold GOSSIP_TIMEOUT in H4.
  apply list_elem_of_fmap. exists (N.to_nat (now - start - n)). split; [lia|]. apply elem_of_seq. lia.
Qed.

Lemma Forall2_sublist {A A2} (R : A → A2 → Prop) (l : list A) (k k' : list A2) :
  Forall2 R l k → k' `sublist_of` k → ∃ l', l' `sublist_of` l ∧ Forall2 R l' k'.
Proof.
  intros HR Hsub. revert l HR. induction Hsub as [|x k1 k2 _ IH|x k1 k2 _ IH]; intros l HR.
  - exists []. split; [apply sublist_nil_l|constructor].
  - inversion HR as [|a ? l0 ? Ha Hl]; subst. destruct (IH l0 Hl) as (l' & H1 & H2).
    exists (a :: l'). split; [by apply sublist_skip|by constructor].
  - inversion HR as [|a ? l0 ? Ha Hl]; subst. destruct (IH l0 Hl) as (l' & H1 & H2).
    exists l'. split; [by apply sublist_cons|done].
Qed.

Lemma Forall_sublist {A} (Q : A → Prop) (l l' : list A) : l' `sublist_of` l → Forall Q l → Forall Q l'.
Proof. rewrite !Forall_forall. intros Hsub H x Hx. apply H. by eapply elem_of_sublist. Qed.

(** Rounds that end or expire leave the others as they are. *)
Lemma tasks_ok_sublist start late k now now' tasks tasks' ns :
  tasks_ok start late k now tasks ns → tasks' `sublist_of` tasks → (now <= now')%N →
  Forall (λ t, (now' < t.1 + GOSSIP_TIMEOUT)%N) tasks' →
  ∃ ns', tasks_ok start late k now' tasks' ns'.
Proof.
  intros [Hd Hn Hs Ha] Hsub Hle Halive. destruct (Forall2_sublist _ _ _ _ Hs Hsub) as (ns' & H1 & H2).
  exists ns'. split; [by eapply sublist_NoDup|by eapply Forall_sublist|done|].
  apply Forall_forall. intros t Ht. rewrite Forall_forall in Halive.
  pose proof (Forall_sublist _ _ _ Hsub Ha) as Ha'. rewrite Forall_forall in Ha'.
  destruct (Ha' t Ht). split; [lia|auto].
Qed.

Lemma expire_ok start late k now now' s ns :
  tasks_ok start late k now (gl_tasks s) ns → (now <= now')%N →
  ∃ ns', tasks_ok start late k now' (gl_tasks (expire now' s)) ns'.
Proof.
  intros Ht Hle. eapply tasks_ok_sublist; [exact Ht|cbn; apply sublist_filter|done|].
  apply Forall_forall. by intros t [? _]%list_elem_of_filter.
Qed.

Lemma tasks_ok_tick start late k now tasks ns conn :
  tasks_ok start late k now tasks ns →
  (start + (k + 1) <= now)%N → (now <= start + (k + 1) + late)%N →
  tasks_ok start late (k + 1) now (tasks ++ [(now, conn)]) (ns ++ [k + 1]%N).
Proof.
  intros [Hd Hn Hs Ha] H1 H2. split.
  - apply NoDup_app. split_and!; [done| |apply NoDup_singleton]. intros n Hin Hx.
    apply list_elem_of_singleton in Hx. rewrite Forall_forall in Hn. specialize (Hn n Hin). lia.
  - apply Forall_app. split; [|constructor; [lia|constructor]].
    eapply Forall_impl; [exact Hn|]. cbn. lia.
  - apply Forall2_app; [done|]. constructor; [cbn; lia|constructor].
  - apply Forall_app. split; [done|]. constructor; [cbn; unfold GOSSIP_TIMEOUT; lia|constructor].
Qed.

Lemma tasks_ok_skip start late k now tasks ns :
  tasks_ok start late k now tasks ns → tasks_ok start late (k + 1) now tasks ns.
Proof. intros [Hd Hn Hs Ha]. split; [done| |done..]. eapply Forall_impl; [exact Hn|]. cbn. lia. Qed.

Lemma no_future_clock oc now c :
  no_future oc c → (clock c <= now)%N → no_future oc (set_clock now c).
Proof. intros [?|H] Hle; [by left|right]. by eapply graph_before_mono. Qed.

(** An iteration cannot fail, and learns at most one node. *)
Lemma gossip_pick_post oc relay c :
  ctx_wf c → no_future oc c → (unalloc_id (relay_graph c) + 1 < u64_modulus)%N →
  ∃ o c', gossip_pick relay c = (Ok o, c') ∧ graph_post oc 1 c c'.
Proof.
  intros Hwf Hnf Hb. destruct (gossip_round_starts relay c Hwf Hb) as (o & c' & Hp & Hwf' & _).
  exists o, c'. split; [done|].
  pose proof (on_graph_insert_identity oc (IdentityDescriptor_new (clock c) (global_identity c)
    (global_onion_sk c) relay) c Hwf Hnf ltac:(right; cbn; lia) Hb) as Hi.
  unfold gossip_pick, mbind, M_bind, gossip_insert_self, get_state in Hp. unfold wp in Hi.
  destruct (on_graph _ c) as [[[]| | |] c1]; try done. destruct Hi as [_ Hu Hcl Hid Hn].
  destruct (all_neighs (neigh_table c1)) as [|n l]; [by injection Hp as _ <-|].
  unfold with_rng, zoom, sample in Hp. destruct (gen_range _ _) as [i r]. cbn [fst snd] in Hp.
  destruct ((n :: l) !! N.to_nat i); [|done]. injection Hp as _ <-. done.
Qed.

(** The state the loop keeps: the context, its clock, and the rounds. *)
Record loop_ok (oc : bool) (start late k now : N) (s : GossipState) : Prop := {
  lo_wf : ctx_wf (gl_ctx s);
  lo_no_future : no_future oc (gl_ctx s);
  lo_clock : (clock (gl_ctx s) <= now)%N;
  lo_tasks : ∃ ns, tasks_ok start late k now (gl_tasks s) ns
}.

Lemma expire_loop_ok oc start late k now now' s :
  loop_ok oc start late k now s → (now <= now')%N → loop_ok oc start late k now' (expire now' s).
Proof.
  intros [Hwf Hnf Hc [ns Ht]] Hle. split; cbn.
  - by apply set_clock_wf.
  - apply no_future_clock; [done|lia].
  - done.
  - by eapply expire_ok.
Qed.

Lemma gossip_apply_ok relay oc K ev start late k now s :
  gossip_event_ok oc K ev → loop_ok oc start late k now s → (now <= gossip_time ev)%N →
  (match ev with
   | GTick t => (start + (k + 1) <= t)%N ∧ (t <= start + (k + 1) + late)%N
   | _ => True
   end) →
  (unalloc_id (relay_graph (gl_ctx s)) + (1 + 2 * K) < u64_modulus)%N →
  ∃ s', gossip_apply relay oc ev s = (Ok tt, s') ∧
    loop_ok oc start late (match ev with GTick _ => k + 1 | _ => k end)%N (gossip_time ev) s' ∧
    (unalloc_id (relay_graph (gl_ctx s')) <= unalloc_id (relay_graph (gl_ctx s)) + (1 + 2 * K))%N.
Proof.
  intros Hev Hl Hle Htick Hb. unfold gossip_apply. cbv zeta.
  pose proof (expire_loop_ok _ _ _ _ _ (gossip_time ev) s Hl Hle) as Hl1.
  assert (clock (gl_ctx (expire (gossip_time ev) s)) = gossip_time ev) as Hclk by done.
  change (unalloc_id (relay_graph (gl_ctx s))) with
    (unalloc_id (relay_graph (gl_ctx (expire (gossip_time ev) s)))) in Hb |- *.
  set (s1 := expire _ s) in *. clearbody s1. clear Hl Hle s.
  destruct Hl1 as [Hwf Hnf Hc [ns Ht]]. destruct ev as [t|t i peer p choose|t f]; cbn in *.
  - unfold gossip_tick.
    destruct (gossip_pick_post oc relay (gl_ctx s1) Hwf Hnf ltac:(lia)) as (o & c' & -> & [Hw Hu Hcl _ Hn]).
    destruct o as [conn|]; (eexists; split; [done|]); (split; [|cbn; lia]);
      (split; cbn; [done|done|lia|]); eexists.
    + apply tasks_ok_tick; [exact Ht|apply Htick..].
    + apply tasks_ok_skip. exact Ht.
  - unfold gossip_done. destruct (gl_tasks s1 !! i) as [[t0 conn]|] eqn:Hi.
    2: { exists s1. split; [done|]. split; [|lia]. split; [done|done|lia|by eexists]. }
    destruct Hev as [Hp HK]. rewrite <-Hclk in Hp.
    pose proof (gossip_once_safe peer oc choose conn (gl_ctx s1) p K Hwf Hnf Hp HK ltac:(lia)) as Hs.
    destruct (tasks_ok_sublist _ _ _ _ t _ (delete i (gl_tasks s1)) _ Ht (sublist_delete _ _))
      as (ns' & Hdel); [done|apply Forall_delete; eapply Forall_impl; [exact (to_alive _ _ _ _ _ _ Ht)|naive_solver]|].
    unfold wp in Hs. destruct (gossip_once _ _ _ _ _) as [[] [c' p']]; try done;
      (eexists; split; [done|]; destruct Hs as [Hw Hu Hcl _ Hn]; cbn in *; split; [|lia]);
      (split; cbn; [done|done|lia|eauto]).
  - destruct (Hev _ Hwf Hnf) as (Hw & Hn & Hcl & Hu). eexists. split; [done|].
    split; [|cbn; lia]. split; cbn; [done|done|lia|eauto].
Qed.

(** C17 (the gossip loop): from its start, whatever neighbors answer (at most [K] links at a
    time), however long their rounds take and whatever the rest of the daemon
    does to the context in between, the gossip loop never fails or panics, keeps
    the context well-formed, and has at most sixty rounds running and one more
    for each second a tick of its timer may come late; in a build with
    overflow checks, provided no timestamp of an answer is in the future. *)
Theorem gossip_loop_runs relay oc K evs start late c :
  ctx_wf c → no_future oc c → (clock c <= start)%N →
  gossip_timely start late 0 start evs → Forall (gossip_event_ok oc K) evs →
  (unalloc_id (relay_graph c) + N.of_nat (length evs) * (1 + 2 * K) < u64_modulus)%N →
  ∃ s, gossip_loop relay oc evs (mkGossip c []) = (Ok tt, s) ∧ ctx_wf (gl_ctx s) ∧
    length (gl_tasks s) ≤ 60 + N.to_nat late.
Proof.
  intros Hwf Hnf Hc.
  assert (loop_ok oc start late 0 start (mkGossip c [])) as Hl.
  { split; [done..|]. exists []. split; constructor. }
  change (relay_graph c) with (relay_graph (gl_ctx (mkGossip c []))).
  clear Hwf Hnf Hc. revert Hl. generalize (mkGossip c []). generalize start at 2 4. generalize 0%N.
  induction evs as [|ev evs IH]; intros k now s Hl Htime Hok Hb.
  { exists s. split; [done|]. destruct Hl as [Hwf _ _ [ns Ht]]. split; [done|]. by eapply tasks_bounded. }
  cbn [gossip_timely] in Htime. destruct Htime as (Hle & Htick & Htime).
  inversion Hok as [|? ? Hev Hok1]; subst. clear Hok. cbn [length] in Hb.
  destruct (gossip_apply_ok relay oc K ev start late k now s Hev Hl Hle Htick ltac:(lia))
    as (s1 & Hap & Hl1 & Hu1).
  destruct (IH _ (gossip_time ev) s1 Hl1 Htime Hok1 ltac:(lia)) as (s' & Hs' & ?).
  exists s'. split; [|done]. cbn [gossip_loop]. unfold mbind, M_bind. by rewrite Hap.
Qed.

End GossipLoop.

(** * Witness *)

(** Rounds with a rude peer; the loop is held up for three seconds, and the
    ticks it missed then come at once. *)
Definition gl_events : list gossip_event :=
  [GTick (P:=toy) 1006; GDone 1006 0 rude_peer tt (λ l r, (l, r)); GOther 1007 (λ c, c);
   GTick 1010; GTick 1010; GTick 1010].

Lemma gl_events_ok oc : Forall (gossip_event_ok (P:=toy) oc 1) gl_events.
Proof.
  constructor; [exact I|]. constructor; [|constructor; [|repeat constructor]].
  - split; [apply rude_peer_no_future; lia|]. cbn. intros fps s l [= <-]. reflexivity.
  - cbn. intros c Hc Hn. split_and!; [exact Hc|exact Hn|reflexivity|lia].
Qed.

Lemma gossip_loop_runs_witness :
  ∃ s, gossip_loop (P:=toy) true true gl_events (mkGossip ctx1 []) = (Ok tt, s) ∧ ctx_wf (gl_ctx s) ∧
    length (gl_tasks s) ≤ 60 + N.to_nat 3.
Proof.
  apply (gossip_loop_runs (P:=toy) true true 1 gl_events 1005 3 ctx1).
  - exact ctx1_wf.
  - apply ctx1_no_future.
  - vm_compute. discriminate.
  - cbn. lia.
  - apply gl_events_ok.
  - vm_compute. reflexivity.
Defined.

(** The first round ended; three are running, started at the same second. *)
Lemma gl_running :
  (let '(o, s) := gossip_loop (P:=toy) true true gl_events (mkGossip ctx1 []) in
   (is_ok o, (gl_tasks s).*1)) = (true, [1010; 1010; 1010]%N).
Proof. vm_compute. reflexivity. Qed.
