(* ===== verification/Dht.v ===== *)
(** The directory of havens: [HavenLocator] and [RegisterHavenReq] of
    [src/haven_util.rs], [src/daemon/dht.rs], [src/global_rpc/server.rs] and
    [DhtError] of [src/control_protocol.rs].

    A locator is kept on three relays chosen by hashing; the answers of the
    replicas are arbitrary and come in any order. *)

From Stdlib Require Import String.
From Stdlib Require Sorting.Sorted.
From stdpp Require Import sorting.
From S2P Require Import Prelude Interfaces Crypto Packet OnionRouting Topology Directory Instances.
Close Scope string_scope.

Record HavenLocator := mkHavenLocator {
  hl_identity_pk : IdentityPublic;
  hl_onion_pk : OnionPublic;
  rendezvous_point : Fingerprint;
  hl_signature : list byte
}.

Record RegisterHavenReq := mkRegisterHavenReq {
  rh_identity_pk : IdentityPublic;
  rh_sig : list byte;
  rh_timestamp : N
}.

Inductive DhtError := DhtVerifyFailed | DhtNetworkFailure.

Definition LOCATOR_KEY : array 32 := key32 "haven_locator___________________" eq_refl.
Definition REGISTRATION_KEY : array 32 := key32 "haven_registration______________" eq_refl.
Definition DHT_REDUNDANCY : nat := 3.
Definition DHT_CACHE_TTL : N := 60.
Definition SHARD_TTL : N := 600.
Definition HAVEN_TTL : N := 3600.

Section Dht.
  Context {P : Primitives} {IM : IndexMap} {HI : HashIter} {MK : Moka}.
  Context {SA : Stdcode AdjacencyDescriptor} {SI : Stdcode IdentityDescriptor}.
  Context {SL : Stdcode HavenLocator} {SR : Stdcode RegisterHavenReq}.
  Context {SK : Stdcode (list byte * Fingerprint)}.

(** * Locators and registrations *)

Definition locator_to_sign (self : HavenLocator) : array 32 :=
  let locator := mkHavenLocator (hl_identity_pk self) (hl_onion_pk self) (rendezvous_point self) [] in
  blake3_keyed_hash LOCATOR_KEY (stdcode locator).

Definition HavenLocator_new (identity_sk : IdentitySecret) (onion_pk : OnionPublic)
    (rendezvous_fingerprint : Fingerprint) : HavenLocator :=
  let identity_pk := public identity_sk in
  let locator := mkHavenLocator identity_pk onion_pk rendezvous_fingerprint [] in
  let signature := sign identity_sk (locator_to_sign locator) in
  mkHavenLocator identity_pk onion_pk rendezvous_fingerprint signature.

Definition registration_to_sign (self : RegisterHavenReq) : array 32 :=
  let this := mkRegisterHavenReq (rh_identity_pk self) [] (rh_timestamp self) in
  blake3_keyed_hash REGISTRATION_KEY (stdcode this).

Definition RegisterHavenReq_new (now : N) (identity_sk : IdentitySecret) : RegisterHavenReq :=
  let reg := mkRegisterHavenReq (public identity_sk) [] now in
  mkRegisterHavenReq (public identity_sk) (sign identity_sk (registration_to_sign reg)) now.

(** * The caches behind the global RPC *)

Record RpcContext := mkRpcContext {
  dht_cache : moka Fingerprint HavenLocator;
  local_dht_shard : moka Fingerprint HavenLocator;
  registered_havens : moka Fingerprint ()
}.

Definition rpc_new : RpcContext :=
  mkRpcContext (moka_new None (Some DHT_CACHE_TTL)) (moka_new None (Some SHARD_TTL))
    (moka_new None (Some HAVEN_TTL)).

Definition verify_locator (l : HavenLocator) : outcome VerifyError unit :=
  verify (hl_identity_pk l) (locator_to_sign l) (hl_signature l).

(** * The client *)

(** The hash by which the relays of a key are ordered. *)
Definition replica_key (key : list byte) (fp : Fingerprint) : array 32 :=
  blake3_hash (stdcode (key, fp)).

Definition replica_le (key : list byte) (a b : Fingerprint) : Prop :=
  array_lt (replica_key key b) (replica_key key a) = false.

#[global] Instance replica_le_dec key : RelDecision (replica_le key).
Proof. intros a b. apply bool_eq_dec. Defined.

Definition dht_key_to_fps (g : RelayGraph) (key : list byte) : list Fingerprint :=
  let all := filter (λ fp, match identity g fp with
                           | Some id => is_relay id
                           | None => false
                           end = true) (all_nodes g) in
  merge_sort (replica_le key) all.

(** The requests of [dht_insert]: the locator to each of the three replicas;
    failures are only logged. *)
Definition dht_insert (g : RelayGraph) (locator : HavenLocator)
    : list (Fingerprint * HavenLocator) :=
  let key := fingerprint (hl_identity_pk locator) in
  let replicas := dht_key_to_fps g (bytes_of (Fingerprint_to_string key)) in
  (λ replica, (replica, locator)) <$> take DHT_REDUNDANCY replicas.

(** What a replica's call comes to: it failed ([None]), an error, or the
    replica's locator if it has one. *)
Definition replica_answer : Type := option (DhtError + option HavenLocator).

(** The loop of [dht_get] over the answers, in the order they come; [missing]
    replicas have not answered: their calls are retried without end, and the
    loop waits for them once the others are through. *)
Fixpoint dht_gather (now : N) (fp : Fingerprint) (missing : nat)
    (retval : outcome DhtError (option HavenLocator)) (answers : list replica_answer)
    : M RpcContext DhtError (option HavenLocator) :=
  match answers with
  | [] => lift (match missing with O => retval | S _ => OutOfFuel end)
  | None :: answers => dht_gather now fp missing (Err DhtNetworkFailure) answers
  | Some (inl err) :: answers => dht_gather now fp missing (Err err) answers
  | Some (inr None) :: answers => dht_gather now fp missing retval answers
  | Some (inr (Some locator)) :: answers =>
      if decide (fingerprint (hl_identity_pk locator) = fp) then
        _ ← lift (map_err (λ _, DhtVerifyFailed) (verify_locator locator));
        _ ← modify (λ c, mkRpcContext (moka_insert now fp locator (dht_cache c))
                           (local_dht_shard c) (registered_havens c));
        mret (Some locator)
      else dht_gather now fp missing (Err DhtVerifyFailed) answers
  end.

(** The network: the answers that arrive from the replicas asked, in the order
    they arrive; replicas that never answer are not among them. *)
Definition replica_net : Type := list Fingerprint → list replica_answer.

Definition dht_get (now : N) (g : RelayGraph) (net : replica_net) (fp : Fingerprint)
    : M RpcContext DhtError (option HavenLocator) :=
  c ← get_state;
  match moka_get now fp (dht_cache c) with
  | Some locator => mret (Some locator)
  | None =>
      let replicas := dht_key_to_fps g (bytes_of (Fingerprint_to_string fp)) in
      let asked := take DHT_REDUNDANCY replicas in
      dht_gather now fp (length asked - length (net asked)) (Ok None) (net asked)
  end.

(** [dht_get(..).timeout(30 seconds)], a network failure when the time is up:
    either the lookup still waits, or what it needs came too late ([in_time] is
    false). *)
Definition dht_get_timeout (in_time : bool) (now : N) (g : RelayGraph) (net : replica_net)
    (fp : Fingerprint) : M RpcContext DhtError (option HavenLocator) := λ c,
  if in_time then
    match dht_get now g net fp c with
    | (OutOfFuel, c) => (Err DhtNetworkFailure, c)
    | r => r
    end
  else (Err DhtNetworkFailure, c).

(** * The server *)

(** [GlobalRpcImpl::dht_insert]; with [recurse] the requests go to the
    replicas of the graph instead. *)
Definition rpc_dht_insert (now : N) (g : RelayGraph) (locator : HavenLocator) (recurse : bool)
    : M RpcContext DhtError (list (Fingerprint * HavenLocator)) :=
  let key := fingerprint (hl_identity_pk locator) in
  if recurse then mret (dht_insert g locator)
  else
    _ ← lift (map_err (λ _, DhtVerifyFailed) (verify_locator locator));
    _ ← modify (λ c, mkRpcContext (dht_cache c) (moka_insert now key locator (local_dht_shard c))
                       (registered_havens c));
    mret [].

Definition rpc_dht_get (now : N) (g : RelayGraph) (net : replica_net) (key : Fingerprint)
    (recurse : bool) : M RpcContext DhtError (option HavenLocator) :=
  c ← get_state;
  match moka_get now key (local_dht_shard c) with
  | Some val => mret (Some val)
  | None => if recurse then dht_get now g net key else mret None
  end.

Definition alloc_forward (now : N) (registration : RegisterHavenReq)
    : M RpcContext VerifyError unit :=
  _ ← lift (verify (rh_identity_pk registration) (registration_to_sign registration)
              (rh_sig registration));
  modify (λ c, mkRpcContext (dht_cache c) (local_dht_shard c)
                 (moka_insert now (fingerprint (rh_identity_pk registration)) ()
                    (registered_havens c))).

(** * Properties *)

Context {PL : PrimitivesLaws P} {IML : IndexMapLaws IM} {HIL : HashIterLaws HI}.
Context {MKL : MokaLaws MK}.

(** The locator was made by the owner of the fingerprint. *)
Definition authentic (fp : Fingerprint) (l : HavenLocator) : Prop :=
  fingerprint (hl_identity_pk l) = fp ∧ verify_locator l = Ok tt.

Record rpc_wf (c : RpcContext) : Prop := {
  rpc_cache_ok fp l : moka_holds fp l (dht_cache c) → authentic fp l;
  rpc_shard_ok fp l : moka_holds fp l (local_dht_shard c) → authentic fp l;
  rpc_shard_ttl : moka_unbounded SHARD_TTL (local_dht_shard c)
}.

Lemma rpc_new_wf : rpc_wf rpc_new.
Proof. split; cbn; try (intros fp l H; by apply moka_new_holds in H). apply moka_new_unbounded. Qed.

Lemma verify_locator_returns l : returns (verify_locator l).
Proof. apply verify_returns. Qed.

Lemma cache_insert_ok fp l now (m : moka Fingerprint HavenLocator) :
  (∀ fp l, moka_holds fp l m → authentic fp l) → authentic fp l →
  ∀ fp' l', moka_holds fp' l' (moka_insert now fp l m) → authentic fp' l'.
Proof.
  intros Hm Hl fp' l' Hh%moka_insert_holds. case_decide; [by subst|auto].
Qed.

(** What a lookup may come to. *)
Definition lookup_ok (fp : Fingerprint) (answered : Prop)
    (r : outcome DhtError (option HavenLocator) * RpcContext) : Prop :=
  rpc_wf r.2 ∧ r.1 ≠ Panic ∧ (∀ l, r.1 = Ok (Some l) → authentic fp l) ∧ (answered → returns r.1).

Lemma dht_gather_spec now fp missing retval answers c :
  rpc_wf c → returns retval → (∀ l, retval ≠ Ok (Some l)) →
  lookup_ok fp (missing = 0) (dht_gather now fp missing retval answers c).
Proof.
  revert retval. induction answers as [|[[e|[l|]]|] answers IH]; intros retval Hwf Hret Hno;
    cbn [dht_gather].
  - destruct missing; (split_and!; cbn; [done|by destruct retval|naive_solver|done]).
  - by apply IH.
  - case_decide as Hfp; [|by apply IH].
    unfold mbind, M_bind, lift, modify. pose proof (verify_locator_returns l) as Hv.
    destruct (verify_locator l) as [[]| | |] eqn:Hl; cbn; try done.
    assert (authentic fp l) as Hauth by done.
    split_and!; cbn; [|done|naive_solver|done]. destruct Hwf. split; cbn; [|done|done].
    by apply cache_insert_ok.
  - by apply IH.
  - by apply IH.
Qed.

(** The network has an answer from every replica a lookup asks. *)
Definition all_answered (g : RelayGraph) (net : replica_net) (fp : Fingerprint) : Prop :=
  let asked := take DHT_REDUNDANCY (dht_key_to_fps g (bytes_of (Fingerprint_to_string fp))) in
  length asked ≤ length (net asked).

Lemma dht_get_spec now g net fp c :
  rpc_wf c → lookup_ok fp (all_answered g net fp) (dht_get now g net fp c).
Proof.
  intros Hwf. unfold dht_get, mbind, M_bind, get_state.
  destruct (moka_get now fp (dht_cache c)) as [l|] eqn:Hg.
  - split_and!; [done..| |done]. intros ? [= <-]. apply moka_get_holds in Hg. by apply Hwf.
  - cbv zeta. destruct (dht_gather_spec now fp
      (length (take DHT_REDUNDANCY (dht_key_to_fps g (bytes_of (Fingerprint_to_string fp)))) -
       length (net (take DHT_REDUNDANCY (dht_key_to_fps g (bytes_of (Fingerprint_to_string fp))))))
      (Ok None) (net (take DHT_REDUNDANCY (dht_key_to_fps g (bytes_of (Fingerprint_to_string fp))))) c
      Hwf) as (H1 & H2 & H3 & H4); [done..|].
    split_and!; [done..|]. intros Ha. apply H4. unfold all_answered in Ha. lia.
Qed.

(** With its time-out a lookup always returns. *)
Lemma dht_get_timeout_spec in_time now g net fp c :
  rpc_wf c →
  wp (dht_get_timeout in_time now g net fp)
    (λ o c', rpc_wf c' ∧ ∀ l, o = Some l → authentic fp l) rpc_wf c.
Proof.
  intros Hwf. unfold wp, dht_get_timeout. destruct in_time; [|done].
  destruct (dht_get_spec now g net fp c Hwf) as (H1 & H2 & H3 & _).
  destruct (dht_get now g net fp c) as [[a| | |] c']; cbn in *; try done.
  split; [done|]. intros l ->. by apply H3.
Qed.

(** An answer that does not end a lookup. *)
Definition inconclusive (fp : Fingerprint) (a : replica_answer) : Prop :=
  ∀ l, a = Some (inr (Some l)) → fingerprint (hl_identity_pk l) ≠ fp.

Lemma gather_inconclusive now fp missing l before after retval c :
  Forall (inconclusive fp) before → authentic fp l →
  (dht_gather now fp missing retval (before ++ Some (inr (Some l)) :: after) c).1 = Ok (Some l).
Proof.
  intros Hb [Hfp Hv]. revert retval. induction Hb as [|a before Ha Hb IH]; intros retval; cbn [app dht_gather].
  - rewrite decide_True by done. unfold mbind, M_bind, lift. by rewrite Hv.
  - destruct a as [[e|[l'|]]|]; [apply IH| |apply IH..].
    rewrite decide_False by (by apply Ha). apply IH.
Qed.

(** ** Sequences of calls *)

Inductive rpc_op :=
  | RInsert (now : N) (g : RelayGraph) (l : HavenLocator) (recurse : bool)
  | RGet (now : N) (g : RelayGraph) (net : replica_net) (fp : Fingerprint) (recurse : bool)
  | RLookup (now : N) (g : RelayGraph) (net : replica_net) (fp : Fingerprint)
  | RRegister (now : N) (r : RegisterHavenReq).

(** The context after a call and, for a lookup, the key with its answer. *)
Definition rpc_apply (op : rpc_op) (c : RpcContext)
    : option (Fingerprint * outcome DhtError (option HavenLocator)) * RpcContext :=
  match op with
  | RInsert now g l recurse => (None, (rpc_dht_insert now g l recurse c).2)
  | RGet now g net fp recurse =>
      let '(o, c') := rpc_dht_get now g net fp recurse c in (Some (fp, o), c')
  | RLookup now g net fp => let '(o, c') := dht_get now g net fp c in (Some (fp, o), c')
  | RRegister now r => (None, (alloc_forward now r c).2)
  end.

Definition rpc_run (ops : list rpc_op) : RpcContext := for_each (λ op c, (rpc_apply op c).2) ops rpc_new.

(** Every replica that the operation asks, if it asks any, has answered. *)
Definition op_answered (op : rpc_op) : Prop :=
  match op with
  | RGet _ g net fp true | RLookup _ g net fp => all_answered g net fp
  | _ => True
  end.

Definition answer_ok (answered : Prop)
    (a : option (Fingerprint * outcome DhtError (option HavenLocator))) : Prop :=
  match a with
  | Some (fp, o) => o ≠ Panic ∧ (∀ l, o = Ok (Some l) → authentic fp l) ∧ (answered → returns o)
  | None => True
  end.

Lemma rpc_apply_ok op c :
  rpc_wf c → answer_ok (op_answered op) (rpc_apply op c).1 ∧ rpc_wf (rpc_apply op c).2.
Proof.
  intros Hwf. destruct op as [now g l recurse|now g net fp recurse|now g net fp|now r]; cbn.
  - split; [done|]. unfold rpc_dht_insert. destruct recurse; [done|].
    unfold mbind, M_bind, lift, modify. pose proof (verify_locator_returns l).
    destruct (verify_locator l) as [[]| | |] eqn:Hv; try done. cbn.
    destruct Hwf. split; cbn; [done| |by apply moka_insert_unbounded]. by apply cache_insert_ok.
  - unfold rpc_dht_get, mbind, M_bind, get_state.
    destruct (moka_get now fp (local_dht_shard c)) as [l|] eqn:Hg.
    + cbn. split; [|done]. split_and!; [done| |done]. intros ? [= <-]. apply moka_get_holds in Hg.
      by apply (rpc_shard_ok _ Hwf).
    + destruct recurse; [|done]. destruct (dht_get_spec now g net fp c Hwf) as (H1 & H2).
      by destruct (dht_get now g net fp c).
  - destruct (dht_get_spec now g net fp c Hwf) as (H1 & H2). by destruct (dht_get now g net fp c).
  - split; [done|]. unfold alloc_forward, mbind, M_bind, lift.
    destruct (verify _ _ _); try done. cbn. destruct Hwf. by split.
Qed.

Lemma rpc_runs_wf ops c : rpc_wf c → rpc_wf (for_each (λ op c, (rpc_apply op c).2) ops c).
Proof.
  revert c. induction ops as [|op ops IH]; intros c Hc; [done|]. cbn. by apply IH, rpc_apply_ok.
Qed.

Lemma rpc_run_wf ops : rpc_wf (rpc_run ops).
Proof. apply rpc_runs_wf, rpc_new_wf. Qed.

Lemma verify_locator_new isk opk rp : verify_locator (HavenLocator_new isk opk rp) = Ok tt.
Proof. apply verify_sign. Qed.

(** A signed locator is kept by a replica, which then answers with it. *)
Lemma insert_get_local c g isk opk rp now t g' net :
  rpc_wf c → (now <= t)%N → (t < now + SHARD_TTL)%N →
  let l := HavenLocator_new isk opk rp in
  ∃ c', rpc_dht_insert now g l false c = (Ok [], c') ∧
    rpc_dht_get t g' net (fingerprint (public isk)) false c' = (Ok (Some l), c').
Proof.
  intros Hwf H1 H2 l. unfold rpc_dht_insert, mbind, M_bind, lift. unfold l at 1.
  rewrite verify_locator_new. eexists. split; [done|].
  unfold rpc_dht_get, mbind, M_bind, get_state. cbn [local_dht_shard].
  by rewrite (moka_insert_live SHARD_TTL) by (done || apply Hwf).
Qed.

(** C25 (authenticity of locators): whatever other nodes insert and whatever the
    replicas answer, in whatever order, a lookup of a fingerprint, local or
    recursive, never panics, and returns a locator only if it names a key with
    that fingerprint and carries that key's signature.  It returns once every
    replica it asks has answered; until then it may wait. *)
Theorem dht_lookup_authentic ops op :
  match (rpc_apply op (rpc_run ops)).1 with
  | Some (fp, o) =>
      o ≠ Panic ∧
      (∀ l, o = Ok (Some l) → fingerprint (hl_identity_pk l) = fp ∧ verify_locator l = Ok tt) ∧
      (op_answered op → returns o)
  | None => True
  end.
Proof. apply (rpc_apply_ok op _ (rpc_run_wf ops)). Qed.

(** A locator its owner signed is accepted by a replica and found there for the
    next ten minutes. *)
Theorem dht_insert_then_get ops g isk opk rp now t g' net :
  (now <= t)%N → (t < now + 600)%N →
  let l := HavenLocator_new isk opk rp in
  ∃ c', rpc_dht_insert now g l false (rpc_run ops) = (Ok [], c') ∧
    rpc_dht_get t g' net (fingerprint (public isk)) false c' = (Ok (Some l), c').
Proof.
  intros H1 H2 l. by apply insert_get_local; [apply rpc_run_wf|..].
Qed.

(** A single bad replica defeats a lookup: an answer with the right key and a
    wrong signature that arrives first ends the lookup with an error, even
    when a later answer is authentic. *)
Theorem bad_replica_aborts now g net fp bad answers c :
  moka_get now fp (dht_cache c) = None →
  net (take 3 (dht_key_to_fps g (bytes_of (Fingerprint_to_string fp)))) =
    Some (inr (Some bad)) :: answers →
  fingerprint (hl_identity_pk bad) = fp → verify_locator bad ≠ Ok tt →
  dht_get now g net fp c = (Err DhtVerifyFailed, c).
Proof.
  intros Hg Hnet Hfp Hbad. unfold dht_get, mbind, M_bind, get_state. rewrite Hg. cbv zeta. unfold DHT_REDUNDANCY.
  rewrite Hnet. cbn [dht_gather]. rewrite decide_True by done. unfold mbind, M_bind, lift.
  pose proof (verify_locator_returns bad). by destruct (verify_locator bad) as [[]| | |].
Qed.

(** ** Replicas *)

#[export] Instance replica_le_trans key : Transitive (replica_le key).
Proof.
  intros a b c. unfold replica_le. intros H1 H2.
  destruct (array_lt (replica_key key c) (replica_key key a)) eqn:H3; [|done].
  destruct (array_lt_total (replica_key key a) (replica_key key b)) as [H|[H|H]].
  - by rewrite (array_lt_trans _ _ _ H3 H) in H2.
  - rewrite H in H3. congruence.
  - congruence.
Qed.

#[export] Instance replica_le_total key : Total (replica_le key).
Proof.
  intros a b. unfold replica_le.
  destruct (array_lt (replica_key key b) (replica_key key a)) eqn:H; [right|by left].
  by apply array_lt_asym.
Qed.

Lemma elem_of_all_nodes g fp : fp ∈ all_nodes g ↔ is_Some (fp_to_id g !! fp).
Proof. unfold all_nodes. by rewrite elem_of_hash_iter, elem_of_dom. Qed.

Definition relay_of (g : RelayGraph) (fp : Fingerprint) : Prop :=
  ∃ d, identity g fp = Some d ∧ is_relay d = true.

(** No two of the relays collide under the hash of the key. *)
Definition no_collision (g : RelayGraph) (key : list byte) : Prop :=
  ∀ a b, a ∈ dht_key_to_fps g key → b ∈ dht_key_to_fps g key →
    replica_key key a = replica_key key b → a = b.

Lemma elem_of_replicas g key fp : fp ∈ dht_key_to_fps g key ↔ relay_of g fp.
Proof.
  unfold dht_key_to_fps, relay_of. rewrite merge_sort_Permutation, list_elem_of_filter.
  rewrite elem_of_all_nodes. unfold identity, graph_id.
  destruct (fp_to_id g !! fp) as [i|]; cbn; [|split; [by intros [? []]|by intros (? & ? & _)]].
  destruct (id_to_descriptor g !! i); naive_solver.
Qed.

Lemma replicas_NoDup g key : NoDup (dht_key_to_fps g key).
Proof.
  unfold dht_key_to_fps. rewrite merge_sort_Permutation. apply list.NoDup_filter, hash_iter_NoDup.
Qed.

Lemma replicas_eq g1 g2 key :
  (∀ fp, relay_of g1 fp ↔ relay_of g2 fp) → no_collision g1 key →
  dht_key_to_fps g1 key = dht_key_to_fps g2 key.
Proof.
  intros Hsame Hinj.
  assert (dht_key_to_fps g1 key ≡ₚ dht_key_to_fps g2 key) as Hperm.
  { apply NoDup_Permutation; [apply replicas_NoDup..|]. intros fp. by rewrite !elem_of_replicas. }
  apply (Sorted_unique_strong (replica_le key)); [| | |exact Hperm].
  - intros a b Ha Hb Hab Hba. apply Hinj; [done| |].
    { by rewrite Hperm. }
    unfold replica_le in *.
    destruct (array_lt_total (replica_key key a) (replica_key key b)) as [H|[H|H]]; congruence.
  - apply (Sorted_merge_sort (replica_le key)).
  - apply (Sorted_merge_sort (replica_le key)).
Qed.

(** Choice of replicas: the list of replicas of a key holds every relay of the
    graph once, ordered by the hash of key and fingerprint; two nodes that know
    the same relays, none of which collide under the hash, choose the same
    replicas in the same order, whatever else their graphs hold. *)
Theorem replicas_agree g1 g2 key :
  (∀ fp, (fp ∈ dht_key_to_fps g1 key) ↔ relay_of g1 fp) ∧
  NoDup (dht_key_to_fps g1 key) ∧ Sorted.StronglySorted (replica_le key) (dht_key_to_fps g1 key) ∧
  ((∀ fp, relay_of g1 fp ↔ relay_of g2 fp) → no_collision g1 key →
   dht_key_to_fps g1 key = dht_key_to_fps g2 key).
Proof.
  split_and!.
  - apply elem_of_replicas.
  - apply replicas_NoDup.
  - apply (StronglySorted_merge_sort (replica_le key)).
  - apply replicas_eq.
Qed.

(** ** Publishing and looking up *)

(** The answer to a call whose method came to [o]. *)
Definition answer_of (o : outcome DhtError (option HavenLocator)) : replica_answer :=
  match o with
  | Ok found => Some (inr found)
  | Err e => Some (inl e)
  | _ => None
  end.

(** What a replica may be asked between an insertion of [l] at [now] and its
    answer at [t]: anything, except to take another locator that the same key
    has signed. *)
Definition keeps_locator (l : HavenLocator) (now t : N) (op : rpc_op) : Prop :=
  match op with
  | RInsert n _ l' false =>
      (n <= t)%N ∧ (authentic (fingerprint (hl_identity_pk l)) l' → l' = l ∧ (now <= n)%N)
  | _ => True
  end.

Lemma dht_get_shard now g net fp c : local_dht_shard (dht_get now g net fp c).2 = local_dht_shard c.
Proof.
  unfold dht_get, mbind, M_bind, get_state. destruct (moka_get _ _ _); [done|]. cbv zeta.
  generalize (Ok None : outcome DhtError (option HavenLocator)).
  generalize (length (take DHT_REDUNDANCY (dht_key_to_fps g (bytes_of (Fingerprint_to_string fp)))) -
    length (net (take DHT_REDUNDANCY (dht_key_to_fps g (bytes_of (Fingerprint_to_string fp)))))).
  induction (net _) as [|[[e|[l|]]|] answers IH]; intros k r; cbn [dht_gather]; auto.
  case_decide; [|auto]. unfold mbind, M_bind, lift. by destruct (verify_locator l).
Qed.

Lemma keeps_locator_step l now t op c :
  rpc_wf c → (t < now + SHARD_TTL)%N → keeps_locator l now t op →
  moka_get t (fingerprint (hl_identity_pk l)) (local_dht_shard c) = Some l →
  moka_get t (fingerprint (hl_identity_pk l)) (local_dht_shard (rpc_apply op c).2) = Some l.
Proof.
  intros Hwf Ht Hop Hl. destruct op as [n g l' []|n g net fp recurse|n g net fp|n r]; cbn in *; [done|..].
  - destruct Hop as [Hn Hsame]. unfold mbind, M_bind, lift, modify.
    destruct (verify_locator l') as [[]| | |] eqn:Hv; try done. cbn.
    destruct (decide (fingerprint (hl_identity_pk l') = fingerprint (hl_identity_pk l))) as [E|E].
    + destruct Hsame as [-> Hle]; [done|]. apply (moka_insert_live SHARD_TTL); [apply Hwf|lia..].
    + rewrite (moka_insert_other SHARD_TTL); [done|apply Hwf|done|lia].
  - unfold rpc_dht_get, mbind, M_bind, get_state. destruct (moka_get n fp _); [done|].
    destruct recurse; [|done]. pose proof (dht_get_shard n g net fp c) as H.
    destruct (dht_get n g net fp c). cbn in *. congruence.
  - pose proof (dht_get_shard n g net fp c) as H. destruct (dht_get n g net fp c). cbn in *. congruence.
  - unfold alloc_forward, mbind, M_bind, lift. by destruct (verify _ _ _).
Qed.

Lemma keeps_locator_steps l now t ops c :
  rpc_wf c → (t < now + SHARD_TTL)%N → Forall (keeps_locator l now t) ops →
  moka_get t (fingerprint (hl_identity_pk l)) (local_dht_shard c) = Some l →
  moka_get t (fingerprint (hl_identity_pk l))
    (local_dht_shard (for_each (λ op c, (rpc_apply op c).2) ops c)) = Some l.
Proof.
  intros Hwf Ht Hops. revert c Hwf. induction Hops as [|op ops Hop _ IH]; intros c Hwf Hl; [done|].
  cbn. apply IH; [by apply rpc_apply_ok|]. by apply (keeps_locator_step _ now).
Qed.

(** After a publication, a lookup that reaches a replica. *)
Lemma publish_then_lookup g1 g2 isk opk rp now t net c :
  let l := HavenLocator_new isk opk rp in
  let key := fingerprint (public isk) in
  let keystr := bytes_of (Fingerprint_to_string key) in
  let asked := take DHT_REDUNDANCY (dht_key_to_fps g2 keystr) in
  (now <= t)%N → (t < now + 600)%N →
  (∀ fp, relay_of g1 fp ↔ relay_of g2 fp) → no_collision g1 keystr →
  moka_get t key (dht_cache c) = None →
  dht_insert g1 l = (λ fp, (fp, l)) <$> asked ∧
  ∀ ops0 ops1 g g' net' before after,
    let replica := (rpc_dht_insert now g l false (rpc_run ops0)).2 in
    let replica' := for_each (λ op c, (rpc_apply op c).2) ops1 replica in
    Forall (keeps_locator l now t) ops1 →
    net asked = before ++ answer_of (rpc_dht_get t g' net' key false replica').1 :: after →
    Forall (inconclusive key) before →
    (dht_get t g2 net key c).1 = Ok (Some l).
Proof.
  intros l key keystr asked H1 H2 Hsame Hinj Hcache. split.
  { unfold dht_insert. change (hl_identity_pk l) with (public isk). fold key. fold keystr.
    by rewrite (replicas_eq g1 g2 keystr Hsame Hinj). }
  intros ops0 ops1 g g' net' before after replica replica' Hops Hnet Hbefore.
  pose proof (rpc_run_wf ops0) as Hwf0.
  destruct (insert_get_local (rpc_run ops0) g isk opk rp now t g' net' Hwf0 H1 H2) as (c1 & Hi & Hg).
  fold l in Hi, Hg. fold key in Hg.
  assert (moka_get t key (local_dht_shard replica') = Some l) as Hkept.
  { unfold replica', replica. rewrite Hi. cbn [snd].
    apply (keeps_locator_steps l now t ops1); [|done..|].
    - pose proof (rpc_apply_ok (RInsert now g l false) _ Hwf0) as [_ Hw].
      change (rpc_wf (rpc_dht_insert now g l false (rpc_run ops0)).2) in Hw. by rewrite Hi in Hw.
    - change (hl_identity_pk l) with (public isk). fold key.
      unfold rpc_dht_get, mbind, M_bind, get_state in Hg.
      destruct (moka_get t key (local_dht_shard c1)); [by injection Hg as ->|done]. }
  assert (answer_of (rpc_dht_get t g' net' key false replica').1 = Some (inr (Some l))) as Ha.
  { unfold rpc_dht_get, mbind, M_bind, get_state. by rewrite Hkept. }
  unfold dht_get, mbind, M_bind, get_state. rewrite Hcache. fold keystr. fold asked.
  rewrite Hnet, Ha. apply gather_inconclusive; [done|]. split; [done|apply verify_locator_new].
Qed.

(** C11 (publishing a haven): a node that knows the same relays as the one that
    inserts a haven's locator, none of which collide under the hash, asks
    exactly the relays the insertion went to.  If it has nothing cached and
    looks the haven up in the next ten minutes, and one of those relays, which
    got the insertion after any calls and served any others since (no other
    locator of that key among them), is the first to answer with a locator
    under the key, the lookup returns exactly the locator that was inserted:
    whatever failures, errors, absences and wrong keys came before, and
    whatever comes after, from malicious replicas too. *)
Theorem dht_publish_lookup g1 g2 isk opk rp now t net c :
  let l := HavenLocator_new isk opk rp in
  let key := fingerprint (public isk) in
  let keystr := bytes_of (Fingerprint_to_string key) in
  let asked := take DHT_REDUNDANCY (dht_key_to_fps g2 keystr) in
  (now <= t)%N → (t < now + 600)%N →
  (∀ fp, relay_of g1 fp ↔ relay_of g2 fp) → no_collision g1 keystr →
  moka_get t key (dht_cache c) = None →
  dht_insert g1 l = (λ fp, (fp, l)) <$> asked ∧
  ∀ ops0 ops1 g g' net' before after,
    let replica := (rpc_dht_insert now g l false (rpc_run ops0)).2 in
    let replica' := for_each (λ op c, (rpc_apply op c).2) ops1 replica in
    Forall (keeps_locator l now t) ops1 →
    net asked = before ++ answer_of (rpc_dht_get t g' net' key false replica').1 :: after →
    Forall (inconclusive key) before →
    (dht_get t g2 net key c).1 = Ok (Some l).
Proof. apply publish_then_lookup. Qed.

End Dht.

(** * Witnesses *)

#[export] Instance wire_HavenLocator : Wire HavenLocator.
Proof.
  refine (wire_iso (A:=array 32 * (array 32 * (array 20 * list byte)))
    (λ l, (hl_identity_pk l, (hl_onion_pk l, (rendezvous_point l, hl_signature l))))
    (λ p, mkHavenLocator p.1 p.2.1 p.2.2.1 p.2.2.2) _). by intros [].
Defined.

#[export] Instance wire_RegisterHavenReq : Wire RegisterHavenReq.
Proof.
  refine (wire_iso (A:=array 32 * (list byte * N))
    (λ l, (rh_identity_pk l, (rh_sig l, rh_timestamp l)))
    (λ p, mkRegisterHavenReq p.1 p.2.1 p.2.2) _). by intros [].
Defined.

Definition good_locator : HavenLocator :=
  HavenLocator_new (P:=toy) (node_isk x05) (zeros 32) (sample_fp x09).
Definition bad_locator : HavenLocator :=
  mkHavenLocator (public (P:=toy) (node_isk x05)) (zeros 32) (sample_fp x0a) (zeros 64).

Lemma dht_lookup_authentic_witness :
  (let o := (dht_get (P:=toy) 5 graph_new (λ _, [None; Some (inr (Some good_locator))]) (node_fp x05)
      (rpc_run [RInsert 1 graph_new bad_locator false])).1 in
   o ≠ Panic ∧ (∀ l, o = Ok (Some l) →
     fingerprint (P:=toy) (hl_identity_pk l) = node_fp x05 ∧ verify_locator (P:=toy) l = Ok tt) ∧ returns o).
Proof.
  pose proof (dht_lookup_authentic (P:=toy) [RInsert 1 graph_new bad_locator false]
    (RLookup 5 graph_new (λ _, [None; Some (inr (Some good_locator))]) (node_fp x05))) as H.
  cbn [rpc_apply] in H. destruct (dht_get _ _ _ _ _) as [o c']. cbn [fst] in H |- *.
  destruct H as (H1 & H2 & H3). split; [exact H1|]. split; [exact H2|]. apply H3.
  vm_compute. lia.
Defined.

Lemma dht_insert_then_get_witness :
  ∃ c', rpc_dht_insert (P:=toy) 10 graph_new good_locator false (rpc_run []) = (Ok [], c') ∧
    rpc_dht_get (P:=toy) 600 graph_new (λ _, []) (node_fp x05) false c' = (Ok (Some good_locator), c').
Proof.
  apply (dht_insert_then_get (P:=toy) [] graph_new (node_isk x05) (zeros 32) (sample_fp x09)
    10 600 graph_new (λ _, [])); [discriminate|reflexivity].
Defined.

Lemma bad_replica_aborts_witness :
  dht_get (P:=toy) 5 graph_new (λ _, [Some (inr (Some bad_locator)); Some (inr (Some good_locator))])
    (node_fp x05) (rpc_run []) =
  (Err DhtVerifyFailed, rpc_run []).
Proof.
  apply (bad_replica_aborts (P:=toy) 5 graph_new _ (node_fp x05) bad_locator
    [Some (inr (Some good_locator))] (rpc_run [])).
  - vm_compute. reflexivity.
  - reflexivity.
  - reflexivity.
  - vm_compute. discriminate.
Defined.

(** Two graphs with the same relays, inserted in different orders. *)
Definition relays_12 : RelayGraph :=
  (run_ops (graph_apply false) [OpIdentity (node_identity x01 1000); OpIdentity (node_identity x02 1000)]
    graph_new).2.
Definition relays_21 : RelayGraph :=
  (run_ops (graph_apply false) [OpIdentity (node_identity x02 1001); OpIdentity (node_identity x01 1001)]
    graph_new).2.

Definition sample_key : list byte := [x61; x62].
Definition sample_replicas : list Fingerprint := dht_key_to_fps (P:=toy) relays_12 sample_key.

Lemma sample_replicas_list :
  length sample_replicas = 2 ∧ dht_key_to_fps (P:=toy) relays_21 sample_key = sample_replicas ∧
  replica_key (P:=toy) sample_key (nth 0 sample_replicas (zeros 20)) ≠
  replica_key (P:=toy) sample_key (nth 1 sample_replicas (zeros 20)).
Proof. vm_compute. split_and!; [reflexivity..|discriminate]. Qed.

Lemma two_distinct {A K} (key : A → K) (l : list A) d :
  length l = 2 → key (nth 0 l d) ≠ key (nth 1 l d) →
  ∀ a b, a ∈ l → b ∈ l → key a = key b → a = b.
Proof.
  destruct l as [|x [|y [|]]]; try done. cbn. intros _ Hne a b.
  rewrite !elem_of_cons, !elem_of_nil. intros [->|[->|[]]] [->|[->|[]]] E; congruence.
Qed.

Lemma replicas_agree_witness :
  NoDup (dht_key_to_fps (P:=toy) relays_12 sample_key) ∧
  dht_key_to_fps (P:=toy) relays_12 sample_key = dht_key_to_fps (P:=toy) relays_21 sample_key.
Proof.
  destruct sample_replicas_list as (Hlen & Heq & Hne).
  destruct (replicas_agree (P:=toy) relays_12 relays_21 sample_key) as (Hin & Hnd & _ & Hagree).
  destruct (replicas_agree (P:=toy) relays_21 relays_12 sample_key) as (Hin' & _).
  split; [exact Hnd|]. apply Hagree.
  - intros fp. rewrite <-Hin, <-Hin', Heq. reflexivity.
  - exact (two_distinct (replica_key (P:=toy) sample_key) sample_replicas (zeros 20) Hlen Hne).
Defined.

Definition haven_keystr : list byte := bytes_of (Fingerprint_to_string (P:=toy) (node_fp x05)).
Definition haven_replicas : list Fingerprint := dht_key_to_fps (P:=toy) relays_12 haven_keystr.
Lemma haven_replicas_list :
  length haven_replicas = 2 ∧ dht_key_to_fps (P:=toy) relays_21 haven_keystr = haven_replicas ∧
  replica_key (P:=toy) haven_keystr (nth 0 haven_replicas (zeros 20)) ≠
  replica_key (P:=toy) haven_keystr (nth 1 haven_replicas (zeros 20)).
Proof. vm_compute. split_and!; [reflexivity..|discriminate]. Qed.

Lemma same_relays fp : relay_of relays_12 fp ↔ relay_of relays_21 fp.
Proof.
  destruct haven_replicas_list as (_ & Heq & _).
  rewrite <-!(elem_of_replicas (P:=toy) _ haven_keystr), Heq. reflexivity.
Qed.

(** A replica that had served a lookup before the insertion and takes a
    registration and a forged locator after it, and the answers: a failed call,
    the replica's, and the forged locator too late. *)
Definition replica_before : list rpc_op := [RGet 5 graph_new (λ _, []) (node_fp x05) false].
Definition replica_after : list rpc_op :=
  [RInsert 20 graph_new bad_locator false; RRegister 30 (RegisterHavenReq_new (P:=toy) 30 (node_isk x06))].
Definition replica_state : RpcContext :=
  for_each (λ op c, (rpc_apply op c).2) replica_after
    (rpc_dht_insert (P:=toy) 10 graph_new good_locator false (rpc_run replica_before)).2.
Definition lookup_answers : replica_net :=
  λ _, [None; answer_of (rpc_dht_get (P:=toy) 600 graph_new (λ _, []) (node_fp x05) false replica_state).1;
        Some (inr (Some bad_locator))].

Lemma bad_locator_bad : is_ok (verify_locator (P:=toy) bad_locator) = false.
Proof. vm_compute. reflexivity. Qed.

Lemma replica_after_kept : Forall (keeps_locator (P:=toy) good_locator 10 600) replica_after.
Proof.
  constructor; [|constructor; [exact I|constructor]]. split; [lia|]. intros [_ Hv].
  pose proof bad_locator_bad as H. rewrite Hv in H. discriminate.
Qed.

Lemma dht_publish_lookup_witness :
  (dht_get (P:=toy) 600 relays_21 lookup_answers (node_fp x05) (rpc_run [])).1 = Ok (Some good_locator).
Proof.
  destruct haven_replicas_list as (Hlen & _ & Hne).
  destruct (dht_publish_lookup (P:=toy) relays_12 relays_21 (node_isk x05) (zeros 32) (sample_fp x09)
    10 600 lookup_answers (rpc_run [])) as [_ H].
  - discriminate.
  - reflexivity.
  - exact same_relays.
  - exact (two_distinct (replica_key (P:=toy) haven_keystr) haven_replicas (zeros 20) Hlen Hne).
  - reflexivity.
  - apply (H replica_before replica_after graph_new graph_new (λ _, []) [None]
      [Some (inr (Some bad_locator))]).
    + exact replica_after_kept.
    + reflexivity.
    + constructor; [discriminate|constructor].
Defined.
