(* ===== verification/Rendezvous.v ===== *)
(** Rendezvous forwarding: [rendezvous_forward_loop] of [src/daemon.rs], with
    [REGISTERED_HAVENS] of [src/global_rpc/server.rs].

    A relay passes messages between clients and the havens registered with it:
    to a registered haven from anyone, and back along pairs it has seen. *)

From S2P Require Import Prelude Interfaces Crypto Packet OnionRouting Topology ShortestPath.
From S2P Require Import ReplyStore NeighTable Daemon Directory Dht Instances.

Definition SEEN_CAPACITY : N := 100000.
Definition SEEN_IDLE : N := 3600.

Section Rendezvous.
  Context {P : Primitives} {IM : IndexMap} {HI : HashIter} {MK : Moka}.
  Context {SR : Stdcode RegisterHavenReq}.
  Context {SF : Stdcode (list byte * Endpoint)}.

(** [seen_srcs] is local to a run of the loop; the registrations are shared. *)
Record ForwardState := mkForwardState {
  seen_srcs : moka (Endpoint * Endpoint) ();
  havens : moka Fingerprint ()
}.

Definition seen_new : moka (Endpoint * Endpoint) () :=
  moka_new (Some SEEN_CAPACITY) (Some SEEN_IDLE).

(** The decision about one message: the state after it and what is sent on.  The
    idle time of a pair starts again only when it is inserted: [contains_key] is
    not a read of the cache. *)
Definition forward (now : N) (src_ep dest_ep : Endpoint) (inner : list byte) (st : ForwardState)
    : option (list byte * Endpoint) * ForwardState :=
  let is_valid_dest := moka_contains now (ep_fingerprint dest_ep) (havens st) in
  let is_seen_src := moka_contains now (dest_ep, src_ep) (seen_srcs st) in
  let st' := if is_valid_dest
             then mkForwardState (moka_insert now (src_ep, dest_ep) () (seen_srcs st)) (havens st)
             else st in
  if is_valid_dest || is_seen_src then (Some (stdcode (inner, src_ep), dest_ep), st')
  else (None, st').

(** One iteration of the loop on a received message; a message that does not
    decode ends the loop, which is respawned with an empty [seen_srcs]. *)
Definition forward_step (now : N) (msg : list byte) (src_ep : Endpoint) (st : ForwardState)
    : option (list byte * Endpoint) * ForwardState :=
  match stdcode_deserialize msg with
  | None => (None, mkForwardState seen_new (havens st))
  | Some (inner, dest_ep) => forward now src_ep dest_ep inner st
  end.

(** [alloc_forward] as the loop sees it. *)
Definition register (now : N) (r : RegisterHavenReq) (st : ForwardState) : ForwardState :=
  match verify (rh_identity_pk r) (registration_to_sign r) (rh_sig r) with
  | Ok _ => mkForwardState (seen_srcs st)
              (moka_insert now (fingerprint (rh_identity_pk r)) () (havens st))
  | _ => st
  end.

(** * Properties *)

Context {MKL : MokaLaws MK} {SFL : StdcodeLaws (list byte * Endpoint)}.

Inductive fwd_event :=
  | FMessage (now : N) (msg : list byte) (src : Endpoint)
  | FRegister (now : N) (r : RegisterHavenReq).

(** A history: the pairs (source, destination) passed on to a registered haven,
    and the fingerprints registered with a valid signature. *)
Record history := mkHistory {
  contacted : list (Endpoint * Endpoint);
  registered : list Fingerprint
}.

(** Runs an event, with the message passed on, and extends the history. *)
Definition fwd_apply (ev : fwd_event) (s : ForwardState * history)
    : option (Endpoint * Endpoint) * (ForwardState * history) :=
  let '(st, h) := s in
  match ev with
  | FMessage now msg src =>
      let '(out, st') := forward_step now msg src st in
      match out, stdcode_deserialize (A:=list byte * Endpoint) msg with
      | Some _, Some (_, dest) =>
          (Some (src, dest),
           (st', if moka_contains now (ep_fingerprint dest) (havens st)
                 then mkHistory ((src, dest) :: contacted h) (registered h) else h))
      | _, _ => (None, (st', h))
      end
  | FRegister now r =>
      (None, (register now r st,
              if is_ok (verify (rh_identity_pk r) (registration_to_sign r) (rh_sig r))
              then mkHistory (contacted h) (fingerprint (rh_identity_pk r) :: registered h) else h))
  end.

Definition fwd_start : ForwardState * history :=
  (mkForwardState seen_new (moka_new None (Some HAVEN_TTL)), mkHistory [] []).

Definition fwd_run (evs : list fwd_event) : ForwardState * history :=
  for_each (λ ev s, (fwd_apply ev s).2) evs fwd_start.

(** What is in the caches happened. *)
Record fwd_wf (s : ForwardState * history) : Prop := {
  fwd_seen p : moka_holds p () (seen_srcs s.1) → p ∈ contacted s.2;
  fwd_havens fp : moka_holds fp () (havens s.1) → fp ∈ registered s.2;
  fwd_contacted p : p ∈ contacted s.2 → ep_fingerprint p.2 ∈ registered s.2
}.

Lemma moka_contains_holds {K} `{Countable K} now (k : K) (c : moka K ()) :
  moka_contains now k c = true → moka_holds k () c.
Proof.
  unfold moka_contains. intros [[] Hg]%bool_decide_eq_true. by apply moka_get_holds in Hg.
Qed.

Lemma fwd_start_wf : fwd_wf fwd_start.
Proof.
  split; cbn; [intros p H; by apply moka_new_holds in H..|]. intros p. set_solver.
Qed.

Lemma forward_spec now src dest inner st :
  forward now src dest inner st =
  (if moka_contains now (ep_fingerprint dest) (havens st) ||
      moka_contains now (dest, src) (seen_srcs st)
   then Some (stdcode (inner, src), dest) else None,
   if moka_contains now (ep_fingerprint dest) (havens st)
   then mkForwardState (moka_insert now (src, dest) () (seen_srcs st)) (havens st) else st).
Proof. unfold forward. by destruct (_ || _). Qed.

Lemma fwd_apply_wf ev s : fwd_wf s → fwd_wf (fwd_apply ev s).2.
Proof.
  destruct s as [st h]. intros [Hs Hh Hc]. cbn in Hs, Hh, Hc.
  destruct ev as [now msg src|now r]; cbn [fwd_apply].
  - unfold forward_step. destruct (stdcode_deserialize msg) as [[inner dest]|].
    2: { split; cbn; [|done..]. intros p H. by apply moka_new_holds in H. }
    rewrite forward_spec. destruct (moka_contains now (ep_fingerprint dest) (havens st)) eqn:Hv.
    + cbn. split; cbn; [|done|].
      * intros p Hp%moka_insert_holds. case_decide; subst; set_solver.
      * apply moka_contains_holds in Hv. intros p [->|Hp]%elem_of_cons; auto.
    + cbn. destruct (moka_contains now (dest, src) (seen_srcs st)); by split.
  - unfold register. destruct (verify _ _ _) as [[]| | |]; cbn; [|by split..].
    split; cbn; [done| |intros p Hp; set_solver].
    intros fp Hp%moka_insert_holds. case_decide; subst; set_solver.
Qed.

Lemma fwd_run_wf evs : fwd_wf (fwd_run evs).
Proof.
  unfold fwd_run. generalize fwd_start_wf. generalize fwd_start.
  induction evs as [|ev evs IH]; intros s Hs; [done|]. cbn. by apply IH, fwd_apply_wf.
Qed.

(** C14 (what a rendezvous relay passes on): at any time, a message goes from [src]
    to [dest] only if the owner of [dest]'s key registered with this relay, or
    the owner of [src]'s key did and an earlier message from [dest] to [src]
    was passed on: the relay never connects two parties neither of which
    registered. *)
Theorem forward_authorized evs ev src dest :
  (fwd_apply ev (fwd_run evs)).1 = Some (src, dest) →
  ep_fingerprint dest ∈ registered (fwd_run evs).2 ∨
  (ep_fingerprint src ∈ registered (fwd_run evs).2 ∧ (dest, src) ∈ contacted (fwd_run evs).2).
Proof.
  pose proof (fwd_run_wf evs) as [Hs Hh Hc]. destruct (fwd_run evs) as [st h].
  cbn [fst snd] in *. destruct ev as [now msg src'|now r]; cbn [fwd_apply]; [|done].
  unfold forward_step. destruct (stdcode_deserialize msg) as [[inner dest']|]; [|done].
  rewrite forward_spec. destruct (moka_contains now (ep_fingerprint dest') (havens st)) eqn:Hv; cbn.
  - intros [= <- <-]. left. apply Hh. by eapply moka_contains_holds.
  - destruct (moka_contains now (dest', src') (seen_srcs st)) eqn:Hseen; cbn; [|done].
    intros [= <- <-]. right. apply moka_contains_holds, Hs in Hseen.
    split; [|done]. by apply (Hc _ Hseen).
Qed.

(** One malformed message ends every conversation: if a registered haven could
    answer a client that is not itself a haven, then after a message from
    anyone that does not decode, the haven's answer is no longer passed on. *)
Theorem malformed_message_resets evs now t garbage anyone client haven inner :
  stdcode_deserialize (A:=list byte * Endpoint) garbage = None →
  let s := fwd_run evs in
  moka_contains t (ep_fingerprint client) (havens s.1) = false →
  let s' := (fwd_apply (FMessage now garbage anyone) s).2 in
  (fwd_apply (FMessage t (stdcode (inner, client)) haven) s').1 = None.
Proof.
  intros Hg s Hclient. destruct s as [st h]. cbn [fwd_apply fst snd] in *.
  assert (forward_step now garbage anyone st = (None, mkForwardState seen_new (havens st))) as ->
    by (unfold forward_step; by rewrite Hg).
  cbn [fst snd fwd_apply]. unfold forward_step. rewrite stdcode_roundtrip, forward_spec. cbn [havens seen_srcs].
  rewrite Hclient. cbn [orb].
  destruct (moka_contains t (client, haven) seen_new) eqn:Hs; [|done].
  apply moka_contains_holds in Hs. by apply moka_new_holds in Hs.
Qed.

(** Without such a message, a haven's answer within the idle time is passed on to
    the client that contacted it, wrapped with the haven's endpoint. *)
Theorem haven_can_answer now client haven st q a :
  moka_contains now (ep_fingerprint haven) (havens st) = true →
  moka_contains now (client, haven) (moka_insert now (client, haven) () (seen_srcs st)) = true →
  let st1 := (forward_step now (stdcode (q, haven)) client st).2 in
  (forward_step now (stdcode (q, haven)) client st).1 = Some (stdcode (q, client), haven) ∧
  (forward_step now (stdcode (a, client)) haven st1).1 = Some (stdcode (a, haven), client).
Proof.
  intros Hh Hs. unfold forward_step. rewrite stdcode_roundtrip, forward_spec, Hh. cbn.
  rewrite stdcode_roundtrip, forward_spec. cbn [havens seen_srcs]. rewrite Hs, orb_true_r. done.
Qed.

End Rendezvous.

(** * Witnesses *)

#[export] Instance wire_Endpoint : Wire Endpoint.
Proof.
  refine (wire_iso (A:=array 20 * N) (λ e, (ep_fingerprint e, ep_dock e))
    (λ p, Endpoint_new p.1 p.2) _). by intros [].
Defined.

Definition haven_ep : Endpoint := Endpoint_new (node_fp x05) 100002%N.
Definition client_ep : Endpoint := Endpoint_new (sample_fp x0c) 7%N.

Definition fwd_events : list fwd_event :=
  [FRegister 10 (RegisterHavenReq_new (P:=toy) 10 (node_isk x05));
   FMessage 11 (stdcode ([x68], haven_ep)) client_ep].
Definition fwd_answer : fwd_event := FMessage 12 (stdcode ([x69], client_ep)) haven_ep.

Lemma fwd_answer_passed :
  (fwd_apply (P:=toy) fwd_answer (fwd_run fwd_events)).1 = Some (haven_ep, client_ep).
Proof. apply (bool_decide_unpack _). vm_compute. exact I. Qed.

Lemma forward_authorized_witness :
  ep_fingerprint client_ep ∈ registered (fwd_run (P:=toy) fwd_events).2 ∨
  (ep_fingerprint haven_ep ∈ registered (fwd_run (P:=toy) fwd_events).2 ∧
   (client_ep, haven_ep) ∈ contacted (fwd_run (P:=toy) fwd_events).2).
Proof.
  exact (forward_authorized (P:=toy) fwd_events fwd_answer haven_ep client_ep fwd_answer_passed).
Defined.

Lemma malformed_message_resets_witness :
  (fwd_apply (P:=toy) fwd_answer
    (fwd_apply (P:=toy) (FMessage 11 [] client_ep) (fwd_run fwd_events)).2).1 = None.
Proof.
  apply (malformed_message_resets (P:=toy) fwd_events 11 12 [] client_ep client_ep haven_ep [x69]).
  - reflexivity.
  - vm_compute. reflexivity.
Defined.

Definition fwd_state : ForwardState :=
  (fwd_run (P:=toy) [FRegister 10 (RegisterHavenReq_new (P:=toy) 10 (node_isk x05))]).1.

Lemma haven_can_answer_witness :
  let st1 := (forward_step 11 (stdcode ([x68], haven_ep)) client_ep fwd_state).2 in
  (forward_step 11 (stdcode ([x68], haven_ep)) client_ep fwd_state).1 =
    Some (stdcode ([x68], client_ep), haven_ep) ∧
  (forward_step 11 (stdcode ([x69], client_ep)) haven_ep st1).1 =
    Some (stdcode ([x69], haven_ep), client_ep).
Proof.
  apply (haven_can_answer 11 client_ep haven_ep fwd_state [x68] [x69]);
    vm_compute; reflexivity.
Defined.
