(* ===== verification/CryptSession.v ===== *)
(** The end-to-end sessions of havens: [src/socket/crypt_session.rs].

    A session is a task that runs a handshake through the rendezvous relay and
    then seals what the socket sends and opens what it receives.  The task is a
    state machine over its phases; what the closure captures (the daemon's
    context, the N2R socket, the queue of decrypted messages) is [Env]. *)

From Stdlib Require Import String.
From Stdlib Require Import Sorting.Sorted.
From S2P Require Import Prelude Interfaces Crypto Packet OnionRouting Topology ShortestPath.
From S2P Require Import ReplyStore NeighTable Directory Daemon Socket Dht Rendezvous Instances.
Close Scope string_scope.

Definition HAVEN_FORWARD_DOCK : Dock := 100002%N.

Record Handshake := mkHandshake {
  hs_id_pk : IdentityPublic;
  hs_eph_pk : OnionPublic;
  hs_sig : list byte
}.

Inductive HavenMsg :=
  | ClientHs (hs : Handshake)
  | ServerHs (hs : Handshake)
  | Regular (nonce : N) (inner : list byte).

(** The errors that end a session. *)
Inductive SessionError :=
  | BadHandshake (e : VerifyError)
  | SpoofedFingerprint
  | DhtFailed (e : DhtError)
  | NoLocator
  | BadMessage (e : AeadError).

Definition HANDSHAKE_KEY : array 32 := key32 "haven_handshake_________________" eq_refl.

(** [pad_nonce]: the number in little-endian order, then four zeros. *)
Program Definition pad_nonce (input : N) : array 12 :=
  mk_array (le_bytes 8 input ++ replicate 4 x00) _.
Next Obligation. intros. by rewrite length_app, length_le_bytes, length_replicate. Qed.

Section CryptSession.
  Context {P : Primitives} {IM : IndexMap} {HI : HashIter} {C : Chan} {L : Lru} {MK : Moka}.
  Context {RF : ReplayFilter}.
  Context {SA : Stdcode AdjacencyDescriptor} {SI : Stdcode IdentityDescriptor}.
  Context {B : Bincode InnerPacket} {SL : Stdcode HavenLocator}.
  Context {SK : Stdcode (list byte * Fingerprint)} {SF : Stdcode (list byte * Endpoint)}.
  Context {SH : Stdcode Handshake} {SM : Stdcode HavenMsg}.

(** * Handshakes *)

Definition hs_to_sign (self : Handshake) : array 32 :=
  let this := mkHandshake (hs_id_pk self) (hs_eph_pk self) [] in
  blake3_keyed_hash HANDSHAKE_KEY (stdcode this).

Definition Handshake_new (id_sk : IdentitySecret) (onion_sk : OnionSecret) : Handshake :=
  let hdsk := mkHandshake (public id_sk) (OnionSecret_public onion_sk) [] in
  mkHandshake (public id_sk) (OnionSecret_public onion_sk) (sign id_sk (hs_to_sign hdsk)).

(** The keys of the two directions; the side without a rendezvous point of its
    own is the client. *)
Definition up_key (shared_sec : array 32) : AeadKey :=
  AeadKey_from_bytes (blake3_keyed_hash (blake3_hash (bytes_of "haven-up")) shared_sec).
Definition down_key (shared_sec : array 32) : AeadKey :=
  AeadKey_from_bytes (blake3_keyed_hash (blake3_hash (bytes_of "haven-dn")) shared_sec).

Definition session_keys (shared_sec : array 32) (rendezvous_fp : option Fingerprint)
    : AeadKey * AeadKey :=
  match rendezvous_fp with
  | None => (up_key shared_sec, down_key shared_sec)
  | Some _ => (down_key shared_sec, up_key shared_sec)
  end.

(** * The task *)

Inductive Phase :=
  | Starting (client_hs : option Handshake)
  | AwaitServerHs (my_osk : OnionSecret)
  | Running (enc_key dec_key : AeadKey) (nonce : N) (rf : rfilter)
  | Ended (e : SessionError).

(** The task with its two unbounded channels, the next message first. *)
Record EncTask := mkEncTask {
  my_isk : IdentitySecret;
  remote : Endpoint;
  rendezvous_fp : option Fingerprint;
  phase : Phase;
  task_incoming : list HavenMsg;
  task_outgoing : list (list byte)
}.

Definition set_phase (p : Phase) (t : EncTask) : EncTask :=
  mkEncTask (my_isk t) (remote t) (rendezvous_fp t) p (task_incoming t) (task_outgoing t).
Definition set_incoming (l : list HavenMsg) (t : EncTask) : EncTask :=
  mkEncTask (my_isk t) (remote t) (rendezvous_fp t) (phase t) l (task_outgoing t).
Definition set_outgoing (l : list (list byte)) (t : EncTask) : EncTask :=
  mkEncTask (my_isk t) (remote t) (rendezvous_fp t) (phase t) (task_incoming t) l.

Record Env := mkEnv {
  env_ctx : DaemonContext;
  env_rpc : RpcContext;
  env_skt : N2rSocket;
  env_decrypted : chan (list byte * Endpoint)
}.

Definition set_env_ctx (c : DaemonContext) (e : Env) : Env :=
  mkEnv c (env_rpc e) (env_skt e) (env_decrypted e).
Definition set_env_rpc (c : RpcContext) (e : Env) : Env :=
  mkEnv (env_ctx e) c (env_skt e) (env_decrypted e).
Definition set_env_skt (s : N2rSocket) (e : Env) : Env :=
  mkEnv (env_ctx e) (env_rpc e) s (env_decrypted e).

(** [send_incoming_decrypted.try_send]: dropped when the queue is full. *)
Definition push_decrypted (m : list byte * Endpoint) (e : Env) : Env :=
  mkEnv (env_ctx e) (env_rpc e) (env_skt e)
    (default (env_decrypted e) (chan_try_send m (env_decrypted e))).

(** [CryptSession::new]: the task it spawns, or the error of a client's
    handshake that does not verify. *)
Definition CryptSession_new (my_isk : IdentitySecret) (remote : Endpoint)
    (rendezvous_fp : option Fingerprint) (client_info : option (Handshake * Fingerprint))
    : outcome SessionError EncTask :=
  _ ← match client_info with
      | Some (hs, fp) =>
          _ ← map_err BadHandshake (verify (hs_id_pk hs) (hs_to_sign hs) (hs_sig hs));
          if decide (fingerprint (hs_id_pk hs) ≠ fp) then Err SpoofedFingerprint else Ok tt
      | None => Ok tt
      end;
  Ok (mkEncTask my_isk remote rendezvous_fp (Starting (fst <$> client_info)) [] []).

(** [CryptSession::send_outgoing] and [send_incoming]: the channels are closed
    once the task has ended, and its error is returned. *)
Definition session_send_outgoing (msg : list byte) (t : EncTask) : outcome SessionError EncTask :=
  match phase t with
  | Ended e => Err e
  | _ => Ok (set_outgoing (task_outgoing t ++ [msg]) t)
  end.

Definition session_send_incoming (msg : HavenMsg) (t : EncTask) : outcome SessionError EncTask :=
  match phase t with
  | Ended e => Err e
  | _ => Ok (set_incoming (task_incoming t ++ [msg]) t)
  end.

Section task.
  (** The answers of the network to a DHT lookup, and whether it finishes within
      its time-out. *)
  Context (net : replica_net) (in_time : bool).

Definition rendezvous_endpoint (t : EncTask) : M Env SessionError Endpoint :=
  match rendezvous_fp t with
  | Some rob => mret (Endpoint_new rob HAVEN_FORWARD_DOCK)
  | None =>
      env ← get_state;
      o ← zoom env_rpc set_env_rpc
            (map_err_m DhtFailed (dht_get_timeout in_time (clock (env_ctx env))
               (relay_graph (env_ctx env)) net (ep_fingerprint (remote t))));
      bob_locator ← lift (ok_or NoLocator o);
      mret (Endpoint_new (rendezvous_point bob_locator) HAVEN_FORWARD_DOCK)
  end.

Definition send_to_rendezvous (t : EncTask) (msg : list byte) : M Env SessionError unit :=
  let fwd_body := stdcode (msg, remote t) in
  rendezvous_ep ← rendezvous_endpoint t;
  modify (λ env, set_env_skt (send_to fwd_body rendezvous_ep (env_skt env)) env).

(** The phase in which both loops run, from their first iteration. *)
Definition start_loops (t : EncTask) (shared_sec : array 32) : Phase :=
  let '(enc_key, dec_key) := session_keys shared_sec (rendezvous_fp t) in
  Running enc_key dec_key 0 rf_default.

Definition enc_start (t : EncTask) (client_hs : option Handshake) : M Env SessionError Phase :=
  my_osk ← zoom env_ctx set_env_ctx (with_rng OnionSecret_generate);
  let my_hs := Handshake_new (my_isk t) my_osk in
  match client_hs with
  | Some hs =>
      _ ← send_to_rendezvous t (stdcode (ServerHs my_hs));
      mret (start_loops t (shared_secret my_osk (hs_eph_pk hs)))
  | None =>
      _ ← send_to_rendezvous t (stdcode (ClientHs my_hs));
      mret (AwaitServerHs my_osk)
  end.

(** An iteration of the loop that waits for the server's handshake. *)
Definition await_step (t : EncTask) (my_osk : OnionSecret) (in_msg : HavenMsg) : Phase :=
  match in_msg with
  | ServerHs hs => start_loops t (shared_secret my_osk (hs_eph_pk hs))
  | _ => AwaitServerHs my_osk
  end.

(** Iterations of the up and down loops: the next number, the filter. *)
Definition up_step (t : EncTask) (enc_key : AeadKey) (nonce : N) (msg : list byte)
    : M Env SessionError N :=
  ctext ← lift (seal enc_key (pad_nonce nonce) msg);
  _ ← send_to_rendezvous t (stdcode (Regular nonce ctext));
  mret (u64_succ nonce).

Definition down_step (t : EncTask) (dec_key : AeadKey) (rf : rfilter) (msg : HavenMsg)
    : M Env SessionError rfilter :=
  match msg with
  | Regular nonce inner =>
      let '(fresh, rf) := rf_add nonce rf in
      if fresh then
        plain ← lift (map_err BadMessage (open dec_key (pad_nonce nonce) inner));
        _ ← modify (push_decrypted (plain, remote t));
        mret rf
      else mret rf
  | _ => mret rf
  end.

(** The task moves to the phase [m] computes, or ends with its error. *)
Definition run_phase {E} (t : EncTask) (m : M Env SessionError Phase) : M Env E EncTask := λ env,
  match m env with
  | (Ok p, env') => (Ok (set_phase p t), env')
  | (Err e, env') => (Ok (set_phase (Ended e) t), env')
  | (Panic, env') => (Panic, env')
  | (OutOfFuel, env') => (OutOfFuel, env')
  end.

Inductive side := Up | Down.

(** One step of [enc_task]; while both loops run, the scheduler picks the
    side.  A task that has to wait does nothing. *)
Definition task_step {E} (s : side) (t : EncTask) : M Env E EncTask :=
  match phase t with
  | Starting client_hs => run_phase t (enc_start t client_hs)
  | AwaitServerHs my_osk =>
      match task_incoming t with
      | [] => mret t
      | in_msg :: rest => mret (set_phase (await_step t my_osk in_msg) (set_incoming rest t))
      end
  | Running enc_key dec_key nonce rf =>
      match s with
      | Up =>
          match task_outgoing t with
          | [] => mret t
          | msg :: rest =>
              run_phase (set_outgoing rest t)
                (nonce' ← up_step t enc_key nonce msg; mret (Running enc_key dec_key nonce' rf))
          end
      | Down =>
          match task_incoming t with
          | [] => mret t
          | msg :: rest =>
              run_phase (set_incoming rest t)
                (rf' ← down_step t dec_key rf msg; mret (Running enc_key dec_key nonce rf'))
          end
      end
  | Ended _ => mret t
  end.

End task.

(** * Properties *)

Context {PL : PrimitivesLaws P} {MKL : MokaLaws MK} {CL : ChanLaws C} {RFL : ReplayFilterLaws RF}.

(** Several steps of a task, with the sides the scheduler picks. *)
Fixpoint task_steps {E} (net : replica_net) (in_time : bool) (ss : list side) (t : EncTask)
    : M Env E EncTask :=
  match ss with
  | [] => mret t
  | s :: ss => t ← task_step net in_time s t; task_steps net in_time ss t
  end.

(** ** Nonces *)

Lemma pad_nonce_inj a b :
  (a < u64_modulus)%N → (b < u64_modulus)%N → pad_nonce a = pad_nonce b → a = b.
Proof.
  intros Ha Hb H. apply (f_equal array_bytes) in H. cbn [pad_nonce array_bytes] in H.
  apply app_inj_1 in H as [H _]; [|by rewrite !length_le_bytes].
  rewrite <-(from_le_le_bytes 8 a), <-(from_le_le_bytes 8 b) by done. by rewrite H.
Qed.

(** ** Sealing *)

Definition sealable (m : list byte) : Prop := (N.of_nat (length m) <= aead_max_plaintext)%N.

(** The messages that the up loop sends for [msgs], numbered from [n]. *)
Fixpoint wire (k : AeadKey) (n : N) (msgs : list (list byte)) : list HavenMsg :=
  match msgs with
  | [] => []
  | m :: msgs =>
      Regular n (default [] (aead_encrypt (aead_inner k) (pad_nonce n) m)) :: wire k (n + 1) msgs
  end.

Lemma wire_lookup k n msgs (i : nat) :
  wire k n msgs !! i =
  (λ m, Regular (n + N.of_nat i) (default [] (aead_encrypt (aead_inner k)
          (pad_nonce (n + N.of_nat i)) m))) <$> msgs !! i.
Proof.
  revert n i. induction msgs as [|m msgs IH]; intros n [|i]; [done..| |].
  - cbn. by rewrite N.add_0_r.
  - cbn [wire lookup list_lookup]. rewrite IH.
    by replace (n + 1 + N.of_nat i)%N with (n + N.of_nat (S i))%N by lia.
Qed.

(** The rendezvous endpoint that a task's messages go to: the relay of the
    haven itself, or the one named by the locator the client has cached. *)
Definition reaches (in_time : bool) (t : EncTask) (env : Env) (ep : Endpoint) : Prop :=
  match rendezvous_fp t with
  | Some rob => ep = Endpoint_new rob HAVEN_FORWARD_DOCK
  | None => in_time = true ∧ ∃ l,
      moka_get (clock (env_ctx env)) (ep_fingerprint (remote t)) (dht_cache (env_rpc env)) = Some l ∧
      ep = Endpoint_new (rendezvous_point l) HAVEN_FORWARD_DOCK
  end.

(** The environment once [msg] is handed to the N2R socket. *)
Definition sent (t : EncTask) (ep : Endpoint) (msg : HavenMsg) (env : Env) : Env :=
  set_env_skt (send_to (stdcode (stdcode msg, remote t)) ep (env_skt env)) env.

Lemma send_to_rendezvous_ok net in_time t env ep msg :
  reaches in_time t env ep →
  send_to_rendezvous net in_time t (stdcode msg) env = (Ok tt, sent t ep msg env).
Proof.
  unfold reaches, send_to_rendezvous, rendezvous_endpoint.
  destruct (rendezvous_fp t) as [rob|]; [by intros ->|].
  intros (-> & l & Hl & ->). unfold mbind, M_bind, get_state, zoom, map_err_m, dht_get_timeout, dht_get.
  unfold mbind, M_bind, get_state. rewrite Hl. cbn. unfold sent, set_env_skt, set_env_rpc.
  by destruct env.
Qed.

(** One step of the up loop seals the next message under the next number. *)
Lemma task_step_up {E} net in_time t env ep enc dec n rf m rest :
  phase t = Running enc dec n rf → task_outgoing t = m :: rest → sealable m →
  (n + 1 < u64_modulus)%N → reaches in_time t env ep →
  task_step (E:=E) net in_time Up t env =
  (Ok (set_phase (Running enc dec (n + 1) rf) (set_outgoing rest t)),
   sent t ep (Regular n (default [] (aead_encrypt (aead_inner enc) (pad_nonce n) m))) env).
Proof.
  intros Hp Ho Hm Hn Hr. unfold task_step. rewrite Hp, Ho.
  destruct (aead_encrypt_total (aead_inner enc) (pad_nonce n) m Hm) as [c Hc].
  unfold run_phase, up_step, seal, mbind, M_bind, lift. rewrite Hc. cbn [unwrap default from_option].
  rewrite (send_to_rendezvous_ok _ _ _ _ ep) by done. cbn. by rewrite u64_succ_small.
Qed.

Lemma task_steps_up {E} net in_time msgs t env ep enc dec n rf :
  phase t = Running enc dec n rf → task_outgoing t = msgs → Forall sealable msgs →
  (n + N.of_nat (length msgs) < u64_modulus)%N → reaches in_time t env ep →
  task_steps (E:=E) net in_time (replicate (length msgs) Up) t env =
  (Ok (set_phase (Running enc dec (n + N.of_nat (length msgs)) rf) (set_outgoing [] t)),
   foldl (λ env m, sent t ep m env) env (wire enc n msgs)).
Proof.
  revert t env n. induction msgs as [|m msgs IH]; intros t env n Hp Ho Hm Hn Hr.
  { cbn. rewrite N.add_0_r. destruct t; cbn in *; subst. done. }
  cbn [length] in Hn. apply Forall_cons in Hm as [Hm Hms].
  cbn [length replicate task_steps]. unfold mbind, M_bind.
  rewrite (task_step_up _ _ _ _ ep enc dec n rf m msgs) by (done || lia).
  rewrite (IH _ _ (n + 1)%N) by (done || lia).
  cbn [length wire foldl]. by replace (n + 1 + N.of_nat (length msgs))%N
    with (n + N.of_nat (S (length msgs)))%N by lia.
Qed.

(** ** Opening *)

(** The numbers that the filter accepts, in order. *)
Fixpoint accepted (rf : rfilter) (ns : list N) : list N :=
  match ns with
  | [] => []
  | n :: ns =>
      let '(fresh, rf') := rf_add n rf in
      if fresh then n :: accepted rf' ns else accepted rf' ns
  end.

Lemma accepted_cons rf n ns :
  accepted rf (n :: ns) =
  if (rf_add n rf).1 then n :: accepted (rf_add n rf).2 ns else accepted (rf_add n rf).2 ns.
Proof. cbn. by destruct (rf_add n rf). Qed.

Lemma accepted_rejected rf ns n : (rf_add n rf).1 = false → n ∉ accepted rf ns.
Proof.
  revert rf. induction ns as [|m ns IH]; intros rf H; [apply not_elem_of_nil|].
  rewrite accepted_cons. pose proof (rf_rejected_forever n m rf H) as H'.
  destruct (rf_add m rf).1 eqn:Hm; [|by apply IH].
  apply not_elem_of_cons. split; [congruence|by apply IH].
Qed.

Lemma accepted_sublist rf ns : accepted rf ns `sublist_of` ns.
Proof.
  revert rf. induction ns as [|n ns IH]; intros rf; [done|]. rewrite accepted_cons.
  destruct (rf_add n rf).1; [by constructor|by apply sublist_cons].
Qed.

Lemma accepted_NoDup rf ns : NoDup (accepted rf ns).
Proof.
  revert rf. induction ns as [|n ns IH]; intros rf; [constructor|]. rewrite accepted_cons.
  destruct (rf_add n rf).1; [|done]. constructor; [|done].
  apply accepted_rejected, rf_add_twice.
Qed.

(** What arrives in increasing order is all accepted. *)
Lemma accepted_increasing before ns :
  StronglySorted N.lt ns → (∀ m n, m ∈ before → n ∈ ns → (m < n)%N) →
  accepted (rf_add_all before rf_default) ns = ns.
Proof.
  revert before. induction ns as [|n ns IH]; intros before Hs Hb; [done|].
  apply StronglySorted_inv in Hs as [Hs Hn]. rewrite accepted_cons.
  rewrite rf_accepts_newer by (apply Forall_forall; intros m Hm; apply Hb; [done|left]).
  f_equal. specialize (IH (before ++ [n])). unfold rf_add_all in IH. rewrite foldl_app in IH.
  apply IH; [done|]. intros m k [Hm|Hm]%elem_of_app Hk; [apply Hb; [done|by right]|].
  apply list_elem_of_singleton in Hm as ->. by eapply Forall_forall in Hn.
Qed.

(** A step of the down loop on a genuine message of number [i]. *)
Lemma task_step_down {E} net in_time t env enc k n rf (i : nat) m rest :
  phase t = Running enc k n rf →
  task_incoming t = Regular (N.of_nat i) (default [] (aead_encrypt (aead_inner k)
                      (pad_nonce (N.of_nat i)) m)) :: rest →
  sealable m →
  let '(fresh, rf') := rf_add (N.of_nat i) rf in
  task_step (E:=E) net in_time Down t env =
  (Ok (set_phase (Running enc k n rf') (set_incoming rest t)),
   if fresh then push_decrypted (m, remote t) env else env).
Proof.
  intros Hp Hi Hs. unfold task_step. rewrite Hp, Hi.
  destruct (aead_encrypt_total (aead_inner k) (pad_nonce (N.of_nat i)) m Hs) as [c Hc].
  rewrite Hc. cbn [from_option id]. unfold run_phase, down_step, mbind, M_bind, lift.
  destruct (rf_add (N.of_nat i) rf) as [[] rf'] eqn:Hrf; [|done].
  unfold open. by rewrite (aead_decrypt_encrypt _ _ _ _ Hc).
Qed.

Lemma push_decrypted_view m env :
  (N.of_nat (length (chan_view (env_decrypted env))) < chan_cap (env_decrypted env))%N →
  chan_view (env_decrypted (push_decrypted m env)) = chan_view (env_decrypted env) ++ [m] ∧
  chan_cap (env_decrypted (push_decrypted m env)) = chan_cap (env_decrypted env).
Proof.
  intros H. destruct (chan_try_send_ok m _ H) as (c & Hc & ? & ?). cbn. by rewrite Hc.
Qed.

Lemma task_steps_down {E} net in_time k msgs (ds : list nat) t env enc n rf :
  Forall sealable msgs → Forall (λ i, i < length msgs) ds →
  phase t = Running enc k n rf → task_incoming t = omap (λ i, wire k 0 msgs !! i) ds →
  (N.of_nat (length (chan_view (env_decrypted env)) + length ds) <= chan_cap (env_decrypted env))%N →
  ∃ rf' env',
    task_steps (E:=E) net in_time (replicate (length ds) Down) t env =
      (Ok (set_phase (Running enc k n rf') (set_incoming [] t)), env') ∧
    chan_view (env_decrypted env') = chan_view (env_decrypted env) ++
      ((λ i, (default [] (msgs !! N.to_nat i), remote t)) <$> accepted rf (N.of_nat <$> ds)).
Proof.
  intros Hms. revert t env rf. induction ds as [|i ds IH]; intros t env rf Hds Hp Hi Hroom.
  { cbn in *. exists rf, env. rewrite app_nil_r. split; [|done].
    destruct t; cbn in *; by subst. }
  apply Forall_cons in Hds as [Hlt Hds].
  destruct (lookup_lt_is_Some_2 msgs i Hlt) as [m Hm].
  assert (sealable m) as Hsm by (by eapply Forall_lookup_1).
  cbn [omap list_omap] in Hi. rewrite wire_lookup, Hm, N.add_0_l in Hi. cbn [fmap option_fmap option_map] in Hi.
  pose proof (task_step_down (E:=E) net in_time t env enc k n rf i m _ Hp Hi Hsm) as Hstep.
  rewrite fmap_cons, accepted_cons. cbn [length] in Hroom.
  destruct (rf_add (N.of_nat i) rf) as [fresh rf'] eqn:Hrf. cbn [fst snd].
  cbn [length replicate task_steps]. unfold mbind, M_bind. rewrite Hstep.
  destruct fresh.
  - destruct (push_decrypted_view (m, remote t) env) as [Hv Hcap]; [lia|].
    destruct (IH (set_phase (Running enc k n rf') (set_incoming (omap (λ i, wire k 0 msgs !! i) ds) t))
      (push_decrypted (m, remote t) env) rf') as (rf2 & env2 & Hrun & Hview); [done..| |].
    { rewrite Hv, Hcap, length_app. cbn. lia. }
    exists rf2, env2. split; [exact Hrun|]. rewrite Hview, Hv, <-app_assoc. cbn.
    by rewrite Nat2N.id, Hm.
  - destruct (IH (set_phase (Running enc k n rf') (set_incoming (omap (λ i, wire k 0 msgs !! i) ds) t))
      env rf') as (rf2 & env2 & Hrun & Hview); [done..|lia|].
    exists rf2, env2. split; [exact Hrun|]. exact Hview.
Qed.

(** ** Theorems *)

(** C10 (delivery in a session): let the network lose, reorder and repeat as it will
    the messages a peer sealed under the receiver's opening key.  The session
    stays up, and hands to the socket, in order of arrival, the plaintexts of
    the messages whose numbers its filter accepts: each message at most once,
    and all of them when they arrive in order. *)
Theorem session_delivery {E} net in_time k msgs (ds : list nat) t env enc n :
  Forall sealable msgs → Forall (λ i, i < length msgs) ds →
  phase t = Running enc k n rf_default → task_incoming t = omap (λ i, wire k 0 msgs !! i) ds →
  (N.of_nat (length (chan_view (env_decrypted env)) + length ds) <= chan_cap (env_decrypted env))%N →
  ∃ rf' env' acc,
    task_steps (E:=E) net in_time (replicate (length ds) Down) t env =
      (Ok (set_phase (Running enc k n rf') (set_incoming [] t)), env') ∧
    chan_view (env_decrypted env') = chan_view (env_decrypted env) ++
      ((λ i, (default [] (msgs !! N.to_nat i), remote t)) <$> acc) ∧
    NoDup acc ∧ acc `sublist_of` (N.of_nat <$> ds) ∧
    (StronglySorted lt ds → acc = N.of_nat <$> ds).
Proof.
  intros Hms Hds Hp Hi Hroom.
  destruct (task_steps_down (E:=E) net in_time k msgs ds t env enc n rf_default)
    as (rf' & env' & Hrun & Hview); [done..|].
  exists rf', env', (accepted rf_default (N.of_nat <$> ds)).
  split_and!; [done..|apply accepted_NoDup|apply accepted_sublist|].
  intros Hs. apply (accepted_increasing []); [|by intros ? ? ?%elem_of_nil].
  clear -Hs. induction Hs as [|i ds Hs IH Hi]; cbn; constructor; [done|].
  apply Forall_fmap. eapply Forall_impl; [exact Hi|]. cbn. lia.
Qed.

(** C21 (the up loop): a session seals the messages its socket sends in order, hands
    each to the N2R socket addressed to the rendezvous relay, and never uses
    the same nonce twice under its key, for fewer than 2^64 messages. *)
Theorem up_loop_seals {E} net in_time msgs t env ep enc dec rf :
  phase t = Running enc dec 0 rf → task_outgoing t = msgs → Forall sealable msgs →
  (N.of_nat (length msgs) < u64_modulus)%N → reaches in_time t env ep →
  task_steps (E:=E) net in_time (replicate (length msgs) Up) t env =
    (Ok (set_phase (Running enc dec (N.of_nat (length msgs)) rf) (set_outgoing [] t)),
     foldl (λ env m, sent t ep m env) env (wire enc 0 msgs)) ∧
  ∀ i j n m c d, wire enc 0 msgs !! i = Some (Regular n c) →
    wire enc 0 msgs !! j = Some (Regular m d) → pad_nonce n = pad_nonce m → i = j.
Proof.
  intros Hp Ho Hm Hn Hr. split; [by rewrite (task_steps_up _ _ _ _ _ ep enc dec 0 rf)|].
  assert (∀ i n c, wire enc 0 msgs !! i = Some (Regular n c) →
    n = N.of_nat i ∧ i < length msgs) as Hw.
  { intros i n c. rewrite wire_lookup, N.add_0_l. intros (m & Hl & [= -> _])%fmap_Some.
    split; [done|]. by eapply lookup_lt_Some. }
  intros i j n m c d [-> Hi]%Hw [-> Hj]%Hw Hpad. apply pad_nonce_inj in Hpad; lia.
Qed.

(** C39 (the server is not authenticated): a client that waits for the server's
    handshake accepts one from anybody, whatever identity and signature it
    carries, and from then on seals under keys that the author of the
    handshake, who only needs a key pair of its own, computes too. *)
Theorem server_unauthenticated {E} net in_time s t env my_osk attacker any_id any_sig rest :
  phase t = AwaitServerHs my_osk → rendezvous_fp t = None →
  task_incoming t = ServerHs (mkHandshake any_id (OnionSecret_public attacker) any_sig) :: rest →
  task_step (E:=E) net in_time s t env =
    (Ok (set_phase (Running (up_key (shared_secret attacker (OnionSecret_public my_osk)))
                            (down_key (shared_secret attacker (OnionSecret_public my_osk)))
                            0 rf_default) (set_incoming rest t)), env).
Proof.
  intros Hp Hr Hi. unfold task_step. rewrite Hp, Hi. cbn [await_step hs_eph_pk].
  unfold start_loops. rewrite Hr. cbn [session_keys].
  unfold shared_secret, OnionSecret_public. by rewrite (diffie_hellman_comm my_osk attacker).
Qed.

(** Two havens cannot talk: the keys of a direction are chosen by whether a side
    has a rendezvous point, not by its role in the handshake: two sides that
    both have one seal under the same key and open under the other. *)
Theorem havens_cannot_talk ta tb osk_a osk_b hs_a hs_b ra rb :
  rendezvous_fp ta = Some ra → rendezvous_fp tb = Some rb →
  hs_eph_pk hs_a = OnionSecret_public osk_a → hs_eph_pk hs_b = OnionSecret_public osk_b →
  ∃ enc dec,
    await_step ta osk_a (ServerHs hs_b) = Running enc dec 0 rf_default ∧
    start_loops tb (shared_secret osk_b (hs_eph_pk hs_a)) = Running enc dec 0 rf_default.
Proof.
  intros Ha Hb Hha Hhb. cbn [await_step]. unfold start_loops. rewrite Ha, Hb, Hha, Hhb.
  unfold shared_secret, OnionSecret_public. rewrite (diffie_hellman_comm osk_b osk_a). eauto.
Qed.

(** One bad message ends a session: a message with a number not seen yet that
    does not open ends the session, and every later send on it fails. *)
Theorem bad_message_ends_session {E} net in_time t env enc dec n rf num inner rest :
  phase t = Running enc dec n rf → task_incoming t = Regular num inner :: rest →
  (rf_add num rf).1 = true → aead_decrypt (aead_inner dec) (pad_nonce num) inner = None →
  ∃ t', task_step (E:=E) net in_time Down t env = (Ok t', env) ∧
    ∀ msg, session_send_outgoing msg t' = Err (BadMessage DecryptionFailed).
Proof.
  intros Hp Hi Hf Hd. unfold task_step. rewrite Hp, Hi.
  unfold run_phase, down_step, mbind, M_bind, lift.
  destruct (rf_add num rf) as [fresh rf']. cbn in Hf. subst fresh.
  unfold open. rewrite Hd. eexists. split; [done|]. done.
Qed.

Lemma hs_new_verifies isk osk :
  verify (hs_id_pk (Handshake_new isk osk)) (hs_to_sign (Handshake_new isk osk))
    (hs_sig (Handshake_new isk osk)) = Ok tt.
Proof. apply verify_sign. Qed.

(** C29 (the client is authenticated): a session is made for a client's handshake
    exactly when the handshake is signed by the key it names and that key has
    the fingerprint the message came from; the handshake of an honest client
    always passes. *)
Theorem client_authenticated isk ep rv hs fp :
  (is_ok (CryptSession_new isk ep rv (Some (hs, fp))) = true ↔
    verify (hs_id_pk hs) (hs_to_sign hs) (hs_sig hs) = Ok tt ∧ fingerprint (hs_id_pk hs) = fp) ∧
  (∀ client osk, is_ok (CryptSession_new isk ep rv
     (Some (Handshake_new client osk, fingerprint (public client)))) = true).
Proof.
  split.
  - unfold CryptSession_new. destruct (verify _ _ _) as [[]| | |]; cbn; [|naive_solver..].
    case_decide; cbn; naive_solver.
  - intros client osk. unfold CryptSession_new. rewrite hs_new_verifies. cbn.
    by rewrite decide_False by tauto.
Qed.

End CryptSession.

(** * Witnesses *)

#[export] Instance wire_Handshake : Wire Handshake.
Proof.
  refine (wire_iso (A:=array 32 * (array 32 * list byte)) (λ h, (hs_id_pk h, (hs_eph_pk h, hs_sig h)))
    (λ p, mkHandshake p.1 p.2.1 p.2.2) _). by intros [].
Defined.

#[export] Program Instance wire_HavenMsg : Wire HavenMsg := {|
  wput := λ p, match p with
    | ClientHs hs => x00 :: wput hs
    | ServerHs hs => x01 :: wput hs
    | Regular n c => x02 :: wput (n, c)
    end;
  wget := λ l, match l with
    | [] => None
    | b :: l =>
        if decide (b = x00) then '(h, l) ← wget l; Some (ClientHs h, l)
        else if decide (b = x01) then '(h, l) ← wget l; Some (ServerHs h, l)
        else '(p, l) ← wget l; Some (Regular p.1 p.2, l)
    end
|}.
Next Obligation. intros [hs|hs|n c] rest; cbn -[wget wput]; by rewrite wget_wput. Qed.

Definition ses_secret : array 32 := shared_secret (P:=toy) 11%N (OnionSecret_public (P:=toy) 12%N).
Definition ses_client : Endpoint := Endpoint_new (node_fp x0c) 7%N.
Definition ses_server : Endpoint := Endpoint_new (node_fp x05) 80%N.
Definition ses_msgs : list (list byte) := [[x68]; [x69; x6a]; []].

Definition ses_env : Env (P:=toy) :=
  mkEnv sock_ctx rpc_new (mkN2rSocket (node_fp x05) 80%N 0%N [] (chan_bounded SEND_CAPACITY))
    (chan_bounded 1000).

(** The server's session: messages 2, 0, 2 and 1 of the client arrive. *)
Definition ses_arrivals : list nat := [2; 0; 2; 1].
Definition ses_task : EncTask (P:=toy) :=
  mkEncTask (node_isk x05) ses_client (Some (sample_fp x09))
    (Running (down_key (P:=toy) ses_secret) (up_key (P:=toy) ses_secret) 0 rf_default)
    (omap (λ i, wire (P:=toy) (up_key (P:=toy) ses_secret) 0 ses_msgs !! i) ses_arrivals)
    ses_msgs.

Lemma ses_sealable : Forall sealable ses_msgs.
Proof. repeat (apply Forall_cons; split; [by vm_compute|]). apply Forall_nil_2. Qed.

Lemma session_delivery_witness :
  ∃ rf' env' acc,
    task_steps (P:=toy) (E:=Empty_set) (λ _, []) true (replicate 4 Down) ses_task ses_env =
      (Ok (set_phase (Running (down_key (P:=toy) ses_secret) (up_key (P:=toy) ses_secret) 0 rf')
             (set_incoming [] ses_task)), env') ∧
    chan_view (env_decrypted env') = chan_view (env_decrypted ses_env) ++
      ((λ i, (default [] (ses_msgs !! N.to_nat i), ses_client)) <$> acc) ∧
    NoDup acc ∧ acc `sublist_of` (N.of_nat <$> ses_arrivals) ∧
    (StronglySorted lt ses_arrivals → acc = N.of_nat <$> ses_arrivals).
Proof.
  apply (session_delivery (P:=toy) (E:=Empty_set) (λ _, []) true (up_key (P:=toy) ses_secret)
    ses_msgs ses_arrivals ses_task ses_env (down_key (P:=toy) ses_secret) 0).
  - exact ses_sealable.
  - repeat (apply Forall_cons; split; [apply Nat.ltb_lt; reflexivity|]). apply Forall_nil_2.
  - reflexivity.
  - reflexivity.
  - discriminate.
Defined.

Lemma up_loop_seals_witness :
  task_steps (P:=toy) (E:=Empty_set) (λ _, []) true (replicate 3 Up) ses_task ses_env =
    (Ok (set_phase (Running (down_key (P:=toy) ses_secret) (up_key (P:=toy) ses_secret) 3 rf_default)
           (set_outgoing [] ses_task)),
     foldl (λ env m, sent ses_task (Endpoint_new (sample_fp x09) HAVEN_FORWARD_DOCK) m env) ses_env
       (wire (P:=toy) (down_key (P:=toy) ses_secret) 0 ses_msgs)).
Proof.
  apply (up_loop_seals (P:=toy) (E:=Empty_set) (λ _, []) true ses_msgs ses_task ses_env
    (Endpoint_new (sample_fp x09) HAVEN_FORWARD_DOCK)
    (down_key (P:=toy) ses_secret) (up_key (P:=toy) ses_secret) rf_default).
  - reflexivity.
  - reflexivity.
  - exact ses_sealable.
  - reflexivity.
  - reflexivity.
Defined.

(** A client that waits for the server's handshake. *)
Definition ses_waiting (hs : Handshake) : EncTask (P:=toy) :=
  mkEncTask (node_isk x0c) ses_server None (AwaitServerHs (P:=toy) 11%N) [ServerHs hs] [].

Lemma server_unauthenticated_witness :
  let hs := mkHandshake (zeros 32) (OnionSecret_public (P:=toy) 99%N) [] in
  let ss := shared_secret (P:=toy) 99%N (OnionSecret_public (P:=toy) 11%N) in
  task_step (P:=toy) (E:=Empty_set) (λ _, []) true Up (ses_waiting hs) ses_env =
    (Ok (set_phase (Running (up_key (P:=toy) ss) (down_key (P:=toy) ss) 0 rf_default)
           (set_incoming [] (ses_waiting hs))), ses_env).
Proof.
  intros hs ss. apply (server_unauthenticated (P:=toy) (E:=Empty_set) (λ _, []) true Up
    (ses_waiting hs) ses_env 11%N 99%N (zeros 32) [] []); reflexivity.
Defined.

Lemma havens_cannot_talk_witness :
  let t ep rob := mkEncTask (P:=toy) (node_isk x05) ep (Some rob) (Starting None) [] [] in
  ∃ enc dec,
    await_step (P:=toy) (t ses_server (sample_fp x09)) 11%N
      (ServerHs (Handshake_new (P:=toy) (node_isk x05) 12%N)) = Running enc dec 0 rf_default ∧
    start_loops (P:=toy) (t ses_client (sample_fp x08))
      (shared_secret (P:=toy) 12%N (OnionSecret_public (P:=toy) 11%N)) = Running enc dec 0 rf_default.
Proof.
  intros t. apply (havens_cannot_talk (P:=toy) (t ses_server (sample_fp x09))
    (t ses_client (sample_fp x08)) 11%N 12%N (Handshake_new (P:=toy) (node_isk x0c) 11%N)
    (Handshake_new (P:=toy) (node_isk x05) 12%N) (sample_fp x09) (sample_fp x08)); reflexivity.
Defined.

Definition ses_forged : EncTask (P:=toy) := set_incoming [Regular 5 [x00]] ses_task.

Lemma bad_message_ends_session_witness :
  ∃ t', task_step (P:=toy) (E:=Empty_set) (λ _, []) true Down ses_forged ses_env = (Ok t', ses_env) ∧
    ∀ msg, session_send_outgoing msg t' = Err (BadMessage DecryptionFailed).
Proof.
  apply (bad_message_ends_session (P:=toy) (E:=Empty_set) (λ _, []) true ses_forged ses_env
    (down_key (P:=toy) ses_secret) (up_key (P:=toy) ses_secret) 0 rf_default 5 [x00] []); reflexivity.
Defined.

Lemma client_authenticated_witness :
  is_ok (CryptSession_new (P:=toy) (node_isk x05) ses_client None
    (Some (Handshake_new (P:=toy) (node_isk x0c) 11%N, node_fp x0c))) = true.
Proof.
  exact (proj2 (client_authenticated (P:=toy) (node_isk x05) ses_client None
    (Handshake_new (P:=toy) (node_isk x0c) 11%N) (node_fp x0c)) (node_isk x0c) 11%N).
Defined.
