(* ===== verification/HavenSocket.v ===== *)
(** Haven sockets: [src/socket/haven_socket.rs].

    A haven socket keeps an encrypted session per correspondent.  A session is
    shared between the cache of the socket and the task that runs it, so the
    cache holds handles into the store [sessions]; a session that leaves the
    cache is dropped, which cancels its task. *)

From S2P Require Import Prelude Interfaces Crypto Packet OnionRouting Topology ShortestPath.
From S2P Require Import ReplyStore NeighTable Directory Daemon Socket Dht Rendezvous CryptSession.
From S2P Require Import Instances.

Definition SESSION_CAPACITY : N := 100000.
Definition SESSION_TTL : N := 60 * 30.
Definition DECRYPTED_CAPACITY : N := 1000.

(** The errors of [recv_task]. *)
Inductive HavenError :=
  | HavenRecv (e : SocketRecvError)
  | HavenDecode
  | StrayMessage
  | HavenSession (e : SessionError).

Section HavenSocket.
  Context {P : Primitives} {IM : IndexMap} {HI : HashIter} {C : Chan} {L : Lru} {MK : Moka}.
  Context {RF : ReplayFilter}.
  Context {SA : Stdcode AdjacencyDescriptor} {SI : Stdcode IdentityDescriptor}.
  Context {B : Bincode InnerPacket} {SL : Stdcode HavenLocator}.
  Context {SK : Stdcode (list byte * Fingerprint)} {SF : Stdcode (list byte * Endpoint)}.
  Context {SH : Stdcode Handshake} {SM : Stdcode HavenMsg}.

Record HavenSocket := mkHavenSocket {
  identity_sk : IdentitySecret;
  haven_rendezvous : option Fingerprint;
  crypt_sessions : moka Endpoint N;
  sessions : gmap N EncTask;
  haven_env : Env
}.

Definition set_sessions (c : moka Endpoint N) (s : gmap N EncTask) (self : HavenSocket)
    : HavenSocket :=
  mkHavenSocket (identity_sk self) (haven_rendezvous self) c s (haven_env self).
Definition set_haven_env (e : Env) (self : HavenSocket) : HavenSocket :=
  mkHavenSocket (identity_sk self) (haven_rendezvous self) (crypt_sessions self) (sessions self) e.

Definition haven_clock (self : HavenSocket) : N := clock (env_ctx (haven_env self)).
Definition haven_local_endpoint (self : HavenSocket) : Endpoint :=
  local_endpoint (env_skt (haven_env self)).

(** [HavenSocket::bind]. *)
Definition haven_bind {E} (fuel : nat) (isk : IdentitySecret) (dock : option Dock)
    (rendezvous_point : option Fingerprint) (rpc : RpcContext) (ctx : DaemonContext)
    : outcome E HavenSocket :=
  match bind fuel isk dock ctx with
  | (Ok skt, ctx) =>
      Ok (mkHavenSocket isk rendezvous_point
            (moka_new (Some SESSION_CAPACITY) (Some SESSION_TTL)) ∅
            (mkEnv ctx rpc skt (chan_bounded DECRYPTED_CAPACITY)))
  | (Err e, _) => Err e
  | (Panic, _) => Panic
  | (OutOfFuel, _) => OutOfFuel
  end.

(** Inserts a session for an endpoint; the one it replaces is dropped. *)
Definition insert_session (endpoint : Endpoint) (t : EncTask) (self : HavenSocket)
    : N * HavenSocket :=
  let h := fresh (dom (sessions self)) in
  let kept := match moka_get (haven_clock self) endpoint (crypt_sessions self) with
              | Some old => delete old (sessions self)
              | None => sessions self
              end in
  (h, set_sessions (moka_insert (haven_clock self) endpoint h (crypt_sessions self))
        (<[h := t]> kept) self).

(** [crypt_sessions.try_get_with(endpoint, || CryptSession::new(.., None))]. *)
Definition get_session (endpoint : Endpoint) : M HavenSocket SessionError N := λ self,
  match moka_get (haven_clock self) endpoint (crypt_sessions self) with
  | Some h => (Ok h, self)
  | None =>
      match CryptSession_new (identity_sk self) endpoint (haven_rendezvous self) None with
      | Ok t => let '(h, self) := insert_session endpoint t self in (Ok h, self)
      | Err e => (Err e, self)
      | Panic => (Panic, self)
      | OutOfFuel => (OutOfFuel, self)
      end
  end.

(** [HavenSocket::send_to]; the error is that of the session, which is then
    dropped. *)
Definition haven_send_to (body : list byte) (endpoint : Endpoint)
    : M HavenSocket SessionError unit :=
  h ← get_session endpoint;
  self ← get_state;
  enc ← lift (unwrap (sessions self !! h));
  match session_send_outgoing body enc with
  | Err e =>
      _ ← modify (λ self, set_sessions
                    (moka_remove (haven_clock self) endpoint (crypt_sessions self)).2
                    (delete h (sessions self)) self);
      throw e
  | o => enc ← lift o;
         modify (λ self, set_sessions (crypt_sessions self) (<[h := enc]> (sessions self)) self)
  end.

(** [HavenSocket::recv_from]: [None] while it waits. *)
Definition haven_recv_from (self : HavenSocket) : option ((list byte * Endpoint) * HavenSocket) :=
  let e := haven_env self in
  '(m, c) ← chan_try_recv (env_decrypted e);
  Some (m, set_haven_env (mkEnv (env_ctx e) (env_rpc e) (env_skt e) c) self).

(** A message for an existing session. *)
Definition to_session (remote : Endpoint) (msg : HavenMsg) : M HavenSocket HavenError unit :=
  self ← get_state;
  match moka_get (haven_clock self) remote (crypt_sessions self) with
  | Some h =>
      enc ← lift (unwrap (sessions self !! h));
      enc ← lift (map_err HavenSession (session_send_incoming msg enc));
      modify (λ self, set_sessions (crypt_sessions self) (<[h := enc]> (sessions self)) self)
  | None => throw StrayMessage
  end.

(** The body of [recv_task] for a message of the N2R socket. *)
Definition handle_n2r (n2r_msg : list byte) : M HavenSocket HavenError unit :=
  '(body, remote) ← lift (ok_or HavenDecode (stdcode_deserialize (A:=list byte * Endpoint) n2r_msg));
  haven_msg ← lift (ok_or HavenDecode (stdcode_deserialize (A:=HavenMsg) body));
  match haven_msg with
  | ServerHs _ => to_session remote haven_msg
  | ClientHs hs =>
      self ← get_state;
      t ← lift (map_err HavenSession
             (CryptSession_new (identity_sk self) remote (haven_rendezvous self)
                (Some (hs, ep_fingerprint remote))));
      modify (λ self, (insert_session remote t self).2)
  | Regular _ _ => to_session remote haven_msg
  end.

(** One iteration of [recv_task]; it is respawned on an error. *)
Definition recv_task_step (fuel : nat) : M HavenSocket HavenError unit := λ self,
  let e := haven_env self in
  let '(o, (ctx, skt)) := recv_from fuel (env_ctx e, env_skt e) in
  let self := set_haven_env (mkEnv ctx (env_rpc e) skt (env_decrypted e)) self in
  match o with
  | Ok (Some (n2r_msg, _)) => handle_n2r n2r_msg self
  | Ok None => (Ok tt, self)
  | Err err => (Err (HavenRecv err), self)
  | Panic => (Panic, self)
  | OutOfFuel => (OutOfFuel, self)
  end.

(** A step of the task of a session. *)
Definition session_step {E} (net : replica_net) (in_time : bool) (s : side) (h : N)
    : M HavenSocket E unit := λ self,
  match sessions self !! h with
  | None => (Ok tt, self)
  | Some t =>
      match task_step net in_time s t (haven_env self) with
      | (Ok t', env') =>
          (Ok tt, set_haven_env env'
                    (set_sessions (crypt_sessions self) (<[h := t']> (sessions self)) self))
      | (Err e, env') => (Err e, set_haven_env env' self)
      | (Panic, env') => (Panic, set_haven_env env' self)
      | (OutOfFuel, env') => (OutOfFuel, set_haven_env env' self)
      end
  end.

(** An iteration of the registration task, given what the relay answers to
    [alloc_forward]: nothing in time, a failed call ([inl]) or the result of
    the call ([inr]).  The insertions into the DHT and the seconds to wait. *)
Definition register_step (isk : IdentitySecret) (onion_pk : OnionPublic) (rob : Fingerprint)
    (g : RelayGraph) (answer : option (unit + outcome VerifyError unit))
    : list (Fingerprint * HavenLocator) * N :=
  match answer with
  | Some (inl _) => ([], 3%N)
  | None => ([], 3%N)
  | Some (inr _) => (dht_insert g (HavenLocator_new isk onion_pk rob), 5%N)
  end.

(** * Properties *)

Context {PL : PrimitivesLaws P} {MKL : MokaLaws MK} {CL : ChanLaws C} {RFL : ReplayFilterLaws RF}.
Context {SFL : StdcodeLaws (list byte * Endpoint)} {SML : StdcodeLaws HavenMsg}.

(** ** Safety *)

Definition env_ok (env : Env) : Prop := rpc_wf (env_rpc env).

(** Every cached handle is that of a session with its endpoint, and every queued
    message can be sealed. *)
Record haven_wf (self : HavenSocket) : Prop := {
  hw_cached ep h : moka_holds ep h (crypt_sessions self) →
    ∃ t, sessions self !! h = Some t ∧ remote t = ep;
  hw_outgoing h t : sessions self !! h = Some t → Forall sealable (task_outgoing t);
  hw_env : env_ok (haven_env self)
}.

Lemma send_to_rendezvous_safe net in_time t msg env :
  env_ok env → wp (send_to_rendezvous net in_time t msg) (λ _, env_ok) env_ok env.
Proof.
  intros Hok. apply wp_bind. unfold rendezvous_endpoint.
  destruct (rendezvous_fp t); [by apply wp_ret, wp_modify|].
  apply wp_bind, wp_get, wp_bind, wp_on, wp_map_err.
  eapply wp_mono; [by apply dht_get_timeout_spec| |done]. cbn. intros o rpc [Hrpc _].
  apply wp_bind, wp_lift; [apply returns_ok_or| |done]. intros l _. by apply wp_ret, wp_modify.
Qed.

Lemma run_phase_safe {E} t (m : M Env SessionError Phase) env :
  wp m (λ _, env_ok) env_ok env →
  wp (E:=E) (run_phase t m) (λ t' env', env_ok env' ∧ task_outgoing t' = task_outgoing t ∧
    remote t' = remote t) (λ _, False) env.
Proof. unfold wp, run_phase. by destruct (m env) as [[] env']; cbn. Qed.

(** A step of a session neither panics nor changes its correspondent. *)
Lemma task_step_safe {E} net in_time s t env :
  env_ok env → Forall sealable (task_outgoing t) →
  wp (E:=E) (task_step net in_time s t) (λ t' env', env_ok env' ∧
    Forall sealable (task_outgoing t') ∧ remote t' = remote t) (λ _, False) env.
Proof.
  intros Hok Ho. unfold task_step. destruct (phase t) as [chs|osk|enc dec n rf|e].
  - eapply wp_mono; [apply run_phase_safe| |done]; [|by intros ? ? (? & -> & ->)].
    apply wp_bind, wp_on. unfold with_rng. apply wp_zoom; [|intros osk r _|done].
    { unfold OnionSecret_generate, sample. by destruct (random_from_rng (thread_rng (env_ctx env))). }
    destruct chs; apply wp_bind;
      (eapply wp_mono; [by apply send_to_rendezvous_safe| |done]); intros; by apply wp_ret.
  - destruct (task_incoming t); apply wp_ret; cbn; done.
  - destruct s.
    + destruct (task_outgoing t) as [|m rest] eqn:Hout; [by apply wp_ret; rewrite Hout|].
      apply Forall_cons in Ho as [Hm Hrest].
      eapply wp_mono; [apply run_phase_safe| |done]; [|by intros ? ? (? & -> & ->)].
      apply wp_bind, wp_bind, wp_lift; [|intros c _|done].
      { apply returns_unwrap. by apply aead_encrypt_total. }
      apply wp_bind. eapply wp_mono; [by apply send_to_rendezvous_safe| |done].
      intros [] env' Henv'. by apply wp_ret, wp_ret.
    + destruct (task_incoming t) as [|m rest]; [by apply wp_ret|].
      eapply wp_mono; [apply run_phase_safe| |done]; [|by intros ? ? (? & -> & ->)].
      apply wp_bind. unfold down_step.
      destruct m as [| |num inner]; [by apply wp_ret, wp_ret..|].
      destruct (rf_add num rf) as [[] rf']; [|by apply wp_ret, wp_ret].
      apply wp_bind, wp_lift; [apply returns_map_err, returns_ok_or|intros pl _|done].
      by apply wp_bind, wp_modify, wp_ret, wp_ret.
  - by apply wp_ret.
Qed.

Lemma insert_session_wf ep t self :
  haven_wf self → remote t = ep → Forall sealable (task_outgoing t) →
  haven_wf (insert_session ep t self).2 ∧
  sessions (insert_session ep t self).2 !! (insert_session ep t self).1 = Some t.
Proof.
  intros [Hc Ho He] Hr Ht. unfold insert_session. cbn [fst snd].
  set (h := fresh (dom (sessions self))).
  assert (sessions self !! h = None) as Hfresh by (apply not_elem_of_dom, is_fresh).
  split; [|by apply lookup_insert_eq]. split; cbn; [| |done].
  - intros ep' h' Hh%moka_insert_holds. case_decide as Hep; [subst; by exists t; rewrite lookup_insert_eq|].
    destruct (Hc _ _ Hh) as (t' & Ht' & Hr'). exists t'. split; [|done].
    rewrite lookup_insert_ne by congruence.
    destruct (moka_get _ _ _) as [old|] eqn:Hold; [|done].
    apply moka_get_holds, Hc in Hold as (t0 & Ht0 & Hr0). rewrite lookup_delete_ne; congruence.
  - intros h' t'. rewrite lookup_insert. case_decide; [by intros [= <-]|].
    destruct (moka_get _ _ _); [rewrite lookup_delete; case_decide; [done|]|]; apply Ho.
Qed.

Lemma update_session_wf self h t t' :
  haven_wf self → sessions self !! h = Some t → remote t' = remote t →
  Forall sealable (task_outgoing t') →
  haven_wf (set_sessions (crypt_sessions self) (<[h := t']> (sessions self)) self).
Proof.
  intros [Hc Ho He] Ht Hr Hs. split; cbn; [| |done].
  - intros ep h' (t0 & Ht0 & Hr0)%Hc. rewrite lookup_insert. case_decide; [|eauto].
    subst. rewrite Ht in Ht0. injection Ht0 as <-. eauto.
  - intros h' t0. rewrite lookup_insert. case_decide; [by intros [= <-]|apply Ho].
Qed.

Lemma remove_session_wf self ep h :
  haven_wf self → (∀ t, sessions self !! h = Some t → remote t = ep) →
  haven_wf (set_sessions (moka_remove (haven_clock self) ep (crypt_sessions self)).2
              (delete h (sessions self)) self).
Proof.
  intros [Hc Ho He] Hh. split; cbn; [| |done].
  - intros ep' h' [Hne (t & Ht & Hr)%Hc]%moka_remove_holds. exists t. split; [|done].
    rewrite lookup_delete_ne; [done|]. intros ->. by rewrite (Hh _ Ht) in Hr.
  - intros h' t. rewrite lookup_delete. case_decide; [done|apply Ho].
Qed.

Lemma get_session_safe ep self :
  haven_wf self →
  wp (get_session ep) (λ h self', haven_wf self' ∧ ∃ t, sessions self' !! h = Some t ∧ remote t = ep)
    (λ _, False) self.
Proof.
  intros Hwf. unfold wp, get_session.
  destruct (moka_get _ _ _) as [h|] eqn:Hg; [apply moka_get_holds, (hw_cached _ Hwf) in Hg; eauto|].
  cbn [CryptSession_new mbind outcome_bind fst fmap option_fmap option_map].
  set (t := mkEncTask _ _ _ _ _ _).
  destruct (insert_session_wf ep t self Hwf eq_refl (Forall_nil_2 _)) as [Hwf' Ht].
  destruct (insert_session ep t self) as [h self']. eauto.
Qed.

Lemma send_outgoing_spec body t :
  match session_send_outgoing body t with
  | Ok t' => remote t' = remote t ∧ task_outgoing t' = task_outgoing t ++ [body]
  | Err _ => True
  | _ => False
  end.
Proof. unfold session_send_outgoing. by destruct (phase t). Qed.

Lemma send_incoming_spec msg t :
  match session_send_incoming msg t with
  | Ok t' => remote t' = remote t ∧ task_outgoing t' = task_outgoing t
  | Err _ => True
  | _ => False
  end.
Proof. unfold session_send_incoming. by destruct (phase t). Qed.

Lemma haven_send_to_safe body ep self :
  haven_wf self → sealable body → wp (haven_send_to body ep) (λ _, haven_wf) haven_wf self.
Proof.
  intros Hwf Hb. apply wp_bind. eapply wp_mono; [by apply get_session_safe| |by intros ? []].
  intros h self' (Hwf' & t & Ht & Hr). apply wp_bind, wp_get, wp_bind. rewrite Ht.
  apply wp_lift; [done| |done]. intros ? [= <-]. pose proof (send_outgoing_spec body t) as Hs.
  destruct (session_send_outgoing body t) as [t'|e| |]; [| |done..].
  - destruct Hs as [Hr' Ho]. apply wp_bind, wp_lift; [done| |done]. intros ? [= <-].
    apply wp_modify. apply (update_session_wf _ _ t); [done..|]. rewrite Ho. apply Forall_app.
    split; [by eapply hw_outgoing|by apply Forall_singleton].
  - apply wp_bind, wp_modify, wp_throw. apply remove_session_wf; [done|]. intros ?. by rewrite Ht; intros [= <-].
Qed.

Lemma to_session_safe ep msg self :
  haven_wf self → wp (to_session ep msg) (λ _, haven_wf) haven_wf self.
Proof.
  intros Hwf. apply wp_bind, wp_get. destruct (moka_get _ _ _) as [h|] eqn:Hg; [|by apply wp_throw].
  apply moka_get_holds, (hw_cached _ Hwf) in Hg as (t & Ht & Hr). rewrite Ht.
  apply wp_bind, wp_lift; [done| |done]. intros ? [= <-]. pose proof (send_incoming_spec msg t) as Hs.
  apply wp_bind, wp_lift; [by destruct (session_send_incoming msg t)| |done].
  intros t' Ht'. destruct (session_send_incoming msg t); try done. injection Ht' as ->.
  destruct Hs as [Hr' Ho]. apply wp_modify, (update_session_wf _ _ t); [done..|].
  rewrite Ho. by eapply hw_outgoing.
Qed.

Lemma CryptSession_new_safe isk ep rv ci :
  returns (CryptSession_new isk ep rv ci) ∧
  ∀ t, CryptSession_new isk ep rv ci = Ok t → remote t = ep ∧ task_outgoing t = [].
Proof.
  unfold CryptSession_new. destruct ci as [[hs fp]|]; cbn; [|split; [done|by intros t [= <-]]].
  pose proof (verify_returns (hs_id_pk hs) (hs_to_sign hs) (hs_sig hs)).
  destruct (verify _ _ _); try done; cbn. case_decide; cbn; [done|].
  split; [done|]. by intros t [= <-].
Qed.

Lemma handle_n2r_safe bytes self :
  haven_wf self → wp (handle_n2r bytes) (λ _, haven_wf) haven_wf self.
Proof.
  intros Hwf. apply wp_bind, wp_lift; [apply returns_ok_or| |done]. intros [body ep] _.
  apply wp_bind, wp_lift; [apply returns_ok_or| |done]. intros [hs|hs|n inner] _.
  - apply wp_bind, wp_get.
    destruct (CryptSession_new_safe (identity_sk self) ep (haven_rendezvous self)
      (Some (hs, ep_fingerprint ep))) as [Hret Hnew].
    apply wp_bind, wp_lift; [by apply returns_map_err| |done]. intros t Ht.
    destruct (CryptSession_new _ _ _ _) as [t0| | |]; try done. injection Ht as ->.
    destruct (Hnew t eq_refl) as [Hr Ho]. apply wp_modify.
    apply insert_session_wf; [done..|]. by rewrite Ho.
  - by apply to_session_safe.
  - by apply to_session_safe.
Qed.

Lemma session_step_safe {E} net in_time s h self :
  haven_wf self → wp (E:=E) (session_step net in_time s h) (λ _, haven_wf) (λ _, False) self.
Proof.
  intros Hwf. unfold wp, session_step. destruct (sessions self !! h) as [t|] eqn:Ht; [|done].
  pose proof (task_step_safe (E:=E) net in_time s t (haven_env self) (hw_env _ Hwf)
    (hw_outgoing _ Hwf _ _ Ht)) as Hs. unfold wp in Hs.
  destruct (task_step _ _ _ _ _) as [[t'| | |] env']; try done. destruct Hs as (He & Ho & Hr).
  pose proof (update_session_wf self h t t' Hwf Ht Hr Ho) as [Hc' Ho' _]. by split.
Qed.

(** What can happen to a socket: the application sends or receives, a message of
    arbitrary content arrives, or a session's task runs. *)
Inductive haven_event :=
  | HSend (body : list byte) (ep : Endpoint)
  | HRecv
  | HArrive (bytes : list byte)
  | HStep (net : replica_net) (in_time : bool) (s : side) (h : N).

Definition haven_apply (ev : haven_event) (self : HavenSocket) : option HavenSocket :=
  let keep {E} (r : outcome E unit * HavenSocket) :=
    match r.1 with Ok _ | Err _ => Some r.2 | Panic | OutOfFuel => None end in
  match ev with
  | HSend body ep => keep (haven_send_to body ep self)
  | HRecv => Some (default self (snd <$> haven_recv_from self))
  | HArrive bytes => keep (handle_n2r bytes self)
  | HStep net in_time s h => keep (session_step (E:=Empty_set) net in_time s h self)
  end.

Fixpoint haven_run (evs : list haven_event) (self : HavenSocket) : option HavenSocket :=
  match evs with
  | [] => Some self
  | ev :: evs => self ← haven_apply ev self; haven_run evs self
  end.

Definition event_ok (ev : haven_event) : Prop :=
  match ev with HSend body _ => sealable body | _ => True end.

Lemma keep_safe {E} (m : M HavenSocket E unit) R self :
  wp m (λ _, haven_wf) R self → (∀ s, R s → haven_wf s) →
  ∃ self', match (m self).1 with Ok _ | Err _ => Some (m self).2 | Panic | OutOfFuel => None end
    = Some self' ∧ haven_wf self'.
Proof. unfold wp. intros H HR. destruct (m self) as [[] self']; cbn in *; eauto; done. Qed.

Lemma haven_apply_safe ev self :
  haven_wf self → event_ok ev → ∃ self', haven_apply ev self = Some self' ∧ haven_wf self'.
Proof.
  intros Hwf Hev. destruct ev as [body ep| |bytes|net in_time s h]; cbn [haven_apply].
  - by eapply keep_safe; [apply haven_send_to_safe|].
  - eexists. split; [done|]. unfold haven_recv_from.
    destruct (chan_try_recv _) as [[m c]|]; cbn; [|done]. destruct Hwf. by split.
  - by eapply keep_safe; [apply handle_n2r_safe|].
  - by eapply keep_safe; [apply session_step_safe|].
Qed.

Lemma haven_new_wf isk rv env :
  env_ok env →
  haven_wf (mkHavenSocket isk rv (moka_new (Some SESSION_CAPACITY) (Some SESSION_TTL)) ∅ env).
Proof.
  intros He. split; cbn; [|by intros h t; rewrite lookup_empty|done].
  intros ep h H. by apply moka_new_holds in H.
Qed.

Lemma haven_run_safe evs self :
  haven_wf self → Forall event_ok evs → ∃ self', haven_run evs self = Some self' ∧ haven_wf self'.
Proof.
  intros Hwf Hevs. revert self Hwf. induction Hevs as [|ev evs Hev Hevs IH]; intros self Hwf; [cbn; eauto|].
  destruct (haven_apply_safe ev self Hwf Hev) as (self1 & Hs & Hwf1). cbn. rewrite Hs. cbn. by apply IH.
Qed.

(** C18 (safety of haven sockets): once bound, no sequence of sends, arrivals of
    arbitrary bytes and scheduling of its sessions makes a haven socket panic,
    and each cached session stays that of the endpoint it is cached under. *)
Theorem haven_never_panics {E} fuel isk dock rv rpc ctx self evs :
  rpc_wf rpc → haven_bind (E:=E) fuel isk dock rv rpc ctx = Ok self → Forall event_ok evs →
  ∃ self', haven_run evs self = Some self' ∧ haven_wf self'.
Proof.
  intros Hrpc Hbind Hevs. apply haven_run_safe; [|done]. unfold haven_bind in Hbind.
  destruct (bind fuel isk dock ctx) as [[skt| | |] ctx']; try done. injection Hbind as <-.
  by apply haven_new_wf.
Qed.

(** A refused registration is published: when the relay refuses a haven's
    registration, the haven publishes the relay as its rendezvous point all
    the same, as if it had accepted. *)
Theorem refused_registration_published isk opk rob g e :
  register_step isk opk rob g (Some (inr (Err e))) = register_step isk opk rob g (Some (inr (Ok tt))) ∧
  ∀ r, r ∈ take 3 (dht_key_to_fps g (bytes_of (Fingerprint_to_string (fingerprint (public isk))))) →
    (r, HavenLocator_new isk opk rob) ∈ (register_step isk opk rob g (Some (inr (Err e)))).1.
Proof.
  split; [done|]. intros r Hr. cbn. apply list_elem_of_fmap. by exists r.
Qed.

End HavenSocket.

(** * Witnesses *)

Definition hv_events : list haven_event :=
  [HSend [x68] ses_client; HStep (λ _, []) true Up 0; HArrive []; HRecv].

Lemma hv_bound : ∃ self, haven_bind (P:=toy) (E:=Empty_set) 1 (node_isk x05) (Some 80%N)
  (Some (sample_fp x09)) rpc_new sock_ctx = Ok self.
Proof. eexists. reflexivity. Qed.

Lemma haven_never_panics_witness :
  ∃ self self', haven_bind (P:=toy) (E:=Empty_set) 1 (node_isk x05) (Some 80%N)
      (Some (sample_fp x09)) rpc_new sock_ctx = Ok self ∧
    haven_run (P:=toy) hv_events self = Some self' ∧ haven_wf self'.
Proof.
  destruct hv_bound as [self Hself]. exists self.
  destruct (haven_never_panics (P:=toy) (E:=Empty_set) 1 (node_isk x05) (Some 80%N)
    (Some (sample_fp x09)) rpc_new sock_ctx self hv_events) as (self' & H1 & H2).
  - exact (rpc_new_wf (P:=toy)).
  - exact Hself.
  - repeat (apply Forall_cons; split; [try exact I|]).
    + discriminate.
    + apply Forall_nil_2.
  - exists self'. exact (conj Hself (conj H1 H2)).
Defined.

Lemma refused_registration_published_witness :
  register_step (P:=toy) (node_isk x05) (zeros 32) (sample_fp x09) relays_12
    (Some (inr (Err SignatureMismatch))) =
  register_step (P:=toy) (node_isk x05) (zeros 32) (sample_fp x09) relays_12 (Some (inr (Ok tt))).
Proof.
  exact (proj1 (refused_registration_published (P:=toy) (node_isk x05) (zeros 32) (sample_fp x09)
    relays_12 SignatureMismatch)).
Defined.
