(* ===== verification/HavenNet.v ===== *)
(** A client, a rendezvous relay and a haven together.

    The sockets of [HavenSocket.v] and the relay of [Rendezvous.v] exchange the
    messages their N2R sockets queue; what the N2R layer does with them is the
    subject of [Network.v] and [Socket.v].  The theorem follows a message from
    the client's [send_to] to the haven's queue of decrypted messages. *)

From S2P Require Import Prelude Interfaces Crypto Packet OnionRouting Topology ShortestPath.
From S2P Require Import ReplyStore NeighTable Directory Daemon Socket Dht Rendezvous CryptSession.
From S2P Require Import HavenSocket Instances.

Section HavenNet.
  Context {P : Primitives} {IM : IndexMap} {HI : HashIter} {C : Chan} {L : Lru} {MK : Moka}.
  Context {RF : ReplayFilter}.
  Context {SA : Stdcode AdjacencyDescriptor} {SI : Stdcode IdentityDescriptor}.
  Context {B : Bincode InnerPacket} {SL : Stdcode HavenLocator}.
  Context {SK : Stdcode (list byte * Fingerprint)} {SF : Stdcode (list byte * Endpoint)}.
  Context {SH : Stdcode Handshake} {SM : Stdcode HavenMsg}.
  Context {PL : PrimitivesLaws P} {MKL : MokaLaws MK} {CL : ChanLaws C} {RFL : ReplayFilterLaws RF}.
  Context {SFL : StdcodeLaws (list byte * Endpoint)} {SML : StdcodeLaws HavenMsg}.

Record World := mkWorld {
  w_client : HavenSocket;
  w_relay : ForwardState;
  w_server : HavenSocket
}.

(** The next message that the N2R socket of a haven socket sends. *)
Definition pop_outgoing (self : HavenSocket) : option ((list byte * Endpoint) * HavenSocket) :=
  let env := haven_env self in
  let skt := env_skt env in
  '(m, c) ← chan_try_recv (send_outgoing skt);
  Some (m, set_haven_env (set_env_skt (mkN2rSocket (bound_fp skt) (bound_dock skt)
             (recv_incoming skt) (incoming_queue skt) c) env) self).

Section steps.
  Context (net : replica_net) (in_time : bool) (now : N) (rob : Fingerprint).

(** The relay handles a message of [src], and its answer reaches the socket it is
    addressed to. *)
Definition relay_in (src : Endpoint) (m : list byte) (w : World) : World :=
  let '(out, st) := forward_step now m src (w_relay w) in
  match out with
  | None => mkWorld (w_client w) st (w_server w)
  | Some (bytes, dest) =>
      if decide (dest = haven_local_endpoint (w_server w)) then
        mkWorld (w_client w) st (handle_n2r bytes (w_server w)).2
      else if decide (dest = haven_local_endpoint (w_client w)) then
        mkWorld (handle_n2r bytes (w_client w)).2 st (w_server w)
      else mkWorld (w_client w) st (w_server w)
  end.

Inductive world_step : World → World → Prop :=
  | client_runs w s h c :
      session_step (E:=Empty_set) net in_time s h (w_client w) = (Ok tt, c) →
      world_step w (mkWorld c (w_relay w) (w_server w))
  | server_runs w s h c :
      session_step (E:=Empty_set) net in_time s h (w_server w) = (Ok tt, c) →
      world_step w (mkWorld (w_client w) (w_relay w) c)
  | client_sends w m c :
      pop_outgoing (w_client w) = Some ((m, Endpoint_new rob HAVEN_FORWARD_DOCK), c) →
      world_step w (relay_in (haven_local_endpoint c) m (mkWorld c (w_relay w) (w_server w)))
  | server_sends w m c :
      pop_outgoing (w_server w) = Some ((m, Endpoint_new rob HAVEN_FORWARD_DOCK), c) →
      world_step w (relay_in (haven_local_endpoint c) m (mkWorld (w_client w) (w_relay w) c)).

End steps.

(** The cache keeps what is inserted now: it is neither full nor set to expire
    at once. *)
Definition keeps {K V} `{Countable K} (now : N) (c : moka K V) : Prop :=
  ∀ k v, moka_get now k (moka_insert now k v c) = Some v.

Definition out_queue (self : HavenSocket) : chan (list byte * Endpoint) :=
  send_outgoing (env_skt (haven_env self)).
Definition dec_queue (self : HavenSocket) : chan (list byte * Endpoint) :=
  env_decrypted (haven_env self).

(** The socket [self], which was [self0], has the session [t] with [ep], and these
    messages are queued to be sent and to be read. *)
Record holds (self0 : HavenSocket) (ep : Endpoint) (h : N) (t : EncTask)
    (outq decq : list (list byte * Endpoint)) (self : HavenSocket) : Prop := {
  hd_isk : identity_sk self = identity_sk self0;
  hd_rv : haven_rendezvous self = haven_rendezvous self0;
  hd_local : haven_local_endpoint self = haven_local_endpoint self0;
  hd_clock : haven_clock self = haven_clock self0;
  hd_rpc : env_rpc (haven_env self) = env_rpc (haven_env self0);
  hd_cached : moka_get (haven_clock self0) ep (crypt_sessions self) = Some h;
  hd_task : sessions self !! h = Some t;
  hd_out : chan_view (out_queue self) = outq;
  hd_out_cap : chan_cap (out_queue self) = chan_cap (out_queue self0);
  hd_dec : chan_view (dec_queue self) = decq;
  hd_dec_cap : chan_cap (dec_queue self) = chan_cap (dec_queue self0)
}.

Arguments hd_isk {self0 ep h t outq decq self} _.
Arguments hd_rv {self0 ep h t outq decq self} _.
Arguments hd_local {self0 ep h t outq decq self} _.
Arguments hd_clock {self0 ep h t outq decq self} _.
Arguments hd_rpc {self0 ep h t outq decq self} _.
Arguments hd_cached {self0 ep h t outq decq self} _.
Arguments hd_task {self0 ep h t outq decq self} _.
Arguments hd_out {self0 ep h t outq decq self} _.
Arguments hd_out_cap {self0 ep h t outq decq self} _.
Arguments hd_dec {self0 ep h t outq decq self} _.
Arguments hd_dec_cap {self0 ep h t outq decq self} _.

(** ** One lemma per transition *)

Lemma insert_session_holds self ep t :
  keeps (haven_clock self) (crypt_sessions self) →
  ∃ h, (insert_session ep t self).1 = h ∧
    holds self ep h t (chan_view (out_queue self)) (chan_view (dec_queue self))
      (insert_session ep t self).2.
Proof.
  intros Hk. eexists. split; [done|]. split; try done; cbn; [apply Hk|apply lookup_insert_eq].
Qed.

Lemma holds_set_session self0 ep h t t' outq decq self :
  holds self0 ep h t outq decq self →
  holds self0 ep h t' outq decq
    (set_sessions (crypt_sessions self) (<[h := t']> (sessions self)) self).
Proof. intros []. split; try done. apply lookup_insert_eq. Qed.

Lemma send_first body ep self :
  moka_get (haven_clock self) ep (crypt_sessions self) = None →
  keeps (haven_clock self) (crypt_sessions self) →
  ∃ h self', haven_send_to body ep self = (Ok tt, self') ∧
    holds self ep h (mkEncTask (identity_sk self) ep (haven_rendezvous self) (Starting None) [] [body])
      (chan_view (out_queue self)) (chan_view (dec_queue self)) self'.
Proof.
  intros Hn Hk. unfold haven_send_to, get_session, mbind, M_bind, get_state. rewrite Hn.
  cbn [CryptSession_new mbind outcome_bind fst fmap option_fmap option_map].
  set (t := mkEncTask _ _ _ _ _ _).
  destruct (insert_session_holds self ep t Hk) as (h & Hh & Hd).
  destruct (insert_session ep t self) as [h' self1]. cbn [fst snd] in *. subst h'.
  unfold lift. rewrite (hd_task Hd). cbn. eexists h, _. split; [done|].
  by apply (holds_set_session _ _ _ t).
Qed.

(** Handing [msg] to the N2R socket when its queue has room. *)
Lemma sent_view t ep msg env :
  (N.of_nat (length (chan_view (send_outgoing (env_skt env)))) <
    chan_cap (send_outgoing (env_skt env)))%N →
  chan_view (send_outgoing (env_skt (sent t ep msg env))) =
    chan_view (send_outgoing (env_skt env)) ++ [(stdcode (stdcode msg, remote t), ep)] ∧
  chan_cap (send_outgoing (env_skt (sent t ep msg env))) = chan_cap (send_outgoing (env_skt env)) ∧
  local_endpoint (env_skt (sent t ep msg env)) = local_endpoint (env_skt env).
Proof.
  intros H. destruct (chan_try_send_ok (stdcode (stdcode msg, remote t), ep) _ H) as (c & Hc & ? & ?).
  cbn. unfold send_to. by rewrite Hc.
Qed.

(** A step of the session that sends one message. *)
Lemma step_sends {E} net in_time s self0 ep h t decq self t' rep msg env' :
  holds self0 ep h t [] decq self → (0 < chan_cap (out_queue self0))%N →
  task_step (E:=E) net in_time s t (haven_env self) = (Ok t', sent t rep msg env') →
  env_skt env' = env_skt (haven_env self) → env_rpc env' = env_rpc (haven_env self) →
  env_decrypted env' = env_decrypted (haven_env self) →
  clock (env_ctx env') = clock (env_ctx (haven_env self)) →
  ∃ self', session_step (E:=E) net in_time s h self = (Ok tt, self') ∧
    holds self0 ep h t' [(stdcode (stdcode msg, remote t), rep)] decq self'.
Proof.
  intros [] Hcap Hstep Hskt Hrpc Hdec Hclock. unfold session_step.
  rewrite hd_task0, Hstep. eexists. split; [done|].
  destruct (sent_view t rep msg env') as (Hv & Hc & Hl).
  { rewrite Hskt. fold (out_queue self). rewrite hd_out0, hd_out_cap0. cbn. lia. }
  split; try done; cbn -[sent].
  - unfold haven_local_endpoint. cbn -[sent]. by rewrite Hl, Hskt.
  - unfold haven_clock. cbn. by rewrite Hclock.
  - cbn. by rewrite Hrpc.
  - apply lookup_insert_eq.
  - unfold out_queue. cbn -[sent]. rewrite Hv, Hskt. fold (out_queue self). by rewrite hd_out0.
  - unfold out_queue. cbn -[sent]. by rewrite Hc, Hskt.
  - unfold dec_queue. cbn. rewrite Hdec. done.
  - unfold dec_queue. cbn. rewrite Hdec. done.
Qed.

(** The first step of a session: the handshake goes out. *)
Lemma start_step {E} net in_time s t env rep chs :
  reaches in_time t env rep → phase t = Starting chs →
  ∃ osk r, let env' := set_env_ctx (set_rng r (env_ctx env)) env in
    task_step (E:=E) net in_time s t env =
    match chs with
    | None => (Ok (set_phase (AwaitServerHs osk) t),
               sent t rep (ClientHs (Handshake_new (my_isk t) osk)) env')
    | Some hs => (Ok (set_phase (start_loops t (shared_secret osk (hs_eph_pk hs))) t),
                  sent t rep (ServerHs (Handshake_new (my_isk t) osk)) env')
    end.
Proof.
  intros Hr Hp. unfold task_step. rewrite Hp. unfold run_phase, enc_start, mbind at 1, M_bind at 1.
  unfold zoom at 1, with_rng, zoom, OnionSecret_generate, sample.
  destruct (random_from_rng (thread_rng (env_ctx env))) as [osk r]. exists osk, r. cbv zeta.
  assert (reaches in_time t (set_env_ctx (set_rng r (env_ctx env)) env) rep) as Hr' by exact Hr.
  destruct chs as [hs|]; unfold mbind, M_bind; by rewrite (send_to_rendezvous_ok _ _ _ _ rep) by done.
Qed.

Lemma holds_reaches self0 ep h t outq decq self in_time rep :
  holds self0 ep h t outq decq self → remote t = ep → rendezvous_fp t = haven_rendezvous self0 →
  match haven_rendezvous self0 with
  | Some rob => rep = Endpoint_new rob HAVEN_FORWARD_DOCK
  | None => in_time = true ∧ ∃ l,
      moka_get (haven_clock self0) (ep_fingerprint ep) (dht_cache (env_rpc (haven_env self0))) = Some l ∧
      rep = Endpoint_new (rendezvous_point l) HAVEN_FORWARD_DOCK
  end → reaches in_time t (haven_env self) rep.
Proof.
  intros [] Hr Hrv H. unfold reaches. rewrite Hrv, hd_rpc0, Hr.
  unfold haven_clock in hd_clock0. rewrite hd_clock0. exact H.
Qed.

(** A step that only changes the task and the decrypted messages. *)
Lemma step_quiet {E} net in_time s self0 ep h t outq decq self t' env' decq' :
  holds self0 ep h t outq decq self →
  task_step (E:=E) net in_time s t (haven_env self) = (Ok t', env') →
  env_skt env' = env_skt (haven_env self) → env_rpc env' = env_rpc (haven_env self) →
  env_ctx env' = env_ctx (haven_env self) → chan_view (env_decrypted env') = decq' →
  chan_cap (env_decrypted env') = chan_cap (dec_queue self0) →
  ∃ self', session_step (E:=E) net in_time s h self = (Ok tt, self') ∧
    holds self0 ep h t' outq decq' self'.
Proof.
  intros [] Hstep Hskt Hrpc Hctx Hdec Hcap. unfold session_step. rewrite hd_task0, Hstep.
  eexists. split; [done|]. split; try done; cbn.
  - unfold haven_local_endpoint. cbn. by rewrite Hskt.
  - unfold haven_clock. cbn. by rewrite Hctx.
  - cbn. by rewrite Hrpc.
  - apply lookup_insert_eq.
  - unfold out_queue. cbn. rewrite Hskt. done.
  - unfold out_queue. cbn. rewrite Hskt. done.
Qed.

Lemma pop_holds self0 ep h t m outq decq self :
  holds self0 ep h t (m :: outq) decq self →
  ∃ self', pop_outgoing self = Some (m, self') ∧ holds self0 ep h t outq decq self'.
Proof.
  intros []. unfold pop_outgoing. fold (out_queue self).
  pose proof (chan_try_recv_spec (out_queue self)) as Hr. rewrite hd_out0 in Hr.
  destruct Hr as (c & Hc & Hv & Hcap). rewrite Hc. cbn. eexists. split; [done|].
  split; try done. by rewrite <-hd_out_cap0.
Qed.

Lemma handle_client_hs self ep hs :
  verify (hs_id_pk hs) (hs_to_sign hs) (hs_sig hs) = Ok tt →
  fingerprint (hs_id_pk hs) = ep_fingerprint ep →
  keeps (haven_clock self) (crypt_sessions self) →
  ∃ h, holds self ep h (mkEncTask (identity_sk self) ep (haven_rendezvous self) (Starting (Some hs)) [] [])
    (chan_view (out_queue self)) (chan_view (dec_queue self))
    (handle_n2r (stdcode (stdcode (ClientHs hs), ep)) self).2.
Proof.
  intros Hv Hfp Hk. unfold handle_n2r, mbind, M_bind, lift. rewrite stdcode_roundtrip. cbn [ok_or].
  rewrite stdcode_roundtrip. cbn [ok_or get_state]. unfold CryptSession_new. rewrite Hv.
  cbn [map_err mbind outcome_bind]. rewrite decide_False by tauto. cbn -[insert_session].
  set (t := mkEncTask _ _ _ _ _ _).
  destruct (insert_session_holds self ep t Hk) as (h & _ & Hd). by exists h.
Qed.

Lemma handle_session_msg self0 ep h t outq decq self msg :
  holds self0 ep h t outq decq self → (∀ hs, msg ≠ ClientHs hs) → (∀ e, phase t ≠ Ended e) →
  holds self0 ep h (set_incoming (task_incoming t ++ [msg]) t) outq decq
    (handle_n2r (stdcode (stdcode msg, ep)) self).2.
Proof.
  intros Hd Hmsg Hp.
  assert (to_session ep msg self = (Ok tt, set_sessions (crypt_sessions self)
    (<[h := set_incoming (task_incoming t ++ [msg]) t]> (sessions self)) self)) as Hto.
  { unfold to_session, mbind, M_bind, get_state, lift.
    rewrite (hd_clock Hd), (hd_cached Hd), (hd_task Hd).
    cbn. unfold session_send_incoming. by destruct (phase t) eqn:Hph; [..|destruct (Hp e)]. }
  unfold handle_n2r, mbind, M_bind, lift. rewrite stdcode_roundtrip. cbn [ok_or].
  rewrite stdcode_roundtrip. cbn [ok_or].
  destruct msg as [hs|hs|n c]; [by destruct (Hmsg hs)| |]; rewrite Hto; by apply (holds_set_session _ _ _ t).
Qed.

Lemma relay_to_server now ce se m c st s :
  haven_local_endpoint s = se → moka_contains now (ep_fingerprint se) (havens st) = true →
  ∃ st', relay_in now ce (stdcode (m, se)) (mkWorld c st s) =
      mkWorld c st' (handle_n2r (stdcode (m, ce)) s).2 ∧
    havens st' = havens st ∧ seen_srcs st' = moka_insert now (ce, se) () (seen_srcs st).
Proof.
  intros Hse Hreg. unfold relay_in, forward_step. cbn [w_relay].
  rewrite stdcode_roundtrip, forward_spec, Hreg.
  cbn [orb w_server w_client]. rewrite decide_True by done. eexists. by split_and!.
Qed.

Lemma relay_to_client now ce se m c st s :
  haven_local_endpoint c = ce → haven_local_endpoint s = se → ce ≠ se →
  moka_contains now (ce, se) (seen_srcs st) = true →
  ∃ st', relay_in now se (stdcode (m, ce)) (mkWorld c st s) =
      mkWorld (handle_n2r (stdcode (m, se)) c).2 st' s ∧ havens st' = havens st ∧
    (seen_srcs st' = seen_srcs st ∨ seen_srcs st' = moka_insert now (se, ce) () (seen_srcs st)).
Proof.
  intros Hce Hse Hne Hseen. unfold relay_in, forward_step. cbn [w_relay].
  rewrite stdcode_roundtrip, forward_spec, Hseen, orb_true_r. cbn [w_server w_client].
  rewrite decide_False, decide_True by congruence. eexists. split; [done|].
  destruct (moka_contains _ _ (havens st)); cbn; auto.
Qed.

(** ** The composed system *)

Section conversation.
  Context (net : replica_net) (now : N) (rob : Fingerprint) (c0 s0 : HavenSocket) (body : list byte).

Abbreviation cep := (haven_local_endpoint c0).
Abbreviation sep := (haven_local_endpoint s0).
Abbreviation rep := (Endpoint_new rob HAVEN_FORWARD_DOCK).

(** A client that has cached the locator of a haven, the haven, and the relay at
    which it is registered, all with room in their queues and caches. *)
Record conversation_ready (st0 : ForwardState) : Prop := {
  cr_client : haven_rendezvous c0 = None;
  cr_identity : fingerprint (public (identity_sk c0)) = ep_fingerprint cep;
  cr_server : haven_rendezvous s0 = Some rob;
  cr_distinct : cep ≠ sep;
  cr_locator : ∃ l, moka_get (haven_clock c0) (ep_fingerprint sep)
      (dht_cache (env_rpc (haven_env c0))) = Some l ∧ rendezvous_point l = rob;
  cr_registered : moka_contains now (ep_fingerprint sep) (havens st0) = true;
  cr_new : moka_get (haven_clock c0) sep (crypt_sessions c0) = None;
  cr_client_keeps : keeps (haven_clock c0) (crypt_sessions c0);
  cr_server_keeps : keeps (haven_clock s0) (crypt_sessions s0);
  cr_relay_keeps : keeps now (seen_srcs st0);
  cr_client_out : chan_view (out_queue c0) = [];
  cr_client_cap : (0 < chan_cap (out_queue c0))%N;
  cr_server_out : chan_view (out_queue s0) = [];
  cr_server_cap : (0 < chan_cap (out_queue s0))%N;
  cr_room : (N.of_nat (length (chan_view (dec_queue s0))) < chan_cap (dec_queue s0))%N;
  cr_body : sealable body
}.

Abbreviation wstep := (world_step net true now rob).

Lemma client_reaches st0 h t outq decq c :
  conversation_ready st0 → holds c0 sep h t outq decq c → remote t = sep →
  rendezvous_fp t = haven_rendezvous c0 → reaches true t (haven_env c) rep.
Proof.
  intros Hr Hd Hrem Hrv. eapply holds_reaches; [done..|]. rewrite (cr_client _ Hr).
  split; [done|]. destruct (cr_locator _ Hr) as (l & Hl & <-). eauto.
Qed.

Lemma server_reaches st0 h t outq decq s :
  conversation_ready st0 → holds s0 cep h t outq decq s → remote t = cep →
  rendezvous_fp t = haven_rendezvous s0 → reaches true t (haven_env s) rep.
Proof.
  intros Hr Hd Hrem Hrv. eapply holds_reaches; [done..|]. by rewrite (cr_server _ Hr).
Qed.

(** The client's half of the handshake reaches the server. *)
Lemma client_hello st0 h c1 :
  conversation_ready st0 →
  holds c0 sep h (mkEncTask (identity_sk c0) sep (haven_rendezvous c0) (Starting None) [] [body])
    [] (chan_view (dec_queue c0)) c1 →
  ∃ c2 st1 s1 hs osk,
    rtc wstep (mkWorld c1 st0 s0) (mkWorld c2 st1 s1) ∧ havens st1 = havens st0 ∧
    seen_srcs st1 = moka_insert now (cep, sep) () (seen_srcs st0) ∧
    holds c0 sep h (mkEncTask (identity_sk c0) sep (haven_rendezvous c0) (AwaitServerHs osk) [] [body])
      [] (chan_view (dec_queue c0)) c2 ∧
    holds s0 cep hs (mkEncTask (identity_sk s0) cep (haven_rendezvous s0)
      (Starting (Some (Handshake_new (identity_sk c0) osk))) [] []) [] (chan_view (dec_queue s0)) s1.
Proof.
  intros Hr Hd. pose proof (client_reaches _ _ _ _ _ _ Hr Hd eq_refl eq_refl) as Hreach.
  destruct (start_step (E:=Empty_set) net true Up _ (haven_env c1) rep None Hreach eq_refl)
    as (osk & r & Hstep). cbv zeta in Hstep.
  destruct (step_sends (E:=Empty_set) net true Up c0 sep h _ _ c1 _ rep _ _ Hd
    (cr_client_cap _ Hr) Hstep) as (c1a & Hrun & Hda); [done..|].
  destruct (pop_holds _ _ _ _ _ _ _ _ Hda) as (c1b & Hpop & Hdb).
  destruct (relay_to_server now cep sep (stdcode (ClientHs (Handshake_new (identity_sk c0) osk)))
    c1b st0 s0 eq_refl (cr_registered _ Hr)) as (st1 & Hin & Hhav & Hseen).
  destruct (handle_client_hs s0 cep (Handshake_new (identity_sk c0) osk)) as (hs & Hds).
  { apply hs_new_verifies. }
  { apply (cr_identity _ Hr). }
  { apply (cr_server_keeps _ Hr). }
  rewrite (cr_server_out _ Hr) in Hds.
  exists c1b, st1. eexists _, hs, osk. split; [|by split_and!].
  eapply rtc_l; [by eapply (client_runs _ _ _ _ (mkWorld c1 st0 s0))|]. cbn.
  eapply rtc_l; [|apply rtc_refl]. rewrite <-Hin, <-(hd_local Hdb).
  by apply (client_sends _ _ _ _ (mkWorld c1a st0 s0)).
Qed.

(** The server's half comes back, and both sessions run with matching keys. *)
Lemma handshake_completes st0 h c1 :
  conversation_ready st0 →
  holds c0 sep h (mkEncTask (identity_sk c0) sep (haven_rendezvous c0) (Starting None) [] [body])
    [] (chan_view (dec_queue c0)) c1 →
  ∃ c2 st2 s2 hs ss,
    rtc wstep (mkWorld c1 st0 s0) (mkWorld c2 st2 s2) ∧ havens st2 = havens st0 ∧
    (let seen := moka_insert now (cep, sep) () (seen_srcs st0) in
     seen_srcs st2 = seen ∨ seen_srcs st2 = moka_insert now (sep, cep) () seen) ∧
    holds c0 sep h (mkEncTask (identity_sk c0) sep (haven_rendezvous c0)
      (Running (up_key ss) (down_key ss) 0 rf_default) [] [body]) [] (chan_view (dec_queue c0)) c2 ∧
    holds s0 cep hs (mkEncTask (identity_sk s0) cep (haven_rendezvous s0)
      (Running (down_key ss) (up_key ss) 0 rf_default) [] []) [] (chan_view (dec_queue s0)) s2.
Proof.
  intros Hr Hd.
  destruct (client_hello st0 h c1 Hr Hd) as (c2 & st1 & s1 & hs & osk & Hrtc & Hhav & Hseen & Hc & Hs).
  pose proof (server_reaches _ _ _ _ _ _ Hr Hs eq_refl eq_refl) as Hreach.
  destruct (start_step (E:=Empty_set) net true Up _ (haven_env s1) rep
    _ Hreach eq_refl)
    as (osk' & r & Hstep). cbv zeta in Hstep.
  destruct (step_sends (E:=Empty_set) net true Up s0 cep hs _ _ s1 _ rep _ _ Hs
    (cr_server_cap _ Hr) Hstep) as (s2 & Hrun & Hs2); [done..|].
  destruct (pop_holds _ _ _ _ _ _ _ _ Hs2) as (s3 & Hpop & Hs3).
  destruct (relay_to_client now cep sep (stdcode (ServerHs (Handshake_new (identity_sk s0) osk')))
    c2 st1 s3 (hd_local Hc) (hd_local Hs3) (cr_distinct _ Hr))
    as (st2 & Hin & Hhav2 & Hseen2).
  { rewrite Hseen. unfold moka_contains. by rewrite (cr_relay_keeps _ Hr), bool_decide_eq_true_2 by eauto. }
  pose proof (handle_session_msg _ _ _ _ _ _ _ (ServerHs (Handshake_new (identity_sk s0) osk')) Hc)
    as Hc3. specialize (Hc3 ltac:(done) ltac:(done)).
  set (c3 := (handle_n2r _ c2).2) in *.
  destruct (step_quiet (E:=Empty_set) net true Up c0 sep h _ _ _ c3
    (mkEncTask (identity_sk c0) sep (haven_rendezvous c0)
      (start_loops (mkEncTask (identity_sk c0) sep (haven_rendezvous c0) (AwaitServerHs osk) [] [])
         (shared_secret osk (OnionSecret_public osk'))) [] [body]) (haven_env c3)
    (chan_view (dec_queue c0)) Hc3) as (c4 & Hrun4 & Hc4); [done..| | |].
  { apply (hd_dec Hc3). }
  { apply (hd_dec_cap Hc3). }
  exists c4, st2, s3, hs, (shared_secret osk (OnionSecret_public osk')).
  split; [|split; [congruence|split; [by rewrite <-Hseen|]]].
  - etrans; [exact Hrtc|].
    eapply rtc_l; [by eapply (server_runs _ _ _ _ (mkWorld c2 st1 s1))|]. cbn.
    eapply rtc_l; [by apply (server_sends _ _ _ _ (mkWorld c2 st1 s2))|].
    cbn. rewrite (hd_local Hs3), Hin.
    eapply rtc_l; [|apply rtc_refl]. by eapply (client_runs _ _ _ _ (mkWorld c3 st2 s3)).
  - split.
    + unfold start_loops in Hc4. cbn [rendezvous_fp] in Hc4. by rewrite (cr_client _ Hr) in Hc4 |- *.
    + unfold start_loops, set_phase in Hs3. cbn in Hs3. rewrite (cr_server _ Hr) in Hs3 |- *.
      unfold shared_secret, OnionSecret_public in *.
      by rewrite (diffie_hellman_comm osk' osk) in Hs3.
Qed.

(** A message to a haven: from [send_to] on a new session, the tasks of the two
    sockets and the relay can carry out the handshake and bring the message,
    decrypted and with the client's endpoint, into the queue from which the
    haven reads; afterwards both sessions run with matching keys. *)
Theorem haven_message_delivery st0 :
  conversation_ready st0 →
  ∃ c1 c2 st2 s2 hc hs tc ts ss rf,
    haven_send_to body sep c0 = (Ok tt, c1) ∧
    rtc wstep (mkWorld c1 st0 s0) (mkWorld c2 st2 s2) ∧
    chan_view (dec_queue s2) = chan_view (dec_queue s0) ++ [(body, cep)] ∧
    sessions c2 !! hc = Some tc ∧ phase tc = Running (up_key ss) (down_key ss) 1 rf_default ∧
    sessions s2 !! hs = Some ts ∧ phase ts = Running (down_key ss) (up_key ss) 0 rf.
Proof.
  intros Hr. destruct (send_first body sep c0 (cr_new _ Hr) (cr_client_keeps _ Hr)) as (hc & c1 & Hsend & Hd).
  rewrite (cr_client_out _ Hr) in Hd.
  destruct (handshake_completes st0 hc c1 Hr Hd) as (c2 & st2 & s2 & hs & ss & Hrtc & Hhav & _ & Hc & Hs).
  pose proof (client_reaches _ _ _ _ _ _ Hr Hc eq_refl eq_refl) as Hreach.
  match type of Hc with holds _ _ _ ?t _ _ _ =>
    pose proof (task_step_up (E:=Empty_set) net true t (haven_env c2) rep _ _ 0 _ body [] eq_refl
      eq_refl (cr_body _ Hr) ltac:(done) Hreach) as Hup
  end.
  set (msg := Regular 0 _) in Hup.
  destruct (step_sends (E:=Empty_set) net true Up c0 sep hc _ _ c2 _ rep _ _ Hc
    (cr_client_cap _ Hr) Hup) as (c3 & Hrun3 & Hc3); [done..|].
  destruct (pop_holds _ _ _ _ _ _ _ _ Hc3) as (c4 & Hpop & Hc4).
  destruct (relay_to_server now cep sep (stdcode msg) c4 st2 s2 (hd_local Hs))
    as (st3 & Hin & _ & _); [by rewrite Hhav; apply (cr_registered _ Hr)|].
  pose proof (handle_session_msg _ _ _ _ _ _ _ msg Hs ltac:(done) ltac:(done)) as Hs3.
  set (s3 := (handle_n2r _ s2).2) in *.
  match type of Hs3 with holds _ _ _ ?t _ _ _ =>
    pose proof (task_step_down (E:=Empty_set) net true t (haven_env s3) _ _ _ _ 0 body [] eq_refl
      eq_refl (cr_body _ Hr)) as Hdown
  end.
  assert ((rf_add (N.of_nat 0) rf_default).1 = true) as Hfresh by (by apply (rf_accepts_newer [])).
  destruct (rf_add (N.of_nat 0) rf_default) as [fresh rf]. cbn [fst] in Hfresh. subst fresh.
  destruct (push_decrypted_view (body, cep) (haven_env s3)) as [Hview Hcap].
  { change (env_decrypted (haven_env s3)) with (dec_queue s3).
    rewrite (hd_dec Hs3), (hd_dec_cap Hs3). apply (cr_room _ Hr). }
  destruct (step_quiet (E:=Empty_set) net true Down s0 cep hs _ _ _ s3 _ _ _ Hs3 Hdown
    eq_refl eq_refl eq_refl eq_refl) as (s4 & Hrun4 & Hs4).
  { etrans; [exact Hcap|]. apply (hd_dec_cap Hs3). }
  exists c1, c4, st3, s4, hc, hs. eexists _, _, ss, rf.
  split; [exact Hsend|]. split_and!.
  - etrans; [exact Hrtc|].
    eapply rtc_l; [by eapply (client_runs _ _ _ _ (mkWorld c2 st2 s2))|]. cbn.
    eapply rtc_l; [by apply (client_sends _ _ _ _ (mkWorld c3 st2 s2))|].
    cbn. rewrite (hd_local Hc4), Hin.
    eapply rtc_l; [|apply rtc_refl]. by eapply (server_runs _ _ _ _ (mkWorld c4 st3 s3)).
  - rewrite (hd_dec Hs4). etrans; [exact Hview|].
    change (env_decrypted (haven_env s3)) with (dec_queue s3). by rewrite (hd_dec Hs3).
  - apply (hd_task Hc4).
  - done.
  - apply (hd_task Hs4).
  - done.
Qed.

End conversation.
End HavenNet.

Arguments hd_isk {P IM C L MK RF self0 ep h t outq decq self} _.
Arguments hd_rv {P IM C L MK RF self0 ep h t outq decq self} _.
Arguments hd_local {P IM C L MK RF self0 ep h t outq decq self} _.
Arguments hd_clock {P IM C L MK RF self0 ep h t outq decq self} _.
Arguments hd_rpc {P IM C L MK RF self0 ep h t outq decq self} _.
Arguments hd_cached {P IM C L MK RF self0 ep h t outq decq self} _.
Arguments hd_task {P IM C L MK RF self0 ep h t outq decq self} _.
Arguments hd_out {P IM C L MK RF self0 ep h t outq decq self} _.
Arguments hd_out_cap {P IM C L MK RF self0 ep h t outq decq self} _.
Arguments hd_dec {P IM C L MK RF self0 ep h t outq decq self} _.
Arguments hd_dec_cap {P IM C L MK RF self0 ep h t outq decq self} _.

(** * Witnesses *)

Definition hn_socket (fp : Fingerprint) (dock : Dock) : N2rSocket :=
  mkN2rSocket fp dock 0%N [] (chan_bounded SEND_CAPACITY).

(** A client that has the locator of a haven in its cache, and the haven. *)
Definition hn_client : HavenSocket (P:=toy) :=
  mkHavenSocket (node_isk x0c) None (moka_new (Some SESSION_CAPACITY) (Some SESSION_TTL)) ∅
    (mkEnv sock_ctx
       (mkRpcContext (moka_insert 1000%N (node_fp x05) good_locator (dht_cache rpc_new))
          (local_dht_shard rpc_new) (registered_havens rpc_new))
       (hn_socket (node_fp x0c) 7%N) (chan_bounded DECRYPTED_CAPACITY)).

Definition hn_server : HavenSocket (P:=toy) :=
  mkHavenSocket (node_isk x05) (Some (sample_fp x09))
    (moka_new (Some SESSION_CAPACITY) (Some SESSION_TTL)) ∅
    (mkEnv sock_ctx rpc_new (hn_socket (node_fp x05) 80%N) (chan_bounded DECRYPTED_CAPACITY)).

Definition hn_relay : ForwardState :=
  register (P:=toy) 1000%N (RegisterHavenReq_new (P:=toy) 1000%N (node_isk x05))
    (mkForwardState seen_new (moka_new None (Some HAVEN_TTL))).

Lemma ttl_keeps {K V} `{Countable K} now ttl :
  (0 <? ttl)%N = true → keeps now (moka_new (K:=K) (V:=V) (Some 1%N) (Some ttl)).
Proof.
  intros Ht k v. cbn. rewrite lookup_insert_eq.
  assert ((now <? now + ttl)%N = true) as -> by (apply N.ltb_lt; apply N.ltb_lt in Ht; lia). done.
Qed.

Lemma hn_relay_seen : seen_srcs hn_relay = seen_new.
Proof. unfold hn_relay, register. by destruct (verify _ _ _). Qed.

Lemma hn_relay_registered :
  moka_contains 1005%N (ep_fingerprint (haven_local_endpoint hn_server)) (havens hn_relay) &&
  bool_decide (haven_local_endpoint hn_client ≠ haven_local_endpoint hn_server) = true.
Proof. vm_compute. reflexivity. Qed.

Lemma hn_located : ∃ l,
  moka_get (haven_clock hn_client) (ep_fingerprint (haven_local_endpoint hn_server))
    (dht_cache (env_rpc (haven_env hn_client))) = Some l ∧ rendezvous_point l = sample_fp x09.
Proof.
  exists good_locator. split; [|reflexivity]. cbn. rewrite lookup_insert_eq. reflexivity.
Qed.

Lemma hn_ready : conversation_ready (P:=toy) 1005%N (sample_fp x09) hn_client hn_server [x68] hn_relay.
Proof.
  destruct (andb_prop _ _ hn_relay_registered) as [Hreg Hne]. split.
  - reflexivity.
  - reflexivity.
  - reflexivity.
  - exact (bool_decide_eq_true_1 _ Hne).
  - exact hn_located.
  - exact Hreg.
  - reflexivity.
  - exact (ttl_keeps _ SESSION_TTL eq_refl).
  - exact (ttl_keeps _ SESSION_TTL eq_refl).
  - rewrite hn_relay_seen. exact (ttl_keeps _ SEEN_IDLE eq_refl).
  - reflexivity.
  - reflexivity.
  - reflexivity.
  - reflexivity.
  - reflexivity.
  - discriminate.
Qed.

Lemma haven_message_delivery_witness :
  ∃ c1 c2 st2 s2 hc hs tc ts ss rf,
    haven_send_to (P:=toy) [x68] (haven_local_endpoint hn_server) hn_client = (Ok tt, c1) ∧
    rtc (world_step (P:=toy) (λ _, []) true 1005%N (sample_fp x09))
      (mkWorld c1 hn_relay hn_server) (mkWorld c2 st2 s2) ∧
    chan_view (dec_queue s2) = chan_view (dec_queue hn_server) ++ [([x68], haven_local_endpoint hn_client)] ∧
    sessions c2 !! hc = Some tc ∧
    phase tc = Running (up_key (P:=toy) ss) (down_key (P:=toy) ss) 1 rf_default ∧
    sessions s2 !! hs = Some ts ∧
    phase ts = Running (down_key (P:=toy) ss) (up_key (P:=toy) ss) 0 rf.
Proof.
  exact (haven_message_delivery (P:=toy) (λ _, []) 1005%N (sample_fp x09) hn_client hn_server [x68]
    hn_relay hn_ready).
Defined.
