(* ===== verification/Conversation.v ===== *)
(** A conversation between a client and a haven.

    [HavenNet.v] follows one message through the handshake.  Here the two
    applications go on talking: they call [send_to] and [recv_from] on their
    sockets in any order, while the session tasks and the relay run.  The
    specification is a pair of bounded first-in first-out queues, one per
    direction; the theorem shows that the sockets and the relay can follow every
    run of it. *)

From S2P Require Import Prelude Interfaces Crypto Packet OnionRouting Topology ShortestPath.
From S2P Require Import ReplyStore NeighTable Directory Daemon Socket Dht Rendezvous CryptSession.
From S2P Require Import HavenSocket HavenNet Instances.

(** ** The specification *)

Inductive side := AtClient | AtServer.

(** What an application does with its socket. *)
Inductive act :=
  | Says (who : side) (m : list byte)
  | Hears (who : side) (m : list byte).

(** The messages sent and not yet received, per direction. *)
Record Chat := mkChat { to_client : list (list byte); to_server : list (list byte) }.

#[global] Instance side_eq_dec : EqDecision side.
Proof. solve_decision. Defined.

Definition heard (m : list byte) (q : list (list byte)) : option (list (list byte)) :=
  match q with
  | m' :: q => if decide (m = m') then Some q else None
  | [] => None
  end.

Definition said (cap : N) (m : list byte) (q : list (list byte)) : option (list (list byte)) :=
  if (N.of_nat (length q) <? cap)%N then Some (q ++ [m]) else None.

Definition chat_step (cap_c cap_s : N) (a : act) (c : Chat) : option Chat :=
  match a with
  | Says AtClient m => mkChat (to_client c) <$> said cap_s m (to_server c)
  | Says AtServer m => (λ q, mkChat q (to_server c)) <$> said cap_c m (to_client c)
  | Hears AtClient m => (λ q, mkChat q (to_server c)) <$> heard m (to_client c)
  | Hears AtServer m => mkChat (to_client c) <$> heard m (to_server c)
  end.

Definition chat_run (cap_c cap_s : N) : list act → Chat → option Chat :=
  fix go acts c :=
    match acts with
    | [] => Some c
    | a :: acts => c ← chat_step cap_c cap_s a c; go acts c
    end.

(** What is said can be sealed. *)
Definition act_fits (a : act) : Prop :=
  match a with Says _ m => sealable m | Hears _ _ => True end.

#[global] Instance act_fits_dec a : Decision (act_fits a).
Proof. destruct a; cbn; [apply N.le_dec|apply _]. Defined.

(** What the two applications of the test [haven] of [src/tests/sockets.rs] do. *)
Definition haven_test (alice_msg derek_msg : list byte) : list act :=
  [Says AtClient alice_msg; Hears AtServer alice_msg; Says AtServer derek_msg; Hears AtClient derek_msg].

Section Conversation.
  Context {P : Primitives} {IM : IndexMap} {HI : HashIter} {C : Chan} {L : Lru} {MK : Moka}.
  Context {RF : ReplayFilter}.
  Context {SA : Stdcode AdjacencyDescriptor} {SI : Stdcode IdentityDescriptor}.
  Context {B : Bincode InnerPacket} {SL : Stdcode HavenLocator}.
  Context {SK : Stdcode (list byte * Fingerprint)} {SF : Stdcode (list byte * Endpoint)}.
  Context {SH : Stdcode Handshake} {SM : Stdcode HavenMsg}.
  Context {PL : PrimitivesLaws P} {MKL : MokaLaws MK} {CL : ChanLaws C} {RFL : ReplayFilterLaws RF}.
  Context {SFL : StdcodeLaws (list byte * Endpoint)} {SML : StdcodeLaws HavenMsg}.

(** ** One session *)

(** A running session that has sent [n] messages and received [m]. *)
Definition running (self0 : HavenSocket) (ep : Endpoint) (enc dec : AeadKey) (n m : nat) : EncTask :=
  mkEncTask (identity_sk self0) ep (haven_rendezvous self0)
    (Running enc dec (N.of_nat n) (rf_add_all (N.of_nat <$> seq 0 m) rf_default)) [] [].

(** The message number [n] of a session that seals with [k]. *)
Definition sealed (k : AeadKey) (n : nat) (body : list byte) : HavenMsg :=
  Regular (N.of_nat n) (default [] (aead_encrypt (aead_inner k) (pad_nonce (N.of_nat n)) body)).

Lemma rf_next m :
  (rf_add (N.of_nat m) (rf_add_all (N.of_nat <$> seq 0 m) rf_default)).1 = true ∧
  (rf_add (N.of_nat m) (rf_add_all (N.of_nat <$> seq 0 m) rf_default)).2 =
    rf_add_all (N.of_nat <$> seq 0 (S m)) rf_default.
Proof.
  split.
  - apply rf_accepts_newer, Forall_fmap, Forall_forall. intros i Hi. apply elem_of_seq in Hi. cbn. lia.
  - rewrite seq_S, fmap_app. unfold rf_add_all. by rewrite foldl_app.
Qed.

(** [send_to] on a session that runs. *)
Lemma send_more self0 ep h enc dec n m outq decq self body :
  holds self0 ep h (running self0 ep enc dec n m) outq decq self →
  ∃ self', haven_send_to body ep self = (Ok tt, self') ∧
    holds self0 ep h (set_outgoing [body] (running self0 ep enc dec n m)) outq decq self'.
Proof.
  intros Hd. unfold haven_send_to, get_session, mbind, M_bind, get_state.
  rewrite (hd_clock Hd), (hd_cached Hd). unfold lift. rewrite (hd_task Hd). cbn.
  eexists. split; [done|]. by apply (holds_set_session _ _ _ (running self0 ep enc dec n m)).
Qed.

(** The message goes from the session's queue to the N2R socket. *)
Lemma session_flushes net in_time self0 ep rep h enc dec n m decq self body :
  let t := set_outgoing [body] (running self0 ep enc dec n m) in
  holds self0 ep h t [] decq self → reaches in_time t (haven_env self) rep →
  (0 < chan_cap (out_queue self0))%N → sealable body → (N.of_nat n + 1 < u64_modulus)%N →
  ∃ self1 self2,
    session_step (E:=Empty_set) net in_time Up h self = (Ok tt, self1) ∧
    pop_outgoing self1 = Some ((stdcode (stdcode (sealed enc n body), ep), rep), self2) ∧
    holds self0 ep h (running self0 ep enc dec (S n) m) [] decq self2.
Proof.
  intros t Hd Hreach Hcap Hs Hn.
  pose proof (task_step_up (E:=Empty_set) net in_time t (haven_env self) rep _ _ _ _ body []
    eq_refl eq_refl Hs Hn Hreach) as Hup.
  destruct (step_sends (E:=Empty_set) net in_time Up self0 ep h _ _ self _ rep _ _ Hd Hcap Hup)
    as (self1 & Hrun & Hd1); [done..|].
  destruct (pop_holds _ _ _ _ _ _ _ _ Hd1) as (self2 & Hpop & Hd2).
  exists self1, self2. split_and!; [done..|].
  replace (N.of_nat n + 1)%N with (N.of_nat (S n)) in Hd2 by lia. exact Hd2.
Qed.

(** The message that arrives at the N2R socket becomes readable. *)
Lemma session_hears net in_time self0 ep h enc dec n m decq self body :
  holds self0 ep h (running self0 ep enc dec n m) [] decq self → sealable body →
  (N.of_nat (length decq) < chan_cap (dec_queue self0))%N →
  ∃ self', session_step (E:=Empty_set) net in_time Down h
      (handle_n2r (stdcode (stdcode (sealed dec m body), ep)) self).2 = (Ok tt, self') ∧
    holds self0 ep h (running self0 ep enc dec n (S m)) [] (decq ++ [(body, ep)]) self'.
Proof.
  intros Hd Hs Hroom.
  pose proof (handle_session_msg _ _ _ _ _ _ _ (sealed dec m body) Hd ltac:(done) ltac:(done)) as Hd1.
  set (self1 := (handle_n2r _ self).2) in *.
  pose proof (task_step_down (E:=Empty_set) net in_time
    (set_incoming [sealed dec m body] (running self0 ep enc dec n m)) (haven_env self1) _ _ _ _ m
    body [] eq_refl eq_refl Hs) as Hdown.
  destruct (rf_next m) as [Hfresh Hrf].
  destruct (rf_add (N.of_nat m) _) as [fresh rf]. cbn [fst snd] in Hfresh, Hrf. subst fresh rf.
  destruct (push_decrypted_view (body, ep) (haven_env self1)) as [Hview Hcap];
    change (env_decrypted (haven_env self1)) with (dec_queue self1) in *.
  { by rewrite (hd_dec Hd1), (hd_dec_cap Hd1). }
  rewrite (hd_dec Hd1) in Hview. rewrite (hd_dec_cap Hd1) in Hcap.
  apply (step_quiet (E:=Empty_set) net in_time Down self0 ep h _ _ _ self1 _ _ _ Hd1 Hdown
    eq_refl eq_refl eq_refl Hview Hcap).
Qed.

(** [recv_from] takes the oldest message. *)
Lemma recv_holds self0 ep h t outq m decq self :
  holds self0 ep h t outq (m :: decq) self →
  ∃ self', haven_recv_from self = Some (m, self') ∧ holds self0 ep h t outq decq self'.
Proof.
  intros []. unfold haven_recv_from. fold (dec_queue self).
  pose proof (chan_try_recv_spec (dec_queue self)) as Hr. rewrite hd_dec in Hr.
  destruct Hr as (c & Hc & Hv & Hcap). rewrite Hc. cbn. eexists. split; [done|].
  split; try done. by rewrite <-hd_dec_cap.
Qed.

(** ** The two sockets and the relay *)

Section talk.
  Context (net : replica_net) (now : N) (rob : Fingerprint) (c0 s0 : HavenSocket).

Abbreviation cep := (haven_local_endpoint c0).
Abbreviation sep := (haven_local_endpoint s0).
Abbreviation rep := (Endpoint_new rob HAVEN_FORWARD_DOCK).
Abbreviation wstep := (world_step net true now rob).

(** An application uses its socket, and then tasks and relay run for a while. *)
Inductive acts : act → World → World → Prop :=
  | client_says w m c w' :
      haven_send_to m sep (w_client w) = (Ok tt, c) →
      rtc wstep (mkWorld c (w_relay w) (w_server w)) w' → acts (Says AtClient m) w w'
  | server_says w m s w' :
      haven_send_to m cep (w_server w) = (Ok tt, s) →
      rtc wstep (mkWorld (w_client w) (w_relay w) s) w' → acts (Says AtServer m) w w'
  | client_hears w m c w' :
      haven_recv_from (w_client w) = Some ((m, sep), c) →
      rtc wstep (mkWorld c (w_relay w) (w_server w)) w' → acts (Hears AtClient m) w w'
  | server_hears w m s w' :
      haven_recv_from (w_server w) = Some ((m, cep), s) →
      rtc wstep (mkWorld (w_client w) (w_relay w) s) w' → acts (Hears AtServer m) w w'.

Inductive talk : list act → World → World → Prop :=
  | talk_nil w : talk [] w w
  | talk_cons a l w w' w'' : acts a w w' → talk l w' w'' → talk (a :: l) w w''.

(** The relay keeps the flow from the client to the server while only these two
    write through it. *)
Definition remembers (c : moka (Endpoint * Endpoint) ()) : Prop :=
  ∀ l, Forall (λ k, k = (cep, sep) ∨ k = (sep, cep)) l →
    moka_contains now (cep, sep) (foldl (λ c k, moka_insert now k () c) c l) = true.

Lemma remembers_insert k c :
  k = (cep, sep) ∨ k = (sep, cep) → remembers c → remembers (moka_insert now k () c).
Proof. intros Hk Hc l Hl. apply (Hc (k :: l)). by constructor. Qed.

(** [conversation_ready] for a first message, with nothing left to read and a
    relay that does not forget. *)
Record talk_ready (m0 : list byte) (st0 : ForwardState) : Prop := {
  tr_ready : conversation_ready now rob c0 s0 m0 st0;
  tr_client_dec : chan_view (dec_queue c0) = [];
  tr_server_dec : chan_view (dec_queue s0) = [];
  tr_remembers : remembers (moka_insert now (cep, sep) () (seen_srcs st0))
}.

(** Both sessions run with matching keys; [nc] and [ns] messages were sent, and
    [dc] and [ds] can be read. *)
Record established ss (nc ns : nat) (dc ds : list (list byte)) (w : World) : Prop := {
  es_client : ∃ h, holds c0 sep h (running c0 sep (up_key ss) (down_key ss) nc ns)
                     [] ((λ m, (m, sep)) <$> dc) (w_client w);
  es_server : ∃ h, holds s0 cep h (running s0 cep (down_key ss) (up_key ss) ns nc)
                     [] ((λ m, (m, cep)) <$> ds) (w_server w);
  es_registered : moka_contains now (ep_fingerprint sep) (havens (w_relay w)) = true;
  es_remembers : remembers (seen_srcs (w_relay w))
}.

(** *** One lemma per kind of action *)

Section one.
  Context (m0 : list byte) (st0 : ForwardState) (Hready : conversation_ready now rob c0 s0 m0 st0).

(** A message of the client's session reaches the server's readable messages. *)
Lemma client_flushes ss nc ns dc ds hc hs c st s m :
  holds c0 sep hc (set_outgoing [m] (running c0 sep (up_key ss) (down_key ss) nc ns))
    [] ((λ m, (m, sep)) <$> dc) c →
  holds s0 cep hs (running s0 cep (down_key ss) (up_key ss) ns nc) [] ((λ m, (m, cep)) <$> ds) s →
  moka_contains now (ep_fingerprint sep) (havens st) = true → remembers (seen_srcs st) →
  sealable m → (N.of_nat nc + 1 < u64_modulus)%N →
  (N.of_nat (length ds) < chan_cap (dec_queue s0))%N →
  ∃ w, rtc wstep (mkWorld c st s) w ∧ established ss (S nc) ns dc (ds ++ [m]) w.
Proof.
  intros Hc Hs Hreg Hrem Hm Hn Hroom.
  destruct (session_flushes net true c0 sep rep hc _ _ nc ns _ c m Hc)
    as (c1 & c2 & Hrun & Hpop & Hc2); [|apply Hready|done..|].
  { by eapply client_reaches. }
  destruct (relay_to_server now cep sep (stdcode (sealed (up_key ss) nc m)) c2 st s (hd_local Hs) Hreg)
    as (st' & Hin & Hhav & Hseen).
  destruct (session_hears net true s0 cep hs _ _ ns nc _ s m Hs Hm) as (s' & Hrun' & Hs').
  { by rewrite length_fmap. }
  exists (mkWorld c2 st' s'). split.
  - eapply rtc_l; [by eapply (client_runs _ _ _ _ (mkWorld c st s))|]. cbn.
    eapply rtc_l; [by apply (client_sends _ _ _ _ (mkWorld c1 st s))|]. cbn.
    rewrite (hd_local Hc2), Hin. eapply rtc_l; [|apply rtc_refl].
    by eapply (server_runs _ _ _ _ (mkWorld c2 st' _)).
  - split; cbn; [by eauto| |by rewrite Hhav|rewrite Hseen; apply remembers_insert; auto].
    rewrite fmap_app. eauto.
Qed.

Lemma server_flushes ss nc ns dc ds hc hs c st s m :
  holds c0 sep hc (running c0 sep (up_key ss) (down_key ss) nc ns) [] ((λ m, (m, sep)) <$> dc) c →
  holds s0 cep hs (set_outgoing [m] (running s0 cep (down_key ss) (up_key ss) ns nc))
    [] ((λ m, (m, cep)) <$> ds) s →
  moka_contains now (ep_fingerprint sep) (havens st) = true → remembers (seen_srcs st) →
  sealable m → (N.of_nat ns + 1 < u64_modulus)%N →
  (N.of_nat (length dc) < chan_cap (dec_queue c0))%N →
  ∃ w, rtc wstep (mkWorld c st s) w ∧ established ss nc (S ns) (dc ++ [m]) ds w.
Proof.
  intros Hc Hs Hreg Hrem Hm Hn Hroom.
  destruct (session_flushes net true s0 cep rep hs _ _ ns nc _ s m Hs)
    as (s1 & s2 & Hrun & Hpop & Hs2); [|apply Hready|done..|].
  { by eapply server_reaches. }
  destruct (relay_to_client now cep sep (stdcode (sealed (down_key ss) ns m)) c st s2
    (hd_local Hc) (hd_local Hs2) (cr_distinct _ _ _ _ _ _ Hready) (Hrem [] ltac:(done)))
    as (st' & Hin & Hhav & Hseen).
  destruct (session_hears net true c0 sep hc _ _ nc ns _ c m Hc Hm) as (c' & Hrun' & Hc').
  { by rewrite length_fmap. }
  exists (mkWorld c' st' s2). split.
  - eapply rtc_l; [by eapply (server_runs _ _ _ _ (mkWorld c st s))|]. cbn.
    eapply rtc_l; [by apply (server_sends _ _ _ _ (mkWorld c st s1))|]. cbn.
    rewrite (hd_local Hs2), Hin. eapply rtc_l; [|apply rtc_refl].
    by eapply (client_runs _ _ _ _ (mkWorld _ st' s2)).
  - split; cbn; [|by eauto|by rewrite Hhav|].
    + rewrite fmap_app. eauto.
    + destruct Hseen as [->| ->]; [done|]. apply remembers_insert; auto.
Qed.

Lemma established_client_says ss nc ns dc ds w m :
  established ss nc ns dc ds w → sealable m → (N.of_nat nc + 1 < u64_modulus)%N →
  (N.of_nat (length ds) < chan_cap (dec_queue s0))%N →
  ∃ w', acts (Says AtClient m) w w' ∧ established ss (S nc) ns dc (ds ++ [m]) w'.
Proof.
  intros [[hc Hc] [hs Hs] Hreg Hrem] Hm Hn Hroom.
  destruct (send_more _ _ _ _ _ _ _ _ _ _ m Hc) as (c1 & Hsend & Hc1).
  destruct (client_flushes ss nc ns dc ds hc hs c1 (w_relay w) (w_server w) m) as (w' & Hrtc & He);
    [done..|]. exists w'. split; [|done]. by eapply client_says.
Qed.

Lemma established_server_says ss nc ns dc ds w m :
  established ss nc ns dc ds w → sealable m → (N.of_nat ns + 1 < u64_modulus)%N →
  (N.of_nat (length dc) < chan_cap (dec_queue c0))%N →
  ∃ w', acts (Says AtServer m) w w' ∧ established ss nc (S ns) (dc ++ [m]) ds w'.
Proof.
  intros [[hc Hc] [hs Hs] Hreg Hrem] Hm Hn Hroom.
  destruct (send_more _ _ _ _ _ _ _ _ _ _ m Hs) as (s1 & Hsend & Hs1).
  destruct (server_flushes ss nc ns dc ds hc hs (w_client w) (w_relay w) s1 m) as (w' & Hrtc & He);
    [done..|]. exists w'. split; [|done]. by eapply server_says.
Qed.

Lemma established_client_hears ss nc ns dc ds w m :
  established ss nc ns (m :: dc) ds w →
  ∃ w', acts (Hears AtClient m) w w' ∧ established ss nc ns dc ds w'.
Proof.
  intros [[hc Hc] Hs Hreg Hrem]. destruct w as [c st s].
  destruct (recv_holds _ _ _ _ _ _ _ _ Hc) as (c' & Hrecv & Hc').
  exists (mkWorld c' st s). split; [by eapply client_hears|]. split; cbn in *; eauto.
Qed.

Lemma established_server_hears ss nc ns dc ds w m :
  established ss nc ns dc (m :: ds) w →
  ∃ w', acts (Hears AtServer m) w w' ∧ established ss nc ns dc ds w'.
Proof.
  intros [Hc [hs Hs] Hreg Hrem]. destruct w as [c st s].
  destruct (recv_holds _ _ _ _ _ _ _ _ Hs) as (s' & Hrecv & Hs').
  exists (mkWorld c st s'). split; [by eapply server_hears|]. split; cbn in *; eauto.
Qed.

(** An action that the specification allows. *)
Lemma established_follows ss nc ns ch ch' w a :
  established ss nc ns (to_client ch) (to_server ch) w → act_fits a →
  (N.of_nat (nc + ns) + 1 < u64_modulus)%N →
  chat_step (chan_cap (dec_queue c0)) (chan_cap (dec_queue s0)) a ch = Some ch' →
  ∃ nc' ns' w', acts a w w' ∧ nc' + ns' <= S (nc + ns) ∧
    established ss nc' ns' (to_client ch') (to_server ch') w'.
Proof.
  intros He Hfit Hn Hstep. destruct ch as [dc ds], a as [[] m|[] m]; cbn in *.
  - unfold said in Hstep. destruct (N.ltb_spec (N.of_nat (length ds)) (chan_cap (dec_queue s0)));
      simplify_eq/=. destruct (established_client_says ss nc ns dc ds w m) as (w' & ? & ?); [done..|lia|done|].
    exists (S nc), ns, w'. auto with lia.
  - unfold said in Hstep. destruct (N.ltb_spec (N.of_nat (length dc)) (chan_cap (dec_queue c0)));
      simplify_eq/=. destruct (established_server_says ss nc ns dc ds w m) as (w' & ? & ?); [done..|lia|done|].
    exists nc, (S ns), w'. auto with lia.
  - destruct dc as [|m' dc]; [done|]. cbn in Hstep. case_decide; simplify_eq/=.
    destruct (established_client_hears _ _ _ _ _ _ _ He) as (w' & ? & ?). exists nc, ns, w'. auto.
  - destruct ds as [|m' ds]; [done|]. cbn in Hstep. case_decide; simplify_eq/=.
    destruct (established_server_hears _ _ _ _ _ _ _ He) as (w' & ? & ?). exists nc, ns, w'. auto.
Qed.

Lemma established_talks ss l nc ns ch ch' w :
  established ss nc ns (to_client ch) (to_server ch) w → Forall act_fits l →
  (N.of_nat (nc + ns + length l) < u64_modulus)%N →
  chat_run (chan_cap (dec_queue c0)) (chan_cap (dec_queue s0)) l ch = Some ch' →
  ∃ nc' ns' w', talk l w w' ∧ nc' + ns' <= nc + ns + length l ∧
    established ss nc' ns' (to_client ch') (to_server ch') w'.
Proof.
  revert nc ns ch w. induction l as [|a l IH]; intros nc ns ch w He Hfit Hn Hrun; cbn in Hrun.
  { simplify_eq. exists nc, ns, w. split; [constructor|]. split; [lia|done]. }
  apply bind_Some in Hrun as (ch1 & Hstep & Hrun). apply Forall_cons in Hfit as [Ha Hl]. cbn in Hn.
  destruct (established_follows ss nc ns ch ch1 w a) as (nc1 & ns1 & w1 & Hact & Hle & He1);
    [done..|lia|done|].
  destruct (IH nc1 ns1 ch1 w1) as (nc' & ns' & w' & Ht & Hle' & He'); [done..|lia|done|].
  exists nc', ns', w'. split; [by eapply talk_cons|]. split; [cbn; lia|done].
Qed.

End one.

(** The first message: the handshake runs, and then the message goes through. *)
Lemma first_says m0 st0 :
  talk_ready m0 st0 → (0 < chan_cap (dec_queue s0))%N →
  ∃ ss w, acts (Says AtClient m0) (mkWorld c0 st0 s0) w ∧ established ss 1 0 [] [m0] w.
Proof.
  intros [Hr Hdc Hds Hrem] Hroom.
  destruct (send_first m0 sep c0 (cr_new _ _ _ _ _ _ Hr) (cr_client_keeps _ _ _ _ _ _ Hr))
    as (hc & c1 & Hsend & Hd).
  rewrite (cr_client_out _ _ _ _ _ _ Hr) in Hd.
  destruct (handshake_completes net now rob c0 s0 m0 st0 hc c1 Hr Hd)
    as (c2 & st2 & s2 & hs & ss & Hrtc & Hhav & Hseen & Hc & Hs).
  rewrite Hdc in Hc. rewrite Hds in Hs. cbv zeta in Hseen.
  destruct (client_flushes m0 st0 Hr ss 0 0 [] [] hc hs c2 st2 s2 m0) as (w & Hrtc' & He); [done..| | | | | |].
  - rewrite Hhav. apply Hr.
  - destruct Hseen as [->| ->]; [done|]. apply remembers_insert; auto.
  - apply Hr.
  - done.
  - done.
  - exists ss, w. split; [|done]. eapply client_says; [done|]. by etrans.
Qed.

(** The sockets and the relay follow the queues. *)
Lemma conversation_follows m0 l ch st0 :
  talk_ready m0 st0 → Forall act_fits l →
  (N.of_nat (S (length l)) < u64_modulus)%N →
  chat_run (chan_cap (dec_queue c0)) (chan_cap (dec_queue s0)) (Says AtClient m0 :: l) (mkChat [] []) =
    Some ch →
  ∃ w ss nc ns, talk (Says AtClient m0 :: l) (mkWorld c0 st0 s0) w ∧
    established ss nc ns (to_client ch) (to_server ch) w.
Proof.
  intros Hr Hfit Hn Hrun. apply bind_Some in Hrun as (ch1 & Hstep & Hrun).
  cbn [chat_step to_client to_server] in Hstep. unfold said in Hstep.
  destruct (N.ltb_spec (N.of_nat (length (@nil (list byte)))) (chan_cap (dec_queue s0))) as [Hroom|];
    simplify_eq/=.
  destruct (first_says m0 st0 Hr Hroom) as (ss & w1 & Hact & He).
  destruct (established_talks m0 st0 (tr_ready _ _ Hr) ss l 1 0 (mkChat [] [m0]) ch w1)
    as (nc & ns & w & Ht & _ & He'); [done..|lia|exact Hrun|].
  exists w, ss, nc, ns. split; [by eapply talk_cons|done].
Qed.

(** C4 (a conversation with a haven): the client opens with [m0]; after that the two
    applications call [send_to] and [recv_from] in any order that two bounded
    first-in first-out queues allow.  The handshake, the session tasks and the
    relay can follow: every call returns what the queues say, so every message
    arrives, once, unchanged, in order and with the sender's endpoint. *)
Theorem haven_conversation m0 l ch st0 :
  talk_ready m0 st0 → Forall act_fits l →
  (N.of_nat (S (length l)) < u64_modulus)%N →
  chat_run (chan_cap (dec_queue c0)) (chan_cap (dec_queue s0)) (Says AtClient m0 :: l) (mkChat [] []) =
    Some ch →
  ∃ w ss nc ns, talk (Says AtClient m0 :: l) (mkWorld c0 st0 s0) w ∧
    established ss nc ns (to_client ch) (to_server ch) w.
Proof. apply conversation_follows. Qed.

(** The test [haven] passes, and leaves nothing queued. *)
Theorem haven_test_passes alice_msg derek_msg st0 :
  talk_ready alice_msg st0 → sealable derek_msg →
  (0 < chan_cap (dec_queue c0))%N → (0 < chan_cap (dec_queue s0))%N →
  ∃ w ss nc ns, talk (haven_test alice_msg derek_msg) (mkWorld c0 st0 s0) w ∧
    established ss nc ns [] [] w.
Proof.
  intros Hr Hs Hc Hsv. apply (conversation_follows alice_msg _ (mkChat [] []) st0 Hr).
  - repeat constructor; done.
  - done.
  - apply N.ltb_lt in Hc, Hsv. cbn -[N.ltb]. unfold said. cbn -[N.ltb].
    change (N.of_nat 0) with 0%N. rewrite Hsv. cbn -[N.ltb]. rewrite decide_True by done.
    cbn -[N.ltb]. change (N.of_nat 0) with 0%N. rewrite Hc. cbn. by rewrite decide_True.
Qed.

End talk.

End Conversation.

(** * Witness *)

(** A cache without a capacity keeps its entries within their time to live. *)
Lemma unbounded_remembers {MK : Moka} {MKL : MokaLaws MK} {K} `{Countable K} ttl now (k : K) l c :
  moka_unbounded ttl c → (0 < ttl)%N → moka_contains now k c = true →
  moka_contains now k (foldl (λ c k, moka_insert now k () c) c l) = true.
Proof.
  revert c. induction l as [|k' l IH]; intros c Hu Ht Hc; [done|]. cbn. apply IH; [|done|].
  - by apply moka_insert_unbounded.
  - unfold moka_contains in *. apply bool_decide_eq_true in Hc. apply bool_decide_eq_true.
    destruct (decide (k' = k)) as [->|Hne].
    + rewrite (moka_insert_live ttl) by (done || lia). eauto.
    + by rewrite (moka_insert_other ttl) by (done || lia).
Qed.

Lemma hn_talk_ready : talk_ready (P:=toy) 1005%N (sample_fp x09) hn_client hn_server [x68] hn_relay.
Proof.
  split; [exact hn_ready|reflexivity|reflexivity|].
  intros l _. apply (unbounded_remembers SEEN_IDLE); [|done|].
  - apply moka_insert_unbounded. by rewrite hn_relay_seen.
  - unfold moka_contains. rewrite (cr_relay_keeps _ _ _ _ _ _ hn_ready). done.
Qed.

(** The haven answers before it reads, both read, and the client goes on. *)
Definition hn_script : list act :=
  [Says AtServer [x69]; Hears AtServer [x68]; Says AtServer [x6a]; Hears AtClient [x69];
   Says AtClient [x6b]; Says AtClient [x6c]; Hears AtServer [x6b]].

Lemma haven_conversation_witness :
  ∃ w ss nc ns,
    talk (P:=toy) (λ _, []) 1005%N (sample_fp x09) hn_client hn_server (Says AtClient [x68] :: hn_script)
      (mkWorld hn_client hn_relay hn_server) w ∧
    established (P:=toy) 1005%N hn_client hn_server ss nc ns [[x6a]] [[x6c]] w.
Proof.
  apply (haven_conversation (P:=toy) (λ _, []) 1005%N (sample_fp x09) hn_client hn_server [x68]
    hn_script (mkChat [[x6a]] [[x6c]]) hn_relay hn_talk_ready).
  - repeat constructor; discriminate.
  - reflexivity.
  - reflexivity.
Defined.

Lemma haven_test_passes_witness :
  ∃ w ss nc ns,
    talk (P:=toy) (λ _, []) 1005%N (sample_fp x09) hn_client hn_server (haven_test [x68] [x69])
      (mkWorld hn_client hn_relay hn_server) w ∧
    established (P:=toy) 1005%N hn_client hn_server ss nc ns [] [] w.
Proof.
  apply (haven_test_passes (P:=toy) (λ _, []) 1005%N (sample_fp x09) hn_client hn_server [x68] [x69]
    hn_relay hn_talk_ready); [discriminate|reflexivity..].
Defined.
