(* ===== verification/Text.v ===== *)
(** Text: [Display] and [FromStr] of [Endpoint] in [src/socket.rs], with what they
    use of the standard library ([str::split], [u32]'s [Display] and [FromStr],
    [String::from_utf8_lossy]).

    [Base32Laws] is the documented behaviour of the base32 crate: Crockford
    decoding ignores case, the alphabet has only digits and letters, and there
    are at least as many characters as bytes. *)

From Stdlib Require Import String Ascii.
From S2P Require Import Prelude Interfaces Crypto Packet Daemon Instances.
Close Scope string_scope.

(** * The standard library *)

(** [str::split] on a character: always at least one piece. *)
Fixpoint split_on (c : ascii) (s : string) : list string :=
  match s with
  | EmptyString => [EmptyString]
  | String a s =>
      if (a =? c)%char then EmptyString :: split_on c s
      else match split_on c s with
           | [] => [String a EmptyString]
           | piece :: rest => String a piece :: rest
           end
  end.

Fixpoint in_string (c : ascii) (s : string) : Prop :=
  match s with
  | EmptyString => False
  | String a s => a = c ∨ in_string c s
  end.

Definition digit (n : N) : ascii := ascii_of_N (48 + n).

Definition digit_value (c : ascii) : option N :=
  let n := N_of_ascii c in
  if (48 <=? n)%N && (n <=? 57)%N then Some (n - 48)%N else None.

(** [Display for u32]: at most ten digits. *)
Fixpoint dec_digits (fuel : nat) (n : N) (acc : string) : string :=
  match fuel with
  | O => acc
  | S fuel =>
      let acc := String (digit (n mod 10)) acc in
      if (n <? 10)%N then acc else dec_digits fuel (n / 10) acc
  end.

Definition u32_to_string (n : N) : string := dec_digits 10 n EmptyString.

Inductive ParseIntError := EmptyInt | InvalidDigit | PosOverflow.

Fixpoint parse_digits (acc : N) (s : string) : outcome ParseIntError N :=
  match s with
  | EmptyString => Ok acc
  | String c s =>
      d ← ok_or InvalidDigit (digit_value c);
      if (2 ^ 32 <=? acc * 10 + d)%N then Err PosOverflow else parse_digits (acc * 10 + d) s
  end.

(** [u32::from_str]: a sign [+] may come before the digits. *)
Definition u32_from_str (s : string) : outcome ParseIntError N :=
  match s with
  | EmptyString => Err EmptyInt
  | String c EmptyString => parse_digits 0 s
  | String c rest => if (c =? "+")%char then parse_digits 0 rest else parse_digits 0 s
  end.

(** * Endpoints *)

Inductive EndpointParseError :=
  | WrongFormat
  | BadFingerprint (e : FingerprintParseError)
  | BadDock (e : ParseIntError).

Section Text.
  Context {P : Primitives}.

Definition Endpoint_to_string (self : Endpoint) : string :=
  (Fingerprint_to_string (ep_fingerprint self) ++ String ":" (u32_to_string (ep_dock self)))%string.

Definition Endpoint_from_str (s : string) : outcome EndpointParseError Endpoint :=
  match split_on ":" s with
  | [fp; dock] =>
      fp ← map_err BadFingerprint (Fingerprint_from_str fp);
      dock ← map_err BadDock (u32_from_str dock);
      Ok (Endpoint_new fp dock)
  | _ => Err WrongFormat
  end.

Class Base32Laws : Prop := {
  base32_roundtrip (b : list byte) : base32_decode (to_lowercase (base32_encode b)) = Some b;
  base32_alphabet (b : list byte) (c : ascii) : in_string c (base32_encode b) →
    let n := N_of_ascii c in (48 <= n)%N ∧ (n <= 57)%N ∨ (65 <= n)%N ∧ (n <= 90)%N ∨
                             (97 <= n)%N ∧ (n <= 122)%N;
  base32_length (b : list byte) : length b ≤ String.length (base32_encode b)
}.

(** * Properties *)

Lemma split_on_nonempty c s : split_on c s ≠ [].
Proof. destruct s; cbn; [done|]. destruct (_ =? _)%char; [done|]. by destruct (split_on c s). Qed.

Lemma split_on_absent c s : ¬ in_string c s → split_on c s = [s].
Proof.
  induction s as [|a s IH]; [done|]. cbn [split_on in_string]. intros Hn.
  destruct (Ascii.eqb_spec a c); [tauto|]. by rewrite IH by tauto.
Qed.

Lemma split_on_app c s1 s2 :
  ¬ in_string c s1 → split_on c (s1 ++ String c s2)%string = s1 :: split_on c s2.
Proof.
  induction s1 as [|a s1 IH]; intros Hn.
  - change ("" ++ String c s2)%string with (String c s2). cbn [split_on]. by rewrite Ascii.eqb_refl.
  - change (String a s1 ++ String c s2)%string with (String a (s1 ++ String c s2))%string.
    cbn [split_on in_string] in *. destruct (Ascii.eqb_spec a c); [tauto|]. by rewrite IH by tauto.
Qed.

Lemma digit_value_digit n : (n < 10)%N → digit_value (digit n) = Some n.
Proof.
  intros Hn. unfold digit_value, digit. rewrite N_ascii_embedding by lia.
  assert ((48 <=? 48 + n)%N = true) as -> by (apply N.leb_le; lia).
  assert ((48 + n <=? 57)%N = true) as -> by (apply N.leb_le; lia). cbn. f_equal. lia.
Qed.

Lemma parse_dec_digits fuel n acc :
  (n < 10 ^ N.of_nat fuel)%N → (0 < fuel) → (n < 2 ^ 32)%N →
  parse_digits 0 (dec_digits fuel n acc) = parse_digits n acc.
Proof.
  revert n acc. induction fuel as [|fuel IH]; intros n acc Hn Hf Hb; [lia|]. cbn [dec_digits].
  destruct (n <? 10)%N eqn:Hlt.
  - apply N.ltb_lt in Hlt. rewrite N.mod_small by done. cbn [parse_digits].
    rewrite digit_value_digit by done. cbn [ok_or mbind outcome_bind].
    rewrite N.mul_0_l, N.add_0_l.
    destruct (2 ^ 32 <=? n)%N eqn:E; [apply N.leb_le in E; lia|done].
  - apply N.ltb_ge in Hlt.
    assert (n / 10 < 10 ^ N.of_nat fuel)%N.
    { apply N.Div0.div_lt_upper_bound. rewrite Nat2N.inj_succ, N.pow_succ_r' in Hn. lia. }
    assert (1 <= n / 10)%N by (apply N.div_le_lower_bound; lia).
    assert (0 < fuel) by (destruct fuel; [cbn in *; lia|lia]).
    rewrite IH; [|done..|pose proof (N.Div0.div_le_upper_bound n 10 n); lia].
    cbn [parse_digits]. rewrite digit_value_digit by (apply N.mod_upper_bound; lia). cbn [ok_or mbind outcome_bind].
    assert (n / 10 * 10 + n mod 10 = n)%N as -> by (pose proof (N.div_mod n 10); lia).
    destruct (2 ^ 32 <=? n)%N eqn:E; [apply N.leb_le in E; lia|done].
Qed.

Lemma u32_roundtrip n : (n < 2 ^ 32)%N → u32_from_str (u32_to_string n) = Ok n.
Proof.
  intros Hn.
  assert (parse_digits 0 (u32_to_string n) = Ok n) as Hp by (apply parse_dec_digits; [lia..|done]).
  unfold u32_to_string in *. cbn [dec_digits] in *.
  (* the first character is a digit, not a sign *)
  assert (∀ fuel m acc c s, dec_digits fuel m (String c acc) = s →
    (∃ k, c = digit k ∧ (k < 10)%N) → ∃ k s', s = String (digit k) s' ∧ (k < 10)%N) as Hdig.
  { induction fuel as [|fuel IH]; intros m acc c s <- (k & -> & Hk); cbn; [eauto|].
    assert (m mod 10 < 10)%N by (apply N.mod_upper_bound; lia).
    destruct (m <? 10)%N; [eauto|]. eapply IH; eauto. }
  assert (n mod 10 < 10)%N by (apply N.mod_upper_bound; lia).
  destruct (if (n <? 10)%N then _ else _) as [|c s] eqn:Hs.
  { destruct (n <? 10)%N; [done|]. destruct (Hdig 9 _ _ _ _ Hs) as (? & ? & ? & _); eauto; done. }
  assert (∃ k, c = digit k ∧ (k < 10)%N) as (k & -> & Hk).
  { destruct (n <? 10)%N; [injection Hs as <- <-; eauto|].
    destruct (Hdig 9 _ _ _ _ Hs) as (k & s' & [= -> ->] & ?); eauto. }
  cbn [u32_from_str]. destruct s; [done|].
  destruct (Ascii.eqb_spec (digit k) "+"); [|done].
  pose proof (digit_value_digit k Hk) as Hd. by rewrite e in Hd.
Qed.

Lemma u32_no_colon n : ¬ in_string ":" (u32_to_string n).
Proof.
  unfold u32_to_string.
  assert (∀ fuel m acc, ¬ in_string ":" acc → ¬ in_string ":" (dec_digits fuel m acc)) as H.
  { induction fuel as [|fuel IH]; intros m acc Ha; [done|]. cbn.
    assert (¬ in_string ":" (String (digit (m mod 10)) acc)) as Hc.
    { cbn. intros [Hd|]; [|done]. assert (m mod 10 < 10)%N as Hm by (apply N.mod_upper_bound; lia).
      pose proof (digit_value_digit _ Hm) as Hv. by rewrite Hd in Hv. }
    destruct (m <? 10)%N; [done|]. by apply IH. }
  apply H. by intros [].
Qed.

Lemma in_lowercase c s : in_string c (to_lowercase s) → ∃ a, c = ascii_lower a ∧ in_string a s.
Proof.
  induction s as [|a s IH]; cbn; [done|]. intros [<-|(b & -> & Hb)%IH]; eauto.
Qed.

Lemma length_to_lowercase s : String.length (to_lowercase s) = String.length s.
Proof. induction s as [|c s IH]; cbn; auto. Qed.

Section laws.
  Context {BL : Base32Laws}.

(** A printed fingerprint has only digits and lower-case letters. *)
Lemma fingerprint_alphabet fp c :
  in_string c (Fingerprint_to_string fp) →
  let n := N_of_ascii c in (48 <= n)%N ∧ (n <= 57)%N ∨ (97 <= n)%N ∧ (n <= 122)%N.
Proof.
  intros (a & -> & Hin)%in_lowercase. apply base32_alphabet in Hin. cbn in Hin. unfold ascii_lower.
  destruct ((65 <=? N_of_ascii a)%N && (N_of_ascii a <=? 90)%N) eqn:E.
  - apply andb_prop in E as [E1%N.leb_le E2%N.leb_le]. cbv zeta. rewrite N_ascii_embedding; lia.
  - apply andb_false_iff in E as [E%N.leb_gt|E%N.leb_gt]; cbv zeta; lia.
Qed.

Lemma fingerprint_no_colon fp : ¬ in_string ":" (Fingerprint_to_string fp).
Proof. intros H%fingerprint_alphabet. cbn in H. lia. Qed.

Lemma fingerprint_roundtrip fp : Fingerprint_from_str (Fingerprint_to_string fp) = Ok fp.
Proof.
  unfold Fingerprint_from_str, Fingerprint_to_string. rewrite base32_roundtrip. cbn.
  by rewrite try_into_bytes.
Qed.

Lemma endpoint_parse_print ep :
  (ep_dock ep < 2 ^ 32)%N → Endpoint_from_str (Endpoint_to_string ep) = Ok ep.
Proof.
  intros Hd. unfold Endpoint_from_str, Endpoint_to_string.
  rewrite split_on_app by apply fingerprint_no_colon. rewrite split_on_absent by apply u32_no_colon.
  rewrite fingerprint_roundtrip. cbn [map_err mbind outcome_bind].
  rewrite u32_roundtrip by done. cbn. by destruct ep.
Qed.

(** C37 (endpoints as text): what an endpoint prints is parsed back to it, for every
    fingerprint and dock; and a text with no colon, or with more than one, is
    refused. *)
Theorem endpoint_roundtrip ep :
  (ep_dock ep < 2 ^ 32)%N →
  Endpoint_from_str (Endpoint_to_string ep) = Ok ep ∧
  ∀ s, length (split_on ":" s) ≠ 2 → Endpoint_from_str s = Err WrongFormat.
Proof.
  intros Hd. split; [by apply endpoint_parse_print|].
  intros s Hs. unfold Endpoint_from_str. by destruct (split_on ":" s) as [|a [|b [|c l]]].
Qed.

End laws.
End Text.

(** * Witnesses *)

Lemma toy_decode_byte b s :
  toy_base32_decode (to_lowercase (toy_base32_encode (b :: s))) =
  l ← toy_base32_decode (to_lowercase (toy_base32_encode s)); Some (b :: l).
Proof. destruct b; reflexivity. Qed.

Lemma toy_digit_alphabet b c :
  c = hex_digit (Byte.to_N b / 16) ∨ c = hex_digit (Byte.to_N b mod 16) →
  let n := N_of_ascii c in (48 <= n)%N ∧ (n <= 57)%N ∨ (65 <= n)%N ∧ (n <= 90)%N ∨
                           (97 <= n)%N ∧ (n <= 122)%N.
Proof.
  assert (∀ k, (k < 16)%N → let n := N_of_ascii (hex_digit k) in
    (48 <= n)%N ∧ (n <= 57)%N ∨ (65 <= n)%N ∧ (n <= 90)%N ∨ (97 <= n)%N ∧ (n <= 122)%N) as H.
  { intros k Hk. unfold hex_digit. destruct (k <? 10)%N eqn:E;
      [apply N.ltb_lt in E|apply N.ltb_ge in E]; cbv zeta; rewrite N_ascii_embedding by lia; lia. }
  pose proof (Byte.to_N_bounded b). intros [->| ->]; apply H.
  - apply N.Div0.div_lt_upper_bound. lia.
  - apply N.mod_upper_bound. lia.
Qed.

#[export] Instance toy_base32_laws : Base32Laws (P:=toy).
Proof.
  split.
  - intros b. cbn [base32_decode base32_encode toy]. induction b as [|x b IH]; [reflexivity|].
    rewrite toy_decode_byte, IH. reflexivity.
  - intros b c. cbn [base32_encode toy]. induction b as [|x b IH]; cbn [toy_base32_encode in_string];
      [intros []|].
    intros [<-|[<-|Hin]]; [apply (toy_digit_alphabet x); auto..|auto].
  - intros b. cbn [base32_encode toy]. induction b as [|x b IH]; [done|].
    cbn [toy_base32_encode String.length length]. lia.
Qed.

Lemma endpoint_roundtrip_witness :
  Endpoint_from_str (P:=toy) (Endpoint_to_string (P:=toy) (Endpoint_new (zeros 20) 100002%N)) =
  Ok (Endpoint_new (zeros 20) 100002%N).
Proof.
  apply (endpoint_roundtrip (P:=toy) (Endpoint_new (zeros 20) 100002%N)). reflexivity.
Defined.
