(* ===== verification/Proxy.v ===== *)
(** Entering and leaving the network: the request handling of
    [src/daemon/socks5.rs] and the address frame that [simple_proxy] of
    [src/haven_util.rs] reads, with [String::from_utf8_lossy] of the standard
    library.  The copying of bytes between the two streams is I/O. *)

From Stdlib Require Import String Ascii.
From S2P Require Import Prelude Interfaces Crypto Packet Daemon Text Instances.
Close Scope string_scope.

(** * UTF-8 *)

Definition in_range (lo hi : N) (b : byte) : bool :=
  ((lo <=? Byte.to_N b) && (Byte.to_N b <=? hi))%N.

Definition continuation (b : byte) : bool := in_range 128 191 b.

(** Which second bytes a leading byte of three or four allows. *)
Definition second_ok (first : byte) (b : byte) : bool :=
  let n := Byte.to_N first in
  if (n =? 224)%N then in_range 160 191 b
  else if (n =? 237)%N then in_range 128 159 b
  else if (n =? 240)%N then in_range 144 191 b
  else if (n =? 244)%N then in_range 128 143 b
  else continuation b.

(** The character at the front: whether it is well formed, and how many bytes
    it takes; otherwise the length of the longest well-formed beginning. *)
Definition utf8_step (l : list byte) : bool * nat :=
  match l with
  | [] => (false, 1)
  | b :: rest =>
      if in_range 0 127 b then (true, 1)
      else if in_range 194 223 b then
        match rest with
        | b1 :: _ => if continuation b1 then (true, 2) else (false, 1)
        | [] => (false, 1)
        end
      else if in_range 224 239 b then
        match rest with
        | b1 :: rest =>
            if second_ok b b1 then
              match rest with
              | b2 :: _ => if continuation b2 then (true, 3) else (false, 2)
              | [] => (false, 2)
              end
            else (false, 1)
        | [] => (false, 1)
        end
      else if in_range 240 244 b then
        match rest with
        | b1 :: rest =>
            if second_ok b b1 then
              match rest with
              | b2 :: rest =>
                  if continuation b2 then
                    match rest with
                    | b3 :: _ => if continuation b3 then (true, 4) else (false, 3)
                    | [] => (false, 3)
                    end
                  else (false, 2)
              | [] => (false, 2)
              end
            else (false, 1)
        | [] => (false, 1)
        end
      else (false, 1)
  end.

(** U+FFFD. *)
Definition REPLACEMENT : list byte := [xef; xbf; xbd].

Fixpoint lossy_loop (fuel : nat) (l : list byte) : list byte :=
  match fuel, l with
  | O, _ | _, [] => []
  | S fuel, _ =>
      let '(ok, k) := utf8_step l in
      (if ok then take k l else REPLACEMENT) ++ lossy_loop fuel (drop k l)
  end.

Definition from_utf8_lossy (l : list byte) : list byte := lossy_loop (length l) l.

(** * Requests *)

Inductive SocksV5Host :=
  | Domain (name : list byte)
  | Ipv4 (a : array 4)
  | Ipv6 (a : array 16).

Inductive Fallback :=
  | Block
  | PassThrough
  | SimpleProxy (remote : Endpoint).

Inductive SocksError := Ipv6NotSupported | BadHavenName (e : FingerprintParseError) | WriteFailed.

(** What the worker does once the request is read. *)
Inductive SocksAction :=
  | ConnectHaven (ep : Endpoint)
  | DoNothing
  | ConnectDirectly (addr : list byte)
  | ConnectThrough (remote : Endpoint) (prefix : list byte).

Section Proxy.
  Context {P : Primitives}.

(** [Ipv4Addr::to_string]. *)
Definition ipv4_to_string (a : array 4) : list byte :=
  concat (zip_with (λ (sep : list byte) (b : byte), sep ++ bytes_of (u32_to_string (Byte.to_N b)))
            [[]; [x2e]; [x2e]; [x2e]] a).

Definition request_domain (host : SocksV5Host) : outcome SocksError (list byte) :=
  match host with
  | Domain dom => Ok (from_utf8_lossy dom)
  | Ipv4 a => Ok (ipv4_to_string a)
  | Ipv6 _ => Err Ipv6NotSupported
  end.

(** [format!("{domain}:{port}")]. *)
Definition request_addr (domain : list byte) (port : N) : list byte :=
  domain ++ [x3a] ++ bytes_of (u32_to_string port).

(** [(addr.len() as u16).to_be_bytes()]. *)
Definition addr_len (addr : list byte) : list byte := be_bytes 2 (N.of_nat (length addr) mod 65536).

(** [AsyncWriteExt::write]: how many bytes of the buffer the stream takes, or an
    error.  The count is not looked at. *)
Definition write_some (count : option nat) (buf : list byte) : outcome SocksError (list byte) :=
  match count with Some n => Ok (take n buf) | None => Err WriteFailed end.

(** [count k buf] is what the [k]-th call of [write] returns. *)
Definition socks5_once (count : nat → list byte → option nat) (host : SocksV5Host) (port : N)
    (fallback : Fallback) : outcome SocksError SocksAction :=
  domain ← request_domain host;
  let addr := request_addr domain port in
  let split_domain := split_on "." (string_of_list_byte domain) in
  match last split_domain with
  | Some top =>
      if (top =? "haven")%string then
        fp ← map_err BadHavenName (Fingerprint_from_str (default EmptyString (head split_domain)));
        Ok (ConnectHaven (Endpoint_new fp port))
      else
        match fallback with
        | Block => Ok DoNothing
        | PassThrough => Ok (ConnectDirectly addr)
        | SimpleProxy remote =>
            let prepend := addr_len addr in
            w0 ← write_some (count 0 prepend) prepend;
            w1 ← write_some (count 1 addr) addr;
            Ok (ConnectThrough remote (w0 ++ w1))
        end
  | None => Ok DoNothing
  end.

(** [simple_proxy] on the bytes of an accepted stream: the address to connect to
    and the bytes that are left to copy; [None] while more are awaited. *)
Definition simple_proxy (stream : list byte) : option (list byte * list byte) :=
  len_buf ← try_into 2 (take 2 stream);
  let len := N.to_nat (from_be (array_bytes len_buf)) in
  let rest := drop 2 stream in
  if length rest <? len then None
  else Some (from_utf8_lossy (take len rest), drop len rest).

(** * Properties *)

(** Well-formed text: a sequence of characters. *)
Inductive utf8 : list byte → Prop :=
  | utf8_nil : utf8 []
  | utf8_cons c l : (∀ r, utf8_step (c ++ r) = (true, length c)) → utf8 l → utf8 (c ++ l).

Lemma utf8_app a b : utf8 a → utf8 b → utf8 (a ++ b).
Proof. induction 1; intros Hb; [done|]. rewrite <-app_assoc. constructor; auto. Qed.

Lemma utf8_step_bounds l ok k : utf8_step l = (ok, k) → 1 ≤ k ∧ k ≤ 4.
Proof.
  unfold utf8_step. intros H.
  repeat match type of H with
  | context [match ?x with _ => _ end] => destruct x
  end; injection H as <- <-; lia.
Qed.

(** Whether the front is a character depends on that character only. *)
Lemma utf8_step_prefix l k r :
  utf8_step l = (true, k) → utf8_step (take k l ++ r) = (true, length (take k l)).
Proof.
  unfold utf8_step. destruct l as [|b [|b1 [|b2 [|b3 l]]]]; [done|..];
  repeat match goal with
  | |- (if ?x then _ else _) = _ → _ => destruct x eqn:?
  end; try done; intros [= <-]; cbn;
  repeat match goal with H : ?x = _ |- context [?x] => rewrite H end; done.
Qed.

Lemma utf8_step_length l k : utf8_step l = (true, k) → k ≤ length l.
Proof.
  unfold utf8_step. destruct l as [|b [|b1 [|b2 [|b3 l]]]]; [done|..];
  repeat match goal with
  | |- (if ?x then _ else _) = _ → _ => destruct x
  end; try done; intros [= <-]; cbn; lia.
Qed.

Lemma utf8_replacement r : utf8_step (REPLACEMENT ++ r) = (true, 3).
Proof. reflexivity. Qed.

Lemma lossy_loop_utf8 fuel l : utf8 (lossy_loop fuel l).
Proof.
  revert l. induction fuel as [|fuel IH]; intros l; [constructor|]. cbn [lossy_loop].
  destruct l as [|b l]; [constructor|]. set (l0 := b :: l).
  destruct (utf8_step l0) as [[] k] eqn:E; constructor; [|done|apply utf8_replacement|done].
  intros r. by apply utf8_step_prefix.
Qed.

Lemma lossy_loop_id fuel l : utf8 l → length l ≤ fuel → lossy_loop fuel l = l.
Proof.
  intros H. revert fuel. induction H as [|c l Hc Hl IH]; intros fuel Hf; [by destruct fuel|].
  pose proof (Hc l) as Hs. pose proof (proj1 (utf8_step_bounds _ _ _ Hs)) as Hk.
  rewrite length_app in Hf. destruct fuel as [|fuel]; [lia|]. destruct c as [|b c]; [cbn in Hk; lia|].
  cbn [lossy_loop app]. change (b :: c ++ l) with ((b :: c) ++ l). rewrite Hs.
  rewrite take_app_length, drop_app_length, IH; [done|]. cbn in Hf. lia.
Qed.

Lemma lossy_loop_length fuel l : length (lossy_loop fuel l) ≤ 3 * length l.
Proof.
  revert l. induction fuel as [|fuel IH]; intros l; [cbn; lia|]. cbn [lossy_loop].
  destruct l as [|b l]; [cbn; lia|]. set (l0 := b :: l).
  destruct (utf8_step l0) as [ok k] eqn:E. pose proof (utf8_step_bounds _ _ _ E) as [Hk _].
  specialize (IH (drop k l0)). rewrite length_app. rewrite length_drop in IH.
  assert (1 ≤ length l0) by (cbn; lia).
  destruct ok; [rewrite length_take|change (length REPLACEMENT) with 3]; lia.
Qed.

Lemma from_utf8_lossy_id l : utf8 l → from_utf8_lossy l = l.
Proof. intros H. by apply lossy_loop_id. Qed.

Lemma utf8_ascii l : Forall (λ b, in_range 0 127 b = true) l → utf8 l.
Proof.
  induction 1 as [|b l Hb Hl IH]; [constructor|]. apply (utf8_cons [b]); [|done].
  intros r. cbn. by rewrite Hb.
Qed.

(** ** Printed numbers and fingerprints are ASCII *)

Lemma list_byte_of_string_Forall (Q : byte → Prop) s :
  (∀ c, in_string c s → Q (byte_of_ascii c)) → Forall Q (bytes_of s).
Proof.
  unfold bytes_of. induction s as [|c s IH]; intros H; [constructor|].
  change (Forall Q (byte_of_ascii c :: list_byte_of_string s)).
  constructor; [by apply H; left|]. apply IH. intros; apply H; by right.
Qed.

Lemma to_N_byte_of_ascii c : Byte.to_N (byte_of_ascii c) = N_of_ascii c.
Proof. by destruct c as [[] [] [] [] [] [] [] []]. Qed.

Lemma in_range_ascii c : (N_of_ascii c <= 127)%N → in_range 0 127 (byte_of_ascii c) = true.
Proof.
  intros H. unfold in_range. rewrite to_N_byte_of_ascii.
  apply andb_true_intro. split; apply N.leb_le; lia.
Qed.

Lemma dec_digits_ascii fuel n acc c :
  in_string c (dec_digits fuel n acc) → (N_of_ascii c <= 57)%N ∨ in_string c acc.
Proof.
  revert n acc. induction fuel as [|fuel IH]; intros n acc; cbn [dec_digits]; [auto|].
  assert (n mod 10 < 10)%N by (apply N.mod_upper_bound; lia).
  assert (in_string c (String (digit (n mod 10)) acc) → (N_of_ascii c <= 57)%N ∨ in_string c acc) as Hc.
  { cbn [in_string]. intros [<-|?]; [|auto]. left. unfold digit. rewrite N_ascii_embedding by lia. lia. }
  destruct (n <? 10)%N; [done|]. intros [?|?]%IH; auto.
Qed.

Lemma u32_ascii n : Forall (λ b, in_range 0 127 b = true) (bytes_of (u32_to_string n)).
Proof.
  apply list_byte_of_string_Forall. intros c [H|H]%dec_digits_ascii; [|done].
  apply in_range_ascii. lia.
Qed.

Lemma length_bytes_of s : length (bytes_of s) = String.length s.
Proof. unfold bytes_of. induction s as [|c s IH]; [done|]. cbn. by rewrite <-IH. Qed.

Lemma length_dec_digits fuel n acc :
  String.length (dec_digits fuel n acc) ≤ fuel + String.length acc.
Proof.
  revert n acc. induction fuel as [|fuel IH]; intros n acc; cbn [dec_digits]; [lia|].
  destruct (n <? 10)%N; [cbn; lia|]. etrans; [apply IH|]. cbn. lia.
Qed.

Lemma length_u32 n : length (bytes_of (u32_to_string n)) ≤ 10.
Proof. rewrite length_bytes_of. apply (length_dec_digits 10). Qed.

Lemma ipv4_ascii a : Forall (λ b, in_range 0 127 b = true) (ipv4_to_string a).
Proof.
  unfold ipv4_to_string. apply Forall_concat, Forall_lookup. intros i x Hx.
  apply lookup_zip_with_Some in Hx as (sep & b & -> & Hs & _). apply Forall_app. split; [|apply u32_ascii].
  destruct i as [|[|[|[|]]]]; cbn in Hs; try done; injection Hs as <-; by repeat constructor.
Qed.

Lemma length_concat_le {A} k (l : list (list A)) :
  Forall (λ x, length x ≤ k) l → length (concat l) ≤ k * length l.
Proof. induction 1; cbn; rewrite ?length_app; lia. Qed.

Lemma length_ipv4 a : length (ipv4_to_string a) ≤ 44.
Proof.
  unfold ipv4_to_string. etrans; [apply (length_concat_le 11)|].
  - apply Forall_lookup. intros i x Hx.
    apply lookup_zip_with_Some in Hx as (sep & b & -> & Hs & _).
    rewrite length_app. pose proof (length_u32 (Byte.to_N b)). assert (length sep ≤ 1); [|lia].
    destruct i as [|[|[|[|]]]]; cbn in Hs; try done; injection Hs as <-; cbn; lia.
  - rewrite length_zip_with. cbn [length]. lia.
Qed.

(** ** Theorems *)

Definition host_ok (host : SocksV5Host) : Prop :=
  match host with Domain d => length d ≤ 255 | _ => True end.

Lemma request_addr_utf8 host port domain :
  request_domain host = Ok domain → utf8 (request_addr domain port).
Proof.
  intros H. apply utf8_app.
  - destruct host as [d|a|a]; [|..|done]; injection H as <-; [apply lossy_loop_utf8|].
    apply utf8_ascii, ipv4_ascii.
  - apply utf8_ascii, Forall_cons. split; [done|apply u32_ascii].
Qed.

Lemma request_addr_length host port domain :
  host_ok host → request_domain host = Ok domain →
  (N.of_nat (length (request_addr domain port)) < 65536)%N.
Proof.
  intros Hh H. unfold request_addr. rewrite !length_app. pose proof (length_u32 port). cbn [length].
  assert (length domain ≤ 765); [|lia].
  destruct host as [d|a|a]; [|..|done]; injection H as <-.
  - etrans; [apply lossy_loop_length|]. cbn in Hh. lia.
  - etrans; [apply length_ipv4|]. lia.
Qed.

Lemma simple_proxy_frame (addr rest : list byte) :
  (N.of_nat (length addr) < 65536)%N →
  simple_proxy (addr_len addr ++ rest) =
    if length rest <? length addr then None
    else Some (from_utf8_lossy (take (length addr) rest), drop (length addr) rest).
Proof.
  intros Hlen. unfold simple_proxy, addr_len. set (pre := be_bytes 2 (N.of_nat (length addr) mod 65536)).
  assert (length pre = 2) as Hp by apply length_be_bytes.
  rewrite take_app_length', drop_app_length' by done.
  destruct (try_into_is_Some 2 pre Hp) as [a Ha]. rewrite Ha. cbn [mbind option_bind].
  apply try_into_Some in Ha. rewrite Ha. unfold pre. rewrite from_be_be_bytes.
  2: { change (256 ^ N.of_nat 2)%N with 65536%N. by apply N.mod_upper_bound. }
  by rewrite N.mod_small, Nat2N.id by lia.
Qed.

Lemma socks5_once_through count host port remote r prefix :
  socks5_once count host port (SimpleProxy remote) = Ok (ConnectThrough r prefix) →
  r = remote ∧ ∃ domain n0 n1, request_domain host = Ok domain ∧
    let addr := request_addr domain port in
    count 0 (addr_len addr) = Some n0 ∧ count 1 addr = Some n1 ∧
    prefix = take n0 (addr_len addr) ++ take n1 addr.
Proof.
  unfold socks5_once. destruct (request_domain host) as [domain| | |]; try done.
  cbn [mbind outcome_bind]. destruct (last _) as [top|]; [|done].
  destruct (top =? "haven")%string; [by destruct (Fingerprint_from_str _)|].
  destruct (count 0 _) as [n0|] eqn:H0; [|done]. cbn [write_some mbind outcome_bind].
  destruct (count 1 _) as [n1|] eqn:H1; [|done]. cbn [write_some mbind outcome_bind].
  intros [= -> <-]. split; [done|]. by exists domain, n0, n1.
Qed.

(** C32 (a request through a remote proxy): if both writes of the address frame take
    all they are given, the haven that runs the simple proxy connects to exactly
    the address and port that a program asked for and passes on everything after
    the frame unchanged, be it an IPv4 address or a name in UTF-8; of another name
    it gets the lossy form.  The counts of the writes are not looked at: if the
    second one is short, the haven takes what is missing from the payload. *)
Theorem proxy_request_delivered count host port remote r prefix :
  host_ok host → socks5_once count host port (SimpleProxy remote) = Ok (ConnectThrough r prefix) →
  r = remote ∧ ∃ domain, request_domain host = Ok domain ∧
    (∀ name, host = Domain name → utf8 name → domain = name) ∧
    let addr := request_addr domain port in
    count 0 (addr_len addr) = Some 2 →
    (count 1 addr = Some (length addr) →
       ∀ payload, simple_proxy (prefix ++ payload) = Some (addr, payload)) ∧
    (∀ n, count 1 addr = Some n → n < length addr →
       ∀ payload, simple_proxy (prefix ++ payload) =
         if length payload <? length addr - n then None
         else Some (from_utf8_lossy (take n addr ++ take (length addr - n) payload),
                    drop (length addr - n) payload)).
Proof.
  intros Hh (-> & domain & n0 & n1 & Hd & H0 & H1 & ->)%socks5_once_through. split; [done|].
  exists domain. split; [done|]. split.
  { intros name -> Hu. injection Hd as <-. by apply from_utf8_lossy_id. }
  cbv zeta in *. pose proof (request_addr_length host port domain Hh Hd) as Hlen.
  pose proof (request_addr_utf8 host port domain Hd) as Hutf.
  set (addr := request_addr domain port) in *. rewrite H0, H1. intros [= ->].
  rewrite (take_ge (addr_len addr)) by (unfold addr_len; by rewrite length_be_bytes).
  split; [intros [= ->] payload|intros n [= ->] Hn payload]; rewrite <-app_assoc, simple_proxy_frame by done.
  - rewrite firstn_all, length_app. destruct (_ <? _) eqn:E; [apply Nat.ltb_lt in E; lia|].
    rewrite take_app_length, drop_app_length. by rewrite from_utf8_lossy_id.
  - assert (length (take n addr) = n) as Ht by (rewrite length_take; lia). rewrite length_app, Ht.
    rewrite take_app_ge, drop_app_ge, Ht by lia.
    destruct (Nat.ltb_spec (n + length payload) (length addr)), (Nat.ltb_spec (length payload) (length addr - n));
      done || lia.
Qed.

Section laws.
  Context {BL : Base32Laws}.

Lemma fingerprint_ascii fp : Forall (λ b, in_range 0 127 b = true) (bytes_of (Fingerprint_to_string fp)).
Proof.
  apply list_byte_of_string_Forall. intros c Hc%fingerprint_alphabet. apply in_range_ascii.
  cbn in Hc. lia.
Qed.

Lemma bytes_of_app s1 s2 : bytes_of (s1 ++ s2)%string = bytes_of s1 ++ bytes_of s2.
Proof.
  unfold bytes_of. induction s1 as [|c s1 IH]; [done|].
  change (byte_of_ascii c :: list_byte_of_string (s1 ++ s2) =
    (byte_of_ascii c :: list_byte_of_string s1) ++ list_byte_of_string s2). by rewrite IH.
Qed.

(** Haven names: the name made of a fingerprint and [.haven] is resolved to
    that haven, at the dock with the number of the port; and with the fallback
    [Block] nothing else is ever connected to. *)
Theorem haven_names count fp port fallback :
  socks5_once count (Domain (bytes_of (Fingerprint_to_string fp ++ ".haven"))) port fallback =
    Ok (ConnectHaven (Endpoint_new fp port)) ∧
  ∀ host a, socks5_once count host port Block = Ok a → a = DoNothing ∨ ∃ ep, a = ConnectHaven ep.
Proof.
  split.
  - unfold socks5_once. cbn [request_domain mbind outcome_bind].
    rewrite from_utf8_lossy_id by (rewrite bytes_of_app; apply utf8_app; apply utf8_ascii;
      [apply fingerprint_ascii|by repeat constructor]).
    unfold bytes_of. rewrite string_of_list_byte_of_string.
    change (".haven")%string with (String "." "haven"). rewrite split_on_app.
    + cbn [split_on last head]. cbn. by rewrite fingerprint_roundtrip.
    + intros H%fingerprint_alphabet. cbn in H. lia.
  - intros host a. unfold socks5_once. destruct (request_domain host); try done. cbn [mbind outcome_bind].
    destruct (last _) as [top|]; [|intros [= <-]; by left].
    destruct (top =? "haven")%string; [|intros [= <-]; by left].
    destruct (Fingerprint_from_str _); try done. intros [= <-]. right. eauto.
Qed.

End laws.
End Proxy.

(** * Witnesses *)

Definition proxy_remote : Endpoint := Endpoint_new (zeros 20) 7%N.

Definition all_written : nat → list byte → option nat := λ _ buf, Some (length buf).

Lemma proxy_request_delivered_witness :
  ∃ prefix, socks5_once (P:=toy) all_written (Domain (bytes_of "example.org")) 80 (SimpleProxy proxy_remote) =
      Ok (ConnectThrough proxy_remote prefix) ∧
    ∀ payload, simple_proxy (prefix ++ payload) = Some (bytes_of "example.org:80", payload).
Proof.
  eexists. split; [reflexivity|].
  destruct (proxy_request_delivered (P:=toy) all_written (Domain (bytes_of "example.org")) 80 proxy_remote
    proxy_remote _ ltac:(apply Nat.leb_le; reflexivity) eq_refl) as (_ & domain & Hd & _ & H).
  injection Hd as <-. exact (proj1 (H eq_refl) eq_refl).
Defined.

Lemma haven_names_witness :
  socks5_once (P:=toy) all_written
    (Domain (bytes_of (Fingerprint_to_string (P:=toy) (zeros 20) ++ ".haven"))) 80 Block =
    Ok (ConnectHaven (Endpoint_new (zeros 20) 80%N)).
Proof. exact (proj1 (haven_names (P:=toy) all_written (zeros 20) 80 Block)). Defined.
