(* ===== verification/Config.v ===== *)
(** The configuration: [src/config.rs].

    The types of the configuration file (its YAML form is serde's), and
    [Identity::actualize], which reads or creates an identity file.  The file
    system is a map from paths to contents; whether a path can be read or
    written is up to the operating system. *)

From S2P Require Import Prelude Interfaces Crypto Packet Daemon Proxy Text Instances.

(** [std::net::SocketAddr]. *)
Inductive IpAddr := V4 (a : array 4) | V6 (a : array 16).
Record SocketAddr := mkSocketAddr { ip : IpAddr; port : N }.

Inductive IdentityConfig :=
  | IdentitySeed (seed : list byte)
  | IdentityFile (file : list byte).

Inductive InRouteConfig := InObfsudp (listen : SocketAddr) (secret : list byte).

Inductive OutRouteConfig :=
  OutObfsudp (fingerprint : Fingerprint) (connect : SocketAddr) (cookie : array 32).

Record UdpForwardConfig := mkUdpForward { udp_listen : SocketAddr; udp_remote : Endpoint }.
Record TcpForwardConfig := mkTcpForward { tcp_listen : SocketAddr; tcp_remote : Endpoint }.
Record Socks5 := mkSocks5 { socks5_listen : SocketAddr; socks5_fallback : Fallback }.

Inductive ForwardHandler :=
  | UdpService (listen_dock : Dock) (upstream : SocketAddr)
  | TcpService (listen_dock : Dock) (upstream : SocketAddr)
  | SimpleProxyService (listen_dock : Dock).

Record HavenForwardConfig := mkHavenForward {
  hf_identity : IdentityConfig;
  hf_rendezvous : Fingerprint;
  handler : ForwardHandler
}.

(** The maps of routes are ordered by name. *)
Record ConfigFile := mkConfigFile {
  cf_identity : option IdentityConfig;
  control_listen : SocketAddr;
  in_routes : list (list byte * InRouteConfig);
  out_routes : list (list byte * OutRouteConfig);
  udp_forwards : list UdpForwardConfig;
  tcp_forwards : list TcpForwardConfig;
  socks5 : option Socks5;
  havens : list HavenForwardConfig
}.

Inductive ActualizeError := WrongLength | CannotWrite.

Section Config.
  Context {P : Primitives}.

(** The file system, and the generator that new identities are drawn from. *)
Record Disk := mkDisk {
  files : gmap (list byte) (list byte);
  disk_rng : rng
}.

Section disk.
  Context (can_read can_write : list byte → bool).

(** [std::fs::read]. *)
Definition fs_read (file : list byte) (d : Disk) : option (list byte) :=
  if can_read file then files d !! file else None.

(** Opening with [create] and [write] but not [truncate], then [write_all]: the
    bytes replace the beginning of the file. *)
Definition fs_write (file data : list byte) : M Disk ActualizeError unit := λ d,
  if can_write file then
    (Ok tt, mkDisk (<[file := data ++ drop (length data) (default [] (files d !! file))]> (files d))
              (disk_rng d))
  else (Err CannotWrite, d).

(** The loop of [actualize] for a file. *)
Fixpoint actualize_file (fuel : nat) (file : list byte) : M Disk ActualizeError IdentitySecret :=
  match fuel with
  | O => lift OutOfFuel
  | S fuel =>
      d ← get_state;
      match fs_read file d with
      | Some bts =>
          bts ← lift (ok_or WrongLength (try_into 32 bts));
          mret (IdentitySecret_from_bytes bts)
      | None =>
          identity ← zoom disk_rng (λ r d, mkDisk (files d) r) IdentitySecret_generate;
          _ ← fs_write file (array_bytes (n:=32) identity);
          actualize_file fuel file
      end
  end.

(** [Identity::actualize]. *)
Definition actualize (fuel : nat) (self : IdentityConfig) : M Disk ActualizeError IdentitySecret :=
  match self with
  | IdentitySeed seed => lift (from_seed seed)
  | IdentityFile file => actualize_file fuel file
  end.

(** * Properties *)

Lemma actualize_file_existing fuel file d bts :
  fs_read file d = Some bts →
  actualize_file (S fuel) file d = (ok_or WrongLength (try_into 32 bts), d).
Proof.
  intros Hr. cbn [actualize_file]. unfold mbind, M_bind, get_state. rewrite Hr.
  unfold lift. by destruct (try_into 32 bts).
Qed.

(** C38 (identity files): for a file that can be read and written, [actualize] finishes
    within two rounds.  A missing file is created with a fresh identity, which
    every later call returns; a file of 32 bytes is the identity; any other
    file is refused; an existing file is never changed. *)
Theorem identity_file_stable fuel file d :
  can_read file = true → can_write file = true →
  match files d !! file with
  | None => ∃ id d', actualize (2 + fuel) (IdentityFile file) d = (Ok id, d') ∧
      files d' = <[file := array_bytes id]> (files d) ∧
      ∀ fuel', actualize (1 + fuel') (IdentityFile file) d' = (Ok id, d')
  | Some bts => actualize (1 + fuel) (IdentityFile file) d = (ok_or WrongLength (try_into 32 bts), d)
  end.
Proof.
  intros Hr Hw. destruct (files d !! file) as [bts|] eqn:Hf.
  { apply actualize_file_existing. unfold fs_read. by rewrite Hr. }
  destruct (fill_bytes 32 (disk_rng d)) as [id r] eqn:Hgen.
  set (d' := mkDisk (<[file := array_bytes id]> (files d)) r).
  assert (∀ fuel', actualize_file (S fuel') file d' = (Ok id, d')) as Hdone.
  { intros fuel'. rewrite (actualize_file_existing _ _ _ id).
    - by rewrite try_into_bytes.
    - unfold fs_read. rewrite Hr. apply lookup_insert_eq. }
  exists id, d'. split_and!; [|done|apply Hdone].
  change (actualize_file (S (S fuel)) file d = (Ok id, d')). rewrite <-(Hdone fuel).
  cbn [actualize_file]. unfold mbind at 1, M_bind at 1, get_state at 1.
  unfold fs_read at 1. rewrite Hr, Hf. unfold mbind at 1, M_bind at 1, zoom, IdentitySecret_generate, sample.
  rewrite Hgen. unfold mbind at 1, M_bind at 1, fs_write. rewrite Hw. cbn [files disk_rng].
  rewrite Hf. cbn [default from_option]. rewrite drop_nil, app_nil_r. fold d'. done.
Qed.

(** An unreadable identity file: when the file exists but cannot be read while it
    can be written, [actualize] never returns, and its first round overwrites
    the identity in the file with a new one. *)
Theorem unreadable_identity_lost fuel file d :
  can_read file = false → can_write file = true →
  (actualize (1 + fuel) (IdentityFile file) d).1 = OutOfFuel ∧
  ∀ old : IdentitySecret, files d !! file = Some (array_bytes old) →
    files (actualize 1 (IdentityFile file) d).2 !! file =
      Some (array_bytes (fill_bytes 32 (disk_rng d)).1).
Proof.
  intros Hr Hw.
  assert (∀ fuel d, (actualize_file fuel file d).1 = OutOfFuel) as Hloop.
  { clear fuel d. induction fuel as [|fuel IH]; intros d; [done|]. cbn [actualize_file].
    unfold mbind, M_bind, get_state, fs_read, zoom, IdentitySecret_generate, sample, fs_write.
    rewrite Hr. destruct (fill_bytes 32 (disk_rng d)). rewrite Hw. apply IH. }
  split; [apply Hloop|]. intros old Hold. cbn [actualize actualize_file].
  unfold mbind, M_bind, get_state, fs_read, zoom, IdentitySecret_generate, sample, fs_write.
  rewrite Hr. destruct (fill_bytes 32 (disk_rng d)) as [newid r]. rewrite Hw. cbn [files lift snd fst].
  rewrite lookup_insert_eq, Hold. cbn [default from_option id]. f_equal.
  rewrite drop_ge; [apply app_nil_r|]. by rewrite !array_length.
Qed.

End disk.
End Config.

(** * Witnesses *)

Definition sample_disk : Disk (P:=toy) := mkDisk {[ [x6f] := zeros 32 : list byte ]} 7%N.

Lemma identity_file_stable_witness :
  ∃ id d', actualize (P:=toy) (λ _, true) (λ _, true) 2 (IdentityFile [x6b]) sample_disk = (Ok id, d') ∧
    files d' = <[ [x6b] := array_bytes id ]> (files sample_disk) ∧
    ∀ fuel', actualize (P:=toy) (λ _, true) (λ _, true) (1 + fuel') (IdentityFile [x6b]) d' = (Ok id, d').
Proof.
  exact (identity_file_stable (P:=toy) (λ _, true) (λ _, true) 0 [x6b] sample_disk eq_refl eq_refl).
Defined.

Lemma unreadable_identity_lost_witness :
  (actualize (P:=toy) (λ _, false) (λ _, true) 5 (IdentityFile [x6f]) sample_disk).1 = OutOfFuel ∧
  files (actualize (P:=toy) (λ _, false) (λ _, true) 1 (IdentityFile [x6f]) sample_disk).2 !! [x6f] =
    Some (array_bytes (fill_bytes (Primitives:=toy) 32 7%N).1).
Proof.
  destruct (unreadable_identity_lost (P:=toy) (λ _, false) (λ _, true) 4 [x6f] sample_disk eq_refl eq_refl)
    as [H1 H2]. split; [exact H1|]. exact (H2 (zeros 32) eq_refl).
Defined.
