(* ===== verification/NetAddr.v ===== *)
(** Socket addresses as text: [FromStr for SocketAddr] of the standard library's
    [net] parser, by which serde reads the addresses of a configuration
    ([DisplayFromStr]), and [Display] of IPv4 addresses.  The scope of an IPv6
    address is read but not kept. *)

From Stdlib Require Import String Ascii.
From S2P Require Import Prelude Interfaces Crypto Text Config.
Close Scope string_scope.

(** * The parser *)

Definition read_char (c : ascii) (s : string) : option string :=
  match s with
  | String a s => if (a =? c)%char then Some s else None
  | EmptyString => None
  end.

(** [char::to_digit]. *)
Definition to_digit (radix : N) (c : ascii) : option N :=
  let n := N_of_ascii c in
  let value :=
    if (48 <=? n)%N && (n <=? 57)%N then Some (n - 48)%N
    else if (97 <=? n)%N && (n <=? 122)%N then Some (n - 87)%N
    else if (65 <=? n)%N && (n <=? 90)%N then Some (n - 55)%N else None in
  d ← value; if (d <? radix)%N then Some d else None.

(** The digits at the front of a text, and what follows. *)
Fixpoint span_digits (radix : N) (s : string) : list N * string :=
  match s with
  | String c s' =>
      match to_digit radix c with
      | Some d => let '(ds, rest) := span_digits radix s' in (d :: ds, rest)
      | None => ([], s)
      end
  | EmptyString => ([], s)
  end.

Definition digits_value (radix : N) (ds : list N) : N := foldl (λ acc d, acc * radix + d)%N 0%N ds.

(** [read_number]: a number below [bound], with at most [max_digits] digits. *)
Definition read_number (radix : N) (max_digits : option nat) (allow_zero_prefix : bool) (bound : N)
    (s : string) : option (N * string) :=
  let '(ds, rest) := span_digits radix s in
  if bool_decide (ds = []) then None
  else if match max_digits with Some m => m <? length ds | None => false end then None
  else if negb allow_zero_prefix && bool_decide (head ds = Some 0%N) && (1 <? length ds) then None
  else let n := digits_value radix ds in
       if (n <? bound)%N then Some (n, rest) else None.

(** [read_separator]: the separator comes before every part but the first. *)
Definition read_separator {A} (sep : ascii) (first : bool) (inner : string → option (A * string))
    (s : string) : option (A * string) :=
  if first then inner s else s ← read_char sep s; inner s.

Fixpoint read_octets (count : nat) (first : bool) (s : string) : option (list N * string) :=
  match count with
  | O => Some ([], s)
  | S count =>
      '(d, s) ← read_separator "."%char first (read_number 10 (Some 3) false 256) s;
      '(ds, s) ← read_octets count false s;
      Some (d :: ds, s)
  end.

Definition read_ipv4_addr (s : string) : option (list N * string) := read_octets 4 true s.

(** [read_groups]: up to [count] groups of an IPv6 address, the last two of which
    may be an IPv4 address. *)
Fixpoint read_groups (count : nat) (first : bool) (s : string) : list N * bool * string :=
  match count with
  | O => ([], false, s)
  | S count =>
      let v4 := match count with
                | O => None
                | S _ => read_separator ":"%char first read_ipv4_addr s
                end in
      match v4 with
      | Some ([a; b; c; d], s) => ([a * 256 + b; c * 256 + d]%N, true, s)
      | _ =>
          match read_separator ":"%char first (read_number 16 (Some 4) true 65536) s with
          | Some (g, s) => let '(gs, v4, s) := read_groups count false s in (g :: gs, v4, s)
          | None => ([], false, s)
          end
      end
  end.

Definition read_ipv6_addr (s : string) : option (list N * string) :=
  let '(head, head_ipv4, s) := read_groups 8 true s in
  if bool_decide (length head = 8) then Some (head, s)
  else if (head_ipv4 : bool) then None
  else
    s ← read_char ":"%char s;
    s ← read_char ":"%char s;
    let '(tail, _, s) := read_groups (8 - (length head + 1)) true s in
    Some (head ++ replicate (8 - length head - length tail) 0%N ++ tail, s).

Definition read_port (s : string) : option (N * string) :=
  s ← read_char ":"%char s; read_number 10 None true 65536 s.

Definition read_scope_id (s : string) : option (N * string) :=
  s ← read_char "%"%char s; read_number 10 None true (2 ^ 32) s.

Definition read_socket_addr_v4 (s : string) : option (SocketAddr * string) :=
  '(octets, s) ← read_ipv4_addr s;
  '(port, s) ← read_port s;
  a ← try_into 4 (byte_of_N <$> octets);
  Some (mkSocketAddr (V4 a) port, s).

Definition read_socket_addr_v6 (s : string) : option (SocketAddr * string) :=
  s ← read_char "["%char s;
  '(groups, s) ← read_ipv6_addr s;
  let s := from_option snd s (read_scope_id s) in
  s ← read_char "]"%char s;
  '(port, s) ← read_port s;
  a ← try_into 16 (groups ≫= λ g, [byte_of_N (g / 256); byte_of_N g]);
  Some (mkSocketAddr (V6 a) port, s).

(** [SocketAddr::from_str]: nothing may follow the address. *)
Definition SocketAddr_from_str (s : string) : option SocketAddr :=
  '(addr, rest) ← match read_socket_addr_v4 s with
                  | Some r => Some r
                  | None => read_socket_addr_v6 s
                  end;
  match rest with EmptyString => Some addr | _ => None end.

(** [Display for Ipv4Addr]. *)
Definition octets_to_string (a b c d : N) : string :=
  (u32_to_string a ++ "." ++ u32_to_string b ++ "." ++ u32_to_string c ++ "." ++ u32_to_string d)%string.

Definition Ipv4Addr_to_string (a : array 4) : string :=
  match to_N <$> array_bytes a with
  | [a; b; c; d] => octets_to_string a b c d
  | _ => EmptyString
  end.

(** * Examples *)

Definition addr_bytes (a : SocketAddr) : list N * N :=
  (match ip a with V4 l => Byte.to_N <$> array_bytes l | V6 l => Byte.to_N <$> array_bytes l end, port a).

Example addr_v4 : addr_bytes <$> SocketAddr_from_str "127.0.0.1:18964" = Some ([127; 0; 0; 1], 18964)%N.
Proof. vm_compute. reflexivity. Qed.
Example addr_v6 : addr_bytes <$> SocketAddr_from_str "[2001:db8::ff%3]:00080" =
  Some ([32; 1; 13; 184; 0; 0; 0; 0; 0; 0; 0; 0; 0; 0; 0; 255], 80)%N.
Proof. vm_compute. reflexivity. Qed.
Example addr_v6_v4 : addr_bytes <$> SocketAddr_from_str "[::ffff:10.1.2.3]:1" =
  Some ([0; 0; 0; 0; 0; 0; 0; 0; 0; 0; 255; 255; 10; 1; 2; 3], 1)%N.
Proof. vm_compute. reflexivity. Qed.
Example addr_refused :
  omap SocketAddr_from_str ["1.2.3:4"; "1.2.3.4"; "1.2.3.256:4"; "01.2.3.4:5"; "1.2.3.4:65536"; "1.2.3.4:5 ";
    "<YOUR_IP>:19999"; "::1:80"; "[1:2:3:4:5:6:7]:8"; "localhost:80"]%string = [].
Proof. vm_compute. reflexivity. Qed.

(** * Reading back what is printed *)

(** The digits of a printed number. *)
Fixpoint dec_list (fuel : nat) (n : N) (acc : list N) : list N :=
  match fuel with
  | O => acc
  | S fuel =>
      let acc := (n mod 10)%N :: acc in
      if (n <? 10)%N then acc else dec_list fuel (n / 10) acc
  end.

Lemma to_digit_digit n : (n < 10)%N → to_digit 10 (digit n) = Some n.
Proof.
  intros Hn. unfold to_digit, digit. rewrite N_ascii_embedding by lia.
  rewrite (proj2 (N.leb_le 48 (48 + n))), (proj2 (N.leb_le (48 + n) 57)) by lia.
  cbn [andb mbind option_bind]. replace (48 + n - 48)%N with n by lia.
  by rewrite (proj2 (N.ltb_lt _ _)).
Qed.

Lemma span_dec_digits fuel n acc :
  span_digits 10 (dec_digits fuel n acc) =
  (dec_list fuel n (span_digits 10 acc).1, (span_digits 10 acc).2).
Proof.
  revert n acc. induction fuel as [|fuel IH]; intros n acc; cbn [dec_digits dec_list];
    [by destruct (span_digits 10 acc)|].
  assert (span_digits 10 (String (digit (n mod 10)) acc) =
    ((n mod 10)%N :: (span_digits 10 acc).1, (span_digits 10 acc).2)) as Hs.
  { cbn [span_digits]. rewrite to_digit_digit by (apply N.mod_upper_bound; lia).
    by destruct (span_digits 10 acc). }
  destruct (n <? 10)%N; [done|]. by rewrite IH, Hs.
Qed.

Lemma dec_digits_app fuel n acc s : (dec_digits fuel n acc ++ s)%string = dec_digits fuel n (acc ++ s).
Proof.
  revert n acc. induction fuel as [|fuel IH]; intros n acc; cbn [dec_digits]; [done|].
  destruct (n <? 10)%N; [done|]. apply IH.
Qed.

Lemma dec_list_value fuel n acc :
  (n < 10 ^ N.of_nat fuel)%N → 0 < fuel →
  foldl (λ acc d, acc * 10 + d)%N 0%N (dec_list fuel n acc) = foldl (λ acc d, acc * 10 + d)%N n acc.
Proof.
  revert n acc. induction fuel as [|fuel IH]; intros n acc Hn Hf; [lia|]. cbn [dec_list].
  destruct (n <? 10)%N eqn:Hlt.
  - apply N.ltb_lt in Hlt. rewrite N.mod_small by done. cbn. done.
  - apply N.ltb_ge in Hlt.
    assert (n / 10 < 10 ^ N.of_nat fuel)%N.
    { apply N.Div0.div_lt_upper_bound. rewrite Nat2N.inj_succ, N.pow_succ_r' in Hn. lia. }
    assert (1 <= n / 10)%N by (apply N.div_le_lower_bound; lia).
    assert (0 < fuel) by (destruct fuel; [cbn in *; lia|lia]).
    rewrite IH by done. cbn [foldl]. f_equal. pose proof (N.div_mod n 10). lia.
Qed.

Lemma dec_list_nonempty n : dec_list 10 n [] ≠ [].
Proof.
  assert (∀ fuel m acc, acc ≠ [] → dec_list fuel m acc ≠ []) as H.
  { induction fuel as [|fuel IH]; intros m acc Ha; cbn; [done|]. destruct (m <? 10)%N; [done|]. by apply IH. }
  change (dec_list 10 n []) with
    (if (n <? 10)%N then [(n mod 10)%N] else dec_list 9 (n / 10) [(n mod 10)%N]).
  destruct (n <? 10)%N; [done|]. by apply H.
Qed.

(** The text does not go on with a digit. *)
Definition stops (s : string) : Prop := span_digits 10 s = ([], s).

Lemma span_u32 n s : stops s → span_digits 10 (u32_to_string n ++ s) = (dec_list 10 n [], s).
Proof. intros Hs. unfold u32_to_string. rewrite dec_digits_app, span_dec_digits. change (EmptyString ++ s)%string with s. by rewrite Hs. Qed.

Lemma read_number_u32 n bound s :
  stops s → (n < bound)%N → (n < 10 ^ 10)%N →
  read_number 10 None true bound (u32_to_string n ++ s) = Some (n, s).
Proof.
  intros Hs Hn Hd. unfold read_number. rewrite (span_u32 n s Hs).
  rewrite bool_decide_eq_false_2 by apply dec_list_nonempty. cbn [negb andb].
  unfold digits_value. rewrite dec_list_value by (done || lia). cbn [foldl].
  by rewrite (proj2 (N.ltb_lt _ _)).
Qed.

(** An octet has at most three digits, and no zero in front. *)
Lemma octet_digits n :
  (n < 256)%N →
  (3 <? length (dec_list 10 n [])) = false ∧
  bool_decide (head (dec_list 10 n []) = Some 0%N) && (1 <? length (dec_list 10 n [])) = false.
Proof.
  intros Hn.
  assert (forallb (λ k, let l := dec_list 10 (N.of_nat k) [] in
    negb (3 <? length l) && negb (bool_decide (head l = Some 0%N) && (1 <? length l))) (seq 0 256) = true) as H
    by (vm_compute; reflexivity).
  rewrite forallb_forall in H. specialize (H (N.to_nat n)). rewrite N2Nat.id in H.
  assert (In (N.to_nat n) (seq 0 256)) as Hin by (apply in_seq; lia).
  apply H in Hin. apply andb_true_iff in Hin as [H1%negb_true_iff H2%negb_true_iff]. done.
Qed.

Lemma read_octet n s :
  stops s → (n < 256)%N → read_number 10 (Some 3) false 256 (u32_to_string n ++ s) = Some (n, s).
Proof.
  intros Hs Hn. unfold read_number. rewrite (span_u32 n s Hs).
  rewrite bool_decide_eq_false_2 by apply dec_list_nonempty.
  destruct (octet_digits n Hn) as [-> H2]. cbn [negb andb]. rewrite H2.
  unfold digits_value. rewrite dec_list_value; [|change (10 ^ N.of_nat 10)%N with 10000000000%N; lia|lia].
  cbn [foldl]. by rewrite (proj2 (N.ltb_lt _ _)).
Qed.

Lemma string_app_assoc (s t u : string) : ((s ++ t) ++ u = s ++ (t ++ u))%string.
Proof. induction s as [|c s IH]; [done|]. exact (f_equal (String c) IH). Qed.

Lemma string_app_empty (s : string) : (s ++ EmptyString)%string = s.
Proof. induction s as [|c s IH]; [done|]. exact (f_equal (String c) IH). Qed.

Lemma read_octets_string a b c d s :
  stops s → (a < 256)%N → (b < 256)%N → (c < 256)%N → (d < 256)%N →
  read_ipv4_addr (octets_to_string a b c d ++ s) = Some ([a; b; c; d], s).
Proof.
  intros Hs Ha Hb Hc Hd. unfold octets_to_string, read_ipv4_addr. rewrite !string_app_assoc.
  assert (∀ t, stops (String "." t)) as Hdot by done.
  cbn [read_octets]. unfold read_separator.
  rewrite (read_octet a) by done. cbn [mbind option_bind].
  change ("." ++ ?t)%string with (String "." t).
  cbn [read_char]. rewrite Ascii.eqb_refl. cbn [mbind option_bind].
  rewrite (read_octet b) by done. cbn [mbind option_bind].
  change ("." ++ ?t)%string with (String "." t).
  cbn [read_char]. rewrite Ascii.eqb_refl. cbn [mbind option_bind].
  rewrite (read_octet c) by done. cbn [mbind option_bind].
  change ("." ++ ?t)%string with (String "." t).
  cbn [read_char]. rewrite Ascii.eqb_refl. cbn [mbind option_bind].
  by rewrite (read_octet d).
Qed.

(** An IPv4 address with a port is read back. *)
Lemma socket_addr_v4_read a b c d p :
  (a < 256)%N → (b < 256)%N → (c < 256)%N → (d < 256)%N → (p < 65536)%N →
  ∃ addr, try_into 4 (byte_of_N <$> [a; b; c; d]) = Some addr ∧
    SocketAddr_from_str (octets_to_string a b c d ++ ":" ++ u32_to_string p) =
      Some (mkSocketAddr (V4 addr) p).
Proof.
  intros Ha Hb Hc Hd Hp. destruct (try_into_is_Some 4 (byte_of_N <$> [a; b; c; d])) as [addr Haddr]; [done|].
  exists addr. split; [done|]. unfold SocketAddr_from_str, read_socket_addr_v4.
  rewrite read_octets_string by done. cbn [mbind option_bind].
  unfold read_port. change (":" ++ ?t)%string with (String ":" t). cbn [read_char].
  rewrite Ascii.eqb_refl. cbn [mbind option_bind].
  assert (read_number 10 None true 65536 (u32_to_string p) = Some (p, EmptyString)) as Hport.
  { pose proof (read_number_u32 p 65536 EmptyString eq_refl Hp ltac:(change (10 ^ 10)%N with 10000000000%N; lia)) as H.
    by rewrite string_app_empty in H. }
  by rewrite Hport; cbn [mbind option_bind]; rewrite Haddr.
Qed.

Corollary socket_addr_read (a : array 4) p :
  (p < 65536)%N →
  SocketAddr_from_str (Ipv4Addr_to_string a ++ ":" ++ u32_to_string p) = Some (mkSocketAddr (V4 a) p).
Proof.
  intros Hp. destruct a as [l Hl]. pose proof Hl as Hlen. apply N.eqb_eq in Hlen.
  destruct l as [|a [|b [|c [|d [|? ?]]]]]; cbn in Hlen; try lia.
  destruct (socket_addr_v4_read (to_N a) (to_N b) (to_N c) (to_N d) p) as (addr & Haddr & Hr);
    [(pose proof (to_N_bounded a); pose proof (to_N_bounded b); pose proof (to_N_bounded c);
      pose proof (to_N_bounded d); lia)..|done|].
  unfold Ipv4Addr_to_string. cbn [array_bytes fmap list_fmap]. rewrite Hr. do 3 f_equal. apply array_eq.
  apply try_into_Some in Haddr. rewrite Haddr. cbn. by rewrite !byte_of_N_to_N.
Qed.
