(* ===== verification/Control.v ===== *)
(** The control protocol: the [Socket] wrapper of [src/socket.rs] and the calls of
    [src/daemon/control_protocol_impl.rs] that a local user makes of the daemon:
    binding sockets under a name, sending and receiving through them, the
    identities behind anonymous names, the endpoints of the configured havens,
    and the directory of havens.

    Sockets share the daemon's context; a haven socket carries an environment
    of its own, which a call fills with the shared context before it runs and
    reads back afterwards. *)

From Stdlib Require Import String Ascii.
From stdpp Require Import strings.
From S2P Require Import Prelude Interfaces Crypto Packet OnionRouting Topology ShortestPath.
From S2P Require Import ReplyStore NeighTable Directory Daemon Socket Dht Rendezvous.
From S2P Require Import CryptSession HavenSocket Text Proxy Config Instances.
Close Scope string_scope.

Definition ANON_CAPACITY : N := 100000.
Definition ANON_IDLE : N := 3600.

(** [SocketSendError]: the message of the session's error is the error. *)
Inductive SocketSendError :=
  | N2rSendError (e : SendMessageError)
  | HavenEncryptionError (e : SessionError).

Inductive ControlProtErr :=
  | ControlSend (e : SocketSendError)
  | ControlRecv (e : SocketRecvError)
  | NoSocket.

Section Control.
  Context {P : Primitives} {IM : IndexMap} {HI : HashIter} {C : Chan} {L : Lru} {MK : Moka}.
  Context {RF : ReplayFilter}.
  Context {SA : Stdcode AdjacencyDescriptor} {SI : Stdcode IdentityDescriptor}.
  Context {B : Bincode InnerPacket} {SL : Stdcode HavenLocator}.
  Context {SK : Stdcode (list byte * Fingerprint)} {SF : Stdcode (list byte * Endpoint)}.
  Context {SH : Stdcode Handshake} {SM : Stdcode HavenMsg}.

(** * The socket wrapper *)

Inductive InnerSocket := Haven (s : HavenSocket) | N2r (s : N2rSocket).

(** What the sockets of a daemon share. *)
Abbreviation World := (DaemonContext * RpcContext)%type.

Definition enter_haven (w : World) (s : HavenSocket) : HavenSocket :=
  set_haven_env (mkEnv w.1 w.2 (env_skt (haven_env s)) (env_decrypted (haven_env s))) s.
Definition leave_haven (s : HavenSocket) : World :=
  (env_ctx (haven_env s), env_rpc (haven_env s)).

(** [Socket::bind_n2r_internal]. *)
Definition bind_n2r_internal {E} (fuel : nat) (isk : IdentitySecret) (dock : option Dock)
    : M World E InnerSocket :=
  zoom fst (λ ctx w, (ctx, w.2)) (s ← bind fuel isk dock; mret (N2r s)).

(** [Socket::bind_haven_internal]. *)
Definition bind_haven_internal {E} (fuel : nat) (isk : IdentitySecret) (dock : option Dock)
    (rendezvous_point : option Fingerprint) : M World E InnerSocket := λ w,
  match haven_bind fuel isk dock rendezvous_point w.2 w.1 with
  | Ok s => (Ok (Haven s), leave_haven s)
  | Err e => (Err e, w)
  | Panic => (Panic, w)
  | OutOfFuel => (OutOfFuel, w)
  end.

(** [Socket::send_to]. *)
Definition socket_send_to (body : list byte) (endpoint : Endpoint)
    : M (InnerSocket * World) SocketSendError unit := λ '(self, w),
  match self with
  | N2r s => (Ok tt, (N2r (send_to body endpoint s), w))
  | Haven s =>
      let '(o, s) := haven_send_to body endpoint (enter_haven w s) in
      (map_err HavenEncryptionError o, (Haven s, leave_haven s))
  end.

(** [Socket::recv_from]: [None] while it waits. *)
Definition socket_recv_from (fuel : nat)
    : M (InnerSocket * World) SocketRecvError (option (list byte * Endpoint)) := λ '(self, w),
  match self with
  | N2r s =>
      let '(o, (ctx, s)) := recv_from fuel (w.1, s) in (o, (N2r s, (ctx, w.2)))
  | Haven s =>
      match haven_recv_from (enter_haven w s) with
      | Some (m, s) => (Ok (Some m), (Haven s, leave_haven s))
      | None => (Ok None, (self, w))
      end
  end.

(** [Socket::local_endpoint]. *)
Definition socket_local_endpoint (self : InnerSocket) : Endpoint :=
  match self with
  | Haven s => haven_local_endpoint s
  | N2r s => local_endpoint s
  end.

(** Dropping a socket drops its [BoundDock]: that of a haven socket is the one
    of its N2R socket. *)
Definition drop_inner (self : InnerSocket) (w : World) : World :=
  match self with
  | Haven s => (drop_socket (env_skt (haven_env s)) w.1, w.2)
  | N2r s => (drop_socket s w.1, w.2)
  end.

(** * Anonymous identities *)

Definition AnonIdentities : Type := moka string IdentitySecret.

Definition AnonIdentities_new : AnonIdentities := moka_new (Some ANON_CAPACITY) (Some ANON_IDLE).

Definition AnonIdentities_get (now : N) (id : string) (self : AnonIdentities)
    : IdentitySecret * AnonIdentities :=
  let pseudo_secret := blake3_hash (bytes_of id) in
  moka_get_with_idle now id (IdentitySecret_from_bytes pseudo_secret) self.

(** * The calls *)

Record ControlProtocolImpl := mkControl {
  anon_identities : AnonIdentities;
  control_sockets : imap string InnerSocket;
  control_world : World
}.

Definition ControlProtocolImpl_new (w : World) : ControlProtocolImpl :=
  mkControl AnonIdentities_new im_empty w.

Definition control_clock (self : ControlProtocolImpl) : N := clock (control_world self).1.

Definition on_world {E A} (m : M World E A) : M ControlProtocolImpl E A :=
  zoom control_world (λ w self, mkControl (anon_identities self) (control_sockets self) w) m.

(** The identity behind an optional name: the daemon's own without a name. *)
Definition identity_of {E} (anon_id : option string) : M ControlProtocolImpl E IdentitySecret := λ self,
  match anon_id with
  | Some id =>
      let '(isk, a) := AnonIdentities_get (control_clock self) id (anon_identities self) in
      (Ok isk, mkControl a (control_sockets self) (control_world self))
  | None => (Ok (global_identity (control_world self).1), self)
  end.

(** [self.sockets.insert(socket_id, socket)]: a socket that was there is dropped. *)
Definition insert_socket {E} (socket_id : string) (socket : InnerSocket)
    : M ControlProtocolImpl E unit :=
  modify (λ self, mkControl (anon_identities self) (im_insert socket_id socket (control_sockets self))
    (match im_get socket_id (control_sockets self) with
     | Some old => drop_inner old (control_world self)
     | None => control_world self
     end)).

Definition bind_n2r {E} (fuel : nat) (socket_id : string) (anon_id : option string)
    (dock : option Dock) : M ControlProtocolImpl E unit :=
  anon_id ← identity_of anon_id;
  socket ← on_world (bind_n2r_internal fuel anon_id dock);
  insert_socket socket_id socket.

Definition bind_haven {E} (fuel : nat) (socket_id : string) (anon_id : option string)
    (dock : option Dock) (rendezvous_point : option Fingerprint) : M ControlProtocolImpl E unit :=
  isk ← identity_of anon_id;
  socket ← on_world (bind_haven_internal fuel isk dock rendezvous_point);
  insert_socket socket_id socket.

Definition skt_info (skt_id : string) (self : ControlProtocolImpl) : outcome ControlProtErr Endpoint :=
  match im_get skt_id (control_sockets self) with
  | Some skt => Ok (socket_local_endpoint skt)
  | None => Err NoSocket
  end.

(** Runs a method of the socket with this name. *)
Definition with_socket {E A} (f : E → ControlProtErr) (socket_id : string)
    (m : M (InnerSocket * World) E A) : M ControlProtocolImpl ControlProtErr A := λ self,
  match im_get socket_id (control_sockets self) with
  | Some socket =>
      let '(o, (socket, w)) := m (socket, control_world self) in
      (map_err f o,
       mkControl (anon_identities self) (im_insert socket_id socket (control_sockets self)) w)
  | None => (Err NoSocket, self)
  end.

Definition send_message (socket_id : string) (destination : Endpoint) (content : list byte)
    : M ControlProtocolImpl ControlProtErr unit :=
  with_socket ControlSend socket_id (socket_send_to content destination).

Definition recv_message (fuel : nat) (socket_id : string)
    : M ControlProtocolImpl ControlProtErr (option (list byte * Endpoint)) :=
  with_socket ControlRecv socket_id (socket_recv_from fuel).

(** The requests that [insert_rendezvous] sends to the replicas. *)
Definition insert_rendezvous (locator : HavenLocator) (self : ControlProtocolImpl)
    : list (Fingerprint * HavenLocator) :=
  dht_insert (relay_graph (control_world self).1) locator.

(** [get_rendezvous]; [in_time] is whether the answers that come do so within 30
    seconds. *)
Definition get_rendezvous (net : replica_net) (in_time : bool) (fp : Fingerprint)
    : M ControlProtocolImpl DhtError (option HavenLocator) :=
  on_world (w ← get_state;
    zoom snd (λ rpc w, (w.1, rpc)) (dht_get_timeout in_time (clock w.1) (relay_graph w.1) net fp)).

(** * The endpoints of the configured havens *)

Definition handler_kind (h : ForwardHandler) : string :=
  match h with
  | UdpService _ _ => "UdpService"
  | TcpService _ _ => "TcpService"
  | SimpleProxyService _ => "SimpleProxy"
  end%string.

Definition handler_dock (h : ForwardHandler) : Dock :=
  match h with
  | UdpService listen_dock _ | TcpService listen_dock _ | SimpleProxyService listen_dock => listen_dock
  end.

(** [Result::unwrap]. *)
Definition unwrap_ok {S E F A} (m : M S E A) : M S F A := λ s,
  match m s with
  | (Ok a, s) => (Ok a, s)
  | (Err _, s) => (Panic, s)
  | (Panic, s) => (Panic, s)
  | (OutOfFuel, s) => (OutOfFuel, s)
  end.

Fixpoint havens_info {E} (can_read can_write : list byte → bool) (fuel : nat)
    (havens : list HavenForwardConfig) : M Disk E (list (string * string)) :=
  match havens with
  | [] => mret []
  | haven_cfg :: havens =>
      isk ← unwrap_ok (actualize can_read can_write fuel (hf_identity haven_cfg));
      let fp := fingerprint (public isk) in
      rest ← havens_info can_read can_write fuel havens;
      mret ((handler_kind (handler haven_cfg),
             Fingerprint_to_string fp ++ String ":" (u32_to_string (handler_dock (handler haven_cfg))))%string
            :: rest)
  end.

(** * Properties *)

Context {PL : PrimitivesLaws P} {IML : IndexMapLaws IM} {MKL : MokaLaws MK} {CL : ChanLaws C}.
Context {RFL : ReplayFilterLaws RF}.

(** ** Anonymous identities *)

Definition pseudo_identity (id : string) : IdentitySecret :=
  IdentitySecret_from_bytes (blake3_hash (bytes_of id)).

Definition anon_wf (a : AnonIdentities) : Prop :=
  ∀ id isk, moka_holds id isk a → isk = pseudo_identity id.

Lemma AnonIdentities_get_spec now id a isk a' :
  anon_wf a → AnonIdentities_get now id a = (isk, a') → isk = pseudo_identity id ∧ anon_wf a'.
Proof.
  intros Hwf. unfold AnonIdentities_get. rewrite moka_get_with_idle_insert. intros [= <- <-].
  assert (default (pseudo_identity id) (moka_get now id a) = pseudo_identity id) as Hv.
  { destruct (moka_get now id a) as [v|] eqn:Hg; [|done]. by apply moka_get_holds, Hwf in Hg. }
  split; [exact Hv|]. intros id' isk' Hh%moka_insert_holds. case_decide; [by subst|by apply Hwf].
Qed.

(** The identities a sequence of lookups returns. *)
Fixpoint anon_lookups (calls : list (N * string)) (a : AnonIdentities) : list IdentitySecret :=
  match calls with
  | [] => []
  | (now, id) :: calls =>
      let '(isk, a) := AnonIdentities_get now id a in isk :: anon_lookups calls a
  end.

(** C35 (anonymous names): the cache of anonymous identities is transparent: whatever it
    evicts or forgets, every lookup at any time returns the identity made of
    the hash of the name, so a name means the same identity for ever. *)
Theorem anon_identities_equiv calls :
  anon_lookups calls AnonIdentities_new = pseudo_identity <$> calls.*2.
Proof.
  assert (anon_wf AnonIdentities_new) as Hwf.
  { intros id isk H. by apply moka_new_holds in H. }
  revert Hwf. generalize AnonIdentities_new. induction calls as [|[now id] calls IH]; intros a Hwf; [done|].
  cbn [anon_lookups fmap list_fmap]. destruct (AnonIdentities_get now id a) as [isk a'] eqn:Hg.
  apply AnonIdentities_get_spec in Hg as [-> Hwf']; [|done]. cbn [snd]. f_equal. by apply IH.
Qed.

(** ** Binding and receiving *)

Definition set_world (w : World) (self : ControlProtocolImpl) : ControlProtocolImpl :=
  mkControl (anon_identities self) (control_sockets self) w.

(** The identity a call with this optional name uses. *)
Definition named_identity (anon_id : option string) (self : ControlProtocolImpl) : IdentitySecret :=
  from_option pseudo_identity (global_identity (control_world self).1) anon_id.

Lemma identity_of_spec {E} anon_id self :
  anon_wf (anon_identities self) →
  ∃ a, anon_wf a ∧ identity_of (E:=E) anon_id self =
    (Ok (named_identity anon_id self), mkControl a (control_sockets self) (control_world self)).
Proof.
  intros Hwf. unfold identity_of, named_identity. destruct anon_id as [id|].
  - destruct (AnonIdentities_get _ _ _) as [isk a] eqn:Hg.
    apply AnonIdentities_get_spec in Hg as [-> Ha]; [|done]. by exists a.
  - exists (anon_identities self). split; [done|]. by destruct self.
Qed.

(** What [bind_n2r] does, given the dock. *)
Lemma bind_n2r_spec {E} fuel socket_id anon_id dock self :
  anon_wf (anon_identities self) →
  let ctx := (control_world self).1 in
  let fp := fingerprint (public (named_identity anon_id self)) in
  let h := base.fresh (dom (sockets ctx)) in
  let w := (set_queues (im_insert (Endpoint_new fp dock) h (socket_recv_queues ctx))
              (<[h := chan_bounded RECV_CAPACITY]> (sockets ctx)) ctx, (control_world self).2) in
  ∃ a, anon_wf a ∧ bind_n2r (E:=E) fuel socket_id anon_id (Some dock) self =
    (Ok tt, mkControl a
      (im_insert socket_id (N2r (mkN2rSocket fp dock h [] (chan_bounded SEND_CAPACITY)))
         (control_sockets self))
      (match im_get socket_id (control_sockets self) with
       | Some old => drop_inner old w
       | None => w
       end)).
Proof.
  intros Hwf. destruct (identity_of_spec (E:=E) anon_id self Hwf) as (a & Ha & Hid).
  cbn zeta. exists a. split; [done|]. unfold bind_n2r. by rewrite (M_bind_ok _ _ _ _ _ Hid).
Qed.

(** Sockets of the control protocol: a socket bound under a new name has the
    endpoint of the named identity and the given dock, and a message the
    daemon then delivers to that endpoint is what [recv_message] returns. *)
Theorem control_bind_receive fuel self socket_id anon_id src msg b rest :
  anon_wf (anon_identities self) →
  im_get socket_id (control_sockets self) = None →
  body msg = b :: rest →
  let ep := Endpoint_new (fingerprint (public (named_identity anon_id self))) (dest_dock msg) in
  ∃ self1 ctx2 self3,
    bind_n2r (E:=PeelForwardError) fuel socket_id anon_id (Some (dest_dock msg)) self = (Ok tt, self1) ∧
    skt_info socket_id self1 = Ok ep ∧
    process_inner_pkt (IMessage msg) src (ep_fingerprint ep) (control_world self1).1 = (Ok tt, ctx2) ∧
    recv_message 2 socket_id (set_world (ctx2, (control_world self1).2) self1) =
      (Ok (Some (b, Endpoint_new src (source_dock msg))), self3).
Proof.
  intros Hwf Hnew Hbody. cbn zeta.
  destruct (bind_n2r_spec (E:=PeelForwardError) fuel socket_id anon_id (dest_dock msg) self Hwf)
    as (a & _ & Hb). cbn zeta in Hb. rewrite Hnew in Hb. revert Hb.
  set (fp := fingerprint _). set (h := base.fresh _). intros Hb.
  destruct (chan_try_send_ok (msg, src) (chan_bounded RECV_CAPACITY)) as (c & Hs & Hv & _).
  { by rewrite chan_view_bounded, chan_cap_bounded. }
  pose proof (chan_try_recv_spec c) as Hr. rewrite Hv, chan_view_bounded in Hr.
  destruct Hr as (c' & Hr & _).
  eexists _, _, _. split; [exact Hb|]. split; [|split].
  - unfold skt_info. cbn [control_sockets]. by rewrite im_get_insert, decide_True.
  - unfold process_inner_pkt, mbind, M_bind, get_state.
    cbn [fst snd control_world socket_recv_queues set_queues sockets ep_fingerprint].
    rewrite im_get_insert, decide_True, lookup_insert_eq by done. cbn. by rewrite Hs.
  - unfold recv_message, with_socket, set_world. cbn [control_sockets].
    rewrite im_get_insert, decide_True by done.
    cbn [socket_recv_from recv_from incoming_queue sockets set_queues recv_incoming control_world fst].
    rewrite lookup_insert_eq. cbn [mbind option_bind]. rewrite Hr. unfold unpack. cbn [fst snd].
    rewrite Hbody. reflexivity.
Qed.

(** Rebinding a name: when a name is bound again at the endpoint its socket already
    has, dropping the old socket unbinds the new one: [skt_info] still shows
    the endpoint, but messages for it are refused and receiving fails. *)
Theorem rebind_unbinds fuel self socket_id anon_id old src msg :
  anon_wf (anon_identities self) →
  im_get socket_id (control_sockets self) = Some old →
  let ep := Endpoint_new (fingerprint (public (named_identity anon_id self))) (dest_dock msg) in
  socket_local_endpoint old = ep →
  ∃ self1,
    bind_n2r (E:=PeelForwardError) fuel socket_id anon_id (Some (dest_dock msg)) self = (Ok tt, self1) ∧
    skt_info socket_id self1 = Ok ep ∧
    (process_inner_pkt (IMessage msg) src (ep_fingerprint ep) (control_world self1).1).1 =
      Err (NoSocketListening ep) ∧
    (recv_message 1 socket_id self1).1 = Err (ControlRecv N2rRecvError).
Proof.
  intros Hwf Hold ep Hep.
  destruct (bind_n2r_spec (E:=PeelForwardError) fuel socket_id anon_id (dest_dock msg) self Hwf)
    as (a & _ & Hb). cbn zeta in Hb. rewrite Hold in Hb. revert Hb.
  fold ep. set (h := base.fresh _). set (w := (set_queues _ _ _, _)). intros Hb.
  assert (∃ k, drop_inner old w = (set_queues (im_remove ep (socket_recv_queues w.1))
    (delete k (sockets w.1)) w.1, w.2)) as [k Hdrop].
  { destruct old as [s|s]; cbn [drop_inner socket_local_endpoint] in *; unfold drop_socket;
      [change (local_endpoint (env_skt (haven_env s))) with (haven_local_endpoint s)|];
      rewrite Hep; eauto. }
  rewrite Hdrop in Hb. eexists. split; [exact Hb|]. split; [|split].
  - unfold skt_info. cbn [control_sockets]. by rewrite im_get_insert, decide_True.
  - unfold process_inner_pkt, mbind, M_bind, get_state.
    cbn [fst snd control_world socket_recv_queues set_queues]. by rewrite im_get_remove, decide_True.
  - unfold recv_message, with_socket. cbn [control_sockets].
    rewrite im_get_insert, decide_True by done.
    cbn [socket_recv_from recv_from incoming_queue sockets set_queues recv_incoming control_world fst
      local_endpoint bound_fp bound_dock socket_recv_queues].
    assert (delete k (sockets w.1) !! h ≫= chan_try_recv = None) as ->.
    { cbn [w fst sockets set_queues]. rewrite lookup_delete. case_decide; [done|].
      rewrite lookup_insert_eq. cbn.
      pose proof (chan_try_recv_spec (chan_bounded (A:=Message * Fingerprint) RECV_CAPACITY)) as Hr.
      by rewrite chan_view_bounded in Hr. }
    case_decide as Hg; [|done]. by rewrite im_get_remove, decide_True in Hg.
Qed.

(** ** The endpoints of havens *)

Lemma unwrap_ok_inv {S E F A} (m : M S E A) s a s' :
  unwrap_ok (F:=F) m s = (Ok a, s') → m s = (Ok a, s').
Proof. unfold unwrap_ok. destruct (m s) as [[] ?]; congruence. Qed.

(** Endpoints of havens: when [havens_info] returns, it shows one line per haven,
    in order, whose text parses to the endpoint of the haven's identity and
    dock; and a haven whose identity file is refused, or cannot be written,
    aborts the daemon. *)
Theorem havens_info_endpoints {BL : Base32Laws} {E} can_read can_write fuel havens d :
  Forall (λ cfg, (handler_dock (handler cfg) < 2 ^ 32)%N) havens →
  (∀ lines d', havens_info (E:=E) can_read can_write fuel havens d = (Ok lines, d') →
    Forall2 (λ cfg line, line.1 = handler_kind (handler cfg) ∧ ∃ isk d1 d2,
      actualize can_read can_write fuel (hf_identity cfg) d1 = (Ok isk, d2) ∧
      Endpoint_from_str line.2 =
        Ok (Endpoint_new (fingerprint (public isk)) (handler_dock (handler cfg)))) havens lines) ∧
  ∀ cfg e d', actualize can_read can_write fuel (hf_identity cfg) d = (Err e, d') →
    (havens_info (E:=E) can_read can_write fuel (cfg :: havens) d).1 = Panic.
Proof.
  intros Hd. split.
  - revert d. induction Hd as [|cfg havens Hcfg Hd IH]; intros d lines d' H; cbn [havens_info] in H.
    { injection H as <- <-. constructor. }
    apply M_bind_ok_inv in H as (isk & d1 & Ha%unwrap_ok_inv & H).
    apply M_bind_ok_inv in H as (rest & d2 & Hrest & H). injection H as <- <-.
    constructor; [|by eapply IH]. split; [done|]. exists isk, d, d1. split; [done|].
    exact (endpoint_parse_print (Endpoint_new (fingerprint (public isk))
      (handler_dock (handler cfg))) Hcfg).
  - intros cfg e d' He. cbn [havens_info]. unfold mbind, M_bind, unwrap_ok. by rewrite He.
Qed.

(** ** Safety *)

Record control_wf (self : ControlProtocolImpl) : Prop := {
  cw_anon : anon_wf (anon_identities self);
  cw_rpc : rpc_wf (control_world self).2;
  cw_havens id s : im_get id (control_sockets self) = Some (Haven s) → haven_wf s
}.

(** A call does not panic and keeps the invariant, whether it returns a value or
    an error, or has to go on. *)
Definition keeps {E A} (m : M ControlProtocolImpl E A) (self : ControlProtocolImpl) : Prop :=
  (m self).1 ≠ Panic ∧ control_wf (m self).2.

Lemma enter_haven_wf w s : rpc_wf w.2 → haven_wf s → haven_wf (enter_haven w s).
Proof. intros Hw [Hc Ho _]. by split. Qed.

Lemma identity_of_keeps {E} anon_id self :
  control_wf self → ∃ isk self', identity_of (E:=E) anon_id self = (Ok isk, self') ∧ control_wf self'.
Proof.
  intros [Ha Hr Hh]. destruct (identity_of_spec (E:=E) anon_id self Ha) as (a & Ha' & ->).
  do 2 eexists. split; [done|]. by split.
Qed.

Lemma insert_socket_keeps {E} id s self :
  control_wf self → (∀ h, s = Haven h → haven_wf h) → keeps (E:=E) (insert_socket id s) self.
Proof.
  intros [Ha Hr Hh] Hs. split; [done|]. split; cbn; [done| |].
  - by destruct (im_get id (control_sockets self)) as [[]|].
  - intros id' h. rewrite im_get_insert. case_decide; [intros [= ->]; by apply Hs|apply Hh].
Qed.

(** Binding a socket of either kind. *)
Lemma bind_keeps {E} id anon_id (m : IdentitySecret → M World E InnerSocket) self :
  control_wf self →
  (∀ isk w, rpc_wf w.2 → (m isk w).1 ≠ Panic ∧ rpc_wf (m isk w).2.2 ∧
    ∀ h w', m isk w = (Ok (Haven h), w') → haven_wf h) →
  keeps (isk ← identity_of anon_id; socket ← on_world (m isk); insert_socket id socket) self.
Proof.
  intros Hwf Hm. destruct (identity_of_keeps (E:=E) anon_id self Hwf) as (isk & self1 & Hid & [Ha Hr Hh]).
  unfold keeps. rewrite (M_bind_ok _ _ _ _ _ Hid). unfold mbind, M_bind, on_world, zoom.
  destruct (Hm isk (control_world self1) Hr) as (Hp & Hr' & Hs).
  destruct (m isk (control_world self1)) as [[s| | |] w] eqn:E1; cbn [fst snd] in *; try (by split);
    try done.
  apply insert_socket_keeps; [by split|]. intros h ->. by eapply Hs.
Qed.

Lemma random_dock_no_panic {E} fuel fp ctx : (random_dock (E:=E) fuel fp ctx).1 ≠ Panic.
Proof.
  revert ctx. induction fuel as [|fuel IH]; intros ctx; cbn [random_dock]; [done|].
  unfold mbind, M_bind, with_rng, zoom, sample. destruct (random_u32 (thread_rng ctx)) as [rd r].
  cbn [get_state]. unfold get_state. destruct (im_get _ _); [apply IH|done].
Qed.

Lemma socket_bind_no_panic {E} fuel isk dock ctx : (bind (E:=E) fuel isk dock ctx).1 ≠ Panic.
Proof.
  destruct dock as [dock|]; [done|]. unfold bind, mbind, M_bind.
  pose proof (random_dock_no_panic (E:=E) fuel (fingerprint (public isk)) ctx) as H.
  by destruct (random_dock _ _ _) as [[] ctx'].
Qed.

Lemma bind_n2r_keeps {E} fuel id anon_id dock self :
  control_wf self → keeps (E:=E) (bind_n2r fuel id anon_id dock) self.
Proof.
  intros Hwf. apply (bind_keeps id anon_id (λ isk, bind_n2r_internal fuel isk dock)); [done|].
  intros isk w Hw. unfold bind_n2r_internal, zoom, mbind, M_bind.
  pose proof (socket_bind_no_panic (E:=E) fuel isk dock w.1) as H.
  destruct (bind fuel isk dock w.1) as [[] ctx']; cbn in *; try done; (split; [done|by split]).
Qed.

Lemma bind_haven_keeps {E} fuel id anon_id dock rv self :
  control_wf self → keeps (E:=E) (bind_haven fuel id anon_id dock rv) self.
Proof.
  intros Hwf. apply (bind_keeps id anon_id (λ isk, bind_haven_internal fuel isk dock rv)); [done|].
  intros isk w Hw. unfold bind_haven_internal, haven_bind.
  pose proof (socket_bind_no_panic (E:=E) fuel isk dock w.1) as H.
  destruct (bind fuel isk dock w.1) as [[] ctx']; cbn in *; split_and!; try done.
  intros h w' [= <- <-]. by apply haven_new_wf.
Qed.

(** A method of a socket. *)
Lemma with_socket_keeps {E A} (f : E → ControlProtErr) id (m : M (InnerSocket * World) E A) self :
  control_wf self →
  (∀ s w, rpc_wf w.2 → (∀ h, s = Haven h → haven_wf h) →
    (m (s, w)).1 ≠ Panic ∧ rpc_wf (m (s, w)).2.2.2 ∧ ∀ h, (m (s, w)).2.1 = Haven h → haven_wf h) →
  keeps (with_socket f id m) self.
Proof.
  intros [Ha Hr Hh] Hm. unfold keeps, with_socket.
  destruct (im_get id (control_sockets self)) as [s|] eqn:Hs; [|split; [done|by split]].
  destruct (Hm s (control_world self) Hr) as (Hp & Hr' & Hh'); [intros h ->; by eapply Hh|].
  destruct (m (s, control_world self)) as [o [s' w]]; cbn [fst snd] in *. split; [by destruct o|].
  split; cbn; [done..|]. intros id' h. rewrite im_get_insert.
  case_decide; [intros [= ->]; by apply Hh'|apply Hh].
Qed.

Lemma send_message_keeps id ep body self :
  control_wf self → sealable body → keeps (send_message id ep body) self.
Proof.
  intros Hwf Hb. apply with_socket_keeps; [done|]. intros [s|s] w Hw Hs; cbn; [|by split_and!].
  pose proof (haven_send_to_safe body ep (enter_haven w s)
    (enter_haven_wf w s Hw (Hs s eq_refl)) Hb) as H. unfold wp in H.
  destruct (haven_send_to _ _ _) as [[] s']; cbn; try done;
    (split; [done|]; split; [by destruct H|]; by intros h [= <-]).
Qed.

Lemma recv_from_no_panic fuel st : (recv_from fuel st).1 ≠ Panic.
Proof.
  revert st. induction fuel as [|fuel IH]; intros [ctx s]; cbn [recv_from]; [done|].
  destruct (incoming_queue s); [|done].
  destruct (_ ≫= _) as [[mf c]|]; [apply IH|by case_decide].
Qed.

Lemma recv_message_keeps fuel id self : control_wf self → keeps (recv_message fuel id) self.
Proof.
  intros Hwf. apply with_socket_keeps; [done|]. intros [s|s] w Hw Hs; cbn.
  - pose proof (enter_haven_wf w s Hw (Hs s eq_refl)) as He.
    destruct (haven_recv_from (enter_haven w s)) as [[m s']|] eqn:Hr; cbn; [|by split_and!].
    unfold haven_recv_from in Hr. destruct (chan_try_recv _) as [[m' c]|]; [|done].
    injection Hr as <- <-. destruct He as [Hc Ho He]. split_and!; [done|done|].
    intros h [= <-]. by split.
  - pose proof (recv_from_no_panic fuel (w.1, s)) as H.
    destruct (recv_from fuel (w.1, s)) as [o [ctx s']]. by split_and!.
Qed.

Lemma get_rendezvous_keeps net in_time fp self :
  control_wf self → keeps (get_rendezvous net in_time fp) self.
Proof.
  intros [Ha Hr Hh]. unfold get_rendezvous, keeps, on_world, zoom, mbind, M_bind, get_state.
  pose proof (dht_get_timeout_spec in_time (clock (control_world self).1) (relay_graph (control_world self).1) net fp
    (control_world self).2 Hr) as H. unfold wp in H.
  destruct (dht_get_timeout _ _ _ _ _ _) as [[] rpc]; cbn; try done; (split; [done|split; [done| |done]]); by try destruct H.
Qed.

(** What happens to the control server: calls, the tasks of its haven sockets, and
    changes of the shared context by the rest of the daemon. *)
Inductive control_event :=
  | CBindN2r (fuel : nat) (socket_id : string) (anon_id : option string) (dock : option Dock)
  | CBindHaven (fuel : nat) (socket_id : string) (anon_id : option string) (dock : option Dock)
      (rendezvous_point : option Fingerprint)
  | CSend (socket_id : string) (destination : Endpoint) (content : list byte)
  | CRecv (fuel : nat) (socket_id : string)
  | CGet (net : replica_net) (in_time : bool) (fp : Fingerprint)
  | CTask (socket_id : string) (ev : haven_event)
  | CContext (f : DaemonContext → DaemonContext).

(** The task of a haven socket runs. *)
Definition run_task (ev : haven_event) : M (InnerSocket * World) SocketRecvError unit := λ '(s, w),
  match s with
  | N2r _ => (Ok tt, (s, w))
  | Haven h =>
      match haven_apply ev (enter_haven w h) with
      | Some h => (Ok tt, (Haven h, leave_haven h))
      | None => (Panic, (s, w))
      end
  end.

Definition event_run (ev : control_event) (self : ControlProtocolImpl) : bool * ControlProtocolImpl :=
  let seen {E A} (r : outcome E A * ControlProtocolImpl) :=
    (match r.1 with Panic => true | _ => false end, r.2) in
  match ev with
  | CBindN2r fuel id anon_id dock => seen (bind_n2r (E:=Empty_set) fuel id anon_id dock self)
  | CBindHaven fuel id anon_id dock rv => seen (bind_haven (E:=Empty_set) fuel id anon_id dock rv self)
  | CSend id ep content => seen (send_message id ep content self)
  | CRecv fuel id => seen (recv_message fuel id self)
  | CGet net in_time fp => seen (get_rendezvous net in_time fp self)
  | CTask id ev => seen (with_socket ControlRecv id (run_task ev) self)
  | CContext f => (false, set_world (f (control_world self).1, (control_world self).2) self)
  end.

(** Whether some event of a sequence panics, and the state it leaves. *)
Fixpoint control_run (evs : list control_event) (self : ControlProtocolImpl)
    : bool * ControlProtocolImpl :=
  match evs with
  | [] => (false, self)
  | ev :: evs =>
      let '(panicked, self) := event_run ev self in
      if panicked then (true, self) else control_run evs self
  end.

Inductive ControlLoopError := CannotListen | HttpFailed.

(** Dropping the server drops its sockets. *)
Definition drop_control (self : ControlProtocolImpl) : World :=
  foldr (λ e, drop_inner e.2) (control_world self) (im_items (control_sockets self)).

(** A run of [control_protocol_loop] of [src/daemon.rs] that has ended, after these
    events: either the address could not be listened at, or the HTTP server
    has returned. *)
Definition control_protocol_loop (listening : bool) (evs : list control_event)
    : M World ControlLoopError unit := λ w,
  if listening then
    let '(panicked, self) := control_run evs (ControlProtocolImpl_new w) in
    if panicked then (Panic, control_world self) else (Err HttpFailed, drop_control self)
  else (Err CannotListen, w).

(** The loop is respawned whenever it ends, with a new server. *)
Fixpoint control_respawned (runs : list (bool * list control_event)) (w : World) : bool * World :=
  match runs with
  | [] => (false, w)
  | (listening, evs) :: runs =>
      match control_protocol_loop listening evs w with
      | (Panic, w) => (true, w)
      | (_, w) => control_respawned runs w
      end
  end.

Definition control_event_ok (ev : control_event) : Prop :=
  match ev with
  | CSend _ _ content => sealable content
  | CTask _ ev => event_ok ev
  | _ => True
  end.

Lemma event_run_safe ev self :
  control_wf self → control_event_ok ev →
  (event_run ev self).1 = false ∧ control_wf (event_run ev self).2.
Proof.
  intros Hwf Hev.
  assert (∀ E A (m : M ControlProtocolImpl E A), keeps m self →
    match (m self).1 with Panic => true | _ => false end = false ∧ control_wf (m self).2) as Hseen.
  { intros E A m [Hp Hw]. split; [|done]. by destruct (m self).1. }
  destruct ev; cbn [event_run control_event_ok fst snd] in *.
  - by apply Hseen, bind_n2r_keeps.
  - by apply Hseen, bind_haven_keeps.
  - by apply Hseen, send_message_keeps.
  - by apply Hseen, recv_message_keeps.
  - by apply Hseen, get_rendezvous_keeps.
  - apply Hseen, with_socket_keeps; [done|]. intros [h|s] w Hw Hs; cbn; [|by split_and!].
    destruct (haven_apply_safe ev (enter_haven w h)) as (h' & -> & Hh'); [|done|].
    { by apply enter_haven_wf, Hs. }
    cbn. split; [done|]. split; [by destruct Hh'|]. by intros ? [= <-].
  - split; [done|]. by destruct Hwf.
Qed.

Lemma control_run_safe evs w :
  rpc_wf w.2 → Forall control_event_ok evs →
  (control_run evs (ControlProtocolImpl_new w)).1 = false ∧
  control_wf (control_run evs (ControlProtocolImpl_new w)).2.
Proof.
  intros Hw Hevs.
  assert (control_wf (ControlProtocolImpl_new w)) as Hwf.
  { split; cbn; [|done|].
    - intros id isk H. by apply moka_new_holds in H.
    - intros id s. by rewrite im_get_empty. }
  revert Hwf. generalize (ControlProtocolImpl_new w).
  induction Hevs as [|ev evs Hev Hevs IH]; intros self Hwf; [done|].
  destruct (event_run_safe ev self Hwf Hev) as [Hp Hwf']. cbn [control_run].
  destruct (event_run ev self) as [b self']. cbn [fst snd] in *. subst b. by apply IH.
Qed.

Lemma drop_control_rpc self : (drop_control self).2 = (control_world self).2.
Proof.
  unfold drop_control. induction (im_items (control_sockets self)) as [|[id [s|s]] l IH]; [done|..]; exact IH.
Qed.

Lemma control_respawned_safe runs w :
  rpc_wf w.2 → Forall (λ r, Forall control_event_ok r.2) runs →
  (control_respawned runs w).1 = false ∧ rpc_wf (control_respawned runs w).2.2.
Proof.
  intros Hw Hruns. revert w Hw. induction Hruns as [|[[] evs] runs Hevs _ IH]; intros w Hw; [done|..].
  2: { by apply IH. }
  cbn [control_respawned control_protocol_loop]. unfold control_protocol_loop.
  destruct (control_run_safe evs w Hw Hevs) as [Hp Hwf].
  destruct (control_run evs (ControlProtocolImpl_new w)) as [b self]. cbn [fst snd] in *. subst b.
  apply IH. rewrite drop_control_rpc. apply Hwf.
Qed.

(** C19 (safety of the control server): from its start, and however often it ends and is
    started again, no sequence of calls to bind, send, receive and look up,
    interleaved with the tasks of its haven sockets and arbitrary changes of
    the daemon's context, panics; every cached anonymous identity is that of
    its name, every haven socket keeps its invariant, and the caches hold only
    authentic locators. *)
Theorem control_never_panics runs evs w :
  rpc_wf w.2 → Forall (λ r, Forall control_event_ok r.2) runs → Forall control_event_ok evs →
  let '(panicked, w') := control_respawned runs w in
  panicked = false ∧
  (control_run evs (ControlProtocolImpl_new w')).1 = false ∧
  control_wf (control_run evs (ControlProtocolImpl_new w')).2.
Proof.
  intros Hw Hruns Hevs. destruct (control_respawned_safe runs w Hw Hruns) as [Hp Hw'].
  destruct (control_respawned runs w) as [b w']. split; [done|]. by apply control_run_safe.
Qed.

End Control.

(** * Witnesses *)

Definition ctl_world : DaemonContext (P:=toy) * RpcContext := (sock_ctx, rpc_new).
Definition ctl_new : ControlProtocolImpl (P:=toy) := ControlProtocolImpl_new ctl_world.

Lemma ctl_new_anon : anon_wf (anon_identities ctl_new).
Proof. intros id isk H. by apply (moka_new_holds (K:=string)) in H. Qed.

Lemma anon_identities_equiv_witness :
  anon_lookups (P:=toy) [(1%N, "alice"%string); (9%N, "bob"%string); (90000%N, "alice"%string)]
    AnonIdentities_new =
  [pseudo_identity "alice"; pseudo_identity "bob"; pseudo_identity "alice"].
Proof.
  exact (anon_identities_equiv (P:=toy)
    [(1%N, "alice"%string); (9%N, "bob"%string); (90000%N, "alice"%string)]).
Defined.

Lemma control_bind_receive_witness :
  ∃ self1 ctx2 self3,
    bind_n2r (P:=toy) (E:=PeelForwardError) 0 "skt" (Some "alice"%string) (Some 200%N) ctl_new = (Ok tt, self1) ∧
    skt_info "skt" self1 =
      Ok (Endpoint_new (fingerprint (public (pseudo_identity (P:=toy) "alice"))) 200%N) ∧
    process_inner_pkt (IMessage sock_msg) (sample_fp x0a)
      (fingerprint (public (pseudo_identity (P:=toy) "alice"))) (control_world self1).1 = (Ok tt, ctx2) ∧
    recv_message 2 "skt" (set_world (ctx2, (control_world self1).2) self1) =
      (Ok (Some ([x68], Endpoint_new (sample_fp x0a) 42%N)), self3).
Proof.
  exact (control_bind_receive (P:=toy) 0 ctl_new "skt" (Some "alice"%string) (sample_fp x0a) sock_msg
    [x68] [[x69]] ctl_new_anon eq_refl eq_refl).
Defined.

Definition ctl_bound : ControlProtocolImpl (P:=toy) :=
  (bind_n2r (P:=toy) (E:=PeelForwardError) 0 "skt" None (Some 200%N) ctl_new).2.

Lemma rebind_unbinds_witness :
  ∃ self1,
    bind_n2r (P:=toy) (E:=PeelForwardError) 0 "skt" None (Some 200%N) ctl_bound = (Ok tt, self1) ∧
    (recv_message 1 "skt" self1).1 = Err (ControlRecv N2rRecvError).
Proof.
  destruct (rebind_unbinds (P:=toy) 0 ctl_bound "skt" None
    (N2r (mkN2rSocket (fingerprint (public (node_isk x01))) 200%N 0%N [] (chan_bounded SEND_CAPACITY)))
    (sample_fp x0a) sock_msg ctl_new_anon eq_refl eq_refl) as (self1 & H1 & _ & _ & H2).
  exists self1. exact (conj H1 H2).
Defined.

Definition ctl_havens : list HavenForwardConfig :=
  [mkHavenForward (IdentitySeed [x61]) (sample_fp x09) (SimpleProxyService 80%N)].

Lemma havens_info_endpoints_witness :
  ∃ lines d', havens_info (P:=toy) (E:=Empty_set) (λ _, true) (λ _, true) 2 ctl_havens sample_disk =
      (Ok lines, d') ∧
    (λ l, (l.1, Endpoint_from_str (P:=toy) l.2)) <$> lines =
      [("SimpleProxy"%string, Ok (Endpoint_new
          (fingerprint (P:=toy) (public (toy_hash ([x61] ++ bytes_of "identity_kdf_salt")))) 80%N))].
Proof.
  destruct (havens_info_endpoints (P:=toy) (E:=Empty_set) (λ _, true) (λ _, true) 2 ctl_havens sample_disk)
    as [H _].
  - apply Forall_cons. split; [reflexivity|apply Forall_nil_2].
  - do 2 eexists. split; [reflexivity|]. specialize (H _ _ eq_refl).
    inversion H as [|? ? ? ? [Hk (isk & d1 & d2 & Ha & He)] Hr]; subst.
    inversion Hr; subst. injection Ha as <- _. exact (f_equal (λ x, [("SimpleProxy"%string, x)]) He).
Defined.

(** The address is in use at first; a server has bound a socket when HTTP fails. *)
Definition ctl_runs : list (bool * list (control_event (P:=toy))) :=
  [(false, []); (true, [CBindN2r 1 "n" None (Some 81%N)])].

Lemma control_never_panics_witness :
  let w' := (control_respawned (P:=toy) ctl_runs ctl_world).2 in
  (control_run (P:=toy) [CBindHaven 1 "h" None (Some 80%N) None; CSend "h" ses_client [x68];
     CTask "h" (HStep (λ _, []) true Up 0); CRecv 3 "h"] (ControlProtocolImpl_new w')).1 = false.
Proof.
  pose proof (control_never_panics (P:=toy) ctl_runs
    [CBindHaven 1 "h" None (Some 80%N) None; CSend "h" ses_client [x68];
     CTask "h" (HStep (λ _, []) true Up 0); CRecv 3 "h"] ctl_world) as H.
  destruct (control_respawned ctl_runs ctl_world) as [b w']. apply H.
  - exact (rpc_new_wf (P:=toy)).
  - repeat constructor.
  - repeat (apply Forall_cons; split; [try exact I|]).
    + discriminate.
    + apply Forall_nil_2.
Defined.
