(* ===== verification/GraphDump.v ===== *)
(** The view of the network that a user asks for: [graph_dump] of
    [src/daemon/control_protocol_impl.rs], with [sorted_by], the formatting of
    strings and the slicing it uses. *)

From Stdlib Require Import String Ascii.
From Stdlib Require Import Sorting.Sorted.
From S2P Require Import Prelude Interfaces Crypto Packet OnionRouting Topology ShortestPath.
From S2P Require Import ReplyStore NeighTable Directory Daemon DaemonSafety Network Socket Link Text Proxy Config Instances.
Close Scope string_scope.

(** * The standard library *)

(** [sort_by], a stable sort: an element goes before those it is not above. *)
Fixpoint insert_by {A} (le : A → A → bool) (x : A) (l : list A) : list A :=
  match l with
  | [] => [x]
  | y :: l' => if le x y then x :: l else y :: insert_by le x l'
  end.

Definition sorted_by {A} (le : A → A → bool) (l : list A) : list A := foldr (insert_by le) [] l.

Definition quote : ascii := "034".
Definition newline : string := String "010" EmptyString.

(** [{:?}] of a string of printable characters. *)
Fixpoint escape_debug (s : string) : string :=
  match s with
  | EmptyString => EmptyString
  | String c s =>
      if (c =? quote)%char || (c =? "\")%char then String "\" (String c (escape_debug s))
      else String c (escape_debug s)
  end.

Definition debug_str (s : string) : string :=
  String quote (escape_debug s ++ String quote EmptyString).

(** [&s[from..to]], which panics out of range. *)
Definition str_slice {E} (s : string) (from to : nat) : outcome E string :=
  if (from <=? to) && (to <=? String.length s) then Ok (substring from (to - from) s) else Panic.

(** [iter.fold(String::new(), |acc, x| acc + &f(x))]. *)
Definition fold_string {A} (f : A → string) (l : list A) : string :=
  foldl (λ acc x, acc ++ f x)%string EmptyString l.

Section GraphDump.
  Context {P : Primitives} {IM : IndexMap} {HI : HashIter} {C : Chan} {L : Lru} {MK : Moka}.
  Context {SA : Stdcode AdjacencyDescriptor} {SI : Stdcode IdentityDescriptor}.

(** * The report *)

Definition left_le (a b : AdjacencyDescriptor) : bool := negb (array_lt (left b) (left a)).

(** The links of the report, in order: only those between relays for a human. *)
Definition dump_links (human : bool) (g : RelayGraph) : list AdjacencyDescriptor :=
  let all := all_adjacencies g in
  sorted_by left_le
    (if human then filter (λ adj, known_relay g (left adj) && known_relay g (right adj) = true) all
     else all).

Definition dump_neighs (ctx : DaemonContext) : string :=
  fold_string (λ neigh, debug_str (Fingerprint_to_string (fingerprint (remote_idpk neigh))) ++ newline)%string
    (all_neighs (neigh_table ctx)).

(** A node of the graph, labelled with the ends of its fingerprint. *)
Definition node_line {E} (fp : Fingerprint) : outcome E string :=
  let node := Fingerprint_to_string fp in
  front ← str_slice node 0 4;
  back ← str_slice node (String.length node - 4) (String.length node);
  Ok (debug_str node ++ " [label=" ++ String quote (front ++ ".." ++ back ++ String quote ("]" ++ newline)))%string.

Definition human_report (my_fp kind neighs : string) (links : list AdjacencyDescriptor) : string :=
  ("My fingerprint:" ++ newline ++ my_fp ++ "    [" ++ kind ++ "]" ++ newline ++ newline ++
   "My neighbors:" ++ newline ++ neighs ++ newline ++ "Relay graph:" ++ newline ++
   fold_string (λ adj, debug_str (Fingerprint_to_string (left adj)) ++ " -- " ++
     debug_str (Fingerprint_to_string (right adj)) ++ newline) links)%string.

Definition graphviz_report (my_fp kind neighs : string) (nodes : list string)
    (links : list AdjacencyDescriptor) : string :=
  ("digraph G {
                subgraph cluster_0 {
                    color=lightblue;
                    label=" ++ String quote ("myself      [" ++ kind ++ "]" ++ String quote (";
                    node [shape=Mdiamond,color=lightblue,style=filled];
                    " ++ debug_str my_fp ++ "
                }
                subgraph cluster_1 {
                    color=lightpink
                    label=" ++ String quote ("my neighbors" ++ String quote (";
                    node [color=lightpink,style=filled]
                    " ++ neighs ++ "
                }
                " ++ fold_string (λ line, line) nodes ++ "
                " ++ fold_string (λ adj, debug_str (Fingerprint_to_string (left adj)) ++ " -> " ++
                       debug_str (Fingerprint_to_string (right adj)) ++ ";" ++ newline) links ++ "
            }")))))%string.

Definition graph_dump {E} (config : ConfigFile) (human : bool) (ctx : DaemonContext)
    : outcome E string :=
  let my_fp := Fingerprint_to_string (my_fingerprint ctx) in
  let relay_or_client := match in_routes config with [] => "client" | _ => "relay" end%string in
  let links := dump_links human (relay_graph ctx) in
  if human then Ok (human_report my_fp relay_or_client (dump_neighs ctx) links)
  else
    nodes ← outcome_mapM node_line (all_nodes (relay_graph ctx));
    Ok (graphviz_report my_fp relay_or_client (dump_neighs ctx) nodes links).

(** * Properties *)

Lemma insert_by_perm {A} (le : A → A → bool) x l : insert_by le x l ≡ₚ x :: l.
Proof.
  induction l as [|y l IH]; [done|]. cbn. destruct (le x y); [done|]. rewrite IH. apply perm_swap.
Qed.

Lemma sorted_by_perm {A} (le : A → A → bool) l : sorted_by le l ≡ₚ l.
Proof. induction l as [|x l IH]; [done|]. cbn. by rewrite insert_by_perm, IH. Qed.

Lemma insert_by_sorted {A} (le : A → A → bool) x l :
  (∀ x y, le x y = true ∨ le y x = true) →
  Sorted (λ x y, le x y = true) l → Sorted (λ x y, le x y = true) (insert_by le x l).
Proof.
  intros Htot. induction 1 as [|y l Hl IH Hhd]; cbn; [by repeat constructor|].
  destruct (le x y) eqn:E; [by repeat constructor|].
  constructor; [done|]. destruct (Htot x y) as [H|H]; [congruence|].
  destruct Hhd as [|z l' Hz]; cbn; [by constructor|]. by destruct (le x z); constructor.
Qed.

Lemma sorted_by_sorted {A} (le : A → A → bool) l :
  (∀ x y, le x y = true ∨ le y x = true) → Sorted (λ x y, le x y = true) (sorted_by le l).
Proof. intros Htot. induction l as [|x l IH]; cbn; [constructor|]. by apply insert_by_sorted. Qed.

Lemma left_le_total a b : left_le a b = true ∨ left_le b a = true.
Proof.
  unfold left_le. destruct (array_lt (left b) (left a)) eqn:E; [|by left].
  right. by rewrite (array_lt_asym _ _ E).
Qed.

Lemma str_slice_ok {E} s from to :
  from ≤ to → to ≤ String.length s → str_slice (E:=E) s from to = Ok (substring from (to - from) s).
Proof.
  intros H1 H2. unfold str_slice. apply Nat.leb_le in H1, H2. by rewrite H1, H2.
Qed.

Section laws.
  Context {BL : Base32Laws}.

Lemma fingerprint_text_length fp : 20 ≤ String.length (Fingerprint_to_string fp).
Proof.
  unfold Fingerprint_to_string. rewrite length_to_lowercase.
  etrans; [|apply base32_length]. by rewrite array_length.
Qed.

Lemma node_line_returns {E} fp : ∃ s, node_line (E:=E) fp = Ok s.
Proof.
  unfold node_line. pose proof (fingerprint_text_length fp) as Hl.
  rewrite !str_slice_ok by lia. by eexists.
Qed.

(** The graph shown to a user: [graph_dump] always returns, whatever the graph.  For
    a human it shows exactly the links between two nodes known as relays, so
    no client appears in it; otherwise it shows every node once and every
    link; in both, links are sorted by their left end. *)
Theorem graph_dump_shows {E} config human ctx :
  let links := dump_links human (relay_graph ctx) in
  (∃ nodes, length nodes = length (all_nodes (relay_graph ctx)) ∧
    graph_dump (E:=E) config human ctx =
    Ok ((if human then λ my kind neighs _, human_report my kind neighs
         else graphviz_report)
      (Fingerprint_to_string (my_fingerprint ctx))
      (match in_routes config with [] => "client" | _ => "relay" end)%string
      (dump_neighs ctx) nodes links)) ∧
  Sorted (λ a b, left_le a b = true) links ∧
  (human = false → links ≡ₚ all_adjacencies (relay_graph ctx)) ∧
  (human = true → ∀ adj, adj ∈ links ↔ adj ∈ all_adjacencies (relay_graph ctx) ∧
    (∃ id, identity (relay_graph ctx) (left adj) = Some id ∧ is_relay id = true) ∧
    (∃ id, identity (relay_graph ctx) (right adj) = Some id ∧ is_relay id = true)).
Proof.
  cbn zeta. assert (∀ g fp, known_relay g fp = true ↔
    ∃ id, identity g fp = Some id ∧ is_relay id = true) as Hk.
  { intros g fp. unfold known_relay. destruct (identity g fp) as [id|]; naive_solver. }
  split_and!.
  - destruct (outcome_mapM_total (E:=E) node_line (all_nodes (relay_graph ctx))) as (nodes & Hn & Hl).
    { intros. apply node_line_returns. }
    exists nodes. split; [done|]. unfold graph_dump. destruct human; [done|].
    rewrite Hn. done.
  - apply sorted_by_sorted, left_le_total.
  - intros ->. apply sorted_by_perm.
  - intros -> adj. unfold dump_links. rewrite (sorted_by_perm left_le), list_elem_of_filter.
    rewrite andb_true_iff, !Hk. tauto.
Qed.

End laws.
End GraphDump.

(** * Witnesses *)

Definition sample_config : ConfigFile :=
  mkConfigFile None (mkSocketAddr (V4 (zeros 4)) 18964) [] [] [] [] None [].

Lemma graph_dump_shows_witness :
  (∃ s, graph_dump (P:=toy) (E:=Empty_set) sample_config true ctx1 = Ok s) ∧
  (∃ s, graph_dump (P:=toy) (E:=Empty_set) sample_config false ctx1 = Ok s) ∧
  dump_links false (relay_graph ctx1) ≡ₚ all_adjacencies (relay_graph ctx1).
Proof.
  destruct (graph_dump_shows (P:=toy) (E:=Empty_set) sample_config true ctx1) as [(n1 & _ & H1) _].
  destruct (graph_dump_shows (P:=toy) (E:=Empty_set) sample_config false ctx1)
    as [(n2 & _ & H2) (_ & H3 & _)].
  exact (conj (ex_intro _ _ H1) (conj (ex_intro _ _ H2) (H3 eq_refl))).
Defined.
