(* ===== verification/Startup.v ===== *)
(** The start of the daemon and the route tasks: [Daemon::init] and [main_daemon]
    of [src/daemon.rs], [src/daemon/inout_route.rs].

    [main_daemon] starts the loops and then waits for the route tasks.  The
    operating system's part (whether an address can be bound, when a pipe
    connects) is an argument; time is in seconds.  The obfuscated pipes are
    those of the sosistab2_obfsudp crate, a class. *)

From S2P Require Import Prelude Interfaces Crypto Packet OnionRouting Topology NeighTable Daemon.
From S2P Require Import Directory DaemonSafety Network Link Proxy Text Config Instances.

(** * The loops *)

(** What [main_daemon] spawns and keeps until it returns. *)
Inductive Loop :=
  | TableGc
  | PeelForwardLoop (i : nat)
  | GossipLoop
  | ControlProtocolLoop (listen : SocketAddr)
  | GlobalRpcLoop
  | RendezvousForwardLoop
  | HavenLoop (cfg : HavenForwardConfig)
  | UdpForwardLoop (cfg : UdpForwardConfig)
  | TcpForwardLoop (cfg : TcpForwardConfig)
  | Socks5Loop (cfg : Socks5).

Inductive RouteTask :=
  | InRoute (name : list byte) (listen : SocketAddr) (secret : list byte)
  | OutRoute (name : list byte) (remote_fingerprint : Fingerprint) (connect : SocketAddr)
      (cookie : array 32).

(** [cores] is [available_parallelism()]. *)
Definition daemon_loops (cores : option nat) (cfg : ConfigFile) : list Loop :=
  TableGc :: (PeelForwardLoop <$> seq 0 (default 1 cores)) ++
  [GossipLoop; ControlProtocolLoop (control_listen cfg); GlobalRpcLoop; RendezvousForwardLoop] ++
  (HavenLoop <$> havens cfg) ++ (UdpForwardLoop <$> udp_forwards cfg) ++
  (TcpForwardLoop <$> tcp_forwards cfg) ++ (Socks5Loop <$> option_list (socks5 cfg)).

Definition daemon_routes (cfg : ConfigFile) : list RouteTask :=
  ((λ '(name, r), match r with InObfsudp listen secret => InRoute name listen secret end) <$>
     in_routes cfg) ++
  ((λ '(name, r), match r with OutObfsudp fp connect cookie => OutRoute name fp connect cookie end) <$>
     out_routes cfg).

Inductive RouteError := CannotBind | CannotAccept.

(** [while let Some(next) = route_tasks.next().await { next?; }]: [done] are the
    results of the tasks in the order in which they end; [None] while it
    waits. *)
Fixpoint join_routes (pending : nat) (done : list (outcome RouteError unit))
    : option (outcome RouteError unit) :=
  match pending with
  | O => Some (Ok tt)
  | S pending =>
      match done with
      | [] => None
      | Ok _ :: done => join_routes pending done
      | e :: _ => Some e
      end
  end.

(** A task with the loops it keeps: dropping the handle of a loop ends it. *)
Record Running (E : Type) := mkRunning {
  running_loops : list Loop;
  task_result : option (outcome E unit)
}.
Arguments mkRunning {E} _ _.
Arguments running_loops {E} _.
Arguments task_result {E} _.

(** [sosistab2_obfsudp]: the public half of a pipe's secret, which a client dials
    with, and whether the listener with a secret accepts the pipe of a client. *)
Class ObfsUdp : Type := {
  obfs_public : array 32 → array 32;
  obfs_accepts : array 32 → array 32 → bool
}.

(** The listener accepts those who dial with the public half of its secret. *)
Class ObfsUdpLaws (OU : ObfsUdp) : Prop := {
  obfs_accepts_public k : obfs_accepts k (obfs_public k) = true
}.

Section Startup.
  Context {P : Primitives} {IM : IndexMap} {HI : HashIter} {C : Chan} {L : Lru} {MK : Moka} {OU : ObfsUdp}.

(** [ctx.get(GLOBAL_IDENTITY)] for the first time. *)
Definition global_identity_init (can_read can_write : list byte → bool) (fuel : nat)
    (identity : option IdentityConfig) : M Disk ActualizeError IdentitySecret := λ d,
  match identity with
  | Some idc =>
      match actualize can_read can_write fuel idc d with
      | (Err _, d) => (Panic, d)
      | r => r
      end
  | None => zoom disk_rng (λ r d, mkDisk (files d) r) IdentitySecret_generate d
  end.

(** [main_daemon]: it asks for the identity, starts the loops and waits for the
    routes; its loops end with it. *)
Definition main_daemon (can_read can_write : list byte → bool) (fuel : nat) (cores : option nat)
    (cfg : ConfigFile) (d : Disk) (done : list (outcome RouteError unit)) : Running RouteError :=
  match (global_identity_init can_read can_write fuel (cf_identity cfg) d).1 with
  | Ok _ =>
      match join_routes (length (daemon_routes cfg)) done with
      | None => mkRunning (daemon_loops cores cfg) None
      | Some r => mkRunning [] (Some r)
      end
  | Err _ | Panic => mkRunning [] (Some Panic)
  | OutOfFuel => mkRunning [] None
  end.

(** The task of [Daemon::init]: it unwraps the result and then panics. *)
Definition init_task (can_read can_write : list byte → bool) (fuel : nat) (cores : option nat)
    (cfg : ConfigFile) (d : Disk) (done : list (outcome RouteError unit)) : Running Empty_set :=
  let '(mkRunning loops r) := main_daemon can_read can_write fuel cores cfg d done in
  mkRunning loops
    match r with
    | Some (Ok _) => Some Panic
    | Some (Err _) => Some Panic
    | Some Panic => Some Panic
    | Some OutOfFuel | None => None
    end.

(** The process under [panic = 'abort']: a panic ends all of it, the daemon's own
    or ([panicked]) one in a loop or in a task that a loop has spawned. *)
Definition process (panicked : bool) (r : Running Empty_set) : Running Empty_set :=
  if panicked || match task_result r with Some Panic => true | _ => false end
  then mkRunning [] (Some Panic) else r.

(** * [in_route_obfsudp] *)

(** The key of the listener. *)
Definition in_route_key (secret : list byte) : array 32 := blake3_hash secret.

(** What its loop and the tasks it spawns meet: a client that dials with a cookie,
    a pipe whose authentication is over, a failure of the listener. *)
Inductive in_event :=
  | PipeArrives (pipe : N) (cookie : array 32)
  | PipeAuthenticated (now pipe : N) (resp : option AuthResponse) (peer_pk : option MuxPublic)
  | AcceptFails.

Record InRouteState := mkInRoute { in_pipes : list N; in_table : NeighTable }.

(** A failed handshake only ends the task of its pipe. *)
Definition in_route_step (key : array 32) (ev : in_event) : M InRouteState RouteError unit := λ s,
  match ev with
  | PipeArrives pipe cookie =>
      (Ok tt, if obfs_accepts key cookie then mkInRoute (pipe :: in_pipes s) (in_table s) else s)
  | PipeAuthenticated now pipe resp pk =>
      (Ok tt, if decide (pipe ∈ in_pipes s)
              then mkInRoute (list_difference (in_pipes s) [pipe])
                     (in_route_accept now pipe resp pk (in_table s)).2
              else s)
  | AcceptFails => (Err CannotAccept, s)
  end.

Fixpoint in_route_loop (key : array 32) (evs : list in_event) (s : InRouteState)
    : option (outcome RouteError unit) * InRouteState :=
  match evs with
  | [] => (None, s)
  | ev :: evs =>
      match in_route_step key ev s with
      | (Ok _, s) => in_route_loop key evs s
      | (e, s) => (Some e, s)
      end
  end.

Definition in_route_obfsudp (bound : bool) (secret : list byte) (evs : list in_event) (t : NeighTable)
    : option (outcome RouteError unit) * InRouteState :=
  if bound then in_route_loop (in_route_key secret) evs (mkInRoute [] t)
  else (Some (Err CannotBind), mkInRoute [] t).

(** * [out_route_obfsudp] *)

Definition CONNECTION_LIFETIME : N := 60.

(** How an attempt goes: it may never be answered, or be decided [after] some
    seconds by the pipe and the authentication. *)
Inductive Attempt :=
  | Unanswered
  | PipeFails (after : N)
  | PipeConnects (after pipe : N) (resp : option AuthResponse) (peer_pk : option MuxPublic).

(** When the two interval timers fire next. *)
Record OutRouteState := mkOutRoute {
  or_now : N;
  timer1 : N;
  timer2 : N;
  or_table : NeighTable
}.

Definition out_route_start (now : N) (t : NeighTable) : OutRouteState :=
  mkOutRoute now (now + CONNECTION_LIFETIME) (now + CONNECTION_LIFETIME) t.

(** The block [fallible], which ends at [now]. *)
Definition fallible (remote_fingerprint : Fingerprint) (now : N) (a : Attempt) (t : NeighTable)
    : NeighTable :=
  match a with
  | Unanswered | PipeFails _ => t
  | PipeConnects _ pipe resp pk => (out_route_connect now pipe remote_fingerprint resp pk t).2
  end.

Definition decided_after (a : Attempt) : option N :=
  match a with Unanswered => None | PipeFails d => Some d | PipeConnects d _ _ _ => Some d end.

(** A round of the loop: the attempt and then a tick of [timer1] race with a tick
    of [timer2]; on a tie the first is polled first.  A timer that fired and
    was not polled is ready at once the next time. *)
Definition out_route_round (remote_fingerprint : Fingerprint) (a : Attempt) (s : OutRouteState)
    : OutRouteState :=
  let cut := N.max (or_now s) (timer2 s) in
  let by_timer2 t := mkOutRoute cut (timer1 s) (timer2 s + CONNECTION_LIFETIME) t in
  match decided_after a with
  | Some d =>
      let ready := (or_now s + d)%N in
      if (ready <=? cut)%N then
        let t := fallible remote_fingerprint ready a (or_table s) in
        let tick := N.max ready (timer1 s) in
        if (tick <=? cut)%N
        then mkOutRoute tick (timer1 s + CONNECTION_LIFETIME) (timer2 s) t
        else by_timer2 t
      else by_timer2 (or_table s)
  | None => by_timer2 (or_table s)
  end.

Definition out_route_rounds (remote_fingerprint : Fingerprint) (l : list Attempt) (s : OutRouteState)
    : OutRouteState :=
  foldl (λ s a, out_route_round remote_fingerprint a s) s l.

Lemma out_route_rounds_app fp l l' s :
  out_route_rounds fp (l ++ l') s = out_route_rounds fp l' (out_route_rounds fp l s).
Proof. apply foldl_app. Qed.

(** * Properties *)

Context {IML : IndexMapLaws IM}.

(** ** Routes *)

(** A round only ever takes its end from one of the two timers. *)
Lemma out_route_round_timers fp a s :
  let s' := out_route_round fp a s in
  (or_now s <= or_now s')%N ∧
  (timer1 s' = timer1 s + CONNECTION_LIFETIME ∧ timer2 s' = timer2 s ∧ timer1 s <= or_now s' ∨
   timer1 s' = timer1 s ∧ timer2 s' = timer2 s + CONNECTION_LIFETIME ∧ timer2 s <= or_now s')%N.
Proof.
  cbv zeta. unfold out_route_round. destruct (decided_after a) as [d|]; [|cbn; lia].
  destruct (N.leb_spec (or_now s + d) (N.max (or_now s) (timer2 s))); [|cbn; lia].
  destruct (N.leb_spec (N.max (or_now s + d) (timer1 s)) (N.max (or_now s) (timer2 s))); cbn; lia.
Qed.

(** The loop cannot spin for ever: whatever the attempts do, each takes half a minute
    on average. *)
Lemma out_route_rate fp l t0 t :
  let s := out_route_rounds fp l (out_route_start t0 t) in
  (30 * N.of_nat (length l) <= or_now s - t0)%N.
Proof.
  cbv zeta. set (s0 := out_route_start t0 t). unfold out_route_rounds.
  assert (∀ s n, (t0 <= or_now s)%N → (timer1 s <= or_now s + 60)%N → (timer2 s <= or_now s + 60)%N →
    (timer1 s + timer2 s = 2 * t0 + 120 + 60 * n)%N →
    let s' := foldl (λ s a, out_route_round fp a s) s l in
    (30 * (n + N.of_nat (length l)) <= or_now s' - t0)%N) as H.
  { induction l as [|a l IH]; intros s n H0 H1 H2 Hn; cbn [foldl length].
    { cbv zeta. lia. }
    destruct (out_route_round_timers fp a s) as [Hle Ht].
    specialize (IH (out_route_round fp a s) (n + 1)%N). unfold CONNECTION_LIFETIME in Ht.
    cbv zeta in *. assert (H' := IH ltac:(lia) ltac:(lia) ltac:(lia) ltac:(lia)). lia. }
  specialize (H s0 0%N). cbn -[N.mul N.add] in H. unfold CONNECTION_LIFETIME in H. cbv zeta in H.
  assert (H' := H ltac:(lia) ltac:(lia) ltac:(lia) ltac:(lia)). lia.
Qed.

(** Both timers fire next a minute from now. *)
Definition in_step (s : OutRouteState) : Prop :=
  timer1 s = (or_now s + CONNECTION_LIFETIME)%N ∧ timer2 s = (or_now s + CONNECTION_LIFETIME)%N.

(** Two rounds: an attempt that is decided within the minute, and one that the
    tick left over from the first round ends at once. *)
Lemma out_route_two_rounds fp a b d s :
  in_step s → decided_after a = Some d → (d <= CONNECTION_LIFETIME)%N →
  let s' := out_route_rounds fp [a; b] s in
  in_step s' ∧ or_now s' = (or_now s + CONNECTION_LIFETIME)%N ∧
  let t := fallible fp (or_now s + d) a (or_table s) in
  or_table s' = if decide (decided_after b = Some 0%N) then fallible fp (or_now s') b t else t.
Proof.
  intros [H1 H2] Ha Hd. cbv zeta. cbn [out_route_rounds foldl].
  assert (out_route_round fp a s = mkOutRoute (or_now s + CONNECTION_LIFETIME)
    (or_now s + 2 * CONNECTION_LIFETIME) (or_now s + CONNECTION_LIFETIME)
    (fallible fp (or_now s + d) a (or_table s))) as ->.
  { unfold out_route_round. rewrite Ha, H1, H2. unfold CONNECTION_LIFETIME in *.
    rewrite !(proj2 (N.leb_le _ _)) by lia. f_equal; lia. }
  set (t := fallible fp (or_now s + d) a (or_table s)).
  unfold out_route_round. cbn [or_now timer1 timer2 or_table]. unfold in_step, CONNECTION_LIFETIME in *.
  rewrite N.max_id. destruct (decided_after b) as [d'|] eqn:Hb; cbn [or_now timer1 timer2 or_table].
  - destruct (N.leb_spec (or_now s + 60 + d') (or_now s + 60)); cbn [or_now timer1 timer2 or_table].
    + assert (d' = 0%N) as -> by lia. rewrite (proj2 (N.leb_gt _ _)) by lia.
      cbn [or_now timer1 timer2 or_table]. rewrite decide_True, N.add_0_r by done.
      split_and!; [lia..|done].
    + rewrite decide_False by (intros [= ->]; lia). split_and!; [lia..|done].
  - rewrite decide_False by done. split_and!; [lia..|done].
Qed.

Definition two_attempts (minutes : list (Attempt * Attempt)) : list Attempt :=
  mjoin ((λ p, [p.1; p.2]) <$> minutes).

Definition decided_in_time (p : Attempt * Attempt) : Prop :=
  ∃ d, decided_after p.1 = Some d ∧ (d <= CONNECTION_LIFETIME)%N.

Lemma out_route_minutes fp minutes t0 t :
  Forall decided_in_time minutes →
  let s := out_route_rounds fp (two_attempts minutes) (out_route_start t0 t) in
  in_step s ∧ or_now s = (t0 + 60 * N.of_nat (length minutes))%N.
Proof.
  cbv zeta. induction minutes as [|p minutes IH] using rev_ind; intros Hd.
  { split; [done|]. cbn. lia. }
  apply Forall_app in Hd as [Hd Hp]. apply Forall_singleton in Hp as (d & Ha & Hle).
  destruct (IH Hd) as [Hs Hnow]. unfold two_attempts, out_route_rounds in *.
  rewrite fmap_app, join_app, foldl_app. cbn [fmap list_fmap mjoin list_join app].
  destruct (out_route_two_rounds fp p.1 p.2 d _ Hs Ha Hle) as (Hs' & Hn' & _).
  split; [exact Hs'|]. unfold out_route_rounds in Hn'. rewrite Hn', Hnow, length_app.
  unfold CONNECTION_LIFETIME. cbn. lia.
Qed.

(** The link that an attempt makes: the pipe connects, the neighbor has signed its
    multiplex's key and its fingerprint is the configured one. *)
Definition attempt_link (fp : Fingerprint) (a : Attempt) : option LinkConnection :=
  match a with
  | PipeConnects _ pipe (Some r) (Some mux) =>
      match verify (full_pk r) (blake3_keyed_hash MAGIC_VALUE mux) (binding_sig r) with
      | Ok _ => if decide (fingerprint (full_pk r) = fp)
                then Some (mkLinkConnection pipe (full_pk r)) else None
      | _ => None
      end
  | _ => None
  end.

(** The link of a minute: the second attempt counts only if it is decided at once,
    and then its link takes the place of the first one's. *)
Definition minute_link (fp : Fingerprint) (p : Attempt * Attempt) : option LinkConnection :=
  match (if decide (decided_after p.2 = Some 0%N) then attempt_link fp p.2 else None) with
  | Some c => Some c
  | None => attempt_link fp p.1
  end.

Lemma fallible_lookup fp now a t :
  neigh_lookup fp (fallible fp now a t) =
    match attempt_link fp a with Some c => Some c | None => neigh_lookup fp t end.
Proof.
  destruct a as [| |d pipe resp pk]; try done. cbn [fallible].
  unfold out_route_connect, mbind, M_bind, lift, connect, AuthResponse_verify.
  destruct resp as [r|], pk as [mux|]; try done. cbn [attempt_link].
  cbn. destruct (verify _ _ _) as [[]|e| |]; cbn; try done.
  destruct (decide (fingerprint (full_pk r) = fp)) as [Hfp|Hfp].
  - rewrite decide_False by tauto. cbn. unfold insert_pinned. rewrite neigh_lookup_insert.
    by rewrite decide_True.
  - by rewrite decide_True.
Qed.

(** Minutes without an answer leave the ticks of [timer1] unpolled. *)
Lemma out_route_rounds_unanswered fp n t0 t :
  out_route_rounds fp (replicate n Unanswered) (out_route_start t0 t) =
  mkOutRoute (t0 + 60 * N.of_nat n) (t0 + 60) (t0 + 60 * N.of_nat n + 60) t.
Proof.
  unfold out_route_rounds. induction n as [|n IH]; [cbn -[N.mul N.add]; unfold out_route_start, CONNECTION_LIFETIME; f_equal; lia|].
  rewrite replicate_S_end, foldl_app, IH. cbn [foldl]. unfold out_route_round, CONNECTION_LIFETIME.
  cbn [decided_after or_now timer1 timer2 or_table]. f_equal; lia.
Qed.

(** Each of them lets an attempt that fails at once be followed by the next. *)
Lemma out_route_burst fp m s :
  (or_now s <= timer2 s)%N → (timer1 s + 60 * N.of_nat m <= or_now s + 60)%N →
  or_now (out_route_rounds fp (replicate m (PipeFails 0)) s) = or_now s.
Proof.
  unfold out_route_rounds. revert s. induction m as [|m IH]; intros s H2 H1; [done|]. cbn [replicate foldl].
  assert (out_route_round fp (PipeFails 0) s =
    mkOutRoute (or_now s) (timer1 s + 60) (timer2 s) (or_table s)) as ->.
  { unfold out_route_round, CONNECTION_LIFETIME. cbn [decided_after fallible].
    rewrite !(proj2 (N.leb_le _ _)) by lia. f_equal; lia. }
  rewrite IH; cbn [or_now timer1 timer2]; lia.
Qed.

(** C27 (out-routes): when the first attempt of every minute is decided within the
    minute, the task of an out-route makes an attempt at the start of every
    minute and another, decided at once or not at all, at its end; and after each
    minute the neighbor is in the table if one of them authenticated it under the
    configured fingerprint.  Whatever the attempts do, their number since the
    start is at most one for every thirty seconds; this is an average, since
    after [n] minutes without an answer [n] attempts that fail at once follow each
    other at one time. *)
Theorem out_route_refreshes fp (minutes : list (Attempt * Attempt)) t0 t :
  Forall decided_in_time minutes →
  let s := out_route_rounds fp (two_attempts minutes) (out_route_start t0 t) in
  or_now s = (t0 + 60 * N.of_nat (length minutes))%N ∧
  (∀ p c, last minutes = Some p → minute_link fp p = Some c → neigh_lookup fp (or_table s) = Some c) ∧
  (∀ l, (30 * N.of_nat (length l) <= or_now (out_route_rounds fp l (out_route_start t0 t)) - t0)%N) ∧
  (∀ n, or_now (out_route_rounds fp (replicate n Unanswered) (out_route_start t0 t)) =
        or_now (out_route_rounds fp (replicate n Unanswered ++ replicate n (PipeFails 0)) (out_route_start t0 t))).
Proof.
  intros Hd. cbv zeta. split; [by apply out_route_minutes|].
  split; [|split; [intros l; apply out_route_rate|intros n]]; cycle 1.
  { rewrite (out_route_rounds_app fp (replicate n Unanswered)), out_route_rounds_unanswered.
    rewrite out_route_burst; cbn [or_now timer1 timer2]; [done|lia..]. }
  intros p c Hlast Hc. apply last_Some in Hlast as [minutes' ->].
  apply Forall_app in Hd as [Hd Hp]. apply Forall_singleton in Hp as (d & Ha & Hle).
  destruct (out_route_minutes fp minutes' t0 t Hd) as [Hs _].
  unfold two_attempts, out_route_rounds in *. rewrite fmap_app, join_app, foldl_app.
  cbn [fmap list_fmap mjoin list_join app].
  destruct (out_route_two_rounds fp p.1 p.2 d _ Hs Ha Hle) as (_ & _ & Ht). unfold out_route_rounds in Ht.
  rewrite Ht. unfold minute_link in Hc. case_decide.
  - rewrite !fallible_lookup. destruct (attempt_link fp p.2); [done|]. by rewrite Hc.
  - by rewrite fallible_lookup, Hc.
Qed.

(** ** The daemon *)

Definition in_accept_fails (ev : in_event) : bool := match ev with AcceptFails => true | _ => false end.

Lemma in_route_loop_result key evs s :
  (in_route_loop key evs s).1 = if existsb in_accept_fails evs then Some (Err CannotAccept) else None.
Proof.
  revert s. induction evs as [|ev evs IH]; intros s; [done|].
  destruct ev as [pipe cookie|now pipe resp pk|]; cbn; [apply IH..|done].
Qed.

(** How a route task ends, if it does: the out-route's loop has no exit. *)
Definition route_result (bound : SocketAddr → bool) (evs : list byte → list in_event) (t : NeighTable)
    (r : RouteTask) : option (outcome RouteError unit) :=
  match r with
  | InRoute name listen secret => (in_route_obfsudp (bound listen) secret (evs name) t).1
  | OutRoute _ _ _ _ => None
  end.

(** An in-route whose address cannot be bound or whose listener fails. *)
Definition in_route_fails (bound : SocketAddr → bool) (evs : list byte → list in_event)
    (r : list byte * InRouteConfig) : bool :=
  match r.2 with InObfsudp listen _ => negb (bound listen) || existsb in_accept_fails (evs r.1) end.

(** The configuration that a loop or a route task serves. *)
Definition haven_of (l : Loop) : option HavenForwardConfig := match l with HavenLoop c => Some c | _ => None end.
Definition udp_of (l : Loop) : option UdpForwardConfig := match l with UdpForwardLoop c => Some c | _ => None end.
Definition tcp_of (l : Loop) : option TcpForwardConfig := match l with TcpForwardLoop c => Some c | _ => None end.
Definition socks5_of (l : Loop) : option Socks5 := match l with Socks5Loop c => Some c | _ => None end.
Definition control_of (l : Loop) : option SocketAddr :=
  match l with ControlProtocolLoop a => Some a | _ => None end.
Definition peel_of (l : Loop) : option nat := match l with PeelForwardLoop i => Some i | _ => None end.
Definition fixed_of (l : Loop) : option Loop :=
  match l with
  | TableGc => Some l | GossipLoop => Some l | GlobalRpcLoop => Some l | RendezvousForwardLoop => Some l
  | _ => None
  end.
Definition in_of (r : RouteTask) : option (list byte * InRouteConfig) :=
  match r with InRoute name listen secret => Some (name, InObfsudp listen secret) | _ => None end.
Definition out_of (r : RouteTask) : option (list byte * OutRouteConfig) :=
  match r with OutRoute name fp connect cookie => Some (name, OutObfsudp fp connect cookie) | _ => None end.

(** The loops are those of the configuration, no more and no fewer. *)
Definition configured_loops (cores : option nat) (cfg : ConfigFile) (loops : list Loop) : Prop :=
  omap haven_of loops = havens cfg ∧ omap udp_of loops = udp_forwards cfg ∧
  omap tcp_of loops = tcp_forwards cfg ∧ omap socks5_of loops = option_list (socks5 cfg) ∧
  omap control_of loops = [control_listen cfg] ∧ omap peel_of loops = seq 0 (default 1 cores) ∧
  omap fixed_of loops = [TableGc; GossipLoop; GlobalRpcLoop; RendezvousForwardLoop].

Lemma omap_fmap_Some {A B} (f : B → option A) (g : A → B) (l : list A) :
  (∀ x, f (g x) = Some x) → omap f (g <$> l) = l.
Proof. intros H. induction l as [|x l IH]; [done|]. cbn. rewrite H. by rewrite <-IH at 2. Qed.

Lemma omap_fmap_None {A B A'} (f : B → option A') (g : A → B) (l : list A) :
  (∀ x, f (g x) = None) → omap f (g <$> l) = [].
Proof. intros H. induction l as [|x l IH]; [done|]. cbn. by rewrite H. Qed.

Ltac omap_loops :=
  rewrite ?omap_app;
  repeat first [rewrite omap_fmap_Some by (by intros)|rewrite omap_fmap_None by (by intros)];
  rewrite ?app_nil_r.

Lemma daemon_loops_configured cores cfg : configured_loops cores cfg (daemon_loops cores cfg).
Proof.
  unfold configured_loops, daemon_loops. change (TableGc :: ?l) with ([TableGc] ++ l).
  split_and!; omap_loops; done.
Qed.

Lemma daemon_routes_configured cfg :
  omap in_of (daemon_routes cfg) = in_routes cfg ∧ omap out_of (daemon_routes cfg) = out_routes cfg.
Proof.
  unfold daemon_routes. rewrite !omap_app. split.
  - rewrite omap_fmap_Some, omap_fmap_None, app_nil_r; [done|by intros [? []]..].
  - rewrite omap_fmap_None, omap_fmap_Some; [done|by intros [? []]..].
Qed.

Lemma in_route_result bound evs t name listen secret :
  if in_route_fails bound evs (name, InObfsudp listen secret)
  then ∃ e, route_result bound evs t (InRoute name listen secret) = Some (Err e)
  else route_result bound evs t (InRoute name listen secret) = None.
Proof.
  unfold in_route_fails, route_result, in_route_obfsudp. cbn [fst snd].
  destruct (bound listen); cbn [negb orb]; [|by eexists]. rewrite in_route_loop_result.
  destruct (existsb in_accept_fails (evs name)); [by eexists|done].
Qed.

(** The results there are: an error for each in-route that fails. *)
Lemma route_results bound evs t cfg :
  (∀ o, o ∈ omap (route_result bound evs t) (daemon_routes cfg) → ∃ e, o = Err e) ∧
  (omap (route_result bound evs t) (daemon_routes cfg) = [] ↔
   existsb (in_route_fails bound evs) (in_routes cfg) = false).
Proof.
  unfold daemon_routes. rewrite omap_app, (omap_fmap_None _ _ (out_routes cfg)), app_nil_r by (by intros [? []]).
  induction (in_routes cfg) as [|[name [listen secret]] l [IH1 IH2]]; [by split; [intros o ?%elem_of_nil|]|].
  pose proof (in_route_result bound evs t name listen secret) as Hr.
  cbn [fmap list_fmap omap list_omap existsb].
  destruct (in_route_fails bound evs (name, InObfsudp listen secret)); cbn [orb];
    [destruct Hr as [e ->]|by rewrite Hr].
  split; [|done]. intros o [->|Ho]%elem_of_cons; eauto.
Qed.

(** C20 (staying up): once the identity is there, the daemon stays up if the
    configuration has a route, every in-route's address can be bound, no listener
    fails and no other task of the process panics.  It then keeps a loop for each
    configured haven, forward and proxy, one for the control server's address,
    those of a relay, one for packets on each core, and a task for every route.
    In every other case the process is aborted and no loop is left, also
    when the configuration has no routes at all. *)
Theorem daemon_stays_up can_read can_write fuel cores cfg d id d' bound evs t done panicked :
  global_identity_init can_read can_write fuel (cf_identity cfg) d = (Ok id, d') →
  done ≡ₚ omap (route_result bound evs t) (daemon_routes cfg) →
  let r := process panicked (init_task can_read can_write fuel cores cfg d done) in
  if panicked || bool_decide (in_routes cfg = [] ∧ out_routes cfg = []) ||
     existsb (in_route_fails bound evs) (in_routes cfg)
  then r = mkRunning [] (Some Panic)
  else task_result r = None ∧ configured_loops cores cfg (running_loops r) ∧
       omap in_of (daemon_routes cfg) = in_routes cfg ∧ omap out_of (daemon_routes cfg) = out_routes cfg.
Proof.
  intros Hid Hdone. unfold process, init_task, main_daemon. rewrite Hid. cbn [fst].
  destruct panicked; [done|]. cbn [orb].
  destruct (route_results bound evs t cfg) as [Herr Hnone]. destruct (daemon_routes_configured cfg) as [Hin Hout].
  case_bool_decide as Hnil; cbn [orb].
  { destruct Hnil as [H1 H2]. unfold daemon_routes. by rewrite H1, H2. }
  destruct (daemon_routes cfg) as [|r0 routes] eqn:Hr; [by destruct Hnil|]. cbn [length].
  destruct (existsb (in_route_fails bound evs) (in_routes cfg)).
  - destruct done as [|o done].
    { apply Permutation_nil_l in Hdone. symmetry in Hdone. by apply Hnone in Hdone. }
    destruct (Herr o) as [e ->]; [rewrite <-Hdone; left|]. done.
  - rewrite (proj2 Hnone eq_refl) in Hdone. apply Permutation_nil_r in Hdone as ->. cbn.
    split_and!; [done|apply daemon_loops_configured|done..].
Qed.

End Startup.

(** * Witnesses *)

Definition su_addr (p : N) : SocketAddr := mkSocketAddr (V4 (zeros 4)) p.
Definition su_config (ins : list (list byte * InRouteConfig)) : ConfigFile :=
  mkConfigFile (Some (IdentityFile [x6b])) (su_addr 18964) ins
    [([x6f], OutObfsudp (sample_fp x09) (su_addr 19999) (zeros 32))] [] [] None [].

#[export] Instance toy_obfs : ObfsUdp := {| obfs_public := λ a, a; obfs_accepts := λ k c, bool_decide (k = c) |}.
#[export] Instance toy_obfs_laws : ObfsUdpLaws toy_obfs.
Proof. split. intros k. by apply bool_decide_eq_true_2. Qed.

(** The identity exists; one listener is up and has met a peer that failed to
    authenticate.  Then the same with an address that is taken. *)
Lemma daemon_stays_up_witness :
  let cfg := su_config [([x69], InObfsudp (su_addr 1) [])] in
  let r := process false (init_task (P:=toy) (λ _, true) (λ _, true) 2 (Some 2) cfg sample_disk []) in
  (task_result r = None ∧ configured_loops (Some 2) cfg (running_loops r)) ∧
  process false (init_task (P:=toy) (λ _, true) (λ _, true) 2 None cfg sample_disk [Err CannotBind]) =
    mkRunning [] (Some Panic).
Proof.
  intros cfg r.
  destruct (global_identity_init (P:=toy) (λ _, true) (λ _, true) 2 (cf_identity cfg) sample_disk)
    as [o d'] eqn:Hid.
  assert (is_ok o = true) as Hok.
  { change o with (o, d').1. rewrite <-Hid. vm_compute. reflexivity. }
  destruct o as [id| | |]; try discriminate Hok. split.
  - destruct (daemon_stays_up (P:=toy) (λ _, true) (λ _, true) 2 (Some 2) cfg sample_disk id d' (λ _, true)
      (λ _, [PipeArrives 3 (in_route_key (P:=toy) []); PipeAuthenticated 10 3 None None]) NeighTable_new []
      false Hid (Permutation_refl _)) as (H1 & H2 & _).
    exact (conj H1 H2).
  - exact (daemon_stays_up (P:=toy) (λ _, true) (λ _, true) 2 None cfg sample_disk id d' (λ _, false)
      (λ _, []) NeighTable_new [Err CannotBind] false Hid (Permutation_refl _)).
Defined.

Definition su_good : Attempt :=
  PipeConnects 4 7 (Some (AuthResponse_new (P:=toy) (node_isk x02) sample_mux)) (Some sample_mux).

Lemma su_good_link :
  minute_link (P:=toy) fp2 (su_good, Unanswered) = Some (mkLinkConnection 7 (public (P:=toy) (node_isk x02))).
Proof.
  unfold minute_link. cbn [decided_after snd fst su_good attempt_link].
  rewrite decide_False by done.
  pose proof (AuthResponse_verify_new (P:=toy) (node_isk x02) sample_mux) as Hv.
  unfold AuthResponse_verify in Hv. rewrite Hv. by rewrite decide_True.
Qed.

(** A minute in which the pipe fails and one in which the neighbor answers. *)
Lemma out_route_refreshes_witness :
  let s := out_route_rounds (P:=toy) fp2 (two_attempts [(PipeFails 3, PipeFails 0); (su_good, Unanswered)])
             (out_route_start 1000 NeighTable_new) in
  or_now s = 1120%N ∧
  neigh_lookup fp2 (or_table s) = Some (mkLinkConnection 7 (public (P:=toy) (node_isk x02))).
Proof.
  destruct (out_route_refreshes (P:=toy) fp2 [(PipeFails 3, PipeFails 0); (su_good, Unanswered)] 1000
    NeighTable_new) as (Hn & Hl & _).
  - constructor; [exists 3%N; split; [reflexivity|discriminate]|].
    constructor; [exists 4%N; split; [reflexivity|discriminate]|]. constructor.
  - split; [exact Hn|]. apply (Hl _ _ eq_refl). exact su_good_link.
Defined.
