(* ===== verification/Stream.v ===== *)
(** Streams over sockets: [src/stream.rs] and [src/stream/listener.rs].

    The reliable-stream state machine is the sosistab2 crate's: [StreamStates] is
    what the program calls of it, and [StreamMessage] has the variants it
    distinguishes.  A listener serves many clients over one socket: it keeps
    one state machine per client endpoint, shared with the task that ticks it,
    so the table holds handles into the store [states].  What the socket
    receives is an argument, and what is sent is collected in [sent]. *)

From S2P Require Import Prelude Interfaces Crypto Packet Daemon Instances.

Inductive RelKind := Syn | SynAck | Rst | OtherKind (n : N).

Inductive StreamMessage :=
  | Reliable (kind : RelKind) (stream_id seqno : N) (payload : list byte)
  | Unreliable (payload : list byte).

(** [sosistab2::StreamState]: [tick now] gives the messages to send and, unless
    the stream is dead, when to tick again. *)
Class StreamStates : Type := {
  StreamState : Type;
  new_established : N → StreamState;
  inject_incoming : StreamMessage → StreamState → StreamState;
  tick : N → StreamState → (list StreamMessage * option N) * StreamState
}.

Inductive AcceptError := AcceptDecode | AcceptSend.

Section Stream.
  Context {SS : StreamStates} {IM : IndexMap} {SM : Stdcode StreamMessage}.

(** * The listener *)

(** [tickers] are the running tasks, each with the endpoint it captured. *)
Record StreamListener := mkListener {
  stream_table : imap Endpoint N;
  states : gmap N StreamState;
  tickers : gmap N Endpoint;
  sent : list (list byte * Endpoint)
}.

Definition listen : StreamListener := mkListener im_empty ∅ ∅ [].

Definition log_send (msg : StreamMessage) (ep : Endpoint) (self : StreamListener) : StreamListener :=
  mkListener (stream_table self) (states self) (tickers self) (sent self ++ [(stdcode msg, ep)]).

(** [self.socket.send_to(msg.stdcode().into(), ep).await?]. *)
Definition try_send_to (can_send : list byte → Endpoint → bool) (msg : StreamMessage) (ep : Endpoint)
    : M StreamListener AcceptError unit :=
  if can_send (stdcode msg) ep then modify (log_send msg ep) else throw AcceptSend.

(** The body of the loop of [accept] for a message from the socket: the handle
    of a new stream, or [None] to go on. *)
Definition accept_message (can_send : list byte → Endpoint → bool) (msg : list byte)
    (client_ep : Endpoint) : M StreamListener AcceptError (option N) :=
  stream_msg ← lift (ok_or AcceptDecode (stdcode_deserialize (A:=StreamMessage) msg));
  match stream_msg with
  | Reliable Syn stream_id seqno payload =>
      _ ← try_send_to can_send (Reliable SynAck stream_id seqno payload) client_ep;
      self ← get_state;
      let h := fresh (dom (states self)) in
      _ ← put_state (mkListener (im_insert client_ep h (stream_table self))
                       (<[h := new_established stream_id]> (states self))
                       (<[h := client_ep]> (tickers self)) (sent self));
      mret (Some h)
  | Reliable Rst _ _ _ =>
      _ ← modify (λ self, mkListener (im_remove client_ep (stream_table self)) (states self)
                            (tickers self) (sent self));
      mret None
  | Reliable _ stream_id seqno payload =>
      self ← get_state;
      match im_get client_ep (stream_table self) with
      | Some h =>
          _ ← put_state (mkListener (stream_table self)
                           (alter (inject_incoming stream_msg) h (states self))
                           (tickers self) (sent self));
          mret None
      | None =>
          _ ← try_send_to can_send (Reliable Rst stream_id seqno payload) client_ep;
          mret None
      end
  | Unreliable _ => mret None
  end.

(** [accept] on the messages that the socket receives: the first new stream or
    error with the messages that are left, or [None] when it waits for more. *)
Fixpoint accept (can_send : list byte → Endpoint → bool) (inbox : list (list byte * Endpoint))
    (self : StreamListener)
    : option (outcome AcceptError N) * list (list byte * Endpoint) * StreamListener :=
  match inbox with
  | [] => (None, [], self)
  | (msg, client_ep) :: inbox =>
      match accept_message can_send msg client_ep self with
      | (Ok None, self) => accept can_send inbox self
      | (Ok (Some h), self) => (Some (Ok h), inbox, self)
      | (Err e, self) => (Some (Err e), inbox, self)
      | (Panic, self) => (Some Panic, inbox, self)
      | (OutOfFuel, self) => (Some OutOfFuel, inbox, self)
      end
  end.

(** A round of the task that ticks a stream.  The messages are sent when its wait
    is over, their failures ignored; a dead stream's endpoint leaves the table
    and the task ends. *)
Definition ticker_step (now : N) (h : N) (self : StreamListener) : StreamListener :=
  match tickers self !! h, states self !! h with
  | Some client_ep, Some st =>
      let '((outgoing, maybe_retick), st) := tick now st in
      let self := mkListener (stream_table self) (<[h := st]> (states self)) (tickers self) (sent self) in
      match maybe_retick with
      | Some _ => for_each (λ msg, log_send msg client_ep) outgoing self
      | None => mkListener (im_remove client_ep (stream_table self)) (states self)
                  (delete h (tickers self)) (sent self)
      end
  | _, _ => self
  end.

(** * The client *)

(** The first message of [Stream::connect]. *)
Definition syn_message (our_stream_id : N) : StreamMessage := Reliable Syn our_stream_id 0 [].

(** [wait_synack]: the messages left after a SYNACK of the server, or [None]
    while there is none. *)
Fixpoint wait_synack (server_endpoint : Endpoint) (inbox : list (list byte * Endpoint))
    : option (list (list byte * Endpoint)) :=
  match inbox with
  | [] => None
  | (msg, ep) :: inbox =>
      if decide (ep = server_endpoint) then
        match stdcode_deserialize (A:=StreamMessage) msg with
        | Some (Reliable SynAck _ _ _) => Some inbox
        | _ => wait_synack server_endpoint inbox
        end
      else wait_synack server_endpoint inbox
  end.

(** [Stream::connect] up to the constructed state. *)
Definition stream_connect (our_stream_id : N) (server_endpoint : Endpoint)
    (inbox : list (list byte * Endpoint)) : option (StreamState * list (list byte * Endpoint)) :=
  inbox ← wait_synack server_endpoint inbox;
  Some (new_established our_stream_id, inbox).

(** [down_loop]: a message that does not decode ends the stream ([None]). *)
Definition stream_down (msg : list byte) (st : StreamState) : option StreamState :=
  smsg ← stdcode_deserialize (A:=StreamMessage) msg;
  Some (inject_incoming smsg st).

(** A round of [ticker_task] with the messages that [up_loop] then sends. *)
Definition stream_up (now : N) (st : StreamState) : option (list (list byte) * StreamState) :=
  let '((outgoing, maybe), st) := tick now st in
  _ ← maybe;
  Some (stdcode <$> outgoing, st).

(** * Properties *)

Context {IML : IndexMapLaws IM} {SML : StdcodeLaws StreamMessage}.

(** What happens to a listener: a message arrives, or a stream's task runs. *)
Inductive listener_event :=
  | LArrive (msg : list byte) (ep : Endpoint)
  | LTick (now : N) (h : N).

Definition listener_apply (can_send : list byte → Endpoint → bool) (ev : listener_event)
    (self : StreamListener) : StreamListener :=
  match ev with
  | LArrive msg ep => (accept_message can_send msg ep self).2
  | LTick now h => ticker_step now h self
  end.

(** Whether the event is a message at which [accept] fails: one that does not
    decode, or whose answer cannot be sent. *)
Definition accept_fails (can_send : list byte → Endpoint → bool) (ev : listener_event)
    (self : StreamListener) : bool :=
  match ev with
  | LArrive msg ep => negb (is_ok (accept_message can_send msg ep self).1)
  | LTick _ _ => false
  end.

Definition is_tick (ev : listener_event) : bool :=
  match ev with LTick _ _ => true | LArrive _ _ => false end.

(** The events that take effect.  The callers end their loop at the first error
    of [accept] ([let stream = listener.accept().await?]): no message is
    received after it, while tasks of streams may still run. *)
Fixpoint heard (can_send : list byte → Endpoint → bool) (evs : list listener_event)
    (self : StreamListener) : list listener_event :=
  match evs with
  | [] => []
  | ev :: evs =>
      ev :: (if accept_fails can_send ev self then filter (λ ev, is_tick ev = true) evs
             else heard can_send evs (listener_apply can_send ev self))
  end.

Definition listener_run (can_send : list byte → Endpoint → bool) (evs : list listener_event)
    (self : StreamListener) : StreamListener :=
  for_each (listener_apply can_send) (heard can_send evs self) self.

(** No event ends the listener. *)
Fixpoint listening (can_send : list byte → Endpoint → bool) (evs : list listener_event)
    (self : StreamListener) : bool :=
  match evs with
  | [] => true
  | ev :: evs =>
      negb (accept_fails can_send ev self) && listening can_send evs (listener_apply can_send ev self)
  end.

Lemma heard_Forall (Q : listener_event → Prop) can_send evs self :
  Forall Q evs → Forall Q (heard can_send evs self).
Proof.
  intros H. revert self. induction H as [|ev evs Hev Hevs IH]; intros self; cbn [heard]; constructor; [done|].
  destruct (accept_fails _ _ _); [|apply IH]. apply Forall_forall. intros x [_ Hx]%list_elem_of_filter.
  rewrite Forall_forall in Hevs. auto.
Qed.

(** While it listens, every event takes effect. *)
Lemma listening_heard can_send evs self : listening can_send evs self = true → heard can_send evs self = evs.
Proof.
  revert self. induction evs as [|ev evs IH]; intros self; [done|]. cbn [listening heard].
  intros [Hf Hl]%andb_true_iff. apply negb_true_iff in Hf. by rewrite Hf, IH.
Qed.

Lemma listening_app can_send evs evs' self :
  listening can_send evs self = true →
  heard can_send (evs ++ evs') self = evs ++ heard can_send evs' (listener_run can_send evs self).
Proof.
  intros Hl. unfold listener_run. rewrite (listening_heard _ _ _ Hl). revert self Hl.
  induction evs as [|ev evs IH]; intros self; [done|]. cbn [listening heard app for_each].
  intros [Hf Hl]%andb_true_iff. apply negb_true_iff in Hf. by rewrite Hf, IH.
Qed.

Lemma listener_run_app can_send evs evs' self :
  listening can_send evs self = true →
  listener_run can_send (evs ++ evs') self = listener_run can_send evs' (listener_run can_send evs self).
Proof.
  intros Hl. unfold listener_run at 1. rewrite (listening_app _ _ _ _ Hl).
  rewrite for_each_app. unfold listener_run. by rewrite (listening_heard _ _ _ Hl).
Qed.

(** [accept] takes messages one by one until one opens a stream or fails, and does
    to the listener what those messages do. *)
Lemma accept_runs can_send inbox self r rest self' :
  accept can_send inbox self = (r, rest, self') →
  ∃ used, inbox = used ++ rest ∧
    self' = listener_run can_send ((λ m, LArrive m.1 m.2) <$> used) self.
Proof.
  revert self. induction inbox as [|[msg ep] inbox IH]; intros self; cbn [accept].
  { intros [= <- <- <-]. by exists []. }
  destruct (accept_message can_send msg ep self) as [o self1] eqn:Ha.
  destruct o as [[h|]|e| |];
    try (intros [= <- <- <-]; exists [(msg, ep)]; split; [done|]; unfold listener_run; cbn; by rewrite Ha).
  intros (used & -> & ->)%IH. exists ((msg, ep) :: used). split; [done|].
  unfold listener_run. cbn. by rewrite Ha.
Qed.

(** The specification: the state machine of one client alone, given only its own
    messages and ticks; [None] once it is dead. *)
Definition alone_step (h : N) (ep : Endpoint) (ev : listener_event)
    (st : StreamState * list (list byte)) : option (StreamState * list (list byte)) :=
  match ev with
  | LArrive msg ep' =>
      if decide (ep' = ep) then
        match stdcode_deserialize (A:=StreamMessage) msg with
        | Some (Reliable kind a b c) => Some (inject_incoming (Reliable kind a b c) st.1, st.2)
        | _ => Some st
        end
      else Some st
  | LTick now h' =>
      if decide (h' = h) then
        '(out, s) ← stream_up now st.1; Some (s, st.2 ++ out)
      else Some st
  end.

Fixpoint alone_run (h : N) (ep : Endpoint) (evs : list listener_event)
    (st : StreamState * list (list byte)) : option (StreamState * list (list byte)) :=
  match evs with
  | [] => Some st
  | ev :: evs => st ← alone_step h ep ev st; alone_run h ep evs st
  end.

(** The client neither opens another stream nor resets this one. *)
Definition no_new_stream (ep : Endpoint) (ev : listener_event) : Prop :=
  match ev with
  | LArrive msg ep' => ep' = ep →
      match stdcode_deserialize (A:=StreamMessage) msg with
      | Some (Reliable Syn _ _ _) | Some (Reliable Rst _ _ _) => False
      | _ => True
      end
  | LTick _ _ => True
  end.

(** What was sent to an endpoint. *)
Definition sent_to (ep : Endpoint) (self : StreamListener) : list (list byte) :=
  (filter (λ p, p.2 = ep) (sent self)).*1.

(** The listener serves [ep] with the stream [h] in state [st]. *)
Record serves (h : N) (ep : Endpoint) (st : StreamState * list (list byte))
    (self : StreamListener) : Prop := {
  sv_table : im_get ep (stream_table self) = Some h;
  sv_state : states self !! h = Some st.1;
  sv_ticker h' : tickers self !! h' = Some ep ↔ h' = h;
  sv_dom h' ep' : tickers self !! h' = Some ep' → is_Some (states self !! h');
  sv_table_dom h' ep' : im_get ep' (stream_table self) = Some h' → tickers self !! h' = Some ep';
  sv_sent : sent_to ep self = st.2
}.

Lemma sent_to_app ep tab sts tks l p :
  sent_to ep (mkListener tab sts tks (l ++ [p])) =
  sent_to ep (mkListener tab sts tks l) ++ (if decide (p.2 = ep) then [p.1] else []).
Proof.
  unfold sent_to; cbn. rewrite filter_app, fmap_app. f_equal.
  rewrite filter_cons, filter_nil. by case_decide.
Qed.

Lemma log_send_other h ep st msg ep' self :
  ep' ≠ ep → serves h ep st self → serves h ep st (log_send msg ep' self).
Proof.
  intros Hne [H1 H2 H3 H4 H5 H6]. split; [done..|].
  unfold log_send. rewrite sent_to_app. cbn. rewrite decide_False by done.
  by rewrite app_nil_r.
Qed.

Lemma log_sends_self h ep s out msgs self :
  serves h ep (s, out) self →
  serves h ep (s, out ++ (stdcode <$> msgs)) (for_each (λ msg, log_send msg ep) msgs self).
Proof.
  revert out self. induction msgs as [|m msgs IH]; intros out self Hs; cbn.
  { by rewrite app_nil_r. }
  replace (out ++ stdcode m :: (stdcode <$> msgs)) with ((out ++ [stdcode m]) ++ (stdcode <$> msgs))
    by by rewrite <-app_assoc.
  apply IH. destruct Hs as [H1 H2 H3 H4 H5 H6]. split; [done..|].
  unfold log_send. rewrite sent_to_app. cbn. rewrite decide_True by done. cbn in H6. rewrite <-H6. by destruct self.
Qed.

Lemma log_sends_other h ep st msgs ep' self :
  ep' ≠ ep → serves h ep st self → serves h ep st (for_each (λ msg, log_send msg ep') msgs self).
Proof.
  intros Hne. revert self. induction msgs as [|m msgs IH]; intros self Hs; cbn; [done|].
  by apply IH, log_send_other.
Qed.

(** A state change of another client's stream. *)
Lemma serves_states h ep st self sts :
  serves h ep st self → sts !! h = Some st.1 → (∀ h', is_Some (states self !! h') → is_Some (sts !! h')) →
  serves h ep st (mkListener (stream_table self) sts (tickers self) (sent self)).
Proof. intros [H1 H2 H3 H4 H5 H6] Hh Hdom. split; cbn; eauto. Qed.

Lemma ticker_step_serves h ep st now h' self :
  serves h ep st self →
  match alone_step h ep (LTick now h') st with
  | Some st' => serves h ep st' (ticker_step now h' self)
  | None => True
  end.
Proof.
  intros Hs. cbn [alone_step]. unfold ticker_step, stream_up. case_decide as Hh.
  - subst h'. rewrite (proj2 (sv_ticker _ _ _ _ Hs h) eq_refl), (sv_state _ _ _ _ Hs).
    destruct (tick now st.1) as [[out [retick|]] s'] eqn:Ht; cbn; rewrite ?Ht; cbn; [|done].
    apply log_sends_self. destruct st as [s0 out0]. destruct Hs as [H1 H2 H3 H4 H5 H6].
    split; cbn; [done|by rewrite lookup_insert_eq|done| |done|done].
    intros h' ep' Ht'. rewrite lookup_insert. case_decide; [done|]. by eapply H4.
  - destruct (tickers self !! h') as [ep'|] eqn:Htk; [|done].
    destruct (states self !! h') as [s0|] eqn:Hst; [|done].
    assert (ep' ≠ ep) as Hep by (intros ->; by apply (sv_ticker _ _ _ _ Hs) in Htk).
    destruct (tick now s0) as [[out retick] s'].
    assert (serves h ep st (mkListener (stream_table self) (<[h' := s']> (states self)) (tickers self)
      (sent self))) as Hs'.
    { apply serves_states; [done| |].
      - rewrite lookup_insert_ne by congruence. apply Hs.
      - intros k Hk. rewrite lookup_insert. by case_decide. }
    destruct retick; [by apply log_sends_other|]. destruct Hs' as [H1 H2 H3 H4 H5 H6].
    split; cbn in *; [|done| | | |done].
    + rewrite im_get_remove, decide_False by done. done.
    + intros k. rewrite lookup_delete. case_decide; [|apply H3]. subst k.
      split; [done|]. intros ->. congruence.
    + intros k ep1. rewrite lookup_delete. case_decide; [done|apply H4].
    + intros k ep1. rewrite im_get_remove. case_decide as He; [done|]. intros Hk%H5.
      rewrite lookup_delete_ne; [done|]. intros <-. congruence.
Qed.

(** A message of another client. *)
Lemma accept_other_serves can_send h ep st msg ep' self :
  ep' ≠ ep → serves h ep st self → serves h ep st (accept_message can_send msg ep' self).2.
Proof.
  intros Hne Hs. unfold accept_message, mbind, M_bind, lift.
  destruct (stdcode_deserialize msg) as [[kind a b c|pl]|]; cbn; [|done..].
  assert (serves h ep st (match im_get ep' (stream_table self) with
    | Some k => mkListener (stream_table self) (alter (inject_incoming (Reliable kind a b c)) k (states self))
                  (tickers self) (sent self)
    | None => self end)) as Hdata.
  { destruct (im_get ep' (stream_table self)) as [k|] eqn:Hk; [|done].
    apply (sv_table_dom _ _ _ _ Hs) in Hk.
    apply serves_states; [done| |].
    - rewrite lookup_alter_ne; [apply Hs|]. intros ->.
      rewrite (proj2 (sv_ticker _ _ _ _ Hs h) eq_refl) in Hk. congruence.
    - intros k' Hk'. rewrite lookup_alter. case_decide; [|done]. subst. by apply fmap_is_Some. }
  unfold try_send_to, get_state. destruct kind.
  - destruct (can_send _ _); [|done]. cbn. pose proof (log_send_other h ep st
      (Reliable SynAck a b c) ep' self Hne Hs) as [H1 H2 H3 H4 H5 H6]. cbn in *.
    set (k := base.fresh (dom (states self))).
    assert (states self !! k = None) as Hk by (apply not_elem_of_dom, is_fresh).
    assert (k ≠ h) by congruence.
    assert (tickers self !! k = None) as Htk.
    { destruct (tickers self !! k) eqn:E; [|done]. apply H4 in E as [? E]. congruence. }
    split; cbn; [|by rewrite lookup_insert_ne| | | |done].
    + rewrite im_get_insert, decide_False by done. done.
    + intros k'. rewrite lookup_insert. case_decide; [|apply H3]. subst k'. split; congruence.
    + intros k' ep1. rewrite !lookup_insert. case_decide; [done|apply H4].
    + intros k' ep1. rewrite im_get_insert. case_decide; [intros [= <-]; subst; by rewrite lookup_insert_eq|].
      intros E%H5. rewrite lookup_insert_ne; [done|]. intros ->. congruence.
  - destruct (im_get ep' (stream_table self)) eqn:Hg; [done|]. destruct (can_send _ _); [|done].
    by apply log_send_other.
  - destruct Hs as [H1 H2 H3 H4 H5 H6]. split; cbn; [|done..| |done].
    + rewrite im_get_remove, decide_False by done. done.
    + intros k ep1. rewrite im_get_remove. case_decide; [done|apply H5].
  - destruct (im_get ep' (stream_table self)) eqn:Hg; [done|]. destruct (can_send _ _); [|done].
    by apply log_send_other.
Qed.

(** A message of the client itself. *)
Lemma accept_self_serves can_send h ep st msg self :
  no_new_stream ep (LArrive msg ep) → serves h ep st self →
  match alone_step h ep (LArrive msg ep) st with
  | Some st' => serves h ep st' (accept_message can_send msg ep self).2
  | None => True
  end.
Proof.
  intros Hno Hs. cbn [alone_step]. rewrite decide_True by done. specialize (Hno eq_refl).
  unfold accept_message, mbind, M_bind, lift.
  destruct (stdcode_deserialize msg) as [[kind a b c|pl]|]; cbn; [|done..].
  assert (serves h ep (inject_incoming (Reliable kind a b c) st.1, st.2)
    (mkListener (stream_table self) (alter (inject_incoming (Reliable kind a b c)) h (states self))
       (tickers self) (sent self))) as Hdata.
  { destruct Hs as [H1 H2 H3 H4 H5 H6]. split; cbn; [done| |done| |done|done].
    - by rewrite lookup_alter_eq, H2.
    - intros k ep1 Hk. rewrite lookup_alter. case_decide; [subst; apply fmap_is_Some|]; by eapply H4. }
  unfold get_state. destruct kind; [done| |done|]; rewrite (sv_table _ _ _ _ Hs); exact Hdata.
Qed.

Lemma listener_steps_serve can_send h ep evs st self :
  Forall (no_new_stream ep) evs → serves h ep st self →
  match alone_run h ep evs st with
  | Some st' => serves h ep st' (for_each (listener_apply can_send) evs self)
  | None => True
  end.
Proof.
  intros Hevs. revert st self. induction Hevs as [|ev evs Hev Hevs IH]; intros st self Hs; [done|].
  cbn [alone_run for_each].
  assert (match alone_step h ep ev st with
    | Some st' => serves h ep st' (listener_apply can_send ev self) | None => True end) as Hstep.
  { destruct ev as [msg ep'|now h']; [|by apply ticker_step_serves].
    cbn [listener_apply]. destruct (decide (ep' = ep)) as [->|Hne]; [by apply accept_self_serves|].
    cbn [alone_step]. rewrite decide_False by done. by apply accept_other_serves. }
  destruct (alone_step h ep ev st) as [st'|]; cbn; [|done]. by apply IH.
Qed.

(** ** Before the first message of a client *)

Record unknown (ep : Endpoint) (self : StreamListener) : Prop := {
  uk_table : im_get ep (stream_table self) = None;
  uk_ticker h : tickers self !! h ≠ Some ep;
  uk_dom h ep' : tickers self !! h = Some ep' → is_Some (states self !! h);
  uk_table_dom h ep' : im_get ep' (stream_table self) = Some h → tickers self !! h = Some ep';
  uk_sent : sent_to ep self = []
}.

Lemma unknown_listen ep : unknown ep listen.
Proof.
  split; [apply im_get_empty|by intros h|by intros h ep'| |done]. cbn. intros h ep'. by rewrite im_get_empty.
Qed.

Lemma unknown_log ep msg ep' self : ep' ≠ ep → unknown ep self → unknown ep (log_send msg ep' self).
Proof.
  intros Hne [H1 H2 H3 H4 H5]. split; [done..|]. unfold log_send. rewrite sent_to_app. cbn.
  rewrite decide_False by done. rewrite app_nil_r. exact H5.
Qed.

Lemma unknown_logs ep msgs ep' self :
  ep' ≠ ep → unknown ep self → unknown ep (for_each (λ msg, log_send msg ep') msgs self).
Proof.
  intros Hne. revert self. induction msgs as [|m msgs IH]; intros self Hs; cbn; [done|].
  by apply IH, unknown_log.
Qed.

Lemma unknown_states ep self sts :
  unknown ep self → (∀ h, is_Some (states self !! h) → is_Some (sts !! h)) →
  unknown ep (mkListener (stream_table self) sts (tickers self) (sent self)).
Proof. intros [H1 H2 H3 H4 H5] Hd. split; cbn; eauto. Qed.

Lemma unknown_tick ep now h self : unknown ep self → unknown ep (ticker_step now h self).
Proof.
  intros Hu. unfold ticker_step. destruct (tickers self !! h) as [ep'|] eqn:Htk; [|done].
  destruct (states self !! h) as [s0|]; [|done].
  assert (ep' ≠ ep) as Hne by (intros ->; by apply (uk_ticker _ _ Hu) in Htk).
  destruct (tick now s0) as [[out retick] s'].
  assert (unknown ep (mkListener (stream_table self) (<[h := s']> (states self)) (tickers self) (sent self)))
    as Hu'.
  { apply unknown_states; [done|]. intros k Hk. rewrite lookup_insert. by case_decide. }
  destruct retick; [by apply unknown_logs|]. destruct Hu' as [H1 H2 H3 H4 H5]. cbn in *.
  split; cbn; [| | | |done].
  - rewrite im_get_remove. by case_decide.
  - intros k. rewrite lookup_delete. case_decide; [done|apply H2].
  - intros k ep1. rewrite lookup_delete. case_decide; [done|apply H3].
  - intros k ep1. rewrite im_get_remove. case_decide; [done|]. intros Hk%H4.
    rewrite lookup_delete_ne; [done|]. intros <-. congruence.
Qed.

Lemma unknown_accept can_send ep msg ep' self :
  ep' ≠ ep → unknown ep self → unknown ep (accept_message can_send msg ep' self).2.
Proof.
  intros Hne Hu. unfold accept_message, mbind, M_bind, lift.
  destruct (stdcode_deserialize msg) as [[kind a b c|pl]|]; cbn; [|done..].
  unfold try_send_to, get_state. destruct kind.
  - destruct (can_send _ _); [|done]. cbn.
    pose proof (unknown_log ep (Reliable SynAck a b c) ep' self Hne Hu) as [H1 H2 H3 H4 H5]. cbn in *.
    set (k := base.fresh (dom (states self))).
    assert (states self !! k = None) as Hk by (apply not_elem_of_dom, is_fresh).
    assert (tickers self !! k = None) as Htk.
    { destruct (tickers self !! k) eqn:E; [|done]. apply H3 in E as [? E]. congruence. }
    split; cbn; [| | | |done].
    + rewrite im_get_insert, decide_False by done. done.
    + intros k'. rewrite lookup_insert. case_decide; [congruence|apply H2].
    + intros k' ep1. rewrite !lookup_insert. case_decide; [done|apply H3].
    + intros k' ep1. rewrite im_get_insert. case_decide; [intros [= <-]; subst; by rewrite lookup_insert_eq|].
      intros E%H4. rewrite lookup_insert_ne; [done|]. intros ->. congruence.
  - destruct (im_get ep' (stream_table self)) as [k|]; [|destruct (can_send _ _); [by apply unknown_log|done]].
    apply unknown_states; [done|]. intros k' Hk'. rewrite lookup_alter.
    case_decide; [|done]. subst. by apply fmap_is_Some.
  - destruct Hu as [H1 H2 H3 H4 H5]. split; cbn; [|done..| |done].
    + rewrite im_get_remove. by case_decide.
    + intros k ep1. rewrite im_get_remove. case_decide; [done|apply H4].
  - destruct (im_get ep' (stream_table self)) as [k|]; [|destruct (can_send _ _); [by apply unknown_log|done]].
    apply unknown_states; [done|]. intros k' Hk'. rewrite lookup_alter.
    case_decide; [|done]. subst. by apply fmap_is_Some.
Qed.

(** Nothing has arrived from the endpoint yet. *)
Definition not_from (ep : Endpoint) (ev : listener_event) : Prop :=
  match ev with LArrive _ ep' => ep' ≠ ep | LTick _ _ => True end.

Lemma unknown_run can_send ep evs self :
  Forall (not_from ep) evs → unknown ep self → unknown ep (listener_run can_send evs self).
Proof.
  intros Hevs%(heard_Forall _ can_send _ self). unfold listener_run.
  revert Hevs. generalize (heard can_send evs self). intros l Hl. revert self.
  induction Hl as [|ev l Hev Hl IH]; intros self Hu; [done|].
  cbn. apply IH. destruct ev; [by apply unknown_accept|by apply unknown_tick].
Qed.

(** A SYN opens a stream. *)
Lemma accept_syn can_send id sq pl ep self :
  can_send (stdcode (Reliable SynAck id sq pl)) ep = true →
  let h := base.fresh (dom (states self)) in
  accept_message can_send (stdcode (Reliable Syn id sq pl)) ep self =
  (Ok (Some h), mkListener (im_insert ep h (stream_table self)) (<[h := new_established id]> (states self))
     (<[h := ep]> (tickers self)) (sent self ++ [(stdcode (Reliable SynAck id sq pl), ep)])).
Proof.
  intros Hs. unfold accept_message, mbind, M_bind, lift. rewrite stdcode_roundtrip. cbn.
  unfold try_send_to. by rewrite Hs.
Qed.

Lemma accept_syn_serves can_send id sq pl ep self :
  can_send (stdcode (Reliable SynAck id sq pl)) ep = true → unknown ep self →
  ∃ h l, accept_message can_send (stdcode (Reliable Syn id sq pl)) ep self = (Ok (Some h), l) ∧
    serves h ep (new_established id, [stdcode (Reliable SynAck id sq pl)]) l.
Proof.
  intros Hs [H1 H2 H3 H4 H5]. rewrite accept_syn by done. do 2 eexists. split; [done|].
  set (h := base.fresh (dom (states self))).
  assert (states self !! h = None) as Hh by (apply not_elem_of_dom, is_fresh).
  assert (tickers self !! h = None) as Htk.
  { destruct (tickers self !! h) eqn:E; [|done]. apply H3 in E as [? E]. congruence. }
  split; [..|rewrite sent_to_app]; cbn.
  - by rewrite im_get_insert, decide_True.
  - by rewrite lookup_insert_eq.
  - intros k. rewrite lookup_insert. case_decide; [done|]. split; [by intros ?%H2|done].
  - intros k ep1. rewrite !lookup_insert. case_decide; [done|apply H3].
  - intros k ep1. rewrite im_get_insert. case_decide; [intros [= <-]; subst; by rewrite lookup_insert_eq|].
    intros E%H4. rewrite lookup_insert_ne; [done|]. intros ->. congruence.
  - rewrite decide_True by done.
    change (sent_to ep self ++ [stdcode (Reliable SynAck id sq pl)] = [stdcode (Reliable SynAck id sq pl)]).
    by rewrite H5.
Qed.

Lemma wait_synack_noise server noise inbox :
  Forall (λ p, p.2 ≠ server) noise → wait_synack server (noise ++ inbox) = wait_synack server inbox.
Proof.
  induction 1 as [|[msg ep] noise Hne _ IH]; [done|]. cbn. by rewrite decide_False.
Qed.


(** ** Repeated SYNs *)

(** No endpoint leads to the stream. *)
Definition orphan (h : N) (s : StreamState) (self : StreamListener) : Prop :=
  (∀ ep, im_get ep (stream_table self) ≠ Some h) ∧ states self !! h = Some s.

Lemma orphan_accept can_send h s msg ep self :
  orphan h s self → orphan h s (accept_message can_send msg ep self).2.
Proof.
  intros [Ht Hs]. unfold accept_message, mbind, M_bind, lift.
  destruct (stdcode_deserialize msg) as [[kind a b c|pl]|]; cbn; [|done..].
  unfold try_send_to, get_state. destruct kind.
  - destruct (can_send _ _); [|done]. cbn.
    assert (states self !! base.fresh (dom (states self)) = None) by (apply not_elem_of_dom, is_fresh).
    split; cbn; [|rewrite lookup_insert_ne; [done|congruence]].
    intros ep'. rewrite im_get_insert. case_decide; [congruence|apply Ht].
  - destruct (im_get ep (stream_table self)) as [k|] eqn:Hk; [|by destruct (can_send _ _)].
    split; [done|]. cbn. rewrite lookup_alter_ne; [done|]. intros ->. by apply Ht in Hk.
  - split; cbn; [|done]. intros ep'. rewrite im_get_remove. case_decide; [done|apply Ht].
  - destruct (im_get ep (stream_table self)) as [k|] eqn:Hk; [|by destruct (can_send _ _)].
    split; [done|]. cbn. rewrite lookup_alter_ne; [done|]. intros ->. by apply Ht in Hk.
Qed.

(** C40 (a repeated SYN): a client repeats its SYN when the answer is late; the listener then
    accepts a second stream for it.  No message ever reaches the first one
    again, and when the first dies its task removes the second from the table,
    so that the client's next message is answered with a reset. *)
Theorem repeated_syn_breaks can_send h ep st id sq pl self :
  (∀ msg, can_send msg ep = true) → serves h ep st self →
  ∃ h2 l2,
    accept_message can_send (stdcode (Reliable Syn id sq pl)) ep self = (Ok (Some h2), l2) ∧ h2 ≠ h ∧
    (∀ msgs, states (listener_run can_send ((λ m, LArrive m.1 m.2) <$> msgs) l2) !! h = Some st.1) ∧
    ∀ now out s', tick now st.1 = ((out, None), s') →
      ∀ n a b c, accept_message can_send (stdcode (Reliable (OtherKind n) a b c)) ep (ticker_step now h l2) =
        (Ok None, log_send (Reliable Rst a b c) ep (ticker_step now h l2)).
Proof.
  intros Hcan Hsv. rewrite accept_syn by done. do 2 eexists. split; [done|].
  set (h2 := base.fresh (dom (states self))).
  assert (states self !! h2 = None) as Hh by (apply not_elem_of_dom, is_fresh).
  pose proof (sv_state _ _ _ _ Hsv) as Hst. assert (h2 ≠ h) as Hne by congruence.
  pose proof (proj2 (sv_ticker _ _ _ _ Hsv h) eq_refl) as Htk.
  split_and!; [done| |].
  - intros msgs. set (l2 := mkListener _ _ _ _).
    assert (orphan h st.1 l2) as Ho.
    { split; cbn; [|by rewrite lookup_insert_ne]. intros ep'. rewrite im_get_insert.
      case_decide; [congruence|]. intros E%(sv_table_dom _ _ _ _ Hsv). congruence. }
    set (evs := (λ m : list byte * Endpoint, LArrive m.1 m.2) <$> msgs).
    assert (Forall (λ ev, is_tick ev = false) (heard can_send evs l2)) as Hevs.
    { apply heard_Forall, Forall_fmap, Forall_true. done. }
    unfold listener_run. revert Ho Hevs. generalize (heard can_send evs l2). generalize l2.
    intros l evs' Ho Hevs. revert l Ho.
    induction Hevs as [|[m e|] evs' Hm _ IH]; intros l Ho; [apply Ho| |done].
    cbn. by apply IH, orphan_accept.
  - intros now out s' Ht n a b c. unfold ticker_step. cbn [tickers states].
    rewrite !lookup_insert_ne, Htk, Hst, Ht by done.
    unfold accept_message at 1, mbind, M_bind, lift. rewrite stdcode_roundtrip. cbn.
    rewrite im_get_remove, decide_True by done. unfold try_send_to. by rewrite Hcan.
Qed.

End Stream.

(** * Witnesses *)

Definition kind_code (k : RelKind) : N :=
  match k with Syn => 0 | SynAck => 1 | Rst => 2 | OtherKind n => 3 + n end.
Definition kind_of (n : N) : RelKind :=
  if (n =? 0)%N then Syn else if (n =? 1)%N then SynAck else if (n =? 2)%N then Rst
  else OtherKind (n - 3).

Lemma kind_of_code k : kind_of (kind_code k) = k.
Proof.
  destruct k as [| | |n]; [done..|]. unfold kind_of, kind_code.
  rewrite !(proj2 (N.eqb_neq _ _)) by lia. f_equal. lia.
Qed.

#[export] Instance wire_RelKind : Wire RelKind := wire_iso kind_code kind_of kind_of_code.

#[export] Program Instance wire_StreamMessage : Wire StreamMessage := {|
  wput := λ p, match p with
    | Reliable k a b c => x00 :: wput (k, (a, (b, c)))
    | Unreliable c => x01 :: wput c
    end;
  wget := λ l, match l with
    | [] => None
    | b :: l =>
        if decide (b = x00) then
          '(p, l) ← wget l; Some (Reliable p.1 p.2.1 p.2.2.1 p.2.2.2, l)
        else '(c, l) ← wget l; Some (Unreliable c, l)
    end
|}.
Next Obligation.
  intros [k a b c|c] rest; cbn -[wget wput]; by rewrite wget_wput.
Qed.

(** A state machine that acknowledges how many messages it has, and dies after
    time 100. *)
#[export] Instance toy_streams : StreamStates := {|
  StreamState := N * list StreamMessage;
  new_established := λ id, (id, []);
  inject_incoming := λ m s, (s.1, s.2 ++ [m]);
  tick := λ now s, (([Reliable (OtherKind 2) s.1 (N.of_nat (length s.2)) []],
                     if (now <? 100)%N then Some (now + 1)%N else None), s)
|}.

Definition st_ep (b : byte) : Endpoint := Endpoint_new (array_repeat 20 b) 7%N.
Definition st_data (n : N) : StreamMessage := Reliable (OtherKind n) 5 n [x61].

(** Another client is served, this one connects, and their messages mix. *)
Definition st_before : list listener_event :=
  [LArrive (stdcode (syn_message 9)) (st_ep x02); LArrive (stdcode (Unreliable [])) (st_ep x03)].
Definition st_after : list listener_event :=
  [LArrive (stdcode (st_data 1)) (st_ep x01); LTick 3 0; LArrive (stdcode (st_data 4)) (st_ep x02);
   LTick 5 1; LArrive (stdcode (st_data 2)) (st_ep x01)].

(** Then a third client's message does not decode: what follows is not heard. *)
Definition st_junk : list listener_event := [LArrive [] (st_ep x03); LArrive (stdcode (st_data 3)) (st_ep x01)].

Lemma st_after_alone :
  alone_run 1 (st_ep x01) st_after (new_established 5, [stdcode (Reliable SynAck 5 0 [])]) =
  Some ((5%N, [st_data 1; st_data 2]),
        [stdcode (Reliable SynAck 5 0 []); stdcode (Reliable (OtherKind 2) 5 1 [])]).
Proof. vm_compute. reflexivity. Qed.

Lemma st_after_ok : Forall (no_new_stream (st_ep x01)) (st_after ++ st_junk).
Proof. repeat constructor; vm_compute; try exact (λ _, I); intros; discriminate. Qed.

Lemma st_before_ok : Forall (not_from (st_ep x01)) st_before.
Proof. repeat constructor; vm_compute; discriminate. Qed.

Definition st_l1 : StreamListener :=
  (accept_message (λ _ _, true) (stdcode (syn_message 5)) (st_ep x01)
    (listener_run (λ _ _, true) st_before listen)).2.

Lemma st_heard :
  (accept_message (λ _ _, true) (stdcode (syn_message 5)) (st_ep x01)
    (listener_run (λ _ _, true) st_before listen)).1 = Ok (Some 1%N) ∧
  heard (λ _ _, true) (st_after ++ st_junk) st_l1 = st_after ++ take 1 st_junk ∧
  listening (λ _ _, true) st_before listen = true ∧ listening (λ _ _, true) st_after st_l1 = true.
Proof. vm_compute. split_and!; reflexivity. Qed.

Lemma st_junk_alone :
  alone_run 1 (st_ep x01) (st_after ++ take 1 st_junk)
    (new_established 5, [stdcode (Reliable SynAck 5 0 [])]) =
  alone_run 1 (st_ep x01) st_after (new_established 5, [stdcode (Reliable SynAck 5 0 [])]).
Proof. vm_compute. reflexivity. Qed.


Lemma st_serves : ∃ h l,
  serves h (st_ep x01) (new_established 5, [stdcode (Reliable SynAck 5 0 [])]) l.
Proof.
  destruct (accept_syn_serves (λ _ _, true) 5 0 [] (st_ep x01) listen eq_refl (unknown_listen _))
    as (h & l & _ & Hs). eauto.
Qed.

Lemma repeated_syn_breaks_witness :
  ∃ self h h2 l2,
    accept_message (λ _ _, true) (stdcode (syn_message 5)) (st_ep x01) self = (Ok (Some h2), l2) ∧
    h2 ≠ h ∧
    (accept_message (λ _ _, true) (stdcode (st_data 1)) (st_ep x01) (ticker_step 100 h l2)) =
      (Ok None, log_send (Reliable Rst 5 1 [x61]) (st_ep x01) (ticker_step 100 h l2)).
Proof.
  destruct st_serves as (h & l & Hl). exists l, h.
  destruct (repeated_syn_breaks (λ _ _, true) h (st_ep x01) _ 5 0 [] l (λ _, eq_refl) Hl)
    as (h2 & l2 & Ha & Hne & _ & Hr).
  exists h2, l2. split; [exact Ha|]. split; [exact Hne|].
  exact (Hr 100%N _ _ eq_refl 1%N 5%N 1%N [x61]).
Defined.
