(* ===== verification/StreamNet.v ===== *)
(** Streams over haven sockets: a client's stream, the two haven sockets, the
    relay and the server's listener together.

    The specification is two stream state machines joined by two queues; the
    theorem shows that the whole stack can follow every run of it, so what the
    reliable-stream protocol achieves over a direct connection it achieves
    through the encrypted sessions and the rendezvous relay. *)

From S2P Require Import Prelude Interfaces Crypto Packet OnionRouting Topology ShortestPath.
From S2P Require Import ReplyStore NeighTable Directory Daemon Socket Dht Rendezvous CryptSession.
From S2P Require Import HavenSocket HavenNet Conversation Instances Stream.

Inductive dx_event :=
  | ClientTick (now : N) | ServerTick (now : N)
  | ClientGets (msg : list byte) | ServerGets (msg : list byte).

Section StreamNet.
  Context {SS : StreamStates} {SSM : Stdcode StreamMessage} {SSML : StdcodeLaws StreamMessage}.

(** ** The specification *)

(** Two state machines, the messages under way between them, and how often the
    two sockets were used. *)
Record Duplex := mkDuplex {
  dx_client : StreamState;
  dx_server : StreamState;
  dx_chat : Chat;
  dx_acts : nat
}.

(** A message as the listener hands it on: what is not reliable is dropped.  The
    specification does not cover a second SYN and a reset. *)
Definition dx_inject (msg : list byte) (st : StreamState) : option StreamState :=
  smsg ← stdcode_deserialize (A:=StreamMessage) msg;
  match smsg with
  | Reliable Syn _ _ _ | Reliable Rst _ _ _ => None
  | Reliable _ _ _ _ => Some (inject_incoming smsg st)
  | Unreliable _ => Some st
  end.

(** Nothing is said that is too long to be sealed. *)
Definition dx_do (cap_c cap_s : N) (l : list act) (c s : StreamState) (d : Duplex) : option Duplex :=
  _ ← guard (Forall act_fits l);
  ch ← chat_run cap_c cap_s l (dx_chat d);
  Some (mkDuplex c s ch (dx_acts d + length l)).

Definition dx_step (cap_c cap_s : N) (ev : dx_event) (d : Duplex) : option Duplex :=
  match ev with
  | ClientTick now =>
      '(out, c) ← stream_up now (dx_client d);
      dx_do cap_c cap_s (Says AtClient <$> out) c (dx_server d) d
  | ServerTick now =>
      '(out, s) ← stream_up now (dx_server d);
      dx_do cap_c cap_s (Says AtServer <$> out) (dx_client d) s d
  | ClientGets msg =>
      c ← stream_down msg (dx_client d);
      dx_do cap_c cap_s [Hears AtClient msg] c (dx_server d) d
  | ServerGets msg =>
      s ← dx_inject msg (dx_server d);
      dx_do cap_c cap_s [Hears AtServer msg] (dx_client d) s d
  end.

Definition dx_run (cap_c cap_s : N) : list dx_event → Duplex → option Duplex :=
  fix go evs d :=
    match evs with
    | [] => Some d
    | ev :: evs => d ← dx_step cap_c cap_s ev d; go evs d
    end.

Definition dx_start (id : N) : Duplex :=
  mkDuplex (new_established id) (new_established id) (mkChat [] []) 0.

Lemma dx_do_acts cap_c cap_s l c s d d' :
  dx_do cap_c cap_s l c s d = Some d' → dx_acts d' = dx_acts d + length l.
Proof. intros (Hf & _ & (ch & _ & [= <-])%bind_Some)%bind_Some. done. Qed.

Lemma dx_step_acts cap_c cap_s ev d d' :
  dx_step cap_c cap_s ev d = Some d' → dx_acts d <= dx_acts d'.
Proof.
  destruct ev; cbn [dx_step]; intros ([] & _ & Hs)%bind_Some || intros (? & _ & Hs)%bind_Some;
    apply dx_do_acts in Hs; lia.
Qed.

Lemma dx_run_acts cap_c cap_s evs d d' :
  dx_run cap_c cap_s evs d = Some d' → dx_acts d <= dx_acts d'.
Proof.
  revert d. induction evs as [|ev evs IH]; intros d; cbn; [by intros [= ->]|].
  intros (d1 & H1%dx_step_acts & H2%IH)%bind_Some. lia.
Qed.

(** ** The whole stack *)

  Context {P : Primitives} {IM : IndexMap} {HI : HashIter} {C : Chan} {L : Lru} {MK : Moka}.
  Context {RF : ReplayFilter}.
  Context {SA : Stdcode AdjacencyDescriptor} {SI : Stdcode IdentityDescriptor}.
  Context {B : Bincode InnerPacket} {SL : Stdcode HavenLocator}.
  Context {SK : Stdcode (list byte * Fingerprint)} {SF : Stdcode (list byte * Endpoint)}.
  Context {SH : Stdcode Handshake} {SM : Stdcode HavenMsg}.
  Context {PL : PrimitivesLaws P} {MKL : MokaLaws MK} {CL : ChanLaws C} {RFL : ReplayFilterLaws RF}.
  Context {SFL : StdcodeLaws (list byte * Endpoint)} {SML : StdcodeLaws HavenMsg}.
  Context {IML : IndexMapLaws IM}.

Record Sys := mkSys {
  sys_world : World;
  sys_stream : StreamState;
  sys_listener : StreamListener
}.

Section stack.
  Context (net : replica_net) (now : N) (rob : Fingerprint) (c0 s0 : HavenSocket).

Abbreviation cep := (haven_local_endpoint c0).
Abbreviation sep := (haven_local_endpoint s0).
Abbreviation talks := (talk net now rob c0 s0).

(** Whether the server's socket takes a message. *)
Definition server_can_send (w : World) (msg : list byte) (ep : Endpoint) : bool :=
  match (haven_send_to msg ep (w_server w)).1 with Ok _ => true | _ => false end.

(** The client's tasks use its socket and its state machine, the listener and the
    task of the stream [h] use the server's. *)
Inductive sys_step (h : N) : dx_event → Sys → Sys → Prop :=
  | sys_client_tick t w w' st st' l out :
      stream_up t st = Some (out, st') → talks (Says AtClient <$> out) w w' →
      sys_step h (ClientTick t) (mkSys w st l) (mkSys w' st' l)
  | sys_server_tick t w w' st l out :
      sent (ticker_step t h l) = sent l ++ ((λ m, (m, cep)) <$> out) →
      talks (Says AtServer <$> out) w w' →
      sys_step h (ServerTick t) (mkSys w st l) (mkSys w' st (ticker_step t h l))
  | sys_client_gets msg w w' st st' l :
      talks [Hears AtClient msg] w w' → stream_down msg st = Some st' →
      sys_step h (ClientGets msg) (mkSys w st l) (mkSys w' st' l)
  | sys_server_gets msg w w' w'' st l l' out :
      talks [Hears AtServer msg] w w' →
      accept_message (server_can_send w') msg cep l = (Ok None, l') →
      sent l' = sent l ++ ((λ m, (m, cep)) <$> out) → talks (Says AtServer <$> out) w' w'' →
      sys_step h (ServerGets msg) (mkSys w st l) (mkSys w'' st l').

Inductive sys_run (h : N) : list dx_event → Sys → Sys → Prop :=
  | sys_run_nil y : sys_run h [] y y
  | sys_run_cons ev evs y y' y'' :
      sys_step h ev y y' → sys_run h evs y' y'' → sys_run h (ev :: evs) y y''.

(** The stack is in the state of the specification. *)
Record stacked ss (h : N) (d : Duplex) (y : Sys) : Prop := {
  sk_sockets : ∃ nc ns, nc + ns <= dx_acts d + 4 ∧
    established now c0 s0 ss nc ns (to_client (dx_chat d)) (to_server (dx_chat d)) (sys_world y);
  sk_client : sys_stream y = dx_client d;
  sk_server : ∃ out, serves h cep (dx_server d, out) (sys_listener y)
}.

Section sim.
  Context (m0 : list byte) (st0 : ForwardState) (Hready : conversation_ready now rob c0 s0 m0 st0).

Abbreviation cap_c := (chan_cap (dec_queue c0)).
Abbreviation cap_s := (chan_cap (dec_queue s0)).

(** The sockets follow what a step of the specification says and hears. *)
Lemma stacked_does ss l c s d d' y h :
  stacked ss h d y → (N.of_nat (dx_acts d' + 4) < u64_modulus)%N →
  dx_do cap_c cap_s l c s d = Some d' →
  dx_client d' = c ∧ dx_server d' = s ∧
  ∃ w nc ns, talks l (sys_world y) w ∧ nc + ns <= dx_acts d' + 4 ∧
    established now c0 s0 ss nc ns (to_client (dx_chat d')) (to_server (dx_chat d')) w.
Proof.
  intros [(nc & ns & Hle & He) _ _] Hn Hdo. pose proof (dx_do_acts _ _ _ _ _ _ _ Hdo) as Ha.
  apply bind_Some in Hdo as (Hfit & _ & (ch & Hrun & [= <-])%bind_Some). cbn in *. split; [done|]. split; [done|].
  destruct (established_talks net now rob c0 s0 m0 st0 Hready ss l nc ns (dx_chat d) ch (sys_world y))
    as (nc' & ns' & w & Ht & Hle' & He'); [done..|lia|done|].
  exists w, nc', ns'. split; [done|]. split; [lia|done].
Qed.

Lemma sent_logs msgs ep self :
  sent (for_each (λ msg, log_send msg ep) msgs self) = sent self ++ ((λ m, (stdcode m, ep)) <$> msgs).
Proof.
  revert self. induction msgs as [|m msgs IH]; intros self; cbn; [by rewrite app_nil_r|].
  rewrite IH. cbn. by rewrite <-app_assoc.
Qed.

(** A tick of a served stream sends what the state machine alone does. *)
Lemma ticker_step_sent t h st acc l out st' :
  serves h cep (st, acc) l → stream_up t st = Some (out, st') →
  sent (ticker_step t h l) = sent l ++ ((λ m, (m, cep)) <$> out) ∧
  serves h cep (st', acc ++ out) (ticker_step t h l).
Proof.
  intros Hs Hup. pose proof (ticker_step_serves h cep (st, acc) t h l Hs) as Hsv.
  cbn [alone_step fst snd] in Hsv. rewrite decide_True, Hup in Hsv by done. cbn in Hsv. split; [|done].
  unfold ticker_step. rewrite (proj2 (sv_ticker _ _ _ _ Hs h) eq_refl), (sv_state _ _ _ _ Hs). cbn [fst].
  unfold stream_up in Hup. destruct (tick t st) as [[msgs [r|]] s']; [|done].
  cbn in Hup. injection Hup as <- <-. rewrite sent_logs. cbn. by rewrite <-list_fmap_compose.
Qed.

(** A message for a served stream reaches its state machine, and nothing is sent. *)
Lemma accept_inject can_send msg h st acc l st' :
  serves h cep (st, acc) l → dx_inject msg st = Some st' →
  ∃ l', accept_message can_send msg cep l = (Ok None, l') ∧ sent l' = sent l ∧ serves h cep (st', acc) l'.
Proof.
  intros Hs Hin. unfold dx_inject in Hin. apply bind_Some in Hin as (smsg & Hd & Hin).
  pose proof (accept_self_serves can_send h cep (st, acc) msg l) as Hsv.
  cbn [alone_step no_new_stream] in Hsv. rewrite decide_True, Hd in Hsv by done.
  assert (∃ l', accept_message can_send msg cep l = (Ok None, l') ∧ sent l' = sent l) as (l' & Ha & Hsent).
  { unfold accept_message, mbind, M_bind, lift. rewrite Hd. cbn. unfold get_state.
    destruct smsg as [[] a b c|pl]; try done; rewrite ?(sv_table _ _ _ _ Hs); by eexists. }
  exists l'. split; [done|]. split; [done|]. rewrite Ha in Hsv.
  destruct smsg as [[] a b c|pl]; simplify_eq/=; exact (Hsv (λ _, I) Hs).
Qed.

(** Every step of the specification is one of the stack. *)
Lemma stacked_follows ss h ev d d' y :
  stacked ss h d y → (N.of_nat (dx_acts d' + 4) < u64_modulus)%N →
  dx_step cap_c cap_s ev d = Some d' → ∃ y', sys_step h ev y y' ∧ stacked ss h d' y'.
Proof.
  intros Hk Hn Hstep. pose proof Hk as [_ Hc [acc Hsv]]. destruct y as [w st l]. cbn in Hc, Hsv. subst st.
  destruct ev as [t|t|msg|msg]; cbn [dx_step] in Hstep; apply bind_Some in Hstep as (r & Hr & Hdo).
  - destruct r as [out st'].
    destruct (stacked_does _ _ _ _ _ _ _ _ Hk Hn Hdo) as (Hc & Hs & w' & nc & ns & Ht & Hle & He).
    exists (mkSys w' st' l). split; [by eapply sys_client_tick|]. rewrite <-Hs in Hsv. split; cbn; eauto.
  - destruct r as [out st'].
    destruct (stacked_does _ _ _ _ _ _ _ _ Hk Hn Hdo) as (Hc & Hs & w' & nc & ns & Ht & Hle & He).
    destruct (ticker_step_sent t h _ acc l out st' Hsv Hr) as [Hsent Hsv']. rewrite <-Hs in Hsv'.
    exists (mkSys w' (dx_client d) (ticker_step t h l)). split; [by eapply sys_server_tick|].
    split; cbn; eauto.
  - destruct (stacked_does _ _ _ _ _ _ _ _ Hk Hn Hdo) as (Hc & Hs & w' & nc & ns & Ht & Hle & He).
    exists (mkSys w' r l). split; [by eapply sys_client_gets|]. rewrite <-Hs in Hsv. split; cbn; eauto.
  - destruct (stacked_does _ _ _ _ _ _ _ _ Hk Hn Hdo) as (Hc & Hs & w' & nc & ns & Ht & Hle & He).
    destruct (accept_inject (server_can_send w') msg h _ acc l r Hsv Hr) as (l' & Ha & Hsent & Hsv').
    rewrite <-Hs in Hsv'. exists (mkSys w' (dx_client d) l'). split; [|split; cbn; eauto].
    eapply (sys_server_gets h msg w w' w' (dx_client d) l l' []); [done..| |constructor].
    cbn. by rewrite app_nil_r.
Qed.

Lemma stacked_runs ss h evs d d' y :
  stacked ss h d y → (N.of_nat (dx_acts d' + 4) < u64_modulus)%N →
  dx_run cap_c cap_s evs d = Some d' → ∃ y', sys_run h evs y y' ∧ stacked ss h d' y'.
Proof.
  revert d y. induction evs as [|ev evs IH]; intros d y Hk Hn Hrun; cbn in Hrun.
  { simplify_eq. exists y. split; [constructor|done]. }
  apply bind_Some in Hrun as (d1 & Hstep & Hrun). pose proof (dx_run_acts _ _ _ _ _ Hrun) as Hle.
  destruct (stacked_follows ss h ev d d1 y) as (y1 & Hs1 & Hk1); [done|lia|done|].
  destruct (IH d1 y1) as (y' & Hr & Hk'); [done..|]. exists y'. split; [by eapply sys_run_cons|done].
Qed.

End sim.

(** ** Opening a stream *)

Definition synack (id : N) : list byte := stdcode (Reliable SynAck id 0%N []).
Definition syn (id : N) : list byte := stdcode (syn_message id).

(** The client connects: its SYN opens a stream at the listener, whose answer
    completes [connect]. *)
Inductive opens (id : N) (w : World) (l : StreamListener) (h : N) : Sys → Prop :=
  opened wa w1 l1 st :
    talks [Says AtClient (syn id); Hears AtServer (syn id)] w wa →
    accept_message (server_can_send wa) (syn id) cep l = (Ok (Some h), l1) →
    sent l1 = sent l ++ [(synack id, cep)] →
    talks [Says AtServer (synack id); Hears AtClient (synack id)] wa w1 →
    stream_connect id sep [(synack id, sep)] = Some (st, []) →
    opens id w l h (mkSys w1 st l1).

Lemma established_can_send ss nc ns dc ds w msg :
  established now c0 s0 ss nc ns dc ds w → server_can_send w msg cep = true.
Proof.
  intros [_ [hs Hs] _ _]. unfold server_can_send.
  destruct (send_more _ _ _ _ _ _ _ _ _ _ msg Hs) as (s1 & Hsend & _). by rewrite Hsend.
Qed.

Lemma stream_opens id st0 l0 :
  talk_ready now rob c0 s0 (syn id) st0 → sealable (synack id) →
  (0 < chan_cap (dec_queue c0))%N → (0 < chan_cap (dec_queue s0))%N → unknown cep l0 →
  ∃ ss h y, opens id (mkWorld c0 st0 s0) l0 h y ∧ stacked ss h (dx_start id) y.
Proof.
  intros Hr Hseal Hcc Hcs Hu. pose proof (tr_ready _ _ _ _ _ _ Hr) as Hready.
  destruct (first_says net now rob c0 s0 (syn id) st0 Hr Hcs) as (ss & w0 & Hact0 & He0).
  destruct (established_server_hears net now rob c0 s0 _ _ _ _ _ _ _ He0) as (wa & Hacta & Hea).
  destruct (accept_syn_serves (server_can_send wa) id 0 [] cep l0
    (established_can_send _ _ _ _ _ _ _ Hea) Hu) as (h & l1 & Ha & Hsv).
  destruct (established_talks net now rob c0 s0 _ st0 Hready ss
    [Says AtServer (synack id); Hears AtClient (synack id)] 1 0 (mkChat [] []) (mkChat [] []) wa)
    as (nc & ns & w1 & Ht & Hle & He).
  { done. }
  { by repeat constructor. }
  { done. }
  { cbn. unfold said. destruct (N.ltb_spec (N.of_nat (length (@nil (list byte)))) (chan_cap (dec_queue c0)));
      [|cbn in *; lia]. cbn. by rewrite decide_True. }
  exists ss, h, (mkSys w1 (new_established id) l1). split.
  - eapply opened; [|exact Ha| |exact Ht|].
    + eapply talk_cons; [exact Hact0|]. eapply talk_cons; [exact Hacta|constructor].
    + rewrite accept_syn in Ha by (by eapply established_can_send). by injection Ha as _ <-.
    + unfold stream_connect, synack. cbn [wait_synack]. by rewrite decide_True, stdcode_roundtrip by done.
  - split; cbn; [|done|eauto]. exists nc, ns. split; [cbn in Hle; lia|done].
Qed.

(** C5 (a stream through a relay): a client connects a stream to a haven that already serves
    others.  Afterwards the client's state machine, the two encrypted
    sessions, the relay, the listener and the task of the stream can follow
    every run of two state machines joined by two queues: each of the two
    machines gets exactly the messages the other's ticks sent, in order. *)
Theorem stream_over_haven id st0 l0 evs d :
  talk_ready now rob c0 s0 (syn id) st0 → unknown cep l0 →
  sealable (synack id) →
  (0 < chan_cap (dec_queue c0))%N → (0 < chan_cap (dec_queue s0))%N →
  dx_run (chan_cap (dec_queue c0)) (chan_cap (dec_queue s0)) evs (dx_start id) = Some d →
  (N.of_nat (dx_acts d + 4) < u64_modulus)%N →
  ∃ h y y', opens id (mkWorld c0 st0 s0) l0 h y ∧ sys_run h evs y y' ∧
    sys_stream y' = dx_client d ∧ states (sys_listener y') !! h = Some (dx_server d).
Proof.
  intros Hr Hu Hs Hcc Hcs Hrun Hn.
  destruct (stream_opens id st0 l0) as (ss & h & y & Ho & Hk); [done..|].
  destruct (stacked_runs _ st0 (tr_ready _ _ _ _ _ _ Hr) ss h evs _ d y Hk Hn Hrun)
    as (y' & Hy & [_ Hc [out Hsv]]).
  exists h, y, y'. split_and!; [done..|]. apply (sv_state _ _ _ _ Hsv).
Qed.

End stack.
End StreamNet.

(** * Witness *)

Lemma sn_ready : talk_ready (P:=toy) 1005%N (sample_fp x09) hn_client hn_server (syn 5) hn_relay.
Proof.
  destruct hn_talk_ready as [[] Hdc Hds Hrem]. split; [|exact Hdc|exact Hds|exact Hrem].
  split; try assumption.
Qed.

(** Ticks on both sides, with messages crossing. *)
Definition sn_ack (n : N) : list byte := stdcode (Reliable (OtherKind 2) 5 n []).
Definition sn_script : list dx_event :=
  [ClientTick 1; ServerTick 2; ClientTick 3; ServerGets (sn_ack 0); ServerGets (sn_ack 0);
   ClientGets (sn_ack 0); ServerTick 4; ClientGets (sn_ack 2)].

Lemma sn_script_runs : ∃ d, dx_run 1000%N 1000%N sn_script (dx_start 5) = Some d ∧
  dx_client d = (5%N, [Reliable (OtherKind 2) 5 0 []; Reliable (OtherKind 2) 5 2 []]) ∧
  dx_server d = (5%N, [Reliable (OtherKind 2) 5 0 []; Reliable (OtherKind 2) 5 0 []]) ∧ dx_acts d = 8.
Proof. eexists. split; [vm_compute; reflexivity|]. vm_compute. auto. Qed.

Lemma stream_over_haven_witness :
  ∃ h y y',
    opens (P:=toy) (λ _, []) 1005%N (sample_fp x09) hn_client hn_server 5
      (mkWorld hn_client hn_relay hn_server) listen h y ∧
    sys_run (P:=toy) (λ _, []) 1005%N (sample_fp x09) hn_client hn_server h sn_script y y' ∧
    sys_stream y' = (5%N, [Reliable (OtherKind 2) 5 0 []; Reliable (OtherKind 2) 5 2 []]) ∧
    states (sys_listener y') !! h =
      Some (5%N, [Reliable (OtherKind 2) 5 0 []; Reliable (OtherKind 2) 5 0 []]).
Proof.
  destruct sn_script_runs as (d & Hrun & Hc & Hs & Hn). rewrite <-Hc, <-Hs.
  apply (stream_over_haven (P:=toy) (λ _, []) 1005%N (sample_fp x09) hn_client hn_server 5 hn_relay
    listen sn_script d sn_ready (unknown_listen _)).
  - discriminate.
  - reflexivity.
  - reflexivity.
  - exact Hrun.
  - rewrite Hn. reflexivity.
Defined.
