(* ===== verification/Services.v ===== *)
(** The services of a haven and the local TCP forwards: [haven_loop], [tcp_forward]
    and [simple_proxy] of [src/haven_util.rs], [src/daemon/tcp_forward.rs].

    A service binds a haven socket and accepts streams from it; a forward
    accepts TCP connections and opens a stream for each.  The TCP side is the
    operating system's: whether a connection succeeds is an event.  Each loop
    is respawned when it ends, with everything it held dropped. *)

From S2P Require Import Prelude Interfaces Crypto Packet OnionRouting Topology ShortestPath.
From S2P Require Import ReplyStore NeighTable Directory Daemon Socket Dht Rendezvous CryptSession.
From S2P Require Import HavenSocket Text Proxy Config Control Stream Instances.

Inductive ServiceError :=
  | ServiceIdentity (e : ActualizeError)
  | ServiceAccept (e : AcceptError)
  | ServiceUpstream.

Section Services.
  Context {P : Primitives} {IM : IndexMap} {HI : HashIter} {C : Chan} {L : Lru} {MK : Moka}.
  Context {RF : ReplayFilter} {SS : StreamStates}.
  Context {SA : Stdcode AdjacencyDescriptor} {SI : Stdcode IdentityDescriptor}.
  Context {B : Bincode InnerPacket} {SL : Stdcode HavenLocator}.
  Context {SK : Stdcode (list byte * Fingerprint)} {SF : Stdcode (list byte * Endpoint)}.
  Context {SH : Stdcode Handshake} {SM : Stdcode HavenMsg} {SSM : Stdcode StreamMessage}.

Abbreviation World := (DaemonContext * RpcContext)%type.

(** * Starting *)

(** The beginning of every service: the identity, and the socket bound to the
    configured dock with its rendezvous point. *)
Definition service_bind (can_read can_write : list byte → bool) (fuel : nat)
    (haven_cfg : HavenForwardConfig) (listen_dock : Dock)
    : M (Disk * World) ServiceError InnerSocket :=
  haven_id ← zoom fst (λ d s, (d, s.2))
               (λ d, let '(o, d) := actualize can_read can_write fuel (hf_identity haven_cfg) d in
                     (map_err ServiceIdentity o, d));
  zoom snd (λ w s, (s.1, w))
    (bind_haven_internal fuel haven_id (Some listen_dock) (Some (hf_rendezvous haven_cfg))).

(** A stream service: [sv_connecting] is the stream whose upstream connection
    [tcp_forward] waits for, [sv_copies] are the streams whose tasks run. *)
Record StreamService := mkService {
  sv_inbox : list (list byte * Endpoint);
  sv_listener : StreamListener;
  sv_connecting : option N;
  sv_copies : gset N
}.

Definition service_new : StreamService := mkService [] listen None ∅.

(** [haven_loop]: which service a handler gets. *)
Inductive Service :=
  | UdpForwardService (skt : InnerSocket) (upstream : SocketAddr)
  | TcpForwardService (skt : InnerSocket) (upstream : SocketAddr) (s : StreamService)
  | ProxyService (skt : InnerSocket) (s : StreamService).

Definition haven_loop (can_read can_write : list byte → bool) (fuel : nat)
    (haven_cfg : HavenForwardConfig) : M (Disk * World) ServiceError Service :=
  match handler haven_cfg with
  | UdpService listen_dock upstream =>
      skt ← service_bind can_read can_write fuel haven_cfg listen_dock;
      mret (UdpForwardService skt upstream)
  | TcpService listen_dock upstream =>
      skt ← service_bind can_read can_write fuel haven_cfg listen_dock;
      mret (TcpForwardService skt upstream service_new)
  | SimpleProxyService listen_dock =>
      skt ← service_bind can_read can_write fuel haven_cfg listen_dock;
      mret (ProxyService skt service_new)
  end.

Definition service_socket (s : Service) : InnerSocket :=
  match s with
  | UdpForwardService skt _ | TcpForwardService skt _ _ | ProxyService skt _ => skt
  end.

(** * Serving *)

Inductive service_event :=
  | Arrives (msg : list byte) (ep : Endpoint)   (* the socket receives a message *)
  | Runs                                        (* the loop is scheduled *)
  | Ticks (now h : N)                           (* the task of a stream runs *)
  | Upstream (h : N) (connected : bool)         (* a connection attempt is decided *)
  | CopyEnds (h : N).

Definition on_listener (f : StreamListener → StreamListener) (s : StreamService) : StreamService :=
  mkService (sv_inbox s) (f (sv_listener s)) (sv_connecting s) (sv_copies s).

(** [listener.accept().await?] on what has been received. *)
Definition service_accept (can_send : list byte → Endpoint → bool)
    : M StreamService ServiceError (option N) := λ s,
  let '(r, rest, l) := accept can_send (sv_inbox s) (sv_listener s) in
  let s := mkService rest l (sv_connecting s) (sv_copies s) in
  match r with
  | None => (Ok None, s)
  | Some o => (map_err ServiceAccept (h ← o; Ok (Some h)), s)
  end.

(** The loop of [tcp_forward]: it connects to the upstream address before it
    accepts again, and ends when that fails. *)
Definition tcp_forward_step (can_send : list byte → Endpoint → bool) (ev : service_event)
    : M StreamService ServiceError unit := λ s,
  match ev with
  | Arrives msg ep =>
      (Ok tt, mkService (sv_inbox s ++ [(msg, ep)]) (sv_listener s) (sv_connecting s) (sv_copies s))
  | Runs =>
      match sv_connecting s with
      | Some _ => (Ok tt, s)
      | None => (h ← service_accept can_send;
                 modify (λ s, mkService (sv_inbox s) (sv_listener s) h (sv_copies s))) s
      end
  | Ticks now h => (Ok tt, on_listener (ticker_step now h) s)
  | Upstream h connected =>
      if decide (sv_connecting s = Some h) then
        if connected
        then (Ok tt, mkService (sv_inbox s) (sv_listener s) None ({[h]} ∪ sv_copies s))
        else (Err ServiceUpstream, s)
      else (Ok tt, s)
  | CopyEnds h => (Ok tt, mkService (sv_inbox s) (sv_listener s) (sv_connecting s) (sv_copies s ∖ {[h]}))
  end.

(** The loop of [simple_proxy]: the task of the stream reads the address and
    connects, and the loop accepts at once again. *)
Definition simple_proxy_step (can_send : list byte → Endpoint → bool) (ev : service_event)
    : M StreamService ServiceError unit := λ s,
  match ev with
  | Arrives msg ep =>
      (Ok tt, mkService (sv_inbox s ++ [(msg, ep)]) (sv_listener s) (sv_connecting s) (sv_copies s))
  | Runs =>
      (h ← service_accept can_send;
       modify (λ s, mkService (sv_inbox s) (sv_listener s) None
                      (match h with Some h => {[h]} ∪ sv_copies s | None => sv_copies s end))) s
  | Ticks now h => (Ok tt, on_listener (ticker_step now h) s)
  | Upstream h connected =>
      (Ok tt, if connected then s
              else mkService (sv_inbox s) (sv_listener s) (sv_connecting s) (sv_copies s ∖ {[h]}))
  | CopyEnds h => (Ok tt, mkService (sv_inbox s) (sv_listener s) (sv_connecting s) (sv_copies s ∖ {[h]}))
  end.

(** A service until it ends; [None] when it goes on. *)
Fixpoint service_run (step : service_event → M StreamService ServiceError unit)
    (evs : list service_event) (s : StreamService) : option ServiceError * StreamService :=
  match evs with
  | [] => (None, s)
  | ev :: evs =>
      match step ev s with
      | (Ok _, s) => service_run step evs s
      | (Err e, s) => (Some e, s)
      | (_, s) => (None, s)
      end
  end.

(** * Local forwards: [tcp_forward_loop] *)

(** Connections of the local listener that wait to be accepted, the one whose
    stream is being opened with its socket, and those being copied. *)
Record TcpForward := mkTcpForwardState {
  tf_backlog : list N;
  tf_connecting : option (N * InnerSocket);
  tf_copies : list N;
  tf_world : World
}.

Inductive tcp_event :=
  | TcpArrives (conn : N)
  | TcpRuns
  | StreamConnects (opened : bool).

Definition tcp_forward_loop_step (fuel : nat) (ev : tcp_event)
    : M TcpForward ServiceError unit := λ s,
  match ev with
  | TcpArrives conn =>
      (Ok tt, mkTcpForwardState (tf_backlog s ++ [conn]) (tf_connecting s) (tf_copies s) (tf_world s))
  | TcpRuns =>
      match tf_connecting s, tf_backlog s with
      | None, conn :: backlog =>
          let '(o, w) := (isk ← zoom fst (λ ctx w, (ctx, w.2)) (with_rng IdentitySecret_generate);
                          bind_haven_internal fuel isk None None) (tf_world s) in
          (skt ← o; Ok tt, mkTcpForwardState backlog
                    (match o with Ok skt => Some (conn, skt) | _ => None end) (tf_copies s) w)
      | _, _ => (Ok tt, s)
      end
  | StreamConnects opened =>
      match tf_connecting s with
      | Some (conn, _) =>
          if opened
          then (Ok tt, mkTcpForwardState (tf_backlog s) None (conn :: tf_copies s) (tf_world s))
          else (Err ServiceUpstream, s)
      | None => (Ok tt, s)
      end
  end.

(** * [socks5_loop] *)

(** The connections whose tasks are spawned; [None] is a failure of [accept].
    What a task does is [socks5_once] of [Proxy.v]. *)
Fixpoint socks5_loop (bound : bool) (accepted : list (option N)) : option ServiceError * list N :=
  if bound then
    match accepted with
    | [] => (None, [])
    | None :: _ => (Some ServiceUpstream, [])
    | Some conn :: accepted => let '(r, l) := socks5_loop bound accepted in (r, conn :: l)
    end
  else (Some ServiceUpstream, []).

(** * Properties *)

(** ** The endpoint of a haven *)

Section identity.
  Context (can_read can_write : list byte → bool).

(** Where an identity is kept once it has been used. *)
Definition identity_at (c : IdentityConfig) (d : Disk) (id : IdentitySecret) : Prop :=
  match c with
  | IdentitySeed seed => from_seed (E:=ActualizeError) seed = Ok id
  | IdentityFile file => can_read file = true ∧ files d !! file = Some (array_bytes (n:=32) id)
  end.

Lemma actualize_again fuel c d id :
  identity_at c d id → actualize can_read can_write (S fuel) c d = (Ok id, d).
Proof.
  destruct c as [seed|file]; cbn [identity_at actualize].
  - intros Hs. unfold lift. by rewrite Hs.
  - intros [Hr Hf]. rewrite (actualize_file_existing _ _ _ _ _ (array_bytes (n:=32) id)).
    + by rewrite try_into_bytes.
    + unfold fs_read. by rewrite Hr.
Qed.

(** One round: the file is written only when it cannot be read. *)
Lemma actualize_file_keeps fuel file c d id0 :
  identity_at c d id0 → identity_at c (actualize_file can_read can_write fuel file d).2 id0.
Proof.
  destruct c as [seed|f]; [done|]. cbn [identity_at]. intros [Hr Hf]. split; [done|].
  revert d Hf. induction fuel as [|fuel IH]; intros d Hf; [done|].
  cbn [actualize_file]. unfold mbind, M_bind, get_state, fs_read.
  destruct (can_read file) eqn:Hrd; [destruct (files d !! file) as [bts|] eqn:Hfile|].
  - unfold lift. by destruct (try_into 32 bts).
  - unfold zoom, IdentitySecret_generate, sample, fs_write.
    destruct (fill_bytes 32 (disk_rng d)) as [newid r]. destruct (can_write file); [|done].
    apply IH. cbn. rewrite lookup_insert_ne; [done|]. intros ->. congruence.
  - unfold zoom, IdentitySecret_generate, sample, fs_write.
    destruct (fill_bytes 32 (disk_rng d)) as [newid r]. destruct (can_write file); [|done].
    apply IH. cbn. rewrite lookup_insert_ne; [done|]. intros ->. congruence.
Qed.

Lemma actualize_keeps fuel c c' d id0 :
  identity_at c d id0 → identity_at c (actualize can_read can_write fuel c' d).2 id0.
Proof. destruct c'; [done|apply actualize_file_keeps]. Qed.

Lemma actualize_file_at fuel file d id d' :
  actualize_file can_read can_write fuel file d = (Ok id, d') → identity_at (IdentityFile file) d' id.
Proof.
  revert d. induction fuel as [|fuel IH]; intros d; [done|].
  cbn [actualize_file]. unfold mbind, M_bind, get_state.
  destruct (fs_read can_read file d) as [bts|] eqn:Hrd.
  - unfold lift. destruct (try_into 32 bts) as [a|] eqn:Ht; [|done]. cbn. intros [= <- <-].
    unfold fs_read in Hrd. destruct (can_read file); [|done]. split; [done|].
    apply try_into_Some in Ht. rewrite Hrd. by f_equal.
  - destruct (zoom _ _ _ d) as [[newid| | |] d1]; try done.
    destruct (fs_write _ _ _ d1) as [[[]| | |] d2]; try done. apply IH.
Qed.

Lemma actualize_at fuel c d id d' :
  actualize can_read can_write fuel c d = (Ok id, d') → identity_at c d' id.
Proof.
  destruct c as [seed|file]; [|apply actualize_file_at]. cbn. unfold lift. by intros [= -> <-].
Qed.

(** What [havens_info] shows are the endpoints of identities that stay. *)
Lemma havens_info_at {E} fuel cfgs d lines d' :
  havens_info (E:=E) can_read can_write fuel cfgs d = (Ok lines, d') →
  (∀ c id0, identity_at c d id0 → identity_at c d' id0) ∧
  Forall2 (λ cfg line, ∃ id, identity_at (hf_identity cfg) d' id ∧
    line = (handler_kind (handler cfg),
            Endpoint_to_string (Endpoint_new (fingerprint (public id)) (handler_dock (handler cfg)))))
    cfgs lines.
Proof.
  revert d lines. induction cfgs as [|cfg cfgs IH]; intros d lines H; cbn [havens_info] in H.
  { injection H as <- <-. split; [done|constructor]. }
  apply M_bind_ok_inv in H as (id & d1 & Ha%unwrap_ok_inv & H).
  apply M_bind_ok_inv in H as (rest & d2 & Hrest & H). injection H as <- <-.
  destruct (IH _ _ Hrest) as [Hk Hl]. split.
  - intros c id0 Hc. apply Hk. pose proof (actualize_keeps fuel c (hf_identity cfg) d id0 Hc) as H.
    by rewrite Ha in H.
  - constructor; [|done]. exists id. split; [|done]. apply Hk. by eapply actualize_at.
Qed.

(** C33 (havens are where they are announced): after [havens_info] has shown its lines, the loop of each
    configured haven starts, and binds a socket whose endpoint is what the
    haven's line parses to. *)
Theorem haven_announced {BL : Base32Laws} {E} fuel fuel' cfgs d lines d' w i cfg line :
  havens_info (E:=E) can_read can_write fuel cfgs d = (Ok lines, d') →
  cfgs !! i = Some cfg → lines !! i = Some line → (handler_dock (handler cfg) < 2 ^ 32)%N →
  ∃ svc w', haven_loop can_read can_write (S fuel') cfg (d', w) = (Ok svc, (d', w')) ∧
    Endpoint_from_str line.2 = Ok (socket_local_endpoint (service_socket svc)).
Proof.
  intros Hinfo Hcfg Hline Hdock. apply havens_info_at in Hinfo as [_ Hl].
  destruct (Forall2_lookup_lr _ _ _ _ _ _ Hl Hcfg Hline) as (id & Hid & ->). cbn [snd].
  rewrite endpoint_parse_print by done.
  assert (∀ dock, ∃ skt w', service_bind can_read can_write (S fuel') cfg dock (d', w) =
      (Ok skt, (d', w')) ∧ socket_local_endpoint skt = Endpoint_new (fingerprint (public id)) dock) as Hb.
  { intros dock. unfold service_bind, mbind, M_bind, zoom at 1. cbn [fst snd].
    rewrite (actualize_again fuel' _ _ _ Hid). cbn [map_err]. unfold zoom, bind_haven_internal, haven_bind.
    cbn [fst snd]. rewrite bind_some. eexists _, _. split; done. }
  unfold haven_loop. destruct (handler cfg) as [dock up|dock up|dock]; cbn [handler_dock] in *;
    destruct (Hb dock) as (skt & w' & Hs & He); unfold mbind, M_bind; rewrite Hs;
    eexists _, w'; (split; [done|]); cbn; by rewrite He.
Qed.

End identity.

(** ** The loops *)

(** The outcome of this attempt is not known yet. *)
Definition undecided (h : N) (ev : service_event) : Prop :=
  match ev with Upstream h' _ => h' ≠ h | _ => True end.

Definition arrivals (evs : list service_event) : list (list byte * Endpoint) :=
  omap (λ ev, match ev with Arrives msg ep => Some (msg, ep) | _ => None end) evs.

(** The ticks of the streams, without any message. *)
Definition ticks_only (evs : list service_event) (l : StreamListener) : StreamListener :=
  foldl (λ l ev, match ev with Ticks now h => ticker_step now h l | _ => l end) l evs.

Lemma tcp_forward_waits can_send h evs s :
  sv_connecting s = Some h → Forall (undecided h) evs →
  let '(r, s') := service_run (tcp_forward_step can_send) evs s in
  r = None ∧ sv_connecting s' = Some h ∧ sv_inbox s' = sv_inbox s ++ arrivals evs ∧
  sv_listener s' = ticks_only evs (sv_listener s).
Proof.
  revert s. induction evs as [|ev evs IH]; intros s Hc Hev.
  { cbn. by rewrite app_nil_r. }
  apply Forall_cons in Hev as [He Hev]. cbn [service_run].
  destruct ev as [msg ep| |now h'|h' ok|h']; cbn [tcp_forward_step undecided] in *; rewrite ?Hc.
  - set (s1 := mkService _ _ _ _). specialize (IH s1 eq_refl Hev). subst s1.
    destruct (service_run _ _ _) as [r s']. destruct IH as (-> & -> & -> & ->). cbn.
    by rewrite <-app_assoc.
  - specialize (IH s Hc Hev). by destruct (service_run _ _ _).
  - specialize (IH (on_listener (ticker_step now h') s) Hc Hev). by destruct (service_run _ _ _).
  - rewrite decide_False by congruence. specialize (IH s Hc Hev). by destruct (service_run _ _ _).
  - set (s1 := mkService _ _ _ _). specialize (IH s1 eq_refl Hev). by destruct (service_run _ _ _).
Qed.

(** A slow upstream: while [tcp_forward] waits for an upstream connection, no
    message reaches any of its streams: what arrives stays in the inbox and
    the streams only tick.  When the connection fails the whole service ends,
    with every stream it serves.  [simple_proxy] connects in the task of the
    stream: there a failure only ends that stream. *)
Theorem slow_upstream_stalls can_send h evs s :
  sv_connecting s = Some h → Forall (undecided h) evs →
  (∃ s', service_run (tcp_forward_step can_send) evs s = (None, s') ∧
    sv_inbox s' = sv_inbox s ++ arrivals evs ∧ sv_listener s' = ticks_only evs (sv_listener s) ∧
    (service_run (tcp_forward_step can_send) (evs ++ [Upstream h false]) s) = (Some ServiceUpstream, s')) ∧
  ∀ h', simple_proxy_step can_send (Upstream h' false) s =
    (Ok tt, mkService (sv_inbox s) (sv_listener s) (sv_connecting s) (sv_copies s ∖ {[h']})).
Proof.
  intros Hc Hev. split; [|done]. pose proof (tcp_forward_waits can_send h evs s Hc Hev) as H.
  destruct (service_run _ evs s) as [r s'] eqn:Hr. destruct H as (-> & Hc' & Hin & Hl).
  exists s'. split_and!; [done..|]. clear Hin Hl. revert s Hc Hr.
  induction evs as [|ev evs IH]; intros s Hc Hr; cbn [service_run app] in *.
  { injection Hr as <-. cbn. by rewrite decide_True. }
  apply Forall_cons in Hev as [He Hev].
  destruct (tcp_forward_step can_send ev s) as [o s1] eqn:Hstep.
  assert (o = Ok tt ∧ sv_connecting s1 = Some h) as [-> Hc1].
  { destruct ev; cbn in Hstep, He; rewrite ?Hc in Hstep; try (by injection Hstep as <- <-).
    rewrite decide_False in Hstep by congruence. by injection Hstep as <- <-. }
  by apply IH.
Qed.

(** A stream that does not open: [tcp_forward_loop] opens the stream of one
    connection before it accepts the next, without a timeout, so while the
    other side does not answer no later connection is accepted. *)
Theorem tcp_forward_one_at_a_time fuel conn skt evs s :
  tf_connecting s = Some (conn, skt) → Forall (λ ev, ∀ o, ev ≠ StreamConnects o) evs →
  foldl (λ s ev, (tcp_forward_loop_step fuel ev s).2) s evs =
  mkTcpForwardState
    (tf_backlog s ++ omap (λ ev, match ev with TcpArrives c => Some c | _ => None end) evs)
    (Some (conn, skt)) (tf_copies s) (tf_world s).
Proof.
  revert s. induction evs as [|ev evs IH]; intros s Hc Hev; cbn.
  { rewrite app_nil_r, <-Hc. by destruct s. }
  apply Forall_cons in Hev as [He Hev].
  destruct ev as [c| |o]; [| |by destruct (He o)]; cbn [tcp_forward_loop_step]; rewrite ?Hc.
  - rewrite IH by done. cbn. by rewrite <-app_assoc.
  - by apply IH.
Qed.

(** A SOCKS5 connection that fails does not end the loop: its task only logs; the
    loop accepts every connection until the listener fails. *)
Lemma socks5_loop_accepts conns rest :
  socks5_loop true ((Some <$> conns) ++ rest) =
  let '(r, l) := socks5_loop true rest in (r, conns ++ l).
Proof.
  induction conns as [|c conns IH]; cbn [fmap list_fmap app].
  - by destruct (socks5_loop true rest).
  - cbn [socks5_loop] in *. rewrite IH. by destruct (socks5_loop true rest).
Qed.

End Services.

(** * Witnesses *)

Lemma haven_announced_witness :
  ∃ lines d' line svc w',
    havens_info (P:=toy) (E:=Empty_set) (λ _, true) (λ _, true) 2 ctl_havens sample_disk =
      (Ok lines, d') ∧ lines !! 0 = Some line ∧
    haven_loop (P:=toy) (λ _, true) (λ _, true) 1
      (mkHavenForward (IdentitySeed [x61]) (sample_fp x09) (SimpleProxyService 80%N)) (d', ctl_world) =
      (Ok svc, (d', w')) ∧
    Endpoint_from_str (P:=toy) line.2 = Ok (socket_local_endpoint (service_socket svc)).
Proof.
  do 3 eexists. unshelve eassert (∃ svc w', _ ∧ _) as (svc & w' & H1 & H2); [shelve..| |].
  - eapply (haven_announced (P:=toy) (E:=Empty_set) (λ _, true) (λ _, true) 2 0 ctl_havens sample_disk
      _ _ ctl_world 0); reflexivity.
  - exists svc, w'. split; [reflexivity|]. split; [reflexivity|]. exact (conj H1 H2).
Defined.

(** One stream is being connected when a message of another arrives. *)
Definition sv_waiting : StreamService :=
  mkService [] (listener_run (λ _ _, true) st_before listen) (Some 0%N) ∅.

Lemma slow_upstream_stalls_witness :
  ∃ s', service_run (tcp_forward_step (λ _ _, true))
      [Arrives (stdcode (st_data 1)) (st_ep x02); Runs; Ticks 3 0; Upstream 0 false] sv_waiting =
      (Some ServiceUpstream, s') ∧
    sv_inbox s' = [(stdcode (st_data 1), st_ep x02)].
Proof.
  destruct (slow_upstream_stalls (λ _ _, true) 0%N
    [Arrives (stdcode (st_data 1)) (st_ep x02); Runs; Ticks 3 0] sv_waiting) as [(s' & _ & Hin & _ & Hr) _].
  - reflexivity.
  - repeat constructor.
  - exists s'. split; [exact Hr|exact Hin].
Defined.
