(* ===== verification/GlobalRpc.v ===== *)
(** Remote calls between nodes: [GlobalRpcTransport::call_raw] of
    [src/global_rpc/transport.rs] and [global_rpc_loop] of [src/daemon.rs].

    The JSON forms of requests and responses are serde_json's, and the
    dispatch of a request to the methods of [GlobalRpcImpl] is generated by the
    nanorpc crate: both are parameters.  What the client's socket receives
    before each of its timers is an argument. *)

From S2P Require Import Prelude Interfaces Crypto Packet OnionRouting Topology ShortestPath.
From S2P Require Import ReplyStore NeighTable Directory Daemon Socket Proxy Instances.

Definition GLOBAL_RPC_DOCK : Dock := 100001%N.

(** [String::from_utf8]. *)
Fixpoint utf8_valid (fuel : nat) (l : list byte) : bool :=
  match l, fuel with
  | [], _ => true
  | _, O => false
  | _, S fuel => let '(ok, n) := utf8_step l in ok && utf8_valid fuel (drop n l)
  end.

Definition from_utf8 (l : list byte) : option (list byte) :=
  if utf8_valid (length l) l then Some l else None.

Lemma ascii_valid l fuel :
  Forall (λ b, in_range 0 127 b = true) l → length l ≤ fuel → utf8_valid fuel l = true.
Proof.
  intros Hl. revert fuel. induction Hl as [|b l Hb Hl IH]; intros [|fuel] Hlen; try done; cbn in Hlen; [lia|].
  cbn [utf8_valid]. unfold utf8_step. rewrite Hb. cbn [andb drop]. apply IH. lia.
Qed.

Lemma ascii_from_utf8 l : Forall (λ b, in_range 0 127 b = true) l → from_utf8 l = Some l.
Proof. intros Hl. unfold from_utf8. by rewrite ascii_valid. Qed.

(** serde_json on the types of nanorpc. *)
Class JsonRpc : Type := {
  JrpcRequest : Type;
  JrpcResponse : Type;
  json_of_request : JrpcRequest → list byte;
  json_to_request : list byte → option JrpcRequest;
  json_of_response : JrpcResponse → list byte;
  json_to_response : list byte → option JrpcResponse
}.

Class JsonRpcLaws (J : JsonRpc) : Prop := {
  request_utf8 r : from_utf8 (json_of_request r) = Some (json_of_request r);
  request_roundtrip r : json_to_request (json_of_request r) = Some r;
  response_utf8 r : from_utf8 (json_of_response r) = Some (json_of_response r);
  response_roundtrip r : json_to_response (json_of_response r) = Some r
}.

Inductive RpcError := RpcUtf8 | RpcJson | RpcRecv.

Section GlobalRpc.
  Context {P : Primitives} {IM : IndexMap} {HI : HashIter} {C : Chan} {L : Lru} {MK : Moka}.
  Context {J : JsonRpc}.

(** * The server *)

(** The task of [global_rpc_loop] for a request; its error is dropped with the
    task. *)
Definition serve_request {S} (respond_raw : JrpcRequest → S → JrpcResponse * S)
    (req : list byte) (endpoint : Endpoint) : M (S * N2rSocket) RpcError unit :=
  text ← lift (ok_or RpcUtf8 (from_utf8 req));
  req ← lift (ok_or RpcJson (json_to_request text));
  modify (λ '(s, socket),
    let '(resp, s) := respond_raw req s in (s, send_to (json_of_response resp) endpoint socket)).

(** * The client *)

(** What the socket gives before the timer of an attempt: nothing, a message or
    an error. *)
Definition arrival : Type := option (outcome SocketRecvError (list byte * Endpoint)).

Definition read_response (res : list byte) : outcome RpcError JrpcResponse :=
  text ← ok_or RpcUtf8 (from_utf8 res);
  ok_or RpcJson (json_to_response text).

(** [2u64.pow(retries + 1)]: it wraps around, or panics with overflow checks. *)
Definition attempt_timeout (oc : bool) (retries : nat) : option N :=
  let n := (2 ^ N.of_nat (S retries))%N in
  if (n <? u64_modulus)%N then Some n else if oc then None else Some (n mod u64_modulus)%N.

(** The seconds an [Instant] can count. *)
Definition INSTANT_LIMIT : N := 2 ^ 63.

(** [Instant::now() + timeout]: the addition panics, in every build, when the
    sum does not fit. *)
Definition attempt_deadline (oc : bool) (now : N) (retries : nat) : option N :=
  timeout ← attempt_timeout oc retries;
  if (now + timeout <? INSTANT_LIMIT)%N then Some timeout else None.

(** The loop of [call_raw], begun at the instant [start]: the result, or [None]
    while it goes on; the seconds it waited in vain; and the socket. *)
Fixpoint call_loop (oc : bool) (start : N) (retries : nat) (req : JrpcRequest) (endpoint : Endpoint)
    (arrivals : list arrival) (waited : N) (socket : N2rSocket)
    : option (outcome RpcError JrpcResponse) * N * N2rSocket :=
  match arrivals with
  | [] => (None, waited, socket)
  | arrived :: arrivals =>
      let socket := send_to (json_of_request req) endpoint socket in
      match attempt_deadline oc (start + waited) retries with
      | None => (Some Panic, waited, socket)
      | Some timeout =>
          match arrived with
          | Some (Ok (res, _)) => (Some (read_response res), waited, socket)
          | Some _ => (Some (Err RpcRecv), waited, socket)
          | None =>
              call_loop oc start (S retries) req endpoint arrivals (waited + timeout) socket
          end
      end
  end.

(** [call_raw] at the instant [start]: a socket at a random dock, dropped when
    the call returns. *)
Definition call_raw {E} (oc : bool) (start : N) (fuel : nat) (anon_isk : IdentitySecret)
    (dest_fp : Fingerprint) (req : JrpcRequest) (arrivals : list arrival)
    : M DaemonContext E (option (outcome RpcError JrpcResponse) * N * N2rSocket) :=
  socket ← bind fuel anon_isk None;
  let '(o, waited, socket) :=
    call_loop oc start 0 req (Endpoint_new dest_fp GLOBAL_RPC_DOCK) arrivals 0 socket in
  match o with
  | Some Panic => lift Panic
  | Some _ => _ ← modify (drop_socket socket); mret (o, waited, socket)
  | None => mret (o, waited, socket)
  end.

(** * Properties *)

Context {IML : IndexMapLaws IM} {CL : ChanLaws C} {JL : JsonRpcLaws J}.

(** The messages a socket has queued. *)
Definition queued (s : N2rSocket) : list (list byte * Endpoint) := chan_view (send_outgoing s).
Definition room (n : nat) (s : N2rSocket) : Prop :=
  (N.of_nat (length (queued s) + n) <= chan_cap (send_outgoing s))%N.

Lemma send_to_queued m ep s n :
  room (S n) s → queued (send_to m ep s) = queued s ++ [(m, ep)] ∧ room n (send_to m ep s) ∧
    local_endpoint (send_to m ep s) = local_endpoint s ∧
    recv_incoming (send_to m ep s) = recv_incoming s.
Proof.
  unfold room, queued, send_to. intros Hr.
  destruct (chan_try_send_ok (m, ep) (send_outgoing s)) as (c & -> & Hv & Hc); [lia|]. cbn.
  rewrite Hv, Hc, length_app. cbn. split_and!; [done|lia|done..].
Qed.

(** After [k] lost attempts [2^(k+1) - 2] seconds have passed, and the deadline
    of the next is [2^(k+1)] seconds later. *)
Definition fits_instant (start : N) (k : nat) : Prop :=
  (start + (2 ^ N.of_nat (k + 2) - 2) < INSTANT_LIMIT)%N.

#[global] Instance fits_instant_dec start k : Decision (fits_instant start k).
Proof. unfold fits_instant. apply _. Defined.

Lemma pow2_double k : (2 ^ N.of_nat (S k) = 2 ^ N.of_nat k + 2 ^ N.of_nat k)%N.
Proof. rewrite Nat2N.inj_succ, N.pow_succ_r'. lia. Qed.

Lemma pow2_mono j k : j ≤ k → (2 ^ N.of_nat j <= 2 ^ N.of_nat k)%N.
Proof. intros. apply N.pow_le_mono_r; lia. Qed.

Lemma pow2_pos k : (1 <= 2 ^ N.of_nat k)%N.
Proof. apply (pow2_mono 0 k). lia. Qed.

Lemma fits_instant_mono start j k : j ≤ k → fits_instant start k → fits_instant start j.
Proof.
  unfold fits_instant. intros Hjk Hk. pose proof (pow2_mono (j + 2) (k + 2) ltac:(lia)). lia.
Qed.

Lemma fits_instant_small start k : fits_instant start k → k + 2 ≤ 63.
Proof.
  unfold fits_instant, INSTANT_LIMIT. intros Hk. destruct (decide (k + 2 ≤ 63)); [done|].
  pose proof (pow2_mono 64 (k + 2) ltac:(lia)) as Hp. exfalso.
  change (2 ^ N.of_nat 64)%N with 18446744073709551616%N in Hp. lia.
Qed.

(** The deadline of the attempt after [r] lost ones. *)
Lemma attempt_deadline_spec oc start r :
  attempt_deadline oc (start + (2 ^ N.of_nat (S r) - 2)) r =
  if decide (fits_instant start r) then Some (2 ^ N.of_nat (S r))%N else None.
Proof.
  unfold attempt_deadline, attempt_timeout. case_decide as Hfit.
  - pose proof (fits_instant_small _ _ Hfit) as Hs. unfold fits_instant in Hfit.
    pose proof (pow2_mono (S r) 62 ltac:(lia)) as Hp.
    change (2 ^ N.of_nat 62)%N with 4611686018427387904%N in Hp.
    replace (r + 2) with (S (S r)) in Hfit by lia. rewrite (pow2_double (S r)) in Hfit.
    pose proof (pow2_mono 1 (S r) ltac:(lia)) as H1. change (2 ^ N.of_nat 1)%N with 2%N in H1.
    rewrite (proj2 (N.ltb_lt _ _)) by (unfold u64_modulus; lia). cbn [mbind option_bind].
    rewrite (proj2 (N.ltb_lt _ _)) by lia. done.
  - unfold fits_instant in Hfit. replace (r + 2) with (S (S r)) in Hfit by lia.
    rewrite (pow2_double (S r)) in Hfit.
    pose proof (pow2_mono 1 (S r) ltac:(lia)) as H1. change (2 ^ N.of_nat 1)%N with 2%N in H1.
    destruct (2 ^ N.of_nat (S r) <? u64_modulus)%N eqn:E; cbn [mbind option_bind].
    + rewrite (proj2 (N.ltb_ge _ _)) by lia. done.
    + apply N.ltb_ge in E. destruct oc; [done|]. cbn [mbind option_bind].
      rewrite (proj2 (N.ltb_ge _ _)); [done|].
      generalize (2 ^ N.of_nat (S r) mod u64_modulus)%N as m. intros m.
      generalize dependent (2 ^ N.of_nat (S r))%N. intros n _ _ E.
      assert (INSTANT_LIMIT + 2 <= u64_modulus)%N by done. lia.
Qed.

(** [k] timers run out, then a message arrives. *)
Lemma call_loop_retries oc start k r req ep msg from rest s :
  room (S k) s → fits_instant start (r + k) →
  ∃ s', call_loop oc start r req ep (replicate k None ++ Some (Ok (msg, from)) :: rest)
      (2 ^ N.of_nat (S r) - 2) s =
      (Some (read_response msg), (2 ^ N.of_nat (S (r + k)) - 2)%N, s') ∧
    queued s' = queued s ++ replicate (S k) (json_of_request req, ep) ∧
    local_endpoint s' = local_endpoint s ∧ recv_incoming s' = recv_incoming s.
Proof.
  revert r s. induction k as [|k IH]; intros r s Hroom Hk; cbn [replicate app call_loop];
    rewrite attempt_deadline_spec, decide_True by (apply (fits_instant_mono _ _ _ (Nat.le_add_r r _) Hk)).
  - destruct (send_to_queued (json_of_request req) ep s 0 Hroom) as (Hq & _ & He & Hh).
    eexists. rewrite Nat.add_0_r. done.
  - destruct (send_to_queued (json_of_request req) ep s (S k) Hroom) as (Hq & Hr & He & Hh).
    assert (2 ^ N.of_nat (S r) - 2 + 2 ^ N.of_nat (S r) = 2 ^ N.of_nat (S (S r)) - 2)%N as ->.
    { pose proof (pow2_mono 1 (S r) ltac:(lia)) as H1. change (2 ^ N.of_nat 1)%N with 2%N in H1.
      rewrite (pow2_double (S r)). lia. }
    destruct (IH (S r) _ Hr) as (s' & -> & Hq' & He' & Hh').
    { by replace (S r + k) with (r + S k) by lia. }
    exists s'. rewrite Hq', Hq, He', Hh'. split_and!; [|by rewrite <-app_assoc|done..].
    by replace (S r + k) with (r + S k) by lia.
Qed.

(** Once a deadline does not fit, the call panics. *)
Lemma call_loop_overflows oc start k r req ep a rest s :
  ¬ fits_instant start (r + k) →
  ∃ w s', call_loop oc start r req ep (replicate k None ++ a :: rest) (2 ^ N.of_nat (S r) - 2) s =
    (Some Panic, w, s').
Proof.
  revert r s. induction k as [|k IH]; intros r s Hk; cbn [replicate app call_loop];
    rewrite attempt_deadline_spec.
  - rewrite decide_False by (by rewrite Nat.add_0_r in Hk). eauto.
  - case_decide; [|eauto].
    assert (2 ^ N.of_nat (S r) - 2 + 2 ^ N.of_nat (S r) = 2 ^ N.of_nat (S (S r)) - 2)%N as ->.
    { pose proof (pow2_mono 1 (S r) ltac:(lia)) as H1. change (2 ^ N.of_nat 1)%N with 2%N in H1.
      rewrite (pow2_double (S r)). lia. }
    apply IH. by replace (S r + k) with (r + S k) by lia.
Qed.

Lemma bind_fresh {E} fuel isk ctx skt ctx1 :
  bind (E:=E) fuel isk None ctx = (Ok skt, ctx1) →
  queued skt = [] ∧ (∀ n, (N.of_nat n <= SEND_CAPACITY)%N → room n skt) ∧
  (∀ ep, im_get ep (socket_recv_queues (drop_socket skt ctx1)) = im_get ep (socket_recv_queues ctx)) ∧
  sockets (drop_socket skt ctx1) = sockets ctx.
Proof.
  unfold bind. intros H. apply M_bind_ok_inv in H as (d & ctx0 & Hd & H).
  apply random_dock_free in Hd as [Hfree [r ->]].
  apply M_bind_ok_inv in H as (? & ? & [= <- <-] & H).
  apply M_bind_ok_inv in H as ([] & ? & [= <-] & [= <- <-]).
  unfold queued, room, drop_socket. cbn. split_and!.
  - apply chan_view_bounded.
  - intros n Hn. unfold queued. cbn. rewrite chan_view_bounded, chan_cap_bounded. exact Hn.
  - intros ep. unfold local_endpoint. cbn. rewrite im_get_remove, im_get_insert.
    case_decide; [by subst|done].
  - apply delete_insert_id, not_elem_of_dom, is_fresh.
Qed.

(** The socket of a call can be dropped in any state. *)
Lemma drop_socket_same s s' ctx :
  local_endpoint s' = local_endpoint s → recv_incoming s' = recv_incoming s →
  drop_socket s' ctx = drop_socket s ctx.
Proof. unfold drop_socket. by intros -> ->. Qed.

Lemma read_response_returns res : read_response res ≠ Panic.
Proof.
  unfold read_response. destruct (from_utf8 res) as [text|]; [|done]. cbn. by destruct (json_to_response text).
Qed.

Lemma call_raw_retries {E} oc start fuel isk dest req k msg from rest ctx skt ctx1 :
  bind (E:=E) fuel isk None ctx = (Ok skt, ctx1) → fits_instant start k →
  ∃ client, call_raw (E:=E) oc start fuel isk dest req
      (replicate k None ++ Some (Ok (msg, from)) :: rest) ctx =
      (Ok (Some (read_response msg), (2 ^ N.of_nat (S k) - 2)%N, client), drop_socket skt ctx1) ∧
    queued client = replicate (S k) (json_of_request req, Endpoint_new dest GLOBAL_RPC_DOCK).
Proof.
  intros Hb Hk. destruct (bind_fresh _ _ _ _ _ Hb) as (Hq & Hroom & _).
  pose proof (fits_instant_small _ _ Hk) as Hsmall.
  destruct (call_loop_retries oc start k 0 req (Endpoint_new dest GLOBAL_RPC_DOCK) msg from rest skt)
    as (s' & Hloop & Hq' & He & Hh); [apply Hroom; unfold SEND_CAPACITY; lia|done|].
  exists s'. rewrite Hq', Hq. split; [|done]. unfold call_raw.
  change 0%N with (2 ^ N.of_nat 1 - 2)%N at 1.
  rewrite (M_bind_ok _ _ _ _ _ Hb), Hloop. pose proof (read_response_returns msg).
  unfold mbind, M_bind, modify. cbn. rewrite <-(drop_socket_same skt s') by done.
  by destruct (read_response msg).
Qed.

Lemma call_raw_overflows {E} oc start fuel isk dest req k a rest ctx skt ctx1 :
  bind (E:=E) fuel isk None ctx = (Ok skt, ctx1) → ¬ fits_instant start k →
  (call_raw (E:=E) oc start fuel isk dest req (replicate k None ++ a :: rest) ctx).1 = Panic.
Proof.
  intros Hb Hk.
  destruct (call_loop_overflows oc start k 0 req (Endpoint_new dest GLOBAL_RPC_DOCK) a rest skt Hk)
    as (w & s' & Hloop).
  unfold call_raw. change 0%N with (2 ^ N.of_nat 1 - 2)%N at 1.
  by rewrite (M_bind_ok _ _ _ _ _ Hb), Hloop.
Qed.

Lemma serve_request_ok {S} (respond_raw : JrpcRequest → S → JrpcResponse * S) req ep (s s' : S) resp skt :
  respond_raw req s = (resp, s') →
  serve_request respond_raw (json_of_request req) ep (s, skt) =
    (Ok tt, (s', send_to (json_of_response resp) ep skt)).
Proof.
  intros Hresp. unfold serve_request. rewrite request_utf8. unfold mbind, M_bind, lift. cbn.
  rewrite request_roundtrip. cbn. unfold modify. by rewrite Hresp.
Qed.

Lemma read_response_ok resp : read_response (json_of_response resp) = Ok resp.
Proof. unfold read_response. rewrite response_utf8. cbn. by rewrite response_roundtrip. Qed.

(** C16 (remote calls): a request that a node queues is understood by the server, whose
    answer goes to the endpoint the request came from.  When the answer arrives
    after [k] lost attempts, the call returns it: it has then sent the request
    [k + 1] times and waited [2^(k+1) - 2] seconds, and leaves no socket behind.
    This holds as long as the deadline of the last attempt, [2^(k+2) - 2]
    seconds after the call began at the instant [start], fits an [Instant] (63
    bits of seconds); otherwise the call panics at a deadline, in every
    build. *)
Theorem rpc_call_returns {S E} (respond_raw : JrpcRequest → S → JrpcResponse * S)
    oc start fuel isk dest req k from (s : S) server ctx skt ctx1 :
  bind (E:=E) fuel isk None ctx = (Ok skt, ctx1) → room 1 server →
  let '(resp, s') := respond_raw req s in
  let call := call_raw (E:=E) oc start fuel isk dest req
      (replicate k None ++ [Some (Ok (json_of_response resp, from))]) ctx in
  (∃ server', serve_request respond_raw (json_of_request req) (local_endpoint skt) (s, server) =
      (Ok tt, (s', server')) ∧
    queued server' = queued server ++ [(json_of_response resp, local_endpoint skt)]) ∧
  if decide (start + (2 ^ N.of_nat (k + 2) - 2) < 2 ^ 63)%N then
    ∃ client ctx', call = (Ok (Some (Ok resp), (2 ^ N.of_nat (k + 1) - 2)%N, client), ctx') ∧
      queued client = replicate (k + 1) (json_of_request req, Endpoint_new dest GLOBAL_RPC_DOCK) ∧
      (∀ ep, im_get ep (socket_recv_queues ctx') = im_get ep (socket_recv_queues ctx)) ∧
      sockets ctx' = sockets ctx
  else call.1 = Panic.
Proof.
  intros Hb Hroom. destruct (respond_raw req s) as [resp s'] eqn:Hresp. split.
  - eexists. split; [by apply serve_request_ok|]. by apply (send_to_queued _ _ _ 0).
  - case_decide as Hk; [|by eapply call_raw_overflows].
    destruct (call_raw_retries oc start fuel isk dest req k (json_of_response resp) from [] ctx skt ctx1
      Hb Hk) as (client & Hc & Hq).
    rewrite read_response_ok in Hc. replace (k + 1) with (Datatypes.S k) by lia.
    exists client, (drop_socket skt ctx1).
    destruct (bind_fresh _ _ _ _ _ Hb) as (_ & _ & H1 & H2). done.
Qed.

(** A stray message ends a call: a message from anyone that is not a response ends the
    call with an error, even when the server's answer is next. *)
Theorem stray_message_ends_call {E} oc start fuel isk dest req k junk from resp server ctx skt ctx1 :
  bind (E:=E) fuel isk None ctx = (Ok skt, ctx1) → fits_instant start k →
  (from_utf8 junk = None ∨ json_to_response junk = None) →
  ∃ e waited client ctx', call_raw (E:=E) oc start fuel isk dest req
      (replicate k None ++ [Some (Ok (junk, from)); Some (Ok (json_of_response resp, server))]) ctx =
      (Ok (Some (Err e), waited, client), ctx').
Proof.
  intros Hb Hk Hjunk.
  destruct (call_raw_retries oc start fuel isk dest req k junk from [Some (Ok (json_of_response resp, server))]
    ctx skt ctx1 Hb Hk) as (client & Hc & _).
  unfold read_response, from_utf8 in Hc, Hjunk. destruct (utf8_valid (length junk) junk).
  - destruct Hjunk as [|Hj]; [done|]. cbn in Hc. rewrite Hj in Hc. eauto.
  - cbn in Hc. eauto.
Qed.

End GlobalRpc.

(** * Witnesses *)

(** Requests and responses of one ASCII character after a quote. *)
#[export] Instance toy_json : JsonRpc := {|
  JrpcRequest := bool;
  JrpcResponse := bool;
  json_of_request := λ b, [x22; if b then x31 else x30; x22];
  json_to_request := λ l, match l with [x22; x31; x22] => Some true | [x22; x30; x22] => Some false | _ => None end;
  json_of_response := λ b, [x22; if b then x31 else x30; x22];
  json_to_response := λ l, match l with [x22; x31; x22] => Some true | [x22; x30; x22] => Some false | _ => None end
|}.

#[export] Instance toy_json_laws : JsonRpcLaws toy_json.
Proof. split; by intros []. Qed.

Definition rpc_skt : N2rSocket := mkN2rSocket (sample_fp x09) GLOBAL_RPC_DOCK 3%N [] (chan_bounded SEND_CAPACITY).

(** A service that answers the negation and counts. *)
Definition rpc_negate (b : bool) (n : N) : bool * N := (negb b, (n + 1)%N).

Lemma rpc_bound : ∃ skt ctx1,
  bind (P:=toy) (E:=Empty_set) 1 (node_isk x05) None sock_ctx = (Ok skt, ctx1).
Proof.
  assert (is_ok (bind (P:=toy) (E:=Empty_set) 1 (node_isk x05) None sock_ctx).1 = true) as H
    by (vm_compute; reflexivity).
  destruct (bind 1 (node_isk x05) None sock_ctx) as [[skt| | |] ctx1]; [eauto|done..].
Qed.

Lemma rpc_call_returns_witness :
  (∃ client ctx', call_raw (P:=toy) (E:=Empty_set) true 1000 1 (node_isk x05) (sample_fp x09) false
      [None; None; Some (Ok (json_of_response true, sock_ep))] sock_ctx =
      (Ok (Some (Ok true), 6%N, client), ctx') ∧
    queued client = replicate 3 (json_of_request false, Endpoint_new (sample_fp x09) GLOBAL_RPC_DOCK)) ∧
  (call_raw (P:=toy) (E:=Empty_set) true 1000 1 (node_isk x05) (sample_fp x09) false
      (replicate 61 None ++ [Some (Ok (json_of_response true, sock_ep))]) sock_ctx).1 = Panic.
Proof.
  destruct rpc_bound as (skt & ctx1 & Hb). split.
  - destruct (rpc_call_returns (P:=toy) (J:=toy_json) (E:=Empty_set) rpc_negate true 1000 1 (node_isk x05)
      (sample_fp x09) false 2 sock_ep 0%N rpc_skt sock_ctx skt ctx1 Hb) as (_ & client & ctx' & H1 & H2 & _).
    + discriminate.
    + exists client, ctx'. exact (conj H1 H2).
  - destruct (rpc_call_returns (P:=toy) (J:=toy_json) (E:=Empty_set) rpc_negate true 1000 1 (node_isk x05)
      (sample_fp x09) false 61 sock_ep 0%N rpc_skt sock_ctx skt ctx1 Hb) as (_ & H).
    + discriminate.
    + exact H.
Defined.

Lemma stray_message_ends_call_witness :
  ∃ e waited client ctx', call_raw (P:=toy) (E:=Empty_set) true 1000 1 (node_isk x05) (sample_fp x09) false
      [Some (Ok ([xff], sock_ep)); Some (Ok (json_of_response true, sock_ep))] sock_ctx =
      (Ok (Some (Err e), waited, client), ctx').
Proof.
  destruct rpc_bound as (skt & ctx1 & Hb).
  apply (stray_message_ends_call (P:=toy) (J:=toy_json) (E:=Empty_set) true 1000 1 (node_isk x05)
    (sample_fp x09) false 0 [xff] sock_ep true sock_ep sock_ctx skt ctx1 Hb).
  - reflexivity.
  - apply or_introl. reflexivity.
Defined.
