(* ===== verification/RpcNet.v ===== *)
(** Remote calls over the network.

    [GlobalRpc.v] takes what a caller's socket receives from its environment.
    Here the environment is the network of [RoundTrip.v]: the caller's daemon,
    the daemon that serves, and the nodes between them. *)

From stdpp Require Import relations.
From S2P Require Import Prelude Interfaces Crypto Packet OnionRouting Topology ShortestPath.
From S2P Require Import ReplyStore NeighTable Directory Daemon DaemonSafety Network Socket RoundTrip.
From S2P Require Import Proxy GlobalRpc Instances.

Section RpcNet.
  Context {P : Primitives} {IM : IndexMap} {HI : HashIter} {C : Chan} {L : Lru} {MK : Moka}.
  Context {SA : Stdcode AdjacencyDescriptor} {SI : Stdcode IdentityDescriptor}.
  Context {B : Bincode InnerPacket} {J : JsonRpc}.
  Context {PL : PrimitivesLaws P} {IML : IndexMapLaws IM} {HIL : HashIterLaws HI}.
  Context {CL : ChanLaws C} {LL : LruLaws L} {MKL : MokaLaws MK} {BL : BincodeLaws InnerPacket}.
  Context {JL : JsonRpcLaws J}.

Abbreviation network := (gmap Fingerprint DaemonContext).

(** The run of a call whose first attempt succeeds: the caller at [a] binds
    [skt] and sends, the loop of the server at [dst] receives on its socket and
    serves, and the caller receives what was answered. *)
Definition call_run {S} (respond_raw : JrpcRequest → S → JrpcResponse * S) (a dst : Fingerprint)
    (isk : IdentitySecret) (skt server : N2rSocket) (req : JrpcRequest) (ca : DaemonContext)
    (net : network) (s s' : S) (answer : list byte * Endpoint) : Prop :=
  ∃ ca1 net1 cd1 request from cd2 server2 server3 cd3 net2 ca2 st,
    send_batcher_round isk (bound_dock skt)
      (queued (send_to (json_of_request req) (Endpoint_new dst GLOBAL_RPC_DOCK) skt)) ca = (Ok tt, ca1) ∧
    rtc net_step (<[a := ca1]> net) net1 ∧ net1 !! dst = Some cd1 ∧
    recv_from 2 (cd1, server) = (Ok (Some (request, from)), (cd2, server2)) ∧
    serve_request respond_raw request from (s, server2) = (Ok tt, (s', server3)) ∧
    send_batcher_round (global_identity cd2) (bound_dock server2) (queued server3) cd2 = (Ok tt, cd3) ∧
    rtc net_step (<[dst := cd3]> net1) net2 ∧ net2 !! a = Some ca2 ∧
    recv_from 2 (ca2, skt) = (Ok (Some answer), st).

(** A call whose answer arrives during its first attempt. *)
Lemma call_answered {E} fuel isk dst req resp from ctx skt ca :
  bind (E:=E) fuel isk None ctx = (Ok skt, ca) →
  ∃ client, ∀ oc start, fits_instant start 0 →
    call_raw (E:=E) oc start fuel isk dst req [Some (Ok (json_of_response resp, from))] ctx =
      (Ok (Some (Ok resp), 0%N, client), drop_socket skt ca).
Proof.
  intros Hbind. exists (send_to (json_of_request req) (Endpoint_new dst GLOBAL_RPC_DOCK) skt).
  intros oc start Hfit. unfold call_raw. rewrite (M_bind_ok _ _ _ _ _ Hbind). cbn [call_loop].
  pose proof (attempt_deadline_spec oc start 0) as Hd. rewrite decide_True in Hd by done.
  change (2 ^ N.of_nat 1 - 2)%N with 0%N in Hd. rewrite Hd, read_response_ok.
  unfold mbind, M_bind, modify. cbn. f_equal. apply drop_socket_same;
    unfold send_to; by destruct (chan_try_send _ _).
Qed.

(** A call of any service, over ready routes. *)
Lemma call_over_network {S E} (respond_raw : JrpcRequest → S → JrpcResponse * S) (s : S)
    fuel net a dst isk p q skt server req resp s' ctx ca cd :
  fits dummy → (∀ rbs, length rbs = BATCH_SIZE → fits (IReplyBlocks rbs)) →
  bind (E:=E) fuel isk None ctx = (Ok skt, ca) → bound_dock server = GLOBAL_RPC_DOCK →
  respond_raw req s = (resp, s') →
  n2r_ready net a dst isk p q skt server (json_of_request req) (json_of_response resp) ca cd →
  (∀ ca1, send_batcher_round isk (bound_dock skt)
      (chan_view (send_outgoing (send_to (json_of_request req) (local_endpoint server) skt))) ca = (Ok tt, ca1) →
    moka_get (clock ca) 0%N (degarblers ca1) = None) →
  ∃ answer client ctx', call_run respond_raw a dst isk skt server req ca net s s' answer ∧
    (∀ oc start, fits_instant start 0 →
      call_raw (E:=E) oc start fuel isk dst req [Some (Ok answer)] ctx =
        (Ok (Some (Ok resp), 0%N, client), ctx')) ∧
    (∀ ep, im_get ep (socket_recv_queues ctx') = im_get ep (socket_recv_queues ctx)) ∧
    sockets ctx' = sockets ctx.
Proof.
  intros Hdummy Hblocks Hbind Hdock Hresp Hr Hzero.
  destruct (round_trip net a dst isk p q skt server _ _ ca cd Hdummy Hblocks Hr Hzero)
    as (ca1 & net1 & cd1 & ep & cd2 & sb2 & Hsend & Hs1 & Hd1 & Hrecv & Hep
        & cd3 & net2 & ca2 & ep' & st & Hsend2 & Hs2 & Ha2 & Hrecv2 & Hep').
  assert (local_endpoint server = Endpoint_new dst GLOBAL_RPC_DOCK) as Hle.
  { unfold local_endpoint. by rewrite Hdock, (rdy_sb_fp _ _ _ _ _ _ _ _ _ _ _ _ Hr). }
  destruct (call_answered (E:=E) fuel isk dst req resp ep' ctx skt ca Hbind) as [client Hcall].
  destruct (bind_fresh _ _ _ _ _ Hbind) as (_ & _ & Hq & Hsk).
  exists (json_of_response resp, ep'), client, (drop_socket skt ca). split_and!; [|exact Hcall|done..].
  exists ca1, net1, cd1, (json_of_request req), ep, cd2, sb2, (send_to (json_of_response resp) ep sb2), cd3,
    net2, ca2, st. rewrite <-Hle. split_and!; try done.
  by apply serve_request_ok.
Qed.

(** A remote call over the network: a node calls another under an anonymous identity,
    over ready routes both ways.  The request crosses the network, the server
    understands it and answers through a reply block, and the call returns the
    response of the service, without having waited for a timer; its socket is
    gone. *)
Theorem rpc_over_network {S E} (respond_raw : JrpcRequest → S → JrpcResponse * S) (s : S)
    fuel net a dst isk p q skt server req resp s' ctx ca cd :
  fits dummy → (∀ rbs, length rbs = BATCH_SIZE → fits (IReplyBlocks rbs)) →
  bind (E:=E) fuel isk None ctx = (Ok skt, ca) → bound_dock server = GLOBAL_RPC_DOCK →
  respond_raw req s = (resp, s') →
  n2r_ready net a dst isk p q skt server (json_of_request req) (json_of_response resp) ca cd →
  (∀ ca1, send_batcher_round isk (bound_dock skt)
      (chan_view (send_outgoing (send_to (json_of_request req) (local_endpoint server) skt))) ca = (Ok tt, ca1) →
    moka_get (clock ca) 0%N (degarblers ca1) = None) →
  ∃ answer client ctx', call_run respond_raw a dst isk skt server req ca net s s' answer ∧
    (∀ oc start, fits_instant start 0 →
      call_raw (E:=E) oc start fuel isk dst req [Some (Ok answer)] ctx =
        (Ok (Some (Ok resp), 0%N, client), ctx')) ∧
    (∀ ep, im_get ep (socket_recv_queues ctx') = im_get ep (socket_recv_queues ctx)) ∧
    sockets ctx' = sockets ctx.
Proof. apply call_over_network. Qed.

End RpcNet.

(** * Witness *)

(** The caller binds a socket at a random dock; the third node's server is at
    the dock of remote calls. *)
Definition rn_ctx1 : DaemonContext (P:=toy) := (rt_bind x09 None rt_base).2.
Definition rn_skt : N2rSocket := rt_skt (rt_bind x09 None rt_base).
Definition rn_ctx3 : DaemonContext (P:=toy) := (rt_bind x03 (Some GLOBAL_RPC_DOCK) ctx3).2.
Definition rn_server : N2rSocket := rt_skt (rt_bind x03 (Some GLOBAL_RPC_DOCK) ctx3).
Definition rn_round : outcome SendMessageError unit * DaemonContext (P:=toy) :=
  send_batcher_round (node_isk x09) (bound_dock rn_skt)
    [(json_of_request (JsonRpc:=toy_json) false, local_endpoint rn_server)] rn_ctx1.


Lemma rn_bound1 : rt_bind x09 None rt_base = (Ok rn_skt, rn_ctx1).
Proof. apply rt_bound. vm_compute. reflexivity. Qed.
Lemma rn_bound3 : rt_bind x03 (Some GLOBAL_RPC_DOCK) ctx3 = (Ok rn_server, rn_ctx3).
Proof. apply rt_bound. vm_compute. reflexivity. Qed.

Lemma rn_no_zero : moka_get (clock rn_ctx1) 0%N (degarblers rn_round.2) = None.
Proof. apply option_none. vm_compute. reflexivity. Qed.

Lemma rn_ready :
  n2r_ready (P:=toy) (sample_with rn_ctx1 rn_ctx3) fp1 fp3 (node_isk x09) sample_path back_path rn_skt rn_server
    (json_of_request (JsonRpc:=toy_json) false) (json_of_response (JsonRpc:=toy_json) true) rn_ctx1 rn_ctx3.
Proof. apply (bound_ready _ _ _ _ _ _ _ _ rn_bound1 rn_bound3); vm_compute; discriminate. Qed.

Lemma rpc_over_network_witness :
  ∃ answer client ctx',
    call_run (P:=toy) (J:=toy_json) rpc_negate fp1 fp3 (node_isk x09) rn_skt rn_server false rn_ctx1
      (sample_with rn_ctx1 rn_ctx3) 0%N 1%N answer ∧
    call_raw (P:=toy) (J:=toy_json) (E:=Empty_set) true 1000 1 (node_isk x09) fp3 false [Some (Ok answer)] rt_base =
      (Ok (Some (Ok true), 0%N, client), ctx').
Proof.
  destruct (rpc_over_network (P:=toy) (J:=toy_json) (E:=Empty_set) rpc_negate 0%N 1 (sample_with rn_ctx1 rn_ctx3)
    fp1 fp3 (node_isk x09) sample_path back_path rn_skt rn_server false true 1%N rt_base rn_ctx1 rn_ctx3)
    as (answer & client & ctx' & H1 & H2 & _).
  - vm_compute. discriminate.
  - exact ten_blocks_fit.
  - exact rn_bound1.
  - reflexivity.
  - reflexivity.
  - exact rn_ready.
  - intros ca1 Hsend. apply (f_equal snd) in Hsend. cbn [snd] in Hsend. rewrite <-Hsend. exact rn_no_zero.
  - exists answer, client, ctx'. exact (conj H1 (H2 true 1000%N eq_refl)).
Defined.
