(* ===== verification/DhtNet.v ===== *)
(** Publishing and finding a haven over the network.

    [src/global_rpc.rs] declares the methods that nodes call on each other, and
    [src/global_rpc/server.rs] serves them; the stubs on both sides are derived by
    the nanorpc crate and are parameters.  Here the answers that [Dht.v] takes
    from its environment are those of a daemon across the network of
    [RpcNet.v]. *)

From stdpp Require Import relations.
From S2P Require Import Prelude Interfaces Crypto Packet OnionRouting Topology ShortestPath.
From S2P Require Import ReplyStore NeighTable Directory Daemon DaemonSafety Network Socket RoundTrip.
From S2P Require Import Dht Rendezvous Proxy GlobalRpc RpcNet Instances.

(** * The protocol *)

(** The methods of [GlobalRpcProtocol] with their arguments, and what they
    return. *)
Inductive RpcCall :=
  | Ping (i : N)
  | DhtInsert (locator : HavenLocator) (recurse : bool)
  | DhtGet (key : Fingerprint) (recurse : bool)
  | AllocForward (forward_req : RegisterHavenReq).

Inductive RpcReturn :=
  | Pinged (i : N)
  | Inserted (r : outcome DhtError unit)
  | Got (r : outcome DhtError (option HavenLocator))
  | Allocated (r : outcome VerifyError unit).

(** A value that the method can return. *)
Definition typed (c : RpcCall) (r : RpcReturn) : Prop :=
  match c, r with
  | Ping _, Pinged _ => True
  | DhtInsert _ _, Inserted r => returns r
  | DhtGet _ _, Got r => returns r
  | AllocForward _, Allocated r => returns r
  | _, _ => False
  end.

(** What nanorpc derives from the trait: the requests of the client, the dispatch
    of the server, and the way of the result back. *)
Class GlobalRpcStubs (J : JsonRpc) : Type := {
  request_of : RpcCall → JrpcRequest;
  call_of : JrpcRequest → option RpcCall;
  response_of : RpcReturn → JrpcResponse;
  method_not_found : JrpcResponse;
  return_of : RpcCall → JrpcResponse → option RpcReturn
}.

Class GlobalRpcStubsLaws {J : JsonRpc} (R : GlobalRpcStubs J) : Prop := {
  call_roundtrip c : call_of (request_of c) = Some c;
  return_roundtrip c r : typed c r → return_of c (response_of r) = Some r
}.

Section DhtNet.
  Context {P : Primitives} {IM : IndexMap} {HI : HashIter} {C : Chan} {L : Lru} {MK : Moka}.
  Context {SA : Stdcode AdjacencyDescriptor} {SI : Stdcode IdentityDescriptor}.
  Context {SL : Stdcode HavenLocator} {SR : Stdcode RegisterHavenReq}.
  Context {SK : Stdcode (list byte * Fingerprint)} {SF : Stdcode (list byte * Endpoint)}.
  Context {B : Bincode InnerPacket} {J : JsonRpc} {R : GlobalRpcStubs J}.

(** * The server *)

(** The caches of the serving node, and the requests that its recursive
    insertions make. *)
Record RpcServer := mkRpcServer {
  srv_context : RpcContext;
  srv_requests : list (Fingerprint * HavenLocator)
}.

(** The methods of [GlobalRpcImpl] at time [now], with the node's graph and what
    the replicas it asks answer. *)
Definition rpc_method (now : N) (g : RelayGraph) (net : replica_net) (call : RpcCall) (self : RpcServer)
    : RpcReturn * RpcServer :=
  let '(mkRpcServer c reqs) := self in
  match call with
  | Ping i => (Pinged i, self)
  | DhtInsert locator recurse =>
      match rpc_dht_insert now g locator recurse c with
      | (Ok out, c) => (Inserted (Ok tt), mkRpcServer c (reqs ++ out))
      | (Err e, c) => (Inserted (Err e), mkRpcServer c reqs)
      | (Panic, c) => (Inserted Panic, mkRpcServer c reqs)
      | (OutOfFuel, c) => (Inserted OutOfFuel, mkRpcServer c reqs)
      end
  | DhtGet key recurse =>
      let '(o, c) := rpc_dht_get now g net key recurse c in (Got o, mkRpcServer c reqs)
  | AllocForward r => let '(o, c) := alloc_forward now r c in (Allocated o, mkRpcServer c reqs)
  end.

(** [GlobalRpcService::respond_raw], for a method that returns. *)
Definition rpc_respond (now : N) (g : RelayGraph) (net : replica_net) (req : JrpcRequest) (self : RpcServer)
    : JrpcResponse * RpcServer :=
  match call_of req with
  | Some call => let '(r, self) := rpc_method now g net call self in (response_of r, self)
  | None => (method_not_found, self)
  end.

(** * The client *)

(** What [gclient.dht_get(fingerprint, false).await?] is, from the result of
    [call_raw]. *)
Definition dht_get_stub (fp : Fingerprint) (o : outcome RpcError JrpcResponse) : replica_answer :=
  match o with
  | Ok resp =>
      match return_of (DhtGet fp false) resp with
      | Some (Got (Ok found)) => Some (inr found)
      | Some (Got (Err e)) => Some (inl e)
      | _ => None
      end
  | _ => None
  end.

(** * Properties *)

Context {PL : PrimitivesLaws P} {IML : IndexMapLaws IM} {HIL : HashIterLaws HI}.
Context {CL : ChanLaws C} {LL : LruLaws L} {MKL : MokaLaws MK} {BL : BincodeLaws InnerPacket}.
Context {JL : JsonRpcLaws J} {RL : GlobalRpcStubsLaws R}.

Abbreviation network := (gmap Fingerprint DaemonContext).

Lemma alloc_forward_returns now r c : returns (alloc_forward now r c).1.
Proof.
  unfold alloc_forward, mbind, M_bind, lift.
  pose proof (verify_returns (rh_identity_pk r) (registration_to_sign r) (rh_sig r)) as H.
  by destruct (verify _ _ _).
Qed.

(** The server's methods return what their types say, and keep its caches; a
    recursive lookup may still wait for its replicas. *)
Lemma rpc_method_typed now g net call self :
  rpc_wf (srv_context self) →
  let '(r, self') := rpc_method now g net call self in
  (r ≠ Got OutOfFuel → typed call r) ∧ rpc_wf (srv_context self').
Proof.
  destruct self as [c reqs]. cbn [srv_context]. intros Hwf. destruct call as [i|l recurse|key recurse|r]; cbn.
  - done.
  - pose proof (rpc_apply_ok (RInsert now g l recurse) c Hwf) as [_ Hc]. cbn in Hc.
    assert (returns (rpc_dht_insert now g l recurse c).1) as Hr.
    { unfold rpc_dht_insert. destruct recurse; [done|]. unfold mbind, M_bind, lift.
      pose proof (verify_locator_returns l). by destruct (verify_locator l). }
    by destruct (rpc_dht_insert now g l recurse c) as [[] c'].
  - pose proof (rpc_apply_ok (RGet now g net key recurse) c Hwf) as [Ha Hc]. cbn in Ha, Hc.
    destruct (rpc_dht_get now g net key recurse c) as [o c']. cbn in *. destruct Ha as [Hp _].
    split; [|done]. by destruct o.
  - pose proof (rpc_apply_ok (RRegister now r) c Hwf) as [_ Hc]. cbn in Hc.
    pose proof (alloc_forward_returns now r c). by destruct (alloc_forward now r c).
Qed.

(** Any method called over ready routes: the caller's stub gets what the method
    returned. *)
Lemma method_over_network {E} now g answers call r self self'
    fuel net a dst isk p q skt server ctx ca cd :
  fits dummy → (∀ rbs, length rbs = BATCH_SIZE → fits (IReplyBlocks rbs)) →
  rpc_wf (srv_context self) → rpc_method now g answers call self = (r, self') → r ≠ Got OutOfFuel →
  bind (E:=E) fuel isk None ctx = (Ok skt, ca) → bound_dock server = GLOBAL_RPC_DOCK →
  n2r_ready net a dst isk p q skt server (json_of_request (request_of call))
    (json_of_response (response_of r)) ca cd →
  (∀ ca1, send_batcher_round isk (bound_dock skt)
      (chan_view (send_outgoing (send_to (json_of_request (request_of call)) (local_endpoint server) skt))) ca =
      (Ok tt, ca1) →
    moka_get (clock ca) 0%N (degarblers ca1) = None) →
  ∃ answer client ctx',
    call_run (rpc_respond now g answers) a dst isk skt server (request_of call) ca net self self' answer ∧
    (∀ oc start, fits_instant start 0 →
      call_raw (E:=E) oc start fuel isk dst (request_of call) [Some (Ok answer)] ctx =
        (Ok (Some (Ok (response_of r)), 0%N, client), ctx')) ∧
    return_of call (response_of r) = Some r.
Proof.
  intros Hdummy Hblocks Hwf Hm Hback Hbind Hdock Hr Hzero.
  pose proof (rpc_method_typed now g answers call self Hwf) as Ht. rewrite Hm in Ht. destruct Ht as [Ht _].
  specialize (Ht Hback).
  destruct (call_over_network (E:=E) (rpc_respond now g answers) self fuel net a dst isk p q skt server
    (request_of call) (response_of r) self' ctx ca cd Hdummy Hblocks Hbind Hdock) as (answer & client & ctx' & H1 & H2 & _);
    [|done..|].
  - unfold rpc_respond. by rewrite call_roundtrip, Hm.
  - exists answer, client, ctx'. split_and!; [done..|]. by apply return_roundtrip.
Qed.

(** A registration its owner signed is accepted, and kept for an hour. *)
Lemma register_kept now t hsk g ask self :
  moka_unbounded HAVEN_TTL (registered_havens (srv_context self)) → (now <= t)%N → (t < now + HAVEN_TTL)%N →
  ∃ self', rpc_method now g ask (AllocForward (RegisterHavenReq_new now hsk)) self = (Allocated (Ok tt), self') ∧
    moka_contains t (fingerprint (public hsk)) (registered_havens (srv_context self')) = true.
Proof.
  destruct self as [c reqs]. cbn [srv_context]. intros Hu Hle Hlt.
  assert (verify (public hsk) (registration_to_sign (RegisterHavenReq_new now hsk))
    (rh_sig (RegisterHavenReq_new now hsk)) = Ok tt) as Hv by apply verify_sign.
  cbn [rpc_method]. unfold alloc_forward, mbind, M_bind, lift. cbn [RegisterHavenReq_new rh_identity_pk] in *.
  rewrite Hv. unfold modify. eexists. split; [done|]. cbn [srv_context registered_havens].
  unfold moka_contains. apply bool_decide_eq_true. rewrite (moka_insert_live HAVEN_TTL) by done. by eexists.
Qed.

(** The caller's socket, the server's, and ready routes between them. *)
Record can_call {E} (fuel : nat) (net : network) (a dst : Fingerprint) (isk : IdentitySecret)
    (p q : list Fingerprint) (skt server : N2rSocket) (call : RpcCall) (r : RpcReturn)
    (ctx ca cd : DaemonContext) : Prop := {
  cc_bind : bind (E:=E) fuel isk None ctx = (Ok skt, ca);
  cc_dock : bound_dock server = GLOBAL_RPC_DOCK;
  cc_ready : n2r_ready net a dst isk p q skt server (json_of_request (request_of call))
    (json_of_response (response_of r)) ca cd;
  cc_no_zero ca1 : send_batcher_round isk (bound_dock skt)
      (chan_view (send_outgoing (send_to (json_of_request (request_of call)) (local_endpoint server) skt))) ca =
      (Ok tt, ca1) → moka_get (clock ca) 0%N (degarblers ca1) = None
}.

(** A call that crossed the network, with the server before and after it and the
    response that the caller has got. *)
Definition called {E} (now : N) (g : RelayGraph) (ask : replica_net) (call : RpcCall) (self self' : RpcServer)
    (fuel : nat) (net : network) (a dst : Fingerprint) (isk : IdentitySecret) (skt server : N2rSocket)
    (ctx ca : DaemonContext) (resp : outcome RpcError JrpcResponse) : Prop :=
  ∃ answer client ctx',
    call_run (rpc_respond now g ask) a dst isk skt server (request_of call) ca net self self' answer ∧
    ∀ oc start, fits_instant start 0 →
      call_raw (E:=E) oc start fuel isk dst (request_of call) [Some (Ok answer)] ctx =
        (Ok (Some resp, 0%N, client), ctx').

Lemma method_called {E} now g ask call r self self' fuel net a dst isk p q skt server ctx ca cd :
  fits dummy → (∀ rbs, length rbs = BATCH_SIZE → fits (IReplyBlocks rbs)) →
  rpc_wf (srv_context self) → rpc_method now g ask call self = (r, self') → r ≠ Got OutOfFuel →
  can_call (E:=E) fuel net a dst isk p q skt server call r ctx ca cd →
  called (E:=E) now g ask call self self' fuel net a dst isk skt server ctx ca (Ok (response_of r)) ∧
  return_of call (response_of r) = Some r.
Proof.
  intros Hdummy Hblocks Hwf Hm Hback [Hb Hd Hr Hz].
  destruct (method_over_network (E:=E) _ _ _ _ _ _ _ _ _ _ _ _ _ _ _ _ _ _ _ Hdummy Hblocks Hwf Hm Hback Hb Hd Hr Hz)
    as (answer & client & ctx' & Hrun & Hcall & Hret).
  split; [|done]. by exists answer, client, ctx'.
Qed.

(** C15 (a haven comes up over the network): a haven's node registers with a relay [rob] and
    sends its locator to a replica [dst], by remote calls over the network;
    within ten minutes another node, with nothing cached, looks the haven up at
    [dst].  Over ready routes, and at instants that leave room for a deadline,
    all three calls cross the network and return.  For an hour the relay passes on to
    the haven what anyone sends it; and if before the answer of [dst] arrives
    no replica has answered with a locator for that fingerprint, the lookup
    returns the haven's locator, which names [rob], whatever the other replicas
    answer then. *)
Theorem haven_found_over_network {E} hsk opk now0 now t g0 g g' ask0 ask ask' relay self
    fuel0 net0 h rob isk0 p0 q0 skt0 server0 ctx0 ca0 cd0
    fuel1 net1 dst isk1 p1 q1 skt1 server1 ctx1 ca1 cd1
    fuel2 net2 a isk2 p2 q2 skt2 server2 ctx2 ca2 cd2 gc cache :
  let l := HavenLocator_new hsk opk rob in
  let key := fingerprint (public hsk) in
  let reg := AllocForward (RegisterHavenReq_new now0 hsk) in
  fits dummy → (∀ rbs, length rbs = BATCH_SIZE → fits (IReplyBlocks rbs)) →
  rpc_wf (srv_context relay) → moka_unbounded HAVEN_TTL (registered_havens (srv_context relay)) →
  rpc_wf (srv_context self) → (now <= t)%N → (t < now + 600)%N →
  can_call (E:=E) fuel0 net0 h rob isk0 p0 q0 skt0 server0 reg (Allocated (Ok tt)) ctx0 ca0 cd0 →
  can_call (E:=E) fuel1 net1 h dst isk1 p1 q1 skt1 server1 (DhtInsert l false) (Inserted (Ok tt)) ctx1 ca1 cd1 →
  can_call (E:=E) fuel2 net2 a dst isk2 p2 q2 skt2 server2 (DhtGet key false) (Got (Ok (Some l))) ctx2 ca2 cd2 →
  moka_get t key (dht_cache cache) = None →
  ∃ relay' self' registered inserted found,
    called (E:=E) now0 g0 ask0 reg relay relay' fuel0 net0 h rob isk0 skt0 server0 ctx0 ca0 registered ∧
    called (E:=E) now g ask (DhtInsert l false) self self' fuel1 net1 h dst isk1 skt1 server1 ctx1 ca1 inserted ∧
    called (E:=E) t g' ask' (DhtGet key false) self' self' fuel2 net2 a dst isk2 skt2 server2 ctx2 ca2 found ∧
    (∀ t' src dock inner seen, (now0 <= t')%N → (t' < now0 + HAVEN_TTL)%N →
      (forward t' src (Endpoint_new key dock) inner
        (mkForwardState seen (registered_havens (srv_context relay')))).1 =
      Some (stdcode (inner, src), Endpoint_new key dock)) ∧
    rendezvous_point l = rob ∧
    ∀ (answers : replica_net) before after,
      answers (take DHT_REDUNDANCY (dht_key_to_fps gc (bytes_of (Fingerprint_to_string key)))) =
        before ++ dht_get_stub key found :: after →
      Forall (inconclusive key) before →
      (dht_get t gc answers key cache).1 = Ok (Some l).
Proof.
  intros l key reg Hdummy Hblocks Hwfr Hu Hwf Hle Hlt H0 H1 H2 Hcache.
  assert (∃ relay', rpc_method now0 g0 ask0 reg relay = (Allocated (Ok tt), relay')) as [relay' Hm0].
  { destruct (register_kept now0 now0 hsk g0 ask0 relay Hu) as (relay' & Hm & _); [lia|unfold HAVEN_TTL; lia|].
    by exists relay'. }
  destruct self as [c reqs].
  destruct (insert_get_local c g hsk opk rob now t g' ask' Hwf Hle Hlt) as (c' & Hins & Hget).
  fold l in Hins, Hget. fold key in Hget.
  assert (rpc_method now g ask (DhtInsert l false) (mkRpcServer c reqs) =
    (Inserted (Ok tt), mkRpcServer c' reqs)) as Hm1 by (cbn [rpc_method]; by rewrite Hins, app_nil_r).
  assert (rpc_method t g' ask' (DhtGet key false) (mkRpcServer c' reqs) =
    (Got (Ok (Some l)), mkRpcServer c' reqs)) as Hm2 by (cbn [rpc_method]; by rewrite Hget).
  pose proof (rpc_method_typed now g ask (DhtInsert l false) _ Hwf) as Hwf'.
  rewrite Hm1 in Hwf'. destruct Hwf' as [_ Hwf'].
  destruct (method_called (E:=E) _ _ _ _ _ _ _ _ _ _ _ _ _ _ _ _ _ _ _ Hdummy Hblocks Hwfr Hm0 ltac:(done) H0) as [Hc0 _].
  destruct (method_called (E:=E) _ _ _ _ _ _ _ _ _ _ _ _ _ _ _ _ _ _ _ Hdummy Hblocks Hwf Hm1 ltac:(done) H1) as [Hc1 _].
  destruct (method_called (E:=E) _ _ _ _ _ _ _ _ _ _ _ _ _ _ _ _ _ _ _ Hdummy Hblocks Hwf' Hm2 ltac:(done) H2) as [Hc2 Hret].
  exists relay', (mkRpcServer c' reqs). do 3 eexists. split_and!; [exact Hc0|exact Hc1|exact Hc2| |done|].
  - intros t' src dock inner seen Hle' Hlt'.
    destruct (register_kept now0 t' hsk g0 ask0 relay Hu Hle' Hlt') as (relay2 & Hm & Hin).
    fold reg in Hm. fold key in Hin. rewrite Hm0 in Hm. injection Hm as <-. rewrite forward_spec. cbn [havens ep_fingerprint].
    by rewrite Hin.
  - intros answers before after Hans Hbefore.
    assert (dht_get_stub key (Ok (response_of (Got (Ok (Some l))))) = Some (inr (Some l))) as Hstub
      by (unfold dht_get_stub; by rewrite Hret).
    unfold dht_get, mbind, M_bind, get_state. rewrite Hcache, Hans, Hstub.
    apply gather_inconclusive; [done|]. split; [done|apply verify_locator_new].
Qed.

End DhtNet.

(** * Witness *)

(** JSON as two letters for each byte of an encoding. *)
Definition nibble (n : N) : byte := byte_of_N (97 + n).
Definition text_of (l : list byte) : list byte :=
  l ≫= λ b, [nibble (Byte.to_N b / 16); nibble (Byte.to_N b mod 16)].
Fixpoint of_text (l : list byte) : list byte :=
  match l with
  | a :: b :: l => byte_of_N ((Byte.to_N a - 97) * 16 + (Byte.to_N b - 97)) :: of_text l
  | _ => []
  end.

Lemma of_text_of l : of_text (text_of l) = l.
Proof.
  induction l as [|b l IH]; [done|]. unfold text_of in *. cbn [mbind list_bind app of_text].
  f_equal; [by destruct b|exact IH].
Qed.

Lemma text_ascii l : Forall (λ b, in_range 0 127 b = true) (text_of l).
Proof.
  induction l as [|b l IH]; [constructor|]. unfold text_of in *. cbn [mbind list_bind app].
  constructor; [by destruct b|]. constructor; [by destruct b|exact IH].
Qed.

Lemma text_utf8 l : from_utf8 (text_of l) = Some (text_of l).
Proof. apply ascii_from_utf8, text_ascii. Qed.

Definition put_call (c : RpcCall) : list byte :=
  match c with
  | Ping i => x00 :: wput i
  | DhtInsert l r => x01 :: wput (l, r)
  | DhtGet k r => x02 :: wput (k, r)
  | AllocForward r => x03 :: wput r
  end.
Definition get_call (l : list byte) : option (RpcCall * list byte) :=
  match l with
  | x00 :: l => prod_map Ping id <$> wget (A:=N) l
  | x01 :: l => prod_map (λ p, DhtInsert p.1 p.2) id <$> wget (A:=HavenLocator * bool) l
  | x02 :: l => prod_map (λ p, DhtGet p.1 p.2) id <$> wget (A:=Fingerprint * bool) l
  | x03 :: l => prod_map AllocForward id <$> wget (A:=RegisterHavenReq) l
  | _ => None
  end.
Lemma get_put_call c rest : get_call (put_call c ++ rest) = Some (c, rest).
Proof. destruct c; cbn [put_call get_call app]; by rewrite wget_wput. Qed.

#[export] Instance wire_RpcCall : Wire RpcCall :=
  {| wput := put_call; wget := get_call; wget_wput := get_put_call |}.

Definition wire_json {A} `{!Wire A} (l : list byte) : option A :=
  fst <$> (wget (of_text l)).

Lemma wire_json_of {A} `{!Wire A} (a : A) : wire_json (text_of (wput a)) = Some a.
Proof.
  unfold wire_json. rewrite of_text_of. pose proof (wget_wput a []) as H. rewrite app_nil_r in H. by rewrite H.
Qed.

(** A response is a code and what was found. *)
Definition rpc_json : JsonRpc := {|
  JrpcRequest := RpcCall;
  JrpcResponse := N * option HavenLocator;
  json_of_request := λ c, text_of (wput c);
  json_to_request := wire_json;
  json_of_response := λ r, text_of (wput r);
  json_to_response := wire_json
|}.

Lemma rpc_json_laws : JsonRpcLaws rpc_json.
Proof.
  split; intros r; [apply text_utf8|exact (wire_json_of (A:=RpcCall) r)|apply text_utf8|
    exact (wire_json_of (A:=N * option HavenLocator) r)].
Qed.

Definition dht_code {A} (r : outcome DhtError A) : N :=
  match r with Ok _ => 0 | Err DhtVerifyFailed => 1 | Err DhtNetworkFailure => 2 | _ => 3 end.
Definition of_dht_code {A} (n : N) (a : A) : outcome DhtError A :=
  if (n =? 0)%N then Ok a else if (n =? 1)%N then Err DhtVerifyFailed else Err DhtNetworkFailure.

Definition rpc_response (r : RpcReturn) : N * option HavenLocator :=
  match r with
  | Pinged i => (i, None)
  | Inserted r => (dht_code r, None)
  | Got r => (dht_code r, match r with Ok o => o | _ => None end)
  | Allocated r => (match r with Ok _ => 0 | Err SignatureCorrupt => 1 | _ => 2 end, None)
  end%N.
Definition rpc_return (c : RpcCall) (r : N * option HavenLocator) : RpcReturn :=
  let '(n, o) := r in
  match c with
  | Ping _ => Pinged n
  | DhtInsert _ _ => Inserted (of_dht_code n tt)
  | DhtGet _ _ => Got (of_dht_code n o)
  | AllocForward _ => Allocated (if (n =? 0)%N then Ok tt
                        else if (n =? 1)%N then Err SignatureCorrupt else Err SignatureMismatch)
  end.

Definition rpc_stubs : GlobalRpcStubs rpc_json :=
  Build_GlobalRpcStubs rpc_json (λ c, c) Some rpc_response (99%N, None) (λ c r, Some (rpc_return c r)).

Lemma rpc_stubs_laws : GlobalRpcStubsLaws rpc_stubs.
Proof.
  split; [done|]. intros [] [|[[]|[]| |]|[o|[]| |]|[[]|[]| |]]; cbn; done.
Qed.

(** The first node registers, publishes and then looks up at the third, whose
    server has started. *)
Definition dn_server : RpcServer := mkRpcServer rpc_new [].
Definition dn_locator : HavenLocator := HavenLocator_new (P:=toy) (node_isk x05) (zeros 32) fp3.
Definition dn_register : RpcCall := AllocForward (RegisterHavenReq_new (P:=toy) 10 (node_isk x05)).
Definition dn_insert : RpcCall := DhtInsert dn_locator false.
Definition dn_get : RpcCall := DhtGet (node_fp x05) false.

Definition dn_request (c : RpcCall) : list byte :=
  json_of_request (JsonRpc:=rpc_json) (request_of (GlobalRpcStubs:=rpc_stubs) c).
Definition dn_response (r : RpcReturn) : list byte :=
  json_of_response (JsonRpc:=rpc_json) (response_of (GlobalRpcStubs:=rpc_stubs) r).
Definition dn_round (c : RpcCall) : outcome SendMessageError unit * DaemonContext (P:=toy) :=
  send_batcher_round (node_isk x09) (bound_dock rn_skt) [(dn_request c, local_endpoint rn_server)] rn_ctx1.

Lemma dn_no_zero :
  moka_get (clock rn_ctx1) 0%N (degarblers (dn_round dn_register).2) = None ∧
  moka_get (clock rn_ctx1) 0%N (degarblers (dn_round dn_insert).2) = None ∧
  moka_get (clock rn_ctx1) 0%N (degarblers (dn_round dn_get).2) = None.
Proof. split_and!; apply option_none; vm_compute; reflexivity. Qed.

Lemma dn_ready m1 m2 :
  small m1 → small m2 →
  fits (IMessage (mkMessage (bound_dock rn_skt) (bound_dock rn_server) [m1])) →
  fits (IMessage (mkMessage (bound_dock rn_server) (bound_dock rn_skt) [m2])) →
  n2r_ready (P:=toy) (sample_with rn_ctx1 rn_ctx3) fp1 fp3 (node_isk x09) sample_path back_path rn_skt rn_server
    m1 m2 rn_ctx1 rn_ctx3.
Proof. exact (bound_ready _ _ _ _ _ _ m1 m2 rn_bound1 rn_bound3). Qed.

Lemma dn_can_call call r :
  moka_get (clock rn_ctx1) 0%N (degarblers (dn_round call).2) = None →
  small (dn_request call) → small (dn_response r) →
  fits (IMessage (mkMessage (bound_dock rn_skt) (bound_dock rn_server) [dn_request call])) →
  fits (IMessage (mkMessage (bound_dock rn_server) (bound_dock rn_skt) [dn_response r])) →
  can_call (P:=toy) (J:=rpc_json) (R:=rpc_stubs) (E:=Empty_set) 1 (sample_with rn_ctx1 rn_ctx3) fp1 fp3 (node_isk x09)
    sample_path back_path rn_skt rn_server call r rt_base rn_ctx1 rn_ctx3.
Proof.
  intros Hz H1 H2 H3 H4. split.
  - exact rn_bound1.
  - reflexivity.
  - exact (dn_ready _ _ H1 H2 H3 H4).
  - intros ca1 Hsend. apply (f_equal snd) in Hsend. cbn [snd] in Hsend. rewrite <-Hsend. exact Hz.
Qed.

Lemma dn_can_register :
  can_call (P:=toy) (J:=rpc_json) (R:=rpc_stubs) (E:=Empty_set) 1 (sample_with rn_ctx1 rn_ctx3) fp1 fp3 (node_isk x09)
    sample_path back_path rn_skt rn_server dn_register (Allocated (Ok tt)) rt_base rn_ctx1 rn_ctx3.
Proof. apply dn_can_call; [exact (proj1 dn_no_zero)|vm_compute; discriminate..]. Qed.

Lemma dn_can_insert :
  can_call (P:=toy) (J:=rpc_json) (R:=rpc_stubs) (E:=Empty_set) 1 (sample_with rn_ctx1 rn_ctx3) fp1 fp3 (node_isk x09)
    sample_path back_path rn_skt rn_server dn_insert (Inserted (Ok tt)) rt_base rn_ctx1 rn_ctx3.
Proof. apply dn_can_call; [exact (proj1 (proj2 dn_no_zero))|vm_compute; discriminate..]. Qed.

Lemma dn_can_get :
  can_call (P:=toy) (J:=rpc_json) (R:=rpc_stubs) (E:=Empty_set) 1 (sample_with rn_ctx1 rn_ctx3) fp1 fp3 (node_isk x09)
    sample_path back_path rn_skt rn_server dn_get (Got (Ok (Some dn_locator))) rt_base rn_ctx1 rn_ctx3.
Proof. apply dn_can_call; [exact (proj2 (proj2 dn_no_zero))|vm_compute; discriminate..]. Qed.

(** The answer arrives after another replica's call has failed. *)
Lemma haven_found_over_network_witness :
  ∃ relay' found client2 ctx2' resp,
    (∀ inner, (forward (SF:=wire_stdcode) 3000 client_ep (Endpoint_new (node_fp x05) 80%N) inner
        (mkForwardState seen_new (registered_havens (srv_context relay')))).1 =
      Some (stdcode (inner, client_ep), Endpoint_new (node_fp x05) 80%N)) ∧
    call_raw (P:=toy) (J:=rpc_json) (E:=Empty_set) true 1000 1 (node_isk x09) fp3 dn_get [Some (Ok found)] rt_base =
      (Ok (Some resp, 0%N, client2), ctx2') ∧
    (dht_get (P:=toy) 600 relays_12
       (λ _, [None; dht_get_stub (J:=rpc_json) (R:=rpc_stubs) (node_fp x05) resp])
       (node_fp x05) rpc_new).1 = Ok (Some dn_locator).
Proof.
  destruct (haven_found_over_network (P:=toy) (J:=rpc_json) (R:=rpc_stubs) (JL:=rpc_json_laws) (RL:=rpc_stubs_laws)
    (SF:=wire_stdcode) (E:=Empty_set) (node_isk x05) (zeros 32) 10 10 600 graph_new graph_new graph_new
    (λ _, []) (λ _, []) (λ _, []) dn_server dn_server
    1 (sample_with rn_ctx1 rn_ctx3) fp1 fp3 (node_isk x09) sample_path back_path rn_skt rn_server rt_base rn_ctx1 rn_ctx3
    1 (sample_with rn_ctx1 rn_ctx3) fp3 (node_isk x09) sample_path back_path rn_skt rn_server rt_base rn_ctx1 rn_ctx3
    1 (sample_with rn_ctx1 rn_ctx3) fp1 (node_isk x09) sample_path back_path rn_skt rn_server rt_base rn_ctx1 rn_ctx3
    relays_12 rpc_new)
    as (relay' & self' & registered & inserted & resp & _ & _ & (found & client2 & ctx2' & _ & Hcall) & Hfwd & _ & Hfind).
  - vm_compute. discriminate.
  - exact ten_blocks_fit.
  - exact rpc_new_wf.
  - reflexivity.
  - exact rpc_new_wf.
  - discriminate.
  - reflexivity.
  - exact dn_can_register.
  - exact dn_can_insert.
  - exact dn_can_get.
  - reflexivity.
  - exists relay', found, client2, ctx2', resp. split; [|split; [exact (Hcall true 1000%N eq_refl)|]].
    + intros inner. apply (Hfwd 3000%N client_ep 80%N inner seen_new); [discriminate|reflexivity].
    + apply (Hfind _ [None] []); [reflexivity|]. constructor; [discriminate|constructor].
Defined.
