(* ===== verification/Commands.v ===== *)
(** The command line and the rest of the control protocol: [src/commands.rs],
    [main_control] of [src/control_protocol.rs], and the calls [my_routes] and
    [send_global_rpc] of [src/daemon/control_protocol_impl.rs].

    The trait [ControlProtocol] is a class: the daemon's side is an instance
    built from [Control.v], and [main_control] uses whatever instance its
    transport gives it.  How values are shown by serde and by derived [Debug]
    implementations, and the keys of the obfuscated UDP pipes, are parameters. *)

From Stdlib Require Import String Ascii.
From stdpp Require Import strings.
From S2P Require Import Prelude Interfaces Crypto Packet OnionRouting Topology ShortestPath.
From S2P Require Import ReplyStore NeighTable Directory Daemon Socket Dht Rendezvous.
From S2P Require Import CryptSession HavenSocket Text Proxy Config NetAddr Control GraphDump Link Startup GlobalRpc Instances.
Close Scope string_scope.

(** * Hexadecimal *)

Definition hex_digit (n : N) : ascii :=
  if (n <? 10)%N then ascii_of_N (48 + n) else ascii_of_N (87 + n).

Definition hex_value (c : ascii) : option N :=
  let n := N_of_ascii c in
  if (48 <=? n)%N && (n <=? 57)%N then Some (n - 48)%N
  else if (97 <=? n)%N && (n <=? 102)%N then Some (n - 87)%N
  else if (65 <=? n)%N && (n <=? 70)%N then Some (n - 55)%N
  else None.

(** [hex::encode] and [hex::decode]. *)
Fixpoint hex_encode (l : list byte) : string :=
  match l with
  | [] => EmptyString
  | b :: l => String (hex_digit (to_N b / 16)) (String (hex_digit (to_N b mod 16)) (hex_encode l))
  end.

Fixpoint hex_decode (s : string) : option (list byte) :=
  match s with
  | EmptyString => Some []
  | String a (String b s) =>
      x ← hex_value a; y ← hex_value b; l ← hex_decode s; Some (byte_of_N (16 * x + y) :: l)
  | String _ EmptyString => None
  end.

(** How values are shown. *)
Class Shows : Type := {
  Json : Type;
  show_bytes : list byte → string;
  show_locator : HavenLocator → string;
  show_prot_err : ControlProtErr → string;
  show_json : Json → string;
  from_yaml : string → option Json
}.

(** * The commands *)

Inductive ControlCommands {P : Primitives} :=
  | BindN2r (skt_id : string) (anon_id : option string) (dock : option Dock)
  | BindHaven (skt_id : string) (anon_id : option string) (dock : option Dock)
      (rendezvous : option Fingerprint)
  | SktInfo (skt_id : string)
  | HavensInfo
  | SendMsg (skt_id : string) (dest : Endpoint) (msg : string)
  | RecvMsg (skt_id : string)
  | GlobalRpc (id : option string) (dest : Fingerprint) (method : string) (args : list string)
  | InsertRendezvous (identity_sk onion_pk : string) (rendezvous_fingerprint : Fingerprint)
  | GetRendezvous (key : Fingerprint)
  | RendezvousHavenTest
  | GraphDump (human : bool)
  | MyRoutes.

Record SendMessageArgs := mkSendMessageArgs {
  sm_socket_id : string; sm_destination : Endpoint; sm_content : list byte
}.

Record GlobalRpcArgs {S : Shows} := mkGlobalRpcArgs {
  gr_id : option string; gr_destination : Fingerprint; gr_method : string; gr_args : list Json
}.

Inductive GlobalRpcError := GlobalSendError.

(** A line of [my_routes]. *)
Record RouteInfo := mkRouteInfo { ri_fingerprint : string; ri_connect : string; ri_cookie : string }.

(** The transport of a call can fail. *)
Inductive TransportError := TransportFailed.

(** The trait [ControlProtocol]: what a method returns is a value or its own
    error; [recv_message] returns [None] while it blocks. *)
Class ControlProtocol {P : Primitives} {Sh : Shows} (S : Type) : Type := {
  call_bind_n2r : string → option string → option Dock → M S TransportError unit;
  call_bind_haven : string → option string → option Dock → option Fingerprint →
    M S TransportError unit;
  call_skt_info : string → M S TransportError (outcome ControlProtErr Endpoint);
  call_havens_info : M S TransportError (list (string * string));
  call_send_message : SendMessageArgs → M S TransportError (outcome ControlProtErr unit);
  call_recv_message : string →
    M S TransportError (outcome ControlProtErr (option (list byte * Endpoint)));
  call_send_global_rpc : GlobalRpcArgs → M S TransportError (outcome GlobalRpcError Json);
  call_graph_dump : bool → M S TransportError string;
  call_my_routes : M S TransportError (list (list byte * RouteInfo));
  call_insert_rendezvous : HavenLocator → M S TransportError (outcome DhtError unit);
  call_get_rendezvous : Fingerprint → M S TransportError (outcome DhtError (option HavenLocator))
}.

(** What ends the command with a failure status. *)
Inductive CommandError :=
  | TransportErr
  | ProtErr (e : ControlProtErr)
  | DhtErr (e : DhtError)
  | GlobalErr (e : GlobalRpcError)
  | NotYaml
  | BadKey (e : base64_error).

Section MainControl.
  Context {P : Primitives} {Sh : Shows} {S : Type} {CP : ControlProtocol S}.
  Context (show_routes : list (list byte * RouteInfo) → string).
  Context {SL : Stdcode HavenLocator}.

(** [client.method(..).await?]; the second [?] of a fallible method. *)
Definition call {A} (m : M S TransportError A) : M (S * rng) CommandError A :=
  zoom fst (λ s p, (s, p.2)) (λ s, let '(o, s) := m s in (map_err (λ _, TransportErr) o, s)).
Definition question {E A} (f : E → CommandError) (o : outcome E A) : M (S * rng) CommandError A :=
  lift (map_err f o).

Definition client_rng {A} (m : Rand CommandError A) : M (S * rng) CommandError A :=
  zoom snd (λ r p, (p.1, r)) m.

(** The locator that [RendezvousHavenTest] makes up. *)
Definition test_locator : Rand CommandError (HavenLocator * IdentityPublic) :=
  fingerprint_bytes ← sample (fill_bytes 20);
  id_sk ← IdentitySecret_generate;
  osk ← OnionSecret_generate;
  mret (HavenLocator_new id_sk (OnionSecret_public osk) fingerprint_bytes, public id_sk).

(** [main_control]: the lines it prints, or [None] while it blocks. *)
Definition main_control (control_command : ControlCommands)
    : M (S * rng) CommandError (option (list string)) :=
  match control_command with
  | BindN2r skt_id anon_id dock =>
      _ ← call (call_bind_n2r skt_id anon_id dock); mret (Some [])
  | BindHaven skt_id anon_id dock rendezvous =>
      _ ← call (call_bind_haven skt_id anon_id dock rendezvous); mret (Some [])
  | SktInfo skt_id =>
      r ← call (call_skt_info skt_id);
      skt_info ← question ProtErr r;
      mret (Some [Endpoint_to_string skt_info])
  | SendMsg socket_id destination message =>
      r ← call (call_send_message (mkSendMessageArgs socket_id destination (bytes_of message)));
      _ ← question ProtErr r;
      mret (Some [])
  | RecvMsg socket_id =>
      r ← call (call_recv_message socket_id);
      match r with
      | Ok None => mret None
      | Ok (Some (msg, src)) =>
          mret (Some [(show_bytes msg ++ " from " ++ Endpoint_to_string src)%string])
      | Err e => mret (Some [("error receiving message: " ++ show_prot_err e)%string])
      | o => _ ← question ProtErr o; mret None
      end
  | GlobalRpc id destination method args =>
      args ← lift (ok_or NotYaml (mapM from_yaml args));
      r ← call (call_send_global_rpc (mkGlobalRpcArgs _ id destination method args));
      res ← question GlobalErr r;
      mret (Some [show_json res])
  | InsertRendezvous identity_sk onion_pk rendezvous_fingerprint =>
      isk ← question BadKey (IdentitySecret_from_str identity_sk);
      opk ← question BadKey (OnionPublic_from_str onion_pk);
      r ← call (call_insert_rendezvous (HavenLocator_new isk opk rendezvous_fingerprint));
      _ ← question DhtErr r;
      mret (Some [])
  | GetRendezvous key =>
      r ← call (call_get_rendezvous key);
      locator ← question DhtErr r;
      mret (Some [match locator with
                  | Some locator => show_locator locator
                  | None => ("No haven locator found for fingerprint " ++ Fingerprint_to_string key)%string
                  end])
  | RendezvousHavenTest =>
      '(locator, id_pk) ← client_rng test_locator;
      r ← call (call_insert_rendezvous locator);
      _ ← question DhtErr r;
      r ← call (call_get_rendezvous (fingerprint id_pk));
      fetched ← question DhtErr r;
      let created := ["created haven locator: " ++ show_locator locator;
                      "inserted haven locator... sleeping for 5s"]%string in
      match fetched with
      | Some fetched_locator =>
          if decide (rendezvous_point locator = rendezvous_point fetched_locator) then
            mret (Some (created ++ ["got haven locator: " ++ show_locator fetched_locator]%string))
          else lift Panic
      | None => mret (Some (created ++ ["oh no couldn't find locator"%string]))
      end
  | GraphDump human =>
      res ← call (call_graph_dump human); mret (Some [res])
  | MyRoutes =>
      routes ← call call_my_routes; mret (Some [show_routes routes])
  | HavensInfo =>
      infos ← call call_havens_info;
      mret (Some ((λ info, (info.1 ++ " - " ++ info.2)%string) <$> infos))
  end.

End MainControl.

(** * The program: [src/main.rs] *)

Inductive Commands {P : Primitives} :=
  | DaemonCommand (config : list byte)
  | ControlCommand (control_command : ControlCommands)
  | GenerateSeed.

Inductive MainError := CannotReadConfig | ConfigSyntax | SeedError | ControlFailed (e : CommandError).

(** [str::replace] of one character. *)
Fixpoint replace_char (a b : ascii) (s : string) : string :=
  match s with
  | EmptyString => EmptyString
  | String c s => String (if (c =? a)%char then b else c) (replace_char a b s)
  end.

Section Main.
  Context {P : Primitives} {Sh : Shows} {S : Type} {CP : ControlProtocol S} {SL : Stdcode HavenLocator}.
  Context (parse_config : list byte → option ConfigFile) (mnemonic : array 16 → option string).
  Context (show_routes : list (list byte * RouteInfo) → string).

(** [gen_seed]: the words of a mnemonic, joined by dashes. *)
Definition gen_seed : Rand MainError string :=
  entropy ← sample (fill_bytes 16);
  words ← lift (ok_or SeedError (mnemonic entropy));
  mret (replace_char " " "-" words).

(** What the process goes on with: the daemon's configuration, or the lines of a
    command that is over ([None] while it blocks). *)
Inductive MainOutcome := RunsDaemon (config : ConfigFile) | Printed (lines : option (list string)).

Definition earendil_main (can_read : list byte → bool) (d : Disk) (command : Commands)
    : M (S * rng) MainError MainOutcome :=
  match command with
  | DaemonCommand config =>
      bytes ← lift (ok_or CannotReadConfig (fs_read can_read config d));
      config_parsed ← lift (ok_or ConfigSyntax (parse_config bytes));
      mret (RunsDaemon config_parsed)
  | ControlCommand control_command =>
      lines ← map_err_m ControlFailed (main_control show_routes control_command);
      mret (Printed lines)
  | GenerateSeed =>
      seed_phrase ← zoom snd (λ r p, (p.1, r)) gen_seed;
      mret (Printed (Some [seed_phrase]))
  end.

End Main.

(** * The daemon's side *)

(** nanorpc: the request of a method call, and what a response says: [None] when
    there is no such method, else a value or a server error. *)
Class NanoRpc {J : JsonRpc} {Sh : Shows} : Type := {
  rpc_request : string → list Json → JrpcRequest;
  rpc_value : JrpcResponse → option (option Json)
}.

Section Server.
  Context {P : Primitives} {IM : IndexMap} {HI : HashIter} {C : Chan} {L : Lru} {MK : Moka}.
  Context {RF : ReplayFilter} {Sh : Shows} {OU : ObfsUdp} {J : JsonRpc} {NR : NanoRpc}.
  Context {SA : Stdcode AdjacencyDescriptor} {SI : Stdcode IdentityDescriptor}.
  Context {B : Bincode InnerPacket} {SL : Stdcode HavenLocator}.
  Context {SK : Stdcode (list byte * Fingerprint)} {SF : Stdcode (list byte * Endpoint)}.
  Context {SH : Stdcode Handshake} {SM : Stdcode HavenMsg}.

(** The cookie that [my_routes] shows for an in-route. *)
Definition route_cookie (secret : list byte) : array 32 := obfs_public (blake3_hash secret).

Definition my_routes (config : ConfigFile) (ctx : DaemonContext) : list (list byte * RouteInfo) :=
  (λ '(name, route), match route with
     InObfsudp listen secret =>
       (name, mkRouteInfo (Fingerprint_to_string (my_fingerprint ctx))
                ("<YOUR_IP>:" ++ u32_to_string (port listen))
                (hex_encode (route_cookie secret)))
     end) <$> in_routes config.

(** [send_global_rpc]: [None] while the call waits for an answer. *)
Definition send_global_rpc {E} (oc : bool) (fuel : nat) (arrivals : list arrival) (send_args : GlobalRpcArgs)
    : M DaemonContext E (option (outcome GlobalRpcError Json)) :=
  isk ← with_rng IdentitySecret_generate;
  ctx ← get_state;
  '(res, _, _) ← call_raw oc (clock ctx) fuel isk (gr_destination send_args)
                   (rpc_request (gr_method send_args) (gr_args send_args)) arrivals;
  mret (res ← res;
        Some match res with
             | Ok resp => match rpc_value resp with
                          | Some (Some v) => Ok v
                          | _ => Err GlobalSendError
                          end
             | _ => Err GlobalSendError
             end).

(** The daemon's state behind the protocol, with the requests it has sent to the
    directory. *)
Record ControlServer := mkControlServer {
  cs_control : ControlProtocolImpl;
  cs_config : ConfigFile;
  cs_disk : Disk;
  cs_published : list (Fingerprint * HavenLocator)
}.

Definition on_control {E A} (m : M ControlProtocolImpl E A) : M ControlServer E A :=
  zoom cs_control (λ c s, mkControlServer c (cs_config s) (cs_disk s) (cs_published s)) m.
Definition on_disk {E A} (m : M Disk E A) : M ControlServer E A :=
  zoom cs_disk (λ d s, mkControlServer (cs_control s) (cs_config s) d (cs_published s)) m.

(** The error of a method is a value of its response. *)
Definition respond {S E F A} (m : M S E A) : M S F (outcome E A) := λ s,
  match m s with
  | (Ok a, s) => (Ok (Ok a), s)
  | (Err e, s) => (Ok (Err e), s)
  | (Panic, s) => (Panic, s)
  | (OutOfFuel, s) => (OutOfFuel, s)
  end.

Definition control_ctx (s : ControlServer) : DaemonContext := (control_world (cs_control s)).1.

(** [ControlService(ControlProtocolImpl)] behind a transport that works. *)
Definition control_service (oc : bool) (can_read can_write : list byte → bool) (fuel : nat) (net : replica_net)
    (in_time : bool) (arrivals : list arrival) : ControlProtocol ControlServer := {|
  call_bind_n2r id anon dock := on_control (bind_n2r fuel id anon dock);
  call_bind_haven id anon dock rv := on_control (bind_haven fuel id anon dock rv);
  call_skt_info id := λ s, (Ok (skt_info id (cs_control s)), s);
  call_havens_info := s ← get_state;
                      on_disk (havens_info can_read can_write fuel (havens (cs_config s)));
  call_send_message args :=
    respond (on_control (send_message (sm_socket_id args) (sm_destination args) (sm_content args)));
  call_recv_message id := respond (on_control (recv_message fuel id));
  call_send_global_rpc args :=
    o ← on_control (on_world (zoom fst (λ ctx w, (ctx, w.2)) (send_global_rpc oc fuel arrivals args)));
    match o with Some r => mret r | None => lift OutOfFuel end;
  call_graph_dump human := s ← get_state; lift (graph_dump (cs_config s) human (control_ctx s));
  call_my_routes := λ s, (Ok (my_routes (cs_config s) (control_ctx s)), s);
  call_insert_rendezvous locator :=
    _ ← modify (λ s, mkControlServer (cs_control s) (cs_config s) (cs_disk s)
                       (cs_published s ++ insert_rendezvous locator (cs_control s)));
    mret (Ok tt);
  call_get_rendezvous fp := respond (on_control (get_rendezvous net in_time fp))
|}.

(** * Properties *)

Context {PL : PrimitivesLaws P} {IML : IndexMapLaws IM} {MKL : MokaLaws MK} {HIL : HashIterLaws HI}.

Lemma hex_value_digit n : (n < 16)%N → hex_value (hex_digit n) = Some n.
Proof.
  intros Hn. assert (n ∈ (N.of_nat <$> seq 0 16)) as Hin.
  { apply list_elem_of_fmap. exists (N.to_nat n). rewrite elem_of_seq. lia. }
  repeat (apply elem_of_cons in Hin as [->|Hin]; [reflexivity|]). by apply elem_of_nil in Hin.
Qed.

Lemma hex_roundtrip l : hex_decode (hex_encode l) = Some l.
Proof.
  induction l as [|b l IH]; [done|]. cbn -[N.mul N.add N.div N.modulo].
  pose proof (to_N_bounded b) as Hb.
  rewrite !hex_value_digit, IH by (apply N.mod_upper_bound || apply N.Div0.div_lt_upper_bound; lia).
  cbn -[N.mul N.add N.div N.modulo]. rewrite <-N.div_mod by lia. by rewrite byte_of_N_to_N.
Qed.

(** What serde reads of an out-route's block: its [protocol] selects the variant;
    a fingerprint, a socket address and 32 bytes of hex. *)
Definition read_out_route (protocol : option string) (info : RouteInfo) : option OutRouteConfig :=
  if bool_decide (protocol = Some "obfsudp"%string) then
    match Fingerprint_from_str (ri_fingerprint info) with
    | Ok fp =>
        connect ← SocketAddr_from_str (ri_connect info);
        l ← hex_decode (ri_cookie info);
        cookie ← try_into 32 l;
        Some (OutObfsudp fp connect cookie)
    | _ => None
    end
  else None.

(** What the text asks the reader to do: an address in place of its first word. *)
Fixpoint strip_prefix (pre s : string) : option string :=
  match pre, s with
  | EmptyString, _ => Some s
  | String a pre, String b s => if (a =? b)%char then strip_prefix pre s else None
  | _, _ => None
  end.

Definition put_ip (ip : string) (info : RouteInfo) : RouteInfo :=
  mkRouteInfo (ri_fingerprint info)
    (match strip_prefix "<YOUR_IP>" (ri_connect info) with
     | Some rest => ip ++ rest
     | None => ri_connect info
     end) (ri_cookie info).

Lemma your_ip_refused s : SocketAddr_from_str ("<YOUR_IP>:" ++ s) = None.
Proof. done. Qed.

Lemma strip_your_ip s : strip_prefix "<YOUR_IP>" ("<YOUR_IP>:" ++ s) = Some (":" ++ s)%string.
Proof. done. Qed.

Lemma in_route_loop_app key evs evs' s :
  existsb in_accept_fails evs = false →
  in_route_loop key (evs ++ evs') s = in_route_loop key evs' (in_route_loop key evs s).2.
Proof.
  revert s. induction evs as [|[pipe cookie|now pipe resp pk|] evs IH]; intros s Hf; try done;
    cbn [app in_route_loop in_route_step]; by rewrite IH.
Qed.

(** C34 (routes that others can use): [my_routes] shows one entry per in-route, under its
    name.  As it is shown, the entry is no block of a configuration: it lacks the
    [protocol], and with it the address is still refused.  With both put in it is
    read as a route to this node's fingerprint and port at that address; and a
    client that dials with the cookie of that route is accepted by the
    in-route, as long as its listener runs. *)
Theorem my_routes_usable {BL : Base32Laws} {OUL : ObfsUdpLaws OU} config ctx i name listen secret ip :
  in_routes config !! i = Some (name, InObfsudp listen secret) → (port listen < 65536)%N →
  ∃ info, my_routes config ctx !! i = Some (name, info) ∧
    read_out_route None info = None ∧ read_out_route (Some "obfsudp"%string) info = None ∧
    ∃ cookie,
      read_out_route (Some "obfsudp"%string) (put_ip (Ipv4Addr_to_string ip) info) =
        Some (OutObfsudp (my_fingerprint ctx) (mkSocketAddr (V4 ip) (port listen)) cookie) ∧
      ∀ evs t pipe, existsb in_accept_fails evs = false →
        pipe ∈ in_pipes (in_route_obfsudp true secret (evs ++ [PipeArrives pipe cookie]) t).2.
Proof.
  intros Hi Hport. eexists. split; [unfold my_routes; rewrite list_lookup_fmap, Hi; reflexivity|].
  split; [done|]. unfold read_out_route, put_ip. cbn [ri_fingerprint ri_cookie ri_connect].
  rewrite !bool_decide_eq_true_2 by done. rewrite fingerprint_roundtrip, hex_roundtrip.
  split; [by rewrite your_ip_refused|]. exists (route_cookie secret). rewrite strip_your_ip.
  rewrite socket_addr_read by done. cbn. rewrite try_into_bytes. split; [done|].
  intros evs t pipe Hf. unfold in_route_obfsudp. rewrite in_route_loop_app by done.
  cbn [in_route_loop in_route_step]. unfold in_route_key, route_cookie. rewrite obfs_accepts_public.
  cbn [snd in_pipes]. left.
Qed.

(** ** The test of the directory *)

Section test.
  Context (oc : bool) (can_read can_write : list byte → bool) (fuel : nat) (net : replica_net).
  Context (arrivals : list arrival) (show_routes : list (list byte * RouteInfo) → string).

Abbreviation command :=
  (main_control (CP:=control_service oc can_read can_write fuel net true arrivals) show_routes).

(** The test of the directory: [RendezvousHavenTest] against a daemon succeeds, and its
    assertion holds, whenever a relay that got the new locator is the first to
    answer with a locator under its key. *)
Theorem rendezvous_test_passes s r rp isk opk r' ops before after :
  test_locator r = (Ok (HavenLocator_new isk opk rp, public isk), r') →
  let l := HavenLocator_new isk opk rp in
  let key := fingerprint (public isk) in
  let keystr := bytes_of (Fingerprint_to_string key) in
  let now := control_clock (cs_control s) in
  let g := relay_graph (control_ctx s) in
  let replica := (rpc_dht_insert now g l false (rpc_run ops)).2 in
  no_collision g keystr →
  net (take DHT_REDUNDANCY (dht_key_to_fps g keystr)) =
    before ++ answer_of (rpc_dht_get now g net key false replica).1 :: after →
  Forall (inconclusive key) before →
  moka_get now key (dht_cache (control_world (cs_control s)).2) = None →
  ∃ s', command RendezvousHavenTest (s, r) =
    (Ok (Some ["created haven locator: " ++ show_locator l; "inserted haven locator... sleeping for 5s";
               "got haven locator: " ++ show_locator l]%string), (s', r')) ∧
    cs_published s' = cs_published s ++ dht_insert g l.
Proof.
  intros Htest l key keystr now g replica Hinj Hnet Hbefore Hcache.
  assert ((dht_get now g net key (control_world (cs_control s)).2).1 = Ok (Some l)) as Hget.
  { destruct (publish_then_lookup g g isk opk rp now now net (control_world (cs_control s)).2)
      as [_ H]; [lia|lia|done..|]. by apply (H ops [] g g net before after). }
  cbn [main_control]. unfold client_rng, mbind at 1, M_bind at 1, zoom at 1. cbn [snd]. rewrite Htest.
  fold l. cbn [fst snd].
  destruct (dht_get now g net key (control_world (cs_control s)).2) as [o rpc] eqn:Hd.
  cbn [fst] in Hget. subst o.
  unfold call, question, mbind, M_bind, zoom, lift, mret, M_ret. cbn [fst snd].
  cbn [control_service call_insert_rendezvous call_get_rendezvous]. unfold mbind, M_bind, modify, mret, M_ret.
  cbn [fst snd map_err]. unfold respond, on_control, get_rendezvous, on_world, zoom, mbind, M_bind, get_state, dht_get_timeout.
  cbn [cs_control fst snd]. fold key. change (clock (control_world (cs_control s)).1) with now.
  change (relay_graph (control_world (cs_control s)).1) with g. rewrite Hd. cbn [map_err].
  rewrite decide_True by done. eexists. split; reflexivity.
Qed.

End test.
End Server.

(** * Witnesses *)

#[export] Instance toy_shows : Shows := {|
  Json := string;
  show_bytes := hex_encode;
  show_locator := λ l, Fingerprint_to_string (P:=toy) (rendezvous_point l);
  show_prot_err := λ _, "error"%string;
  show_json := λ s, s;
  from_yaml := λ s, Some s
|}.

#[export] Instance toy_nanorpc : NanoRpc (J:=toy_json) := {|
  rpc_request := λ _ _, true;
  rpc_value := λ b, Some (if b then Some "pong"%string else None)
|}.

Definition cmd_config : ConfigFile :=
  mkConfigFile None (mkSocketAddr (V4 (zeros 4)) 18964)
    [([x69], InObfsudp (mkSocketAddr (V4 (zeros 4)) 19999) [x73])] [] [] [] None [].

Definition cmd_ip : array 4 := default (zeros 4) (try_into 4 [x7f; x00; x00; x01]).

Lemma my_routes_usable_witness :
  ∃ info, my_routes (P:=toy) cmd_config sock_ctx !! 0 = Some ([x69], info) ∧
    ri_connect info = "<YOUR_IP>:19999"%string ∧
    ri_connect (put_ip (Ipv4Addr_to_string cmd_ip) info) = "127.0.0.1:19999"%string ∧
    ∃ cookie, read_out_route (P:=toy) (Some "obfsudp"%string) (put_ip (Ipv4Addr_to_string cmd_ip) info) =
        Some (OutObfsudp (my_fingerprint sock_ctx) (mkSocketAddr (V4 cmd_ip) 19999) cookie) ∧
      3%N ∈ in_pipes (in_route_obfsudp (P:=toy) true [x73]
                        [PipeArrives 2 (zeros 32); PipeArrives 3 cookie] NeighTable_new).2.
Proof.
  destruct (my_routes_usable (P:=toy) cmd_config sock_ctx 0 [x69] (mkSocketAddr (V4 (zeros 4)) 19999)
    [x73] cmd_ip eq_refl eq_refl) as (info & Hi & _ & _ & cookie & Hr & Ha).
  exists info. split; [exact Hi|]. split; [|split].
  - injection Hi as <-. reflexivity.
  - injection Hi as <-. reflexivity.
  - exists cookie. split; [exact Hr|]. exact (Ha [PipeArrives 2 (zeros 32)] NeighTable_new 3%N eq_refl).
Defined.

(** A daemon that knows two relays; the client draws from the seed 7. *)
Definition cmd_server : ControlServer (P:=toy) :=
  mkControlServer (ControlProtocolImpl_new (set_relay_graph relays_12 sock_ctx, rpc_new)) cmd_config
    sample_disk [].
Definition cmd_isk : IdentitySecret :=
  (fill_bytes (Primitives:=toy) 32 (fill_bytes (Primitives:=toy) 20 7%N).2).1.
Definition cmd_rp : Fingerprint := (fill_bytes (Primitives:=toy) 20 7%N).1.
Definition cmd_osk : OnionSecret (P:=toy) * rng :=
  random_from_rng (fill_bytes (Primitives:=toy) 32 (fill_bytes (Primitives:=toy) 20 7%N).2).2.
Definition cmd_opk : OnionPublic := OnionSecret_public cmd_osk.1.
Definition cmd_locator : HavenLocator := HavenLocator_new (P:=toy) cmd_isk cmd_opk cmd_rp.
Definition cmd_key : Fingerprint := fingerprint (P:=toy) (public cmd_isk).
Definition cmd_keystr : list byte := bytes_of (Fingerprint_to_string (P:=toy) cmd_key).
Definition cmd_replicas : list Fingerprint := dht_key_to_fps (P:=toy) relays_12 cmd_keystr.
Definition cmd_replica : RpcContext :=
  (rpc_dht_insert (P:=toy) 1005 relays_12 cmd_locator false (rpc_run [])).2.
Definition cmd_net : replica_net :=
  λ _, [None; answer_of (rpc_dht_get (P:=toy) 1005 relays_12 (λ _, []) cmd_key false cmd_replica).1].

Lemma cmd_replicas_list :
  length cmd_replicas = 2 ∧
  replica_key (P:=toy) cmd_keystr (nth 0 cmd_replicas (zeros 20)) ≠
  replica_key (P:=toy) cmd_keystr (nth 1 cmd_replicas (zeros 20)).
Proof. vm_compute. split; [reflexivity|discriminate]. Qed.

Lemma rendezvous_test_passes_witness :
  ∃ s', main_control (P:=toy)
      (CP:=control_service (P:=toy) true (λ _, true) (λ _, true) 2 cmd_net true []) (λ _, EmptyString)
      RendezvousHavenTest (cmd_server, 7%N) =
    (Ok (Some ["created haven locator: " ++ show_locator cmd_locator;
               "inserted haven locator... sleeping for 5s";
               "got haven locator: " ++ show_locator cmd_locator]%string), (s', cmd_osk.2)).
Proof.
  destruct cmd_replicas_list as [Hlen Hne].
  destruct (rendezvous_test_passes (P:=toy) true (λ _, true) (λ _, true) 2 cmd_net [] (λ _, EmptyString)
    cmd_server 7%N cmd_rp cmd_isk cmd_opk cmd_osk.2 [] [None] []) as (s' & H & _).
  - reflexivity.
  - exact (two_distinct (replica_key (P:=toy) cmd_keystr) cmd_replicas (zeros 20) Hlen Hne).
  - reflexivity.
  - constructor; [discriminate|constructor].
  - reflexivity.
  - exists s'. exact H.
Defined.
