(* ===== verification/ShadowGen.v ===== *)
(** The generators of test networks: [shadow-tests/gen-topo] and
    [shadow-tests/gen-earendil-shadow].

    The first draws a random topology, the second makes a configuration file
    for every node of a topology, with the routes to its neighbors.  The word
    lists of the petname and bip39 crates are parameters. *)

From Stdlib Require Import String Ascii.
From stdpp Require Import strings.
From S2P Require Import Prelude Interfaces Crypto Packet Topology Daemon Text Proxy Config NetAddr Startup Commands Instances.
Close Scope string_scope.

(** * gen-topo *)

Section GenTopo.
  Context {R : Type} (petname : R → string * R) (choose : list string → R → nat * R).

(** [SliceRandom::choose] gives an element of a slice that is not empty. *)
Definition choose_from {E} (l : list string) : M R E string := λ r,
  match l with
  | [] => (Panic, r)
  | _ => let '(i, r) := choose l r in (unwrap (l !! (i mod length l)), r)
  end.

Fixpoint petnames {E} (n : nat) : M R E (list string) :=
  match n with
  | O => mret []
  | S n =>
      pname ← (λ r, let '(p, r) := petname r in (Ok p, r));
      rest ← petnames n;
      mret (pname :: rest)
  end.

(** The neighbors of a node: each choice removes every node of that name. *)
Fixpoint choose_neighs {E} (n : nat) (other_nodes : list string) : M R E (list string) :=
  match n with
  | O => mret []
  | S n =>
      neigh ← choose_from other_nodes;
      rest ← choose_neighs n (filter (λ x, x ≠ neigh) other_nodes);
      mret (neigh :: rest)
  end.

Fixpoint topo_edges {E} (neigh : nat) (nodes : list string) (i : nat) (todo : list string)
    : M R E (list (string * string)) :=
  match todo with
  | [] => mret []
  | node :: todo =>
      neighs ← choose_neighs neigh (take i nodes ++ drop (S i) nodes);
      rest ← topo_edges neigh nodes (S i) todo;
      mret (((λ m, (node, m)) <$> neighs) ++ rest)
  end.

(** [main]: the printed adjacencies. *)
Definition gen_topo {E} (number neigh : nat) : M R E (list (string * string)) :=
  if decide (number ≤ neigh) then lift Panic
  else
    nodes ← petnames number;
    topo_edges neigh nodes 0 nodes.

(** The neighbors are distinct nodes other than the node itself. *)
Lemma choose_neighs_ok {E} n others r :
  NoDup others → n ≤ length others →
  ∃ l r', choose_neighs (E:=E) n others r = (Ok l, r') ∧ length l = n ∧ NoDup l ∧ l ⊆ others.
Proof.
  revert others r. induction n as [|n IH]; intros others r Hnd Hlen.
  { exists [], r. split_and!; [done|done|constructor|set_solver]. }
  cbn [choose_neighs]. unfold mbind at 1, M_bind at 1, choose_from.
  destruct others as [|o others]; [cbn in Hlen; lia|]. set (l := o :: others) in *.
  destruct (choose l r) as [i r1].
  destruct (lookup_lt_is_Some_2 l (i mod length l)) as [x Hx].
  { apply Nat.mod_upper_bound. done. }
  rewrite Hx. cbn [unwrap]. pose proof (list_elem_of_lookup_2 _ _ _ Hx) as Hin.
  assert (length (filter (λ y, y ≠ x) l) = pred (length l)) as Hfl.
  { clear -Hin Hnd. induction l as [|y l IHl]; [by apply elem_of_nil in Hin|].
    apply NoDup_cons in Hnd as [Hni Hnd]. rewrite filter_cons. apply elem_of_cons in Hin as [->|Hin].
    - rewrite decide_False by tauto. cbn. f_equal. clear -Hni.
      induction l as [|z l IH]; [done|]. apply not_elem_of_cons in Hni as [H1 H2].
      rewrite filter_cons, decide_True by congruence. f_equal. auto.
    - rewrite decide_True by (intros ->; done). cbn. rewrite IHl by done.
      destruct l; [by apply elem_of_nil in Hin|done]. }
  destruct (IH (filter (λ y, y ≠ x) l) r1) as (rest & r' & Hr & Hl & Hnd' & Hsub).
  { by apply NoDup_filter. }
  { rewrite Hfl. lia. }
  unfold mbind, M_bind. rewrite Hr. exists (x :: rest), r'. split_and!; [done|cbn; lia| |].
  - apply NoDup_cons. split; [|done]. intros Hx'. apply Hsub, list_elem_of_filter in Hx' as [? _]. done.
  - intros y [->|Hy]%elem_of_cons; [done|]. by apply Hsub, list_elem_of_filter in Hy as [_ ?].
Qed.

Lemma topo_edges_ok {E} neigh nodes todo i r :
  NoDup nodes → neigh < length nodes → drop i nodes = todo →
  ∃ es r', topo_edges (E:=E) neigh nodes i todo r = (Ok es, r') ∧
    length es = neigh * length todo ∧
    (∀ a b, (a, b) ∈ es → a ∈ todo ∧ b ∈ nodes ∧ a ≠ b).
Proof.
  intros Hnd Hn. revert i r. induction todo as [|node todo IH]; intros i r Hdrop.
  { exists [], r. split_and!; [done|cbn; lia|set_solver]. }
  assert (nodes !! i = Some node) as Hi.
  { rewrite <-(Nat.add_0_r i), <-lookup_drop, Hdrop. done. }
  assert (nodes = take i nodes ++ node :: drop (S i) nodes) as Hsplit by (symmetry; by apply take_drop_middle).
  assert (NoDup (node :: take i nodes ++ drop (S i) nodes)) as Hnd1.
  { rewrite Permutation_middle. by rewrite <-Hsplit. }
  apply NoDup_cons in Hnd1 as [Hni Hnd1].
  destruct (choose_neighs_ok (E:=E) neigh _ r Hnd1) as (l & r1 & Hl & Hlen & _ & Hsub).
  { pose proof (f_equal length Hsplit) as HL. rewrite length_app in HL. cbn in HL. rewrite length_app. lia. }
  destruct (IH (S i) r1) as (es & r' & Hes & Hle & Hin).
  { rewrite <-Nat.add_1_r, <-drop_drop, Hdrop. done. }
  cbn [topo_edges]. unfold mbind, M_bind. rewrite Hl, Hes. eexists _, r'. split; [done|]. split.
  - rewrite length_app, length_fmap, Hle, Hlen. cbn. lia.
  - intros a b [Hab|Hab]%elem_of_app.
    + apply list_elem_of_fmap in Hab as (m & [= -> ->] & Hm). apply Hsub in Hm. split_and!.
      * apply list_elem_of_here.
      * rewrite Hsplit. apply elem_of_app in Hm. rewrite elem_of_app, elem_of_cons. tauto.
      * intros ->. done.
    + destruct (Hin a b Hab) as (H1 & H2 & H3). split_and!; [by apply list_elem_of_further|done..].
Qed.

(** The names that [gen_topo] draws first. *)
Definition drawn (number : nat) (r : R) : list string :=
  match (petnames (E:=Empty_set) number r).1 with Ok l => l | _ => [] end.

Lemma petnames_ok {E} n r : ∃ l r', petnames (E:=E) n r = (Ok l, r') ∧ length l = n.
Proof.
  revert r. induction n as [|n IH]; intros r; [by exists [], r|]. cbn [petnames].
  unfold mbind, M_bind. destruct (petname r) as [p r1]. destruct (IH r1) as (l & r' & -> & Hl).
  exists (p :: l), r'. split; [done|]. cbn. by rewrite Hl.
Qed.

(** Random topologies: when the names it draws are distinct, [gen-topo] prints the
    requested number of edges for every node, each to another node, and does
    not panic. *)
Theorem gen_topo_ok number neigh r :
  neigh < number → NoDup (drawn number r) →
  ∃ es r', gen_topo (E:=Empty_set) number neigh r = (Ok es, r') ∧ length es = neigh * number ∧
    ∀ a b, (a, b) ∈ es → a ∈ drawn number r ∧ b ∈ drawn number r ∧ a ≠ b.
Proof.
  intros Hn Hnd. unfold gen_topo, drawn in *. rewrite decide_False by lia.
  destruct (petnames_ok (E:=Empty_set) number r) as (l & r1 & Hp & Hl).
  unfold mbind, M_bind. rewrite Hp in Hnd |- *. cbn [fst] in *.
  destruct (topo_edges_ok (E:=Empty_set) neigh l l 0 r1 Hnd) as (es & r' & He & Hle & Hin); [lia|done|].
  rewrite He. exists es, r'. split; [done|]. by rewrite Hle, Hl.
Qed.

(** A repeated name: with the names [a], [a] and [b], and two neighbors each, the
    generator panics, whatever it chooses. *)
Theorem gen_topo_repeated_name r a b r1 r2 r3 :
  petname r = (a, r1) → petname r1 = (a, r2) → petname r2 = (b, r3) → a ≠ b →
  (gen_topo (E:=Empty_set) 3 2 r).1 = Panic.
Proof.
  intros H1 H2 H3 Hne. unfold gen_topo. rewrite decide_False by lia.
  cbn [petnames]. unfold mbind, M_bind. rewrite H1, H2, H3. cbn [topo_edges mret M_ret].
  unfold mbind, M_bind. cbn [take drop app].
  assert (NoDup [a; b]) as Hnd by (repeat constructor; set_solver).
  destruct (choose_neighs_ok (E:=Empty_set) 2 [a; b] r3 Hnd) as (l1 & ra & -> & _); [cbn; lia|].
  destruct (choose_neighs_ok (E:=Empty_set) 2 [a; b] ra Hnd) as (l2 & rb & -> & _); [cbn; lia|].
  cbn [choose_neighs]. unfold mbind, M_bind. unfold choose_from at 1. destruct (choose [a; a] rb) as [i rc].
  assert ([a; a] !! (i mod length [a; a]) = Some a) as ->.
  { cbn [length]. pose proof (Nat.mod_upper_bound i 2 ltac:(lia)).
    destruct (i mod 2) as [|[|k]]; [done..|lia]. }
  cbn [unwrap]. rewrite !filter_cons, !decide_False by tauto. done.
Qed.

End GenTopo.

(** * gen-earendil-shadow *)

Definition FIRST_IP : N := 200 * 2 ^ 24 + 64 * 2 ^ 16 + 1 * 2 ^ 8 + 1.
Definition LAST_IP : N := 200 * 2 ^ 24 + 64 * 2 ^ 16 + 255 * 2 ^ 8 + 255.
Definition LOCALHOST : N := 127 * 2 ^ 24 + 1.
Definition FIRST_PORT : N := 12000.
Definition u16_modulus : N := 2 ^ 16.

(** [listen_port += 1] on a [u16], with overflow checks or without. *)
Definition u16_incr {E} (oc : bool) (p : N) : outcome E N :=
  if (p + 1 <? u16_modulus)%N then Ok (p + 1)%N else if oc then Panic else Ok 0%N.

(** [Ipv4Addr] and [SocketAddr] as text. *)
Definition u32_ipv4_to_string (a : N) : string :=
  octets_to_string (a / 2 ^ 24) (a / 2 ^ 16 mod 256) (a / 2 ^ 8 mod 256) (a mod 256).

(** [get_adjacencies]. *)
Definition get_adjacencies (adjacencies : list (string * string)) : gmap string (gset string) :=
  foldl (λ map '(n1, n2),
           let map := <[n1 := {[n2]} ∪ default ∅ (map !! n1)]> map in
           <[n2 := default ∅ (map !! n2)]> map) ∅ adjacencies.

(** What is drawn for a node. *)
Record NodeParams := mkNodeParams {
  np_ip : N;
  np_port : N;
  np_control : N;
  np_secret : list byte;
  np_seed : list byte;
  np_fingerprint : Fingerprint;
  np_cookie : array 32
}.

(** The configuration of a node: [gc_control] only outside the simulator. *)
Record GenConfig := mkGenConfig {
  gc_seed : list byte;
  gc_control : option N;
  gc_port : N;
  gc_secret : list byte;
  gc_out_routes : list (string * RouteInfo)
}.

Inductive GenError := TooManyNodes.

Section GenShadow.
  Context {P : Primitives} {OU : ObfsUdp} {HI : HashIter}.
  Context (generate_seed : rng → list byte * rng).

(** The first loop of [main]. *)
Fixpoint node_params (oc shadow : bool) (i listen_port : N) (names : list string)
    : Rand GenError (list (string * NodeParams)) :=
  match names with
  | [] => mret []
  | node_name :: names =>
      _ ← (if (FIRST_IP + i <? LAST_IP)%N then mret tt else throw TooManyNodes);
      let ip := if shadow then (FIRST_IP + i)%N else LOCALHOST in
      let port := listen_port in
      control ← lift (u16_incr oc port);
      listen_port ← lift (u16_incr oc control);
      secret ← sample generate_seed;
      identity_seed ← sample generate_seed;
      identity ← lift (from_seed identity_seed);
      let p := mkNodeParams ip port control secret identity_seed
                 (fingerprint (public identity)) (route_cookie secret) in
      rest ← node_params oc shadow (i + 1) listen_port names;
      mret ((node_name, p) :: rest)
  end.

(** The route to a neighbor; the lookups are unwrapped. *)
Definition out_route_of {E} (shadow : bool) (params : list (string * NodeParams)) (neigh : string)
    : outcome E (string * RouteInfo) :=
  p ← unwrap (assoc_get neigh params);
  let ip := if shadow then np_ip p else LOCALHOST in
  Ok (neigh, mkRouteInfo (Fingerprint_to_string (np_fingerprint p))
               (u32_ipv4_to_string ip ++ ":" ++ u32_to_string (np_port p)) (hex_encode (np_cookie p))).

Definition node_config {E} (shadow : bool) (params : list (string * NodeParams))
    (node_name : string) (neighbors : gset string) : outcome E (string * GenConfig) :=
  out_routes ← outcome_mapM (out_route_of shadow params) (hash_iter neighbors);
  p ← unwrap (assoc_get node_name params);
  Ok (node_name, mkGenConfig (np_seed p) (if shadow then None else Some (np_control p)) (np_port p)
                   (np_secret p) out_routes).

(** [main], up to the files it writes: the configurations by node. *)
Definition gen_shadow (oc shadow : bool) (edges : list (string * string))
    : Rand GenError (list (string * GenConfig)) :=
  let adjacencies := get_adjacencies edges in
  let names := hash_iter (dom adjacencies) in
  params ← node_params oc shadow 0 FIRST_PORT names;
  lift (outcome_mapM (λ n, node_config shadow params n (default ∅ (adjacencies !! n))) names).

(** ** Properties *)

Context {HIL : HashIterLaws HI}.
(** The key derivation accepts the generated seeds. *)
Context (Hkdf : ∀ r, is_Some (argon2_hash (generate_seed r).1 (bytes_of "identity_kdf_salt"))).

Lemma get_adjacencies_snoc edges n1 n2 :
  get_adjacencies (edges ++ [(n1, n2)]) =
  let map := <[n1 := {[n2]} ∪ default ∅ (get_adjacencies edges !! n1)]> (get_adjacencies edges) in
  <[n2 := default ∅ (map !! n2)]> map.
Proof. unfold get_adjacencies. by rewrite foldl_app. Qed.

(** Every end of an edge is a node, and the neighbors of a node are those it has
    an edge to. *)
Lemma get_adjacencies_spec edges a b :
  (b ∈ default ∅ (get_adjacencies edges !! a) ↔ (a, b) ∈ edges) ∧
  ((a, b) ∈ edges → a ∈ dom (get_adjacencies edges) ∧ b ∈ dom (get_adjacencies edges)).
Proof.
  induction edges as [|[n1 n2] edges IH] using rev_ind.
  { split; [|set_solver]. unfold get_adjacencies. cbn. rewrite lookup_empty. set_solver. }
  destruct IH as [IH1 IH2]. rewrite get_adjacencies_snoc. cbv zeta.
  set (m := get_adjacencies edges) in *. split.
  - rewrite elem_of_app, list_elem_of_singleton, !lookup_insert.
    destruct (decide (n2 = a)) as [->|Ha2], (decide (n1 = a)) as [->|Ha1]; cbn [default from_option id];
      rewrite ?elem_of_union, ?elem_of_singleton; try tauto; split; try naive_solver;
      try (intros [?|[= ? ?]]; [by apply IH1|congruence]); intros H; left; by apply IH1.
  - rewrite elem_of_app, list_elem_of_singleton, !dom_insert. set_solver.
Qed.

Lemma socket_addr_u32_read a p :
  (a < 2 ^ 32)%N → (p < u16_modulus)%N →
  ∃ ip, SocketAddr_from_str (u32_ipv4_to_string a ++ ":" ++ u32_to_string p) = Some (mkSocketAddr (V4 ip) p).
Proof.
  intros Ha Hp. unfold u32_ipv4_to_string.
  destruct (socket_addr_v4_read (a / 2 ^ 24) (a / 2 ^ 16 mod 256) (a / 2 ^ 8 mod 256) (a mod 256) p)
    as (ip & _ & Hr); [|apply N.mod_upper_bound; done..|done|by exists ip].
  apply N.Div0.div_lt_upper_bound. exact Ha.
Qed.

(** The parameters of the nodes, in the order of the names. *)
Lemma node_params_ok oc shadow i port names r :
  (FIRST_IP + i + N.of_nat (length names) <= LAST_IP)%N →
  (port + 2 * N.of_nat (length names) < u16_modulus)%N →
  ∃ params r', node_params oc shadow i port names r = (Ok params, r') ∧ params.*1 = names ∧
    (∀ j n p, params !! j = Some (n, p) → np_port p = (port + 2 * N.of_nat j)%N ∧
       np_control p = (port + 2 * N.of_nat j + 1)%N) ∧
    (∀ n p, (n, p) ∈ params → np_cookie p = route_cookie (np_secret p) ∧
       (np_ip p < 2 ^ 32)%N ∧ (np_port p < u16_modulus)%N ∧
       ∃ isk, from_seed (E:=GenError) (np_seed p) = Ok isk ∧ np_fingerprint p = fingerprint (public isk)).
Proof.
  revert i port r. induction names as [|name names IH]; intros i port r Hip Hport.
  { exists [], r. split_and!; [done|done|by intros ?|]. intros n p. by rewrite elem_of_nil. }
  cbn [length] in Hip, Hport. cbn [node_params]. unfold mbind, M_bind.
  rewrite (proj2 (N.ltb_lt _ _)) by lia. unfold mret, M_ret, lift, u16_incr.
  rewrite !(proj2 (N.ltb_lt _ _)) by lia. unfold sample.
  destruct (generate_seed r) as [sec r1]. destruct (generate_seed r1) as [seed r2] eqn:Hs.
  destruct (Hkdf r1) as [k Hk]. rewrite Hs in Hk. cbn [fst] in Hk.
  assert (from_seed (E:=GenError) seed = Ok k) as Hseed.
  { unfold from_seed, kdf_from_human. by rewrite Hk. }
  rewrite Hseed. destruct (IH (i + 1)%N (port + 1 + 1)%N r2) as (params & r' & Hp & Hn & Hj & Hc); [lia..|].
  rewrite Hp. eexists _, r'. split; [done|]. split; [by cbn; rewrite Hn|]. split.
  - intros [|j] n p; cbn.
    + intros [= <- <-]. cbn. lia.
    + intros [H1 H2]%Hj. lia.
  - intros n p [[= -> ->]|Hin]%elem_of_cons; [|by apply (Hc n)]. cbn [np_cookie np_ip np_port np_secret np_seed].
    split; [done|]. split; [unfold FIRST_IP, LAST_IP, LOCALHOST in *; destruct shadow; lia|].
    split; [lia|]. by exists k.
Qed.

Lemma assoc_get_keys {V} (l : list (string * V)) k :
  k ∈ l.*1 → ∃ v, assoc_get k l = Some v.
Proof.
  intros Hk. destruct (assoc_get k l) as [v|] eqn:E; [eauto|]. by apply assoc_get_None in E.
Qed.

(** The configuration of a node whose neighbors are all known. *)
Lemma node_config_ok {E} shadow params n neighbors p :
  assoc_get n params = Some p → (∀ m, m ∈ neighbors → m ∈ params.*1) →
  ∃ routes, node_config (E:=E) shadow params n neighbors =
      Ok (n, mkGenConfig (np_seed p) (if shadow then None else Some (np_control p)) (np_port p)
               (np_secret p) routes) ∧
    ∀ m q, m ∈ neighbors → assoc_get m params = Some q →
      (m, mkRouteInfo (Fingerprint_to_string (np_fingerprint q))
            (u32_ipv4_to_string (if shadow then np_ip q else LOCALHOST) ++ ":" ++ u32_to_string (np_port q))
            (hex_encode (np_cookie q))) ∈ routes.
Proof.
  intros Hp Hns. destruct (outcome_mapM_elem (E:=E) (λ m b, ∃ q, assoc_get m params = Some q ∧
      b = (m, mkRouteInfo (Fingerprint_to_string (np_fingerprint q))
            (u32_ipv4_to_string (if shadow then np_ip q else LOCALHOST) ++ ":" ++ u32_to_string (np_port q))
            (hex_encode (np_cookie q)))) (out_route_of shadow params) (hash_iter neighbors))
    as (routes & Hr & Hin).
  { intros m Hm%elem_of_hash_iter%Hns. destruct (assoc_get_keys _ _ Hm) as [q Hq].
    eexists. split; [unfold out_route_of; rewrite Hq; reflexivity|]. split; [eauto|].
    intros b' (q' & Hq' & ->). by simplify_eq. }
  exists routes. split.
  - unfold node_config. rewrite Hr. cbn. by rewrite Hp.
  - intros m q Hm Hq. apply Hin. exists m. split; [by apply elem_of_hash_iter|eauto].
Qed.

Lemma mapM_Forall2 {E A B} (Q : A → B → Prop) (f : A → outcome E B) l :
  (∀ a, a ∈ l → ∃ b, f a = Ok b ∧ Q a b) → ∃ bs, outcome_mapM f l = Ok bs ∧ Forall2 Q l bs.
Proof.
  induction l as [|a l IH]; intros Hf; [by exists []; split; [|constructor]|].
  destruct (Hf a) as (b & Hb & HQ); [set_solver|]. destruct IH as (bs & Hbs & HF); [set_solver|].
  exists (b :: bs). cbn. rewrite Hb. cbn. rewrite Hbs. split; [done|by constructor].
Qed.

(** What the configuration of a node has of its parameters. *)
Record config_of (shadow : bool) (params : list (string * NodeParams)) (neighbors : gset string)
    (p : NodeParams) (c : GenConfig) : Prop := {
  co_seed : gc_seed c = np_seed p;
  co_port : gc_port c = np_port p;
  co_secret : gc_secret c = np_secret p;
  co_routes m q : m ∈ neighbors → assoc_get m params = Some q →
    (m, mkRouteInfo (Fingerprint_to_string (np_fingerprint q))
          (u32_ipv4_to_string (if shadow then np_ip q else LOCALHOST) ++ ":" ++ u32_to_string (np_port q))
          (hex_encode (np_cookie q))) ∈ gc_out_routes c
}.

Lemma gen_shadow_configs oc shadow edges r :
  let adj := get_adjacencies edges in
  (N.of_nat (size (dom adj)) <= 26767)%N →
  ∃ params cfgs r', node_params oc shadow 0 FIRST_PORT (hash_iter (dom adj)) r = (Ok params, r') ∧
    gen_shadow oc shadow edges r = (Ok cfgs, r') ∧
    Forall2 (λ n b, b.1 = n ∧ ∃ p, assoc_get n params = Some p ∧
      config_of shadow params (default ∅ (adj !! n)) p b.2) (hash_iter (dom adj)) cfgs.
Proof.
  intros adj Hsz.
  assert (length (hash_iter (dom adj)) = size (dom adj)) as Hlen by (by rewrite hash_iter_perm).
  destruct (node_params_ok oc shadow 0 FIRST_PORT (hash_iter (dom adj)) r) as (params & r' & Hp & Hn & _).
  { rewrite Hlen. unfold FIRST_IP, LAST_IP. lia. }
  { rewrite Hlen. unfold FIRST_PORT, u16_modulus. lia. }
  destruct (mapM_Forall2 (E:=GenError) (λ n b, b.1 = n ∧ ∃ p, assoc_get n params = Some p ∧
      config_of shadow params (default ∅ (adj !! n)) p b.2)
    (λ n, node_config shadow params n (default ∅ (adj !! n))) (hash_iter (dom adj))) as (cfgs & Hc & HF).
  { intros n Hin. assert (n ∈ params.*1) as Hin' by (by rewrite Hn).
    destruct (assoc_get_keys _ _ Hin') as [p Hpn].
    destruct (node_config_ok (E:=GenError) shadow params n (default ∅ (adj !! n)) p Hpn)
      as (routes & Hcfg & Hroutes).
    { intros m Hm. rewrite Hn. apply elem_of_hash_iter.
      apply (get_adjacencies_spec edges n m), (get_adjacencies_spec edges n m), Hm. }
    eexists. split; [exact Hcfg|]. split; [done|]. exists p. split; [done|]. by split. }
  exists params, cfgs, r'. split; [done|]. split; [|done].
  unfold gen_shadow, mbind, M_bind. fold adj. rewrite Hp. unfold lift. by rewrite Hc.
Qed.

(** Generated networks: for up to 26767 nodes the generator succeeds, and every
    node listens on a port of its own.  For every edge the first node's configuration
    has a route to the second that names the fingerprint of the identity that the
    second node's seed gives, its port, and the cookie of its secret, and that
    serde reads with the [protocol] that the generator writes. *)
Theorem gen_shadow_connects {BL : Base32Laws} oc shadow edges r :
  (N.of_nat (size (dom (get_adjacencies edges))) <= 26767)%N →
  ∃ cfgs r', gen_shadow oc shadow edges r = (Ok cfgs, r') ∧
    cfgs.*1 ≡ₚ elements (dom (get_adjacencies edges)) ∧
    NoDup (gc_port ∘ snd <$> cfgs) ∧
    ∀ a b, (a, b) ∈ edges → ∃ ca cb info isk,
      assoc_get a cfgs = Some ca ∧ assoc_get b cfgs = Some cb ∧ (b, info) ∈ gc_out_routes ca ∧
      from_seed (E:=GenError) (gc_seed cb) = Ok isk ∧
      ∃ ip, read_out_route (Some "obfsudp"%string) info =
        Some (OutObfsudp (fingerprint (public isk)) (mkSocketAddr (V4 ip) (gc_port cb))
                (route_cookie (gc_secret cb))).
Proof.
  intros Hsz. destruct (gen_shadow_configs oc shadow edges r Hsz) as (params & cfgs & r' & Hp & Hg & HF).
  set (adj := get_adjacencies edges) in *. set (names := hash_iter (dom adj)) in *.
  assert (length names = size (dom adj)) as Hlen by (unfold names; by rewrite hash_iter_perm).
  destruct (node_params_ok oc shadow 0 FIRST_PORT names r) as (params' & r1 & Hp' & Hn & Hj & Hck).
  { rewrite Hlen. unfold FIRST_IP, LAST_IP. lia. }
  { rewrite Hlen. unfold FIRST_PORT, u16_modulus. lia. }
  rewrite Hp in Hp'. injection Hp' as <- <-.
  assert (NoDup params.*1) as Hnd by (rewrite Hn; apply hash_iter_NoDup).
  assert (cfgs.*1 = names) as Hkeys.
  { clear -HF. induction HF as [|n b ns bs [Hb _] _ IH]; [done|]. cbn. by rewrite Hb, IH. }
  exists cfgs, r'. split_and!; [done|by rewrite Hkeys; apply hash_iter_perm| |].
  - apply NoDup_alt. intros i j x. rewrite !list_lookup_fmap.
    assert (∀ k y, gc_port ∘ snd <$> cfgs !! k = Some y → y = (FIRST_PORT + 2 * N.of_nat k)%N) as Hval;
      [|intros Hi%Hval Hx%Hval; lia].
    intros k y. rewrite fmap_Some. intros (c & Hc & ->).
    destruct (Forall2_lookup_r _ _ _ _ _ HF Hc) as (n & Hnk & _ & p & Hpn & Hco).
    cbn. rewrite (co_port _ _ _ _ _ Hco). rewrite <-Hn, list_lookup_fmap in Hnk.
    apply fmap_Some in Hnk as ([n' p'] & Hk & ->). cbn in Hpn.
    assert (assoc_get n' params = Some p') as Hp2 by (apply assoc_get_Some; [done|by eapply list_elem_of_lookup_2]).
    simplify_eq. by apply (Hj k n').
  - intros a b Hab. pose proof (get_adjacencies_spec edges a b) as [Hin Hdom]. fold adj in Hin, Hdom.
    destruct (Hdom Hab) as [Ha Hb]. apply elem_of_hash_iter in Ha, Hb. fold names in Ha, Hb.
    assert (∀ n, n ∈ names → ∃ c p, assoc_get n cfgs = Some c ∧ assoc_get n params = Some p ∧
      config_of shadow params (default ∅ (adj !! n)) p c) as Hget.
    { intros n [k Hk]%list_elem_of_lookup. destruct (Forall2_lookup_l _ _ _ _ _ HF Hk)
        as ([n' c] & Hc & Heq & p & Hpn & Hco). cbn in Heq, Hco. subst n'. exists c, p.
      split; [|done]. apply assoc_get_Some; [by rewrite Hkeys; apply hash_iter_NoDup|].
      by eapply list_elem_of_lookup_2. }
    destruct (Hget a Ha) as (ca & pa & Hca & _ & Hcoa), (Hget b Hb) as (cb & pb & Hcb & Hpb & Hcob).
    destruct (Hck b pb) as (Hcookie & Hip & Hport & isk & Hisk & Hfp); [by apply assoc_get_Some|].
    eexists ca, cb, _, isk. split_and!; [done|done| | |].
    + apply (co_routes _ _ _ _ _ Hcoa); [by apply Hin|exact Hpb].
    + by rewrite (co_seed _ _ _ _ _ Hcob).
    + assert ((if shadow then np_ip pb else LOCALHOST) < 2 ^ 32)%N as Hip2 by (by destruct shadow).
      destruct (socket_addr_u32_read _ _ Hip2 Hport) as [ip Hread]. exists ip.
      unfold read_out_route. cbn [ri_fingerprint ri_cookie ri_connect]. rewrite bool_decide_eq_true_2 by done.
      rewrite fingerprint_roundtrip, hex_roundtrip, Hread. cbn.
      by rewrite try_into_bytes, Hfp, Hcookie, (co_secret _ _ _ _ _ Hcob), (co_port _ _ _ _ _ Hcob).
Qed.

(** Too many nodes: from 26768 nodes on the ports run out, long before the
    generator would refuse; with overflow checks it panics. *)
Theorem gen_shadow_port_overflow shadow names i port r :
  (port < u16_modulus)%N → (u16_modulus <= port + 2 * N.of_nat (length names))%N →
  (FIRST_IP + i + N.of_nat (length names) <= LAST_IP)%N →
  (node_params true shadow i port names r).1 = Panic.
Proof.
  revert i port r. induction names as [|name names IH]; intros i port r Hp Hov Hip; cbn [length] in *; [lia|].
  cbn [node_params]. unfold mbind, M_bind. rewrite (proj2 (N.ltb_lt _ _)) by lia.
  unfold mret, M_ret, lift, u16_incr.
  destruct (N.ltb_spec (port + 1) u16_modulus); [|done].
  destruct (N.ltb_spec (port + 1 + 1) u16_modulus); [|done].
  unfold sample. destruct (generate_seed r) as [sec r1]. destruct (generate_seed r1) as [seed r2] eqn:Hs.
  destruct (Hkdf r1) as [k Hk]. rewrite Hs in Hk. cbn [fst] in Hk.
  unfold from_seed, kdf_from_human. rewrite Hk. cbn.
  specialize (IH (i + 1)%N (port + 1 + 1)%N r2 ltac:(lia) ltac:(lia) ltac:(lia)).
  destruct (node_params true shadow (i + 1) (port + 1 + 1) names r2) as [[]]; try done; cbn in IH; done.
Qed.

End GenShadow.

(** * Witnesses *)

Definition topo_name (n : N) : string * N := (u32_to_string n, (n + 1)%N).
Definition topo_choose (l : list string) (n : N) : nat * N := (N.to_nat (n mod 7), (n * 5 + 3)%N).

Lemma topo_drawn : drawn topo_name 4 11%N = ["11"; "12"; "13"; "14"]%string.
Proof. vm_compute. reflexivity. Qed.

Lemma gen_topo_ok_witness :
  ∃ es r', gen_topo topo_name topo_choose (E:=Empty_set) 4 2 11%N = (Ok es, r') ∧ length es = 8 ∧
    ∀ a b, (a, b) ∈ es → a ∈ drawn topo_name 4 11%N ∧ b ∈ drawn topo_name 4 11%N ∧ a ≠ b.
Proof.
  apply (gen_topo_ok topo_name topo_choose 4 2 11%N); [lia|].
  rewrite topo_drawn. apply (bool_decide_eq_true_1 _). reflexivity.
Defined.

Definition sg_seed (n : N) : list byte * N := (le_bytes 4 n, (n + 1)%N).
Definition sg_edges : list (string * string) := [("a", "b"); ("b", "c"); ("c", "b")]%string.

Lemma gen_shadow_connects_witness :
  ∃ cfgs r', gen_shadow (P:=toy) sg_seed true false sg_edges 5%N = (Ok cfgs, r') ∧
    ∃ cb cc info isk, assoc_get "b"%string cfgs = Some cb ∧ assoc_get "c"%string cfgs = Some cc ∧
      ("c"%string, info) ∈ gc_out_routes cb ∧ from_seed (P:=toy) (E:=GenError) (gc_seed cc) = Ok isk ∧
      ∃ ip, read_out_route (P:=toy) (Some "obfsudp"%string) info =
        Some (OutObfsudp (fingerprint (P:=toy) (public isk)) (mkSocketAddr (V4 ip) (gc_port cc))
                (route_cookie (P:=toy) (gc_secret cc))).
Proof.
  destruct (gen_shadow_connects (P:=toy) sg_seed (λ r, ex_intro _ _ eq_refl) true false sg_edges 5%N)
    as (cfgs & r' & Hg & _ & _ & Hr).
  - vm_compute. discriminate.
  - exists cfgs, r'. split; [exact Hg|].
    destruct (Hr "b"%string "c"%string) as (cb & cc & info & isk & H1 & H2 & H3 & H4 & H5).
    + apply list_elem_of_further, list_elem_of_here.
    + exists cb, cc, info, isk. exact (conj H1 (conj H2 (conj H3 (conj H4 H5)))).
Defined.
