(* ===== verification/ShadowFiles.v ===== *)
(** The files that [shadow-tests/gen-earendil-shadow] writes: the end of its [main].

    A directory tree is a set of directories and a map of files, by their paths;
    what else the operating system may refuse is an argument.  The texts of the
    configurations are serde's. *)

From Stdlib Require Import String.
From S2P Require Import Prelude Interfaces Crypto Text Instances.
Close Scope string_scope.

Definition SLASH : byte := x2f.

Inductive FsError := AlreadyExists | NoSuchDirectory | IsADirectory | Refused.

Record Tree := mkTree {
  tree_dirs : gset (list byte);
  tree_files : gmap (list byte) (list byte)
}.

(** The path before its last slash. *)
Fixpoint after_slash (l : list byte) : list byte :=
  match l with
  | [] => []
  | b :: l => if decide (b = SLASH) then l else after_slash l
  end.
Definition parent (p : list byte) : list byte := reverse (after_slash (reverse p)).

(** A path with the directories it goes through. *)
Definition ancestors (p : list byte) : list (list byte) :=
  ((λ i, take i p) <$> filter (λ i, p !! i = Some SLASH) (seq 0 (length p))) ++ [p].

Section files.
  Context (allowed : list byte → bool).

(** [std::fs::create_dir_all], [create_dir] and [write]. *)
Definition create_dir_all (p : list byte) : M Tree FsError unit := λ t,
  if decide (Exists (λ q, is_Some (tree_files t !! q)) (ancestors p)) then (Err AlreadyExists, t)
  else if allowed p then (Ok tt, mkTree (list_to_set (ancestors p) ∪ tree_dirs t) (tree_files t))
  else (Err Refused, t).

Definition create_dir (p : list byte) : M Tree FsError unit := λ t,
  if decide (p ∈ tree_dirs t ∨ is_Some (tree_files t !! p)) then (Err AlreadyExists, t)
  else if decide (parent p ∈ tree_dirs t) then
    if allowed p then (Ok tt, mkTree ({[p]} ∪ tree_dirs t) (tree_files t)) else (Err Refused, t)
  else (Err NoSuchDirectory, t).

Definition write_file (p data : list byte) : M Tree FsError unit := λ t,
  if decide (p ∈ tree_dirs t) then (Err IsADirectory, t)
  else if decide (parent p ∈ tree_dirs t) then
    if allowed p then (Ok tt, mkTree (tree_dirs t) (<[p := data]> (tree_files t))) else (Err Refused, t)
  else (Err NoSuchDirectory, t).

(** * The end of [main] *)

Definition cfg_name (name : list byte) : list byte := name ++ bytes_of "-cfg.yaml".

Definition host_dir (dir_path name : list byte) : list byte := dir_path ++ bytes_of "/configs/hosts/" ++ name.
Definition host_cfg (dir_path name : list byte) : list byte := host_dir dir_path name ++ SLASH :: cfg_name name.
Definition plain_cfg (dir_path name : list byte) : list byte := dir_path ++ SLASH :: cfg_name name.

Fixpoint write_hosts (dir_path : list byte) (earendil_configs : list (list byte * list byte))
    : M Tree FsError unit :=
  match earendil_configs with
  | [] => mret tt
  | (name, earendil_cfg) :: earendil_configs =>
      _ ← create_dir (host_dir dir_path name);
      _ ← write_file (host_cfg dir_path name) earendil_cfg;
      write_hosts dir_path earendil_configs
  end.

Fixpoint write_plain (dir_path : list byte) (earendil_configs : list (list byte * list byte))
    : M Tree FsError unit :=
  match earendil_configs with
  | [] => mret tt
  | (name, earendil_cfg) :: earendil_configs =>
      _ ← write_file (plain_cfg dir_path name) earendil_cfg;
      write_plain dir_path earendil_configs
  end.

Definition write_configs (shadow : bool) (name shadow_yaml : list byte)
    (earendil_configs : list (list byte * list byte)) : M Tree FsError unit :=
  let dir_path := bytes_of "../" ++ name in
  if shadow then
    _ ← create_dir_all (dir_path ++ bytes_of "/configs/hosts/");
    _ ← write_file (dir_path ++ bytes_of "/shadow.yaml") shadow_yaml;
    write_hosts dir_path earendil_configs
  else
    _ ← create_dir_all dir_path;
    write_plain dir_path earendil_configs.

(** * Properties *)

Definition slash_free (l : list byte) : Prop := SLASH ∉ l.

Lemma after_slash_app l r : slash_free l → after_slash (l ++ SLASH :: r) = r.
Proof.
  unfold slash_free. induction l as [|b l IH]; cbn; [done|]. intros [Hb Hl]%not_elem_of_cons.
  rewrite decide_False by congruence. by apply IH.
Qed.

Lemma parent_app d l : slash_free l → parent (d ++ SLASH :: l) = d.
Proof.
  intros Hl. unfold parent. rewrite reverse_app, reverse_cons, <-app_assoc. cbn [app].
  rewrite after_slash_app, reverse_involutive; [done|]. unfold slash_free in *. by rewrite elem_of_reverse.
Qed.

Definition hosts (dir_path : list byte) : list byte := dir_path ++ bytes_of "/configs/hosts".

Lemma host_dir_eq d n : host_dir d n = hosts d ++ SLASH :: n.
Proof. unfold host_dir, hosts. by rewrite <-app_assoc. Qed.

Lemma cfg_slash_free n : slash_free n → slash_free (cfg_name n).
Proof.
  unfold slash_free, cfg_name. rewrite elem_of_app. intros Hn [H|H]; [done|]. revert H.
  apply (bool_decide_unpack _). vm_compute. exact I.
Qed.

Lemma parent_host d n : slash_free n → parent (host_dir d n) = hosts d.
Proof. intros Hn. rewrite host_dir_eq. by apply parent_app. Qed.
Lemma parent_host_cfg d n : slash_free n → parent (host_cfg d n) = host_dir d n.
Proof. intros Hn. by apply parent_app, cfg_slash_free. Qed.
Lemma parent_plain d n : slash_free n → parent (plain_cfg d n) = d.
Proof. intros Hn. by apply parent_app, cfg_slash_free. Qed.

Lemma host_dir_inj d n n' : host_dir d n = host_dir d n' → n = n'.
Proof. unfold host_dir. by intros ?%app_inv_head%app_inv_head. Qed.

Lemma host_cfg_inj d n n' : slash_free n → slash_free n' → host_cfg d n = host_cfg d n' → n = n'.
Proof.
  intros Hn Hn' H%(f_equal parent). rewrite !parent_host_cfg in H by done. by eapply host_dir_inj.
Qed.

Lemma plain_cfg_inj d n n' : plain_cfg d n = plain_cfg d n' → n = n'.
Proof.
  unfold plain_cfg, cfg_name. intros [= H]%app_inv_head. by apply app_inv_tail in H.
Qed.

(** A file below a host directory is not one itself. *)
Lemma host_dir_not_cfg d n n' : slash_free n → slash_free n' → host_dir d n ≠ host_cfg d n'.
Proof.
  intros Hn Hn' H%(f_equal parent). rewrite parent_host, parent_host_cfg in H by done.
  apply (f_equal length) in H. rewrite host_dir_eq, length_app in H. cbn in H. lia.
Qed.

Lemma ancestors_self p : p ∈ ancestors p.
Proof. unfold ancestors. apply elem_of_app. right. by apply list_elem_of_singleton. Qed.

Lemma ancestors_prefix a b : a ∈ ancestors (a ++ SLASH :: b).
Proof.
  unfold ancestors. apply elem_of_app. left. apply list_elem_of_fmap. exists (length a).
  split; [by rewrite take_app_length|]. apply list_elem_of_filter. split; [by apply list_lookup_middle|].
  apply elem_of_seq. rewrite length_app. cbn. lia.
Qed.

(** What the loop over the hosts needs of the tree. *)
Record hosts_ready (d : list byte) (names : list (list byte)) (t : Tree) : Prop := {
  hr_hosts : hosts d ∈ tree_dirs t;
  hr_dir n : n ∈ names → (host_dir d n ∉ tree_dirs t) ∧ (tree_files t !! host_dir d n = None);
  hr_cfg n : n ∈ names → host_cfg d n ∉ tree_dirs t
}.

Lemma write_hosts_spec d configs t :
  (∀ p, allowed p = true) → Forall slash_free configs.*1 → NoDup configs.*1 → hosts_ready d configs.*1 t →
  ∃ t', write_hosts d configs t = (Ok tt, t') ∧
    (∀ n cfg, (n, cfg) ∈ configs → tree_files t' !! host_cfg d n = Some cfg) ∧
    (∀ p, p ∉ (host_cfg d <$> configs.*1) → tree_files t' !! p = tree_files t !! p).
Proof.
  intros Hall. revert t. induction configs as [|[n cfg] configs IH]; intros t Hs Hd Hr.
  { exists t. split_and!; [done| |done]. intros n cfg []%elem_of_nil. }
  cbn [fmap list_fmap fst] in *. apply Forall_cons in Hs as [Hn Hs]. apply NoDup_cons in Hd as [Hni Hd].
  destruct Hr as [Hh Hdir Hcfg].
  destruct (Hdir n (list_elem_of_here _ _)) as [Hd1 Hd2]. pose proof (Hcfg n (list_elem_of_here _ _)) as Hc1.
  set (t1 := mkTree ({[host_dir d n]} ∪ tree_dirs t) (<[host_cfg d n := cfg]> (tree_files t))).
  rewrite Forall_forall in Hs.
  destruct (IH t1) as (t' & Hw & Hin & Hout); [by apply Forall_forall|done| |].
  { split; cbn.
    - set_solver.
    - intros n' Hn'. destruct (Hdir n' (list_elem_of_further _ _ _ Hn')) as [Ha Hb]. split.
      + apply not_elem_of_union. split; [|done]. intros ->%elem_of_singleton%host_dir_inj. done.
      + rewrite lookup_insert_ne; [done|]. intros H. symmetry in H.
        exact (host_dir_not_cfg d n' n (Hs n' Hn') Hn H).
    - intros n' Hn'. apply not_elem_of_union. split; [|by apply Hcfg, list_elem_of_further].
      intros H%elem_of_singleton. symmetry in H. exact (host_dir_not_cfg d n n' Hn (Hs n' Hn') H). }
  exists t'. split_and!.
  - cbn [write_hosts]. unfold mbind, M_bind, create_dir, write_file.
    rewrite decide_False by (rewrite Hd2; intros [?|[? ?]]; done). rewrite parent_host by done.
    rewrite decide_True, Hall by done. cbn [tree_dirs tree_files].
    rewrite decide_False.
    2: { apply not_elem_of_union. split; [|done]. intros H%elem_of_singleton. symmetry in H.
         exact (host_dir_not_cfg d n n Hn Hn H). }
    rewrite parent_host_cfg, decide_True, Hall by (done || set_solver). exact Hw.
  - intros n' cfg' [[= -> ->]|Hin']%elem_of_cons; [|by apply Hin]. rewrite Hout.
    + apply lookup_insert_eq.
    + intros (n2 & Heq & Hn2)%list_elem_of_fmap. apply host_cfg_inj in Heq as ->; [done|done|by apply Hs].
  - intros p [Hp Hps]%not_elem_of_cons. rewrite Hout by done. by apply lookup_insert_ne.
Qed.

Lemma write_plain_spec d configs t :
  (∀ p, allowed p = true) → Forall slash_free configs.*1 → NoDup configs.*1 → d ∈ tree_dirs t →
  (∀ n, n ∈ configs.*1 → plain_cfg d n ∉ tree_dirs t) →
  ∃ t', write_plain d configs t = (Ok tt, t') ∧
    (∀ n cfg, (n, cfg) ∈ configs → tree_files t' !! plain_cfg d n = Some cfg) ∧
    (∀ p, p ∉ (plain_cfg d <$> configs.*1) → tree_files t' !! p = tree_files t !! p).
Proof.
  intros Hall. revert t. induction configs as [|[n cfg] configs IH]; intros t Hs Hd Hdir Hnew.
  { exists t. split_and!; [done| |done]. intros n cfg []%elem_of_nil. }
  cbn [fmap list_fmap fst] in *. apply Forall_cons in Hs as [Hn Hs]. apply NoDup_cons in Hd as [Hni Hd].
  destruct (IH (mkTree (tree_dirs t) (<[plain_cfg d n := cfg]> (tree_files t)))) as (t' & Hw & Hin & Hout);
    [done|done|done|by intros n' Hn'; apply Hnew, list_elem_of_further|].
  exists t'. split_and!.
  - cbn [write_plain]. unfold mbind, M_bind, write_file. rewrite decide_False by apply Hnew, list_elem_of_here.
    rewrite parent_plain, decide_True, Hall by done. exact Hw.
  - intros n' cfg' [[= -> ->]|Hin']%elem_of_cons; [|by apply Hin]. rewrite Hout.
    + apply lookup_insert_eq.
    + intros (n2 & ->%plain_cfg_inj & Hn2)%list_elem_of_fmap. done.
  - intros p [Hp Hps]%not_elem_of_cons. rewrite Hout by done. by apply lookup_insert_ne.
Qed.

(** The directories made first are beginnings of their path. *)
Lemma ancestors_take p q : q ∈ ancestors p → ∃ i, q = take i p.
Proof.
  unfold ancestors. rewrite elem_of_app, list_elem_of_fmap, list_elem_of_singleton.
  intros [(i & -> & _)| ->]; [by exists i|]. exists (length p). by rewrite firstn_all.
Qed.

Definition made (d : list byte) : gset (list byte) := list_to_set (ancestors (d ++ bytes_of "/configs/hosts/")).

Lemma made_short d q : q ∈ made d → length q ≤ length (hosts d) + 1.
Proof.
  unfold made, hosts. intros (i & ->)%elem_of_list_to_set%ancestors_take.
  rewrite length_take, !length_app. cbn. lia.
Qed.

Lemma made_hosts d : hosts d ∈ made d ∧ d ∈ made d.
Proof.
  unfold made. rewrite !elem_of_list_to_set. split.
  - replace (d ++ bytes_of "/configs/hosts/") with (hosts d ++ SLASH :: []).
    + apply ancestors_prefix.
    + unfold hosts. by rewrite <-app_assoc.
  - apply (ancestors_prefix d (bytes_of "configs/hosts/")).
Qed.

Lemma shadow_yaml_not_made d : d ++ bytes_of "/shadow.yaml" ∉ made d.
Proof.
  unfold made. intros (i & H)%elem_of_list_to_set%ancestors_take.
  pose proof (f_equal (lookup (length d + 1)) H) as Hc. rewrite lookup_app_r in Hc by lia.
  replace (length d + 1 - length d) with 1 in Hc by lia. cbn in Hc.
  destruct (decide (length d + 1 < i)); [|rewrite lookup_take_ge in Hc by lia; done].
  rewrite lookup_take_lt, lookup_app_r in Hc by lia.
  replace (length d + 1 - length d) with 1 in Hc by lia. done.
Qed.

Lemma made_ready d names files :
  Forall (λ n, slash_free n ∧ n ≠ []) names → (∀ n, n ∈ names → files !! host_dir d n = None) →
  hosts_ready d names (mkTree (made d ∪ ∅) files).
Proof.
  intros Hn Hf. rewrite Forall_forall in Hn.
  assert (∀ q, length (hosts d) + 1 < length q → q ∉ made d ∪ ∅) as Hlong.
  { intros q Hq [H%made_short|H]%elem_of_union; [lia|by apply elem_of_empty in H]. }
  split; cbn.
  - apply elem_of_union_l, made_hosts.
  - intros n Hin. destruct (Hn n Hin) as [_ Hne]. split; [|by apply Hf]. apply Hlong.
    rewrite host_dir_eq, length_app. destruct n; [done|]. cbn. lia.
  - intros n Hin. apply Hlong. unfold host_cfg, cfg_name.
    rewrite host_dir_eq, !length_app. cbn. rewrite length_app. cbn. lia.
Qed.

Lemma shadow_yaml_parent d : parent (d ++ bytes_of "/shadow.yaml") = d.
Proof. apply (parent_app d (bytes_of "shadow.yaml")), (bool_decide_unpack _). vm_compute. exact I. Qed.

(** The generator writes every configuration: where nothing exists yet and nothing is
    refused, it succeeds, and the file of every node holds that node's
    configuration; names are distinct, not empty and without slashes. *)
Theorem configs_written shadow name shadow_yaml configs :
  (∀ p, allowed p = true) → Forall (λ n, slash_free n ∧ n ≠ []) configs.*1 → NoDup configs.*1 →
  ∃ t', write_configs shadow name shadow_yaml configs (mkTree ∅ ∅) = (Ok tt, t') ∧
    ∀ n cfg, (n, cfg) ∈ configs →
      tree_files t' !! (if shadow then host_cfg else plain_cfg) (bytes_of "../" ++ name) n = Some cfg.
Proof.
  intros Hall Hs Hd. unfold write_configs. cbv zeta. set (d := bytes_of "../" ++ name). clearbody d.
  assert (Forall slash_free configs.*1) as Hs' by (eapply Forall_impl; [exact Hs|]; by intros n []).
  assert (∀ p, create_dir_all p (mkTree ∅ ∅) = (Ok tt, mkTree (list_to_set (ancestors p) ∪ ∅) ∅)) as Hmk.
  { intros p. unfold create_dir_all. rewrite decide_False, Hall; [done|].
    intros (q & _ & [v Hv])%Exists_exists. cbn in Hv. by rewrite lookup_empty in Hv. }
  destruct shadow; unfold mbind at 1, M_bind at 1; rewrite Hmk.
  - set (t := mkTree (made d ∪ ∅) {[ d ++ bytes_of "/shadow.yaml" := shadow_yaml ]}).
    destruct (write_hosts_spec d configs t Hall Hs' Hd) as (t' & Hw & Hin & _).
    { apply made_ready; [done|]. intros n Hn. apply lookup_singleton_ne. intros H%(f_equal parent).
      rewrite Forall_forall in Hs'. rewrite parent_host, shadow_yaml_parent in H by by apply Hs'.
      apply (f_equal length) in H. unfold hosts in H. rewrite length_app in H. cbn in H. lia. }
    exists t'. split; [|done]. unfold mbind, M_bind, write_file. cbn [tree_dirs tree_files]. fold (made d).
    rewrite decide_False.
    2: { intros [H|H]%elem_of_union; [by apply shadow_yaml_not_made in H|by apply elem_of_empty in H]. }
    rewrite shadow_yaml_parent, decide_True, Hall by (apply elem_of_union_l, made_hosts). exact Hw.
  - destruct (write_plain_spec d configs (mkTree (list_to_set (ancestors d) ∪ ∅) ∅) Hall Hs' Hd)
      as (t' & Hw & Hin & _).
    + cbn. apply elem_of_union_l, elem_of_list_to_set, ancestors_self.
    + cbn. intros n _ [(i & H)%elem_of_list_to_set%ancestors_take|H]%elem_of_union; [|by apply elem_of_empty in H].
      apply (f_equal length) in H. unfold plain_cfg in H. rewrite length_take, length_app in H. cbn in H. lia.
    + by exists t'.
Qed.

End files.

(** * Witness *)

Lemma configs_written_witness :
  ∃ t', write_configs (λ _, true) true (bytes_of "net") [x73] [(bytes_of "a", [x31]); (bytes_of "b", [x32])]
      (mkTree ∅ ∅) = (Ok tt, t') ∧
    tree_files t' !! bytes_of "../net/configs/hosts/b/b-cfg.yaml" = Some [x32].
Proof.
  destruct (configs_written (λ _, true) true (bytes_of "net") [x73] [(bytes_of "a", [x31]); (bytes_of "b", [x32])])
    as (t' & Hw & Hin).
  - reflexivity.
  - repeat constructor; try discriminate; intros H; apply list_elem_of_singleton in H; discriminate H.
  - apply (bool_decide_unpack _). vm_compute. exact I.
  - exists t'. split; [exact Hw|]. apply (Hin (bytes_of "b") [x32]). apply list_elem_of_further, list_elem_of_here.
Defined.
