(* ===== verification/LinkStream.v ===== *)
(** What runs inside a link: the packet stream and the pool of control connections of
    [src/daemon/link_connection.rs].

    The multiplexed streams are the sosistab2 crate's: the bytes they carry and
    the connections they open are arguments.  Packets go as its unreliable
    messages, of which any may be lost, repeated or overtaken. *)

From S2P Require Import Prelude Interfaces Crypto Packet OnionRouting Instances.

Definition POOL_TIMEOUT : N := 60.

Inductive OnionStreamError := WrongSize | IncomingFull.

Section LinkStream.
  Context {C : Chan}.

(** * Packets as bytes *)

(** [bytemuck::bytes_of] and [bytemuck::try_from_bytes]: the fields in order,
    without padding. *)
Definition raw_to_bytes (pkt : RawPacket) : list byte :=
  array_bytes (header_to_bytes (header pkt)) ++ array_bytes (onion_body pkt).

Definition raw_of_bytes (l : list byte) : option RawPacket :=
  if decide (length l = 690 + N.to_nat 8192) then
    h ← try_into 690 (take 690 l);
    b ← try_into 8192 (drop 690 l);
    Some (mkRawPacket (header_of_bytes h) b)
  else None.

(** A round of [up]: the next packet as an unreliable message; [None] while it
    waits. *)
Definition onion_up (outgoing : chan RawPacket) : option (list byte * chan RawPacket) :=
  '(pkt, outgoing) ← chan_try_recv outgoing;
  Some (raw_to_bytes pkt, outgoing).

(** A round of [dn]. *)
Definition onion_dn (pkt : list byte) : M (chan RawPacket) OnionStreamError unit := λ incoming,
  match raw_of_bytes pkt with
  | None => (Err WrongSize, incoming)
  | Some pkt =>
      match chan_try_send pkt incoming with
      | Some incoming => (Ok tt, incoming)
      | None => (Err IncomingFull, incoming)
      end
  end.

(** The packet streams of one end of a link: how many are open, the queue that they
    share, and what [recv_raw_packet] has taken from it. *)
Record PacketStreams := mkStreams {
  ps_open : nat;
  ps_incoming : chan RawPacket;
  ps_taken : list RawPacket
}.

(** A stream more, opened by [onion_keepalive] or accepted from the peer; an open
    one that fails by itself; a message on an open one; a packet that is taken. *)
Inductive stream_event :=
  | StreamOpens
  | StreamFails
  | MessageArrives (msg : list byte)
  | PacketTaken.

(** An error in [dn] ends the stream it happens on; [onion_keepalive] opens another. *)
Definition onion_step (ev : stream_event) (s : PacketStreams) : PacketStreams :=
  match ev with
  | StreamOpens => mkStreams (S (ps_open s)) (ps_incoming s) (ps_taken s)
  | StreamFails => mkStreams (pred (ps_open s)) (ps_incoming s) (ps_taken s)
  | MessageArrives msg =>
      match ps_open s with
      | O => s
      | S n =>
          match onion_dn msg (ps_incoming s) with
          | (Ok _, incoming) => mkStreams (S n) incoming (ps_taken s)
          | (_, incoming) => mkStreams n incoming (ps_taken s)
          end
      end
  | PacketTaken =>
      match chan_try_recv (ps_incoming s) with
      | Some (pkt, incoming) => mkStreams (ps_open s) incoming (ps_taken s ++ [pkt])
      | None => s
      end
  end.

Definition onion_keepalive (evs : list stream_event) (s : PacketStreams) : PacketStreams :=
  for_each onion_step evs s.

(** The messages that [up] makes of all that is queued. *)
Fixpoint onion_up_all (fuel : nat) (outgoing : chan RawPacket) : list (list byte) :=
  match fuel with
  | O => []
  | S fuel =>
      match onion_up outgoing with
      | Some (msg, outgoing) => msg :: onion_up_all fuel outgoing
      | None => []
      end
  end.

(** * The pool of control connections *)

Section pool.
  Context {Conn E : Type}.

(** [get_conn]: pops connections until one was used less than a minute ago, and
    opens one when there is none. *)
Fixpoint get_conn (now : N) (open_conn : outcome E Conn) (conn_pool : list (Conn * N))
    : outcome E Conn * list (Conn * N) :=
  match conn_pool with
  | [] => (open_conn, [])
  | (stream, time) :: conn_pool =>
      if (now - time <? POOL_TIMEOUT)%N then (Ok stream, conn_pool)
      else get_conn now open_conn conn_pool
  end.

(** The scope guard of [call_raw]: the connection goes back with the time. *)
Definition put_conn (now : N) (conn : Conn) (conn_pool : list (Conn * N)) : list (Conn * N) :=
  conn_pool ++ [(conn, now)].

(** [call_raw]: a line is written and a line is read; the connection goes back to the
    pool whatever happens. *)
Definition link_call_raw {Req Resp} (exchange : Conn → Req → outcome E Resp * Conn)
    (now later : N) (open_conn : outcome E Conn) (req : Req) : M (list (Conn * N)) E Resp := λ pool,
  match get_conn now open_conn pool with
  | (Ok conn, pool) =>
      let '(o, conn) := exchange conn req in (o, put_conn later conn pool)
  | (Err e, pool) => (Err e, pool)
  | (Panic, pool) => (Panic, pool)
  | (OutOfFuel, pool) => (OutOfFuel, pool)
  end.

(** ** Properties of the pool *)

Definition recent (now : N) (e : Conn * N) : Prop := (now - e.2 < POOL_TIMEOUT)%N.

Lemma get_conn_spec now (open_conn : outcome E Conn) pool :
  (∃ old c t rest, pool = old ++ (c, t) :: rest ∧ Forall (λ e, ¬ recent now e) old ∧
    recent now (c, t) ∧ get_conn now open_conn pool = (Ok c, rest)) ∨
  (Forall (λ e, ¬ recent now e) pool ∧ get_conn now open_conn pool = (open_conn, [])).
Proof.
  induction pool as [|[c t] pool IH]; [by right|]. cbn [get_conn].
  destruct (now - t <? POOL_TIMEOUT)%N eqn:Hr.
  - left. exists [], c, t, pool. apply N.ltb_lt in Hr. done.
  - apply N.ltb_ge in Hr. assert (¬ recent now (c, t)) by (unfold recent; cbn; lia).
    destruct IH as [(old & c' & t' & rest & -> & Hold & Hrec & ->)|[Hall ->]].
    + left. exists ((c, t) :: old), c', t', rest. split_and!; [done|by constructor|done..].
    + right. split; [by constructor|done].
Qed.

End pool.

(** * Properties of the packet stream *)

Context {CL : ChanLaws C}.

Lemma raw_roundtrip pkt : raw_of_bytes (raw_to_bytes pkt) = Some pkt.
Proof.
  unfold raw_of_bytes, raw_to_bytes. rewrite decide_True by (rewrite length_app, !array_length; lia).
  rewrite take_app_length' by (by rewrite array_length).
  rewrite drop_app_length' by (by rewrite array_length).
  rewrite !try_into_bytes. cbn [mbind option_bind]. destruct pkt as [[o i] b]. cbn [header onion_body].
  do 2 f_equal. unfold header_of_bytes. f_equal; apply array_eq; cbn -[N.to_nat].
  - change (N.to_nat 0) with 0. rewrite drop_0. apply take_app_length'. by rewrite array_length.
  - rewrite drop_app_length' by (by rewrite array_length). apply take_ge. by rewrite array_length.
Qed.

Lemma onion_up_all_spec fuel outgoing :
  length (chan_view outgoing) ≤ fuel → onion_up_all fuel outgoing = raw_to_bytes <$> chan_view outgoing.
Proof.
  revert outgoing. induction fuel as [|fuel IH]; intros c Hl; cbn [onion_up_all].
  { by destruct (chan_view c); cbn in *; [|lia]. }
  unfold onion_up. pose proof (chan_try_recv_spec c) as Hr. destruct (chan_view c) as [|p l].
  - by rewrite Hr.
  - destruct Hr as (c' & -> & Hv & _). cbn. rewrite IH, Hv; [done|]. rewrite Hv. cbn in Hl. lia.
Qed.

Lemma onion_dn_wrong_size msg c :
  length msg ≠ 690 + N.to_nat 8192 → onion_dn msg c = (Err WrongSize, c).
Proof. intros Hm. unfold onion_dn, raw_of_bytes. by rewrite decide_False. Qed.

(** What an end of the link meets, when the peer has sent [pkts]: the message of the
    [i]-th of them arrives, or one that is no packet. *)
Inductive link_event := LOpens | LFails | LArrives (i : nat) | LGarbage (msg : list byte) | LTaken.

Definition no_packet (ev : link_event) : Prop :=
  match ev with LGarbage msg => length msg ≠ 690 + N.to_nat 8192 | _ => True end.

Definition on_wire (sent : list (list byte)) (ev : link_event) : option stream_event :=
  match ev with
  | LOpens => Some StreamOpens
  | LFails => Some StreamFails
  | LArrives i => MessageArrives <$> sent !! i
  | LGarbage msg => Some (MessageArrives msg)
  | LTaken => Some PacketTaken
  end.

(** The reference: which packets come through, by counting streams and places.  A
    packet is lost if no stream is open, and if the queue is full, when it takes
    its stream with it; so does a message that is no packet. *)
Fixpoint come_through (pkts : list RawPacket) (cap n len : nat) (evs : list link_event) : list RawPacket :=
  match evs with
  | [] => []
  | LOpens :: evs => come_through pkts cap (S n) len evs
  | LFails :: evs => come_through pkts cap (pred n) len evs
  | LGarbage _ :: evs => come_through pkts cap (pred n) len evs
  | LTaken :: evs => come_through pkts cap n (pred len) evs
  | LArrives i :: evs =>
      match pkts !! i with
      | None => come_through pkts cap n len evs
      | Some p =>
          if n =? 0 then come_through pkts cap n len evs
          else if len <? cap then p :: come_through pkts cap n (S len) evs
          else come_through pkts cap (pred n) len evs
      end
  end.

Lemma onion_dn_packet p c :
  match onion_dn (raw_to_bytes p) c with
  | (Ok _, c') => (length (chan_view c) <? N.to_nat (chan_cap c)) = true ∧
      chan_view c' = chan_view c ++ [p] ∧ chan_cap c' = chan_cap c
  | (_, c') => (length (chan_view c) <? N.to_nat (chan_cap c)) = false ∧ c' = c
  end.
Proof.
  unfold onion_dn. rewrite raw_roundtrip. pose proof (chan_try_send_spec p c) as Hs.
  destruct (chan_try_send p c) as [c'|].
  - destruct Hs as (Hl & Hv & Hc). split_and!; [apply Nat.ltb_lt; lia|done..].
  - split; [apply Nat.ltb_ge; lia|done].
Qed.

Lemma onion_keepalive_come_through pkts evs s :
  Forall no_packet evs →
  let s' := onion_keepalive (omap (on_wire (raw_to_bytes <$> pkts)) evs) s in
  ps_taken s' ++ chan_view (ps_incoming s') =
  ps_taken s ++ chan_view (ps_incoming s) ++
    come_through pkts (N.to_nat (chan_cap (ps_incoming s))) (ps_open s) (length (chan_view (ps_incoming s))) evs.
Proof.
  cbv zeta. unfold onion_keepalive. intros Hev. revert s.
  induction Hev as [|ev evs Hm Hev IH]; intros s; [by rewrite app_nil_r|].
  destruct ev as [| |i|msg|]; cbn [omap list_omap on_wire come_through for_each].
  - by rewrite IH.
  - by rewrite IH.
  - rewrite list_lookup_fmap. destruct (pkts !! i) as [p|]; cbn [fmap option_fmap option_map for_each]; [|apply IH].
    rewrite IH. cbn [onion_step]. destruct (ps_open s) as [|n] eqn:Hn; cbn [Nat.eqb pred]; [by rewrite Hn|].
    pose proof (onion_dn_packet p (ps_incoming s)) as Hd.
    destruct (onion_dn (raw_to_bytes p) (ps_incoming s)) as [[] c']; destruct Hd as [-> Hd];
      cbn [ps_open ps_incoming ps_taken]; [|by rewrite Hd..].
    destruct Hd as [-> ->]. rewrite length_app, Nat.add_1_r, <-!app_assoc. done.
  - rewrite IH. cbn [onion_step]. destruct (ps_open s) as [|n] eqn:Hn; cbn [pred]; [by rewrite Hn|].
    by rewrite onion_dn_wrong_size.
  - rewrite IH. cbn [onion_step]. pose proof (chan_try_recv_spec (ps_incoming s)) as Hr.
    destruct (chan_view (ps_incoming s)) as [|q l] eqn:Hl; [by rewrite Hr, Hl|].
    destruct Hr as (c' & -> & Hv & Hc). cbn [ps_open ps_incoming ps_taken]. rewrite Hv, Hc, <-!app_assoc. done.
Qed.

(** Messages that arrive in their order, each taken before the next, all come
    through, and so do as many as there are places if none is taken. *)
Lemma come_through_taken pkts cap n len l k :
  take (length l) (drop k pkts) = l → len < cap →
  come_through pkts cap (S n) len (seq k (length l) ≫= λ i, [LArrives i; LTaken]) = l.
Proof.
  revert k len. induction l as [|p l IH]; intros k len Hk Hc; [done|].
  cbn [length seq mbind list_bind app come_through].
  destruct (pkts !! k) as [q|] eqn:Hq; cycle 1.
  { apply lookup_ge_None in Hq. by rewrite drop_ge in Hk. }
  rewrite (drop_S _ _ _ Hq) in Hk. cbn in Hk. injection Hk as -> Hk. cbn [Nat.eqb].
  rewrite (proj2 (Nat.ltb_lt _ _)) by done. cbn [pred]. f_equal. by apply IH.
Qed.

Lemma come_through_room pkts cap n len l k :
  take (length l) (drop k pkts) = l → len + length l ≤ cap →
  come_through pkts cap (S n) len (LArrives <$> seq k (length l)) = l.
Proof.
  revert k len. induction l as [|p l IH]; intros k len Hk Hc; [done|]. cbn [length] in Hc.
  cbn [length seq fmap list_fmap come_through].
  destruct (pkts !! k) as [q|] eqn:Hq; cycle 1.
  { apply lookup_ge_None in Hq. by rewrite drop_ge in Hk. }
  rewrite (drop_S _ _ _ Hq) in Hk. cbn in Hk. injection Hk as -> Hk. cbn [Nat.eqb].
  rewrite (proj2 (Nat.ltb_lt _ _)) by lia. f_equal. apply IH; [done|lia].
Qed.

(** Nothing else comes through. *)
Lemma come_through_sent pkts cap n len evs p : p ∈ come_through pkts cap n len evs → p ∈ pkts.
Proof.
  revert n len. induction evs as [|[| |i|msg|] evs IH]; intros n len; cbn [come_through];
    [by intros ?%elem_of_nil|apply IH..| |apply IH|apply IH].
  destruct (pkts !! i) as [q|] eqn:Hq; [|apply IH]. destruct (n =? 0); [apply IH|].
  destruct (len <? cap); [|apply IH]. intros [->|Hp]%elem_of_cons; [by eapply list_elem_of_lookup_2|by eapply IH].
Qed.

(** C30 (packets over a link): one end of a link sends what it has queued, and the
    messages arrive at the other lost, repeated and out of order at will, on
    streams that fail and open at will, among messages that are no packets and
    while packets are taken from the incoming queue.  What is taken and what is
    still queued are then exactly the packets that a count of open streams
    and free places lets through, in the order of their arrival and byte for byte:
    a packet is lost if no stream is open or the queue is full, and a full queue and
    a message that is no packet each end a stream.  Over an open stream that loses
    nothing, all packets come through in order if each is taken in time or there is
    room for all, also after streams have ended; and no other packet ever does. *)
Theorem onion_stream_delivers (outgoing : chan RawPacket) s evs :
  let pkts := chan_view outgoing in
  let sent := onion_up_all (length pkts) outgoing in
  let ref := come_through pkts (N.to_nat (chan_cap (ps_incoming s))) (ps_open s)
               (length (chan_view (ps_incoming s))) in
  Forall no_packet evs →
  let s' := onion_keepalive (omap (on_wire sent) evs) s in
  ps_taken s' ++ chan_view (ps_incoming s') = ps_taken s ++ chan_view (ps_incoming s) ++ ref evs ∧
  (∀ p, p ∈ ref evs → p ∈ pkts) ∧
  (length (chan_view (ps_incoming s)) < N.to_nat (chan_cap (ps_incoming s)) →
   ref (LOpens :: (seq 0 (length pkts) ≫= λ i, [LArrives i; LTaken])) = pkts) ∧
  (length (chan_view (ps_incoming s)) + length pkts ≤ N.to_nat (chan_cap (ps_incoming s)) →
   ref (LOpens :: (LArrives <$> seq 0 (length pkts))) = pkts).
Proof.
  cbv zeta. intros Hev. rewrite onion_up_all_spec by done.
  split; [by apply onion_keepalive_come_through|]. split; [intros p; apply come_through_sent|].
  split; intros Hroom; cbn [come_through].
  - apply come_through_taken; [by rewrite drop_0, firstn_all|done].
  - apply come_through_room; [by rewrite drop_0, firstn_all|done].
Qed.

(** The pool of connections: a call uses the first pooled connection that was used in
    the last minute, discarding the older ones before it, and opens a new one
    exactly when there is none; a call that is made gives its connection back
    with the time it ended, and one that cannot open leaves the pool empty. *)
Theorem pool_reuses_recent {Conn E Req Resp} (exchange : Conn → Req → outcome E Resp * Conn)
    now later (open_conn : outcome E Conn) req pool :
  returns open_conn →
  (∃ old c t rest, pool = old ++ (c, t) :: rest ∧ Forall (λ e, ¬ recent now e) old ∧ recent now (c, t) ∧
    link_call_raw exchange now later open_conn req pool =
      ((exchange c req).1, rest ++ [((exchange c req).2, later)])) ∨
  (Forall (λ e, ¬ recent now e) pool ∧
    link_call_raw exchange now later open_conn req pool =
      match open_conn with
      | Ok c => ((exchange c req).1, [((exchange c req).2, later)])
      | Err e => (Err e, [])
      | _ => (Panic, pool)
      end).
Proof.
  intros Hopen. unfold link_call_raw.
  destruct (get_conn_spec now open_conn pool) as [(old & c & t & rest & -> & Ho & Hr & ->)|[Hall ->]].
  - left. exists old, c, t, rest. split_and!; [done..|]. by destruct (exchange c req).
  - right. split; [done|]. destruct open_conn as [c| | |]; [|done..]. by destruct (exchange c req).
Qed.

End LinkStream.

(** * Witnesses *)

Definition ls_pkt (b : byte) : RawPacket :=
  mkRawPacket (mkRawHeader (array_repeat 69 b) (zeros 621)) (array_repeat 8192 b).

(** Three packets, one place: the second arrives first; the first finds the queue
    full and ends the stream; a new one carries the first again and the third,
    after packets were taken. *)
Definition ls_events : list link_event :=
  [LOpens; LArrives 1; LArrives 0; LArrives 2; LOpens; LTaken; LArrives 0; LTaken; LArrives 2; LGarbage [x00]].

Lemma onion_stream_delivers_witness :
  let s' := onion_keepalive (omap (on_wire (onion_up_all 3 (100%N, [ls_pkt x01; ls_pkt x02; ls_pkt x03]))) ls_events)
              (mkStreams 0 (1%N, []) []) in
  ps_taken s' ++ chan_view (ps_incoming s') = [ls_pkt x02; ls_pkt x01; ls_pkt x03].
Proof.
  refine (proj1 (onion_stream_delivers (100%N, [ls_pkt x01; ls_pkt x02; ls_pkt x03])
    (mkStreams 0 (1%N, []) []) ls_events _)).
  repeat constructor. discriminate.
Defined.

Lemma pool_reuses_recent_witness :
  link_call_raw (λ (c req : N), (Ok (c + req)%N : outcome unit N, c)) 100 101 (Ok 9%N) 5%N
    [(1%N, 20%N); (2%N, 50%N); (3%N, 60%N)] = (Ok 7%N, [(3%N, 60%N); (2%N, 101%N)]).
Proof.
  destruct (pool_reuses_recent (λ (c req : N), (Ok (c + req)%N : outcome unit N, c)) 100 101 (Ok 9%N) 5%N
    [(1%N, 20%N); (2%N, 50%N); (3%N, 60%N)] I) as [(old & c & t & rest & Hp & Ho & Hr & H)|[Hall _]].
  - rewrite H. destruct old as [|[c1 t1] [|[c2 t2] old]].
    + injection Hp as <- <- <-. exfalso. exact (N.lt_irrefl 60 (N.lt_trans 60 80 60 eq_refl Hr)).
    + injection Hp as <- <- <- <- <-. reflexivity.
    + injection Hp as <- <- <- <- Hp. apply Forall_cons in Ho as [_ Ho]. apply Forall_cons in Ho as [Ho _].
      exfalso. apply Ho. reflexivity.
  - apply Forall_cons in Hall as [_ Hall]. apply Forall_cons in Hall as [Hall _].
    exfalso. apply Hall. reflexivity.
Defined.
