(* ===== verification/LinkControl.v ===== *)
(** The control connections of a link: [connection_loop], the lines of JSON that its
    control tasks serve, and the transport of [src/daemon/link_connection.rs].

    The multiplexed streams are the sosistab2 crate's: a stream is the bytes
    that have been written and not yet read.  JSON is a parameter, as in
    [GlobalRpc.v]. *)

From Stdlib Require Import String.
From stdpp Require Import strings.
From S2P Require Import Prelude Interfaces Crypto Packet OnionRouting Proxy GlobalRpc LinkStream Instances.
Close Scope string_scope.

Definition newline_byte : byte := x0a.

(** serde_json writes one line, and reads text that ends with a line break. *)
Class JsonLines (J : JsonRpc) : Prop := {
  request_one_line r : newline_byte ∉ json_of_request r;
  response_one_line r : newline_byte ∉ json_of_response r;
  response_with_newline r : json_to_response (json_of_response r ++ [newline_byte]) = Some r;
  response_line_utf8 r :
    from_utf8 (json_of_response r ++ [newline_byte]) = Some (json_of_response r ++ [newline_byte]);
  request_no_return r : last (json_of_request r) ≠ Some x0d
}.

Inductive LinkRpcError := LineUtf8 | LineJson | LineEof | CannotOpen.

Section LinkControl.
  Context {C : Chan} {J : JsonRpc}.

(** * The accepting side *)

(** What [connection_loop] does with an accepted stream, by its label. *)
Inductive LinkTask := ControlTask | OnionTask.

Definition dispatch (label : string) : option LinkTask :=
  if (label =? "n2n_control")%string then Some ControlTask
  else if (label =? "onion_packets")%string then Some OnionTask
  else None.

(** [connection_loop] on the streams it accepts: the tasks it attaches; a failure
    of [accept_conn] ([None]) ends it.  A keepalive task opens one packet
    stream of its own. *)
Fixpoint connection_loop (accepted : list (option string)) : list LinkTask * bool :=
  match accepted with
  | [] => ([], false)
  | None :: _ => ([], true)
  | Some label :: accepted =>
      let '(tasks, ended) := connection_loop accepted in (option_list (dispatch label) ++ tasks, ended)
  end.

(** [read_line]: up to and including the first line break; [None] while there is
    none. *)
Fixpoint read_line (l : list byte) : option (list byte * list byte) :=
  match l with
  | [] => None
  | b :: l =>
      if decide (b = newline_byte) then Some ([b], l)
      else '(line, rest) ← read_line l; Some (b :: line, rest)
  end.

(** [lines()]: without the line break and a carriage return before it. *)
Definition chomp (line : list byte) : list byte :=
  let line := take (pred (length line)) line in
  if decide (last line = Some x0d) then take (pred (length line)) line else line.

Definition respond_line {S E} (respond_raw : JrpcRequest → S → JrpcResponse * S) (req : JrpcRequest)
    : M S E (list byte) := λ s,
  let '(resp, s) := respond_raw req s in (Ok (json_of_response resp ++ [newline_byte]), s).

(** A line of the control task: the response, with a line break. *)
Definition control_line {S} (respond_raw : JrpcRequest → S → JrpcResponse * S) (line : list byte)
    : M S LinkRpcError (list byte) :=
  line ← lift (ok_or LineUtf8 (from_utf8 (chomp line)));
  req ← lift (ok_or LineJson (json_to_request line));
  respond_line respond_raw req.

(** The control task on the bytes it has received: the bytes it writes and what is
    left of a line; an error ends it. *)
Fixpoint control_task {S} (respond_raw : JrpcRequest → S → JrpcResponse * S) (fuel : nat)
    (inbox : list byte) : M S LinkRpcError (list byte * list byte) :=
  match fuel, read_line inbox with
  | Datatypes.S fuel, Some (line, rest) =>
      out ← control_line respond_raw line;
      '(outs, left_over) ← control_task respond_raw fuel rest;
      mret (out ++ outs, left_over)
  | _, _ => mret ([], inbox)
  end.

(** [LinkConnection::recv_raw_packet]: [None] while there is none. *)
Definition link_recv_raw_packet (recv_incoming : chan RawPacket)
    : option (RawPacket * chan RawPacket) :=
  chan_try_recv recv_incoming.

(** * The calling side *)

(** A stream as its opener sees it: the server's state behind it and the bytes of
    responses not read yet. *)
Record ControlConn {S} := mkControlConn { peer_state : S; unread : list byte }.
Arguments ControlConn : clear implicits.

(** The exchange of [call_raw]: a line is written, the other side's task serves
    it, and a line is read. *)
Definition exchange_line {S} (respond_raw : JrpcRequest → S → JrpcResponse * S)
    (conn : ControlConn S) (req : JrpcRequest) : outcome LinkRpcError JrpcResponse * ControlConn S :=
  match control_task respond_raw 1 (json_of_request req ++ [newline_byte]) (peer_state conn) with
  | (Ok (out, _), s) =>
      match read_line (unread conn ++ out) with
      | Some (b, rest) =>
          (text ← ok_or LineUtf8 (from_utf8 b); ok_or LineJson (json_to_response text),
           mkControlConn _ s rest)
      | None => (Err LineEof, mkControlConn _ s (unread conn ++ out))
      end
  | (_, s) => (Err LineEof, mkControlConn _ s (unread conn))
  end.

(** [link_rpc]: a client with a transport of its own, whose pool is empty. *)
Definition MultiplexRpcTransport_new {Conn} : list (Conn * N) := [].

Definition link_rpc_call {S} (respond_raw : JrpcRequest → S → JrpcResponse * S) (now later : N)
    (open_conn : outcome LinkRpcError (ControlConn S)) (req : JrpcRequest)
    : outcome LinkRpcError JrpcResponse * list (ControlConn S * N) :=
  link_call_raw (exchange_line respond_raw) now later open_conn req MultiplexRpcTransport_new.

(** * Properties *)

Context {JL : JsonRpcLaws J} {JLS : JsonLines J}.

Lemma read_line_app l rest :
  newline_byte ∉ l → read_line (l ++ newline_byte :: rest) = Some (l ++ [newline_byte], rest).
Proof.
  induction l as [|b l IH]; intros Hn; cbn.
  { by rewrite decide_True. }
  apply not_elem_of_cons in Hn as [Hb Hn]. rewrite decide_False by congruence. by rewrite IH.
Qed.

Lemma chomp_request r : chomp (json_of_request r ++ [newline_byte]) = json_of_request r.
Proof.
  unfold chomp. rewrite length_app. cbn. rewrite Nat.add_1_r. cbn. rewrite take_app_length.
  by rewrite decide_False by apply request_no_return.
Qed.

Lemma control_task_request {S} (respond_raw : JrpcRequest → S → JrpcResponse * S) fuel req rest s :
  control_task respond_raw (Datatypes.S fuel) (json_of_request req ++ newline_byte :: rest) s =
  let '(resp, s) := respond_raw req s in
  ('(outs, left_over) ← control_task respond_raw fuel rest;
   mret (json_of_response resp ++ [newline_byte] ++ outs, left_over)) s.
Proof.
  cbn [control_task]. rewrite read_line_app by apply request_one_line.
  unfold mbind at 1, M_bind at 1, control_line. rewrite chomp_request, request_utf8. cbn [ok_or].
  unfold mbind at 1, M_bind at 1, lift at 1. unfold mbind at 1, M_bind at 1, lift at 1.
  rewrite request_roundtrip. cbn [ok_or]. unfold respond_line. destruct (respond_raw req s) as [resp s'].
  unfold mbind, M_bind. destruct (control_task respond_raw fuel rest s') as [[[outs lo]| | |] s2]; try done.
  unfold mret, M_ret. by rewrite <-app_assoc.
Qed.

(** The requests of a peer, each answered in order. *)
Fixpoint answers {S} (respond_raw : JrpcRequest → S → JrpcResponse * S) (reqs : list JrpcRequest) (s : S)
    : list JrpcResponse * S :=
  match reqs with
  | [] => ([], s)
  | req :: reqs =>
      let '(resp, s) := respond_raw req s in
      let '(resps, s) := answers respond_raw reqs s in (resp :: resps, s)
  end.

Definition request_lines (reqs : list JrpcRequest) : list byte :=
  mjoin ((λ r, json_of_request r ++ [newline_byte]) <$> reqs).
Definition response_lines (resps : list JrpcResponse) : list byte :=
  mjoin ((λ r, json_of_response r ++ [newline_byte]) <$> resps).

Lemma control_task_serves {S} (respond_raw : JrpcRequest → S → JrpcResponse * S) reqs s :
  control_task respond_raw (length reqs) (request_lines reqs) s =
  let '(resps, s') := answers respond_raw reqs s in (Ok (response_lines resps, []), s').
Proof.
  revert s. induction reqs as [|req reqs IH]; intros s; [done|].
  unfold request_lines. cbn [fmap list_fmap mjoin list_join length]. rewrite <-app_assoc. cbn [app].
  rewrite control_task_request. cbn [answers]. destruct (respond_raw req s) as [resp s1].
  unfold mbind at 1, M_bind at 1. fold (request_lines reqs). rewrite IH.
  destruct (answers respond_raw reqs s1) as [resps s2]. unfold mret, M_ret, response_lines.
  cbn [fmap list_fmap mjoin list_join]. by rewrite <-app_assoc.
Qed.

Lemma exchange_clean {S} (respond_raw : JrpcRequest → S → JrpcResponse * S) s req :
  exchange_line respond_raw (mkControlConn _ s []) req =
  let '(resp, s') := respond_raw req s in (Ok resp, mkControlConn _ s' []).
Proof.
  unfold exchange_line. cbn [peer_state unread app].
  rewrite (control_task_request respond_raw 0 req []). destruct (respond_raw req s) as [resp s'].
  unfold mbind, M_bind. cbn [control_task mret M_ret]. unfold mret, M_ret. cbn [app].
  change (json_of_response resp ++ [newline_byte]) with (json_of_response resp ++ newline_byte :: []).
  rewrite read_line_app by apply response_one_line.
  rewrite response_line_utf8. cbn. by rewrite response_with_newline.
Qed.

(** C31 (calls on a link): the control task answers any number of requests, one line each,
    in order; a call through a new stream returns the answer that the other
    side's service gives to the request; and since every client of the link
    starts with a pool of its own, every call opens a stream. *)
Theorem link_calls_return {S} (respond_raw : JrpcRequest → S → JrpcResponse * S) reqs s now later req :
  control_task respond_raw (length reqs) (request_lines reqs) s =
    (let '(resps, s') := answers respond_raw reqs s in (Ok (response_lines resps, []), s')) ∧
  link_rpc_call respond_raw now later (Ok (mkControlConn _ s [])) req =
    (let '(resp, s') := respond_raw req s in (Ok resp, [(mkControlConn _ s' [], later)])) ∧
  link_rpc_call respond_raw now later (Err CannotOpen) req = (Err CannotOpen, []).
Proof.
  split; [apply control_task_serves|]. split; [|done].
  unfold link_rpc_call, link_call_raw, MultiplexRpcTransport_new. cbn [get_conn].
  rewrite exchange_clean. by destruct (respond_raw req s).
Qed.

(** An answer left over: on a stream with an unread response the next call
    returns that response, whatever it asked. *)
Theorem stale_response_read {S} (respond_raw : JrpcRequest → S → JrpcResponse * S) s old req :
  (exchange_line respond_raw (mkControlConn _ s (json_of_response old ++ [newline_byte])) req).1 = Ok old.
Proof.
  unfold exchange_line. cbn [peer_state unread].
  rewrite (control_task_request respond_raw 0 req []). destruct (respond_raw req s) as [resp s'].
  unfold mbind, M_bind. cbn [control_task mret M_ret]. unfold mret, M_ret.
  rewrite <-app_assoc. cbn [app]. rewrite read_line_app by apply response_one_line. cbn [fst].
  rewrite response_line_utf8. cbn. by rewrite response_with_newline.
Qed.

End LinkControl.

(** * Witnesses *)

(** The JSON of [GlobalRpc.v], which may be followed by a line break. *)
Definition lc_read (l : list byte) : option bool :=
  match l with
  | [x22; x31; x22] | [x22; x31; x22; x0a] => Some true
  | [x22; x30; x22] | [x22; x30; x22; x0a] => Some false
  | _ => None
  end.

#[local] Instance lc_json : JsonRpc := {|
  JrpcRequest := bool;
  JrpcResponse := bool;
  json_of_request := λ b, [x22; if b then x31 else x30; x22];
  json_to_request := lc_read;
  json_of_response := λ b, [x22; if b then x31 else x30; x22];
  json_to_response := lc_read
|}.

#[local] Instance lc_json_laws : JsonRpcLaws lc_json.
Proof. split; by intros []. Qed.

#[local] Instance toy_json_lines : JsonLines lc_json.
Proof.
  split.
  - intros []; cbn; set_solver.
  - intros []; cbn; set_solver.
  - by intros [].
  - by intros [].
  - by intros [].
Qed.

Lemma link_calls_return_witness :
  control_task (J:=lc_json) rpc_negate 2 (request_lines (J:=lc_json) [true; false]) 4%N =
    (Ok (response_lines (J:=lc_json) [false; true], []), 6%N) ∧
  link_rpc_call (J:=lc_json) rpc_negate 10 11 (Ok (mkControlConn _ 4%N [])) true =
    (Ok false, [(mkControlConn _ 5%N [], 11%N)]).
Proof.
  destruct (link_calls_return (J:=lc_json) rpc_negate [true; false] 4%N 10 11 true) as (H1 & H2 & _).
  exact (conj H1 H2).
Defined.
