(* ===== verification/UdpForward.v ===== *)
(** Forwarding UDP through the network: [src/daemon/udp_forward.rs] at the client and
    [udp_forward] of [src/haven_util.rs] at the haven.

    Both sides keep a table from the source of a message to a socket of its own,
    with a task that sends what comes back on that socket to that source.  Sockets
    are handles; an entry that the cache has dropped stops its task at some later
    time, which [sweep] does.  An error of the operating system or of the network
    socket ends the loop of a side; it is started again with an empty table
    ([restart]). *)

From S2P Require Import Prelude Interfaces Crypto Packet Topology Daemon Proxy Config Instances.

Definition UDP_IDLE : N := 60 * 60.
Definition UDP_BUFFER : nat := N.to_nat 10000.

#[export] Instance IpAddr_eq_dec : EqDecision IpAddr.
Proof. solve_decision. Defined.
#[export] Instance SocketAddr_eq_dec : EqDecision SocketAddr.
Proof. solve_decision. Defined.

#[export] Program Instance IpAddr_countable : Countable IpAddr :=
  inj_countable' (λ a, match a with V4 a => inl a | V6 a => inr a end)
    (λ s, match s with inl a => V4 a | inr a => V6 a end) _.
Next Obligation. by intros []. Qed.
#[export] Program Instance SocketAddr_countable : Countable SocketAddr :=
  inj_countable' (λ a, (ip a, port a)) (λ p, mkSocketAddr p.1 p.2) _.
Next Obligation. by intros []. Qed.

(** Events in the order of their times, from [now] until [t]. *)
Fixpoint in_time {E} (time : E → N) (now t : N) (evs : list E) : Prop :=
  match evs with
  | [] => (now <= t)%N
  | ev :: evs => (now <= time ev)%N ∧ in_time time (time ev) t evs
  end.

Lemma in_time_le {E} (time : E → N) now t evs : in_time time now t evs → (now <= t)%N.
Proof.
  revert now. induction evs as [|ev evs IH]; intros now; [done|]. cbn. intros [H1 H2%IH]. lia.
Qed.

Lemma in_time_at {E} (time : E → N) now at_ t l evs :
  Forall (λ ev, time ev = at_) l → (now <= at_)%N → in_time time at_ t evs → in_time time now t (l ++ evs).
Proof.
  intros Hl. revert now. induction Hl as [|ev l Hev Hl IH]; intros now Hle Ht; cbn.
  - destruct evs as [|ev evs]; cbn in *; [lia|]. destruct Ht as [Ht1 Ht2]. split; [lia|done].
  - rewrite Hev. split; [done|]. by apply IH.
Qed.

Inductive UdpError := UdpRecvFailed | UdpBindFailed | UdpSendFailed.

Section UdpForward.
  Context {MK : Moka}.

(** * The table of either side *)

Section demux.
  Context {K : Type} `{Countable K}.

Record Demux := mkDemux {
  dmux_table : moka K N;
  down_tasks : gmap N K;
  next_socket : N
}.

Definition demux_new : Demux := mkDemux (moka_new None (Some UDP_IDLE)) ∅ 0.

(** The socket of a source, whose time in the table starts again; a new one starts
    its down task. *)
Definition demux_get (now : N) (src : K) (self : Demux) : N * Demux :=
  match moka_get_idle now src (dmux_table self) with
  | (Some h, table) => (h, mkDemux table (down_tasks self) (next_socket self))
  | (None, table) =>
      let h := next_socket self in
      (h, mkDemux (moka_insert now src h table) (<[h := src]> (down_tasks self)) (h + 1))
  end.

(** The tasks of the entries that the cache no longer has are stopped. *)
Definition sweep (now : N) (self : Demux) : Demux :=
  mkDemux (dmux_table self)
    (filter (λ e, moka_get now e.2 (dmux_table self) = Some e.1) (down_tasks self)) (next_socket self).

(** The loop has ended with an error and is started again: the table is dropped and
    every task with it.  Sockets made later are other sockets. *)
Definition restart (self : Demux) : Demux :=
  mkDemux (moka_new None (Some UDP_IDLE)) ∅ (next_socket self).

(** ** Invariant *)

(** No two sources have the same socket, and a socket's task serves its source. *)
Record demux_wf (self : Demux) : Prop := {
  dw_table k h : moka_holds k h (dmux_table self) → (h < next_socket self)%N;
  dw_tasks h k : down_tasks self !! h = Some k → (h < next_socket self)%N;
  dw_owner k h k' : moka_holds k h (dmux_table self) → down_tasks self !! h = Some k' → k' = k;
  dw_inj k k' h : moka_holds k h (dmux_table self) → moka_holds k' h (dmux_table self) → k' = k;
  dw_unbounded : moka_unbounded UDP_IDLE (dmux_table self)
}.

(** What happens to a table, each at its time. *)
Inductive demux_event := DGet (now : N) (k : K) | DSweep (now : N) | DRestart (now : N).

Definition event_time (ev : demux_event) : N :=
  match ev with DGet now _ => now | DSweep now => now | DRestart now => now end.

Definition goes_on (ev : demux_event) : Prop := match ev with DRestart _ => False | _ => True end.

Definition demux_apply (ev : demux_event) (self : Demux) : Demux :=
  match ev with
  | DGet now k => (demux_get now k self).2
  | DSweep now => sweep now self
  | DRestart _ => restart self
  end.

Definition demux_run (evs : list demux_event) (self : Demux) : Demux := for_each demux_apply evs self.

Context {MKL : MokaLaws MK}.

Lemma restart_wf self : demux_wf (restart self).
Proof.
  split; cbn; [by intros k h Hh%moka_new_holds|done|by intros k h k' Hh%moka_new_holds|
    by intros k k' h Hh%moka_new_holds|apply moka_new_unbounded].
Qed.

Lemma demux_new_wf : demux_wf demux_new.
Proof. exact (restart_wf demux_new). Qed.

(** What a lookup returns is in the table from then on. *)
Lemma demux_get_spec now k self :
  demux_get now k self =
  match moka_get now k (dmux_table self) with
  | Some h => (h, mkDemux (moka_insert now k h (dmux_table self)) (down_tasks self) (next_socket self))
  | None => (next_socket self, mkDemux (moka_insert now k (next_socket self) (dmux_table self))
              (<[next_socket self := k]> (down_tasks self)) (next_socket self + 1))
  end.
Proof. unfold demux_get, moka_get_idle. by destruct (moka_get now k _). Qed.

Lemma demux_apply_wf ev self : demux_wf self → demux_wf (demux_apply ev self).
Proof.
  intros [H1 H2 H3 H4 H5]. destruct ev as [now k|now|now]; cbn; [| |apply restart_wf].
  - rewrite demux_get_spec. destruct (moka_get now k _) as [h|] eqn:Hg; cbn.
    + apply moka_get_holds in Hg.
      assert (∀ k' h', moka_holds k' h' (moka_insert now k h (dmux_table self)) →
        moka_holds k' h' (dmux_table self)) as Hsub.
      { intros k' h' Hh%moka_insert_holds. case_decide; by subst. }
      split; cbn; [eauto..|by apply moka_insert_unbounded].
    + split; cbn.
      * intros k' h' Hh%moka_insert_holds. case_decide; [subst; lia|]. apply H1 in Hh. lia.
      * intros h' k'. rewrite lookup_insert. case_decide; [lia|]. intros Hh%H2. lia.
      * intros k' h' k2 Hh%moka_insert_holds. rewrite lookup_insert. case_decide as Hk; subst.
        -- case_decide; congruence.
        -- case_decide; [apply H1 in Hh; lia|eauto].
      * intros k1 k2 h Ha%moka_insert_holds Hb%moka_insert_holds.
        destruct (decide (k = k1)) as [<-|], (decide (k = k2)) as [<-|];
          [done|apply H1 in Hb; lia|apply H1 in Ha; lia|eauto].
      * by apply moka_insert_unbounded.
  - split; cbn; [done|..|done|done].
    + intros h k [Hh _]%map_lookup_filter_Some. eauto.
    + intros k h k' Hk [Hh _]%map_lookup_filter_Some. eauto.
Qed.

Lemma demux_run_wf evs self : demux_wf self → demux_wf (demux_run evs self).
Proof.
  revert self. induction evs as [|ev evs IH]; intros self Hwf; [done|]. by apply IH, demux_apply_wf.
Qed.

(** A socket, once given to a source, belongs to it for ever. *)
Definition owned (h : N) (k : K) (self : Demux) : Prop :=
  (h < next_socket self)%N ∧ ∀ k', down_tasks self !! h = Some k' → k' = k.

Lemma owned_run evs h k self : owned h k self → owned h k (demux_run evs self).
Proof.
  revert self. induction evs as [|ev evs IH]; intros self (H1 & H2); [done|]. cbn. apply IH.
  destruct ev as [now k1|now|now]; cbn.
  - rewrite demux_get_spec. destruct (moka_get now k1 _) as [h'|]; [done|]. cbn. split; cbn; [lia|].
    intros k'. rewrite lookup_insert_ne by lia. apply H2.
  - split; cbn; [done|]. intros k' [Hh _]%map_lookup_filter_Some. by apply H2.
  - by split.
Qed.

(** A socket whose task is gone never gets another. *)
Definition lost (h : N) (self : Demux) : Prop := (h < next_socket self)%N ∧ down_tasks self !! h = None.

Lemma lost_run evs h self : lost h self → lost h (demux_run evs self).
Proof.
  revert self. induction evs as [|ev evs IH]; intros self (H1 & H2); [done|]. cbn. apply IH.
  destruct ev as [now k1|now|now]; cbn.
  - rewrite demux_get_spec. destruct (moka_get now k1 _) as [h'|]; [done|]. cbn. split; cbn; [lia|].
    by rewrite lookup_insert_ne by lia.
  - split; cbn; [done|]. apply map_lookup_filter_None. by left.
  - by split.
Qed.

Lemma demux_get_owned now k self :
  demux_wf self → owned (demux_get now k self).1 k (demux_get now k self).2.
Proof.
  intros [H1 H2 H3 H4 H5]. rewrite demux_get_spec. destruct (moka_get now k _) as [h|] eqn:Hg; cbn.
  - apply moka_get_holds in Hg. split; [by eapply H1|]. intros k'. by apply H3.
  - split; cbn; [lia|]. rewrite lookup_insert_eq. congruence.
Qed.

(** Every entry that is still in the table has its task. *)
Definition served (now : N) (self : Demux) : Prop :=
  ∀ k h t, (now <= t)%N → moka_get t k (dmux_table self) = Some h → down_tasks self !! h = Some k.

Lemma served_apply ev now self :
  demux_wf self → served now self → (now <= event_time ev)%N →
  served (event_time ev) (demux_apply ev self).
Proof.
  intros Hwf Hs Hle k h t Ht. destruct ev as [now' k'|now'|now']; cbn in *;
    [| |by intros Hh%moka_get_holds%moka_new_holds].
  - rewrite demux_get_spec. destruct (decide (k' = k)) as [->|Hne].
    + destruct (moka_get now' k _) as [h'|] eqn:Hg; cbn; intros Hl%moka_get_holds%moka_insert_holds;
        rewrite decide_True in Hl by done; subst h; [by eapply Hs|apply lookup_insert_eq].
    + destruct (moka_get now' k' _) as [h'|] eqn:Hg; cbn;
        rewrite (moka_insert_other UDP_IDLE) by (done || apply Hwf); intros Hl; [eapply Hs; [|done]; lia|].
      rewrite lookup_insert_ne; [eapply Hs; [|done]; lia|].
      apply moka_get_holds, Hwf in Hl. lia.
  - intros Hl. apply map_lookup_filter_Some. split; [eapply Hs; [|done]; lia|]. cbn.
    eapply moka_get_earlier; [apply Hwf|done|done].
Qed.

Lemma served_run evs now t self :
  demux_wf self → served now self → in_time event_time now t evs → served t (demux_run evs self).
Proof.
  revert now self. induction evs as [|ev evs IH]; intros now self Hwf Hs; cbn [in_time].
  - intros Hle k h t' Ht'. apply Hs. lia.
  - intros [Hle Hev]. apply (IH (event_time ev)); [by apply demux_apply_wf|by eapply served_apply|done].
Qed.

Lemma demux_new_served now : served now demux_new.
Proof. intros k h t _ Hh%moka_get_holds. by apply moka_new_holds in Hh. Qed.

(** A conversation that the cache keeps from [now] until [t]. *)
Definition kept (now t h : N) (k : K) (self : Demux) : Prop :=
  down_tasks self !! h = Some k ∧
  ∀ t', (now <= t')%N → (t' <= t)%N → moka_get t' k (dmux_table self) = Some h.

Lemma kept_apply ev now t h k self :
  demux_wf self → goes_on ev → kept now t h k self → (now <= event_time ev)%N → (event_time ev <= t)%N →
  (t < now + UDP_IDLE)%N → kept (event_time ev) t h k (demux_apply ev self).
Proof.
  intros Hwf Hgo [Hd Hg] Hlo Hhi Ht. destruct ev as [now' k'|now'|now']; cbn in *; [| |done].
  - rewrite demux_get_spec. destruct (decide (k' = k)) as [->|Hne].
    + rewrite Hg by lia. split; [done|]. cbn. intros t' ??.
      eapply moka_insert_live; [apply Hwf|lia..].
    + split.
      * destruct (moka_get now' k' _) as [h'|]; [done|]. cbn.
        rewrite lookup_insert_ne; [done|]. apply (dw_tasks _ Hwf) in Hd. lia.
      * intros t' ??. destruct (moka_get now' k' _) as [h'|]; cbn;
          (rewrite (moka_insert_other UDP_IDLE); [apply Hg; lia|apply Hwf|done|lia]).
  - split; cbn; [apply map_lookup_filter_Some; split; [done|]; cbn|intros t' ??]; apply Hg; lia.
Qed.

Lemma kept_run evs now t h k self :
  demux_wf self → Forall goes_on evs → kept now t h k self → (t < now + UDP_IDLE)%N →
  in_time event_time now t evs →
  down_tasks (demux_run evs self) !! h = Some k.
Proof.
  revert now self. induction evs as [|ev evs IH]; intros now self Hwf Hgo Hk Ht; [intros _; apply Hk|].
  apply Forall_cons in Hgo as [Hg Hgo]. cbn [in_time]. intros [Hle Hev]. pose proof (in_time_le _ _ _ _ Hev).
  apply (IH (event_time ev)); [by apply demux_apply_wf|done|by eapply kept_apply|lia|done].
Qed.

Lemma demux_get_kept now t k self :
  demux_wf self → served now self → (t < now + UDP_IDLE)%N →
  kept now t (demux_get now k self).1 k (demux_get now k self).2.
Proof.
  intros Hwf Hs Ht. rewrite demux_get_spec.
  destruct (moka_get now k _) as [h|] eqn:Hg; (split; cbn;
    [|intros t' ??; eapply moka_insert_live; [apply Hwf|done|lia]]).
  - by eapply Hs.
  - apply lookup_insert_eq.
Qed.

(** ** The loop of a side *)

(** A message comes in ([None]: receiving fails) from a source; [bound] and [sent]
    say whether making a socket and sending on it succeed, if they are tried. *)
Inductive up_event :=
  | UpMessage (now : N) (received : option (list byte * K)) (bound sent : bool)
  | CacheDrops (now : N).

Definition up_time (ev : up_event) : N :=
  match ev with UpMessage now _ _ _ => now | CacheDrops now => now end.

(** Nothing fails. *)
Definition no_failure (ev : up_event) : Prop :=
  match ev with UpMessage _ received bound sent => received ≠ None ∧ bound = true ∧ sent = true | _ => True end.

(** Receiving or sending fails. *)
Definition io_failure (ev : up_event) : Prop :=
  match ev with UpMessage _ received _ sent => received = None ∨ sent = false | _ => False end.

(** [Immortal::respawn] of the loop with the given body. *)
Definition up_loop_apply {A} (body : N → option (list byte * K) → bool → bool → M Demux UdpError A)
    (ev : up_event) (self : Demux) : Demux :=
  match ev with
  | UpMessage now received bound sent =>
      match body now received bound sent self with
      | (Ok _, self) => self
      | (_, self) => restart self
      end
  | CacheDrops now => sweep now self
  end.

(** The body of a loop works on the table as [demux_get] does, and restarts the loop
    if receiving or sending fails. *)
Definition demux_body {A} (body : N → option (list byte * K) → bool → bool → M Demux UdpError A) : Prop :=
  ∀ now received bound sent self, ∃ devs,
    up_loop_apply body (UpMessage now received bound sent) self = demux_run devs self ∧
    Forall (λ d, event_time d = now) devs ∧
    (no_failure (UpMessage now received bound sent) → Forall goes_on devs) ∧
    (io_failure (UpMessage now received bound sent) → ∃ devs', devs = devs' ++ [DRestart now]).

Lemma up_apply_demux {A} (body : _ → _ → _ → _ → M Demux UdpError A) ev self :
  demux_body body →
  ∃ devs, up_loop_apply body ev self = demux_run devs self ∧
    Forall (λ d, event_time d = up_time ev) devs ∧ (no_failure ev → Forall goes_on devs) ∧
    (io_failure ev → ∃ devs', devs = devs' ++ [DRestart (up_time ev)]).
Proof.
  intros Hb. destruct ev as [now received bound sent|now]; [apply Hb|].
  exists [DSweep now]. split_and!; [done|by constructor|by repeat constructor|done].
Qed.

(** A run of the loop is a run of its table. *)
Lemma up_run_demux {A} (body : _ → _ → _ → _ → M Demux UdpError A) evs self :
  demux_body body →
  ∃ devs, for_each (up_loop_apply body) evs self = demux_run devs self ∧
    (∀ now t, in_time up_time now t evs → in_time event_time now t devs) ∧
    (Forall no_failure evs → Forall goes_on devs).
Proof.
  intros Hb. revert self. induction evs as [|ev evs IH]; intros self; [by exists []|].
  destruct (up_apply_demux body ev self Hb) as (devs1 & H1 & Ht1 & Hc1 & _).
  cbn [for_each]. rewrite H1. destruct (IH (demux_run devs1 self)) as (devs & H2 & Ht2 & Hc2).
  exists (devs1 ++ devs). split_and!.
  - rewrite H2. unfold demux_run. by rewrite for_each_app.
  - intros now t [Hle Hin]. eapply in_time_at; [exact Ht1|done|by apply Ht2].
  - intros [Hc Hcs]%Forall_cons. apply Forall_app. by split; [apply Hc1|apply Hc2].
Qed.

(** After a failure to receive or to send no task of before is left. *)
Lemma up_run_lost {A} (body : _ → _ → _ → _ → M Demux UdpError A) h k evs self :
  demux_body body → owned h k self → Exists io_failure evs →
  down_tasks (for_each (up_loop_apply body) evs self) !! h = None.
Proof.
  intros Hb Ho (ev & Hin & Hf)%Exists_exists.
  apply list_elem_of_split in Hin as (evs1 & evs2 & ->). rewrite for_each_app. cbn [for_each].
  destruct (up_run_demux body evs1 self Hb) as (d1 & -> & _).
  destruct (up_apply_demux body ev (demux_run d1 self) Hb) as (d2 & -> & _ & _ & Hr).
  destruct (Hr Hf) as [d3 ->].
  set (self' := demux_run (d3 ++ [DRestart (up_time ev)]) (demux_run d1 self)).
  destruct (up_run_demux body evs2 self' Hb) as (d4 & -> & _).
  apply (lost_run d4 h). unfold self', demux_run. rewrite for_each_app. split; [|done].
  exact (proj1 (owned_run d3 h k _ (owned_run d1 h k _ Ho))).
Qed.

End demux.

(** * The client *)

(** A datagram, cut at the length of the buffer, goes out on the socket of the
    address it came from. *)
Definition udp_forward_up (now : N) (cfg : UdpForwardConfig) (received : option (list byte * SocketAddr))
    (sent : bool) : M (Demux (K:=SocketAddr)) UdpError (N * list byte * Endpoint) := λ self,
  match received with
  | None => (Err UdpRecvFailed, self)
  | Some (datagram, src) =>
      let msg := take UDP_BUFFER datagram in
      let '(h, self) := demux_get now src self in
      (if sent then Ok (h, msg, udp_remote cfg) else Err UdpSendFailed, self)
  end.

(** [down_loop]: a message on a socket goes to the address it was made for.  If
    sending fails the message is lost; the task is started again. *)
Definition udp_forward_down (h : N) (msg : list byte) (self : Demux (K:=SocketAddr))
    : option (list byte * SocketAddr) :=
  udp_dest ← down_tasks self !! h;
  Some (msg, udp_dest).

(** Making a socket of the network cannot fail. *)
Definition udp_forward_loop (cfg : UdpForwardConfig) (evs : list (up_event (K:=SocketAddr)))
    (self : Demux (K:=SocketAddr)) : Demux (K:=SocketAddr) :=
  for_each (up_loop_apply (λ now received _ sent, udp_forward_up now cfg received sent)) evs self.

(** * The haven *)

Definition haven_udp_up (now : N) (upstream : SocketAddr) (received : option (list byte * Endpoint))
    (bound sent : bool) : M (Demux (K:=Endpoint)) UdpError (N * list byte * SocketAddr) := λ self,
  match received with
  | None => (Err UdpRecvFailed, self)
  | Some (message, src_endpoint) =>
      let send h := if sent then Ok (h, message, upstream) else Err UdpSendFailed in
      match moka_get_idle now src_endpoint (dmux_table self) with
      | (Some h, table) => (send h, mkDemux table (down_tasks self) (next_socket self))
      | (None, table) =>
          if bound then
            let h := next_socket self in
            (send h, mkDemux (moka_insert now src_endpoint h table)
                       (<[h := src_endpoint]> (down_tasks self)) (h + 1))
          else (Err UdpBindFailed, mkDemux table (down_tasks self) (next_socket self))
      end
  end.

Definition haven_udp_down (h : N) (datagram : list byte) (self : Demux (K:=Endpoint))
    : option (list byte * Endpoint) :=
  earendil_dest ← down_tasks self !! h;
  Some (take UDP_BUFFER datagram, earendil_dest).

Definition haven_udp_loop (upstream : SocketAddr) (evs : list (up_event (K:=Endpoint)))
    (self : Demux (K:=Endpoint)) : Demux (K:=Endpoint) :=
  for_each (up_loop_apply (λ now received bound sent, haven_udp_up now upstream received bound sent)) evs self.

(** * Properties *)

Context {MKL : MokaLaws MK}.

(** A table after a run, at a lookup. *)
Lemma side_run {K} `{Countable K} (devs : list (demux_event (K:=K))) k now t :
  in_time event_time 0 now devs →
  let r := demux_get now k (demux_run devs demux_new) in
  demux_wf r.2 ∧ owned r.1 k r.2 ∧ ((t < now + UDP_IDLE)%N → kept now t r.1 k r.2).
Proof.
  intros Hin r. pose proof (demux_run_wf devs _ demux_new_wf) as Hwf.
  split_and!; [exact (demux_apply_wf (DGet now k) _ Hwf)|by apply demux_get_owned|].
  apply demux_get_kept; [done|]. by apply (served_run _ 0 now), Hin; [apply demux_new_wf|apply demux_new_served].
Qed.

Lemma udp_forward_body cfg : demux_body (λ now received _ sent, udp_forward_up now cfg received sent).
Proof.
  intros now [[datagram src]|] bound sent self; unfold up_loop_apply, udp_forward_up.
  - destruct (demux_get now src self) as [h self'] eqn:Hg. destruct sent.
    + exists [DGet now src]. cbn. rewrite Hg. split_and!; [done|by constructor|by repeat constructor|by intros [|]].
    + exists [DGet now src; DRestart now]. cbn. rewrite Hg.
      split_and!; [done|by repeat constructor|by intros (_ & _ & ?)|by exists [DGet now src]].
  - exists [DRestart now]. split_and!; [done|by constructor|by intros [? _]|by exists []].
Qed.

Lemma udp_forward_up_get now cfg datagram src self :
  udp_forward_up now cfg (Some (datagram, src)) true self =
  (Ok ((demux_get now src self).1, take UDP_BUFFER datagram, udp_remote cfg), (demux_get now src self).2).
Proof. unfold udp_forward_up. by destruct (demux_get now src self). Qed.

(** Looking up and inserting is what [get_with] does. *)
Lemma haven_udp_up_get now upstream message ep bound sent self :
  bound = true ∨ moka_get now ep (dmux_table self) ≠ None →
  haven_udp_up now upstream (Some (message, ep)) bound sent self =
  (if sent then Ok ((demux_get now ep self).1, message, upstream) else Err UdpSendFailed,
   (demux_get now ep self).2).
Proof.
  unfold haven_udp_up, demux_get, moka_get_idle. destruct (moka_get now ep _); [by destruct sent|].
  intros [->|?]; [|done]. by destruct sent.
Qed.

Lemma haven_udp_body upstream :
  demux_body (λ now received bound sent, haven_udp_up now upstream received bound sent).
Proof.
  intros now [[message ep]|] bound sent self; unfold up_loop_apply; cycle 1.
  { exists [DRestart now]. split_and!; [done|by constructor|by intros [? _]|by exists []]. }
  destruct (decide (bound = true ∨ moka_get now ep (dmux_table self) ≠ None)) as [Hb|Hb].
  - rewrite haven_udp_up_get by done. destruct sent.
    + exists [DGet now ep]. split_and!; [done|by constructor|by repeat constructor|by intros [|]].
    + exists [DGet now ep; DRestart now].
      split_and!; [done|by repeat constructor|by intros (_ & _ & ?)|by exists [DGet now ep]].
  - assert (bound = false ∧ moka_get now ep (dmux_table self) = None) as [-> Hn].
    { destruct bound; [by destruct Hb; left|]. split; [done|].
      destruct (moka_get now ep (dmux_table self)); [by destruct Hb; right|done]. }
    exists [DRestart now]. unfold haven_udp_up, moka_get_idle. rewrite Hn.
    split_and!; [done|by constructor|by intros (_ & ? & _)|by exists []].
Qed.

(** C28 (the way back of UDP): a datagram of a program at [src], its first or a later
    one, that the client can send leaves it on a socket of the program's own,
    with endpoint [ep], and the haven passes it upstream on a socket of that
    endpoint's own.  For an hour after the last datagram, whatever others send
    and the caches drop in between, an answer on the haven's socket is sent to
    [ep], and what arrives at [ep]'s socket is sent to [src], if neither side
    meets an error of its sockets in between; one failure to receive or to send
    at the client, of whatever program, ends the way back for good.  At no time
    and after no failure do those sockets lead to any other program or endpoint. *)
Theorem udp_return_path cfg upstream src ep datagram answer now t cl_evs cl_evs' sv_evs sv_evs' :
  in_time up_time 0 now cl_evs → in_time up_time 0 now sv_evs →
  let msg := take UDP_BUFFER datagram in
  let ans := take UDP_BUFFER answer in
  ∃ h u cl sv,
    udp_forward_up now cfg (Some (datagram, src)) true (udp_forward_loop cfg cl_evs demux_new) =
      (Ok (h, msg, udp_remote cfg), cl) ∧
    haven_udp_up now upstream (Some (msg, ep)) true true (haven_udp_loop upstream sv_evs demux_new) =
      (Ok (u, msg, upstream), sv) ∧
    let cl' := udp_forward_loop cfg cl_evs' cl in
    let sv' := haven_udp_loop upstream sv_evs' sv in
    ((t < now + UDP_IDLE)%N → in_time up_time now t cl_evs' → in_time up_time now t sv_evs' →
     Forall no_failure cl_evs' → Forall no_failure sv_evs' →
     haven_udp_down u answer sv' = Some (ans, ep) ∧ udp_forward_down h ans cl' = Some (ans, src)) ∧
    (Exists io_failure cl_evs' → ∀ m, udp_forward_down h m cl' = None) ∧
    (∀ m m' s, udp_forward_down h m cl' = Some (m', s) → s = src) ∧
    (∀ m m' e, haven_udp_down u m sv' = Some (m', e) → e = ep).
Proof.
  intros Hc Hs msg ans. unfold udp_forward_loop, haven_udp_loop.
  destruct (up_run_demux _ cl_evs demux_new (udp_forward_body cfg)) as (dc & -> & Htc & _).
  destruct (up_run_demux _ sv_evs demux_new (haven_udp_body upstream)) as (ds & -> & Hts & _).
  destruct (side_run dc src now t (Htc _ _ Hc)) as (Hwc & Hoc & Hkc).
  destruct (side_run ds ep now t (Hts _ _ Hs)) as (Hws & Hos & Hks).
  rewrite haven_udp_up_get, udp_forward_up_get by (by left).
  destruct (demux_get now src _) as [h cl1], (demux_get now ep _) as [u sv1]. cbn [fst snd] in *.
  exists h, u, cl1, sv1. split; [done|]. split; [done|]. cbv zeta.
  split; [|split; [intros Hf m|]].
  2:{ unfold udp_forward_down. by rewrite (up_run_lost _ h src cl_evs' cl1 (udp_forward_body cfg) Hoc Hf). }
  - destruct (up_run_demux _ cl_evs' cl1 (udp_forward_body cfg)) as (dc' & -> & Htc' & Hgc).
    destruct (up_run_demux _ sv_evs' sv1 (haven_udp_body upstream)) as (ds' & -> & Hts' & Hgs).
    intros Ht Hec%Htc' Hes%Hts' Hnc%Hgc Hns%Hgs. unfold udp_forward_down, haven_udp_down.
    rewrite (kept_run ds' now t u ep sv1 Hws Hns (Hks Ht) Ht Hes).
    by rewrite (kept_run dc' now t h src cl1 Hwc Hnc (Hkc Ht) Ht Hec).
  - destruct (up_run_demux _ cl_evs' cl1 (udp_forward_body cfg)) as (dc' & -> & _).
    destruct (up_run_demux _ sv_evs' sv1 (haven_udp_body upstream)) as (ds' & -> & _).
    pose proof (owned_run dc' _ _ _ Hoc) as [_ Hoc']. pose proof (owned_run ds' _ _ _ Hos) as [_ Hos'].
    unfold udp_forward_down, haven_udp_down.
    split; intros m m' x Hx; [destruct (down_tasks _ !! h) eqn:E|destruct (down_tasks _ !! u) eqn:E]; try done;
      injection Hx as <- <-; eauto.
Qed.

End UdpForward.

(** * Witnesses *)

Definition uf_addr (n : N) : SocketAddr := mkSocketAddr (V4 (array_repeat 4 x7f)) n.
Definition uf_ep (b : byte) : Endpoint := Endpoint_new (array_repeat 20 b) 9%N.
Definition uf_cfg : UdpForwardConfig := mkUdpForward (uf_addr 53) (uf_ep x05).

Definition uf_get {K} (now : N) (k : K) : up_event (K:=K) := UpMessage now (Some ([x78], k)) true true.
(** Before: others talk, a send fails, the program talks.  After: others talk and
    the caches are swept. *)
Definition uf_cl : list (up_event (K:=SocketAddr)) :=
  [uf_get 50 (uf_addr 7); UpMessage 55 (Some ([x78], uf_addr 9)) true false; uf_get 60 (uf_addr 1000)].
Definition uf_cl' : list (up_event (K:=SocketAddr)) := [CacheDrops 5000; uf_get 6100 (uf_addr 8)].
Definition uf_sv : list (up_event (K:=Endpoint)) :=
  [UpMessage 40 (Some ([x78], uf_ep x03)) false true; uf_get 61 (uf_ep x01)].
Definition uf_sv' : list (up_event (K:=Endpoint)) := [uf_get 3020 (uf_ep x02); CacheDrops 6000].

(** The answer comes more than an hour after the first datagram. *)
Lemma udp_return_path_witness :
  ∃ h u cl sv,
    udp_forward_up 3000 uf_cfg (Some ([x71], uf_addr 1000)) true (udp_forward_loop uf_cfg uf_cl demux_new) =
      (Ok (h, [x71], uf_ep x05), cl) ∧
    haven_udp_up 3000 (uf_addr 53) (Some ([x71], uf_ep x01)) true true
      (haven_udp_loop (uf_addr 53) uf_sv demux_new) = (Ok (u, [x71], uf_addr 53), sv) ∧
    haven_udp_down u [x61] (haven_udp_loop (uf_addr 53) uf_sv' sv) = Some ([x61], uf_ep x01) ∧
    udp_forward_down h [x61] (udp_forward_loop uf_cfg uf_cl' cl) = Some ([x61], uf_addr 1000).
Proof.
  destruct (udp_return_path uf_cfg (uf_addr 53) (uf_addr 1000) (uf_ep x01) [x71] [x61] 3000 6500
    uf_cl uf_cl' uf_sv uf_sv' ltac:(cbn; lia) ltac:(cbn; lia)) as (h & u & cl & sv & H1 & H2 & H3 & _).
  exists h, u, cl, sv. split; [exact H1|]. split; [exact H2|]. apply H3.
  - reflexivity.
  - cbn. lia.
  - cbn. lia.
  - repeat constructor; discriminate.
  - repeat constructor; discriminate.
Defined.
