(* ===== verification/Utilities.v ===== *)
(** The tools beside the daemon: [utilities/udp-spammer], [utilities/streamer] and the
    benchmarks of [libraries/earendil_packet].

    What a socket delivers, whether the system accepts a datagram and how a
    stream splits its bytes are arguments.  Rates and speeds, which are floating
    point and only printed or timed, are left out. *)

From Stdlib Require Import String.
From S2P Require Import Prelude Interfaces Crypto Packet Instances OnionRouting UnitTests.
From S2P Require Import Daemon Proxy Config GlobalRpc.
Close Scope string_scope.

(** * utilities/udp-spammer *)

Module UdpSpammer.
Section UdpSpammer.
  Context (big_endian : bool).

Definition to_ne_bytes (n : N) : list byte := if big_endian then be_bytes 8 n else le_bytes 8 n.
Definition from_ne_bytes (l : list byte) : N := if big_endian then from_be l else from_le l.

Definition PACKET : nat := N.to_nat 1000.

Inductive SpamError := RateMustBePositive | CannotBindUdp | RecvFailed.

(** The task that sends: its counter and its packet. *)
Record UpTask := mkUpTask { send_counter : N; up_packet : list byte }.

Definition up_start : UpTask := mkUpTask 0 (replicate PACKET x00).

(** A round: a packet that the system refuses is tried again with the same
    number. *)
Definition up_round (accepted : bool) (self : UpTask) : option (list byte) * UpTask :=
  let packet := to_ne_bytes (send_counter self) ++ drop 8 (up_packet self) in
  if accepted then (Some packet, mkUpTask (u64_succ (send_counter self)) packet)
  else (None, mkUpTask (send_counter self) packet).

Fixpoint up_loop (rounds : list bool) (self : UpTask) : list (list byte) * UpTask :=
  match rounds with
  | [] => ([], self)
  | accepted :: rounds =>
      let '(out, self) := up_round accepted self in
      let '(sent, self) := up_loop rounds self in (option_list out ++ sent, self)
  end.

(** [recv_from(&mut buf)]: the length of the datagram, cut at the buffer, whose rest
    keeps what it held. *)
Definition recv_into (datagram buf : list byte) : nat * list byte :=
  let got := take (length buf) datagram in (length got, got ++ drop (length got) buf).

(** [u64::from_ne_bytes(buf[..8].try_into().unwrap())]. *)
Definition read_counter (buf : list byte) : N := from_ne_bytes (take 8 buf).

(** The receiving loop of the client: the numbers it prints, each with the count of
    packets so far; [None] is a failed receive, which ends it. *)
Fixpoint client_loop (arrivals : list (option (list byte))) (recv_counter : N) (buf : list byte)
    : list (N * N) * option SpamError :=
  match arrivals with
  | [] => ([], None)
  | None :: _ => ([], Some RecvFailed)
  | Some datagram :: arrivals =>
      let buf := (recv_into datagram buf).2 in
      let recv_counter := u64_succ recv_counter in
      let '(printed, e) := client_loop arrivals recv_counter buf in
      ((read_counter buf, recv_counter) :: printed, e)
  end.

Definition uspammer_client (rate : N) (bound : bool) (arrivals : list (option (list byte)))
    : list (N * N) * option SpamError :=
  if (rate =? 0)%N then ([], Some RateMustBePositive)
  else if bound then client_loop arrivals 0 (replicate PACKET x00)
  else ([], Some CannotBindUdp).

(** The server: the numbers it prints, each with what it then sends back and to
    whom; it unwraps the result of sending. *)
Fixpoint server_loop {A} (arrivals : list (option (list byte * A * bool))) (buf : list byte)
    : list (N * option (list byte * A)) * option (outcome SpamError unit) :=
  match arrivals with
  | [] => ([], None)
  | None :: _ => ([], Some (Err RecvFailed))
  | Some (datagram, addr, accepted) :: arrivals =>
      let '(len, buf) := recv_into datagram buf in
      if accepted : bool then
        let '(out, e) := server_loop arrivals buf in
        ((read_counter buf, Some (take len buf, addr)) :: out, e)
      else ([(read_counter buf, None)], Some Panic)
  end.

Definition uspammer_server {A} (bound : bool) (arrivals : list (option (list byte * A * bool)))
    : list (N * option (list byte * A)) * option (outcome SpamError unit) :=
  if bound then server_loop arrivals (replicate PACKET x00) else ([], Some (Err CannotBindUdp)).

(** What a server has sent back. *)
Definition echoed {A} (out : list (N * option (list byte * A))) : list (list byte) := (omap snd out).*1.

(** ** Properties *)

Lemma length_to_ne_bytes n : length (to_ne_bytes n) = 8.
Proof. unfold to_ne_bytes. destruct big_endian; [apply length_be_bytes|apply length_le_bytes]. Qed.

Lemma from_to_ne_bytes n : (n < u64_modulus)%N → from_ne_bytes (to_ne_bytes n) = n.
Proof.
  unfold from_ne_bytes, to_ne_bytes. intros Hn.
  destruct big_endian; [by apply from_be_be_bytes|by apply from_le_le_bytes].
Qed.

(** The packet with number [n]. *)
Definition packet_of (n : N) : list byte := to_ne_bytes n ++ replicate (PACKET - 8) x00.

Lemma length_packet n : length (packet_of n) = PACKET.
Proof. unfold packet_of. rewrite length_app, length_to_ne_bytes, length_replicate. unfold PACKET. lia. Qed.

Lemma recv_packet n buf : length buf = PACKET → recv_into (packet_of n) buf = (PACKET, packet_of n).
Proof.
  intros Hb. unfold recv_into. rewrite take_ge by (rewrite length_packet; lia).
  rewrite length_packet, drop_ge, app_nil_r by lia. done.
Qed.

Lemma read_packet n : (n < u64_modulus)%N → read_counter (packet_of n) = n.
Proof.
  intros Hn. unfold read_counter, packet_of. rewrite take_app_length' by (by rewrite length_to_ne_bytes).
  by apply from_to_ne_bytes.
Qed.

(** The packets sent are numbered without gaps. *)
Lemma up_loop_numbers rounds n p :
  drop 8 p = replicate (PACKET - 8) x00 →
  (n + N.of_nat (length (filter (eq true) rounds)) < u64_modulus)%N →
  (up_loop rounds (mkUpTask n p)).1 =
    (λ i, packet_of (n + N.of_nat i)) <$> seq 0 (length (filter (eq true) rounds)).
Proof.
  revert n p. induction rounds as [|[] rounds IH]; intros n p Hp Hn; [done|..]; cbn [up_loop up_round send_counter up_packet].
  - rewrite filter_cons_True in Hn |- * by done. cbn [length] in *. rewrite u64_succ_small by lia. rewrite Hp.
    assert (drop 8 (to_ne_bytes n ++ replicate (PACKET - 8) x00) = replicate (PACKET - 8) x00) as Hd.
    { by rewrite drop_app_length' by (by rewrite length_to_ne_bytes). }
    specialize (IH (n + 1)%N _ Hd ltac:(lia)). destruct (up_loop rounds _) as [sent self]. cbn [fst] in *.
    cbn [option_list app seq fmap list_fmap]. rewrite N.add_0_r. cbn [send_counter]. unfold packet_of at 1.
    f_equal. rewrite IH, <-fmap_S_seq, <-list_fmap_compose. apply list_fmap_ext. intros i x _. cbn. f_equal. lia.
  - rewrite filter_cons_False in Hn |- * by done. cbn [send_counter up_packet]. rewrite Hp.
    specialize (IH n (to_ne_bytes n ++ replicate (PACKET - 8) x00)).
    rewrite drop_app_length' in IH by (by rewrite length_to_ne_bytes).
    specialize (IH eq_refl Hn). destruct (up_loop rounds _) as [sent self]. exact IH.
Qed.

Lemma server_echoes {A} (l : list (N * A)) buf :
  length buf = PACKET →
  echoed (server_loop ((λ e, Some (packet_of e.1, e.2, true)) <$> l) buf).1 = (packet_of ∘ fst) <$> l.
Proof.
  revert buf. induction l as [|[n a] l IH]; intros buf Hb; [done|]. cbn [fmap list_fmap server_loop fst snd].
  rewrite recv_packet by done. cbv beta iota zeta. specialize (IH (packet_of n) (length_packet n)).
  destruct (server_loop _ _) as [out e]. cbn [fst] in *. unfold echoed in *. cbn. rewrite IH.
  rewrite take_ge by (by rewrite length_packet). done.
Qed.

Lemma client_reads l k buf :
  length buf = PACKET → Forall (λ n, (n < u64_modulus)%N) l →
  (client_loop (Some <$> (packet_of <$> l)) k buf).1.*1 = l.
Proof.
  intros Hb Hl. revert k buf Hb. induction Hl as [|n l Hn Hl IH]; intros k buf Hb; [done|].
  cbn [fmap list_fmap client_loop]. rewrite recv_packet by done. cbv beta iota zeta. cbn [snd].
  specialize (IH (u64_succ k) (packet_of n) (length_packet n)). destruct (client_loop _ _ _) as [printed e].
  cbn [fst] in *. cbn. by rewrite IH, read_packet.
Qed.

(** The spammer's numbers: whichever sends the system refuses, the packets that go out
    are numbered 0, 1, 2, ... without gaps; whichever of them arrive at the
    server, in any order and any number of times, are sent back unchanged, and
    the client prints the numbers of those that come back. *)
Theorem spam_numbers {A} rounds rate (addr : A) arrive :
  rate ≠ 0%N → (N.of_nat (length rounds) < u64_modulus)%N →
  let sent := (up_loop rounds up_start).1 in
  length sent = length (filter (eq true) rounds) ∧
  (Forall (λ i, i < length sent) arrive →
   let echoes := echoed (uspammer_server true ((λ p, Some (p, addr, true)) <$> omap (λ i, sent !! i) arrive)).1 in
   (uspammer_client rate true (Some <$> echoes)).1.*1 = N.of_nat <$> arrive).
Proof.
  intros Hrate Hlen sent.
  assert (length (filter (eq true) rounds) ≤ length rounds) as Hf
    by (apply sublist_length, sublist_filter).
  assert (sent = (λ i, packet_of (N.of_nat i)) <$> seq 0 (length (filter (eq true) rounds))) as Hsent.
  { unfold sent, up_start. rewrite up_loop_numbers; [|by rewrite drop_replicate|lia].
    apply list_fmap_ext. intros i x _. by rewrite N.add_0_l. }
  clearbody sent. subst sent. rewrite length_fmap, length_seq. split; [done|]. intros Harrive.
  assert (omap (λ i, ((λ i, packet_of (N.of_nat i)) <$> seq 0 (length (filter (eq true) rounds))) !! i) arrive =
    packet_of ∘ N.of_nat <$> arrive) as ->.
  { induction Harrive as [|i arrive Hi _ IH]; [done|]. cbn [omap list_omap fmap list_fmap].
    rewrite list_lookup_fmap, lookup_seq_lt by done. cbn. by rewrite IH. }
  cbv zeta. unfold uspammer_server, uspammer_client. apply N.eqb_neq in Hrate as ->.
  assert (((λ p, Some (p, addr, true)) <$> (packet_of ∘ N.of_nat <$> arrive)) =
    (λ e : N * A, Some (packet_of e.1, e.2, true)) <$> ((λ i, (N.of_nat i, addr)) <$> arrive)) as ->.
  { by rewrite <-!list_fmap_compose. }
  rewrite server_echoes by apply length_replicate.
  assert (packet_of ∘ fst <$> ((λ i, (N.of_nat i, addr)) <$> arrive) = packet_of <$> (N.of_nat <$> arrive)) as ->.
  { by rewrite <-!list_fmap_compose. }
  apply client_reads; [apply length_replicate|]. apply Forall_fmap. eapply Forall_impl; [exact Harrive|].
  intros i Hi. cbn in Hi |- *. lia.
Qed.

End UdpSpammer.
End UdpSpammer.

(** * utilities/streamer *)

Module Streamer.
Section Streamer.
  Context {P : Primitives}.

Definition HELLO : list byte := bytes_of "hello!".

Inductive SpawnError := CannotReadConfig | ConfigSyntax.

(** [spawn_daemon]: reading and parsing the configuration; [Daemon::init] itself
    does not fail. *)
Definition spawn_daemon (serde_yaml : list byte → option ConfigFile) (can_read : list byte → bool)
    (path : list byte) (d : Disk) : outcome SpawnError ConfigFile :=
  bytes ← ok_or CannotReadConfig (fs_read can_read path d);
  config ← ok_or ConfigSyntax (serde_yaml bytes);
  Ok config.

(** The task for an accepted stream on what its reads of at most 10000 bytes give
    ([None]: an error): it
    unwraps both the read and the text, and never ends by itself.  At the end
    of the stream every read gives nothing. *)
Fixpoint server_handler (reads : list (option (list byte))) : list (list byte) * option (outcome Empty_set unit) :=
  match reads with
  | [] => ([], None)
  | None :: _ => ([], Some Panic)
  | Some buf :: reads =>
      match from_utf8 buf with
      | Some text => let '(lines, e) := server_handler reads in (text :: lines, e)
      | None => ([], Some Panic)
      end
  end.

(** The server's loop: a handler for each accepted stream, and an error is only
    logged. *)
Definition server_accepts {A} (accepts : list (option A)) : list A := omap id accepts.

(** The client's loop on how many bytes each [write] takes ([None]: an error): the
    bytes on the stream; the result of a short write is ignored. *)
Fixpoint hello_loop (writes : list (option nat)) : list byte * bool :=
  match writes with
  | [] => ([], false)
  | None :: _ => ([], true)
  | Some sz :: writes => let '(l, failed) := hello_loop writes in (take sz HELLO ++ l, failed)
  end.

(** ** Properties *)

Lemma client_ascii writes : Forall (λ b, in_range 0 127 b = true) (hello_loop writes).1.
Proof.
  induction writes as [|[sz|] writes IH]; [constructor| |constructor]. cbn [hello_loop].
  destruct (hello_loop writes) as [l failed]. cbn [fst] in *. apply Forall_app. split; [|exact IH].
  apply Forall_take. repeat constructor.
Qed.

(** The streamer prints what was written: however the stream splits what the client
    wrote, and however short its writes were, the server's task does not panic
    and prints exactly those bytes. *)
Theorem streamer_prints writes reads :
  mjoin reads = (hello_loop writes).1 →
  server_handler (Some <$> reads) = (reads, None).
Proof.
  intros Hr. pose proof (client_ascii writes) as Ha. rewrite <-Hr in Ha. clear Hr.
  induction reads as [|buf reads IH]; [done|]. cbn [mjoin list_join fmap list_fmap server_handler] in *.
  apply Forall_app in Ha as [Hb Ha]. rewrite ascii_from_utf8 by exact Hb. by rewrite IH.
Qed.

(** A character of two bytes that two reads share is the end of the process. *)
Theorem split_character_panics a b :
  in_range 194 223 a = true → (server_handler [Some [a]; Some [b]]).2 = Some Panic.
Proof. intros Ha. destruct a; try discriminate Ha; reflexivity. Qed.

End Streamer.
End Streamer.

(** * The benchmarks of libraries/earendil_packet *)

Module Benches.
Section Benches.
  Context {P : Primitives} {B : Bincode InnerPacket}.

Fixpoint times {S E A} (n : nat) (m : M S E A) : M S E unit :=
  match n with
  | O => mret tt
  | Datatypes.S n => _ ← m; times n m
  end.

(** [black_box]: the value, or error, is dropped. *)
Definition black_box {S E F A} (m : M S E A) : M S F unit := λ s,
  match m s with
  | (Ok _, s) | (Err _, s) => (Ok tt, s)
  | (Panic, s) => (Panic, s)
  | (OutOfFuel, s) => (OutOfFuel, s)
  end.

(** [src/bin/box_bench.rs]. *)
Definition box_bench {E} (iterations : nat) : Rand E unit :=
  let message := replicate (N.to_nat 16384) x00 in
  recipient_sk ← OnionSecret_generate;
  let recipient_pk := OnionSecret_public recipient_sk in
  _ ← times iterations (box_encrypt message recipient_pk);
  '(encrypted_message, _) ← box_encrypt message recipient_pk;
  times iterations (expect (lift (box_decrypt encrypted_message recipient_sk))).

Definition hello_world : Message := mkMessage 0%N 0%N [bytes_of "hello world"].

(** [benches/benchmark.rs]: for one length of the route, and the whole. *)
Definition bench_route {E} (iterations route_length : nat) : Rand E unit :=
  route ← PacketTests.generate_forward_instructions route_length;
  let route := route.*1 in
  destination_sk ← OnionSecret_generate;
  let destination := OnionSecret_public destination_sk in
  my_isk ← IdentitySecret_generate;
  my_osk ← OnionSecret_generate;
  let my_opk := OnionSecret_public my_osk in
  _ ← times iterations (black_box (new_normal route destination (IMessage hello_world) my_isk));
  my_anon_osk ← OnionSecret_generate;
  my_anon_isk ← IdentitySecret_generate;
  times iterations (black_box (ReplyBlock_new route my_opk my_anon_osk my_anon_isk)).

Definition criterion_benchmark {E} (iterations : nat) : Rand E unit :=
  _ ← times iterations OnionSecret_generate;
  _ ← bench_route iterations 1;
  _ ← bench_route iterations 4;
  bench_route iterations 8.

(** ** Properties *)

Context {PL : PrimitivesLaws P} {BL : BincodeLaws InnerPacket}.

(** A computation that succeeds on every generator. *)
Definition succeeds {E A} (m : Rand E A) : Prop := ∀ r, is_ok (m r).1 = true.

Lemma succeeds_bind {E A A'} (m : Rand E A) (f : A → Rand E A') :
  succeeds m → (∀ r a r', m r = (Ok a, r') → is_ok (f a r').1 = true) → succeeds (m ≫= f).
Proof.
  intros Hm Hf r. unfold mbind, M_bind. specialize (Hm r). destruct (m r) as [[] r'] eqn:E0; try done.
  by eapply Hf.
Qed.

Lemma succeeds_times {E A} n (m : Rand E A) : succeeds m → succeeds (times n m).
Proof.
  intros Hm. induction n as [|n IH]; [by intros r|]. apply succeeds_bind; [done|]. intros r a r' _. apply IH.
Qed.

Lemma succeeds_black_box {E F A} (m : Rand F A) : (∀ r, returns (m r).1) → succeeds (black_box (F:=E) m).
Proof. intros Hm r. unfold black_box. specialize (Hm r). by destruct (m r) as [[] r']. Qed.

Lemma succeeds_sample {E A} (f : rng → A * rng) : succeeds (sample (E:=E) f).
Proof. intros r. unfold sample. by destruct (f r). Qed.

Lemma succeeds_instructions {E} n : succeeds (PacketTests.generate_forward_instructions (E:=E) n).
Proof.
  induction n as [|n IH]; [by intros r|]. apply succeeds_bind; [apply succeeds_sample|]. intros r sk r' _.
  generalize r'. apply succeeds_bind; [exact IH|]. done.
Qed.

(** The benchmarks run to their end: on every generator and for any number of iterations, the
    box benchmark opens what it sealed, and no construction of the packet
    benchmark panics. *)
Theorem benchmarks_complete iterations r :
  is_ok (box_bench (E:=Empty_set) iterations r).1 = true ∧
  is_ok (criterion_benchmark (E:=Empty_set) iterations r).1 = true.
Proof.
  assert (N.of_nat (N.to_nat 16384) <= aead_max_plaintext)%N as Hmax by (rewrite N2Nat.id; done).
  split; revert r.
  - apply succeeds_bind; [apply succeeds_sample|]. intros r sk r1 _.
    assert (∀ r, ∃ c eph r', box_encrypt (E:=Empty_set) (replicate (N.to_nat 16384) x00) (OnionSecret_public sk) r =
      (Ok (c, eph), r') ∧ is_ok (box_decrypt c sk) = true) as Henc.
    { intros r0. destruct (box_encrypt_ok (E:=Empty_set) (replicate (N.to_nat 16384) x00) (OnionSecret_public sk) r0)
        as (c & eph & r' & Hc & _ & Hd); [by rewrite length_replicate|].
      exists c, eph, r'. split; [done|]. by destruct (Hd sk eq_refl) as [-> _]. }
    generalize r1. apply succeeds_bind.
    { apply succeeds_times. intros r0. destruct (Henc r0) as (c & eph & r' & -> & _). done. }
    intros r2 [] r3 _. unfold mbind, M_bind. destruct (Henc r3) as (c & eph & r' & -> & Hd).
    apply succeeds_times. intros r4. unfold expect, lift. by destruct (box_decrypt c sk).
  - assert (∀ n, succeeds (bench_route (E:=Empty_set) iterations n)) as Hroute.
    { intros n. apply succeeds_bind; [apply succeeds_instructions|]. intros r route r1 _. generalize r1.
      apply succeeds_bind; [apply succeeds_sample|]. intros r2 dsk r3 _. generalize r3.
      apply succeeds_bind; [apply succeeds_sample|]. intros r4 isk r5 _. generalize r5.
      apply succeeds_bind; [apply succeeds_sample|]. intros r6 osk r7 _. generalize r7.
      apply succeeds_bind; [apply succeeds_times, succeeds_black_box; intros; apply new_normal_returns|].
      intros r8 [] r9 _. generalize r9.
      apply succeeds_bind; [apply succeeds_sample|]. intros r10 aosk r11 _. generalize r11.
      apply succeeds_bind; [apply succeeds_sample|]. intros r12 aisk r13 _. generalize r13.
      apply succeeds_times, succeeds_black_box. intros. apply ReplyBlock_new_returns. }
    apply succeeds_bind; [apply succeeds_times, succeeds_sample|]. intros r [] r1 _. generalize r1.
    apply succeeds_bind; [apply Hroute|]. intros r2 [] r3 _. generalize r3.
    apply succeeds_bind; [apply Hroute|]. intros r4 [] r5 _. apply Hroute.
Qed.

End Benches.
End Benches.

(** * Witnesses *)

(** The second send is refused; packet 1 arrives before packet 0 and twice. *)
Lemma spam_numbers_witness :
  let sent := (UdpSpammer.up_loop false [true; false; true] UdpSpammer.up_start).1 in
  let echoes := UdpSpammer.echoed (UdpSpammer.uspammer_server false true
    ((λ p, Some (p, tt, true)) <$> omap (λ i, sent !! i) [1; 0; 1])).1 in
  (UdpSpammer.uspammer_client false 10 true (Some <$> echoes)).1.*1 = [1%N; 0%N; 1%N].
Proof.
  destruct (UdpSpammer.spam_numbers false [true; false; true] 10 tt [1; 0; 1]) as [Hlen H].
  - discriminate.
  - reflexivity.
  - apply H. repeat constructor.
Defined.

Lemma streamer_prints_witness :
  Streamer.server_handler (Some <$> [bytes_of "hel"; bytes_of "lo!he"; []]) =
    ([bytes_of "hel"; bytes_of "lo!he"; []], None).
Proof.
  apply (Streamer.streamer_prints [Some 6; Some 2] [bytes_of "hel"; bytes_of "lo!he"; []]). reflexivity.
Defined.

Lemma split_character_panics_witness : (Streamer.server_handler [Some [xc3]; Some [xa9]]).2 = Some Panic.
Proof. apply (Streamer.split_character_panics xc3 xa9). reflexivity. Defined.
